(* ===== verification/_CoqProject ===== *)
-Q . S2P
Prelude.v
CInt.v
Match.v
MatchSpec.v
Heap.v
Trie.v
TrieSpec.v
WordSet.v
Magic.v
Block.v
Buffer.v
BufferSpec.v
BufferAmend.v
BufferClaims.v
File.v
Options.v
Worker.v
WorkerSpec.v
WorkerClaims.v
Scarce.v
LinkedList.v
Rope.v
Dispatcher.v
Proc.v
Fair.v
Locks.v
Pipeline.v
Main.v
Program.v
ProgramInv.v
ProgramCore.v
ProgramSafe.v
ProgramWork.v
ProgramClaims.v
ProgramSolo.v
Lcrq.v
LcrqInv.v
LcrqSafe.v
LcrqClaims.v
LcrqSeq.v
LcrqFifo.v
LcrqProgress.v
LcrqDequeue.v
LcrqBench.v
ThreadPool.v
PoolThreads.v
PipeTest.v
ReadDir.v
Trie16.v
CheckBuffer.v
MagicGen.v
FileExp.v
Expectations.v
