(* ===== verification/Prelude.v ===== *)
(** * ssearcher: a verification development

    ssearcher searches the files below the current directory for a fixed
    string. Its [main] parses the options ([src/options.c]), makes the pipes
    ([src/main.c]) and starts three threads: a dispatcher that walks the tree,
    leaves out version control directories and binary files, and writes a
    [fileinfo] record for each remaining file into a pipe; and two workers
    ([src/thread.c]) that take the records out under [readmtx], map the file
    ([src/file.c]), look for the pattern ([src/match.c]), collect the matching
    lines with the match highlighted in a buffer ([src/buffer.c]), and print
    the buffer under [outmtx]. Binary files are recognised by magic numbers
    ([src/magic.c]) kept in a prefix tree ([src/util.c]).

    ** How programs are modelled

    A computation that can fail is an [outcome]: [Ok] with a value, or [Fail]
    with a [fault] that says how it stops (a read or write out of bounds, a
    NULL or dangling pointer, an uninitialised read, overlapping regions,
    signed overflow, a failed assertion, a call of [exit], or fuel that ran
    out). A function that changes a state of type [S] is a computation in
    [M S A]; [wp m Q s] says that it ends normally in a state satisfying [Q],
    and [o ⇓ Q] says the same of an [outcome]. A theorem of one of these forms
    therefore includes the absence of undefined behaviour and termination.
    Machine integers are integers of [Z] with the wrap-around of their type
    written out ([u64], [u32], [to_int]), and [int] additions fail on
    overflow. An array is a list; indexing outside it is a fault. What the
    program does not define is a parameter: the success of the allocator, what
    [fstat], [mmap], [open], [read] and [pipe] return, what [%zd] prints for an [int],
    the bytes of stack that [magic_scan] reads.

    ** The files

    - [Prelude], [CInt]: bytes, outcomes, the state monad and its [wp] rules;
      machine integers and array accesses.
    - [Match], [MatchSpec]: [kmp_prepare], [kmp_match], [kmp_finish]; the loop
      refines an automaton over natural numbers ([kmp_move]); C5, C6, C7 say
      when the matcher finds every first occurrence, when it counts lines
      right, and that it is always sound; C30 says what its table holds and when
      its entries are the longest borders. The
      failure function is not iterated in the code: [adequate] and
      [line_exact] are decidable characterisations of the patterns for which
      this does no harm.
    - [Heap], [Trie], [TrieSpec]: the prefix tree in a heap of nodes with a
      limited number of blocks; C23 relates it to sets of words and to
      memory, and lemmas say what each operation does, without memory too.
    - [WordSet], [Magic]: an interface of word sets, with memory that may run out,
      its implementation by the prefix tree, and the detector proved against the
      interface; C9, C34, C35.
    - [Block], [Buffer], [BufferSpec], [BufferAmend], [BufferClaims]: the result
      buffer as a block of bytes that may be uninitialised, with its capacity
      and cursor; C24 to C26, C31, C32. [holds st s] is its
      abstraction to the text [s].
    - [File], [Options]: mapping of files over a process state of descriptors,
      mappings, live names and printed text; the command line: [getopt_long] as
      the program calls it, and what [parse_options] makes of every command line
      (C33), a long option that is not in its table included.
    - [Worker], [WorkerSpec], [WorkerClaims]: the search of one file and the
      whole of [worker_thread]; C3, C4, C27. [found] is what the matcher finds in
      a file, for any pattern; [hits] says what that is: occurrences, in order,
      and for an adequate pattern the reference [matches], the leftmost
      occurrences that do not overlap.
    - [LinkedList], [Rope]: the intrusive list of [src/util.h] and the list of
      ropes of [src/buffer.c]; C28, C29, and [rope_tear_frees_iff].
    - [Dispatcher]: the walk over a tree of entries (C8); [ReadDir]: the branch
      that is compiled when [ENABLE_FTS] is not defined (C20).
    - [Pipeline]: dispatcher, pipe, mutexes and any number of workers as a step
      relation over what each file prints; C36, C39.
    - [Main]: the pipes of [sf_init], and what is printed for a file.
      [CheckBuffer]: [sf_check_buffer].
    - [Proc]: programs whose actions are atomic steps on a shared state, the
      configurations of several threads and their schedules, and the predicate
      [safe]: a program that keeps an invariant whatever the other threads do
      between its actions. [Fair]: threads of which one can always move, and
      whose programs end, come to their end under every fair schedule. [Locks]:
      lists of threads of which one takes a step, and the mutexes they hold.
    - [Program]: the whole program. The dispatcher and the workers are programs
      in the sense of [Proc]; each call of the operating system and each lock and
      unlock is an action on the process, the pipe and the mutexes that all
      threads share, and [main] runs them under a schedule between [sf_init] and
      [sf_exit]. [ProgramInv] states the invariant: the books of each thread
      (descriptors, names, mappings, files in hand, output under [outmtx]) and
      what their totals have to do with the process and with the files of the
      tree. [ProgramCore] says what each action does to the totals,
      [ProgramSafe] and [ProgramWork] prove the dispatcher and the workers safe,
      and [ProgramClaims] concludes: what the program prints and leaves under
      every schedule (C1), that it ends under every fair one (C2), and that each of
      its runs is a run of [Pipeline] (C10). They cover the runs in which the
      program ends early ([gives_up]): a call of [pipe], [fstat], [mmap] or
      [munmap] fails and it leaves by [die] ([flaky] says whether the calls of
      [src/file.c] may fail), or memory is short, for a worker or for the nodes of
      the detector, or the reports of a file fill the block of the buffer and
      printing them reads past it ([may_fill], C32). [Scarce] shows that up to the
      request that is refused the allocator makes no difference.
      [ProgramSolo]: lemmas that a thread of the program that runs alone does
      what [worker_file] and [dispatcher_thread] do.
    - [MagicGen]: the script [utils/gen_magic_header.pl], whose output for
      [magic_defs] and [magic.c.tmpl] is [magic.c], byte for byte; for any list of
      well-formed definitions what it writes is read back, character by character,
      as rows that are as the detector needs them (C38).

    The programs under [snippets/] are experiments with parts of the design:

    - [Lcrq]: the concurrent queue of [snippets/lcrq.c], one action for each
      access to shared memory. [LcrqInv] states the invariant, which counts
      where each value is; [LcrqSafe] has the rules of the actions; [LcrqClaims]
      proves that every schedule keeps all values in the rings (C12), but that
      rings which [head] and [tail] have passed are out of reach for ever, and
      exhibits a schedule that leaves values in one (C14). [LcrqSeq] describes a
      queue that one thread at a time uses as the list of its values; [LcrqFifo]
      proves that it is a FIFO queue (C13), once something has been enqueued (C15). The atomic
      primitives are in a header that is not in the repository: they are the
      class [Primitives], with the laws [PrimitivesLaws]; [atomics] is an
      instance. [LcrqProgress]: [enqueue] is obstruction-free (C11);
      [LcrqDequeue]: so is [dequeue], once each ring has been enqueued to (C37).
      [LcrqBench]: the benchmark's [main] and its threads, which wait for each
      other at a barrier; each of its runs is a run of threads on the queue alone,
      so its values are accounted for from the arguments on; the barrier opens, and
      no thread waits after that (C22); that their calls return is not said.
    - [PipeTest]: the pipe of [snippets/test_pipe.c] as a step relation over
      bytes; C16.
    - [ThreadPool]: the pool of [snippets/test_worker.c] against an abstract
      pool of slots; C17. [PoolThreads]: the program as threads that wait on the
      condition variable, on a [platform] that says what becomes of calls which the
      standard leaves undefined; what every schedule keeps, and that nothing else
      goes wrong (C18), that its first wait is undefined (C19), and, on a platform
      where it is not, an execution that comes to a standstill ([pool_hangs]).
    - [FileExp]: the two small programs [snippets/filemagic.c] and
      [snippets/file-mt.c].
    - [Trie16]: the earlier prefix tree of [snippets/trie.c], described by the
      word that leads to each block; C21.
    - [Expectations]: what the programs under [test/] expect holds of the model;
      where they use random words, for all words.

    ** Fuel

    Each loop has a bound that its theorems show to be enough: two iterations
    and one more for each character in [kmp_match] (every iteration consumes a
    character or clears [pat_pos]), the size of the word in [trie_walk], the
    number of live blocks in [trie_destroy] and a recursion deeper than the
    longest word in that of [snippets/trie.c], 64 doublings in [buffer_grow],
    the length of the content in the scans for the end of a line, the position
    in [begin_of_line], the size of the file in the search loop (a match is
    never empty), the number of entries in the traversals of a list, one more
    iteration than there are files to be sent in the loop of a worker. A loop that
    can run for ever is shown to exhaust every amount of fuel
    ([grow_loop_ends_iff], C15). The
    loops of the queue may spin under an unfair schedule; running alone they end
    within two iterations of the outer loop and one of the inner ones (C13),
    [enqueue] within as many as there are rings and cells in a ring when other
    threads have stopped in the middle of their calls (C11), [dequeue] within as
    many as there are tickets in its rings, each with 200,002 of the inner loop
    (C37), and under any schedule they go wrong in no other way than by still
    running (C12 and C22, for [enqueue] up to the largest [int] of iterations,
    since [try_close] is an [int]). A worker of the thread pool may wake up by itself
    any number of times; what C18 says of it holds for every amount of fuel.

    ** Bounds of the theorems

    The matcher's positions and line counter are [int]: the texts are short
    enough for them not to overflow (twice, in the search loop three times, the
    size is below 2^31). The buffer's theorems ask for an allocator that
    succeeds and for less than 2^61 bytes of text; those of the whole program
    (C1, C2, C10) hold for any allocator of the buffers and tables and for any
    room for nodes, for a pattern that is not empty and no longer than an [int] can
    say, and for files to be sent that are [searchable]: shorter than a third of
    the largest [int], with reports for all occurrences of the pattern. A report needs a match that ends in the first 1024 columns of
    its line, and a line whose end can be read in the mapping: both are where the
    code itself stops being defined ([writeline_color_overflows],
    [writeline_color_reads_past]). The queue's rings have at most 2^30 cells, and
    its calls are few enough for no ticket to reach 2^62.

    ** What is not modelled

    Debug output and the assertions under [DEBUG]; the failure of a write to the
    pipe, of [lstat], of [fts_open], of the [strndup] of a path and of the
    [pthread_create] of [test_procon], none of which the code handles; the text of
    [print_usage], which ends the program; [getopt_long] when POSIXLY_CORRECT is
    set. In [Program] the search of a file is one
    action, since it touches only what the thread owns. The worker's file-local
    statics [nll] and [cnt] are one copy for both threads; the model gives each
    worker its own, which is enough because the branch that reads them is never
    taken (C27). In the queue, the code under [RING_STATS] and [HAVE_HPTRS], which
    the file leaves undefined, the clock, the pauses and the printing of the
    benchmark ([lcrq_main] keeps the value printed as [full]), and the weak
    ordering of plain accesses: an action sees the effect of all earlier ones.
    In the thread pool, debug output, [io_mutex], which nothing locks, and the
    steps of a worker before [thread_pool_init] has created the next.
    [snippets/file-mt.c] does not compile because of its line 6 ([#defne]) and is
    read as if that line were not there. *)

From Stdlib Require Export ZArith Lia.
From Stdlib Require Export Strings.Byte.
From Stdlib Require String.
Export String.StringSyntax.
Delimit Scope string_scope with string.
From stdpp Require Export base tactics numbers list gmap option.

(** ** Bytes *)

(** A C [char] or [uint8_t]: only equality and the value as an array index
    are ever used by the program. *)
Abbreviation byte := Byte.byte.

#[export] Instance byte_eq_dec : EqDecision byte := Byte.byte_eq_dec.

#[export] Instance byte_inhabited : Inhabited byte := populate x00.

#[export] Program Instance byte_countable : Countable byte :=
  inj_countable Byte.to_N Byte.of_N _.
Next Obligation. intros b. apply Byte.of_to_N. Qed.

(** The value of a [uint8_t] used as an array index. *)
Definition u8 (b : byte) : nat := N.to_nat (Byte.to_N b).

Lemma u8_bound b : (u8 b < 256)%nat.
Proof. unfold u8. pose proof (Byte.to_N_bounded b). lia. Qed.

Lemma u8_inj b1 b2 : u8 b1 = u8 b2 → b1 = b2.
Proof.
  unfold u8. intros H%N2Nat.inj. apply (f_equal Byte.of_N) in H.
  rewrite !Byte.of_to_N in H. congruence.
Qed.

(** The bytes of an ASCII literal. *)
Definition bytes_of (s : String.string) : list byte := String.list_byte_of_string s.
Arguments bytes_of s%_string.

(** ** Outcomes *)

(** The ways in which a C computation stops short of a value: undefined
    behaviour (classified; [NotOwner] is the use of a mutex that the thread does
    not hold), a failed [assert], a call of [exit], a mutex that another thread
    holds, or a loop that is still running when its fuel is
    spent. *)
Inductive fault : Type :=
  | OutOfBounds
  | NullPointer
  | UseAfterFree
  | Uninitialised
  | Overlap
  | SignedOverflow
  | AssertionFailed
  | NotOwner
  | Exited (code : Z)
  | Blocked
  | OutOfFuel.

#[export] Instance fault_eq_dec : EqDecision fault.
Proof. solve_decision. Defined.

Inductive outcome (A : Type) : Type :=
  | Ok (a : A)
  | Fail (f : fault).
Arguments Ok {A} a.
Arguments Fail {A} f.

#[export] Instance outcome_eq_dec `{EqDecision A} : EqDecision (outcome A).
Proof. solve_decision. Defined.

#[export] Instance outcome_ret : MRet outcome := @Ok.
#[export] Instance outcome_bind : MBind outcome := λ A B k o,
  match o with Ok a => k a | Fail f => Fail f end.

Lemma bind_Ok {A B} (a : A) (k : A → outcome B) : (Ok a ≫= k) = k a.
Proof. done. Qed.

Lemma bind_Fail {A B} f (k : A → outcome B) : (Fail f ≫= k) = Fail f.
Proof. done. Qed.

(** [o ⇓ Q]: the computation [o] ends normally and its value satisfies [Q]. *)
Definition yields {A} (o : outcome A) (Q : A → Prop) : Prop :=
  match o with Ok a => Q a | Fail _ => False end.

Declare Scope ss_scope.
Delimit Scope ss_scope with ss.
Notation "o '⇓' Q" := (yields o Q) (at level 70, no associativity) : ss_scope.
#[global] Open Scope ss_scope.

Lemma yields_ret {A} (a : A) (Q : A → Prop) : Q a → mret a ⇓ Q.
Proof. done. Qed.

Lemma yields_bind {A B} (o : outcome A) (k : A → outcome B) Q :
  o ⇓ (λ a, k a ⇓ Q) → (o ≫= k) ⇓ Q.
Proof. by destruct o. Qed.

Lemma yields_mono {A} (o : outcome A) (P Q : A → Prop) :
  o ⇓ P → (∀ a, P a → Q a) → o ⇓ Q.
Proof. destruct o; simpl; auto. Qed.

Lemma yields_Ok {A} (o : outcome A) (Q : A → Prop) :
  o ⇓ Q ↔ ∃ a, o = Ok a ∧ Q a.
Proof. destruct o; simpl; naive_solver. Qed.

(** A guard that stops with the fault [f] when the condition is false. *)
Definition check (c : bool) (f : fault) : outcome unit :=
  if c then Ok tt else Fail f.

Lemma yields_check (c : bool) f (Q : unit → Prop) :
  c = true → Q tt → check c f ⇓ Q.
Proof. by intros ->. Qed.

(** ** Stateful computations *)

(** A C function that reads and writes a state of type [S]. *)
Definition M (S A : Type) : Type := S → outcome (A * S).

#[export] Instance M_ret S : MRet (M S) := λ A a s, Ok (a, s).
#[export] Instance M_bind S : MBind (M S) := λ A B k m s,
  match m s with Ok (a, s') => k a s' | Fail f => Fail f end.

Definition get {S} : M S S := λ s, Ok (s, s).
Definition put {S} (s : S) : M S unit := λ _, Ok (tt, s).
Definition fail {S A} (f : fault) : M S A := λ _, Fail f.
Definition lift {S A} (o : outcome A) : M S A :=
  λ s, match o with Ok a => Ok (a, s) | Fail f => Fail f end.

(** [wp m Q s]: run from [s], [m] ends normally in a state satisfying [Q]. *)
Definition wp {S A} (m : M S A) (Q : A → S → Prop) (s : S) : Prop :=
  m s ⇓ (λ r, Q r.1 r.2).

Section wp.
Context {S : Type}.
Implicit Types s : S.

Lemma wp_ret {A} (a : A) Q s : Q a s → wp (mret a) Q s.
Proof. done. Qed.

Lemma wp_bind {A B} (m : M S A) (k : A → M S B) Q s :
  wp m (λ a, wp (k a) Q) s → wp (m ≫= k) Q s.
Proof. unfold wp, mbind, M_bind. by destruct (m s) as [[]|]. Qed.

Lemma wp_mono {A} (m : M S A) (P Q : A → S → Prop) s :
  wp m P s → (∀ a s', P a s' → Q a s') → wp m Q s.
Proof. unfold wp. destruct (m s) as [[]|]; simpl; auto. Qed.

Lemma wp_get Q s : Q s s → wp get Q s.
Proof. done. Qed.

Lemma wp_put s' (Q : unit → S → Prop) s : Q tt s' → wp (put s') Q s.
Proof. done. Qed.

Lemma wp_lift {A} (o : outcome A) (Q : A → S → Prop) s :
  o ⇓ (λ a, Q a s) → wp (lift o) Q s.
Proof. unfold wp, lift. by destruct o. Qed.

Lemma wp_run_eq {A} (m : M S A) Q s a s' : m s = Ok (a, s') → Q a s' → wp m Q s.
Proof. intros H HQ. unfold wp. by rewrite H. Qed.

Lemma run_bind {A B} (m : M S A) (k : A → M S B) s a s' : m s = Ok (a, s') → (m ≫= k) s = k a s'.
Proof. intros H. unfold mbind, M_bind. by rewrite H. Qed.

Lemma run_bind_fail {A B} (m : M S A) (k : A → M S B) s f : m s = Fail f → (m ≫= k) s = Fail f.
Proof. intros H. unfold mbind, M_bind. by rewrite H. Qed.

Lemma wp_run {A} (m : M S A) Q s :
  wp m Q s ↔ ∃ a s', m s = Ok (a, s') ∧ Q a s'.
Proof. unfold wp. destruct (m s) as [[]|]; simpl; naive_solver. Qed.
End wp.

Create HintDb ss discriminated.
#[export] Hint Resolve yields_ret yields_check wp_ret wp_get wp_put wp_lift : ss.

(** Push a goal [wp] or [⇓] through the binds at its head. *)
Ltac wp_bind := first [ apply wp_bind | apply yields_bind ].
Ltac wp_step :=
  first [ apply wp_bind | apply yields_bind
        | apply wp_ret | apply yields_ret
        | apply wp_get | apply wp_put | apply wp_lift
        | apply yields_check; [done|] ].
Ltac wp_steps := repeat (wp_step; cbn beta).

(** Reduce the binds whose first computation is known. *)
Ltac ok_simpl := repeat first [rewrite bind_Ok | rewrite bind_Fail]; cbv beta.

(** Split a successful run of a bind into the runs of its parts. *)
Lemma M_bind_Ok {S A B} (m : M S A) (k : A → M S B) s r :
  (m ≫= k) s = Ok r → ∃ a s', m s = Ok (a, s') ∧ k a s' = Ok r.
Proof. unfold mbind, M_bind. destruct (m s) as [[]|]; naive_solver. Qed.

Lemma outcome_bind_Ok {A B} (o : outcome A) (k : A → outcome B) r :
  (o ≫= k) = Ok r → ∃ a, o = Ok a ∧ k a = Ok r.
Proof. destruct o; naive_solver. Qed.
