(* ===== verification/CInt.v ===== *)
(** Machine integers: the widths the program uses, with wrap-around on the
    unsigned types and a fault on signed overflow. *)

From S2P Require Import Prelude.
Local Open Scope Z_scope.

(** [size_t], [uint64_t] and [uint32_t] hold values modulo their width. *)
Definition U64_MOD : Z := 2 ^ 64.
Definition U32_MOD : Z := 2 ^ 32.
Definition INT_MAX : Z := 2 ^ 31 - 1.
Definition INT_MIN : Z := - 2 ^ 31.

Definition u64 (z : Z) : Z := z mod U64_MOD.
Definition u32 (z : Z) : Z := z mod U32_MOD.

(** Conversion of an unsigned value to [int] (two's complement, as gcc and
    clang define it). *)
Definition to_int (z : Z) : Z := (z + 2 ^ 31) mod 2 ^ 32 - 2 ^ 31.

(** Addition on [int]: overflow is undefined. *)
Definition int_add (a b : Z) : outcome Z :=
  if bool_decide (INT_MIN ≤ a + b ≤ INT_MAX) then Ok (a + b) else Fail SignedOverflow.

Lemma u64_small z : 0 ≤ z < U64_MOD → u64 z = z.
Proof. apply Z.mod_small. Qed.
Lemma u32_small z : 0 ≤ z < U32_MOD → u32 z = z.
Proof. apply Z.mod_small. Qed.
Lemma u64_range z : 0 ≤ u64 z < U64_MOD.
Proof. by apply Z.mod_pos_bound. Qed.
Lemma u32_range z : 0 ≤ u32 z < U32_MOD.
Proof. by apply Z.mod_pos_bound. Qed.
Lemma u64_idemp z : u64 (u64 z) = u64 z.
Proof. apply u64_small, u64_range. Qed.
Lemma to_int_small z : 0 ≤ z ≤ INT_MAX → to_int z = z.
Proof. unfold to_int, INT_MAX. intros. rewrite Z.mod_small; lia. Qed.

Lemma int_add_ok a b : INT_MIN ≤ a + b ≤ INT_MAX → int_add a b = Ok (a + b).
Proof. intros. unfold int_add. by rewrite bool_decide_true. Qed.

#[export] Hint Rewrite u64_small u32_small to_int_small int_add_ok
  using (unfold U64_MOD, U32_MOD, INT_MIN, INT_MAX in *; lia) : cint.

(** Decide the arithmetic side conditions on machine integers. *)
Ltac cint_lia := unfold U64_MOD, U32_MOD, INT_MIN, INT_MAX in *; lia.

(** [a[i]] on an array of known extent: reading outside it is a fault. *)
Definition rd {A} (a : list A) (i : Z) : outcome A :=
  if bool_decide (0 ≤ i) then
    match a !! Z.to_nat i with Some x => Ok x | None => Fail OutOfBounds end
  else Fail OutOfBounds.

(** [a[i] = x]. *)
Definition wr {A} (a : list A) (i : Z) (x : A) : outcome (list A) :=
  if bool_decide (0 ≤ i < Z.of_nat (length a)) then Ok (<[Z.to_nat i := x]> a)
  else Fail OutOfBounds.

Lemma rd_Some {A} (a : list A) i x :
  0 ≤ i → a !! Z.to_nat i = Some x → rd a i = Ok x.
Proof. intros ? Hx. unfold rd. rewrite bool_decide_true by done. by rewrite Hx. Qed.

Lemma rd_nat {A} (a : list A) (i : nat) x : a !! i = Some x → rd a (Z.of_nat i) = Ok x.
Proof. intros. apply rd_Some; [lia|]. by rewrite Nat2Z.id. Qed.

Lemma rd_nat_None {A} (a : list A) (i : nat) :
  a !! i = None → rd a (Z.of_nat i) = Fail OutOfBounds.
Proof. intros Hi. unfold rd. rewrite bool_decide_true by lia. by rewrite Nat2Z.id, Hi. Qed.

Lemma wr_nat {A} (a : list A) (i : nat) x :
  (i < length a)%nat → wr a (Z.of_nat i) x = Ok (<[i := x]> a).
Proof. intros. unfold wr. rewrite bool_decide_true by lia. by rewrite Nat2Z.id. Qed.
