(* ===== verification/Match.v ===== *)
(** The string matcher of [src/match.c]: the failure table built by
    [kmp_prepare], the search loop of [kmp_match], [kmp_finish], and the
    refinement of the loop to a small automaton over natural numbers that
    the theory in [MatchSpec] reasons about. *)

From S2P Require Import Prelude CInt.
Local Open Scope Z_scope.

(** ** State *)

(** The thread-local statics of the file. [pat] is the memory that can be
    read through the pattern pointer; [kmp_table] is NULL or a block of
    [int] cells, a cell being [None] until it is written. *)
Record kmp_state := KmpState {
  pat : list byte;
  pat_len : Z;
  kmp_table : option (list (option Z));
}.

(** The values of the statics when a thread starts. *)
Definition kmp_initial : kmp_state :=
  {| pat := []; pat_len := 0; kmp_table := None |}.

Definition newline : byte := x0a.

(** Read an [int] cell of the table. *)
Definition rd_int (tbl : list (option Z)) (i : Z) : outcome Z :=
  c ← rd tbl i;
  match c with Some v => Ok v | None => Fail Uninitialised end.

(** ** [kmp_prepare] *)

(** The loop [for (i = 1; i < pat_len; i++)]: [i] is an [int] that the
    comparison converts to [size_t]. *)
Fixpoint kmp_fill (fuel : nat) (pattern : list byte) (len : Z)
    (i : Z) (tbl : list (option Z)) : outcome (list (option Z)) :=
  if bool_decide (u64 i < len) then
    match fuel with
    | O => Fail OutOfFuel
    | S fuel' =>
        prev ← rd_int tbl (i - 1);
        a ← rd pattern prev;
        b ← rd pattern i;
        tbl' ← (if bool_decide (a = b) then
                  prev' ← rd_int tbl (i - 1);
                  v ← int_add prev' 1;
                  wr tbl i (Some v)
                else wr tbl i (Some 0));
        i' ← int_add i 1;
        kmp_fill fuel' pattern len i' tbl'
    end
  else Ok tbl.

(** [mem_ok] is the success of [posix_memalign]; the block it returns has
    room for [sizeof(int) * pat_len] bytes and is not initialised. *)
Definition kmp_prepare (mem_ok : bool) (pattern : list byte) (pattern_length : Z)
    (st : kmp_state) : outcome kmp_state :=
  tbl ← match kmp_table st with
        | Some t => Ok t
        | None =>
            if mem_ok then Ok (replicate (Z.to_nat (u64 (4 * pattern_length) / 4)) None)
            else Fail (Exited (-1))
        end;
  tbl ← wr tbl 0 (Some 0);
  tbl ← kmp_fill (Z.to_nat pattern_length) pattern pattern_length 1 tbl;
  Ok {| pat := pattern; pat_len := pattern_length; kmp_table := Some tbl |}.

(** ** [kmp_match] *)

Record kmp_vars := KmpVars { pat_pos : Z; text_pos : Z; line_cnt : Z }.

(** How one iteration of the loop ends: the next one, or [goto found]. *)
Inductive kmp_flow :=
  | Next (v : kmp_vars)
  | Found (v : kmp_vars).

(** [kmp_table[i]] through the thread's table pointer. *)
Definition table_at (st : kmp_state) (i : Z) : outcome Z :=
  match kmp_table st with
  | None => Fail NullPointer
  | Some t => rd_int t i
  end.

(** The branch taken when [text[text_pos] == pat[pat_pos]]. *)
Definition kmp_hit (st : kmp_state) (v : kmp_vars) : outcome kmp_flow :=
  if bool_decide (u64 (pat_pos v) = u64 (pat_len st - 1)) then Ok (Found v)
  else
    p ← int_add (pat_pos v) 1;
    t ← int_add (text_pos v) 1;
    Ok (Next (KmpVars p t (line_cnt v))).

(** The body of [while (text_pos < text_len)]. *)
Definition kmp_body (st : kmp_state) (text : list byte) (v : kmp_vars) : outcome kmp_flow :=
  c ← rd text (text_pos v);
  line ← (if bool_decide (c = newline) then int_add (line_cnt v) 1 else Ok (line_cnt v));
  p ← rd (pat st) (pat_pos v);
  if bool_decide (c = p) then kmp_hit st (KmpVars (pat_pos v) (text_pos v) line)
  else if bool_decide (pat_pos v = 0) then
    t ← int_add (text_pos v) 1;
    Ok (Next (KmpVars (pat_pos v) t line))
  else
    q ← table_at st (pat_pos v - 1);
    p' ← rd (pat st) q;
    if bool_decide (c = p') then kmp_hit st (KmpVars q (text_pos v) line)
    else if bool_decide (q ≠ 0) then Ok (Next (KmpVars 0 (text_pos v) line))
    else
      t ← int_add (text_pos v) 1;
      Ok (Next (KmpVars q t line)).

Fixpoint kmp_loop (fuel : nat) (st : kmp_state) (text : list byte) (text_len : Z)
    (v : kmp_vars) : outcome (bool * kmp_vars) :=
  if bool_decide (u64 (text_pos v) < text_len) then
    match fuel with
    | O => Fail OutOfFuel
    | S fuel' =>
        r ← kmp_body st text v;
        match r with
        | Found v' => Ok (true, v')
        | Next v' => kmp_loop fuel' st text text_len v'
        end
    end
  else Ok (false, v).

(** The return value together with what is stored through the two pointers. *)
Record kmp_result := KmpResult { matched : bool; linum : Z; matchpos : Z }.

#[export] Instance kmp_result_eq_dec : EqDecision kmp_result.
Proof. solve_decision. Defined.

Definition kmp_match (st : kmp_state) (text : list byte) (text_len linum0 : Z)
    : outcome kmp_result :=
  r ← kmp_loop (Z.to_nat (2 * text_len + 1)) st text text_len (KmpVars 0 0 (to_int linum0));
  match r with
  | (true, v) =>
      Ok (KmpResult true (u32 (line_cnt v)) (u32 (u64 (text_pos v - pat_len st + 1))))
  | (false, v) => Ok (KmpResult false (u32 (line_cnt v)) (u32 (-1)))
  end.

(** [kmp_finish]: free the table. *)
Definition kmp_finish (st : kmp_state) : kmp_state :=
  {| pat := pat st; pat_len := pat_len st; kmp_table := None |}.

(** ** The automaton the loop implements *)

(** The entry [i] of the failure table of the pattern [P]. *)
Fixpoint tab (P : list byte) (i : nat) : nat :=
  match i with
  | O => O
  | S i' => let q := tab P i' in if decide (P !! q = P !! i) then S q else O
  end.

(** What one iteration does on reading [c] with [p] characters matched:
    report a match, consume the character with a new number of matched
    characters, or look at the same character again from the start of the
    pattern. *)
Inductive move :=
  | Report
  | Consume (p' : nat)
  | Again.

Definition hit (P : list byte) (p : nat) : move :=
  if decide (S p = length P) then Report else Consume (S p).

Definition kmp_move (P : list byte) (p : nat) (c : byte) : move :=
  if decide (P !! p = Some c) then hit P p
  else match p with
       | O => Consume 0
       | S p' =>
           let q := tab P p' in
           if decide (P !! q = Some c) then hit P q
           else if decide (q = O) then Consume 0 else Again
       end.

Definition nl (c : byte) : Z := if bool_decide (c = newline) then 1 else 0.

(** The statics hold the pattern [P] and its table. *)
Record kmp_ready (st : kmp_state) (P : list byte) : Prop := {
  ready_len : pat_len st = Z.of_nat (length P);
  ready_pat : ∀ i x, P !! i = Some x → pat st !! i = Some x;
  ready_tab : ∃ t, kmp_table st = Some t ∧
    ∀ i, (i < length P)%nat → t !! i = Some (Some (Z.of_nat (tab P i)));
}.

(** ** Facts about the table *)

Lemma tab_le P i : (tab P i ≤ i)%nat.
Proof. induction i; simpl; [lia|]. case_decide; lia. Qed.

Lemma tab_S P i :
  tab P (S i) = if decide (P !! tab P i = P !! S i) then S (tab P i) else O.
Proof. done. Qed.

Lemma rd_int_nat tbl (i : nat) v :
  tbl !! i = Some (Some v) → rd_int tbl (Z.of_nat i) = Ok v.
Proof. intros Hi. unfold rd_int. by rewrite (rd_nat _ _ _ Hi). Qed.

(** ** [kmp_prepare] builds the table *)

Section prepare.
Context (P : list byte) (pattern : list byte).
Context (HP : ∀ i x, P !! i = Some x → pattern !! i = Some x).
Context (Hmax : Z.of_nat (length P) ≤ INT_MAX).

(** The cells below [i] hold the table. *)
Definition filled (i : nat) (tbl : list (option Z)) : Prop :=
  (length P ≤ length tbl)%nat ∧
  ∀ j, (j < i)%nat → tbl !! j = Some (Some (Z.of_nat (tab P j))).

Lemma filled_insert i tbl :
  (i < length P)%nat → filled i tbl →
  filled (S i) (<[i := Some (Z.of_nat (tab P i))]> tbl).
Proof.
  intros Hi [Hlen Hf]. split; [by rewrite length_insert|].
  intros j Hj. destruct (decide (i = j)) as [<-|].
  - rewrite list_lookup_insert_eq by lia. done.
  - rewrite list_lookup_insert_ne by done. apply Hf. lia.
Qed.

Lemma kmp_fill_spec fuel i tbl :
  (0 < i)%nat → (i ≤ length P)%nat → (length P - i ≤ fuel)%nat → filled i tbl →
  kmp_fill fuel pattern (Z.of_nat (length P)) (Z.of_nat i) tbl ⇓ filled (length P).
Proof.
  revert i tbl. induction fuel as [|fuel IH]; intros i tbl Hi0 Hi Hfuel Hf.
  - assert (i = length P) as -> by lia. simpl.
    rewrite u64_small by cint_lia. rewrite bool_decide_false by lia. done.
  - simpl. rewrite u64_small by cint_lia. case_bool_decide as Hlt.
    2:{ assert (i = length P) as -> by lia. done. }
    destruct i as [|k]; [lia|].
    replace (Z.of_nat (S k) - 1) with (Z.of_nat k) by lia.
    rewrite !(rd_int_nat _ k (Z.of_nat (tab P k))) by (apply Hf; lia).
    pose proof (tab_le P k) as Hle.
    destruct (lookup_lt_is_Some_2 P (tab P k)) as [a Ha]; [lia|].
    destruct (lookup_lt_is_Some_2 P (S k)) as [b Hb]; [lia|].
    ok_simpl.
    rewrite (rd_nat _ _ _ (HP _ _ Ha)), (rd_nat _ _ _ (HP _ _ Hb)).
    ok_simpl.
    pose proof (filled_insert (S k) tbl ltac:(lia) Hf) as Hf'.
    rewrite tab_S, Ha, Hb in Hf'. destruct Hf as [Hlen _].
    destruct (bool_decide_reflect (a = b)); case_decide; try congruence;
      rewrite ?int_add_ok by cint_lia;
      ok_simpl;
      rewrite ?wr_nat by lia;
      ok_simpl;
      rewrite ?int_add_ok by cint_lia;
      ok_simpl;
      replace (Z.of_nat (S k) + 1) with (Z.of_nat (S (S k))) by lia;
      apply IH; try lia.
    + by replace (Z.of_nat (tab P k) + 1) with (Z.of_nat (S (tab P k))) by lia.
    + done.
Qed.
End prepare.

(** With no table allocated, or with one large enough for the pattern,
    [kmp_prepare] ends with the pattern recorded and its table filled. *)
Lemma kmp_prepare_ready P pattern st :
  (0 < length P)%nat → Z.of_nat (length P) ≤ INT_MAX →
  (∀ i x, P !! i = Some x → pattern !! i = Some x) →
  (∀ t, kmp_table st = Some t → (length P ≤ length t)%nat) →
  kmp_prepare true pattern (Z.of_nat (length P)) st ⇓ λ st', kmp_ready st' P.
Proof.
  intros H0 Hmax HP Ht. unfold kmp_prepare.
  assert (∃ t, (match kmp_table st with Some t => Ok t | None =>
             Ok (replicate (Z.to_nat (u64 (4 * Z.of_nat (length P)) / 4)) None) end) = Ok t
           ∧ (length P ≤ length t)%nat) as (t & -> & Hlen).
  { destruct (kmp_table st) as [t|]; [by eauto|]. eexists; split; [done|].
    rewrite length_replicate, u64_small by cint_lia.
    rewrite Z.mul_comm, Z.div_mul by lia. lia. }
  ok_simpl. assert (wr t 0 (Some 0) = Ok (<[0%nat := Some 0]> t)) as -> by (apply (wr_nat t 0); lia).
  ok_simpl. rewrite Nat2Z.id.
  apply yields_bind. eapply yields_mono.
  - apply (kmp_fill_spec P pattern HP Hmax _ 1); [lia..|]. split; [by rewrite length_insert|].
    intros j Hj. assert (j = 0%nat) as -> by lia. apply list_lookup_insert_eq. lia.
  - intros tbl [Hl Hf]. apply yields_ret || simpl. split; simpl; eauto.
Qed.

(** A table that survives from a shorter pattern is written out of bounds. *)
Lemma kmp_fill_overflow fuel P i tbl :
  Z.of_nat (length P) ≤ INT_MAX → (length tbl < length P)%nat →
  (0 < i)%nat → (i ≤ length tbl)%nat → (length P - i ≤ fuel)%nat →
  (∀ j, (j < i)%nat → tbl !! j = Some (Some (Z.of_nat (tab P j)))) →
  kmp_fill fuel P (Z.of_nat (length P)) (Z.of_nat i) tbl = Fail OutOfBounds.
Proof.
  intros Hmax Hlt. revert i tbl Hlt. induction fuel as [|fuel IH];
    intros i tbl Hlt Hi0 Hi Hfuel Hf; [lia|]. simpl.
  rewrite u64_small by cint_lia. rewrite bool_decide_true by lia.
  destruct i as [|k]; [lia|].
  replace (Z.of_nat (S k) - 1) with (Z.of_nat k) by lia.
  rewrite !(rd_int_nat _ k (Z.of_nat (tab P k))) by (apply Hf; lia).
  pose proof (tab_le P k) as Hle.
  destruct (lookup_lt_is_Some_2 P (tab P k)) as [a Ha]; [lia|].
  destruct (lookup_lt_is_Some_2 P (S k)) as [b Hb]; [lia|].
  ok_simpl. rewrite (rd_nat _ _ _ Ha), (rd_nat _ _ _ Hb). ok_simpl.
  set (x := if decide (a = b) then Z.of_nat (S (tab P k)) else 0).
  transitivity (tbl' ← wr tbl (Z.of_nat (S k)) (Some x);
    i' ← int_add (Z.of_nat (S k)) 1; kmp_fill fuel P (Z.of_nat (length P)) i' tbl').
  { subst x. destruct (bool_decide_reflect (a = b)); case_decide; try congruence.
    rewrite !int_add_ok by cint_lia. ok_simpl.
    by replace (Z.of_nat (tab P k) + 1) with (Z.of_nat (S (tab P k))) by lia. }
  destruct (decide (S k < length tbl)%nat).
  - rewrite wr_nat by done. ok_simpl. rewrite int_add_ok by cint_lia. ok_simpl.
    replace (Z.of_nat (S k) + 1) with (Z.of_nat (S (S k))) by lia.
    apply IH; rewrite ?length_insert; try lia. intros j Hj.
    destruct (decide (S k = j)) as [<-|].
    + rewrite list_lookup_insert_eq by lia. subst x. rewrite tab_S, Ha, Hb.
      repeat case_decide; first [done | congruence].
    + rewrite list_lookup_insert_ne by done. apply Hf. lia.
  - unfold wr. rewrite bool_decide_false by lia. done.
Qed.

(** ** The moves of the automaton *)

Lemma hit_bound P p :
  (p < length P)%nat → ∀ p', hit P p = Consume p' → (p' < length P)%nat ∧ p' = S p.
Proof. intros Hp p'. unfold hit. case_decide; [done|]. intros [= <-]. lia. Qed.

Lemma kmp_move_bound P p c p' :
  (p < length P)%nat → kmp_move P p c = Consume p' → (p' < length P)%nat ∧ (p' ≤ S p)%nat.
Proof.
  intros Hp. unfold kmp_move. case_decide.
  { intros []%hit_bound; lia. }
  destruct p as [|p1]; [intros [= <-]; lia|].
  pose proof (tab_le P p1). case_decide; [intros []%hit_bound; lia|].
  case_decide; [intros [= <-]; lia|done].
Qed.

Lemma kmp_move_again P p c : kmp_move P p c = Again → (0 < p)%nat.
Proof.
  unfold kmp_move, hit. repeat case_decide; try done. destruct p; [done|lia].
Qed.

(** ** The loop runs the automaton *)

Section loop.
Context (st : kmp_state) (P : list byte) (Hready : kmp_ready st P).
Context (text T : list byte) (HT : ∀ i x, T !! i = Some x → text !! i = Some x).
Context (HT0 : Z.of_nat (length T) < INT_MAX) (HP0 : (0 < length P)%nat).
Context (HPmax : Z.of_nat (length P) ≤ INT_MAX).

Lemma pat_read i x : P !! i = Some x → rd (pat st) (Z.of_nat i) = Ok x.
Proof. intros. apply rd_nat. by apply (ready_pat _ _ Hready). Qed.

Lemma kmp_hit_spec p t l :
  (p < length P)%nat → (t < length T)%nat →
  kmp_hit st (KmpVars (Z.of_nat p) (Z.of_nat t) l) =
    Ok (match hit P p with
        | Consume p' => Next (KmpVars (Z.of_nat p') (Z.of_nat (S t)) l)
        | _ => Found (KmpVars (Z.of_nat p) (Z.of_nat t) l)
        end).
Proof.
  intros Hp Ht. unfold kmp_hit, hit. simpl. rewrite (ready_len _ _ Hready).
  rewrite !u64_small by cint_lia.
  case_decide; [rewrite bool_decide_true by lia; done|].
  rewrite bool_decide_false by lia. rewrite !int_add_ok by cint_lia. ok_simpl.
  do 3 f_equal; lia.
Qed.

(** One iteration is one move of the automaton. *)
Lemma kmp_body_spec p t l c :
  (p < length P)%nat → T !! t = Some c →
  INT_MIN ≤ l < INT_MAX →
  kmp_body st text (KmpVars (Z.of_nat p) (Z.of_nat t) l) ⇓ λ r,
    match kmp_move P p c with
    | Report => ∃ q, r = Found (KmpVars (Z.of_nat q) (Z.of_nat t) (l + nl c)) ∧ S q = length P
    | Consume p' => r = Next (KmpVars (Z.of_nat p') (Z.of_nat (S t)) (l + nl c))
    | Again => r = Next (KmpVars 0 (Z.of_nat t) (l + nl c))
    end.
Proof.
  intros Hp Ht Hl. unfold kmp_body, kmp_move. simpl text_pos; simpl pat_pos; simpl line_cnt.
  pose proof (lookup_lt_Some _ _ _ Ht) as Htlen.
  rewrite (rd_nat _ _ _ (HT _ _ Ht)). ok_simpl.
  assert ((if bool_decide (c = newline) then int_add l 1 else Ok l) = Ok (l + nl c)) as ->.
  { unfold nl. case_bool_decide; [rewrite int_add_ok by cint_lia|]; f_equal; lia. }
  ok_simpl. destruct (lookup_lt_is_Some_2 P p Hp) as [a Ha].
  rewrite (pat_read _ _ Ha), Ha. ok_simpl.
  destruct (bool_decide_reflect (c = a)) as [->|Hne].
  { rewrite decide_True by done. rewrite kmp_hit_spec by done. simpl.
    unfold hit. case_decide; simpl; eauto. }
  rewrite decide_False by congruence.
  destruct p as [|p']; [simpl|cbn match].
  { rewrite int_add_ok by cint_lia. ok_simpl. simpl. do 2 f_equal. lia. }
  rewrite bool_decide_false by lia.
  replace (Z.of_nat (S p') - 1) with (Z.of_nat p') by lia.
  destruct (ready_tab _ _ Hready) as (tb & Htb & Htab).
  unfold table_at. rewrite Htb, (rd_int_nat _ _ _ (Htab p' ltac:(lia))). ok_simpl.
  pose proof (tab_le P p') as Hle.
  destruct (lookup_lt_is_Some_2 P (tab P p')) as [b Hb]; [lia|].
  rewrite (pat_read _ _ Hb), Hb. ok_simpl.
  destruct (bool_decide_reflect (c = b)) as [->|Hne'].
  { rewrite decide_True by done. rewrite kmp_hit_spec by lia. simpl.
    unfold hit. case_decide; simpl; eauto. }
  rewrite decide_False by congruence.
  case_decide as Hq; [rewrite Hq|].
  - rewrite bool_decide_false by (simpl; lia).
    rewrite int_add_ok by cint_lia. ok_simpl. simpl. do 2 f_equal. lia.
  - rewrite bool_decide_true by lia. done.
Qed.

(** An invariant [J p t l] of the automaton holds when the loop stops: with
    a match when the automaton reports, without one when the text is spent.
    Every iteration consumes a character or clears [pat_pos], which bounds
    both the fuel and the line counter. *)
Context (J : nat → nat → Z → Prop).
Context (HJ : ∀ p t l c, (p < length P)%nat → T !! t = Some c → J p t l →
  match kmp_move P p c with
  | Report => True
  | Consume p' => J p' (S t) (l + nl c)
  | Again => J 0%nat t (l + nl c)
  end).

Definition measure (p t : nat) : nat :=
  (2 * (length T - t) + if decide (p = 0) then 0 else 1)%nat.

Lemma kmp_loop_ind fuel p t l :
  (p < length P)%nat → (t ≤ length T)%nat → (measure p t ≤ fuel)%nat →
  INT_MIN ≤ l → l + Z.of_nat (measure p t) ≤ INT_MAX → J p t l →
  kmp_loop fuel st text (Z.of_nat (length T)) (KmpVars (Z.of_nat p) (Z.of_nat t) l) ⇓ λ r,
    if r.1 : bool then ∃ p' t' l' c,
      (p' < length P)%nat ∧ J p' t' l' ∧ T !! t' = Some c ∧ kmp_move P p' c = Report ∧
      text_pos r.2 = Z.of_nat t' ∧ line_cnt r.2 = l' + nl c ∧
      l ≤ line_cnt r.2 ≤ l + Z.of_nat (measure p t)
    else ∃ p', (p' < length P)%nat ∧ J p' (length T) (line_cnt r.2) ∧
      l ≤ line_cnt r.2 ≤ l + Z.of_nat (measure p t).
Proof.
  revert p t l. induction fuel as [|fuel IH]; intros p t l Hp Ht Hfuel Hl0 Hl HJ0.
  - assert (t = length T) as -> by (unfold measure in Hfuel; lia). simpl.
    rewrite u64_small by cint_lia. rewrite bool_decide_false by lia. simpl.
    exists p; repeat split; try done; lia.
  - simpl. rewrite u64_small by cint_lia. case_bool_decide as Hlt.
    2:{ assert (t = length T) as -> by lia. simpl.
        exists p; repeat split; try done; lia. }
    destruct (lookup_lt_is_Some_2 T t) as [c Hc]; [lia|].
    assert (1 < measure p t + 1 ∧ 0 < measure p t)%nat as [_ Hm]
      by (unfold measure; lia).
    apply yields_bind. eapply yields_mono; [by apply kmp_body_spec; [..|cint_lia]|].
    intros r Hr. specialize (HJ p t l c Hp Hc HJ0).
    assert (0 ≤ nl c ≤ 1) as Hnl by (unfold nl; case_bool_decide; lia).
    destruct (kmp_move P p c) as [|p'|] eqn:Hmv.
    + destruct Hr as (q & -> & Hq). simpl. exists p, t, l, c.
      repeat split; try done; lia.
    + subst r. destruct (kmp_move_bound _ _ _ _ Hp Hmv) as [Hp' Hle].
      assert (measure p' (S t) < measure p t)%nat
        by (unfold measure; repeat case_decide; lia).
      eapply yields_mono; [apply IH; try done; lia|].
      intros [[] v]; simpl; [intros (?&?&?&?&?&?&?&?&?&?&?)|intros (?&?&?&?)];
        repeat eexists; eauto; lia.
    + subst r. pose proof (kmp_move_again _ _ _ Hmv).
      assert (measure 0 t < measure p t)%nat
        by (unfold measure; repeat case_decide; lia).
      change 0 with (Z.of_nat 0).
      eapply yields_mono; [apply IH; try done; lia|].
      intros [[] v]; simpl; [intros (?&?&?&?&?&?&?&?&?&?&?)|intros (?&?&?&?)];
        repeat eexists; eauto; lia.
Qed.

(** The same for [kmp_match] itself, started at line [l0]. *)
Lemma kmp_match_ind l0 :
  0 ≤ l0 → l0 + 2 * Z.of_nat (length T) ≤ INT_MAX → J 0%nat 0%nat l0 →
  kmp_match st text (Z.of_nat (length T)) l0 ⇓ λ r,
    if matched r then ∃ p t l c,
      (p < length P)%nat ∧ J p t l ∧ T !! t = Some c ∧ kmp_move P p c = Report ∧
      linum r = l + nl c ∧ matchpos r = u32 (u64 (Z.of_nat t - Z.of_nat (length P) + 1)) ∧
      l0 ≤ linum r
    else ∃ p, (p < length P)%nat ∧ J p (length T) (linum r) ∧
      matchpos r = u32 (-1) ∧ l0 ≤ linum r.
Proof.
  intros H0 Hmax HJ0. unfold kmp_match. rewrite to_int_small by cint_lia.
  apply yields_bind. eapply yields_mono.
  - apply (kmp_loop_ind _ 0 0); try done; unfold measure; try rewrite decide_True by done;
      try cint_lia.
  - assert (measure 0 0 = 2 * length T)%nat as -> by (unfold measure; simpl; lia).
    intros [[] v]; simpl.
    + intros (p & t & l & c & Hp & HJt & Hc & Hmv & Htp & Hl & Hb).
      rewrite u32_small by cint_lia. rewrite Htp, (ready_len _ _ Hready).
      exists p, t, l, c. repeat split; auto; lia.
    + intros (p & Hp & HJt & Hb). rewrite u32_small by cint_lia. exists p. repeat split; auto; lia.
Qed.
End loop.
