(* ===== verification/MatchSpec.v ===== *)
(** What [kmp_match] computes: every match it reports is one, exactly which
    patterns it finds at their first occurrence in every text, and exactly
    which patterns it counts lines correctly for. *)

From S2P Require Import Prelude CInt Match.

(** ** Reference definitions *)

(** [P] occurs in [T] at position [s]. *)
Definition occurs_at (P T : list byte) (s : nat) : Prop :=
  take (length P) (drop s T) = P.

#[export] Instance occurs_at_dec P T s : Decision (occurs_at P T s).
Proof. unfold occurs_at. apply _. Defined.

(** The first occurrence, found by trying every position in turn. *)
Fixpoint naive_search (P T : list byte) : option nat :=
  if decide (occurs_at P T 0) then Some 0
  else match T with
       | [] => None
       | _ :: T' => S <$> naive_search P T'
       end.

(** The number of newlines in a text. *)
Definition count_nl (T : list byte) : nat := length (filter (λ c, c = newline) T).

(** The first [q] characters of [P] are also the last [q] of its first [p]. *)
Definition border (P : list byte) (p q : nat) : Prop :=
  take q (drop (p - q) P) = take q P.

#[export] Instance border_dec P p q : Decision (border P p q).
Proof. unfold border. apply _. Defined.

(** After a mismatch with [p] characters matched the code tries the single
    border [tab P (p - 1)] and then the empty one. Nothing is lost by not
    trying the border [r] when its next character is one that has already
    been seen not to be there. *)
Definition skippable (P : list byte) (p r : nat) : Prop :=
  border P p r →
  r = tab P (p - 1) ∨ P !! r = P !! p ∨ (r < tab P (p - 1) ∧ P !! r = P !! tab P (p - 1)).

#[export] Instance skippable_dec P p r : Decision (skippable P p r).
Proof. unfold skippable. apply _. Defined.

Definition adequate (P : list byte) : Prop :=
  Forall (λ p, Forall (skippable P p) (seq 1 (p - 1))) (seq 1 (length P - 1)).

#[export] Instance adequate_dec P : Decision (adequate P).
Proof. unfold adequate. apply _. Defined.

(** No mismatch on a newline makes the loop look at that newline again. *)
Definition line_exact (P : list byte) : Prop :=
  Forall (λ p, tab P (p - 1) = 0 ∨ P !! p = Some newline ∨ P !! tab P (p - 1) = Some newline)
    (seq 1 (length P - 1)).

#[export] Instance line_exact_dec P : Decision (line_exact P).
Proof. unfold line_exact. apply _. Defined.

(** ** Occurrences, borders and partial matches, pointwise *)

Lemma occurs_at_lookup P T s :
  occurs_at P T s ↔ ∀ j, j < length P → T !! (s + j) = P !! j.
Proof.
  unfold occurs_at. split.
  - intros H j Hj. rewrite <-H. by rewrite lookup_take_lt, lookup_drop.
  - intros H. apply list_eq. intros j. destruct (decide (j < length P)).
    + rewrite lookup_take_lt, lookup_drop by done. auto.
    + rewrite lookup_take_ge by lia. symmetry. apply lookup_ge_None. lia.
Qed.

Lemma occurs_at_bound P T s : 0 < length P → occurs_at P T s → s + length P ≤ length T.
Proof.
  unfold occurs_at. intros H0 H. apply (f_equal length) in H.
  rewrite length_take, length_drop in H. lia.
Qed.

Lemma border_lookup P p q :
  q ≤ p → p ≤ length P → border P p q ↔ ∀ j, j < q → P !! (p - q + j) = P !! j.
Proof.
  intros Hq Hp. unfold border. split.
  - intros H j Hj. pose proof (f_equal (.!! j) H) as Hj'. cbv beta in Hj'.
    by rewrite !lookup_take_lt, lookup_drop in Hj'.
  - intros H. apply list_eq. intros j. destruct (decide (j < q)).
    + rewrite !lookup_take_lt, lookup_drop by done. auto.
    + by rewrite !lookup_take_ge by lia.
Qed.

Lemma naive_search_Some P T s :
  naive_search P T = Some s ↔ occurs_at P T s ∧ s ≤ length T ∧ ∀ s', s' < s → ¬ occurs_at P T s'.
Proof.
  revert s. induction T as [|c T IH]; intros s; simpl; case_decide as H0.
  - split; [intros [= <-]; split_and!; [done|lia|lia]|]. intros (_ & Hs & _). f_equal. lia.
  - split; [done|]. intros (Ho & Hs & _). by assert (s = 0) as -> by lia.
  - split; [intros [= <-]; split_and!; [done|lia|lia]|].
    intros (_ & _ & Hs). destruct s as [|s]; [done|]. destruct (Hs 0); [lia|done].
  - destruct s as [|s].
    { split; [by destruct (naive_search P T)|]. by intros (? & _). }
    rewrite fmap_Some. split.
    + intros (s' & Hs' & [= <-]). apply IH in Hs' as (? & ? & Hmin). split_and!; [done|lia|].
      intros [|s'']; [done|]. intros. apply Hmin. lia.
    + intros (? & ? & Hmin). exists s. split; [|done]. apply IH. split_and!; [done|lia|].
      intros s' Hs'. apply (Hmin (S s')). lia.
Qed.

Lemma naive_search_None P T :
  naive_search P T = None ↔ ∀ s, s ≤ length T → ¬ occurs_at P T s.
Proof.
  split.
  - revert P. induction T as [|c T IH]; intros P; simpl; case_decide as H0; try done.
    + intros _ s Hs. by assert (s = 0) as -> by lia.
    + rewrite fmap_None. intros Hn [|s] Hs; [done|]. apply (IH P Hn s). lia.
  - intros H. destruct (naive_search P T) as [s|] eqn:E; [|done].
    apply naive_search_Some in E as (Ho & Hs & _). by destruct (H s).
Qed.

(** The table's entries are borders: proper prefixes of the pattern that are
    suffixes of what has been read. *)
Lemma tab_border P i : i < length P → border P (S i) (tab P i).
Proof.
  intros Hi. rewrite border_lookup by (pose proof (tab_le P i); lia).
  induction i as [|i IH]; [intros j; simpl; lia|].
  intros j. rewrite tab_S. case_decide as Heq; [|lia]. intros Hj.
  pose proof (tab_le P i). destruct (decide (j = tab P i)) as [->|].
  - rewrite Heq. f_equal. lia.
  - rewrite <-(IH ltac:(lia) j) by lia. done.
Qed.

(** The last [p] characters read before position [t] are the first [p] of [P]. *)
Definition partial (P T : list byte) (p t : nat) : Prop :=
  p ≤ t ∧ ∀ j, j < p → T !! (t - p + j) = P !! j.

Lemma partial_0 P T t : partial P T 0 t.
Proof. split; lia. Qed.

Lemma partial_S P T p t :
  partial P T p t → T !! t = P !! p → partial P T (S p) (S t).
Proof.
  intros [Hp H] Heq. split; [lia|]. intros j Hj.
  replace (S t - S p) with (t - p) by lia.
  destruct (decide (j = p)) as [->|]; [|apply H; lia].
  rewrite <-Heq. f_equal. lia.
Qed.

Lemma partial_border P T p q t :
  partial P T p t → p ≤ length P → q ≤ p → border P p q → partial P T q t.
Proof.
  intros [Hp H] Hlen Hq Hb. rewrite border_lookup in Hb by lia. split; [lia|]. intros j Hj.
  rewrite <-Hb, <-H by lia. f_equal. lia.
Qed.

Lemma partial_occurs P T t :
  partial P T (length P) t → occurs_at P T (t - length P).
Proof. intros [Hp H]. by apply occurs_at_lookup. Qed.

(** An occurrence that starts within the characters matched so far is a
    border of them. *)
Lemma occurs_border P T p t s :
  partial P T p t → p < length P → t - p ≤ s → s ≤ t → occurs_at P T s →
  border P p (t - s) ∧ P !! (t - s) = T !! t.
Proof.
  intros [Hp H] Hlen Hs Hst Ho. rewrite occurs_at_lookup in Ho. split.
  - rewrite border_lookup by lia. intros j Hj.
    rewrite <-H, <-Ho by lia. f_equal. lia.
  - rewrite <-Ho by lia. f_equal. lia.
Qed.

Lemma adequate_spec P p r :
  adequate P → 1 ≤ r < p → p < length P → skippable P p r.
Proof.
  unfold adequate. rewrite list.Forall_forall. intros H Hr Hp.
  specialize (H p). rewrite elem_of_seq, list.Forall_forall in H.
  apply H; [lia|]. apply elem_of_seq. lia.
Qed.

Lemma not_adequate_spec P :
  ¬ adequate P → ∃ p r, 1 ≤ r < p ∧ p < length P ∧ border P p r ∧ r ≠ tab P (p - 1) ∧
    P !! r ≠ P !! p ∧ (r < tab P (p - 1) → P !! r ≠ P !! tab P (p - 1)).
Proof.
  unfold adequate. intros (p & Hp & H)%not_Forall_Exists%list.Exists_exists; [|apply _].
  apply not_Forall_Exists in H as (r & Hr & H)%list.Exists_exists; [|apply _].
  rewrite elem_of_seq in Hp, Hr. exists p, r. unfold skippable in H.
  destruct (decide (border P p r)) as [Hb|Hb]; [|by destruct H].
  split_and!; try lia; try done; intros ?; [..|intros ?]; apply H; intros _; auto.
Qed.

(** ** One move of the automaton *)

Lemma kmp_move_report P p c :
  p < length P → kmp_move P p c = Report → S p = length P ∧ P !! p = Some c.
Proof.
  intros Hp. unfold kmp_move, hit. repeat case_decide; try done.
  destruct p as [|p']; [done|]. pose proof (tab_le P p'). repeat case_decide; try done. lia.
Qed.

Lemma kmp_move_partial P T p t c :
  p < length P → T !! t = Some c → partial P T p t →
  match kmp_move P p c with
  | Report => partial P T (length P) (S t)
  | Consume p' => partial P T p' (S t)
  | Again => partial P T 0 t
  end.
Proof.
  intros Hp Hc Hpart. unfold kmp_move, hit. case_decide as Heq.
  { case_decide as Hl; [rewrite <-Hl|]; apply partial_S; congruence. }
  destruct p as [|p']; [apply partial_0|].
  pose proof (tab_le P p') as Hle.
  pose proof (partial_border P T _ (tab P p') t Hpart ltac:(lia) ltac:(lia)
    (tab_border P p' ltac:(lia))) as Hq.
  case_decide as Hqc.
  { case_decide as Hl; [rewrite <-Hl|]; apply partial_S; congruence. }
  case_decide; apply partial_0.
Qed.

(** No occurrence starts before the characters matched so far. *)
Definition none_before (P T : list byte) (p t : nat) : Prop :=
  ∀ s, s + p < t → ¬ occurs_at P T s.

Lemma kmp_move_none_before P T p t c :
  adequate P → p < length P → T !! t = Some c → partial P T p t → none_before P T p t →
  match kmp_move P p c with
  | Report => True
  | Consume p' => none_before P T p' (S t)
  | Again => none_before P T 0 t
  end.
Proof.
  intros Had Hp Hc Hpart Hnb.
  assert (∀ s, s ≤ t → P !! p ≠ Some c → occurs_at P T s →
    s + p < t ∨ t - p < s ∧ border P p (t - s) ∧ P !! (t - s) = Some c) as Hcand.
  { intros s Hs Hne Ho. destruct (decide (s + p < t)); [by left|right].
    destruct (occurs_border P T p t s) as [Hb HP]; try done; [destruct Hpart; lia..|].
    rewrite Hc in HP. split_and!; [|done..].
    destruct (decide (t - s = p)) as [E|]; [by rewrite E in HP|]. destruct Hpart; lia. }
  unfold kmp_move, hit. case_decide as Heq.
  { case_decide; [done|]. intros s Hs. apply Hnb. lia. }
  destruct p as [|p'].
  { intros s Hs Ho. destruct (Hcand s) as [?|(? & ? & ?)]; try done; try lia.
    by apply (Hnb s). }
  pose proof (tab_le P p') as Hle.
  assert (∀ s, s < t → occurs_at P T s →
    t - s = tab P p' ∨ (t - s < tab P p' ∧ P !! tab P p' = Some c)) as Hlost.
  { intros s Hs Ho. destruct (Hcand s) as [?|(Hr & Hb & HP)]; try done; [lia|by destruct (Hnb s)|].
    destruct (adequate_spec P (S p') (t - s) Had) as [E|[E|[E1 E2]]]; try done; [lia|..];
      replace (S p' - 1) with p' in * by lia.
    - by left.
    - congruence.
    - right. split; [done|]. congruence. }
  case_decide as Hqc.
  { case_decide; [done|]. intros s Hs Ho. destruct (Hlost s) as [?|[? ?]]; try done; lia. }
  case_decide as Hq0; intros s Hs Ho.
  - destruct (decide (s = t)) as [->|].
    + destruct (occurs_border P T (S p') t t) as [_ HP]; try done; [lia|].
      rewrite Nat.sub_diag in HP. rewrite Hq0 in Hqc. congruence.
    + destruct (Hlost s) as [?|[? ?]]; try done; lia.
  - destruct (Hlost s) as [E|[? ?]]; try done; [lia|].
    destruct (Hcand s) as [?|(? & ? & HP)]; try done; [lia|by apply (Hnb s)|].
    rewrite E in HP. congruence.
Qed.

(** ** Counting lines *)

Lemma count_nl_snoc T c : count_nl (T ++ [c]) = count_nl T + Z.to_nat (nl c).
Proof.
  unfold count_nl, nl. rewrite list.filter_app, length_app, list.filter_cons, list.filter_nil.
  case_decide; [rewrite bool_decide_true by done|rewrite bool_decide_false by done]; done.
Qed.

Lemma count_nl_take_S T t c :
  T !! t = Some c → Z.of_nat (count_nl (take (S t) T)) = (Z.of_nat (count_nl (take t T)) + nl c)%Z.
Proof.
  intros Hc. rewrite (take_S_r _ _ _ Hc), count_nl_snoc.
  unfold nl. case_bool_decide; simpl; lia.
Qed.

Lemma kmp_move_again_nl P p c :
  line_exact P → p < length P → kmp_move P p c = Again → nl c = 0%Z.
Proof.
  unfold line_exact. rewrite list.Forall_forall. intros H Hp.
  unfold kmp_move, hit, nl. repeat case_decide; try done; destruct p as [|p']; try done.
  repeat case_decide; try done. intros _. case_bool_decide as Hc; [subst c|done].
  destruct (H (S p')) as [?|[?|?]]; rewrite ?elem_of_seq; replace (S p' - 1) with p' in * by lia;
    [lia|done|congruence|congruence].
Qed.

Lemma not_line_exact_spec P :
  ¬ line_exact P → ∃ p, S p < length P ∧ tab P p ≠ 0 ∧
    P !! S p ≠ Some newline ∧ P !! tab P p ≠ Some newline.
Proof.
  unfold line_exact. intros (p & Hp & H)%not_Forall_Exists%list.Exists_exists; [|apply _].
  rewrite elem_of_seq in Hp. destruct p as [|p]; [lia|].
  simpl in H. rewrite Nat.sub_0_r in H. exists p. split; [lia|]. naive_solver.
Qed.

(** ** Running [kmp_match] after [kmp_prepare] *)

(** How a result of [kmp_match] represents an optional position. *)
Definition reports (o : option nat) (r : kmp_result) : Prop :=
  match o with
  | Some s => matched r = true ∧ matchpos r = Z.of_nat s
  | None => matched r = false ∧ matchpos r = (2 ^ 32 - 1)%Z
  end.

(** Where the characters [kmp_match] has read end. *)
Definition read_end (P T : list byte) (r : kmp_result) : nat :=
  if matched r then Z.to_nat (matchpos r) + length P else length T.

Section prepared.
Context (P : list byte) (st : kmp_state).
Context (H0 : 0 < length P) (Hmax : (Z.of_nat (length P) ≤ INT_MAX)%Z).
Context (Hst : kmp_prepare true P (Z.of_nat (length P)) kmp_initial = Ok st).

Lemma prepared_ready : kmp_ready st P.
Proof.
  pose proof (kmp_prepare_ready P P kmp_initial H0 Hmax ltac:(done) ltac:(done)) as H.
  by rewrite Hst in H.
Qed.

Section run.
Context (T rest : list byte) (l0 : Z).
Context (Hl0 : (0 ≤ l0)%Z) (Hl : (l0 + 2 * Z.of_nat (length T) ≤ INT_MAX)%Z).

Lemma text_prefix i x : T !! i = Some x → (T ++ rest) !! i = Some x.
Proof. apply lookup_app_l_Some. Qed.

(** The position stored on a report at [t]. *)
Lemma matchpos_value t :
  length P ≤ S t → t < length T →
  u32 (u64 (Z.of_nat t - Z.of_nat (length P) + 1)) = Z.of_nat (S t - length P).
Proof. intros. rewrite u64_small, u32_small by cint_lia. lia. Qed.

(** Run [kmp_match] with an invariant [J], beside the partial match. *)
Lemma kmp_match_run (J : nat → nat → Z → Prop) :
  (∀ p t l c, p < length P → T !! t = Some c → partial P T p t → J p t l →
    match kmp_move P p c with
    | Report => True
    | Consume p' => J p' (S t) (l + nl c)%Z
    | Again => J 0 t (l + nl c)%Z
    end) →
  J 0 0 l0 →
  kmp_match st (T ++ rest) (Z.of_nat (length T)) l0 ⇓ λ r,
    (l0 ≤ linum r)%Z ∧
    if matched r then ∃ s l c,
      matchpos r = Z.of_nat s ∧ s + length P ≤ length T ∧ occurs_at P T s ∧
      T !! (s + (length P - 1)) = Some c ∧ P !! (length P - 1) = Some c ∧
      J (length P - 1) (s + (length P - 1)) l ∧ linum r = (l + nl c)%Z
    else ∃ p, p < length P ∧ J p (length T) (linum r) ∧ matchpos r = (2 ^ 32 - 1)%Z.
Proof.
  intros HJ HJ0. eapply yields_mono.
  - apply (kmp_match_ind st P prepared_ready (T ++ rest) T text_prefix ltac:(cint_lia)
      H0 Hmax (λ p t l, partial P T p t ∧ J p t l)); [|done..|].
    + intros p t l c Hp Hc [Hpt HJt].
      pose proof (kmp_move_partial P T p t c Hp Hc Hpt).
      pose proof (HJ p t l c Hp Hc Hpt HJt). destruct (kmp_move P p c); auto.
    + split; [apply partial_0|done].
  - intros r. cbv beta. destruct (matched r).
    + intros (p & t & l & c & Hp & [Hpt HJt] & Hc & Hmv & Hln & Hmp & Hge).
      split; [done|]. pose proof (kmp_move_report _ _ _ Hp Hmv) as [Hlen HPc].
      pose proof (kmp_move_partial _ _ _ _ _ Hp Hc Hpt) as Hpart. rewrite Hmv in Hpart.
      pose proof (proj1 Hpart) as Hle. pose proof (lookup_lt_Some _ _ _ Hc).
      exists (S t - length P), l, c. rewrite Hmp, matchpos_value by lia.
      replace (length P - 1) with p by lia.
      replace (S t - length P + p) with t by lia.
      split_and!; try done; [lia|by apply partial_occurs].
    + intros (p & Hp & [_ HJt] & Hmp & Hge). split; [done|].
      exists p. split_and!; try done.
Qed.

(** No occurrence is passed over when the pattern is adequate. *)
Lemma kmp_match_first :
  adequate P →
  kmp_match st (T ++ rest) (Z.of_nat (length T)) l0 ⇓ reports (naive_search P T).
Proof.
  intros Had. eapply yields_mono.
  - apply (kmp_match_run (λ p t _, none_before P T p t)).
    + intros. by eapply kmp_move_none_before.
    + intros s ?. lia.
  - intros r [_ Hr]. unfold reports. destruct (matched r) eqn:Em.
    + destruct Hr as (s & l & c & Hmp & Hb & Ho & _ & _ & Hnb & _).
      assert (naive_search P T = Some s) as ->; [|done].
      apply naive_search_Some. split_and!; [done|lia|]. intros s' Hs'. apply Hnb. lia.
    + destruct Hr as (p & Hp & Hnb & ->).
      assert (naive_search P T = None) as ->; [|done].
      apply naive_search_None. intros s Hs Ho.
      pose proof (occurs_at_bound _ _ _ H0 Ho). apply (Hnb s); [lia|done].
Qed.

(** Every newline is counted once when the pattern is line-exact. *)
Lemma kmp_match_lines :
  line_exact P →
  kmp_match st (T ++ rest) (Z.of_nat (length T)) l0 ⇓ λ r,
    linum r = (l0 + Z.of_nat (count_nl (take (read_end P T r) T)))%Z.
Proof.
  intros Hex. eapply yields_mono.
  - apply (kmp_match_run (λ _ t l, l = (l0 + Z.of_nat (count_nl (take t T)))%Z)).
    + intros p t l c Hp Hc _ ->. pose proof (count_nl_take_S T t c Hc).
      destruct (kmp_move P p c) eqn:Hmv; [done|lia|].
      rewrite (kmp_move_again_nl P p c) by done. lia.
    + change (count_nl (take 0 T)) with 0. lia.
  - intros r [_ Hr]. unfold read_end. destruct (matched r).
    + destruct Hr as (s & l & c & Hmp & Hb & _ & Hc & _ & -> & ->).
      rewrite Hmp, Nat2Z.id. replace (s + length P) with (S (s + (length P - 1))) by lia.
      rewrite (count_nl_take_S T _ c Hc). lia.
    + by destruct Hr as (p & _ & -> & _).
Qed.
End run.
End prepared.

(** ** Patterns that defeat the single fallback *)

(** The text [P[0..p) ++ P[r..)] contains [P] at [p - r], where the border
    [r] is the one the loop does not try. *)
Definition missed_text (P : list byte) (p r : nat) : list byte := take p P ++ drop r P.

Lemma missed_text_lookup P p r j :
  p ≤ length P → (missed_text P p r) !! j = if decide (j < p) then P !! j else P !! (r + (j - p)).
Proof.
  intros Hp. unfold missed_text. case_decide.
  - rewrite lookup_app_l by (rewrite length_take; lia). by rewrite lookup_take_lt.
  - rewrite lookup_app_r by (rewrite length_take; lia).
    rewrite length_take, Nat.min_l, lookup_drop by lia. done.
Qed.

Lemma missed_text_length P p r :
  p ≤ length P → length (missed_text P p r) = p + (length P - r).
Proof. intros. unfold missed_text. rewrite length_app, length_take, length_drop. lia. Qed.

Lemma missed_text_occurs P p r :
  r < p → p ≤ length P → border P p r → occurs_at P (missed_text P p r) (p - r).
Proof.
  intros Hr Hp Hb. rewrite border_lookup in Hb by lia. apply occurs_at_lookup. intros j Hj.
  rewrite missed_text_lookup by done. case_decide; [apply Hb; lia|]. f_equal. lia.
Qed.

(** The positions the automaton goes through on that text: first the start,
    and once past it never back to [p - r]. *)
Definition overshoots (p r : nat) (p0 t : nat) (l : Z) : Prop :=
  (p0 = t ∧ t ≤ p) ∨ (p - r < t - p0).

Lemma missed_text_move P p r p0 t l c :
  1 ≤ r < p → p < length P → r ≠ tab P (p - 1) → P !! r ≠ P !! p →
  (r < tab P (p - 1) → P !! r ≠ P !! tab P (p - 1)) →
  p0 < length P → missed_text P p r !! t = Some c → overshoots p r p0 t l →
  match kmp_move P p0 c with
  | Report => True
  | Consume p' => ∀ l', overshoots p r p' (S t) l'
  | Again => ∀ l', overshoots p r 0 t l'
  end.
Proof.
  intros Hr Hp Hq HP HPq Hp0 Hc Hov. rewrite missed_text_lookup in Hc by lia.
  destruct Hov as [[-> Ht]|Hov].
  - case_decide as Htp.
    + unfold kmp_move, hit. rewrite decide_True by done. case_decide; [done|]. left. lia.
    + assert (t = p) as -> by lia. replace (r + (p - p)) with r in Hc by lia.
      unfold kmp_move, hit. rewrite decide_False by congruence.
      destruct p as [|p']; [lia|]. replace (S p' - 1) with p' in * by lia.
      pose proof (tab_le P p'). case_decide as Hqc.
      * case_decide; [done|]. right. destruct (decide (r < tab P p')); [|lia].
        exfalso. apply HPq; [done|congruence].
      * case_decide; intros l'; right; lia.
  - destruct (kmp_move P p0 c) eqn:Hmv; [done|..].
    + apply kmp_move_bound in Hmv; [|done]. intros l'. right. lia.
    + intros l'. right. lia.
Qed.

(** The text [P[0..S p) ++ "\n"] has its last newline looked at twice. *)
Definition overcount (P T : list byte) (p : nat) (p0 t : nat) (l : Z) : Prop :=
  (p0 = t ∧ t ≤ S p ∧ l = Z.of_nat (count_nl (take t T))) ∨
  (p0 = 0 ∧ t = S p ∧ l = (Z.of_nat (count_nl (take t T)) + 1)%Z) ∨
  (t = S (S p) ∧ l = (Z.of_nat (count_nl (take t T)) + 1)%Z).

Lemma overcount_move P p p0 t l c :
  let T := take (S p) P ++ [newline] in
  S p < length P → tab P p ≠ 0 → P !! S p ≠ Some newline → P !! tab P p ≠ Some newline →
  p0 < length P → T !! t = Some c → overcount P T p p0 t l →
  match kmp_move P p0 c with
  | Report => True
  | Consume p' => overcount P T p p' (S t) (l + nl c)%Z
  | Again => overcount P T p 0 t (l + nl c)%Z
  end.
Proof.
  intros T Hp Hq HPp HPq Hp0 Hc Hov.
  pose proof (count_nl_take_S T t c Hc) as Hcnt.
  assert (length T = S (S p)) as HT by (subst T; rewrite length_app, length_take; cbn [length]; lia).
  pose proof (lookup_lt_Some _ _ _ Hc) as Hlt.
  destruct (decide (t = S p)) as [->|Ht].
  - assert (c = newline) as ->.
    { subst T. rewrite lookup_app_r in Hc by (rewrite length_take; lia).
      rewrite length_take, Nat.min_l, Nat.sub_diag in Hc by lia. by injection Hc. }
    destruct Hov as [(-> & _ & ->)|[(-> & _ & ->)|[? _]]]; [..|lia].
    + unfold kmp_move. rewrite !decide_False by done.
      right. left. split_and!; [done|done|]. done.
    + unfold kmp_move, hit. repeat case_decide; try done; right; right;
        (split; [done|]); rewrite Hcnt; lia.
  - assert (P !! t = Some c) as HPt.
    { subst T. rewrite lookup_app_l in Hc by (rewrite length_take; lia).
      by rewrite lookup_take_lt in Hc by lia. }
    destruct Hov as [(-> & ? & ->)|[(_ & ? & _)|[? _]]]; [|lia..].
    unfold kmp_move, hit. rewrite decide_True by done. case_decide; [done|].
    left. split_and!; [done|lia|]. by rewrite Hcnt.
Qed.

(** ** The properties of the matcher *)

(** [q] is the longest proper border of the first [i] characters. *)
Definition longest_border (P : list byte) (i q : nat) : Prop :=
  border P i q ∧ q < i ∧ ∀ b, b < i → border P i b → b ≤ q.

(** A border of [i + 1] characters is a border of [i] followed by the next
    character. *)
Lemma border_S P i b :
  b < i → i < length P → border P (S i) (S b) → border P i b ∧ P !! b = P !! i.
Proof.
  intros Hb Hi H. rewrite border_lookup in H by lia. split.
  - apply border_lookup; [lia..|]. intros j Hj. rewrite <-(H j) by lia. f_equal; lia.
  - rewrite <-(H b) by lia. f_equal; lia.
Qed.

(** The first [n] entries are longest borders exactly when nothing is lost by
    going back to no border at all. *)
Lemma tab_longest P n :
  n ≤ length P →
  (∀ i, i < n → longest_border P (S i) (tab P i)) ↔
  (∀ i b, S i < n → P !! tab P i ≠ P !! S i → b ≤ S i → border P (S (S i)) b → b = 0).
Proof.
  intros Hn. split.
  - intros Hall i b Hi Hne Hb Hbord. destruct (Hall (S i) Hi) as (_ & _ & Hmax).
    specialize (Hmax b ltac:(lia) Hbord). rewrite tab_S in Hmax. case_decide; [done|lia].
  - intros Hlost. induction i as [|i IH]; intros Hi.
    + split_and!; [apply tab_border; lia|cbn; lia|cbn; lia].
    + split_and!; [apply tab_border; lia|pose proof (tab_le P (S i)); lia|]. intros b Hb Hbord.
      rewrite tab_S. case_decide as Heq; [|by rewrite (Hlost i b) by (done || lia)].
      destruct b as [|b]; [lia|]. destruct (border_S P (S i) b) as [Hb' _]; [lia..|done|].
      destruct (IH ltac:(lia)) as (_ & _ & Hmax). specialize (Hmax b ltac:(lia) Hb'). lia.
Qed.

(** C30: [kmp_prepare], called with no table or with one large enough, never
    reads or writes out of bounds and records the pattern's length and a table
    of lengths of proper borders. The first entry is 0, each other one is the
    border before it made one longer when the characters agree, and 0 when they
    do not: the shorter borders are not tried. So the first [n] entries are the
    longest borders exactly when, wherever the characters do not agree, there is
    no border but the empty one. *)
Theorem kmp_prepare_borders P pattern st0 :
  0 < length P → (Z.of_nat (length P) ≤ INT_MAX)%Z → P `prefix_of` pattern →
  (∀ t, kmp_table st0 = Some t → length P ≤ length t) →
  kmp_prepare true pattern (Z.of_nat (length P)) st0 ⇓ λ st,
    pat_len st = Z.of_nat (length P) ∧ ∃ q : nat → nat,
    (∀ i, i < length P → table_at st (Z.of_nat i) = Ok (Z.of_nat (q i)) ∧ q i ≤ i ∧ border P (S i) (q i)) ∧
    (∀ i, S i < length P → q (S i) = if decide (P !! q i = P !! S i) then S (q i) else 0) ∧
    ∀ n, n ≤ length P →
      (∀ i, i < n → longest_border P (S i) (q i)) ↔
      (∀ i b, S i < n → P !! q i ≠ P !! S i → b ≤ S i → border P (S (S i)) b → b = 0).
Proof.
  intros H0 Hmax [rest ->] Ht. eapply yields_mono.
  - apply kmp_prepare_ready; try done. intros i x. apply lookup_app_l_Some.
  - intros st [Hlen _ (t & Htab & Hcells)]. split; [done|]. exists (tab P). split_and!.
    + intros i Hi. unfold table_at. rewrite Htab, (rd_int_nat _ _ _ (Hcells i Hi)).
      split_and!; [done|apply tab_le|by apply tab_border].
    + done.
    + intros n Hn. by apply tab_longest.
Qed.

Lemma kmp_prepare_borders_witness :
  kmp_prepare true (bytes_of "abab") 4 kmp_initial ⇓ λ st,
    pat_len st = 4%Z ∧ ∃ q : nat → nat,
    (∀ i, i < 4 → table_at st (Z.of_nat i) = Ok (Z.of_nat (q i)) ∧ q i ≤ i ∧ border (bytes_of "abab") (S i) (q i)) ∧
    (∀ i, S i < 4 → q (S i) = if decide (bytes_of "abab" !! q i = bytes_of "abab" !! S i) then S (q i) else 0) ∧
    ∀ n, n ≤ 4 →
      (∀ i, i < n → longest_border (bytes_of "abab") (S i) (q i)) ↔
      (∀ i b, S i < n → bytes_of "abab" !! q i ≠ bytes_of "abab" !! S i → b ≤ S i →
        border (bytes_of "abab") (S (S i)) b → b = 0).
Proof.
  apply (kmp_prepare_borders (bytes_of "abab") (bytes_of "abab") kmp_initial);
    [vm_compute; lia|by vm_compute|done|done].
Defined.

(** A pattern whose table is not that of the longest borders. *)
Example tab_misses_border :
  tab (bytes_of "aabaaa") 5 = 0 ∧ border (bytes_of "aabaaa") 6 2.
Proof. split; [reflexivity|by apply (bool_decide_unpack _); vm_compute]. Qed.

(** The table outlives its pattern: [kmp_prepare] called again for a
    longer pattern without [kmp_finish] writes past the end of the block. *)
Lemma kmp_prepare_stale P st0 t :
  (Z.of_nat (length P) ≤ INT_MAX)%Z → kmp_table st0 = Some t →
  0 < length t → length t < length P →
  kmp_prepare true P (Z.of_nat (length P)) st0 = Fail OutOfBounds.
Proof.
  intros Hmax Ht H0 Hlt. unfold kmp_prepare. rewrite Ht. ok_simpl.
  assert (wr t 0 (Some 0%Z) = Ok (<[0 := Some 0%Z]> t)) as -> by (apply (wr_nat t 0); lia).
  ok_simpl. rewrite Nat2Z.id.
  rewrite (kmp_fill_overflow _ P 1); rewrite ?length_insert; try lia; [done|].
  intros j Hj. assert (j = 0) as -> by lia. apply list_lookup_insert_eq. lia.
Qed.

Lemma kmp_prepare_stale_witness :
  (st1 ← kmp_prepare true (bytes_of "ab") 2 kmp_initial;
   kmp_prepare true (bytes_of "abcd") 4 st1) = Fail OutOfBounds.
Proof.
  refine (kmp_prepare_stale (bytes_of "abcd") (KmpState (bytes_of "ab") 2 (Some [Some 0%Z; Some 0%Z]))
    [Some 0%Z; Some 0%Z] _ eq_refl _ _); vm_compute; first [lia|done].
Defined.

(** C7: after [kmp_prepare], [kmp_match] always returns, reads only the
    [text_len] bytes of the text and the pattern's own bytes, and a match it
    reports is an occurrence of the pattern at the position it stores. *)
Theorem kmp_match_sound P st T rest l0 :
  0 < length P → (Z.of_nat (length P) ≤ INT_MAX)%Z →
  kmp_prepare true P (Z.of_nat (length P)) kmp_initial = Ok st →
  (0 ≤ l0)%Z → (l0 + 2 * Z.of_nat (length T) ≤ INT_MAX)%Z →
  kmp_match st (T ++ rest) (Z.of_nat (length T)) l0 ⇓ λ r,
    (l0 ≤ linum r)%Z ∧
    ∃ o, reports o r ∧ ∀ s, o = Some s → occurs_at P T s ∧ s + length P ≤ length T.
Proof.
  intros H0 Hmax Hst Hl0 Hl. eapply yields_mono.
  - by apply (kmp_match_run P st H0 Hmax Hst T rest l0 Hl0 Hl (λ _ _ _, True));
      [intros; destruct (kmp_move _ _ _)|].
  - intros r [Hge Hr]. split; [done|]. unfold reports. destruct (matched r).
    + destruct Hr as (s & l & c & -> & Hb & Ho & _). exists (Some s). split; [done|].
      by intros ? [= <-].
    + destruct Hr as (p & _ & _ & ->). by exists None.
Qed.

Lemma kmp_match_sound_witness : ∃ st,
  kmp_prepare true (bytes_of "stat") 4 kmp_initial = Ok st ∧
  kmp_match st (bytes_of "a statement" ++ []) 11 1 ⇓ λ r,
    (1 ≤ linum r)%Z ∧
    ∃ o, reports o r ∧ ∀ s, o = Some s →
      occurs_at (bytes_of "stat") (bytes_of "a statement") s ∧ s + 4 ≤ 11.
Proof.
  eexists. split; [vm_compute; reflexivity|].
  apply (kmp_match_sound (bytes_of "stat") _ (bytes_of "a statement") [] 1);
    [vm_compute; lia|by vm_compute|vm_compute; reflexivity|lia|by vm_compute].
Defined.

(** C5: [kmp_match] finds the first occurrence in every text, and reports
    none where there is none, exactly for the [adequate] patterns: the code
    does not iterate the failure function, and for every other pattern there
    is a text in which it misses an occurrence. *)
Theorem kmp_match_first_iff P st :
  0 < length P → (Z.of_nat (length P) ≤ 2 ^ 28)%Z →
  kmp_prepare true P (Z.of_nat (length P)) kmp_initial = Ok st →
  adequate P ↔
  ∀ T rest l0, (0 ≤ l0)%Z → (l0 + 2 * Z.of_nat (length T) ≤ INT_MAX)%Z →
    kmp_match st (T ++ rest) (Z.of_nat (length T)) l0 ⇓ reports (naive_search P T).
Proof.
  intros H0 Hmax Hst. assert (Z.of_nat (length P) ≤ INT_MAX)%Z as Hmax' by cint_lia. split.
  - intros Had T rest l0 Hl0 Hl. by apply kmp_match_first.
  - intros Hall. destruct (decide (adequate P)) as [|Hnad]; [done|exfalso].
    destruct (not_adequate_spec P Hnad) as (p & r & Hr & Hp & Hb & Hq & HP & HPq).
    set (T := missed_text P p r).
    assert (length T = p + (length P - r)) as HT by (apply missed_text_length; lia).
    pose proof (Hall T [] 0%Z ltac:(lia) ltac:(cint_lia)) as Hrep.
    destruct (naive_search P T) as [s0|] eqn:Hnv.
    2:{ rewrite naive_search_None in Hnv. apply (Hnv (p - r)); [lia|].
        apply missed_text_occurs; [lia..|done]. }
    pose proof (kmp_match_run P st H0 Hmax' Hst T [] 0 ltac:(lia) ltac:(cint_lia)
      (overshoots p r)) as Hrun.
    apply yields_Ok in Hrep as (res & Hres & Hm & _). rewrite Hres in Hrun. simpl in Hrun.
    rewrite Hm in Hrun. destruct Hrun as (_ & s & l & c & _ & Hbd & _ & HTc & HPc & Hov & _).
    + intros p0 t l c Hp0 Hc _ Hov.
      pose proof (missed_text_move P p r p0 t l c ltac:(lia) Hp Hq HP HPq Hp0 Hc Hov).
      destruct (kmp_move P p0 c); auto.
    + left. lia.
    + destruct Hov as [[? ?]|?]; [|lia].
      assert (s = 0 ∧ p = length P - 1) as [-> ->] by lia.
      unfold T in HTc. rewrite missed_text_lookup in HTc by lia.
      rewrite decide_False in HTc by lia.
      replace (r + (0 + (length P - 1) - (length P - 1))) with r in HTc by lia. congruence.
Qed.

Lemma kmp_match_first_iff_witness : ∃ st,
  kmp_prepare true (bytes_of "stat") 4 kmp_initial = Ok st ∧
  (adequate (bytes_of "stat") ↔ ∀ T rest l0, (0 ≤ l0)%Z →
    (l0 + 2 * Z.of_nat (length T) ≤ INT_MAX)%Z →
    kmp_match st (T ++ rest) (Z.of_nat (length T)) l0 ⇓ reports (naive_search (bytes_of "stat") T)).
Proof.
  eexists. split; [vm_compute; reflexivity|].
  apply (kmp_match_first_iff (bytes_of "stat"));
    [vm_compute; lia|by vm_compute|vm_compute; reflexivity].
Defined.

(** Both sides of the equivalence are inhabited. *)
Example stat_adequate : adequate (bytes_of "stat").
Proof. apply (bool_decide_unpack _). by vm_compute. Qed.

Example aabaax_missed :
  ¬ adequate (bytes_of "aabaax") ∧
  occurs_at (bytes_of "aabaax") (bytes_of "aabaaabaax") 4 ∧
  (st ← kmp_prepare true (bytes_of "aabaax") 6 kmp_initial;
   kmp_match st (bytes_of "aabaaabaax") 10 1) = Ok (KmpResult false 1 (2 ^ 32 - 1)).
Proof. split_and!; [apply (bool_decide_unpack _); by vm_compute..|by vm_compute]. Qed.

(** C6: the line number stored is the starting one plus the newlines read,
    for every text, exactly for the [line_exact] patterns: for the others a
    newline that ends a partial match is counted twice. *)
Theorem kmp_match_linum_iff P st :
  0 < length P → (Z.of_nat (length P) ≤ 2 ^ 28)%Z →
  kmp_prepare true P (Z.of_nat (length P)) kmp_initial = Ok st →
  line_exact P ↔
  ∀ T rest l0, (0 ≤ l0)%Z → (l0 + 2 * Z.of_nat (length T) ≤ INT_MAX)%Z →
    kmp_match st (T ++ rest) (Z.of_nat (length T)) l0 ⇓ λ r,
      linum r = (l0 + Z.of_nat (count_nl (take (read_end P T r) T)))%Z.
Proof.
  intros H0 Hmax Hst. assert (Z.of_nat (length P) ≤ INT_MAX)%Z as Hmax' by cint_lia. split.
  - intros Hex T rest l0 Hl0 Hl. by apply kmp_match_lines.
  - intros Hall. destruct (decide (line_exact P)) as [|Hnex]; [done|exfalso].
    destruct (not_line_exact_spec P Hnex) as (p & Hp & Hq & HPp & HPq).
    set (T := take (S p) P ++ [newline]).
    assert (length T = S (S p)) as HT
      by (subst T; rewrite length_app, length_take; cbn [length]; lia).
    pose proof (Hall T [] 0%Z ltac:(lia) ltac:(cint_lia)) as Hrep.
    pose proof (kmp_match_run P st H0 Hmax' Hst T [] 0 ltac:(lia) ltac:(cint_lia)
      (overcount P T p)) as Hrun.
    apply yields_Ok in Hrep as (res & Hres & Hlin). rewrite Hres in Hrun. simpl in Hrun.
    destruct Hrun as (_ & Hrun).
    + intros p0 t l c Hp0 Hc _ Hov. by apply overcount_move.
    + left. split_and!; [done|lia|done].
    + unfold read_end in Hlin. destruct (matched res).
      * destruct Hrun as (s & l & c & _ & Hbd & _ & HTc & HPc & _).
        assert (s = 0 ∧ length P - 1 = S p) as [-> E] by lia. rewrite E in HTc, HPc.
        subst T. rewrite lookup_app_r in HTc by (rewrite length_take; lia).
        rewrite length_take, Nat.min_l in HTc by lia.
        replace (0 + S p - S p) with 0 in HTc by lia. simpl in HTc. congruence.
      * destruct Hrun as (p0 & _ & Hov & _). destruct Hov as [?|[?|[_ Hov]]]; [lia..|].
        rewrite HT in Hov, Hlin. lia.
Qed.

Lemma kmp_match_linum_iff_witness : ∃ st,
  kmp_prepare true (bytes_of "stat") 4 kmp_initial = Ok st ∧
  (line_exact (bytes_of "stat") ↔ ∀ T rest l0, (0 ≤ l0)%Z →
    (l0 + 2 * Z.of_nat (length T) ≤ INT_MAX)%Z →
    kmp_match st (T ++ rest) (Z.of_nat (length T)) l0 ⇓ λ r,
      linum r = (l0 + Z.of_nat (count_nl (take (read_end (bytes_of "stat") T r) T)))%Z).
Proof.
  eexists. split; [vm_compute; reflexivity|].
  apply (kmp_match_linum_iff (bytes_of "stat"));
    [vm_compute; lia|by vm_compute|vm_compute; reflexivity].
Defined.

Example stat_line_exact : line_exact (bytes_of "stat").
Proof. apply (bool_decide_unpack _). by vm_compute. Qed.

(** One newline precedes the match, and the line stored is 3. *)
Example aab_overcounted :
  ¬ line_exact (bytes_of "aab") ∧
  (st ← kmp_prepare true (bytes_of "aab") 3 kmp_initial;
   kmp_match st (bytes_of "aa" ++ newline :: bytes_of "aab") 6 1) = Ok (KmpResult true 3 3).
Proof. split; [apply (bool_decide_unpack _); by vm_compute|by vm_compute]. Qed.
