(* ===== verification/Heap.v ===== *)
(** The C heap as the program uses it: [malloc] and [free] of typed blocks,
    and loads and stores through pointers. *)

From S2P Require Import Prelude.

(** A block address, and a pointer: NULL or an address. *)
Abbreviation loc := positive.
Abbreviation ptr := (option loc).

(** The live blocks, the next address to hand out (addresses are not reused,
    so a dangling pointer is always recognised), and the number of blocks
    that memory still has room for. *)
Record heap (V : Type) := Heap {
  cells : gmap loc V;
  brk : loc;
  avail : nat;
}.
Arguments Heap {V}.
Arguments cells {V}.
Arguments brk {V}.
Arguments avail {V}.

Section ops.
Context {V : Type}.

(** [malloc]: a fresh block with the indeterminate content [indet], or NULL
    when memory is exhausted. *)
Definition malloc (indet : V) : M (heap V) ptr := λ h,
  match avail h with
  | O => Ok (None, h)
  | S n => Ok (Some (brk h), Heap (<[brk h := indet]> (cells h)) (Pos.succ (brk h)) n)
  end.

Definition load (p : ptr) : M (heap V) V := λ h,
  match p with
  | None => Fail NullPointer
  | Some l => match cells h !! l with Some v => Ok (v, h) | None => Fail UseAfterFree end
  end.

Definition store (p : ptr) (v : V) : M (heap V) unit := λ h,
  match p with
  | None => Fail NullPointer
  | Some l => match cells h !! l with
              | Some _ => Ok (tt, Heap (<[l := v]> (cells h)) (brk h) (avail h))
              | None => Fail UseAfterFree
              end
  end.

(** [free(NULL)] does nothing; freeing a dead block is a fault. *)
Definition free (p : ptr) : M (heap V) unit := λ h,
  match p with
  | None => Ok (tt, h)
  | Some l => match cells h !! l with
              | Some _ => Ok (tt, Heap (delete l (cells h)) (brk h) (S (avail h)))
              | None => Fail UseAfterFree
              end
  end.

(** Every live block lies below the next address. *)
Definition heap_ok (h : heap V) : Prop :=
  ∀ l, is_Some (cells h !! l) → (l < brk h)%positive.

Lemma heap_ok_fresh h : heap_ok h → cells h !! brk h = None.
Proof.
  intros Hok. apply eq_None_not_Some. intros H. apply Hok in H. lia.
Qed.

Lemma wp_malloc indet Q h n :
  heap_ok h → avail h = S n →
  (∀ l h', cells h !! l = None → cells h' = <[l := indet]> (cells h) → avail h' = n →
    heap_ok h' → Q (Some l) h') →
  wp (malloc indet) Q h.
Proof.
  intros Hok Hn HQ. unfold wp, malloc. rewrite Hn. simpl.
  apply HQ; simpl; [by apply heap_ok_fresh|done..|].
  intros l [v Hl]. simpl in *.
  destruct (decide (l = brk h)) as [->|]; [lia|].
  rewrite lookup_insert_ne in Hl by done.
  assert (l < brk h)%positive by (apply Hok; eauto). lia.
Qed.

Lemma wp_load l v Q h :
  cells h !! l = Some v → Q v h → wp (load (Some l)) Q h.
Proof. intros Hl HQ. unfold wp, load. by rewrite Hl. Qed.

Lemma wp_store l v Q h :
  heap_ok h → is_Some (cells h !! l) →
  (∀ h', cells h' = <[l := v]> (cells h) → avail h' = avail h → heap_ok h' → Q tt h') →
  wp (store (Some l) v) Q h.
Proof.
  intros Hok [v' Hl] HQ. unfold wp, store. rewrite Hl. simpl. apply HQ; [done..|].
  intros l' Hl'. simpl in *. apply Hok. destruct (decide (l = l')) as [->|]; [by eauto|].
  by rewrite lookup_insert_ne in Hl'.
Qed.

Lemma wp_free l Q h :
  heap_ok h → is_Some (cells h !! l) →
  (∀ h', cells h' = delete l (cells h) → avail h' = S (avail h) → heap_ok h' → Q tt h') →
  wp (free (Some l)) Q h.
Proof.
  intros Hok [v' Hl] HQ. unfold wp, free. rewrite Hl. simpl. apply HQ; [done..|].
  intros l' [x Hl']. simpl in *. apply lookup_delete_Some in Hl' as [_ ?].
  apply Hok. by eauto.
Qed.

(** The same with the heap that results. *)
Lemma wp_malloc_exact indet Q h n :
  avail h = S n → Q (Some (brk h)) (Heap (<[brk h := indet]> (cells h)) (Pos.succ (brk h)) n) →
  wp (malloc indet) Q h.
Proof. intros Hn HQ. unfold wp, malloc. by rewrite Hn. Qed.

Lemma wp_store_exact l v Q h :
  is_Some (cells h !! l) → Q tt (Heap (<[l := v]> (cells h)) (brk h) (avail h)) →
  wp (store (Some l) v) Q h.
Proof. intros [v' Hl] HQ. unfold wp, store. by rewrite Hl. Qed.

Lemma wp_free_exact l Q h :
  is_Some (cells h !! l) → Q tt (Heap (delete l (cells h)) (brk h) (S (avail h))) →
  wp (free (Some l)) Q h.
Proof. intros [v' Hl] HQ. unfold wp, free. by rewrite Hl. Qed.

Lemma heap_ok_below m b n : heap_ok (Heap m b n) ↔ ∀ l, l ∈ dom m → (l < b)%positive.
Proof. unfold heap_ok. cbn. by setoid_rewrite elem_of_dom. Qed.
End ops.
