(* ===== verification/Trie.v ===== *)
(** The prefix tree of [src/util.c] on an explicit heap: [trie_init],
    [trie_walk], [trie_insert], [trie_lookup], [trie_scan], [trie_destroy]. *)

From S2P Require Import Prelude CInt Heap.
Local Open Scope Z_scope.

(** ** Data *)

Definition MAX_CHILDREN : nat := 256.

(** [struct trie]. *)
Record trie_node := TrieNode { isleaf : bool; children : list ptr }.

(** A block that [malloc] returned holds [None] until [memset] clears it. *)
Abbreviation trie_cell := (option trie_node).
Abbreviation theap := (heap trie_cell).

(** All bytes zero: not a leaf, every child NULL. *)
Definition zero_node : trie_node := TrieNode false (replicate MAX_CHILDREN None).

Definition load_node (p : ptr) : M theap trie_node :=
  c ← load p;
  match c with Some n => mret n | None => fail Uninitialised end.

Definition store_node (p : ptr) (n : trie_node) : M theap unit := store p (Some n).

(** ** Operations *)

(** [trie_init(&root)]: the new value of [*root], which is also returned.
    The result of [malloc] is not tested before [memset]. *)
Definition trie_init (root : ptr) : M theap ptr :=
  match root with
  | None => p ← malloc None; store_node p zero_node;; mret p
  | Some _ => mret root
  end.

(** [node->children[idx]]. *)
Definition child (node : ptr) (idx : byte) : M theap ptr :=
  n ← load_node node;
  lift (rd (children n) (Z.of_nat (u8 idx))).

(** [node->children[idx] = c]. *)
Definition set_child (node : ptr) (idx : byte) (c : ptr) : M theap unit :=
  n ← load_node node;
  cs ← lift (wr (children n) (Z.of_nat (u8 idx)) c);
  store_node node (TrieNode (isleaf n) cs).

(** The loop of [trie_walk]: either it returns from within ([inl]) or it ends
    at a node ([inr]). *)
Fixpoint walk_loop (fuel : nat) (node : ptr) (target : list byte) (i size : Z)
    (create scan : bool) : M theap (ptr + ptr) :=
  if bool_decide (i < size) then
    match fuel with
    | O => fail OutOfFuel
    | S fuel' =>
        idx ← lift (rd target i);
        c ← child node idx;
        stop ← (match c with
                | None =>
                    if create then
                      c' ← trie_init c;
                      set_child node idx c';;
                      mret false
                    else mret true
                | Some _ => mret false
                end);
        if (stop : bool) then mret (inl None)
        else
          node' ← child node idx;
          leaf ← (if scan then n ← load_node node'; mret (isleaf n) else mret false);
          if (leaf : bool) then mret (inl node')
          else walk_loop fuel' node' target (i + 1) size create scan
    end
  else mret (inr node).

(** What [trie_walk] does once the loop has ended at [node]. *)
Definition walk_end (node : ptr) (create : bool) : M theap ptr :=
  taken ← (if create then
             n ← load_node node;
             if isleaf n then mret true
             else store_node node (TrieNode true (children n));; mret false
           else mret false);
  if (taken : bool) then mret None
  else
    n ← load_node node;
    mret (if isleaf n then node else None).

Definition trie_walk (root : ptr) (target : list byte) (size : Z) (create scan : bool)
    : M theap ptr :=
  r ← walk_loop (Z.to_nat size) root target 0 size create scan;
  match r with
  | inl p => mret p
  | inr node => walk_end node create
  end.

(** [assert(root); assert(size > 0); assert(target);]: the target is an
    array, so only the first two can fail. *)
Definition trie_asserts (root : ptr) (size : Z) : M theap unit :=
  lift (check (bool_decide (is_Some root) && bool_decide (0 < size)) AssertionFailed).

Definition trie_insert (root : ptr) (target : list byte) (size : Z) : M theap ptr :=
  trie_asserts root size;; trie_walk root target size true false.

Definition trie_lookup (root : ptr) (target : list byte) (size : Z) : M theap ptr :=
  trie_asserts root size;; trie_walk root target size false false.

Definition trie_scan (root : ptr) (target : list byte) (size : Z) : M theap ptr :=
  trie_asserts root size;; trie_walk root target size false true.

(** The loop over the children of [root] in [trie_destroy], [rec] being the
    recursive call, with [n] iterations left. *)
Fixpoint destroy_children (rec : ptr → M theap unit) (root : ptr) (n : nat) (i : Z)
    : M theap unit :=
  match n with
  | O => mret tt
  | S n' =>
      nd ← load_node root;
      c ← lift (rd (children nd) i);
      (match c with Some _ => rec c | None => mret tt end);;
      destroy_children rec root n' (i + 1)
  end.

Fixpoint trie_destroy (fuel : nat) (root : ptr) : M theap unit :=
  match fuel with
  | O => fail OutOfFuel
  | S fuel' =>
      destroy_children (trie_destroy fuel') root MAX_CHILDREN 0;;
      free root
  end.

(** ** The tree in the heap *)

Local Close Scope Z_scope.

(** The node reached from [l] by the word [w]. *)
Fixpoint follow (m : gmap loc trie_cell) (l : loc) (w : list byte) : option loc :=
  match w with
  | [] => Some l
  | b :: w' =>
      match m !! l with
      | Some (Some n) =>
          match children n !! u8 b with
          | Some (Some l') => follow m l' w'
          | _ => None
          end
      | _ => None
      end
  end.

Definition leaf_at (m : gmap loc trie_cell) (l : loc) : bool :=
  match m !! l with Some (Some n) => isleaf n | _ => false end.

(** The word [w] is in the tree rooted at [l]. *)
Definition accepts (m : gmap loc trie_cell) (l : loc) (w : list byte) : bool :=
  match follow m l w with Some l' => leaf_at m l' | None => false end.

(** The blocks [D] form a tree of height at most [d] rooted at [l]: distinct
    children own disjoint sets of blocks. *)
Fixpoint rep (m : gmap loc trie_cell) (d : nat) (l : loc) (D : gset loc) : Prop :=
  match d with
  | O => False
  | S d' => ∃ n Ds,
      m !! l = Some (Some n) ∧ length (children n) = MAX_CHILDREN ∧
      (∀ i, match children n !! i with
            | Some (Some l') => rep m d' l' (Ds i)
            | _ => Ds i = ∅
            end) ∧
      (∀ x, x ∈ D ↔ x = l ∨ ∃ i, x ∈ Ds i) ∧
      (∀ i, l ∉ Ds i) ∧
      (∀ i j, i ≠ j → Ds i ## Ds j)
  end.

(** The heap [h] is the frame [F] together with a tree rooted at [p] that
    holds the words [K]. *)
Definition trie_repr (F : gmap loc trie_cell) (p : loc) (K : gset (list byte)) (h : theap) : Prop :=
  heap_ok h ∧ ∃ d D,
    rep (cells h) d p D ∧
    (∀ x, F !! x = if decide (x ∈ D) then None else cells h !! x) ∧
    (∀ w, w ∈ K ↔ accepts (cells h) p w = true).
