(* ===== verification/TrieSpec.v ===== *)
(** The prefix tree implements a set of words: each operation of [Trie]
    against the abstract set, with the heap outside the tree unchanged. *)

From S2P Require Import Prelude CInt Heap Trie.

Abbreviation tmap := (gmap loc trie_cell).

Lemma u8_child b : u8 b < MAX_CHILDREN.
Proof. apply u8_bound. Qed.

#[local] Opaque MAX_CHILDREN.

(** ** The representation predicate *)

Section rep.
Implicit Types (m : tmap) (D : gset loc).

Lemma rep_root m d l D : rep m d l D → l ∈ D.
Proof. destruct d; [done|]. intros (n & Ds & _ & _ & _ & HD & _). apply HD. by left. Qed.

Lemma rep_node m d l D :
  rep m d l D → ∃ n, m !! l = Some (Some n) ∧ length (children n) = MAX_CHILDREN.
Proof. destruct d; [done|]. intros (n & Ds & ? & ? & _). by exists n. Qed.

Lemma rep_mono m d d' l D : rep m d l D → d ≤ d' → rep m d' l D.
Proof.
  revert d' l D. induction d as [|d IH]; [done|].
  intros [|d'] l D; [lia|]. intros (n & Ds & Hn & Hlen & Hch & HD & Hl & Hdisj) Hle.
  exists n, Ds. split_and!; try done. intros i. specialize (Hch i).
  destruct (children n !! i) as [[l'|]|]; [|done..]. apply IH; [done|lia].
Qed.

(** Only the blocks of the tree matter. *)
Lemma rep_frame m m' d l D :
  rep m d l D → (∀ x, x ∈ D → m' !! x = m !! x) → rep m' d l D.
Proof.
  revert l D. induction d as [|d IH]; [done|].
  intros l D (n & Ds & Hn & Hlen & Hch & HD & Hl & Hdisj) Heq.
  exists n, Ds. split_and!; try done; [rewrite Heq; [done|set_solver]|].
  intros i. specialize (Hch i). destruct (children n !! i) as [[l'|]|]; [|done..].
  apply IH; [done|]. intros x Hx. apply Heq, HD. eauto.
Qed.

Lemma rep_alloc m d l D x : rep m d l D → x ∈ D → is_Some (m !! x).
Proof.
  revert l D. induction d as [|d IH]; [done|].
  intros l D (n & Ds & Hn & Hlen & Hch & HD & Hl & Hdisj) Hx.
  apply HD in Hx as [->|(i & Hi)]; [by eauto|].
  specialize (Hch i). destruct (children n !! i) as [[l'|]|]; [by eapply IH|set_solver..].
Qed.

Lemma follow_app m l w1 w2 :
  follow m l (w1 ++ w2) = match follow m l w1 with Some l' => follow m l' w2 | None => None end.
Proof.
  revert l. induction w1 as [|b w1 IH]; intros l; [done|]. simpl.
  destruct (m !! l) as [[n|]|]; [|done..].
  destruct (children n !! u8 b) as [[l'|]|]; [|done..]. apply IH.
Qed.

Lemma follow_rep m d l D w l' :
  rep m d l D → follow m l w = Some l' → ∃ d' D', rep m d' l' D' ∧ D' ⊆ D.
Proof.
  revert d l D. induction w as [|b w IH]; intros d l D Hrep; [intros [= <-]; eauto|].
  destruct d; [done|]. destruct Hrep as (n & Ds & Hn & _ & Hch & HD & _). simpl. rewrite Hn.
  specialize (Hch (u8 b)). destruct (children n !! u8 b) as [[l1|]|]; [|done..].
  intros Hf. destruct (IH _ _ _ Hch Hf) as (d' & D' & ? & ?). exists d', D'. split; [done|].
  set_solver.
Qed.

Lemma follow_frame m m' d l D w :
  rep m d l D → (∀ x, x ∈ D → m' !! x = m !! x) → follow m' l w = follow m l w.
Proof.
  revert d l D. induction w as [|b w IH]; intros d l D Hrep Heq; [done|].
  simpl. rewrite Heq by by eapply rep_root. destruct d; [done|].
  destruct Hrep as (n & Ds & Hn & _ & Hch & HD & _). rewrite Hn.
  specialize (Hch (u8 b)). destruct (children n !! u8 b) as [[l1|]|]; [|done..].
  eapply IH; [done|]. intros x Hx. apply Heq, HD. eauto.
Qed.

Lemma accepts_frame m m' d l D w :
  rep m d l D → (∀ x, x ∈ D → m' !! x = m !! x) → accepts m' l w = accepts m l w.
Proof.
  intros Hrep Heq. unfold accepts. rewrite (follow_frame m m' d l D) by done.
  destruct (follow m l w) as [l'|] eqn:E; [|done].
  destruct (follow_rep _ _ _ _ _ _ Hrep E) as (d' & D' & Hr & HD).
  unfold leaf_at. rewrite Heq; [done|]. apply HD. by eapply rep_root.
Qed.

(** The height is bounded by the number of blocks. *)
Lemma rep_height m d l D : rep m d l D → rep m (size D) l D.
Proof.
  revert l D. induction d as [|d IH]; [done|].
  intros l D Hrep. pose proof (rep_root _ _ _ _ Hrep) as Hl.
  destruct Hrep as (n & Ds & Hn & Hlen & Hch & HD & HlD & Hdisj).
  destruct (size D) as [|k] eqn:Hk.
  { apply size_empty_inv in Hk. set_solver. }
  exists n, Ds. split_and!; try done. intros i. specialize (Hch i).
  destruct (children n !! i) as [[l'|]|]; [|done..].
  eapply rep_mono; [by apply IH|]. enough (size (Ds i) < size D) by lia.
  apply subset_size. split; [set_solver|]. intros Hsub. apply (HlD i). set_solver.
Qed.
End rep.

(** ** Reading a node *)

Section reads.
Implicit Types (h : theap).

Lemma run_load_node h l n :
  cells h !! l = Some (Some n) → load_node (Some l) h = Ok (n, h).
Proof. intros Hl. unfold load_node, mbind, M_bind, load. by rewrite Hl. Qed.

Lemma run_child h l n b :
  cells h !! l = Some (Some n) → length (children n) = MAX_CHILDREN →
  ∃ c, children n !! u8 b = Some c ∧ child (Some l) b h = Ok (c, h).
Proof.
  intros Hl Hlen. destruct (lookup_lt_is_Some_2 (children n) (u8 b)) as [c Hc].
  { rewrite Hlen. apply u8_child. }
  exists c. split; [done|]. unfold child, mbind, M_bind. rewrite (run_load_node _ _ _ Hl).
  unfold lift. by rewrite (rd_nat _ _ _ Hc).
Qed.

(** The first leaf met on the way down from [l] along [w]. *)
Fixpoint first_leaf (m : tmap) (l : loc) (w : list byte) : option loc :=
  match w with
  | [] => None
  | b :: w' =>
      match follow m l [b] with
      | Some l' => if leaf_at m l' then Some l' else first_leaf m l' w'
      | None => None
      end
  end.

(** The loop without [create] leaves the heap alone and follows the word,
    stopping at the first leaf when it scans. *)
Lemma run_walk_loop h (scan : bool) post w :
  ∀ d l D pre fuel, rep (cells h) d l D → length w ≤ fuel →
  walk_loop fuel (Some l) (pre ++ w ++ post) (Z.of_nat (length pre))
    (Z.of_nat (length pre + length w)) false scan h =
  Ok (match (if scan then first_leaf (cells h) l w else None) with
      | Some l' => inl (Some l')
      | None => match follow (cells h) l w with Some l' => inr (Some l') | None => inl None end
      end, h).
Proof.
  induction w as [|b w IH]; intros d l D pre fuel Hrep Hfuel.
  { destruct fuel; simpl; rewrite bool_decide_false by lia; by destruct scan. }
  destruct fuel as [|fuel]; [simpl in Hfuel; lia|].
  cbn [walk_loop]. rewrite bool_decide_true by (simpl; lia).
  assert ((pre ++ (b :: w) ++ post) !! length pre = Some b) as Hb
    by (rewrite lookup_app_r, Nat.sub_diag by lia; done).
  unfold mbind, M_bind. cbn [lift]. unfold lift. rewrite (rd_nat _ _ _ Hb).
  destruct (rep_node _ _ _ _ Hrep) as (n & Hn & Hlen).
  destruct (run_child h l n b Hn Hlen) as (c & Hc & Hrun). rewrite Hrun. simpl follow.
  cbn [first_leaf follow]. rewrite Hn, Hc.
  destruct c as [l'|]; [|by destruct scan]. cbn. rewrite Hrun.
  destruct d; [done|]. destruct Hrep as (n' & Ds & Hn' & _ & Hch & _).
  assert (n' = n) as -> by congruence. specialize (Hch (u8 b)). rewrite Hc in Hch.
  destruct (rep_node _ _ _ _ Hch) as (nl & Hnl & _).
  specialize (IH d l' (Ds (u8 b)) (pre ++ [b]) fuel Hch ltac:(simpl in Hfuel; lia)).
  rewrite <-app_assoc, length_app in IH. simpl in IH.
  replace (Z.of_nat (length pre) + 1)%Z with (Z.of_nat (length pre + 1)) by lia.
  replace (length pre + S (length w)) with (length pre + 1 + length w) by lia.
  destruct scan; [|exact IH].
  cbn. rewrite (run_load_node _ _ _ Hnl). cbn. unfold leaf_at at 1. rewrite Hnl.
  destruct (isleaf nl); [done|exact IH].
Qed.

Lemma run_walk_end_read h l n :
  cells h !! l = Some (Some n) →
  walk_end (Some l) false h = Ok (if isleaf n then Some l else None, h).
Proof.
  intros Hl. unfold walk_end, mbind, M_bind. cbn. by rewrite (run_load_node _ _ _ Hl).
Qed.

Lemma first_leaf_Some m l w :
  is_Some (first_leaf m l w) ↔ ∃ k, k ≠ [] ∧ k `prefix_of` w ∧ accepts m l k = true.
Proof.
  revert l. induction w as [|b w IH]; intros l; cbn [first_leaf].
  { split; [by intros []|]. intros (k & Hk & Hpre & _). by apply prefix_nil_inv in Hpre. }
  split.
  - destruct (follow m l [b]) as [l'|] eqn:Hf; [|by intros []].
    destruct (leaf_at m l') eqn:Hleaf.
    + intros _. exists [b]. split_and!; [done|by apply prefix_cons, prefix_nil|].
      unfold accepts. by rewrite Hf.
    + intros (k & Hk & Hpre & Hacc)%IH. exists (b :: k).
      split_and!; [done|by apply prefix_cons|].
      unfold accepts in *. change (b :: k) with ([b] ++ k). by rewrite follow_app, Hf.
  - intros (k & Hk & Hpre & Hacc). destruct k as [|b' k]; [done|].
    pose proof (prefix_cons_inv_1 _ _ _ _ Hpre) as ->.
    apply prefix_cons_inv_2 in Hpre. unfold accepts in Hacc.
    change (b :: k) with ([b] ++ k) in Hacc. rewrite follow_app in Hacc.
    destruct (follow m l [b]) as [l'|]; [|done].
    destruct (leaf_at m l') eqn:Hleaf; [by eauto|].
    apply IH. exists k. split_and!; [|done|done].
    intros ->. simpl in Hacc. congruence.
Qed.

Lemma first_leaf_None m l w l' :
  first_leaf m l w = None → w ≠ [] → follow m l w = Some l' → leaf_at m l' = false.
Proof.
  intros Hn Hw Hf. destruct (leaf_at m l') eqn:E; [|done].
  assert (is_Some (first_leaf m l w)) as [? ?]; [|congruence].
  apply first_leaf_Some. exists w. split_and!; [done|done|]. unfold accepts. by rewrite Hf.
Qed.
End reads.

(** ** Updating a tree *)

Section update.
Implicit Types (m : tmap) (D : gset loc).

(** Replace the root's node, its child [i] getting the tree [Di'] and the
    others keeping theirs. *)
Lemma rep_update m m' d d' l n n' (Ds : nat → gset loc) i Di' :
  length (children n') = MAX_CHILDREN →
  m' !! l = Some (Some n') →
  (∀ j, j ≠ i → children n' !! j = children n !! j) →
  (∀ j, match children n !! j with
        | Some (Some l') => rep m d l' (Ds j)
        | _ => Ds j = ∅
        end) →
  (∀ j, l ∉ Ds j) → (∀ j k, j ≠ k → Ds j ## Ds k) →
  match children n' !! i with
  | Some (Some l') => rep m' d' l' Di'
  | _ => Di' = ∅
  end →
  (∀ j x, j ≠ i → x ∈ Ds j → m' !! x = m !! x) →
  l ∉ Di' → (∀ j, j ≠ i → Ds j ## Di') →
  ∀ D', (∀ x, x ∈ D' ↔ x = l ∨ x ∈ Di' ∨ ∃ j, j ≠ i ∧ x ∈ Ds j) →
  rep m' (S (d `max` d')) l D'.
Proof.
  intros Hlen Hl Hch Hrep HlD Hdisj Hi Hframe HlDi HDi D' HD'.
  exists n', (λ j, if decide (j = i) then Di' else Ds j). split_and!; try done.
  - intros j. case_decide as Hj; [subst j|rewrite Hch by done; specialize (Hrep j)].
    + destruct (children n' !! i) as [[l'|]|]; [|done..]. eapply rep_mono; [done|lia].
    + destruct (children n !! j) as [[l'|]|]; [|done..].
      eapply rep_mono; [eapply rep_frame; [done|]; intros; by eapply Hframe|lia].
  - intros x. rewrite HD'. split.
    + intros [->|[Hx|(j & Hj & Hx)]]; [by left|right..].
      * exists i. by rewrite decide_True.
      * exists j. by rewrite decide_False.
    + intros [->|(j & Hx)]; [by left|]. case_decide; eauto.
  - intros j. case_decide; [done|apply HlD].
  - intros j k Hjk. repeat case_decide; subst; try done; [|by apply HDi|by apply Hdisj].
    symmetry. by apply HDi.
Qed.

(** What such a tree accepts: at the root and through child [i] the new
    content, through the other children the old one. *)
Lemma accepts_update m m' d l n n' (Ds : nat → gset loc) b w :
  m !! l = Some (Some n) → m' !! l = Some (Some n') →
  (∀ j, match children n !! j with
        | Some (Some l') => rep m d l' (Ds j)
        | _ => Ds j = ∅
        end) →
  children n' !! u8 b = children n !! u8 b →
  (∀ x, x ∈ Ds (u8 b) → m' !! x = m !! x) →
  accepts m' l (b :: w) = accepts m l (b :: w).
Proof.
  intros Hl Hl' Hrep Hch Hframe. unfold accepts. simpl. rewrite Hl, Hl', Hch.
  specialize (Hrep (u8 b)). destruct (children n !! u8 b) as [[l1|]|]; [|done..].
  by apply (accepts_frame m m' d l1 (Ds (u8 b))).
Qed.

Lemma accepts_child m l n b l' w :
  m !! l = Some (Some n) → children n !! u8 b = Some (Some l') →
  accepts m l (b :: w) = accepts m l' w.
Proof. intros Hl Hc. unfold accepts. simpl. by rewrite Hl, Hc. Qed.

Lemma accepts_nil m l n : m !! l = Some (Some n) → accepts m l [] = isleaf n.
Proof. intros Hl. unfold accepts, leaf_at. simpl. by rewrite Hl. Qed.

Lemma zero_children i : zero_node.(children) !! i = if decide (i < MAX_CHILDREN) then Some None else None.
Proof.
  unfold zero_node. cbn [children]. case_decide; [by apply lookup_replicate_2|].
  apply lookup_ge_None. rewrite length_replicate. lia.
Qed.

Lemma rep_zero m l : m !! l = Some (Some zero_node) → rep m 1 l {[l]}.
Proof.
  intros Hl. exists zero_node, (λ _, ∅). split_and!; try done.
  - intros i. rewrite zero_children. by case_decide.
  - set_solver.
Qed.

Lemma accepts_zero m l w : m !! l = Some (Some zero_node) → accepts m l w = false.
Proof.
  intros Hl. unfold accepts. destruct w as [|b w]; simpl.
  - unfold leaf_at. by rewrite Hl.
  - rewrite Hl, zero_children. by case_decide.
Qed.
End update.

(** ** Insertion *)

Section insert.
(** What inserting [w] below [l] does to the heap [h], [D] being the blocks
    of the tree: the tree may grow by fresh blocks, nothing else changes,
    and the word is new exactly when a node is returned. *)
Record inserted (h : theap) (l : loc) (D : gset loc) (w : list byte)
    (r : ptr) (h' : theap) : Prop := {
  ins_ok : heap_ok h';
  ins_rep : ∃ d' D', rep (cells h') d' l D' ∧ D ⊆ D' ∧
    (∀ x, x ∈ D' → x ∉ D → cells h !! x = None) ∧
    (∀ x, x ∉ D' → cells h' !! x = cells h !! x);
  ins_accepts : ∀ w', accepts (cells h') l w' = bool_decide (w' = w) || accepts (cells h) l w';
  ins_result : r = None ↔ accepts (cells h) l w = true;
  ins_avail : avail h ≤ avail h' + length w;
}.

(** Setting the leaf bit at the end of the word. *)
Lemma wp_walk_end h d l D :
  heap_ok h → rep (cells h) d l D →
  wp (walk_end (Some l) true) (inserted h l D []) h.
Proof.
  intros Hok Hrep. destruct (rep_node _ _ _ _ Hrep) as (n & Hn & Hlen).
  unfold walk_end. apply wp_bind, wp_bind. eapply wp_run_eq; [by apply run_load_node|].
  destruct (isleaf n) eqn:Hleaf.
  - apply wp_ret, wp_ret. split; [done| | |by rewrite (accepts_nil _ _ _ Hn)|lia].
    { exists d, D. by split_and!. }
    intros w'. case_bool_decide; [|done]. subst w'. by rewrite (accepts_nil _ _ _ Hn).
  - apply wp_bind. apply wp_store; [done|by eauto|]. intros h' Hc Ha Hok'.
    apply wp_ret. cbn iota. apply wp_bind.
    assert (cells h' !! l = Some (Some (TrieNode true (children n)))) as Hn'
      by (rewrite Hc; apply lookup_insert_eq).
    eapply wp_run_eq; [by apply run_load_node|]. apply wp_ret. simpl.
    destruct d as [|d]; [done|]. destruct Hrep as (n0 & Ds & Hn0 & _ & Hch & HD & HlD & Hdisj).
    assert (n0 = n) as -> by congruence.
    assert (∀ j x, x ∈ Ds j → cells h' !! x = cells h !! x) as Hfr.
    { intros j x Hx. rewrite Hc. apply lookup_insert_ne. intros ->. by apply (HlD j). }
    split; [done| | | |lia].
    + exists (S (d `max` 0)), D. split_and!; [|done|done|].
      * assert (children n !! MAX_CHILDREN = None) as Hnone by (apply lookup_ge_None_2; lia).
        eapply (rep_update _ _ d 0 l n (TrieNode true (children n)) Ds MAX_CHILDREN ∅);
          [exact Hlen|exact Hn'|done|exact Hch|exact HlD|exact Hdisj|cbn [children]; by rewrite Hnone
          |intros; by eapply Hfr|apply not_elem_of_empty|intros; apply disjoint_empty_r|].
        -- intros x. rewrite HD. split; [|by intros [->|[?|(j & _ & ?)]]; [by left|set_solver|eauto]].
           intros [->|(j & Hj)]; [by left|]. right. right. exists j. split; [|done].
           intros ->. specialize (Hch MAX_CHILDREN). rewrite Hnone in Hch. set_solver.
      * intros x Hx. rewrite Hc. apply lookup_insert_ne. intros ->. apply Hx, HD. by left.
    + intros [|b w]; [by rewrite (accepts_nil _ _ _ Hn')|]. rewrite bool_decide_false by done.
      apply (accepts_update _ _ d l n (TrieNode true (children n)) Ds);
        [done..|by intros x; apply Hfr].
    + rewrite (accepts_nil _ _ _ Hn). by split; [|congruence].
Qed.
(** Linking a cleared node below [l] where there was none. *)
Definition linked (h : theap) (l : loc) (D : gset loc) (b : byte) (h2 : theap) : Prop :=
  heap_ok h2 ∧ (∃ d2 D2 n2 l',
    rep (cells h2) d2 l D2 ∧ cells h2 !! l = Some (Some n2) ∧
    children n2 !! u8 b = Some (Some l') ∧
    D ⊆ D2 ∧ (∀ x, x ∈ D2 → x ∉ D → cells h !! x = None) ∧
    (∀ x, x ∉ D2 → cells h2 !! x = cells h !! x)) ∧
  (∀ w, accepts (cells h2) l w = accepts (cells h) l w) ∧
  avail h ≤ S (avail h2).

(** The node linked, with [l'] its new empty child. *)
Definition link_node (n : trie_node) (b : byte) (l' : loc) : trie_node :=
  TrieNode (isleaf n) (<[u8 b := Some l']> (children n)).

Section link.
  Context (h h2 : theap) (d : nat) (l l' : loc) (D : gset loc) (n : trie_node) (b : byte)
    (Hrep : rep (cells h) d l D) (Hn : cells h !! l = Some (Some n))
    (Hb : children n !! u8 b = Some None) (Hfresh : cells h !! l' = None)
    (Hc : cells h2 = <[l := Some (link_node n b l')]> (<[l' := Some zero_node]> (cells h))).

Lemma link_other x : x ≠ l → x ≠ l' → cells h2 !! x = cells h !! x.
Proof using Hc. intros. by rewrite Hc, !lookup_insert_ne by done. Qed.

Lemma link_parent : cells h2 !! l = Some (Some (link_node n b l')).
Proof using Hc. rewrite Hc. apply lookup_insert_eq. Qed.

Lemma link_child : cells h2 !! l' = Some (Some zero_node).
Proof using Hc Hn Hfresh.
  rewrite Hc, lookup_insert_ne by congruence. apply lookup_insert_eq.
Qed.

Lemma link_node_child : children (link_node n b l') !! u8 b = Some (Some l').
Proof using Hb. apply list_lookup_insert_eq. by eapply lookup_lt_Some. Qed.

Lemma link_fresh : l' ∉ D.
Proof using Hrep Hfresh. intros [v Hv]%(rep_alloc _ _ _ _ _ Hrep); congruence. Qed.

Lemma link_rep : ∃ d2, rep (cells h2) d2 l (D ∪ {[l']}).
Proof using All.
  pose proof link_fresh as HlD'. destruct d as [|d']; [done|].
  destruct Hrep as (n0 & Ds & Hn0 & Hlen & Hch & HD & HlD & Hdisj).
  assert (n0 = n) as -> by congruence. clear Hn0.
  assert (Ds (u8 b) = ∅) as Hempty by (specialize (Hch (u8 b)); by rewrite Hb in Hch).
  assert (∀ j x, x ∈ Ds j → x ≠ l ∧ x ≠ l') as Hne.
  { intros j x Hx. split; intros ->; [by apply (HlD j)|]. apply HlD', HD. eauto. }
  exists (S (d' `max` 1)).
  apply (rep_update (cells h) (cells h2) d' 1 l n (link_node n b l') Ds (u8 b) {[l']}); try done.
  - simpl. by rewrite length_insert.
  - apply link_parent.
  - intros. by apply list_lookup_insert_ne.
  - rewrite link_node_child. apply rep_zero, link_child.
  - intros j x _ Hx. apply link_other; by eapply Hne.
  - assert (l ≠ l') by congruence. set_solver.
  - intros j _ x Hx ?%elem_of_singleton. subst x. by apply Hne in Hx as [_ ?].
  - intros x. rewrite elem_of_union, elem_of_singleton, HD. split.
    + intros [[->|(j & Hj)]| ->]; [by left| |by right; left].
      right. right. exists j. split; [|done]. intros ->. rewrite Hempty in Hj. set_solver.
    + intros [->|[->|(j & _ & Hj)]]; eauto.
Qed.

Lemma link_accepts w : accepts (cells h2) l w = accepts (cells h) l w.
Proof using All.
  pose proof link_fresh as HlD'. destruct d as [|d']; [done|].
  destruct Hrep as (n0 & Ds & Hn0 & _ & Hch & HD & HlD & _).
  assert (n0 = n) as -> by congruence. clear Hn0.
  destruct w as [|b' w]; [by rewrite (accepts_nil _ _ _ Hn), (accepts_nil _ _ _ link_parent)|].
  destruct (decide (u8 b' = u8 b)) as [->%u8_inj|Hbb].
  - rewrite (accepts_child _ _ _ _ _ _ link_parent link_node_child), accepts_zero
      by apply link_child.
    unfold accepts. simpl. by rewrite Hn, Hb.
  - apply (accepts_update (cells h) (cells h2) d' l n (link_node n b l') Ds); try done.
    + apply link_parent.
    + by apply list_lookup_insert_ne.
    + intros x Hx. apply link_other; intros ->; [by eapply HlD|]. apply HlD', HD. eauto.
Qed.

Lemma link_linked : heap_ok h2 → avail h ≤ S (avail h2) → linked h l D b h2.
Proof using All.
  intros Hok Hav. destruct link_rep as [d2 Hd2]. split; [done|].
  split; [|split; [apply link_accepts|done]].
  exists d2, (D ∪ {[l']}), (link_node n b l'), l'.
  split_and!; [done|apply link_parent|apply link_node_child|set_solver| |].
  - intros x Hx HxD. assert (x = l') as -> by set_solver. done.
  - intros x Hx. apply link_other; [|set_solver]. intros ->.
    apply Hx, elem_of_union_l. by eapply rep_root.
Qed.
End link.

Lemma wp_link h d l D n b :
  heap_ok h → rep (cells h) d l D → 0 < avail h →
  cells h !! l = Some (Some n) → children n !! u8 b = Some None →
  wp (c' ← trie_init None; set_child (Some l) b c';; mret false)
    (λ stop h2, stop = false ∧ linked h l D b h2) h.
Proof.
  intros Hok Hrep Hav Hn Hb. destruct (avail h) as [|k] eqn:Hk; [lia|].
  apply wp_bind. unfold trie_init. apply wp_bind. eapply wp_malloc; [done..|].
  intros l' h1 Hfresh Hc1 Ha1 Hok1. apply wp_bind.
  apply wp_store; [done|by rewrite Hc1, lookup_insert_eq|]. intros h1' Hc1' Ha1' Hok1'.
  rewrite Hc1, insert_insert_eq in Hc1'. apply wp_ret. apply wp_bind.
  assert (l ≠ l') as Hll by congruence.
  assert (cells h1' !! l = Some (Some n)) as Hn1 by (by rewrite Hc1', lookup_insert_ne).
  unfold set_child. apply wp_bind. eapply wp_run_eq; [by apply run_load_node|].
  apply wp_bind, wp_lift. apply lookup_lt_Some in Hb as Hub. rewrite wr_nat by done. simpl.
  apply wp_store; [done|by eauto|]. intros h2 Hc2 Ha2 Hok2. apply wp_ret. split; [done|].
  eapply link_linked; [done..| |done|lia]. by rewrite Hc2, Hc1'.
Qed.

(** A word inserted below the child [l'] of [l] is inserted below [l]. *)
Lemma inserted_child h d l D n b l' Ds w r h' :
  cells h !! l = Some (Some n) → length (children n) = MAX_CHILDREN →
  children n !! u8 b = Some (Some l') →
  (∀ i, match children n !! i with
        | Some (Some l') => rep (cells h) d l' (Ds i)
        | _ => Ds i = ∅
        end) →
  (∀ x, x ∈ D ↔ x = l ∨ ∃ i, x ∈ Ds i) → (∀ i, l ∉ Ds i) → (∀ i j, i ≠ j → Ds i ## Ds j) →
  inserted h l' (Ds (u8 b)) w r h' → inserted h l D (b :: w) r h'.
Proof.
  intros Hn Hlen Hb Hch HD HlD Hdisj [Hok' (d' & Di & Hrep' & Hsub & Hnew & Hout) Hacc Hres Hav].
  assert (∀ x, is_Some (cells h !! x) → x ∉ Ds (u8 b) → x ∉ Di) as Hold.
  { intros x [v Hv] Hx Hx'. rewrite Hnew in Hv; done. }
  assert (l ∉ Di) as HlDi by (apply Hold; eauto).
  assert (cells h' !! l = Some (Some n)) as Hn' by (by rewrite Hout).
  assert (∀ j x, j ≠ u8 b → x ∈ Ds j → x ∉ Di) as Hsep.
  { intros j x Hj Hx. apply Hold.
    - specialize (Hch j). destruct (children n !! j) as [[l1|]|]; [|set_solver..].
      by eapply rep_alloc.
    - intros Hx'. by apply (Hdisj j (u8 b) Hj x). }
  split; [done| | | |simpl; lia].
  - exists (S (d `max` d')), ({[l]} ∪ D ∪ Di). split_and!.
    + apply (rep_update (cells h) (cells h') d d' l n n Ds (u8 b) Di); try done.
      * by rewrite Hb.
      * intros j x Hj Hx. apply Hout. by eapply Hsep.
      * intros j Hj x Hx. by eapply Hsep.
      * intros x. rewrite !elem_of_union, elem_of_singleton, HD. split.
        -- intros [[->|[->|(j & Hj)]]|Hx]; [by left|by left| |by right; left].
           destruct (decide (j = u8 b)) as [->|]; [right; left; by apply Hsub|eauto].
        -- intros [->|[?|(j & _ & ?)]]; eauto.
    + set_solver.
    + intros x Hx HxD. apply Hnew; [set_solver|]. intros Hx'. apply HxD, HD. eauto.
    + intros x Hx. apply Hout. set_solver.
  - intros [|b' w'].
    + by rewrite (accepts_nil _ _ _ Hn'), (accepts_nil _ _ _ Hn).
    + destruct (decide (u8 b' = u8 b)) as [->%u8_inj|Hbb].
      * rewrite (accepts_child _ _ _ _ _ _ Hn' Hb), (accepts_child _ _ _ _ _ _ Hn Hb), Hacc.
        f_equal. apply bool_decide_ext. split; congruence.
      * rewrite bool_decide_false by congruence. simpl.
        apply (accepts_update (cells h) (cells h') d l n n Ds); try done.
        intros x Hx. apply Hout. by eapply Hsep.
  - by rewrite (accepts_child _ _ _ _ _ _ Hn Hb).
Qed.

(** Two changes of the same tree in a row. *)
Lemma inserted_linked h l D b h2 D2 w r h' :
  (∀ w, accepts (cells h2) l w = accepts (cells h) l w) → avail h ≤ S (avail h2) →
  D ⊆ D2 → (∀ x, x ∈ D2 → x ∉ D → cells h !! x = None) →
  (∀ x, x ∉ D2 → cells h2 !! x = cells h !! x) →
  (avail h2 ≤ avail h' + length w) →
  inserted h2 l D2 (b :: w) r h' → inserted h l D (b :: w) r h'.
Proof.
  intros Hacc Hav Hsub Hnew Hout Hav2 [Hok' (d' & D' & Hrep' & Hsub' & Hnew' & Hout') Hacc' Hres' _].
  split; [done| | | |simpl; lia].
  - exists d', D'. split_and!; [done|set_solver| |].
    + intros x Hx HxD. destruct (decide (x ∈ D2)); [by apply Hnew|].
      rewrite <-Hout by done. by apply Hnew'.
    + intros x Hx. rewrite Hout', Hout; [done|set_solver|done].
  - intros w'. by rewrite Hacc', Hacc.
  - by rewrite <-Hacc.
Qed.
(** The end of [trie_walk] after the loop, when it creates. *)
Definition walk_fin (r : ptr + ptr) : M theap ptr :=
  match r with inl p => mret p | inr node => walk_end node true end.

Lemma wp_walk_insert post w :
  ∀ h d l D pre fuel,
  heap_ok h → rep (cells h) d l D → length w ≤ fuel → length w ≤ avail h →
  wp (walk_loop fuel (Some l) (pre ++ w ++ post) (Z.of_nat (length pre))
        (Z.of_nat (length pre + length w)) true false)
     (λ r, wp (walk_fin r) (inserted h l D w)) h.
Proof.
  induction w as [|b w IH]; intros h d l D pre fuel Hok Hrep Hfuel Hav.
  { destruct fuel; simpl; rewrite bool_decide_false by lia; by eapply wp_ret, wp_walk_end. }
  destruct fuel as [|fuel]; [simpl in Hfuel; lia|]. simpl in Hfuel, Hav.
  assert (∀ h d D n l', heap_ok h → rep (cells h) d l D → cells h !! l = Some (Some n) →
    children n !! u8 b = Some (Some l') → length w ≤ avail h →
    wp (node' ← child (Some l) b; leaf ← mret false;
        if leaf : bool then mret (inl node')
        else walk_loop fuel node' (pre ++ (b :: w) ++ post) (Z.of_nat (length pre) + 1)
               (Z.of_nat (length pre + length (b :: w))) true false)
       (λ r, wp (walk_fin r) (λ r h', inserted h l D (b :: w) r h' ∧ avail h ≤ avail h' + length w)) h)
    as Hcont.
  { clear h d D Hok Hrep Hav. intros h d D n l' Hok Hrep Hn Hb Hav.
    destruct (rep_node _ _ _ _ Hrep) as (n0 & Hn0 & Hlen). assert (n0 = n) as -> by congruence.
    destruct (run_child h l n b Hn Hlen) as (c & Hc & Hrun). assert (c = Some l') as -> by congruence.
    apply wp_bind. eapply wp_run_eq; [done|]. apply wp_bind, wp_ret. cbn iota.
    destruct d as [|d]; [done|]. destruct Hrep as (n0 & Ds & _Hn & _ & Hch & HD & HlD & Hdisj).
    assert (n0 = n) as -> by congruence.
    pose proof (Hch (u8 b)) as Hsub. rewrite Hb in Hsub.
    specialize (IH h d l' (Ds (u8 b)) (pre ++ [b]) fuel Hok Hsub ltac:(lia) Hav).
    rewrite <-app_assoc, length_app in IH. simpl in IH.
    replace (Z.of_nat (length pre) + 1)%Z with (Z.of_nat (length pre + 1)) by lia.
    replace (length pre + length (b :: w)) with (length pre + 1 + length w) by (simpl; lia).
    eapply wp_mono; [exact IH|]. intros r h1 Hr. eapply wp_mono; [exact Hr|].
    intros r' h' Hins. split; [|by apply (ins_avail _ _ _ _ _ _ Hins)].
    by eapply inserted_child. }
  cbn [walk_loop]. rewrite bool_decide_true by (simpl; lia).
  assert ((pre ++ (b :: w) ++ post) !! length pre = Some b) as Hb
    by (rewrite lookup_app_r, Nat.sub_diag by lia; done).
  apply wp_bind, wp_lift. rewrite (rd_nat _ _ _ Hb). simpl yields. apply wp_bind.
  destruct (rep_node _ _ _ _ Hrep) as (n & Hn & Hlen).
  destruct (run_child h l n b Hn Hlen) as (c & Hc & Hrun).
  eapply wp_run_eq; [done|]. apply wp_bind. destruct c as [l'|].
  - apply wp_ret. cbn iota. eapply wp_mono; [eapply Hcont; [done..|lia]|].
    intros r h1 Hr. eapply wp_mono; [exact Hr|]. by intros r' h' [? _].
  - eapply wp_mono; [by eapply wp_link; [..|lia|done|done]|].
    intros stop h2 [-> (Hok2 & (d2 & D2 & n2 & l' & Hrep2 & Hn2 & Hb2 & Hs & Hnew & Hout) & Hacc & Hav2)].
    cbn iota. eapply wp_mono; [eapply Hcont; [done..|lia]|].
    intros r h1 Hr. eapply wp_mono; [exact Hr|]. intros r' h' [Hins Hav'].
    by eapply (inserted_linked h l D b h2 D2).
Qed.
End insert.

(** ** The operations against the abstract set *)

Section operations.
Implicit Types (F : tmap) (K : gset (list byte)) (h : theap).

Lemma trie_repr_ok F p K h : trie_repr F p K h → heap_ok h.
Proof. by intros []. Qed.

Lemma asserts_pass p size h :
  (0 < size)%Z → trie_asserts (Some p) size h = Ok (tt, h).
Proof. intros. unfold trie_asserts, lift. by rewrite (bool_decide_true (0 < size)%Z). Qed.

Lemma wp_trie_init_new h :
  heap_ok h → 0 < avail h →
  wp (trie_init None)
    (λ r h', ∃ p, r = Some p ∧ trie_repr (cells h) p ∅ h' ∧ avail h = S (avail h')) h.
Proof.
  intros Hok Hav. destruct (avail h) as [|k] eqn:Hk; [lia|].
  unfold trie_init. apply wp_bind. eapply wp_malloc; [done..|].
  intros l h1 Hfresh Hc1 Ha1 Hok1. apply wp_bind.
  apply wp_store; [done|by rewrite Hc1, lookup_insert_eq|]. intros h2 Hc2 Ha2 Hok2.
  rewrite Hc1, insert_insert_eq in Hc2. apply wp_ret. exists l. split_and!; [done| |lia].
  assert (cells h2 !! l = Some (Some zero_node)) as Hl by (rewrite Hc2; apply lookup_insert_eq).
  split; [done|]. exists 1, {[l]}. split_and!; [by apply rep_zero| |].
  - intros x. case_decide as Hx; [apply elem_of_singleton in Hx; congruence|].
    rewrite Hc2, lookup_insert_ne; [done|]. set_solver.
  - intros w. rewrite accepts_zero by done. set_solver.
Qed.

(** The target array holds the word in its first [size] bytes. *)
Lemma take_split (target : list byte) size :
  (0 < size)%Z → Z.to_nat size ≤ length target →
  let w := take (Z.to_nat size) target in
  target = [] ++ w ++ drop (Z.to_nat size) target ∧ length w = Z.to_nat size ∧
  size = Z.of_nat (0 + length w) ∧ w ≠ [].
Proof.
  intros H0 Hlen w. assert (length w = Z.to_nat size) as Hw by (subst w; rewrite length_take; lia).
  split_and!; [by subst w; rewrite app_nil_l, take_drop|done|lia|]. intros ->. simpl in Hw. lia.
Qed.

Lemma wp_trie_insert F p K h target size :
  trie_repr F p K h → (0 < size)%Z → Z.to_nat size ≤ length target →
  Z.to_nat size ≤ avail h →
  wp (trie_insert (Some p) target size) (λ r h',
    trie_repr F p ({[take (Z.to_nat size) target]} ∪ K) h' ∧
    (r = None ↔ take (Z.to_nat size) target ∈ K) ∧
    avail h ≤ avail h' + Z.to_nat size) h.
Proof.
  intros (Hok & d & D & Hrep & HF & HK) H0 Hlen Hav.
  destruct (take_split target size H0 Hlen) as (Ht & Hw & Hsz & _).
  set (w := take (Z.to_nat size) target) in *.
  unfold trie_insert. apply wp_bind. eapply wp_run_eq; [by apply asserts_pass|].
  unfold trie_walk. apply wp_bind.
  pose proof (wp_walk_insert (drop (Z.to_nat size) target) w h d p D [] (Z.to_nat size)
    Hok Hrep ltac:(lia) ltac:(lia)) as Hwalk.
  cbn [length] in Hwalk. rewrite <-Ht, <-Hsz in Hwalk. eapply wp_mono; [exact Hwalk|].
  intros r h1 Hr. eapply wp_mono; [exact Hr|]. clear r h1 Hr.
  intros r h' [Hok' (d' & D' & Hrep' & Hsub & Hnew & Hout) Hacc Hres Hav'].
  split_and!; [|by rewrite HK|lia]. split; [done|]. exists d', D'. split_and!; [done| |].
  - intros x. rewrite HF. repeat case_decide; try done.
    + exfalso. set_solver.
    + by apply Hnew.
    + by rewrite Hout.
  - intros w'. rewrite elem_of_union, elem_of_singleton, HK, Hacc.
    destruct (bool_decide_reflect (w' = w)); naive_solver.
Qed.

Lemma run_trie_read (scan : bool) F p K h target size :
  trie_repr F p K h → (0 < size)%Z → Z.to_nat size ≤ length target →
  ∃ d D, rep (cells h) d p D ∧
  (trie_asserts (Some p) size;; trie_walk (Some p) target size false scan) h =
    Ok (let w := take (Z.to_nat size) target in
        if scan then first_leaf (cells h) p w
        else if accepts (cells h) p w then follow (cells h) p w else None, h).
Proof.
  intros (Hok & d & D & Hrep & HF & HK) H0 Hlen. exists d, D. split; [done|].
  destruct (take_split target size H0 Hlen) as (Ht & Hw & Hsz & Hne).
  set (w := take (Z.to_nat size) target) in *.
  unfold mbind, M_bind. rewrite asserts_pass by done.
  unfold trie_walk, mbind, M_bind.
  pose proof (run_walk_loop h scan (drop (Z.to_nat size) target) w d p D []
    (Z.to_nat size) Hrep ltac:(lia)) as Hrun.
  cbn [length] in Hrun. rewrite <-Ht, <-Hsz in Hrun. change (Z.of_nat 0) with 0%Z in Hrun.
  rewrite Hrun.
  assert (∀ l', follow (cells h) p w = Some l' →
    walk_end (Some l') false h = Ok (if leaf_at (cells h) l' then Some l' else None, h)) as Hend.
  { intros l' Hf. destruct (follow_rep _ _ _ _ _ _ Hrep Hf) as (d' & D' & Hr & _).
    destruct (rep_node _ _ _ _ Hr) as (n & Hn & _).
    rewrite (run_walk_end_read _ _ _ Hn). unfold leaf_at. by rewrite Hn. }
  destruct scan.
  - destruct (first_leaf (cells h) p w) as [l'|] eqn:Hfl; [done|].
    destruct (follow (cells h) p w) as [l'|] eqn:Hf; [|done].
    rewrite Hend by done. by rewrite (first_leaf_None _ _ _ _ Hfl Hne Hf).
  - unfold accepts. destruct (follow (cells h) p w) as [l'|] eqn:Hf; [|done].
    by rewrite Hend.
Qed.

Lemma wp_trie_lookup F p K h target size :
  trie_repr F p K h → (0 < size)%Z → Z.to_nat size ≤ length target →
  wp (trie_lookup (Some p) target size) (λ r h', h' = h ∧
    (is_Some r ↔ take (Z.to_nat size) target ∈ K)) h.
Proof.
  intros HR H0 Hlen. destruct (run_trie_read false F p K h target size HR H0 Hlen) as (d & D & Hrep & Hrun).
  eapply wp_run_eq; [exact Hrun|]. split; [done|]. destruct HR as (_ & ? & ? & _ & _ & HK).
  rewrite HK. cbn. unfold accepts.
  destruct (follow (cells h) p _) as [l'|] eqn:Hf; [|by split; [intros []|]].
  destruct (leaf_at (cells h) l'); [by split; eauto|]. by split; [intros []|].
Qed.

Lemma wp_trie_scan F p K h target size :
  trie_repr F p K h → (0 < size)%Z → Z.to_nat size ≤ length target →
  wp (trie_scan (Some p) target size) (λ r h', h' = h ∧
    (is_Some r ↔ ∃ k, k ≠ [] ∧ k ∈ K ∧ k `prefix_of` take (Z.to_nat size) target)) h.
Proof.
  intros HR H0 Hlen. destruct (run_trie_read true F p K h target size HR H0 Hlen) as (d & D & Hrep & Hrun).
  eapply wp_run_eq; [exact Hrun|]. split; [done|]. destruct HR as (_ & ? & ? & _ & _ & HK).
  cbn. rewrite first_leaf_Some. setoid_rewrite HK. naive_solver.
Qed.
End operations.

(** ** Destruction *)

Section destroy.
(** From [h] to [h'] exactly the blocks [D] have been freed. *)
Definition freed (h : theap) (D : gset loc) (h' : theap) : Prop :=
  heap_ok h' ∧ (∀ x, cells h' !! x = if decide (x ∈ D) then None else cells h !! x) ∧
  avail h' = avail h + size D.

Lemma freed_empty h : heap_ok h → freed h ∅ h.
Proof.
  intros Hok. split_and!; [done| |rewrite size_empty; lia].
  intros x. by rewrite decide_False by set_solver.
Qed.

Lemma freed_trans h1 h2 h3 D1 D2 :
  D1 ## D2 → freed h1 D1 h2 → freed h2 D2 h3 → freed h1 (D1 ∪ D2) h3.
Proof.
  intros Hd (_ & Hc2 & Ha2) (Hok3 & Hc3 & Ha3). split_and!; [done| |rewrite size_union by done; lia].
  intros x. rewrite Hc3, Hc2. repeat case_decide; set_solver.
Qed.

Lemma wp_destroy_children rec d l n Ds :
  (∀ l' Di h, heap_ok h → rep (cells h) d l' Di →
    wp (rec (Some l')) (λ _ h', freed h Di h') h) →
  length (children n) = MAX_CHILDREN →
  (∀ i, l ∉ Ds i) → (∀ i j, i ≠ j → Ds i ## Ds j) →
  ∀ k i h, i + k = MAX_CHILDREN → heap_ok h → cells h !! l = Some (Some n) →
  (∀ j, i ≤ j → match children n !! j with
        | Some (Some l') => rep (cells h) d l' (Ds j)
        | _ => Ds j = ∅
        end) →
  wp (destroy_children rec (Some l) k (Z.of_nat i)) (λ _ h', ∃ R,
    freed h R h' ∧ ∀ x, x ∈ R ↔ ∃ j, i ≤ j ∧ x ∈ Ds j) h.
Proof.
  intros Hrec Hlen HlD Hdisj. induction k as [|k IH]; intros i h Hi Hok Hl Hch.
  { apply wp_ret. exists ∅. split; [by apply freed_empty|]. intros x.
    split; [set_solver|]. intros (j & Hj & Hx). specialize (Hch j Hj).
    rewrite (lookup_ge_None_2 (children n)) in Hch by lia. set_solver. }
  cbn [destroy_children]. apply wp_bind. eapply wp_run_eq; [by apply run_load_node|].
  destruct (lookup_lt_is_Some_2 (children n) i) as [c Hc]; [lia|].
  apply wp_bind, wp_lift. rewrite (rd_nat _ _ _ Hc). simpl yields. apply wp_bind.
  assert (wp (match c with Some _ => rec c | None => mret tt end)
    (λ _ h', freed h (Ds i) h') h) as Hone.
  { specialize (Hch i ltac:(lia)). rewrite Hc in Hch. destruct c as [l'|].
    - by apply Hrec.
    - apply wp_ret. rewrite Hch. by apply freed_empty. }
  eapply wp_mono; [exact Hone|]. intros [] h1 Hf. clear Hone.
  assert (∀ x, x ∉ Ds i → cells h1 !! x = cells h !! x) as Hfr.
  { intros x Hx. by rewrite (proj1 (proj2 Hf)), decide_False. }
  replace (Z.of_nat i + 1)%Z with (Z.of_nat (S i)) by lia.
  eapply wp_mono; [apply (IH (S i) h1); [lia|by destruct Hf|by rewrite Hfr| ]|].
  - intros j Hj. specialize (Hch j ltac:(lia)).
    destruct (children n !! j) as [[l'|]|]; [|done..]. eapply rep_frame; [done|].
    intros x Hx. apply Hfr. intros Hx'. apply (Hdisj i j ltac:(lia) x); done.
  - intros _ h2 (R & HR & Hin). exists (Ds i ∪ R). split.
    + eapply freed_trans; [|done..]. intros x Hx (j & Hj & Hx')%Hin.
      by apply (Hdisj i j ltac:(lia) x).
    + intros x. rewrite elem_of_union, Hin. split.
      * intros [Hx|(j & Hj & Hx)]; [exists i|exists j]; (split; [lia|done]).
      * intros (j & Hj & Hx). destruct (decide (j = i)) as [->|]; [by left|right].
        exists j. split; [lia|done].
Qed.

Lemma wp_trie_destroy_rep fuel : ∀ d l D h,
  d ≤ fuel → heap_ok h → rep (cells h) d l D →
  wp (trie_destroy fuel (Some l)) (λ _ h', freed h D h') h.
Proof.
  induction fuel as [|fuel IH]; intros d l D h Hd Hok Hrep; [by destruct d; [|lia]|].
  destruct d as [|d]; [done|].
  destruct Hrep as (n & Ds & Hn & Hlen & Hch & HD & HlD & Hdisj).
  cbn [trie_destroy]. apply wp_bind. eapply wp_mono.
  - apply (wp_destroy_children (trie_destroy fuel) d l n Ds) with (i := 0); try done.
    + intros l' Di h1 Hok1 Hrep1. eapply IH; [|done..]. lia.
    + intros j _. apply Hch.
  - intros _ h1 (R & HR & Hin). assert (l ∉ R) as HlR.
    { intros (j & _ & Hj)%Hin. by apply (HlD j). }
    pose proof HR as (Hok1 & Hc1 & Ha1).
    assert (cells h1 !! l = Some (Some n)) as Hl1 by (by rewrite Hc1, decide_False).
    apply wp_free; [done|by eauto|]. intros h2 Hc2 Ha2 Hok2.
    assert (D = R ∪ {[l]}) as ->.
    { apply set_eq. intros x. rewrite HD, elem_of_union, elem_of_singleton, Hin.
      split; [intros [?|(j & Hj)]; [by right|left; exists j; split; [lia|done]]|].
      intros [(j & _ & ?)|?]; eauto. }
    eapply freed_trans; [|exact HR|]; [set_solver|]. split_and!; [done| |rewrite size_singleton; lia].
    intros x. rewrite Hc2. case_decide as Hx.
    + apply elem_of_singleton in Hx as ->. apply lookup_delete_eq.
    + apply lookup_delete_ne. set_solver.
Qed.

(** The number of live blocks is fuel enough. *)
Lemma wp_trie_destroy F p K h fuel :
  trie_repr F p K h → size (dom (cells h)) ≤ fuel →
  wp (trie_destroy fuel (Some p)) (λ _ h', cells h' = F ∧ heap_ok h' ∧
    avail h' + size (dom F) = avail h + size (dom (cells h))) h.
Proof.
  intros (Hok & d & D & Hrep & HF & _) Hfuel.
  assert (D ⊆ dom (cells h)) as HD.
  { intros x Hx. apply elem_of_dom. by eapply rep_alloc. }
  pose proof (subseteq_size _ _ HD) as Hsz.
  eapply wp_mono; [eapply (wp_trie_destroy_rep fuel _ p D h); [|done|by eapply rep_height]; lia|].
  intros _ h' (Hok' & Hc' & Ha').
  assert (cells h' = F) as E by (apply map_eq; intros x; by rewrite Hc', HF).
  split_and!; [done..|].
  assert (dom (cells h) = D ∪ dom F) as ->; [|].
  { apply set_eq. intros x. rewrite elem_of_union, !elem_of_dom, HF.
    case_decide as Hx; [|naive_solver]. split; [by left|intros _; by eapply rep_alloc]. }
  rewrite size_union; [lia|]. intros x Hx Hx'. apply elem_of_dom in Hx' as [? Hx'].
  rewrite HF, decide_True in Hx'; done.
Qed.
End destroy.

(** ** Running out of memory *)

(** With no memory left, a word whose path is not all there makes [trie_init]
    clear a block through NULL. *)
Lemma run_walk_oom h post w : ∀ d l D pre fuel,
  rep (cells h) d l D → length w ≤ fuel → avail h = 0 → follow (cells h) l w = None →
  walk_loop fuel (Some l) (pre ++ w ++ post) (Z.of_nat (length pre))
    (Z.of_nat (length pre + length w)) true false h = Fail NullPointer.
Proof.
  induction w as [|b w IH]; intros d l D pre fuel Hrep Hfuel Hav Hf; [done|].
  destruct fuel as [|fuel]; [simpl in Hfuel; lia|].
  cbn [walk_loop]. rewrite bool_decide_true by (simpl; lia).
  assert ((pre ++ (b :: w) ++ post) !! length pre = Some b) as Hb
    by (rewrite lookup_app_r, Nat.sub_diag by lia; done).
  unfold mbind, M_bind. cbn [lift]. unfold lift. rewrite (rd_nat _ _ _ Hb).
  destruct (rep_node _ _ _ _ Hrep) as (n & Hn & Hlen).
  destruct (run_child h l n b Hn Hlen) as (c & Hc & Hrun). rewrite Hrun.
  simpl in Hf. rewrite Hn, Hc in Hf. destruct c as [l'|].
  - cbn. rewrite Hrun. cbn. destruct d; [done|]. destruct Hrep as (n' & Ds & Hn' & _ & Hch & _).
    assert (n' = n) as -> by congruence. specialize (Hch (u8 b)). rewrite Hc in Hch.
    specialize (IH d l' (Ds (u8 b)) (pre ++ [b]) fuel Hch ltac:(simpl in Hfuel; lia) Hav Hf).
    rewrite <-app_assoc, length_app in IH. simpl in IH.
    replace (Z.of_nat (length pre) + 1)%Z with (Z.of_nat (length pre + 1)) by lia.
    by replace (length pre + S (length w)) with (length pre + 1 + length w) by lia.
  - assert (trie_init None h = Fail NullPointer) as Hoom
      by (unfold trie_init, mbind, M_bind, malloc; by rewrite Hav).
    cbn -[trie_init]. by rewrite Hoom.
Qed.

(** The same heap with room for [k] blocks more. *)
Definition more (k : nat) (h : theap) : theap := Heap (cells h) (brk h) (avail h + k).

(** More memory changes nothing, unless the computation runs out of it and goes
    through a NULL pointer. *)
Definition thrifty {A} (m : M theap A) : Prop := ∀ k h,
  match m h with
  | Ok (a, h') => m (more k h) = Ok (a, more k h')
  | Fail f => f = NullPointer ∨ m (more k h) = Fail f
  end.

Lemma thrifty_ret {A} (a : A) : thrifty (mret a).
Proof. by intros k h. Qed.

Lemma thrifty_fail {A} f : thrifty (fail (A := A) f).
Proof. intros k h. by right. Qed.

Lemma thrifty_bind {A B} (m : M theap A) (g : A → M theap B) :
  thrifty m → (∀ a, thrifty (g a)) → thrifty (m ≫= g).
Proof.
  intros Hm Hg k h. unfold mbind, M_bind. specialize (Hm k h).
  destruct (m h) as [[a h']|f]; [rewrite Hm; apply Hg|].
  destruct Hm as [->| ->]; [by left|by right].
Qed.

Lemma thrifty_lift {A} (o : outcome A) : thrifty (lift o).
Proof. intros k h. unfold lift. destruct o; [done|by right]. Qed.

Lemma thrifty_load_node p : thrifty (load_node p).
Proof.
  apply thrifty_bind; [|intros [n|]; [apply thrifty_ret|apply thrifty_fail]].
  intros k h. unfold load. destruct p as [l|]; [|by left]. cbn [cells more].
  destruct (cells h !! l); [done|by right].
Qed.

Lemma thrifty_store_node p n : thrifty (store_node p n).
Proof.
  intros k h. unfold store_node, store. destruct p as [l|]; [|by left]. cbn [cells more].
  destruct (cells h !! l); [done|by right].
Qed.

Lemma thrifty_child p b : thrifty (child p b).
Proof. apply thrifty_bind; [apply thrifty_load_node|]. intros n. apply thrifty_lift. Qed.

Lemma thrifty_set_child p b c : thrifty (set_child p b c).
Proof.
  apply thrifty_bind; [apply thrifty_load_node|]. intros n.
  apply thrifty_bind; [apply thrifty_lift|]. intros cs. apply thrifty_store_node.
Qed.

Lemma thrifty_trie_init p : thrifty (trie_init p).
Proof.
  destruct p as [l|]; [apply thrifty_ret|]. intros k h. unfold trie_init, mbind, M_bind, malloc.
  cbn [avail more]. destruct (avail h) as [|n]; [by left|]. cbn. by rewrite !lookup_insert_eq.
Qed.

#[local] Hint Resolve thrifty_ret thrifty_fail thrifty_lift thrifty_load_node thrifty_store_node
  thrifty_child thrifty_set_child thrifty_trie_init : core.

Lemma thrifty_walk_loop target size create scan fuel : ∀ node i,
  thrifty (walk_loop fuel node target i size create scan).
Proof.
  induction fuel as [|fuel IH]; intros node i; cbn [walk_loop]; case_bool_decide; auto.
  apply thrifty_bind; [auto|]. intros b. apply thrifty_bind; [auto|]. intros c.
  apply thrifty_bind.
  { destruct c; [auto|]. destruct create; [|auto]. apply thrifty_bind; [auto|]. intros c'.
    apply thrifty_bind; auto. }
  intros [|]; [auto|]. apply thrifty_bind; [auto|]. intros node'. apply thrifty_bind.
  { destruct scan; [|auto]. apply thrifty_bind; auto. }
  intros [|]; auto.
Qed.

Lemma thrifty_insert p target size : thrifty (trie_insert p target size).
Proof.
  apply thrifty_bind; [apply thrifty_lift|]. intros []. apply thrifty_bind; [apply thrifty_walk_loop|].
  intros [r|node]; [auto|]. unfold walk_end. apply thrifty_bind.
  - apply thrifty_bind; [auto|]. intros n. destruct (isleaf n); [auto|]. apply thrifty_bind; auto.
  - intros [|]; [auto|]. apply thrifty_bind; auto.
Qed.

(** [trie_insert] with any amount of memory. *)
Lemma wp_trie_insert_any F p K h target size :
  trie_repr F p K h → (0 < size)%Z → Z.to_nat size ≤ length target →
  wp (trie_insert (Some p) target size) (λ r h',
    trie_repr F p ({[take (Z.to_nat size) target]} ∪ K) h' ∧
    (r = None ↔ take (Z.to_nat size) target ∈ K) ∧
    avail h ≤ avail h' + Z.to_nat size) h ∨
  trie_insert (Some p) target size h = Fail NullPointer ∧ avail h < Z.to_nat size.
Proof.
  intros HR H0 Hlen. destruct (decide (Z.to_nat size ≤ avail h)) as [Hav|Hav].
  { left. by apply wp_trie_insert. }
  set (k := Z.to_nat size). pose proof (thrifty_insert (Some p) target size k h) as Hmore.
  pose proof (wp_trie_insert F p K (more k h) target size HR H0 Hlen ltac:(cbn; lia)) as Hwp.
  unfold wp in Hwp. destruct (trie_insert (Some p) target size h) as [[r h']|f] eqn:Hrun.
  - rewrite Hmore in Hwp. cbn in Hwp. destruct Hwp as (HR' & Hr & Hroom). left.
    unfold wp. rewrite Hrun. cbn. split_and!; [exact HR'|done|lia].
  - destruct Hmore as [->|Hf]; [right; split; [done|lia]|]. by rewrite Hf in Hwp.
Qed.

(** ** Histories of operations *)

Inductive trie_op : Type :=
  | Insert (w : list byte)
  | Lookup (w : list byte)
  | Scan (w : list byte).

Definition op_word (op : trie_op) : list byte :=
  match op with Insert w | Lookup w | Scan w => w end.

(** The answer of a set of words: was the word new, is it there, does a word
    of the set begin it. *)
Definition set_answer (K : gset (list byte)) (op : trie_op) : bool :=
  match op with
  | Insert w => bool_decide (w ∉ K)
  | Lookup w => bool_decide (w ∈ K)
  | Scan w => existsb (λ n, bool_decide (take n w ∈ K)) (seq 1 (length w))
  end.

Definition set_next (K : gset (list byte)) (op : trie_op) : gset (list byte) :=
  match op with Insert w => {[w]} ∪ K | _ => K end.

Fixpoint set_run (K : gset (list byte)) (ops : list trie_op) : list bool :=
  match ops with
  | [] => []
  | op :: ops' => set_answer K op :: set_run (set_next K op) ops'
  end.

(** The same operations on the tree, a pointer counting as an answer when it
    is not NULL. *)
Definition trie_answer (root : ptr) (op : trie_op) : M theap bool :=
  r ← match op with
      | Insert w => trie_insert root w (Z.of_nat (length w))
      | Lookup w => trie_lookup root w (Z.of_nat (length w))
      | Scan w => trie_scan root w (Z.of_nat (length w))
      end;
  mret (bool_decide (is_Some r)).

Fixpoint trie_run (root : ptr) (ops : list trie_op) : M theap (list bool) :=
  match ops with
  | [] => mret []
  | op :: ops' =>
      b ← trie_answer root op;
      bs ← trie_run root ops';
      mret (b :: bs)
  end.

(** From creation to destruction. *)
Definition trie_session (ops : list trie_op) : M theap (list bool) :=
  root ← trie_init None;
  bs ← trie_run root ops;
  h ← get;
  trie_destroy (size (dom (cells h))) root;;
  mret bs.

Definition insert_cost (op : trie_op) : nat :=
  match op with Insert w => length w | _ => 0 end.

Lemma scan_answer (K : gset (list byte)) (w : list byte) :
  existsb (λ n, bool_decide (take n w ∈ K)) (seq 1 (length w)) = true ↔
  ∃ k, k ≠ [] ∧ k ∈ K ∧ k `prefix_of` w.
Proof.
  rewrite existsb_exists. split.
  - intros (n & Hn%list_elem_of_In & Hk%bool_decide_eq_true). apply elem_of_seq in Hn.
    exists (take n w). split_and!; [|done|apply prefix_take].
    intros E. apply (f_equal length) in E. rewrite length_take in E. simpl in E. lia.
  - intros (k & Hk & HK & [r ->]). exists (length k). split.
    + apply list_elem_of_In, elem_of_seq. rewrite length_app. destruct k; simpl in *; [done|lia].
    + apply bool_decide_eq_true. by rewrite take_app_length.
Qed.

Lemma wp_trie_answer F p K h op :
  trie_repr F p K h → op_word op ≠ [] → insert_cost op ≤ avail h →
  wp (trie_answer (Some p) op) (λ b h',
    b = set_answer K op ∧ trie_repr F p (set_next K op) h' ∧
    avail h ≤ avail h' + insert_cost op) h.
Proof.
  intros HR Hw Hav. assert (0 < length (op_word op)) by (destruct (op_word op); simpl in *; [done|lia]).
  unfold trie_answer. apply wp_bind. destruct op as [w|w|w]; simpl in *.
  - eapply wp_mono; [apply (wp_trie_insert F p K); [done|lia..]|].
    rewrite Nat2Z.id, take_ge by lia. intros r h' (HR' & Hr & Hav'). apply wp_ret.
    split_and!; [|done|lia]. apply bool_decide_ext. rewrite <-not_eq_None_Some, Hr. done.
  - eapply wp_mono; [apply (wp_trie_lookup F p K); [done|lia..]|].
    rewrite Nat2Z.id, take_ge by lia. intros r h' [-> Hr]. apply wp_ret.
    split_and!; [|done|lia]. by apply bool_decide_ext.
  - eapply wp_mono; [apply (wp_trie_scan F p K); [done|lia..]|].
    rewrite Nat2Z.id, take_ge by lia. intros r h' [-> Hr]. apply wp_ret.
    split_and!; [|done|lia].
    apply Bool.eq_iff_eq_true. by rewrite scan_answer, bool_decide_eq_true.
Qed.

Lemma wp_trie_run F p K h ops :
  trie_repr F p K h → Forall (λ op, op_word op ≠ []) ops →
  sum_list_with insert_cost ops ≤ avail h →
  wp (trie_run (Some p) ops) (λ bs h', bs = set_run K ops ∧ ∃ K', trie_repr F p K' h') h.
Proof.
  revert K h. induction ops as [|op ops IH]; intros K h HR Hops Hav.
  { apply wp_ret. eauto. }
  apply Forall_cons_iff in Hops as [Hop Hops]. simpl in Hav.
  cbn [trie_run]. apply wp_bind. eapply wp_mono; [apply wp_trie_answer; [done..|lia]|].
  intros b h1 (-> & HR1 & Hav1). apply wp_bind.
  eapply wp_mono; [apply (IH _ _ HR1); [done|lia]|].
  intros bs h2 (-> & HR2). by apply wp_ret.
Qed.

(** A session of operations, from the tree's creation to its destruction. *)
Lemma wp_trie_session h ops :
  heap_ok h → Forall (λ op, op_word op ≠ []) ops →
  sum_list_with insert_cost ops < avail h →
  wp (trie_session ops) (λ bs h', bs = set_run ∅ ops ∧ cells h' = cells h) h.
Proof.
  intros Hok Hops Hav. unfold trie_session. apply wp_bind.
  eapply wp_mono; [apply wp_trie_init_new; [done|lia]|].
  intros root h1 (p & -> & HR & Hav1). apply wp_bind.
  eapply wp_mono; [eapply wp_trie_run; [done..|lia]|]. intros bs h2 (-> & K & HR2).
  apply wp_bind, wp_get, wp_bind. eapply wp_mono; [by eapply wp_trie_destroy|].
  intros [] h3 (Hc & _). by apply wp_ret.
Qed.

(** ** The properties of the prefix tree *)

(** C23: from creation to destruction, every answer of a sequence of
    insertions, lookups and scans of non-empty words is that of a set of
    words, no operation faults, and the heap ends as it was: nothing leaks
    and nothing else is touched. *)
Theorem trie_session_refines h ops :
  heap_ok h → Forall (λ op, op_word op ≠ []) ops →
  sum_list_with insert_cost ops < avail h →
  wp (trie_session ops) (λ bs h', bs = set_run ∅ ops ∧ cells h' = cells h) h.
Proof. apply wp_trie_session. Qed.

Lemma trie_session_refines_witness :
  let ops := [Insert (bytes_of "BM"); Scan (bytes_of "BMP"); Lookup (bytes_of "B")] in
  wp (trie_session ops) (λ bs h', bs = set_run ∅ ops ∧ cells h' = ∅) (Heap ∅ 1%positive 10).
Proof.
  apply (trie_session_refines (Heap ∅ 1%positive 10)).
  - intros l [v Hv]. discriminate Hv.
  - repeat constructor; discriminate.
  - vm_compute. lia.
Defined.

(** [trie_insert] adds the word to the set, returns NULL exactly when it
    was there already, allocates at most one node per byte, and leaves the
    rest of the heap as it was. *)
Lemma trie_insert_adds F p K h target size :
  trie_repr F p K h → (0 < size)%Z → Z.to_nat size ≤ length target →
  Z.to_nat size ≤ avail h →
  wp (trie_insert (Some p) target size) (λ r h',
    trie_repr F p ({[take (Z.to_nat size) target]} ∪ K) h' ∧
    (r = None ↔ take (Z.to_nat size) target ∈ K) ∧
    avail h ≤ avail h' + Z.to_nat size) h.
Proof. apply wp_trie_insert. Qed.

(** A heap whose only block is an empty tree. *)
Definition one_root : theap := Heap {[1%positive := Some zero_node]} 2%positive 10.

Lemma one_root_repr : trie_repr ∅ 1%positive ∅ one_root.
Proof.
  split.
  - intros l Hl. simpl in *. destruct (decide (l = 1%positive)) as [->|Hne]; [lia|].
    rewrite lookup_singleton_ne in Hl by congruence. by destruct Hl.
  - exists 1, {[1%positive]}. split_and!.
    + apply rep_zero. apply lookup_singleton_eq.
    + intros x. case_decide as Hx; [done|]. simpl. rewrite lookup_singleton_ne; [done|].
      intros <-. apply Hx. by apply elem_of_singleton.
    + intros w. rewrite accepts_zero by apply lookup_singleton_eq. set_solver.
Qed.

Lemma trie_insert_adds_witness :
  wp (trie_insert (Some 1%positive) (bytes_of "PNG") 3) (λ r h',
    trie_repr ∅ 1%positive ({[take 3 (bytes_of "PNG")]} ∪ ∅) h' ∧
    (r = None ↔ take 3 (bytes_of "PNG") ∈ (∅ : gset (list byte))) ∧
    10 ≤ avail h' + 3) one_root.
Proof. apply (trie_insert_adds ∅ 1%positive ∅ one_root); [apply one_root_repr|first [lia|vm_compute; lia]..]. Defined.

(** [trie_scan] leaves the heap alone and returns a node exactly when a
    word of the set begins the [size] bytes of the target. *)
Lemma trie_scan_prefix F p K h target size :
  trie_repr F p K h → (0 < size)%Z → Z.to_nat size ≤ length target →
  wp (trie_scan (Some p) target size) (λ r h', h' = h ∧
    (is_Some r ↔ ∃ k, k ≠ [] ∧ k ∈ K ∧ k `prefix_of` take (Z.to_nat size) target)) h.
Proof. apply wp_trie_scan. Qed.

Lemma trie_scan_prefix_witness :
  wp (trie_scan (Some 1%positive) (bytes_of "PNG") 3) (λ r h', h' = one_root ∧
    (is_Some r ↔ ∃ k, k ≠ [] ∧ k ∈ (∅ : gset (list byte)) ∧ k `prefix_of` take 3 (bytes_of "PNG"))) one_root.
Proof. apply (trie_scan_prefix ∅ 1%positive ∅ one_root); [apply one_root_repr|first [lia|vm_compute; lia]..]. Defined.

(** [trie_destroy] frees every node of the tree once and nothing else,
    for any recursion depth at least the number of live blocks. *)
Lemma trie_destroy_frees F p K h fuel :
  trie_repr F p K h → size (dom (cells h)) ≤ fuel →
  wp (trie_destroy fuel (Some p)) (λ _ h', cells h' = F ∧ heap_ok h' ∧
    avail h' + size (dom F) = avail h + size (dom (cells h))) h.
Proof. apply wp_trie_destroy. Qed.

Lemma trie_destroy_frees_witness :
  wp (trie_destroy 1 (Some 1%positive)) (λ _ h', cells h' = ∅ ∧ heap_ok h' ∧
    avail h' + size (dom (∅ : gmap loc trie_cell)) = 10 + size (dom (cells one_root))) one_root.
Proof.
  apply (trie_destroy_frees ∅ 1%positive ∅ one_root 1); [apply one_root_repr|vm_compute; lia].
Defined.

(** The result of [malloc] is not tested: with no memory left, inserting
    a word that needs a new node dereferences NULL. *)
Lemma trie_insert_no_memory F p K h target size :
  trie_repr F p K h → (0 < size)%Z → Z.to_nat size ≤ length target → avail h = 0 →
  follow (cells h) p (take (Z.to_nat size) target) = None →
  trie_insert (Some p) target size h = Fail NullPointer.
Proof.
  intros (Hok & d & D & Hrep & _) H0 Hlen Hav Hf.
  destruct (take_split target size H0 Hlen) as (Ht & Hw & Hsz & _).
  set (w := take (Z.to_nat size) target) in *.
  pose proof (run_walk_oom h (drop (Z.to_nat size) target) w d p D [] (Z.to_nat size)
    Hrep ltac:(lia) Hav Hf) as Hrun.
  cbn [length] in Hrun. rewrite <-Ht, <-Hsz in Hrun.
  unfold trie_insert, mbind, M_bind. rewrite asserts_pass by done.
  unfold trie_walk, mbind, M_bind. change (Z.of_nat 0) with 0%Z in Hrun. by rewrite Hrun.
Qed.

Lemma trie_insert_no_memory_witness :
  trie_insert (Some 1%positive) (bytes_of "PNG") 3
    (Heap {[1%positive := Some zero_node]} 2%positive 0) = Fail NullPointer.
Proof.
  apply (trie_insert_no_memory ∅ 1%positive ∅); [|first [lia|vm_compute; lia]..|reflexivity|vm_compute; reflexivity].
  destruct one_root_repr as [Hok Hrest]. split; [exact Hok|exact Hrest].
Defined.
