(* ===== verification/WordSet.v ===== *)
(** What the file-type detector asks of a set of words: an interface, stated
    as operations and laws, that the prefix tree implements. *)

From S2P Require Import Prelude CInt Heap Trie TrieSpec.
Local Open Scope nat_scope.

(** Operations on a state [S] that holds sets named by pointers to [P]. The
    frame [F] is what the state holds beside the set. *)
Class WordSet (S P F : Type) := {
  ws_init : option P → M S (option P);
  ws_insert : option P → list byte → Z → M S (option P);
  ws_scan : option P → list byte → Z → M S (option P);
  ws_destroy : option P → M S unit;
  ws_room : S → nat;
  ws_frame : F → S → Prop;
  ws_repr : F → P → gset (list byte) → S → Prop;
}.

(** The abstract answer of a scan: some non-empty word of the set begins the
    text. *)
Definition some_prefix (K : gset (list byte)) (text : list byte) : Prop :=
  ∃ k, k ≠ [] ∧ k ∈ K ∧ k `prefix_of` text.

(** An operation that needs more room than there is goes through a NULL
    pointer. *)
Class WordSetLaws (S P F : Type) `{WordSet S P F} := {
  ws_init_law (f : F) (s : S) :
    ws_frame f s →
    wp (ws_init None) (λ r s', ∃ p : P, r = Some p ∧ ws_repr f p ∅ s' ∧
      ws_room s = Datatypes.S (ws_room s')) s ∨
    ws_init None s = Fail NullPointer ∧ ws_room s = 0;
  ws_insert_law (f : F) (p : P) K (s : S) target size :
    ws_repr f p K s → (0 < size)%Z → Z.to_nat size ≤ length target →
    wp (ws_insert (Some p) target size) (λ r s',
      ws_repr f p ({[take (Z.to_nat size) target]} ∪ K) s' ∧
      (r = None ↔ take (Z.to_nat size) target ∈ K) ∧
      ws_room s ≤ ws_room s' + Z.to_nat size) s ∨
    ws_insert (Some p) target size s = Fail NullPointer ∧ ws_room s < Z.to_nat size;
  ws_scan_law (f : F) (p : P) K (s : S) target size :
    ws_repr f p K s → (0 < size)%Z → Z.to_nat size ≤ length target →
    wp (ws_scan (Some p) target size) (λ r s', s' = s ∧
      (is_Some r ↔ some_prefix K (take (Z.to_nat size) target))) s;
  ws_destroy_law (f : F) (p : P) K (s : S) :
    ws_repr f p K s → wp (ws_destroy (Some p)) (λ _ s', ws_frame f s') s;
}.

(** The prefix tree in the heap. The recursion of [trie_destroy] gets as much
    fuel as there are live blocks. *)
#[export] Instance trie_word_set : WordSet theap loc (gmap loc trie_cell) := {
  ws_init := trie_init;
  ws_insert := trie_insert;
  ws_scan := trie_scan;
  ws_destroy p := λ h, trie_destroy (size (dom (cells h))) p h;
  ws_room := avail;
  ws_frame f h := cells h = f ∧ heap_ok h;
  ws_repr := trie_repr;
}.

#[export] Instance trie_word_set_laws : WordSetLaws theap loc (gmap loc trie_cell).
Proof.
  split; simpl.
  - intros f h [<- Hok]. destruct (decide (avail h = 0)) as [Hz|Hz].
    + right. split; [|done]. unfold trie_init, mbind, M_bind, malloc. by rewrite Hz.
    + left. apply wp_trie_init_new; [done|lia].
  - intros. by apply wp_trie_insert_any.
  - intros. by eapply wp_trie_scan.
  - intros f p K h HR.
    change (wp (trie_destroy (size (dom (cells h))) (Some p)) (λ _ h', cells h' = f ∧ heap_ok h') h).
    eapply wp_mono; [by eapply wp_trie_destroy|]. by intros [] h' (? & ? & _).
Qed.
