(* ===== verification/Magic.v ===== *)
(** The binary-file detector of [src/magic.c]: the table of magic numbers,
    [magic_init], [magic_scan] and [magic_fini], over any [WordSet]. *)

From S2P Require Import Prelude CInt Heap Trie TrieSpec WordSet.
Local Open Scope nat_scope.

(** ** The table *)

Definition MENTRY_LEN : nat := 9.

(** [magic_index]: eight bytes, the length of the magic number, and the tenth
    byte of the row, which the initialiser leaves zero. *)
Definition magic_index : list (list byte) := [
    [x00; x00; x00; x14; x66; x74; x79; x70; x08; x00];
    [x00; x00; x00; x18; x66; x74; x79; x70; x08; x00];
    [x00; x00; x00; x20; x66; x74; x79; x70; x08; x00];
    [x00; x00; x01; x00; x00; x00; x00; x00; x04; x00];
    [x01; x78; x00; x00; x00; x00; x00; x00; x02; x00];
    [x1f; x9d; x00; x00; x00; x00; x00; x00; x02; x00];
    [x1f; xa0; x00; x00; x00; x00; x00; x00; x02; x00];
    [x21; x3c; x61; x72; x63; x68; x3e; x0a; x08; x00];
    [x25; x50; x44; x46; x00; x00; x00; x00; x04; x00];
    [x38; x42; x50; x53; x00; x00; x00; x00; x04; x00];
    [x42; x4d; x00; x00; x00; x00; x00; x00; x02; x00];
    [x43; x44; x30; x30; x31; x00; x00; x00; x05; x00];
    [x47; x49; x46; x38; x37; x61; x00; x00; x06; x00];
    [x47; x49; x46; x38; x39; x61; x00; x00; x06; x00];
    [x49; x44; x33; x00; x00; x00; x00; x00; x03; x00];
    [x49; x49; x2a; x00; x00; x00; x00; x00; x04; x00];
    [x4d; x4d; x00; x2a; x00; x00; x00; x00; x04; x00];
    [x4d; x5a; x00; x00; x00; x00; x00; x00; x02; x00];
    [x4f; x67; x67; x53; x00; x00; x00; x00; x04; x00];
    [x50; x4b; x03; x04; x00; x00; x00; x00; x04; x00];
    [x50; x4b; x05; x06; x00; x00; x00; x00; x04; x00];
    [x50; x4b; x07; x08; x00; x00; x00; x00; x04; x00];
    [x52; x61; x72; x21; x1a; x07; x00; x00; x07; x00];
    [x52; x61; x72; x21; x1a; x07; x01; x00; x08; x00];
    [x66; x4c; x61; x43; x00; x00; x00; x00; x04; x00];
    [x7f; x45; x4c; x46; x00; x00; x00; x00; x04; x00];
    [x89; x50; x4e; x47; x0d; x0a; x1a; x0a; x08; x00];
    [xca; xfe; xba; xbe; x00; x00; x00; x00; x04; x00];
    [xce; xfa; xed; xfe; x00; x00; x00; x00; x04; x00];
    [xcf; xfa; xed; xfe; x00; x00; x00; x00; x04; x00];
    [xd0; xcf; x11; xe0; x00; x00; x00; x00; x04; x00];
    [xfe; xed; xfa; xce; x00; x00; x00; x00; x04; x00];
    [xfe; xed; xfa; xcf; x00; x00; x00; x00; x04; x00];
    [xff; xfb; x00; x00; x00; x00; x00; x00; x02; x00]].

(** The macros above the table, in the order of the file. *)
Definition magic_macros : list (String.string * Z) := [
    ("M_3GPP_FTYP"%string, 0x0000001466747970%Z);
    ("M_MP4_FTYP"%string, 0x0000001866747970%Z);
    ("M_3GPP2_FTYP"%string, 0x0000002066747970%Z);
    ("M_ICO"%string, 0x00000100%Z);
    ("M_VAX_COFF_EX"%string, 0x0178%Z);
    ("M_TAR_ZIP_LZW"%string, 0x1F9D%Z);
    ("M_TAR_ZIP_LZH"%string, 0x1FA0%Z);
    ("M_ARCH_BIN"%string, 0x213C617263683E0A%Z);
    ("M_PDF"%string, 0x25504446%Z);
    ("M_PSD"%string, 0x38425053%Z);
    ("M_BMP"%string, 0x424D%Z);
    ("M_ISO9660"%string, 0x4344303031%Z);
    ("M_GIF0"%string, 0x474946383761%Z);
    ("M_GIF1"%string, 0x474946383961%Z);
    ("M_MP3_V2"%string, 0x494433%Z);
    ("M_TIF"%string, 0x49492A00%Z);
    ("M_TIFF"%string, 0x4D4D002A%Z);
    ("M_EXE"%string, 0x4D5A%Z);
    ("M_OGG"%string, 0x4F676753%Z);
    ("M_ZIP"%string, 0x504B0304%Z);
    ("M_ZIP_EMPTY"%string, 0x504B0506%Z);
    ("M_ZIP_SPANNED"%string, 0x504B0708%Z);
    ("M_RAR15"%string, 0x526172211A0700%Z);
    ("M_RAR50"%string, 0x526172211A070100%Z);
    ("M_FLAC"%string, 0x664C6143%Z);
    ("M_ELF"%string, 0x7F454C46%Z);
    ("M_PNG"%string, 0x89504E470D0A1A0A%Z);
    ("M_MACH_O_FAT_CLASS"%string, 0xCAFEBABE%Z);
    ("M_MACH32_O_BE"%string, 0xCEFAEDFE%Z);
    ("M_MACH64_O_BE"%string, 0xCFFAEDFE%Z);
    ("M_MS_OFFICE"%string, 0xD0CF11E0%Z);
    ("M_MACH32_O_LE"%string, 0xFEEDFACE%Z);
    ("M_MACH64_O_LE"%string, 0xFEEDFACF%Z);
    ("M_MP3_V01"%string, 0xFFFB%Z)].

(** [magic_index[i][8]]. *)
Definition magic_len (row : list byte) : outcome Z :=
  b ← rd row 8; mret (Z.of_nat (u8 b)).

(** The word a row stands for. *)
Definition magic_word (row : list byte) : list byte :=
  take (u8 (default x00 (row !! 8))) row.

Definition magic_words : gset (list byte) := list_to_set (magic_word <$> magic_index).

(** The value of a byte string read as a big-endian number. *)
Definition big_endian (w : list byte) : Z :=
  fold_left (λ acc b, (acc * 256 + Z.of_nat (u8 b))%Z) w 0%Z.

(** ** The operations *)

Section magic.
Context {S P F : Type} `{!WordSet S P F}.

(** The static [tr] and the memory. *)
Record magic_state := MagicState { tr : option P; mem : S }.

(** Run an operation of the word set inside the detector's state. *)
Definition on_mem {A} (m : M S A) : M magic_state A := λ s,
  match m (mem s) with
  | Ok (a, mem') => Ok (a, MagicState (tr s) mem')
  | Fail f => Fail f
  end.

(** [trie_init(&tr)]. *)
Definition init_tr : M magic_state unit :=
  s ← get;
  p ← on_mem (ws_init (tr s));
  s ← get;
  put (MagicState p (mem s)).

(** The loop over the rows of the table. *)
Fixpoint insert_rows (rows : list (list byte)) : M magic_state unit :=
  match rows with
  | [] => mret tt
  | row :: rows' =>
      s ← get;
      size ← lift (magic_len row);
      on_mem (ws_insert (tr s) row size);;
      insert_rows rows'
  end.

Definition magic_init : M magic_state unit :=
  init_tr;; insert_rows magic_index.

Definition magic_fini : M magic_state unit :=
  s ← get; on_mem (ws_destroy (tr s)).

(** [magic_buf] after [read(fd, magic_buf, 16)]: the bytes that were read,
    followed by what the 16 bytes of stack held before. The return value
    of [read] is not looked at. *)
Definition magic_buf (stack bytes_read : list byte) : list byte :=
  bytes_read ++ drop (length bytes_read) stack.

(** [magic_scan], the file giving [bytes_read] to [read]. *)
Definition magic_scan (stack bytes_read : list byte) : M magic_state bool :=
  s ← get;
  r ← on_mem (ws_scan (tr s) (magic_buf stack bytes_read) 16);
  mret (bool_decide (is_Some r)).
End magic.
Arguments magic_state : clear implicits.

(** The bytes [read(fd, buf, 16)] delivers from the start of a file. *)
Definition read16 (content : list byte) : list byte := take 16 content.

(** ** The table *)

(** A row is ten bytes whose ninth is the length of the word, the word fits
    the eight bytes before it, and the bytes after the word are zero. *)
Definition row_ok (row : list byte) : bool :=
  match row !! 8 with
  | Some b =>
      bool_decide (length row = MENTRY_LEN + 1) && bool_decide (1 ≤ u8 b) &&
      bool_decide (u8 b ≤ 8) && forallb (λ c, bool_decide (c = x00)) (drop (u8 b) (take 8 row))
  | None => false
  end.

Lemma magic_rows_ok : Forall (λ row, row_ok row = true) magic_index.
Proof. apply (bool_decide_unpack _). by vm_compute. Qed.

(** Nodes the whole table can need. *)
Definition magic_room : nat := 1 + sum_list_with (λ row, length (magic_word row)) magic_index.

Lemma row_ok_spec row :
  row_ok row = true → ∃ b, row !! 8 = Some b ∧ length row = 10 ∧ 1 ≤ u8 b ≤ 8.
Proof.
  unfold row_ok. destruct (row !! 8) as [b|]; [|done].
  intros H. exists b. repeat (apply andb_prop in H as [H ?]).
  rewrite !bool_decide_eq_true in *. by split_and!.
Qed.

Section magic_spec.
Context {S P F : Type} `{WordSetLaws S P F}.
Implicit Types (f : F) (s : magic_state S P) (K : gset (list byte)).

Lemma wp_on_mem {A} (m : M S A) (Q : A → magic_state S P → Prop) s :
  wp m (λ a mem', Q a (MagicState (tr s) mem')) (mem s) → wp (on_mem m) Q s.
Proof. unfold wp, on_mem. by destruct (m (mem s)) as [[]|]. Qed.

(** The detector holds the words [K]. *)
Definition magic_ready f K s : Prop := ∃ p, tr s = Some p ∧ ws_repr f p K (mem s).

Lemma magic_len_ok row :
  row_ok row = true → magic_len row = Ok (Z.of_nat (length (magic_word row))) ∧
    1 ≤ length (magic_word row) ≤ 8 ∧
    take (length (magic_word row)) row = magic_word row ∧ length (magic_word row) ≤ length row.
Proof.
  intros (b & Hb & Hlen & Hu)%row_ok_spec. unfold magic_len, magic_word.
  assert (rd row 8 = Ok b) as -> by (by apply (rd_nat row 8)).
  rewrite Hb. simpl. rewrite length_take.
  replace (u8 b `min` length row) with (u8 b) by lia. split_and!; [done|lia..|done|lia].
Qed.

Lemma on_mem_fail {A} (m : M S A) s fl : m (mem s) = Fail fl → on_mem m s = Fail fl.
Proof. unfold on_mem. by intros ->. Qed.

Lemma wp_insert_rows rows f K s :
  Forall (λ row, row_ok row = true) rows → magic_ready f K s →
  wp (insert_rows rows)
    (λ _ s', magic_ready f (list_to_set (magic_word <$> rows) ∪ K) s') s ∨
  insert_rows rows s = Fail NullPointer ∧
    ws_room (mem s) < sum_list_with (λ row, length (magic_word row)) rows.
Proof.
  revert K s. induction rows as [|row rows IH]; intros K s Hok (p & Htr & HR).
  { left. apply wp_ret. exists p. split; [done|]. by rewrite fmap_nil, list_to_set_nil, (left_id_L ∅ (∪)). }
  apply Forall_cons_iff in Hok as [Hrow Hok].
  destruct (magic_len_ok row Hrow) as (Hlen & Hpos & Htake & Hle).
  assert (insert_rows (row :: rows) s =
    (on_mem (ws_insert (Some p) row (Z.of_nat (length (magic_word row))));; insert_rows rows) s) as Hrun.
  { cbn [insert_rows]. unfold get, mbind, M_bind, lift. by rewrite Hlen, Htr. }
  cbn [sum_list_with].
  destruct (ws_insert_law f p K (mem s) row (Z.of_nat (length (magic_word row))) HR) as [Hins|[Hins Hshort]];
    rewrite ?Nat2Z.id in *; [lia|lia| |].
  - rewrite Htake in Hins. apply wp_run in Hins as (r & mem' & Hins & HR' & _ & Hroom').
    assert (on_mem (ws_insert (Some p) row (Z.of_nat (length (magic_word row)))) s = Ok (r, MagicState (tr s) mem'))
      as Hstep by (unfold on_mem; by rewrite Hins).
    rewrite (run_bind _ _ _ _ _ Hstep) in Hrun.
    destruct (IH ({[magic_word row]} ∪ K) (MagicState (tr s) mem') Hok) as [Hrest|[Hrest Hshort]]; [by exists p| |].
    + left. unfold wp. rewrite Hrun. eapply yields_mono; [exact Hrest|].
      intros [[] s'] (p' & Hp' & HR''). exists p'. split; [done|]. cbn [snd] in *.
      by rewrite fmap_cons, list_to_set_cons, (comm_L (∪) {[_]}), <-(assoc_L (∪)).
    + right. rewrite Hrun. split; [done|]. cbn [mem] in Hshort. lia.
  - right. rewrite Hrun. split; [|lia]. by apply run_bind_fail, on_mem_fail.
Qed.

(** [magic_init], with any amount of memory. *)
Lemma wp_magic_init_any f s :
  tr s = None → ws_frame f (mem s) →
  wp magic_init (λ _ s', magic_ready f magic_words s') s ∨
  magic_init s = Fail NullPointer ∧ ws_room (mem s) < magic_room.
Proof.
  intros Htr Hf. unfold magic_room.
  destruct (ws_init_law f (mem s) Hf) as [Hinit|[Hinit Hshort]].
  - apply wp_run in Hinit as (r & mem' & Hinit & p & -> & HR & Hroom).
    assert (init_tr s = Ok (tt, MagicState (Some p) mem')) as Hstep.
    { unfold init_tr, get, put, mbind, M_bind, on_mem. by rewrite Htr, Hinit. }
    assert (magic_init s = insert_rows magic_index (MagicState (Some p) mem')) as Hrun
      by exact (run_bind _ _ _ _ _ Hstep).
    destruct (wp_insert_rows magic_index f ∅ (MagicState (Some p) mem') magic_rows_ok) as [Hrest|[Hrest Hshort]];
      [by exists p| |].
    + left. unfold wp. rewrite Hrun. eapply yields_mono; [exact Hrest|].
      intros [[] s']. by rewrite union_empty_r_L.
    + right. rewrite Hrun. split; [done|]. cbn [mem] in Hshort. lia.
  - right. split; [|lia]. unfold magic_init. rewrite (run_bind_fail _ _ _ NullPointer); [done|]. unfold init_tr, get, mbind, M_bind, on_mem.
    by rewrite Htr, Hinit.
Qed.

Lemma wp_magic_init f s :
  tr s = None → ws_frame f (mem s) → magic_room ≤ ws_room (mem s) →
  wp magic_init (λ _ s', magic_ready f magic_words s') s.
Proof. intros Htr Hf Hroom. destruct (wp_magic_init_any f s Htr Hf) as [?|[_ ?]]; [done|lia]. Qed.

Lemma magic_buf_length stack bytes_read :
  length stack = 16 → length bytes_read ≤ 16 → length (magic_buf stack bytes_read) = 16.
Proof. intros. unfold magic_buf. rewrite length_app, length_drop. lia. Qed.

Lemma wp_magic_scan f K s stack bytes_read :
  magic_ready f K s → length stack = 16 → length bytes_read ≤ 16 →
  wp (magic_scan stack bytes_read)
    (λ b s', s' = s ∧ (b = true ↔ some_prefix K (magic_buf stack bytes_read))) s.
Proof.
  intros (p & Htr & HR) Hs Hb. pose proof (magic_buf_length _ _ Hs Hb) as Hlen.
  unfold magic_scan. apply wp_bind, wp_get, wp_bind, wp_on_mem. rewrite Htr.
  eapply wp_mono; [apply (ws_scan_law f p K); [done|lia|change (Z.to_nat 16) with 16; lia]|].
  change (Z.to_nat 16) with 16. rewrite take_ge by lia.
  intros r mem' [-> Hr]. apply wp_ret. split; [by destruct s; simpl in *; subst|].
  rewrite bool_decide_eq_true. exact Hr.
Qed.

Lemma wp_magic_fini f K s :
  magic_ready f K s → wp magic_fini (λ _ s', ws_frame f (mem s') ∧ tr s' = tr s) s.
Proof.
  intros (p & Htr & HR). unfold magic_fini. apply wp_bind, wp_get, wp_on_mem. rewrite Htr.
  eapply wp_mono; [by eapply ws_destroy_law|]. done.
Qed.
End magic_spec.

(** ** Words, prefixes and the stack *)

Lemma magic_words_list w : w ∈ magic_words ↔ w ∈ magic_word <$> magic_index.
Proof. apply elem_of_list_to_set. Qed.

Lemma magic_word_bounds w : w ∈ magic_words → 2 ≤ length w ≤ 8.
Proof.
  rewrite magic_words_list. revert w. apply list.Forall_forall.
  apply (bool_decide_unpack (Forall (λ w, 2 ≤ length w ≤ 8) (magic_word <$> magic_index))).
  by vm_compute.
Qed.

Lemma some_prefix_magic (text : list byte) :
  some_prefix magic_words text ↔ ∃ w, w ∈ magic_words ∧ w `prefix_of` text.
Proof.
  unfold some_prefix. split; [intros (k & _ & ? & ?); eauto|].
  intros (w & Hw & Hp). exists w. split_and!; [|done..].
  intros ->. apply magic_word_bounds in Hw. simpl in Hw. lia.
Qed.

(** With 16 bytes read the stack does not matter. *)
Lemma magic_buf_full stack content :
  length stack = 16 → 16 ≤ length content → magic_buf stack (read16 content) = take 16 content.
Proof.
  intros Hs Hc. unfold magic_buf, read16. rewrite length_take, drop_ge by lia. apply app_nil_r.
Qed.

Lemma prefix_take_16 (w content : list byte) :
  length w ≤ 8 → w `prefix_of` take 16 content ↔ w `prefix_of` content.
Proof.
  intros Hw. split.
  - intros Hp. etrans; [exact Hp|]. apply prefix_take.
  - intros [r ->]. rewrite take_app_ge by lia. by apply prefix_app_r.
Qed.

(** What a scan of a file of at least 16 bytes looks for. *)
Lemma some_prefix_content stack content :
  length stack = 16 → 16 ≤ length content →
  some_prefix magic_words (magic_buf stack (read16 content)) ↔
    ∃ row, row ∈ magic_index ∧ magic_word row `prefix_of` content.
Proof.
  intros Hs Hc. rewrite magic_buf_full, some_prefix_magic by done. split.
  - intros (w & Hw & Hp). pose proof (magic_word_bounds w Hw).
    rewrite magic_words_list, list_elem_of_fmap in Hw. destruct Hw as (row & -> & Hrow).
    exists row. split; [done|]. apply prefix_take_16; [lia|done].
  - intros (row & Hrow & Hp). exists (magic_word row).
    assert (magic_word row ∈ magic_words) as Hw
      by (apply magic_words_list, list_elem_of_fmap; eauto).
    split; [done|]. apply prefix_take_16; [|done]. apply magic_word_bounds in Hw. lia.
Qed.

(** A stack can complete a short file to any word it is a prefix of. *)
Lemma stack_completes (content w : list byte) :
  content `prefix_of` w → length w ≤ 8 →
  ∃ stack, length stack = 16 ∧ w `prefix_of` magic_buf stack content.
Proof.
  intros [r ->] Hlen. rewrite length_app in Hlen.
  exists (replicate (length content) x00 ++ r ++ replicate (16 - length content - length r) x00).
  split; [rewrite !length_app, !length_replicate; lia|].
  unfold magic_buf. rewrite drop_app_length' by (by rewrite length_replicate).
  rewrite assoc_L by apply _. by apply prefix_app_r.
Qed.

(** Rows [i] and [j] do not hold a word and an extension of it. *)
Definition no_clash (i j : nat) : bool :=
  match (magic_word <$> magic_index) !! i, (magic_word <$> magic_index) !! j with
  | Some w1, Some w2 => bool_decide (w1 `prefix_of` w2 → i = j)
  | _, _ => true
  end.

Lemma magic_no_clash i j : i < 34 → j < 34 → no_clash i j = true.
Proof.
  assert (Forall (λ i, Forall (λ j, no_clash i j = true) (seq 0 34)) (seq 0 34)) as H.
  { apply (bool_decide_unpack _). by vm_compute. }
  intros Hi Hj. rewrite list.Forall_forall in H.
  assert (i ∈ seq 0 34) as Hi' by (apply elem_of_seq; lia). specialize (H i Hi').
  rewrite list.Forall_forall in H. apply H, elem_of_seq. lia.
Qed.

(** ** The properties of the detector *)

(** C34: the rows of [magic_index] are well formed, in the order of the [M_]
    macros and with their values, and no magic number is a prefix of
    another, so that the first one met by a scan is the only one. *)
Theorem magic_index_sound :
  Forall (λ row, row_ok row = true) magic_index ∧
  big_endian ∘ magic_word <$> magic_index = snd <$> magic_macros ∧
  ∀ i j (w1 w2 : list byte), (magic_word <$> magic_index) !! i = Some w1 →
    (magic_word <$> magic_index) !! j = Some w2 → w1 `prefix_of` w2 → i = j.
Proof.
  split_and!; [apply magic_rows_ok|by vm_compute|].
  intros i j w1 w2 Hi Hj.
  pose proof (lookup_lt_Some _ _ _ Hi) as Hi'. pose proof (lookup_lt_Some _ _ _ Hj) as Hj'.
  rewrite length_fmap in Hi', Hj'. change (length magic_index) with 34 in *.
  pose proof (magic_no_clash i j Hi' Hj') as Hc. unfold no_clash in Hc.
  rewrite Hi, Hj in Hc. by apply bool_decide_eq_true in Hc.
Qed.

(** C9: over any word set that obeys its laws, after [magic_init] a file of
    at least 16 bytes is reported binary exactly when a magic number of the
    table begins it, whatever the stack held, and [magic_fini] gives the
    memory back. *)
Theorem magic_scan_detects {S P F} `{WordSetLaws S P F} (f : F) (s : magic_state S P) :
  tr s = None → ws_frame f (mem s) → magic_room ≤ ws_room (mem s) →
  wp magic_init (λ _ s',
    (∀ stack content : list byte, length stack = 16 → 16 ≤ length content →
      wp (magic_scan stack (read16 content)) (λ b s'', s'' = s' ∧
        (b = true ↔ ∃ row, row ∈ magic_index ∧ magic_word row `prefix_of` content)) s') ∧
    wp magic_fini (λ _ s'', ws_frame f (mem s'')) s') s.
Proof.
  intros Htr Hf Hroom. eapply wp_mono; [by apply wp_magic_init|]. intros [] s' Hready. split.
  - intros stack content Hs Hc. eapply wp_mono.
    + apply (wp_magic_scan f magic_words); [done..|unfold read16; rewrite length_take; lia].
    + intros b s'' [-> Hb]. split; [done|].
      by rewrite Hb, some_prefix_content.
  - eapply wp_mono; [by eapply wp_magic_fini|]. by intros [] s'' [? _].
Qed.

(** A memory with nothing in it and room for [n] blocks, before [magic_init]. *)
Definition empty_heap (n : nat) : theap := Heap ∅ 1%positive n.
Definition fresh_detector : magic_state theap loc := MagicState None (empty_heap 200).

Lemma fresh_detector_frame : ws_frame (∅ : gmap loc trie_cell) (mem fresh_detector).
Proof. split; [reflexivity|]. intros l [v Hv]. discriminate Hv. Defined.

Lemma fresh_detector_room : magic_room ≤ ws_room (mem fresh_detector).
Proof. apply (bool_decide_unpack _). vm_compute. exact I. Defined.

Lemma magic_scan_detects_witness :
  wp magic_init (λ _ s',
    (∀ stack content : list byte, length stack = 16 → 16 ≤ length content →
      wp (magic_scan stack (read16 content)) (λ b s'', s'' = s' ∧
        (b = true ↔ ∃ row, row ∈ magic_index ∧ magic_word row `prefix_of` content)) s') ∧
    wp magic_fini (λ _ s'', ws_frame (∅ : gmap loc trie_cell) (mem s'')) s') fresh_detector.
Proof.
  exact (magic_scan_detects ∅ fresh_detector eq_refl fresh_detector_frame fresh_detector_room).
Defined.

(** C35: the return value of [read] is ignored, so a file of fewer than 16
    bytes is completed with what the stack held: for some stack it is
    reported binary exactly when it begins with a magic number or is itself
    the beginning of one, as the empty file is. *)
Theorem magic_scan_short {S P F} `{WordSetLaws S P F} (f : F) (s : magic_state S P) :
  tr s = None → ws_frame f (mem s) → magic_room ≤ ws_room (mem s) →
  wp magic_init (λ _ s', ∀ content, length content < 16 →
    (∃ stack, length stack = 16 ∧ magic_scan stack (read16 content) s' = Ok (true, s')) ↔
    ∃ w, w ∈ magic_words ∧ (w `prefix_of` content ∨ content `prefix_of` w)) s.
Proof.
  intros Htr Hf Hroom. eapply wp_mono; [by apply wp_magic_init|].
  intros [] s' Hready content Hc. unfold read16. rewrite take_ge by lia.
  assert (∀ stack, length stack = 16 → magic_scan stack content s' = Ok (true, s') ↔
    some_prefix magic_words (magic_buf stack content)) as Hscan.
  { intros stack Hs. pose proof (wp_magic_scan f _ _ stack content Hready Hs ltac:(lia)) as Hw.
    apply wp_run in Hw as (b & s'' & -> & -> & Hb). rewrite <-Hb. split; [by intros [= ->]|by intros ->]. }
  split.
  - intros (stack & Hs & Hr). rewrite (Hscan stack Hs), some_prefix_magic in Hr.
    destruct Hr as (w & Hw & Hp). exists w. split; [done|].
    eapply prefix_weak_total; [exact Hp|]. by apply prefix_app_r.
  - intros (w & Hw & Hcase). pose proof (magic_word_bounds w Hw) as Hb.
    assert (∃ stack, length stack = 16 ∧ w `prefix_of` magic_buf stack content) as (stack & Hs & Hp).
    { destruct Hcase as [Hp|Hp]; [|apply stack_completes; [done|lia]].
      exists (replicate 16 x00). split; [done|]. unfold magic_buf. by apply prefix_app_r. }
    exists stack. split; [done|]. apply (Hscan stack Hs), some_prefix_magic. eauto.
Qed.

Lemma magic_scan_short_witness :
  wp magic_init (λ _ s', ∀ content, length content < 16 →
    (∃ stack, length stack = 16 ∧ magic_scan stack (read16 content) s' = Ok (true, s')) ↔
    ∃ w, w ∈ magic_words ∧ (w `prefix_of` content ∨ content `prefix_of` w)) fresh_detector.
Proof.
  exact (magic_scan_short (∅ : gmap loc trie_cell) fresh_detector eq_refl
    fresh_detector_frame fresh_detector_room).
Defined.

(** [magic_fini] leaves [tr] dangling: a second [magic_init] uses the freed
    root. *)
Example magic_reinit :
  (magic_init;; magic_fini;; magic_init) fresh_detector = Fail UseAfterFree.
Proof. by vm_compute. Qed.
