(* ===== verification/Block.v ===== *)
(** Byte blocks: the memory behind a [char *] that [malloc] or [realloc]
    returned, and the string functions the program applies to it. *)

From S2P Require Import Prelude CInt.
Local Open Scope Z_scope.

(** A byte is [None] until it is written. *)
Abbreviation block := (list (option byte)).

Definition NUL : byte := x00.

(** Read [n] bytes of an array from index [i] on. *)
Definition rd_n {A} (a : list A) (i n : Z) : outcome (list A) :=
  if bool_decide (0 ≤ i ∧ 0 ≤ n ∧ i + n ≤ Z.of_nat (length a)) then
    Ok (take (Z.to_nat n) (drop (Z.to_nat i) a))
  else Fail OutOfBounds.

(** Overwrite the array from index [i] on with [bs]. *)
Definition wr_n {A} (a : list A) (i : Z) (bs : list A) : outcome (list A) :=
  if bool_decide (0 ≤ i ∧ i + Z.of_nat (length bs) ≤ Z.of_nat (length a)) then
    Ok (take (Z.to_nat i) a ++ bs ++ drop (Z.to_nat i + length bs) a)
  else Fail OutOfBounds.

(** [memcpy] from an array of bytes into a block. *)
Definition memcpy_in (b : block) (i : Z) (src : list byte) (j n : Z) : outcome block :=
  bs ← rd_n src j n;
  wr_n b i (Some <$> bs).

(** [memcpy] within one block: overlapping regions are undefined. *)
Definition memcpy_self (b : block) (dst src n : Z) : outcome block :=
  check (bool_decide (dst + n ≤ src ∨ src + n ≤ dst)) Overlap;;
  bs ← rd_n b src n;
  wr_n b dst bs.

(** [memset]. *)
Definition memset (b : block) (i : Z) (c : byte) (n : Z) : outcome block :=
  check (bool_decide (0 ≤ n)) OutOfBounds;;
  wr_n b i (replicate (Z.to_nat n) (Some c)).

(** The bytes before the first NUL: every byte up to it is read. *)
Fixpoint c_string (b : block) : outcome (list byte) :=
  match b with
  | [] => Fail OutOfBounds
  | None :: _ => Fail Uninitialised
  | Some c :: b' =>
      if bool_decide (c = NUL) then Ok []
      else s ← c_string b'; Ok (c :: s)
  end.

(** The string at index [i]. *)
Definition c_string_at (b : block) (i : Z) : outcome (list byte) :=
  if bool_decide (0 ≤ i) then c_string (drop (Z.to_nat i) b) else Fail OutOfBounds.

(** [strcpy] within one block, terminator included. *)
Definition strcpy_self (b : block) (dst src : Z) : outcome block :=
  s ← c_string_at b src;
  memcpy_self b dst src (Z.of_nat (length s) + 1).

(** [realloc] of a block to [n] bytes: the common part is kept. *)
Definition resize (b : block) (n : Z) : block :=
  take (Z.to_nat n) b ++ replicate (Z.to_nat n - length b) None.

(** ** Facts about reads and writes at a known split of the array *)

Lemma rd_n_app {A} (l1 l2 l3 : list A) (i n : Z) :
  i = Z.of_nat (length l1) → n = Z.of_nat (length l2) → rd_n (l1 ++ l2 ++ l3) i n = Ok l2.
Proof.
  intros -> ->. unfold rd_n. rewrite bool_decide_true by (rewrite !length_app; lia).
  rewrite !Nat2Z.id, drop_app_length, take_app_length. done.
Qed.

Lemma wr_n_app {A} (l1 l2 l3 bs : list A) (i : Z) :
  i = Z.of_nat (length l1) → length bs = length l2 →
  wr_n (l1 ++ l2 ++ l3) i bs = Ok (l1 ++ bs ++ l3).
Proof.
  intros -> Hlen. unfold wr_n. rewrite bool_decide_true by (rewrite !length_app; lia).
  rewrite Nat2Z.id, take_app_length. do 3 f_equal.
  rewrite Hlen, <-length_app, app_assoc. apply drop_app_length.
Qed.

Lemma memcpy_in_app (l1 l2 l3 : block) (src1 bs src3 : list byte) (i j n : Z) :
  i = Z.of_nat (length l1) → j = Z.of_nat (length src1) → n = Z.of_nat (length bs) →
  length bs = length l2 →
  memcpy_in (l1 ++ l2 ++ l3) i (src1 ++ bs ++ src3) j n = Ok (l1 ++ (Some <$> bs) ++ l3).
Proof.
  intros Hi Hj Hn Hlen. unfold memcpy_in. rewrite (rd_n_app _ _ _ _ _ Hj Hn), bind_Ok.
  apply wr_n_app; [done|by rewrite length_fmap].
Qed.

Lemma c_string_spec (s : list byte) (b : block) :
  NUL ∉ s → c_string ((Some <$> s) ++ Some NUL :: b) = Ok s.
Proof.
  induction s as [|c s IH]; intros Hs; [done|]. apply not_elem_of_cons in Hs as [Hc Hs].
  cbn. rewrite bool_decide_false by congruence. by rewrite IH.
Qed.

Lemma c_string_at_app (l1 : block) (s : list byte) (b : block) (i : Z) :
  i = Z.of_nat (length l1) → NUL ∉ s →
  c_string_at (l1 ++ (Some <$> s) ++ Some NUL :: b) i = Ok s.
Proof.
  intros -> Hs. unfold c_string_at. rewrite bool_decide_true by lia.
  rewrite Nat2Z.id, drop_app_length. by apply c_string_spec.
Qed.

Lemma c_string_none (s : list byte) : NUL ∉ s → c_string (Some <$> s) = Fail OutOfBounds.
Proof.
  induction s as [|c s IH]; intros Hs; [done|]. apply not_elem_of_cons in Hs as [Hc Hs].
  cbn. rewrite bool_decide_false by congruence. by rewrite IH.
Qed.

Lemma resize_length b n : length (resize b n) = Z.to_nat n.
Proof. unfold resize. rewrite length_app, length_take, length_replicate. lia. Qed.

Lemma resize_grow b n :
  (Z.of_nat (length b) ≤ n) → resize b n = b ++ replicate (Z.to_nat n - length b) None.
Proof. intros. unfold resize. by rewrite take_ge by lia. Qed.

Lemma memcpy_self_overlap b dst src n :
  dst < src + n → src < dst + n → memcpy_self b dst src n = Fail Overlap.
Proof. intros. unfold memcpy_self. by rewrite bool_decide_false by lia. Qed.
