(* ===== verification/Buffer.v ===== *)
(** The result buffer of [src/buffer.c]: a growing block of text, its cursor,
    and the functions that append lines with the match highlighted. *)

From S2P Require Import Prelude CInt Block.
Local Open Scope Z_scope.

(** ** State *)

(** The thread-local [buf], [cap] and [off]. *)
Record bufstate := BufState {
  buf : option block;
  cap : Z;
  off : Z;
}.

Definition buf_initial : bufstate := BufState None 0 0.

Definition DEFAULT_SIZE : Z := 4096.

(** ** Terminal escapes of [src/debug.h] *)

(** [\e]. *)
Definition ESC : byte := x1b.

Definition HILI_COLOR : list byte :=
  ESC :: bytes_of "[48;5;220m" ++ ESC :: bytes_of "[30;22m".
Definition LINUM_COLOR : list byte := ESC :: bytes_of "[1;35m".
Definition FNAME_COLOR : list byte := ESC :: bytes_of "[1;34m".
(** The literal ["\e[0m"]. *)
Definition RESET : list byte := ESC :: bytes_of "[0m".

(** [sizeof] a string literal counts its terminator. *)
Definition sizeof (lit : list byte) : Z := Z.of_nat (length lit) + 1.

(** A string literal as an array of [char]. *)
Definition literal (lit : list byte) : list byte := lit ++ [NUL].

(** ** Allocation *)

(** [alloc_ok n] tells whether the allocator can provide [n] bytes; the
    results of [malloc] and [realloc] are stored without a test, and the next
    write through them is a fault when they are NULL. *)
Definition allocator := Z → bool.

Definition realloc (ok : allocator) (b : option block) (n : Z) : option block :=
  if ok n then Some (resize (default [] b) n) else None.

Definition deref (b : option block) : outcome block :=
  match b with Some blk => Ok blk | None => Fail NullPointer end.

(** ** Growing *)

(** [while (newcap < len + off) newcap += newcap;]. *)
Fixpoint grow_loop (fuel : nat) (newcap need : Z) : outcome Z :=
  if bool_decide (newcap < need) then
    match fuel with
    | O => Fail OutOfFuel
    | S fuel' => grow_loop fuel' (u64 (newcap + newcap)) need
    end
  else Ok newcap.

(** 64 doublings reach every [size_t] that can be reached. *)
Definition grow_fuel : nat := 64.

Definition buffer_grow (ok : allocator) (len : Z) (st : bufstate) : outcome bufstate :=
  newcap ← grow_loop grow_fuel (cap st) (u64 (len + off st));
  blk ← deref (realloc ok (buf st) newcap);
  blk ← memset blk (off st) NUL (u64 (newcap - off st));
  Ok (BufState (Some blk) newcap (off st)).

Definition init_buffer (ok : allocator) (st : bufstate) : outcome bufstate :=
  blk ← deref (match buf st with
               | Some b => realloc ok (Some b) DEFAULT_SIZE
               | None => realloc ok None DEFAULT_SIZE
               end);
  blk ← memset blk 0 NUL DEFAULT_SIZE;
  Ok (BufState (Some blk) DEFAULT_SIZE 0).

Definition reset_buffer (ok : allocator) (st : bufstate) : outcome bufstate :=
  init_buffer ok st.

Definition destroy_buffer (st : bufstate) : bufstate := BufState None 0 0.

Definition read_buffer (st : bufstate) : option block := buf st.

(** The test that precedes every append: [if (off + len > cap) grow(len)]. *)
Definition ensure (ok : allocator) (len : Z) (st : bufstate) : outcome bufstate :=
  if bool_decide (cap st < u64 (off st + len)) then buffer_grow ok len st else Ok st.

(** ** Appending *)

(** The functions return their result beside the new state. *)
Definition write_buffer (ok : allocator) (content : list byte) (len : Z) (st : bufstate)
    : outcome (Z * bufstate) :=
  st ← ensure ok len st;
  blk ← deref (buf st);
  blk ← memcpy_in blk (off st) content 0 len;
  Ok (len, BufState (Some blk) (cap st) (u64 (off st + len))).

(** The decimal digits that [%u] prints: ten are enough for a [uint32_t]. *)
Definition digit (d : Z) : byte := default x30 (Byte.of_N (Z.to_N (48 + d))).

Fixpoint digits (fuel : nat) (n : Z) : list byte :=
  match fuel with
  | O => []
  | S fuel' =>
      if bool_decide (n < 10) then [digit n]
      else digits fuel' (n / 10) ++ [digit (n mod 10)]
  end.

Definition decimal (n : Z) : list byte := digits 10 n.

(** [sprintf] for a format whose only directive is [%u]. *)
Fixpoint sprintf_u (format : list byte) (arg : Z) : list byte :=
  match format with
  | x25 :: x75 :: format' => decimal arg ++ sprintf_u format' arg
  | c :: format' => c :: sprintf_u format' arg
  | [] => []
  end.

(** [char str[512]] receives the text and its terminator. *)
Definition writef_buffer (ok : allocator) (format : list byte) (arg : Z) (st : bufstate)
    : outcome (Z * bufstate) :=
  let str := sprintf_u format (u32 arg) in
  check (bool_decide (Z.of_nat (length str) < 512)) OutOfBounds;;
  let n := Z.of_nat (length str) in
  r ← write_buffer ok (str ++ replicate (512 - length str) NUL) n st;
  Ok (n, snd r).

(** [for (i = 0; i < len && stop is not met; i++);]: [i] is an [int], [len] a
    [size_t], [base] the index of the first character looked at. *)
Fixpoint line_scan (fuel : nat) (stop : byte → bool) (content : list byte) (base len i : Z)
    : outcome Z :=
  if bool_decide (u64 i < len) then
    c ← rd content (base + i);
    if stop c then Ok i
    else match fuel with
         | O => Fail OutOfFuel
         | S fuel' => i' ← int_add i 1; line_scan fuel' stop content base len i'
         end
  else Ok i.

(** The scan stops at the end of the array at the latest. *)
Definition scan_fuel (content : list byte) : nat := length content.

Definition is_nl (c : byte) : bool := bool_decide (c = x0a).
Definition is_nl_or_nul (c : byte) : bool := bool_decide (c = x0a) || bool_decide (c = NUL).

Definition writeline_buffer (ok : allocator) (content : list byte) (len : Z) (st : bufstate)
    : outcome (Z * bufstate) :=
  st ← ensure ok len st;
  i ← line_scan (scan_fuel content) is_nl content 0 len 0;
  blk ← deref (buf st);
  blk ← memcpy_in blk (off st) content 0 i;
  Ok (i, BufState (Some blk) (cap st) (u64 (off st + i))).

(** [content] is the memory behind the pointer; positions in the buffer are
    offsets from [buf]. *)
Definition writeline_color_buffer (ok : allocator) (content : list byte)
    (len off1 colorlen : Z) (st : bufstate) : outcome (Z * bufstate) :=
  st ← (if bool_decide (cap st < u64 (off st + len + sizeof HILI_COLOR + 3))
        then buffer_grow ok (u64 (len + sizeof HILI_COLOR + 3)) st else Ok st);
  blk ← deref (buf st);
  let bufferend := off st in
  let hilitoken := bufferend + off1 in
  let patstart := hilitoken + sizeof HILI_COLOR - 1 in
  let hiliend := patstart + colorlen in
  let reststr := hiliend + 4 in
  let restctnt := off1 + colorlen in
  blk ← memcpy_in blk bufferend content 0 off1;
  blk ← memcpy_in blk hilitoken (literal HILI_COLOR) 0 (sizeof HILI_COLOR - 1);
  blk ← memcpy_in blk patstart content off1 colorlen;
  blk ← memcpy_in blk hiliend (literal RESET) 0 4;
  i ← line_scan (scan_fuel content) is_nl_or_nul content restctnt (u64 (len - off1 - colorlen)) 0;
  blk ← memcpy_in blk reststr content restctnt i;
  Ok (u64 (reststr - bufferend + i),
      BufState (Some blk) (cap st) (u64 (off st + u32 (u32 (reststr - bufferend) + i)))).

Definition amendline_color_buffer (ok : allocator) (lastlen off1 colorlen cnt : Z)
    (st : bufstate) : outcome (Z * bufstate) :=
  st ← (if bool_decide (cap st < u64 (off st + sizeof HILI_COLOR + 3))
        then buffer_grow ok (sizeof HILI_COLOR + 3) st else Ok st);
  blk ← deref (buf st);
  let amendstart := off st - lastlen + off1 + u64 (cnt * (sizeof HILI_COLOR + 3)) in
  let amendend := amendstart + colorlen in
  let restline := amendend + sizeof HILI_COLOR + 3 in
  blk ← strcpy_self blk restline amendend;
  blk ← memcpy_self blk (amendstart + sizeof HILI_COLOR - 1) amendstart colorlen;
  blk ← memcpy_in blk amendstart (literal HILI_COLOR) 0 (sizeof HILI_COLOR - 1);
  blk ← memcpy_in blk (amendstart + sizeof HILI_COLOR - 1 + colorlen) (literal RESET) 0 4;
  Ok (sizeof HILI_COLOR + 3,
      BufState (Some blk) (cap st) (u64 (off st + sizeof HILI_COLOR + 3))).
