(* ===== verification/BufferSpec.v ===== *)
(** What the result buffer holds: the text appended so far, in a block of a
    power-of-two capacity whose unused part is zero. *)

From S2P Require Import Prelude CInt Block Buffer.
Local Open Scope Z_scope.

(** ** The representation *)

(** A block of [c] bytes that holds the text [s] and is zero after it. *)
Definition text_block (c : nat) (s : list byte) : block :=
  (Some <$> s) ++ replicate (c - length s) (Some NUL).

(** The buffer holds the text [s]. *)
Record holds (st : bufstate) (s : list byte) : Prop := {
  holds_buf : buf st = Some (text_block (Z.to_nat (cap st)) s);
  holds_off : off st = Z.of_nat (length s);
  holds_fits : Z.of_nat (length s) ≤ cap st;
  holds_cap : ∃ k, 0 ≤ k ∧ cap st = DEFAULT_SIZE * 2 ^ k;
  holds_max : cap st ≤ 2 ^ 63;
}.

(** The allocator serves every request of at most [n] bytes. *)
Definition serves (ok : allocator) (n : Z) : Prop := ∀ m, 0 ≤ m ≤ n → ok m = true.

Lemma text_block_length c s : (length s ≤ c)%nat → length (text_block c s) = c.
Proof. intros. unfold text_block. rewrite length_app, length_fmap, length_replicate. lia. Qed.

Lemma holds_cap_pos st s : holds st s → DEFAULT_SIZE ≤ cap st.
Proof.
  intros [_ _ _ (k & Hk & ->) _]. unfold DEFAULT_SIZE.
  pose proof (Z.pow_pos_nonneg 2 k ltac:(lia) Hk). lia.
Qed.

(** Appending bytes at the cursor. *)
Lemma text_block_append c s (src1 bs src3 : list byte) (i j n : Z) :
  i = Z.of_nat (length s) → j = Z.of_nat (length src1) → n = Z.of_nat (length bs) →
  (length s + length bs ≤ c)%nat →
  memcpy_in (text_block c s) i (src1 ++ bs ++ src3) j n = Ok (text_block c (s ++ bs)).
Proof.
  intros Hi Hj Hn Hc. unfold text_block.
  replace (c - length s)%nat with (length bs + (c - length (s ++ bs)))%nat
    by (rewrite length_app; lia).
  rewrite replicate_add, (memcpy_in_app _ _ _ _ bs); rewrite ?length_fmap, ?length_replicate; try done.
  by rewrite fmap_app, <-app_assoc.
Qed.

(** The same, the bytes being the slice [j, j + n) of the source. *)
Lemma text_block_append_slice c s (src : list byte) (j n : nat) :
  (j + n ≤ length src)%nat → (length s + n ≤ c)%nat →
  memcpy_in (text_block c s) (Z.of_nat (length s)) src (Z.of_nat j) (Z.of_nat n) =
    Ok (text_block c (s ++ take n (drop j src))).
Proof.
  intros Hj Hc. rewrite <-(take_drop j src) at 1. rewrite <-(take_drop n (drop j src)) at 1.
  apply text_block_append; rewrite ?length_take, ?length_drop; lia.
Qed.

(** An append that does not fit is out of bounds. *)
Lemma text_block_overflow c s (src : list byte) (i j n : Z) :
  (length s ≤ c)%nat → Z.of_nat c < i + n →
  memcpy_in (text_block c s) i src j n = Fail OutOfBounds.
Proof.
  intros Hs Hc. unfold memcpy_in, rd_n. case_bool_decide as Hr; [|done]. rewrite bind_Ok.
  unfold wr_n. rewrite bool_decide_false; [done|].
  rewrite text_block_length, length_fmap, length_take, length_drop by done. lia.
Qed.

(** ** Initialisation and growth *)

Lemma memset_all (b : block) n :
  length b = Z.to_nat n → 0 ≤ n → memset b 0 NUL n = Ok (text_block (Z.to_nat n) []).
Proof.
  intros Hb Hn. unfold memset. rewrite bool_decide_true by done. simpl. ok_simpl.
  unfold text_block. simpl. rewrite Nat.sub_0_r.
  pose proof (wr_n_app [] b [] (replicate (Z.to_nat n) (Some NUL)) 0) as H.
  simpl in H. rewrite !app_nil_r in H. apply H; [done|]. by rewrite length_replicate.
Qed.

Lemma init_buffer_holds ok st :
  serves ok DEFAULT_SIZE → init_buffer ok st ⇓ λ st', holds st' [] ∧ cap st' = DEFAULT_SIZE.
Proof.
  intros Hok. unfold init_buffer, realloc.
  rewrite (Hok DEFAULT_SIZE) by (unfold DEFAULT_SIZE; lia).
  assert (∃ b, (match buf st with
    | Some b => Some (resize (default [] (Some b)) DEFAULT_SIZE)
    | None => Some (resize (default [] None) DEFAULT_SIZE) end) = Some b ∧
    length b = Z.to_nat DEFAULT_SIZE) as (b & -> & Hb).
  { destruct (buf st); eexists; (split; [done|apply resize_length]). }
  simpl. ok_simpl. rewrite memset_all by done. ok_simpl. simpl.
  split; [|done]. split; simpl; [done|done|unfold DEFAULT_SIZE; lia| |unfold DEFAULT_SIZE; lia].
  exists 0. split; [lia|]. unfold DEFAULT_SIZE. lia.
Qed.

(** The doubling loop reaches [need] without wrapping around, and stops below
    its double. *)
Lemma grow_loop_spec fuel k need :
  0 ≤ k → need ≤ 2 ^ 62 → need ≤ DEFAULT_SIZE * 2 ^ (k + Z.of_nat fuel) →
  DEFAULT_SIZE * 2 ^ k ≤ 2 ^ 63 →
  grow_loop fuel (DEFAULT_SIZE * 2 ^ k) need ⇓ λ c,
    need ≤ c ∧ c ≤ 2 ^ 63 ∧ (∃ k', 0 ≤ k' ∧ c = DEFAULT_SIZE * 2 ^ k') ∧
    (c = DEFAULT_SIZE * 2 ^ k ∨ c < 2 * need) ∧ DEFAULT_SIZE * 2 ^ k ≤ c.
Proof.
  revert k. induction fuel as [|fuel IH]; intros k Hk Hneed Hreach Hmax.
  - replace (k + Z.of_nat 0) with k in Hreach by lia. cbn [grow_loop].
    rewrite bool_decide_false by lia. simpl. repeat split; eauto; lia.
  - cbn [grow_loop]. case_bool_decide as Hlt; [|simpl; repeat split; eauto; lia].
    assert (DEFAULT_SIZE * 2 ^ (k + 1) = 2 * (DEFAULT_SIZE * 2 ^ k)) as Hdbl
      by (rewrite Z.pow_add_r by lia; lia).
    assert (0 < 2 ^ k) by (apply Z.pow_pos_nonneg; lia).
    rewrite u64_small by (unfold U64_MOD, DEFAULT_SIZE in *; lia).
    replace (DEFAULT_SIZE * 2 ^ k + DEFAULT_SIZE * 2 ^ k) with (DEFAULT_SIZE * 2 ^ (k + 1)) by lia.
    eapply yields_mono; [apply IH|].
    + lia.
    + done.
    + by replace (k + 1 + Z.of_nat fuel) with (k + Z.of_nat (S fuel)) by lia.
    + lia.
    + intros c (? & ? & ? & Hc & ?). repeat split; try done; [|lia].
      right. destruct Hc as [->|]; lia.
Qed.

(** Without a capacity the loop never ends. *)
Lemma grow_loop_zero fuel need : 0 < need → grow_loop fuel 0 need = Fail OutOfFuel.
Proof. intros. induction fuel; cbn [grow_loop]; by rewrite bool_decide_true by lia. Qed.

Lemma grow_fuel_enough k need :
  0 ≤ k → need ≤ 2 ^ 62 → need ≤ DEFAULT_SIZE * 2 ^ (k + Z.of_nat grow_fuel).
Proof.
  intros. unfold grow_fuel, DEFAULT_SIZE. rewrite Z.pow_add_r by lia.
  assert (0 < 2 ^ k) by (apply Z.pow_pos_nonneg; lia). lia.
Qed.

Lemma buffer_grow_holds ok len st s :
  holds st s → 0 ≤ len → len + Z.of_nat (length s) ≤ 2 ^ 62 →
  serves ok (2 * (len + Z.of_nat (length s)) + cap st) →
  buffer_grow ok len st ⇓ λ st', holds st' s ∧ len + Z.of_nat (length s) ≤ cap st' ∧
    (cap st' = cap st ∨ cap st' < 2 * (len + Z.of_nat (length s))).
Proof.
  intros Hst Hlen Hmax Hok. pose proof (holds_cap_pos _ _ Hst) as Hpos.
  destruct Hst as [Hbuf Hoff Hfits (k & Hk & Hcap) Hm].
  unfold buffer_grow. rewrite Hoff, u64_small by (unfold U64_MOD; lia).
  apply yields_bind. rewrite Hcap at 1. eapply yields_mono.
  { apply grow_loop_spec; [done|done|by apply grow_fuel_enough|lia]. }
  intros c (Hneed & Hc63 & Hpow & Hbound & Hge). rewrite <-Hcap in Hbound, Hge.
  unfold realloc. unfold DEFAULT_SIZE in Hpos. rewrite (Hok c) by lia. rewrite Hbuf. simpl deref. ok_simpl.
  rewrite resize_grow by (rewrite text_block_length; lia).
  rewrite text_block_length by lia.
  assert (memset (text_block (Z.to_nat (cap st)) s ++
    replicate (Z.to_nat c - Z.to_nat (cap st)) None) (Z.of_nat (length s)) NUL
      (u64 (c - Z.of_nat (length s))) = Ok (text_block (Z.to_nat c) s)) as ->.
  { rewrite u64_small by (unfold U64_MOD; lia).
    unfold memset. rewrite bool_decide_true by lia. simpl. ok_simpl. unfold text_block.
    rewrite <-app_assoc.
    pose proof (wr_n_app (Some <$> s) (replicate (Z.to_nat (cap st) - length s) (Some NUL) ++
      replicate (Z.to_nat c - Z.to_nat (cap st)) None) []
      (replicate (Z.to_nat (c - Z.of_nat (length s))) (Some NUL)) (Z.of_nat (length s))) as H.
    rewrite !app_nil_r in H. rewrite H.
    - do 3 f_equal. lia.
    - by rewrite length_fmap.
    - rewrite length_app, !length_replicate. lia. }
  ok_simpl. simpl. split; [|split; [lia|done]]. split; simpl; try done; lia.
Qed.

(** Making room for [len] bytes. *)
Lemma ensure_holds ok len st s :
  holds st s → 0 ≤ len → len + Z.of_nat (length s) ≤ 2 ^ 62 →
  serves ok (2 * (len + Z.of_nat (length s)) + cap st) →
  ensure ok len st ⇓ λ st', holds st' s ∧ len + Z.of_nat (length s) ≤ cap st' ∧
    (cap st' = cap st ∨ cap st' < 2 * (len + Z.of_nat (length s))).
Proof.
  intros Hst Hlen Hmax Hok. unfold ensure.
  rewrite (holds_off _ _ Hst), u64_small by (unfold U64_MOD; lia).
  case_bool_decide; [by apply buffer_grow_holds|]. simpl. split; [done|]. split; [lia|by left].
Qed.

Lemma holds_append st s bs c :
  holds st s → (Z.of_nat (length s) + Z.of_nat (length bs) ≤ c) → c = cap st →
  holds (BufState (Some (text_block (Z.to_nat c) (s ++ bs))) c
    (Z.of_nat (length s) + Z.of_nat (length bs))) (s ++ bs).
Proof.
  intros [Hbuf Hoff Hfits Hcap Hm] Hle ->. split; simpl; try done; rewrite length_app; lia.
Qed.

Lemma write_buffer_holds ok content len st s :
  holds st s → 0 ≤ len ≤ Z.of_nat (length content) → len + Z.of_nat (length s) ≤ 2 ^ 62 →
  serves ok (2 * (len + Z.of_nat (length s)) + cap st) →
  write_buffer ok content len st ⇓ λ r,
    r.1 = len ∧ holds r.2 (s ++ take (Z.to_nat len) content) ∧
    (cap r.2 = cap st ∨ cap r.2 < 2 * (len + Z.of_nat (length s))).
Proof.
  intros Hst Hlen Hmax Hok. unfold write_buffer. apply yields_bind.
  eapply yields_mono; [apply (ensure_holds ok len st s); [done|lia|done|done]|].
  intros st' (Hst' & Hroom & Hcap). rewrite (holds_buf _ _ Hst'). simpl deref. ok_simpl.
  rewrite (holds_off _ _ Hst').
  pose proof (text_block_append_slice (Z.to_nat (cap st')) s content 0 (Z.to_nat len)
    ltac:(lia) ltac:(lia)) as H.
  rewrite Z2Nat.id in H by lia. change (Z.of_nat 0) with 0 in H. rewrite drop_0 in H. rewrite H.
  ok_simpl. simpl. split; [done|]. split; [|done].
  rewrite u64_small by (unfold U64_MOD; lia).
  replace len with (Z.of_nat (length (take (Z.to_nat len) content))) at 2
    by (rewrite length_take; lia).
  apply (holds_append st'); [done|rewrite length_take; lia|done].
Qed.

(** ** Scanning for the end of a line *)

(** The characters before the first that stops the scan. *)
Fixpoint until (stop : byte → bool) (l : list byte) : list byte :=
  match l with
  | [] => []
  | c :: l' => if stop c then [] else c :: until stop l'
  end.

Lemma until_length stop l : (length (until stop l) ≤ length l)%nat.
Proof. induction l as [|c l IH]; simpl; [lia|]. destruct (stop c); simpl; lia. Qed.

Lemma until_prefix stop l : until stop l = take (length (until stop l)) l.
Proof.
  induction l as [|c l IH]; simpl; [done|]. destruct (stop c); [done|]. simpl. by f_equal.
Qed.

(** ** What [%s] prints *)

(** The text up to its first NUL. *)
Definition as_string (s : list byte) : list byte := until (λ c, bool_decide (c = NUL)) s.

(** A text without a NUL that has the size of one of the blocks that the buffer
    can have: there may be no room for a terminator. *)
Definition fills (s : list byte) : Prop :=
  NUL ∉ s ∧ ∃ k, 0 ≤ k ∧ Z.of_nat (length s) = DEFAULT_SIZE * 2 ^ k.

Lemma as_string_id s : NUL ∉ s → as_string s = s.
Proof.
  induction s as [|c s IH]; [done|]. intros [Hc Hs]%not_elem_of_cons. unfold as_string in *. cbn [until].
  rewrite bool_decide_false by done. by rewrite IH.
Qed.

Lemma c_string_cut s (b : block) : NUL ∈ s → c_string ((Some <$> s) ++ b) = Ok (as_string s).
Proof.
  induction s as [|c s IH]; [by intros ?%elem_of_nil|]. unfold as_string in *. cbn.
  intros Hin. case_bool_decide as Hc; [done|].
  rewrite IH; [done|]. by apply elem_of_cons in Hin as [?|?].
Qed.

Lemma c_string_text c s :
  (length s ≤ c)%nat →
  c_string (text_block c s) =
    if bool_decide (NUL ∉ s ∧ length s = c) then Fail OutOfBounds else Ok (as_string s).
Proof.
  intros Hc. unfold text_block. destruct (decide (NUL ∈ s)) as [Hin|Hnul].
  { rewrite bool_decide_false by naive_solver. by apply c_string_cut. }
  destruct (decide (length s = c)) as [<-|Hne].
  - rewrite bool_decide_true by done. rewrite Nat.sub_diag, app_nil_r. by apply c_string_none.
  - rewrite bool_decide_false by naive_solver. rewrite as_string_id by done.
    replace (c - length s)%nat with (S (c - length s - 1)) by lia. by apply c_string_spec.
Qed.

(** The string printed from a buffer. *)
Lemma read_text st s :
  holds st s →
  (blk ← deref (read_buffer st); c_string blk) =
    if bool_decide (NUL ∉ s ∧ Z.of_nat (length s) = cap st) then Fail OutOfBounds else Ok (as_string s).
Proof.
  intros Hst. pose proof (holds_fits _ _ Hst). unfold read_buffer. rewrite (holds_buf _ _ Hst).
  simpl deref. ok_simpl. rewrite c_string_text by lia.
  erewrite bool_decide_ext; [done|]. by split; intros [? ?]; split; first [done|lia].
Qed.


Lemma drop_S_tail {A} (l : list A) (n : nat) x l' : drop n l = x :: l' → drop (S n) l = l'.
Proof. intros H. replace (S n) with (n + 1)%nat by lia. by rewrite <-drop_drop, H. Qed.

Lemma drop_cons_lookup {A} (l : list A) (n : nat) x l' : drop n l = x :: l' → l !! n = Some x.
Proof. intros H. rewrite <-(Nat.add_0_r n), <-lookup_drop, H. done. Qed.

Section line_scan.
Context (stop : byte → bool) (content : list byte) (base : nat) (len : Z).
Context (Hint : Z.of_nat (length content) ≤ INT_MAX).

(** The scan counts the characters up to the limit or the first stop. *)
Lemma line_scan_spec fuel : ∀ (i : nat) l,
  drop (base + i) content = l → (length l ≤ fuel)%nat → Z.of_nat i < U32_MOD →
  (len ≤ Z.of_nat (i + length l) ∨ Exists (λ c, stop c = true) l) →
  line_scan fuel stop content (Z.of_nat base) len (Z.of_nat i) =
    Ok (Z.of_nat (i + length (until stop (take (Z.to_nat (len - Z.of_nat i)) l)))).
Proof.
  induction fuel as [|fuel IH]; intros i l Hl Hfuel Hi Hend;
    cbn [line_scan]; rewrite u64_small by cint_lia; (case_bool_decide as Hlt;
    [|replace (Z.to_nat (len - Z.of_nat i)) with 0%nat by lia;
      rewrite take_0; simpl; f_equal; lia]);
    (destruct l as [|c l]; [simpl in Hend; destruct Hend as [?|[]%Exists_nil]; lia|]); cbn [length] in Hfuel;
    replace (Z.of_nat base + Z.of_nat i) with (Z.of_nat (base + i)) by lia;
    rewrite (rd_nat _ _ _ (drop_cons_lookup _ _ _ _ Hl)), bind_Ok;
    destruct (Z.to_nat (len - Z.of_nat i)) as [|m] eqn:Hm; try lia; cbn [take until];
    destruct (stop c) eqn:Hc; try (simpl; f_equal; lia).
  pose proof (lookup_lt_Some _ _ _ (drop_cons_lookup _ _ _ _ Hl)) as Hb.
  rewrite int_add_ok by cint_lia. rewrite bind_Ok.
  replace (Z.of_nat i + 1) with (Z.of_nat (S i)) by lia.
  rewrite (IH (S i) l); [|..].
  - replace (Z.to_nat (len - Z.of_nat (S i))) with m by lia. simpl. f_equal. lia.
  - replace (base + S i)%nat with (S (base + i)) by lia. by eapply drop_S_tail.
  - lia.
  - cint_lia.
  - simpl in Hend. destruct Hend as [?|Hex]; [left; lia|right].
    apply Exists_cons in Hex as [?|?]; [congruence|done].
Qed.

(** With no stop before the limit, a scan that may pass the end of the
    array reads outside it. *)
Lemma line_scan_overrun fuel : ∀ (i : nat) l,
  drop (base + i) content = l → (length l ≤ fuel)%nat → Z.of_nat i < U32_MOD →
  Forall (λ c, stop c = false) l → Z.of_nat (i + length l) < len →
  line_scan fuel stop content (Z.of_nat base) len (Z.of_nat i) = Fail OutOfBounds.
Proof.
  induction fuel as [|fuel IH]; intros i l Hl Hfuel Hi Hall Hlt;
    cbn [line_scan]; rewrite u64_small by cint_lia; rewrite bool_decide_true by lia;
    replace (Z.of_nat base + Z.of_nat i) with (Z.of_nat (base + i)) by lia;
    (destruct l as [|c l];
      [rewrite rd_nat_None; [done|]; apply (f_equal (.!! 0%nat)) in Hl;
       by rewrite lookup_drop, Nat.add_0_r in Hl|]); [simpl in Hfuel; lia|].
  rewrite (rd_nat _ _ _ (drop_cons_lookup _ _ _ _ Hl)), bind_Ok.
  apply Forall_cons_iff in Hall as [-> Hall].
  pose proof (lookup_lt_Some _ _ _ (drop_cons_lookup _ _ _ _ Hl)) as Hb.
  rewrite int_add_ok by cint_lia. rewrite bind_Ok.
  replace (Z.of_nat i + 1) with (Z.of_nat (S i)) by lia. simpl in Hfuel, Hlt.
  apply (IH (S i) l); [|lia|cint_lia|done|lia].
  replace (base + S i)%nat with (S (base + i)) by lia. by eapply drop_S_tail.
Qed.
End line_scan.

(** ** Lines with a highlighted match *)

(** The text that [writeline_color_buffer] appends: [content] up to [off1],
    the match between the two escapes, and the rest of the line, no more than
    [len] characters of [content] in all. *)
Definition colored (content : list byte) (len off1 colorlen : nat) : list byte :=
  take off1 content ++ HILI_COLOR ++ take colorlen (drop off1 content) ++ RESET ++
  until is_nl_or_nul (take (len - off1 - colorlen) (drop (off1 + colorlen) content)).

(** One [memcpy] at the end of the text. *)
Lemma append_step c s (src bs : list byte) (i j n : Z) :
  i = Z.of_nat (length s) → 0 ≤ j → 0 ≤ n → j + n ≤ Z.of_nat (length src) →
  Z.of_nat (length s) + n ≤ Z.of_nat c → bs = take (Z.to_nat n) (drop (Z.to_nat j) src) →
  memcpy_in (text_block c s) i src j n = Ok (text_block c (s ++ bs)).
Proof.
  intros -> Hj Hn Hsrc Hc ->.
  rewrite <-(Z2Nat.id j), <-(Z2Nat.id n) at 1 by lia. apply text_block_append_slice; lia.
Qed.

Lemma sizeof_HILI : sizeof HILI_COLOR = 20.
Proof. done. Qed.

(** What follows the match: its length and where it lies in [content]. *)
Lemma rest_of_line content (len off1 colorlen : nat) :
  (off1 + colorlen ≤ length content)%nat →
  let rest := until is_nl_or_nul (take (len - off1 - colorlen) (drop (off1 + colorlen) content)) in
  (length rest ≤ len - off1 - colorlen)%nat ∧
  (off1 + colorlen + length rest ≤ length content)%nat ∧
  rest = take (length rest) (drop (off1 + colorlen) content).
Proof.
  intros Hsrc rest. pose proof (until_length is_nl_or_nul
    (take (len - off1 - colorlen) (drop (off1 + colorlen) content))) as H.
  fold rest in H. rewrite length_take, length_drop in H. split_and!; [lia..|].
  subst rest. rewrite until_prefix at 1. rewrite take_take. f_equal. lia.
Qed.

Lemma colored_length content (len off1 colorlen : nat) :
  (off1 + colorlen ≤ length content)%nat →
  length (colored content len off1 colorlen) =
    (off1 + 19 + colorlen + 4 + length (until is_nl_or_nul
      (take (len - off1 - colorlen) (drop (off1 + colorlen) content))))%nat.
Proof.
  intros Hsrc. unfold colored. rewrite !length_app, !length_take, length_drop.
  change (length HILI_COLOR) with 19%nat. change (length RESET) with 4%nat. lia.
Qed.

(** Room for a line of [len] characters and the two escapes. *)
Lemma color_room ok (len : nat) st s :
  holds st s → Z.of_nat len ≤ INT_MAX → Z.of_nat (length s) ≤ 2 ^ 61 → serves ok (2 ^ 63 + cap st) →
  (if bool_decide (cap st < u64 (off st + Z.of_nat len + 20 + 3))
   then buffer_grow ok (u64 (Z.of_nat len + 20 + 3)) st else Ok st) ⇓ λ st',
    holds st' s ∧ Z.of_nat len + 23 + Z.of_nat (length s) ≤ cap st' ∧
    (cap st' = cap st ∨ cap st' < 2 * (Z.of_nat len + 23 + Z.of_nat (length s))).
Proof.
  intros Hst Hlen Hs Hok. rewrite (holds_off _ _ Hst), !u64_small by cint_lia. case_bool_decide.
  - replace (Z.of_nat len + 20 + 3) with (Z.of_nat len + 23) by lia.
    apply buffer_grow_holds; [done|lia|cint_lia|]. intros m Hm. apply Hok. cint_lia.
  - simpl. split; [done|]. split; [lia|by left].
Qed.

(** The four copies that precede the rest of the line. *)
Definition color_head (blk : block) (pos : Z) (content : list byte) (off1 colorlen : Z)
    : outcome block :=
  blk ← memcpy_in blk pos content 0 off1;
  blk ← memcpy_in blk (pos + off1) (literal HILI_COLOR) 0 (sizeof HILI_COLOR - 1);
  blk ← memcpy_in blk (pos + off1 + sizeof HILI_COLOR - 1) content off1 colorlen;
  memcpy_in blk (pos + off1 + sizeof HILI_COLOR - 1 + colorlen) (literal RESET) 0 4.

Definition colored_head (content : list byte) (off1 colorlen : nat) : list byte :=
  take off1 content ++ HILI_COLOR ++ take colorlen (drop off1 content) ++ RESET.

Lemma color_head_spec c s content (off1 colorlen : nat) :
  (off1 + colorlen ≤ length content)%nat → (length s + off1 + colorlen + 23 ≤ c)%nat →
  color_head (text_block c s) (Z.of_nat (length s)) content (Z.of_nat off1) (Z.of_nat colorlen) =
    Ok (text_block c (s ++ colored_head content off1 colorlen)).
Proof.
  intros Hsrc Hc. unfold color_head. rewrite !sizeof_HILI.
  assert (length (take off1 content) = off1) as L1 by (rewrite length_take; lia).
  assert (length HILI_COLOR = 19%nat) as L2 by done.
  assert (length (take colorlen (drop off1 content)) = colorlen) as L3
    by (rewrite length_take, length_drop; lia).
  rewrite (append_step c s content (take off1 content)) by
    (rewrite ?Nat2Z.id, ?drop_0; first [lia|done]). ok_simpl.
  rewrite (append_step c _ (literal HILI_COLOR) HILI_COLOR) by
    (rewrite ?length_app, ?L1; first [done|lia|vm_compute; lia]). ok_simpl.
  rewrite (append_step c _ content (take colorlen (drop off1 content))) by
    (rewrite ?length_app, ?L1, ?L2, ?Nat2Z.id; first [done|lia]). ok_simpl.
  rewrite (append_step c _ (literal RESET) RESET) by
    (rewrite ?length_app, ?L1, ?L2, ?L3; first [done|lia|vm_compute; lia]).
  unfold colored_head. by rewrite !app_assoc.
Qed.

Lemma writeline_color_holds ok content (len off1 colorlen : nat) st s :
  holds st s → (off1 + colorlen ≤ len)%nat → (off1 + colorlen ≤ length content)%nat →
  Z.of_nat (length content) ≤ INT_MAX → Z.of_nat len ≤ INT_MAX →
  Z.of_nat (length s) ≤ 2 ^ 61 →
  ((len ≤ length content)%nat ∨
    Exists (λ c, is_nl_or_nul c = true) (drop (off1 + colorlen) content)) →
  serves ok (2 ^ 63 + cap st) →
  writeline_color_buffer ok content (Z.of_nat len) (Z.of_nat off1) (Z.of_nat colorlen) st ⇓ λ r,
    r.1 = Z.of_nat (length (colored content len off1 colorlen)) ∧
    holds r.2 (s ++ colored content len off1 colorlen) ∧
    (cap r.2 = cap st ∨ cap r.2 < 2 * (Z.of_nat len + 23 + Z.of_nat (length s))).
Proof.
  intros Hst Hlen Hsrc Hint Hlen31 Hs Hend Hok.
  destruct (rest_of_line content len off1 colorlen Hsrc) as (L5 & L6 & Hrest).
  pose proof (colored_length content len off1 colorlen Hsrc) as Ltot.
  unfold writeline_color_buffer. rewrite !sizeof_HILI.
  apply yields_bind. eapply yields_mono; [by apply color_room|].
  intros st' (Hst' & Hroom & Hcap). rewrite (holds_buf _ _ Hst'), (holds_off _ _ Hst').
  simpl deref. ok_simpl. set (c := Z.to_nat (cap st')).
  pose proof (color_head_spec c s content off1 colorlen Hsrc ltac:(lia)) as Hhead.
  unfold color_head in Hhead. rewrite !sizeof_HILI in Hhead.
  do 3 (apply outcome_bind_Ok in Hhead as (? & Heq & Hhead); rewrite Heq; ok_simpl; clear Heq).
  rewrite Hhead. ok_simpl. set (pos := Z.of_nat (length s)). rewrite u64_small by cint_lia.
  replace (Z.of_nat off1 + Z.of_nat colorlen) with (Z.of_nat (off1 + colorlen)) by lia.
  pose proof (line_scan_spec is_nl_or_nul content (off1 + colorlen)
    (Z.of_nat len - Z.of_nat off1 - Z.of_nat colorlen) Hint (scan_fuel content)
    0 _ eq_refl ltac:(rewrite length_drop; unfold scan_fuel; lia) ltac:(done)) as Hscan.
  rewrite Nat.add_0_r in Hscan. change (Z.of_nat 0) with 0 in Hscan.
  rewrite Hscan by (destruct Hend as [?|?]; [left; rewrite length_drop; lia|by right]). clear Hscan.
  replace (Z.to_nat (Z.of_nat len - Z.of_nat off1 - Z.of_nat colorlen - 0))
    with (len - off1 - colorlen)%nat by lia.
  set (rest := until _ _) in *. ok_simpl. rewrite Nat.add_0_l.
  rewrite (append_step c _ content rest) by
    (unfold colored_head; rewrite ?length_app, ?length_take, ?length_drop, ?Nat2Z.id;
     change (length HILI_COLOR) with 19%nat; change (length RESET) with 4%nat; first [done|lia]).
  ok_simpl. unfold colored_head. rewrite <-!app_assoc. fold rest. change (take off1 content ++ HILI_COLOR
    ++ take colorlen (drop off1 content) ++ RESET ++ rest) with (colored content len off1 colorlen).
  simpl. split; [rewrite Ltot, u64_small by cint_lia; lia|]. split; [|done].
  rewrite (u32_small (_ - pos)) by cint_lia. rewrite u32_small by cint_lia.
  rewrite u64_small by cint_lia.
  replace (pos + _) with (Z.of_nat (length s) + Z.of_nat (length (colored content len off1 colorlen)))
    by (rewrite Ltot; lia).
  apply (holds_append st'); [done|rewrite Ltot; lia|done].
Qed.
