(* ===== verification/BufferAmend.v ===== *)
(** A second match on a line already written: [amendline_color_buffer] opens a
    gap for the escapes inside the text of the result buffer. *)

From S2P Require Import Prelude CInt Block Buffer BufferSpec.
Local Open Scope Z_scope.

(** The state that the room check leaves. *)
Lemma amend_room ok st s :
  holds st s → Z.of_nat (length s) ≤ 2 ^ 61 → serves ok (2 ^ 63 + cap st) →
  Z.of_nat (length s) + 23 ≠ cap st →
  (if bool_decide (cap st < u64 (off st + 20 + 3)) then buffer_grow ok (20 + 3) st else Ok st) ⇓
    λ st', holds st' s ∧ Z.of_nat (length s) + 24 ≤ cap st'.
Proof.
  intros Hst Hs Hok Hexact. pose proof (holds_cap_pos _ _ Hst) as Hpos. unfold DEFAULT_SIZE in Hpos.
  rewrite (holds_off _ _ Hst), u64_small by cint_lia. case_bool_decide as Hfull.
  - eapply yields_mono; [apply (buffer_grow_holds ok _ st s); [done|lia|lia|]|].
    { intros m Hm. apply Hok. lia. }
    intros st' (Hst' & Hroom & _). split; [done|].
    destruct Hst as [_ _ Hfits (k & Hk & Hc) _]. destruct (holds_cap _ _ Hst') as (k' & Hk' & Hc').
    unfold DEFAULT_SIZE in *. destruct (decide (k' ≤ k)) as [Hle|Hgt].
    + pose proof (Z.pow_le_mono_r 2 k' k ltac:(lia) Hle). lia.
    + pose proof (Z.pow_le_mono_r 2 (k + 1) k' ltac:(lia) ltac:(lia)) as Hp.
      rewrite Z.pow_add_r in Hp by lia. lia.
  - simpl. split; [done|]. lia.
Qed.

(** The text after the match, moved behind a gap of 23 bytes. *)
Lemma strcpy_gap (l : block) (rest : list byte) (m : nat) (i : Z) :
  i = Z.of_nat (length l) → NUL ∉ rest → (length rest ≤ 22)%nat → (23 ≤ m)%nat →
  ∃ gap, length gap = 23%nat ∧
    strcpy_self (l ++ (Some <$> rest) ++ Some NUL :: replicate m (Some NUL)) (i + 23) i =
      Ok (l ++ gap ++ (Some <$> rest) ++ replicate (m - 22) (Some NUL)).
Proof.
  intros -> Hnul Hrest Hm. unfold strcpy_self. rewrite c_string_at_app by done. ok_simpl.
  unfold memcpy_self. rewrite bool_decide_true by lia. unfold check at 1. ok_simpl.
  set (sr := Some <$> rest). assert (length sr = length rest) as Hsr by apply length_fmap.
  change (Some NUL :: replicate m (Some NUL)) with (replicate (S m) (Some NUL)).
  assert (rd_n (l ++ sr ++ replicate (S m) (Some NUL)) (Z.of_nat (length l))
    (Z.of_nat (length rest) + 1) = Ok (sr ++ [Some NUL])) as ->.
  { replace (sr ++ replicate (S m) (Some NUL)) with ((sr ++ [Some NUL]) ++ replicate m (Some NUL))
      by (by rewrite <-app_assoc).
    apply rd_n_app; [done|]. rewrite length_app, Hsr. simpl. lia. }
  ok_simpl. exists (sr ++ replicate (23 - length rest) (Some NUL)).
  split; [rewrite length_app, length_replicate; lia|].
  set (gap := sr ++ replicate (23 - length rest) (Some NUL)).
  assert (length gap = 23%nat) as Hgap by (unfold gap; rewrite length_app, length_replicate; lia).
  assert (l ++ sr ++ replicate (S m) (Some NUL) = (l ++ gap) ++
    replicate (length rest + 1) (Some NUL) ++ replicate (m - 23) (Some NUL)) as ->.
  { unfold gap. rewrite <-!app_assoc, <-!replicate_add. do 3 f_equal. lia. }
  rewrite wr_n_app; [|rewrite length_app; lia|rewrite length_app, length_replicate, Hsr; simpl; lia].
  replace (m - 22)%nat with (1 + (m - 23))%nat by lia. rewrite replicate_add.
  by rewrite <-!app_assoc.
Qed.

(** The three copies that fill the gap: they overwrite every byte of it. *)
Lemma fill_gap (l gap tail : block) (pat : list byte) (i : Z) :
  i = Z.of_nat (length l) → (length pat ≤ 19)%nat → length gap = 23%nat →
  (blk ← memcpy_self (l ++ (Some <$> pat) ++ gap ++ tail) (i + 20 - 1) i (Z.of_nat (length pat));
   blk ← memcpy_in blk i (literal HILI_COLOR) 0 (20 - 1);
   memcpy_in blk (i + 20 - 1 + Z.of_nat (length pat)) (literal RESET) 0 4) =
  Ok (l ++ (Some <$> HILI_COLOR ++ pat ++ RESET) ++ tail).
Proof.
  intros -> Hpat Hgap. set (sp := Some <$> pat).
  assert (length sp = length pat) as Hsp by apply length_fmap.
  unfold memcpy_self. rewrite bool_decide_true by lia. unfold check at 1. ok_simpl.
  rewrite (rd_n_app l sp) by (rewrite ?Hsp; done). ok_simpl.
  rewrite (app_assoc sp). set (w := sp ++ gap).
  assert (length w = length pat + 23)%nat as Hw by (unfold w; rewrite length_app; lia).
  rewrite <-(take_drop 19 w), <-(take_drop (length pat) (drop 19 w)).
  assert (length (take 19 w) = 19%nat) as Hw1 by (rewrite length_take; lia).
  assert (length (take (length pat) (drop 19 w)) = length pat) as Hw2
    by (rewrite length_take, length_drop; lia).
  assert (length (drop (length pat) (drop 19 w)) = 4%nat) as Hw3 by (rewrite !length_drop; lia).
  rewrite <-!app_assoc, (app_assoc l (take 19 w)).
  rewrite wr_n_app by (rewrite ?length_app; lia). ok_simpl. rewrite <-!app_assoc.
  pose proof (memcpy_in_app l (take 19 w) (sp ++ drop (length pat) (drop 19 w) ++ tail)
    [] HILI_COLOR [NUL] (Z.of_nat (length l)) 0 (20 - 1) eq_refl eq_refl eq_refl
    ltac:(by rewrite Hw1)) as Hhili.
  change ([] ++ HILI_COLOR ++ [NUL]) with (literal HILI_COLOR) in Hhili.
  rewrite Hhili. ok_simpl. clear Hhili.
  rewrite (app_assoc l), (app_assoc (l ++ _)).
  pose proof (memcpy_in_app ((l ++ (Some <$> HILI_COLOR)) ++ sp) (drop (length pat) (drop 19 w)) tail
    [] RESET [NUL] (Z.of_nat (length l) + 20 - 1 + Z.of_nat (length pat)) 0 4
    ltac:(rewrite !length_app, length_fmap; change (length HILI_COLOR) with 19%nat; lia)
    eq_refl eq_refl ltac:(by rewrite Hw3)) as Hreset.
  change ([] ++ RESET ++ [NUL]) with (literal RESET) in Hreset. rewrite <-app_assoc in Hreset |- *.
  rewrite Hreset. clear Hreset.
  f_equal. by rewrite !fmap_app, <-!app_assoc.
Qed.

(** The address arithmetic: the match starts [length pre] bytes into the
    buffer. *)
Definition amend_at (pre s : list byte) (lastlen off1 cnt : Z) : Prop :=
  Z.of_nat (length s) - lastlen + off1 + u64 (cnt * 23) = Z.of_nat (length pre).

(** A text block split at a match. *)
Lemma text_block_split c (pre pat rest : list byte) :
  (length (pre ++ pat ++ rest) < c)%nat →
  text_block c (pre ++ pat ++ rest) =
    (Some <$> pre ++ pat) ++ (Some <$> rest) ++
      Some NUL :: replicate (c - length (pre ++ pat ++ rest) - 1) (Some NUL).
Proof.
  intros Hc. unfold text_block. set (n := length (pre ++ pat ++ rest)) in *.
  destruct (c - n)%nat as [|k] eqn:Hk; [lia|]. replace (S k - 1)%nat with k by lia.
  rewrite (app_assoc pre), (fmap_app _ (pre ++ pat)), <-(app_assoc (Some <$> pre ++ pat)). done.
Qed.

Section amend.
Context (ok : allocator) (pre pat rest : list byte) (lastlen off1 cnt : Z) (st : bufstate).
Let s := pre ++ pat ++ rest.
Context (Hst : holds st s) (Hat : amend_at pre s lastlen off1 cnt) (Hnul : NUL ∉ rest).
Context (Hs : Z.of_nat (length s) ≤ 2 ^ 61) (Hok : serves ok (2 ^ 63 + cap st)).
Context (Hexact : Z.of_nat (length s) + 23 ≠ cap st).

Lemma amendline_color_fits :
  (length rest ≤ 22)%nat → (length pat ≤ 19)%nat →
  amendline_color_buffer ok lastlen off1 (Z.of_nat (length pat)) cnt st ⇓ λ r,
    r.1 = 23 ∧ holds r.2 (pre ++ HILI_COLOR ++ pat ++ RESET ++ rest).
Proof.
  intros Hrest Hpat. unfold amendline_color_buffer. rewrite !sizeof_HILI.
  apply yields_bind. eapply yields_mono; [by apply (amend_room ok st s)|].
  intros st' [Hst' Hroom]. rewrite (holds_buf _ _ Hst'), (holds_off _ _ Hst').
  simpl deref. ok_simpl. change (cnt * (20 + 3)) with (cnt * 23). unfold amend_at in Hat. rewrite Hat.
  set (c := Z.to_nat (cap st')). set (m := (c - length s - 1)%nat).
  assert (length s = length pre + (length pat + length rest))%nat as Ls
    by (unfold s; rewrite !length_app; lia).
  replace (text_block c s) with ((Some <$> pre ++ pat) ++ (Some <$> rest) ++
    Some NUL :: replicate m (Some NUL)) by (symmetry; apply text_block_split; fold s; lia).
  destruct (strcpy_gap (Some <$> pre ++ pat) rest m (Z.of_nat (length pre) + Z.of_nat (length pat)))
    as (gap & Hgap & Hcpy); [rewrite length_fmap, length_app; lia|done|lia|lia|].
  replace (Z.of_nat (length pre) + Z.of_nat (length pat) + 20 + 3) with
    (Z.of_nat (length pre) + Z.of_nat (length pat) + 23) by lia. rewrite Hcpy. ok_simpl.
  pose proof (fill_gap (Some <$> pre) gap ((Some <$> rest) ++ replicate (m - 22) (Some NUL))
    pat (Z.of_nat (length pre)) ltac:(by rewrite length_fmap) ltac:(lia) Hgap) as Hfill.
  rewrite fmap_app, <-app_assoc.
  do 2 (apply outcome_bind_Ok in Hfill as (? & Heq & Hfill); rewrite Heq; ok_simpl; clear Heq).
  rewrite Hfill. ok_simpl. cbn [yields fst snd]. split; [done|].
  assert (length (pre ++ HILI_COLOR ++ pat ++ RESET ++ rest) = length s + 23)%nat as Lr.
  { rewrite Ls, !length_app. change (length HILI_COLOR) with 19%nat.
    change (length RESET) with 4%nat. lia. }
  rewrite u64_small by cint_lia.
  destruct Hst' as [_ _ _ Hpow Hmax]. split; cbn [buf cap off]; try done; try lia.
  fold c. f_equal. unfold text_block. rewrite Lr.
  replace (c - (length s + 23))%nat with (m - 22)%nat by lia.
  by rewrite !fmap_app, <-!app_assoc.
Qed.

Lemma amendline_color_overlaps :
  ¬ ((length rest ≤ 22)%nat ∧ (length pat ≤ 19)%nat) →
  amendline_color_buffer ok lastlen off1 (Z.of_nat (length pat)) cnt st = Fail Overlap.
Proof.
  intros Hbig. unfold amendline_color_buffer. rewrite !sizeof_HILI.
  pose proof (amend_room ok st s Hst Hs Hok Hexact) as Hroom. apply yields_Ok in Hroom.
  destruct Hroom as (st' & -> & Hst' & Hroom). ok_simpl.
  rewrite (holds_buf _ _ Hst'), (holds_off _ _ Hst').
  simpl deref. ok_simpl. change (cnt * (20 + 3)) with (cnt * 23). unfold amend_at in Hat. rewrite Hat.
  set (c := Z.to_nat (cap st')). set (m := (c - length s - 1)%nat).
  assert (length s = length pre + (length pat + length rest))%nat as Ls
    by (unfold s; rewrite !length_app; lia).
  replace (text_block c s) with ((Some <$> pre ++ pat) ++ (Some <$> rest) ++
    Some NUL :: replicate m (Some NUL)) by (symmetry; apply text_block_split; fold s; lia).
  replace (Z.of_nat (length pre) + Z.of_nat (length pat) + 20 + 3) with
    (Z.of_nat (length pre) + Z.of_nat (length pat) + 23) by lia.
  destruct (decide (length rest ≤ 22)%nat) as [Hrest|Hrest].
  - destruct (strcpy_gap (Some <$> pre ++ pat) rest m (Z.of_nat (length pre) + Z.of_nat (length pat)))
      as (gap & Hgap & Hcpy); [rewrite length_fmap, length_app; lia|done|lia|lia|].
    rewrite Hcpy. ok_simpl. by rewrite memcpy_self_overlap by lia.
  - unfold strcpy_self. rewrite c_string_at_app; [|rewrite length_fmap, length_app; lia|done].
    ok_simpl. by rewrite memcpy_self_overlap by lia.
Qed.
End amend.

(** A block with room for the escapes and not for the terminator of the text
    after them: the test of the capacity lets it pass, and [strcpy] leaves the
    block. *)
Lemma amendline_color_short ok pre pat rest lastlen off1 cnt st :
  let s := pre ++ pat ++ rest in
  holds st s → amend_at pre s lastlen off1 cnt → NUL ∉ rest → Z.of_nat (length s) ≤ 2 ^ 61 →
  Z.of_nat (length s) + 23 = cap st →
  amendline_color_buffer ok lastlen off1 (Z.of_nat (length pat)) cnt st =
    Fail (if bool_decide (length rest ≤ 22)%nat then OutOfBounds else Overlap).
Proof.
  intros s Hst Hat Hnul Hs Hshort. unfold amendline_color_buffer. rewrite !sizeof_HILI.
  rewrite (holds_off _ _ Hst), (u64_small (Z.of_nat (length s) + 20 + 3)) by cint_lia.
  rewrite bool_decide_false by lia. ok_simpl. rewrite (holds_buf _ _ Hst), (holds_off _ _ Hst).
  simpl deref. ok_simpl. change (cnt * (20 + 3)) with (cnt * 23). unfold amend_at in Hat. rewrite Hat.
  assert (length s = length pre + (length pat + length rest))%nat as Ls
    by (unfold s; rewrite !length_app; lia).
  set (l := Some <$> pre ++ pat). set (m := (Z.to_nat (cap st) - length s - 1)%nat).
  replace (text_block (Z.to_nat (cap st)) s) with (l ++ (Some <$> rest) ++ Some NUL :: replicate m (Some NUL))
    by (symmetry; apply text_block_split; fold s; lia).
  assert (length l = length pre + length pat)%nat as Ll by (unfold l; rewrite length_fmap, length_app; lia).
  unfold strcpy_self. rewrite c_string_at_app; [|rewrite Ll; lia|done]. ok_simpl.
  case_bool_decide as Hrest; [|by rewrite memcpy_self_overlap by lia].
  set (blk := l ++ _). assert (length blk = Z.to_nat (cap st)) as Hlen.
  { unfold blk. rewrite !length_app, length_fmap. cbn [length]. rewrite length_replicate. lia. }
  assert (memcpy_self blk (Z.of_nat (length pre) + Z.of_nat (length pat) + 20 + 3)
    (Z.of_nat (length pre) + Z.of_nat (length pat)) (Z.of_nat (length rest) + 1) = Fail OutOfBounds) as ->; [|done].
  unfold memcpy_self. rewrite bool_decide_true by lia. unfold check, rd_n. ok_simpl.
  rewrite bool_decide_true by lia. ok_simpl. unfold wr_n.
  rewrite bool_decide_false; [done|]. rewrite length_take, length_drop, Hlen. lia.
Qed.
