(* ===== verification/BufferClaims.v ===== *)
(** The properties of the result buffer: histories of appends, growth, lines
    with one and with two highlighted matches, and the inputs on which the
    code leaves its block. *)

From S2P Require Import Prelude CInt Block Buffer BufferSpec BufferAmend.
Local Open Scope Z_scope.

(** ** Histories of appends *)

(** A sequence of calls of [write_buffer], each with a whole chunk. *)
Fixpoint write_all (ok : allocator) (chunks : list (list byte)) (st : bufstate)
    : outcome bufstate :=
  match chunks with
  | [] => Ok st
  | bs :: chunks' =>
      r ← write_buffer ok bs (Z.of_nat (length bs)) st;
      write_all ok chunks' (snd r)
  end.

Lemma serves_le ok n n' : n ≤ n' → serves ok n' → serves ok n.
Proof. intros Hn Hok m Hm. apply Hok. lia. Qed.

Lemma write_all_holds ok chunks : ∀ st s,
  holds st s → Z.of_nat (length (s ++ concat chunks)) ≤ 2 ^ 61 → serves ok (2 ^ 64) →
  (cap st = DEFAULT_SIZE ∨ cap st < 2 * Z.of_nat (length s)) →
  write_all ok chunks st ⇓ λ st', holds st' (s ++ concat chunks) ∧
    (cap st' = DEFAULT_SIZE ∨ cap st' < 2 * Z.of_nat (length (s ++ concat chunks))).
Proof.
  induction chunks as [|bs chunks IH]; intros st s Hst Hmax Hok Hcap.
  { cbn [write_all concat yields]. by rewrite app_nil_r. }
  cbn [write_all concat] in *. rewrite !length_app in Hmax. apply yields_bind.
  assert (cap st < 2 ^ 63) by (unfold DEFAULT_SIZE in Hcap; lia).
  eapply yields_mono; [apply (write_buffer_holds ok _ _ st s); [done|lia|lia|]|].
  { eapply serves_le; [|done]. lia. }
  intros [n st'] (_ & Hst' & Hcap'). cbn [fst snd] in *.
  rewrite Nat2Z.id, take_ge in Hst' by lia. rewrite app_assoc. apply IH; [done|..].
  - rewrite <-app_assoc, !length_app. lia.
  - done.
  - rewrite length_app. lia.
Qed.

Lemma written_holds ok chunks :
  Z.of_nat (length (concat chunks)) ≤ 2 ^ 61 → serves ok (2 ^ 64) →
  (st ← init_buffer ok buf_initial; write_all ok chunks st) ⇓ λ st, holds st (concat chunks) ∧
    (cap st = DEFAULT_SIZE ∨ cap st < 2 * Z.of_nat (length (concat chunks))).
Proof.
  intros Hmax Hok. apply yields_bind. eapply yields_mono; [apply init_buffer_holds|].
  { eapply serves_le; [|done]. unfold DEFAULT_SIZE. lia. }
  intros st [Hst Hcap]. by apply (write_all_holds ok chunks st []); auto.
Qed.

(** C24: from [init_buffer] on, any sequence of [write_buffer] calls leaves the
    concatenation of the chunks in the buffer, [off] is its length, and the
    capacity is the initial one or less than twice that length. *)
Theorem write_buffer_history ok chunks :
  Z.of_nat (length (concat chunks)) ≤ 2 ^ 61 → serves ok (2 ^ 64) →
  (st ← init_buffer ok buf_initial; write_all ok chunks st) ⇓ λ st,
    holds st (concat chunks) ∧ off st = Z.of_nat (length (concat chunks)) ∧
    (cap st = DEFAULT_SIZE ∨ cap st < 2 * off st).
Proof.
  intros Hmax Hok. eapply yields_mono; [by apply written_holds|].
  intros st [Hst Hcap]. rewrite (holds_off _ _ Hst). auto.
Qed.

Definition ample : allocator := λ _, true.

Lemma write_buffer_history_witness :
  (st ← init_buffer ample buf_initial; write_all ample [bytes_of "hello"; bytes_of "world"] st)
    ⇓ λ st, holds st (bytes_of "helloworld") ∧ off st = 10 ∧
      (cap st = DEFAULT_SIZE ∨ cap st < 2 * off st).
Proof. apply (write_buffer_history ample [bytes_of "hello"; bytes_of "world"]); done. Defined.

(** ** Growth *)

Lemma grow_loop_stuck fuel k need :
  0 ≤ k ≤ 51 → 2 ^ 63 < need →
  grow_loop fuel (DEFAULT_SIZE * 2 ^ k) need = Fail OutOfFuel.
Proof.
  revert k. induction fuel as [|fuel IH]; intros k Hk Hneed; cbn [grow_loop];
    pose proof (Z.pow_le_mono_r 2 k 51 ltac:(lia) ltac:(lia)); unfold DEFAULT_SIZE in *;
    rewrite bool_decide_true by lia; [done|].
  destruct (decide (k = 51)) as [->|].
  - change (u64 _) with 0. apply grow_loop_zero. lia.
  - pose proof (Z.pow_le_mono_r 2 k 50 ltac:(lia) ltac:(lia)).
    assert (0 < 2 ^ k) by (apply Z.pow_pos_nonneg; lia).
    rewrite u64_small by (unfold U64_MOD; lia).
    replace (4096 * 2 ^ k + 4096 * 2 ^ k) with (4096 * 2 ^ (k + 1))
      by (rewrite Z.pow_add_r by lia; lia).
    apply IH; lia.
Qed.

(** The doubling loop of [buffer_grow], entered with a capacity that
    doubling has produced, ends exactly when the size needed is at most 2^63;
    beyond that the capacity wraps to zero and the loop runs for ever. *)
Lemma grow_loop_ends_iff k need :
  0 ≤ k ≤ 51 → (∃ fuel c, grow_loop fuel (DEFAULT_SIZE * 2 ^ k) need = Ok c) ↔ need ≤ 2 ^ 63.
Proof.
  intros Hk. split.
  - intros (fuel & c & H). apply Znot_gt_le. intros Hbig.
    rewrite grow_loop_stuck in H by lia. done.
  - intros Hneed. exists (Z.to_nat (51 - k)).
    assert (∀ n k, k + Z.of_nat n = 51 → 0 ≤ k →
      ∃ c, grow_loop n (DEFAULT_SIZE * 2 ^ k) need = Ok c) as Hn; [|apply Hn; lia].
    clear k Hk. intros n. induction n as [|n IH]; intros k Hk H0; cbn [grow_loop].
    + replace k with 51 by lia. rewrite bool_decide_false by (unfold DEFAULT_SIZE; lia). eauto.
    + case_bool_decide; [|eauto]. pose proof (Z.pow_le_mono_r 2 k 50 ltac:(lia) ltac:(lia)).
      assert (0 < 2 ^ k) by (apply Z.pow_pos_nonneg; lia). unfold DEFAULT_SIZE in *.
      rewrite u64_small by (unfold U64_MOD; lia).
      replace (4096 * 2 ^ k + 4096 * 2 ^ k) with (4096 * 2 ^ (k + 1))
        by (rewrite Z.pow_add_r by lia; lia).
      apply IH; lia.
Qed.

Lemma grow_loop_ends_iff_witness :
  (0 ≤ 3 ≤ 51) ∧
  ((∃ fuel c, grow_loop fuel (DEFAULT_SIZE * 2 ^ 3) 5000000 = Ok c) ↔ 5000000 ≤ 2 ^ 63).
Proof. split; [lia|]. apply (grow_loop_ends_iff 3 5000000). lia. Defined.

(** Before [init_buffer], or after [destroy_buffer], the capacity is zero and
    an append never returns. *)
Example write_before_init fuel : grow_loop fuel (cap buf_initial) 1 = Fail OutOfFuel.
Proof. by apply grow_loop_zero. Qed.

(** ** What [%s] prints *)

(** A text whose length is one of the capacities fills its block, when the
    capacity is no larger than the appends have made it. *)
Lemma full_when st s :
  holds st s → fills s → cap st = DEFAULT_SIZE ∨ cap st < 2 * Z.of_nat (length s) →
  Z.of_nat (length s) = cap st.
Proof.
  intros Hst (_ & k & Hk & Hlen) Hcap. pose proof (holds_fits _ _ Hst) as Hfits.
  destruct (holds_cap _ _ Hst) as (j & Hj & Hc). rewrite Hlen, Hc in *. unfold DEFAULT_SIZE in *.
  pose proof (Z.pow_pos_nonneg 2 k ltac:(lia) Hk). destruct Hcap as [Hcap|Hcap]; [lia|].
  assert (2 * 2 ^ k = 2 ^ (k + 1)) as Hp by (rewrite Z.pow_add_r by lia; lia).
  assert (k ≤ j) by (apply (Z.pow_le_mono_r_iff 2); lia).
  assert (j < k + 1) by (apply (Z.pow_lt_mono_r_iff 2); lia). by replace j with k by lia.
Qed.

(** C32: [fprintf("%s", read_buffer())] after [init_buffer] and any sequence of
    [write_buffer] calls prints what has been written, up to the first NUL; no
    append writes a terminator, so when there is no NUL in it and its length is
    4096 or that doubled any number of times, the block is full and is read past
    its end. *)
Theorem read_buffer_string ok chunks :
  let run := st ← init_buffer ok buf_initial; st ← write_all ok chunks st;
             blk ← deref (read_buffer st); c_string blk in
  Z.of_nat (length (concat chunks)) ≤ 2 ^ 61 → serves ok (2 ^ 64) →
  (fills (concat chunks) → run = Fail OutOfBounds) ∧
  (¬ fills (concat chunks) → run = Ok (as_string (concat chunks))).
Proof.
  intros run Hmax Hok. pose proof (written_holds ok chunks Hmax Hok) as Hrun.
  apply yields_Ok in Hrun as (st & Hrun & Hst & Hcap).
  assert (run = if bool_decide (NUL ∉ concat chunks ∧ Z.of_nat (length (concat chunks)) = cap st)
    then Fail OutOfBounds else Ok (as_string (concat chunks))) as ->.
  { rewrite <-read_text by done. unfold run. apply outcome_bind_Ok in Hrun as (st0 & -> & Hw).
    ok_simpl. by rewrite Hw. }
  split; intros Hf; [rewrite bool_decide_true; [done|]|rewrite bool_decide_false; [done|]].
  - split; [by apply Hf|]. by eapply full_when.
  - intros [Hnul Heq]. apply Hf. split; [done|]. rewrite Heq. by destruct Hst.
Qed.

(** Forty chunks of a hundred bytes, and one that fills the block. *)
Lemma read_buffer_string_witness :
  (st ← init_buffer ample buf_initial; st ← write_all ample (replicate 40 (replicate 100 x61) ++ [replicate 96 x62]) st;
   blk ← deref (read_buffer st); c_string blk) = Fail OutOfBounds.
Proof.
  apply (read_buffer_string ample (replicate 40 (replicate 100 x61) ++ [replicate 96 x62])); [done|done|].
  split; [by apply (bool_decide_unpack _); vm_compute|]. exists 0. by vm_compute.
Defined.

(** A text with a NUL is cut there. *)
Example read_buffer_cut :
  (st ← init_buffer ample buf_initial; st ← write_all ample [bytes_of "ab" ++ [NUL]; bytes_of "cd"] st;
   blk ← deref (read_buffer st); c_string blk) = Ok (bytes_of "ab").
Proof. by vm_compute. Qed.

(** ** A line with its match highlighted *)

Lemma until_stop stop (b tail : list byte) c :
  Forall (λ x, stop x = false) b → stop c = true → until stop (b ++ c :: tail) = b.
Proof.
  induction 1 as [|x b Hx Hb IH]; intros Hc; cbn [until app]; [by rewrite Hc|].
  rewrite Hx. f_equal. auto.
Qed.

Lemma until_take stop (n : nat) l : until stop (take n l) = take n (until stop l).
Proof.
  revert n. induction l as [|c l IH]; intros [|n]; cbn [take until]; try done.
  destruct (stop c); [done|]. cbn [take]. by f_equal.
Qed.

(** What [writeline_color_buffer] makes of a line [a ++ m ++ b]. *)
Definition highlighted (a m b : list byte) : list byte :=
  a ++ HILI_COLOR ++ m ++ RESET ++ b.

Lemma colored_line a m b c tail (len : nat) :
  Forall (λ x, is_nl_or_nul x = false) b → is_nl_or_nul c = true →
  colored (a ++ m ++ b ++ c :: tail) len (length a) (length m) =
    highlighted a m (take (len - length a - length m) b).
Proof.
  intros Hb Hc. unfold colored, highlighted.
  rewrite take_app_length, drop_app_length, take_app_length.
  rewrite <-drop_drop, !drop_app_length. by rewrite until_take, until_stop.
Qed.

(** C25: a line [a ++ m ++ b], ended by a newline or a NUL, whose match lies in
    its first [len] columns is appended as [a], the escape, [m], the reset and as
    much of [b] as the limit of [len] columns leaves; the value returned is the
    number of bytes appended. *)
Theorem writeline_color_highlights ok st s a m b c tail (len : nat) :
  let content := a ++ m ++ b ++ c :: tail in
  let line := highlighted a m (take (len - length a - length m) b) in
  holds st s → Z.of_nat (length s) ≤ 2 ^ 61 → serves ok (2 ^ 63 + cap st) →
  Forall (λ x, is_nl_or_nul x = false) b → is_nl_or_nul c = true →
  (length a + length m ≤ len)%nat → Z.of_nat len ≤ INT_MAX →
  Z.of_nat (length content) ≤ INT_MAX →
  writeline_color_buffer ok content (Z.of_nat len) (Z.of_nat (length a)) (Z.of_nat (length m)) st
    ⇓ λ r, r.1 = Z.of_nat (length line) ∧ holds r.2 (s ++ line).
Proof.
  intros content line Hst Hs Hok Hb Hc Hlen Hlen31 Hint.
  assert (colored content len (length a) (length m) = line) as Hcol by (by apply colored_line).
  eapply yields_mono; [apply (writeline_color_holds ok content len _ _ st s)|]; try done.
  - unfold content. rewrite !length_app. lia.
  - right. unfold content. rewrite <-drop_drop, !drop_app_length.
    apply Exists_app. right. by apply Exists_cons_hd.
  - intros r. rewrite Hcol. naive_solver.
Qed.

(** An initialised buffer. *)
Definition fresh_buffer : bufstate := BufState (Some (text_block 4096 [])) 4096 0.

Lemma holds_fresh : holds fresh_buffer [].
Proof. split; cbn [buf cap off fresh_buffer]; try done. exists 0. split; [lia|done]. Qed.

Lemma writeline_color_highlights_witness :
  writeline_color_buffer ample (bytes_of "The quick brown fox jumps" ++ [NUL]) 70 16 3 fresh_buffer
    ⇓ λ r, r.1 = 48 ∧
      holds r.2 (highlighted (bytes_of "The quick brown ") (bytes_of "fox") (bytes_of " jumps")).
Proof.
  apply (writeline_color_highlights ample fresh_buffer [] (bytes_of "The quick brown ")
    (bytes_of "fox") (bytes_of " jumps") NUL [] 70); [apply holds_fresh|done|done|..];
    by apply (bool_decide_unpack _); vm_compute.
Defined.

(** C31: a match so far to the right that the copy of what precedes it does
    not fit in the room reserved for a line of [len] columns is written past the
    end of the block, whatever the allocator provides. *)
Theorem writeline_color_overflows ok st s content (len off1 colorlen : nat) :
  holds st s → Z.of_nat (length s) ≤ 2 ^ 61 → serves ok (2 ^ 63 + cap st) →
  Z.of_nat len ≤ INT_MAX →
  cap st < Z.of_nat (length s + off1) →
  2 * (Z.of_nat len + 23 + Z.of_nat (length s)) ≤ Z.of_nat (length s + off1) →
  writeline_color_buffer ok content (Z.of_nat len) (Z.of_nat off1) (Z.of_nat colorlen) st =
    Fail OutOfBounds.
Proof.
  intros Hst Hs Hok Hlen Hcap Hfar. unfold writeline_color_buffer. rewrite !sizeof_HILI.
  pose proof (color_room ok len st s Hst Hlen Hs Hok) as Hroom. apply yields_Ok in Hroom.
  destruct Hroom as (st' & -> & Hst' & Hroom & Hb). ok_simpl.
  rewrite (holds_buf _ _ Hst'), (holds_off _ _ Hst'). simpl deref. ok_simpl.
  by rewrite text_block_overflow by (pose proof (holds_fits _ _ Hst'); lia).
Qed.

Lemma writeline_color_overflows_witness :
  writeline_color_buffer ample (replicate 5000 x61 ++ bytes_of "fox" ++ [x0a]) 1024 5000 3
    fresh_buffer = Fail OutOfBounds.
Proof.
  apply (writeline_color_overflows ample fresh_buffer [] _ 1024 5000 3);
    [apply holds_fresh|done|done|done|by apply (bool_decide_unpack _); vm_compute..].
Defined.

(** ** A second match on the same line *)

(** C26: [amendline_color_buffer] on a buffer that holds [pre ++ pat ++ rest],
    the arguments saying where [pat] begins and [rest] having no NUL. With more
    than 22 bytes after the match, or a match of more than 19, one of the two
    copies has overlapping regions, which is undefined; when the block has room
    for the escapes and for nothing more, the terminator of [rest] is written past
    its end; otherwise the escapes are put around [pat]. *)
Theorem amendline_color_outcome ok st pre pat rest lastlen off1 cnt :
  let s := pre ++ pat ++ rest in
  holds st s → Z.of_nat (length s) - lastlen + off1 + u64 (cnt * 23) = Z.of_nat (length pre) →
  NUL ∉ rest → Z.of_nat (length s) ≤ 2 ^ 61 → serves ok (2 ^ 63 + cap st) →
  if bool_decide (22 < length rest)%nat then
    amendline_color_buffer ok lastlen off1 (Z.of_nat (length pat)) cnt st = Fail Overlap
  else if bool_decide (off st + 23 = cap st) then
    amendline_color_buffer ok lastlen off1 (Z.of_nat (length pat)) cnt st = Fail OutOfBounds
  else if bool_decide (19 < length pat)%nat then
    amendline_color_buffer ok lastlen off1 (Z.of_nat (length pat)) cnt st = Fail Overlap
  else
    amendline_color_buffer ok lastlen off1 (Z.of_nat (length pat)) cnt st ⇓ λ r,
      r.1 = 23 ∧ holds r.2 (pre ++ HILI_COLOR ++ pat ++ RESET ++ rest).
Proof.
  intros s Hst Hat Hnul Hs Hok. pose proof (holds_off _ _ Hst) as Hoff.
  destruct (decide (off st + 23 = cap st)) as [Hshort|Hexact]; rewrite Hoff in *.
  - rewrite (amendline_color_short ok pre pat rest lastlen off1 cnt st Hst Hat Hnul Hs Hshort).
    rewrite (bool_decide_true (_ = cap st)) by done. by repeat case_bool_decide; try lia.
  - rewrite (bool_decide_false (_ = cap st)) by done. do 2 (case_bool_decide;
      [apply (amendline_color_overlaps ok pre pat rest lastlen off1 cnt st); (done || lia)|]).
    apply (amendline_color_fits ok pre pat rest lastlen off1 cnt st); (done || lia).
Qed.

Lemma amendline_color_outcome_witness :
  let st := BufState (Some (text_block 4096 (bytes_of "over the lazy dog"))) 4096 17 in
  amendline_color_buffer ample 17 5 3 0 st ⇓ λ r, r.1 = 23 ∧
    holds r.2 (bytes_of "over " ++ HILI_COLOR ++ bytes_of "the" ++ RESET ++ bytes_of " lazy dog").
Proof.
  intros st. apply (amendline_color_outcome ample st (bytes_of "over ") (bytes_of "the")
    (bytes_of " lazy dog") 17 5 0); try done.
  - split; cbn [buf cap off st]; try done. exists 0. split; [lia|done].
  - by apply (bool_decide_unpack _); vm_compute.
Defined.

(** A text of 4073 characters in a block of 4096. *)
Example amend_one_short :
  let st := BufState (Some (text_block 4096 (replicate 4073 x61))) 4096 4073 in
  amendline_color_buffer ample 4073 4073 0 0 st = Fail OutOfBounds.
Proof. by vm_compute. Qed.

(** The scan for the end of the line is not limited to the memory behind
    [content]: without a newline or a NUL it reads past its end. *)
Lemma writeline_color_reads_past ok st s content (len off1 colorlen : nat) :
  holds st s → (off1 + colorlen ≤ len)%nat → (off1 + colorlen ≤ length content)%nat →
  Z.of_nat (length content) ≤ INT_MAX → Z.of_nat len ≤ INT_MAX →
  Z.of_nat (length s) ≤ 2 ^ 61 → serves ok (2 ^ 63 + cap st) →
  Forall (λ c, is_nl_or_nul c = false) content → (length content < len)%nat →
  writeline_color_buffer ok content (Z.of_nat len) (Z.of_nat off1) (Z.of_nat colorlen) st =
    Fail OutOfBounds.
Proof.
  intros Hst Hlen Hsrc Hint Hlen31 Hs Hok Hall Hshort. unfold writeline_color_buffer.
  rewrite !sizeof_HILI. pose proof (color_room ok len st s Hst Hlen31 Hs Hok) as Hroom.
  apply yields_Ok in Hroom. destruct Hroom as (st' & -> & Hst' & Hroom & Hb). ok_simpl.
  rewrite (holds_buf _ _ Hst'), (holds_off _ _ Hst'). simpl deref. ok_simpl.
  set (c := Z.to_nat (cap st')).
  pose proof (color_head_spec c s content off1 colorlen Hsrc ltac:(lia)) as Hhead.
  unfold color_head in Hhead. rewrite !sizeof_HILI in Hhead.
  do 3 (apply outcome_bind_Ok in Hhead as (? & Heq & Hhead); rewrite Heq; ok_simpl; clear Heq).
  rewrite Hhead. ok_simpl. rewrite u64_small by cint_lia.
  replace (Z.of_nat off1 + Z.of_nat colorlen) with (Z.of_nat (off1 + colorlen)) by lia.
  change 0 with (Z.of_nat 0). erewrite (line_scan_overrun is_nl_or_nul content (off1 + colorlen)).
  - done.
  - cint_lia.
  - done.
  - rewrite length_drop. unfold scan_fuel. lia.
  - cint_lia.
  - by apply Forall_drop.
  - rewrite length_drop. lia.
Qed.

(** ** The repository's own expectations ([test/test_buf.cpp]) *)

Definition quick : list byte :=
  bytes_of "The quick brown fox jumps over the lazy dog" ++ [NUL].

(** [SizeCheck]: [cap] is 8192 after 4096 bytes on top of a page. *)
Example test_size_check :
  (st ← init_buffer ample buf_initial;
   st ← write_all ample [replicate 150 x61; replicate 150 x61; replicate 4096 x62] st;
   Ok (off st, cap st)) = Ok (4396, 8192).
Proof. by vm_compute. Qed.

(** [WritelnTest]: the result array has 67 bytes with its terminator. *)
Example test_writeln :
  (st ← init_buffer ample buf_initial;
   r ← writeline_color_buffer ample quick 67 16 3 st;
   s ← (blk ← deref (read_buffer r.2); c_string blk);
   Ok (r.1, off r.2, s)) =
  Ok (66, 66, highlighted (bytes_of "The quick brown ") (bytes_of "fox")
                (bytes_of " jumps over the lazy dog")).
Proof. by vm_compute. Qed.

(** [AmendTest]. *)
Example test_amend :
  (st ← init_buffer ample buf_initial;
   r ← writeline_color_buffer ample quick 90 16 3 st;
   r' ← amendline_color_buffer ample r.1 31 3 1 r.2;
   s ← (blk ← deref (read_buffer r'.2); c_string blk);
   Ok (off r'.2, s)) =
  Ok (89, bytes_of "The quick brown " ++ HILI_COLOR ++ bytes_of "fox" ++ RESET ++
      bytes_of " jumps over " ++ HILI_COLOR ++ bytes_of "the" ++ RESET ++ bytes_of " lazy dog").
Proof. by vm_compute. Qed.

(** [writeline_buffer] appends the characters of [content] before the
    first newline, at most [len] of them, and returns how many; the content has
    [len] characters or a newline. *)
Lemma writeline_buffer_line ok st s content (len : nat) :
  let line := until is_nl (take len content) in
  holds st s → Z.of_nat (length content) ≤ INT_MAX →
  Z.of_nat len + Z.of_nat (length s) ≤ 2 ^ 62 →
  serves ok (2 * (Z.of_nat len + Z.of_nat (length s)) + cap st) →
  ((len ≤ length content)%nat ∨ Exists (λ c, is_nl c = true) content) →
  writeline_buffer ok content (Z.of_nat len) st ⇓ λ r,
    r.1 = Z.of_nat (length line) ∧ holds r.2 (s ++ line).
Proof.
  intros line Hst Hint Hmax Hok Hend. unfold writeline_buffer. apply yields_bind.
  eapply yields_mono; [apply (ensure_holds ok _ st s); [done|lia|lia|done]|].
  intros st' (Hst' & Hroom & _).
  pose proof (line_scan_spec is_nl content 0 (Z.of_nat len) Hint (scan_fuel content) 0 content
    eq_refl ltac:(unfold scan_fuel; lia) ltac:(done) ltac:(destruct Hend; [left; lia|by right]))
    as Hscan.
  change (Z.of_nat 0) with 0 in Hscan. rewrite Z.sub_0_r, Nat2Z.id, Nat.add_0_l in Hscan.
  rewrite Hscan. fold line. ok_simpl. rewrite (holds_buf _ _ Hst'), (holds_off _ _ Hst').
  simpl deref. ok_simpl.
  pose proof (until_length is_nl (take len content)) as Hl. fold line in Hl.
  rewrite length_take in Hl.
  rewrite (append_step _ _ content line); [|lia..|].
  2:{ rewrite Nat2Z.id. change (Z.to_nat 0) with 0%nat. rewrite drop_0. unfold line at 1.
      rewrite until_prefix, take_take. f_equal. fold line. lia. }
  ok_simpl. cbn [yields fst snd]. split; [done|]. rewrite u64_small by cint_lia.
  apply (holds_append st'); [done|lia|done].
Qed.

Lemma writeline_buffer_line_witness :
  writeline_buffer ample (bytes_of "one" ++ x0a :: bytes_of "two") 100 fresh_buffer ⇓ λ r,
    r.1 = 3 ∧ holds r.2 (bytes_of "one").
Proof.
  apply (writeline_buffer_line ample fresh_buffer [] (bytes_of "one" ++ x0a :: bytes_of "two") 100);
    [apply holds_fresh|by vm_compute|by vm_compute|done|right; apply (bool_decide_unpack _); by vm_compute].
Defined.
