(* ===== verification/File.v ===== *)
(** Files as the worker sees them ([src/file.c]): descriptors, mappings, and
    what the process holds of them. *)

From S2P Require Import Prelude CInt.
Local Open Scope Z_scope.

(** ** The operating system *)

(** What the calls return: [fstat] the size of the file, [mmap] the memory of
    a mapping, [munmap] its success. *)
Record os := Os {
  os_fstat : Z → option Z;
  os_mmap : Z → Z → option (list byte);
  os_munmap : Z → bool;
}.

(** Documented behaviour of [mmap]: the mapping holds the file, followed by
    zeros up to the end of the page. *)
Definition mmap_law (o : os) (fd : Z) (content pad : list byte) : Prop :=
  os_fstat o fd = Some (Z.of_nat (length content)) ∧
  os_mmap o fd (Z.of_nat (length content)) = Some (content ++ pad) ∧
  Forall (λ c, c = x00) pad ∧ os_munmap o (Z.of_nat (length content)) = true.

(** The same when each of the calls may also fail, if [flaky] holds. *)
Definition mmap_may (flaky : Prop) (o : os) (fd : Z) (content pad : list byte) : Prop :=
  (os_fstat o fd = Some (Z.of_nat (length content)) ∨ flaky ∧ os_fstat o fd = None) ∧
  (os_mmap o fd (Z.of_nat (length content)) = Some (content ++ pad) ∨
   flaky ∧ os_mmap o fd (Z.of_nat (length content)) = None) ∧
  Forall (λ c, c = x00) pad ∧ (os_munmap o (Z.of_nat (length content)) = true ∨ flaky).

(** ** State *)

(** [fileinfo]; its [rb] is not used. *)
Record fileinfo := FileInfo {
  fd : Z;
  filename : list byte;
  pmap : option (list byte);
  size : Z;
}.

(** What the process holds: open descriptors, mappings, and file names that
    have been duplicated and not freed; and what it has printed. *)
Record proc := Proc {
  open_fds : gset Z;
  mappings : nat;
  live_names : list (list byte);
  stdout : list (list byte);
}.

(** [close]. *)
Definition close (n : Z) : M proc unit := λ p,
  Ok (tt, Proc (open_fds p ∖ {[n]}) (mappings p) (live_names p) (stdout p)).

(** [die]: print and [exit(1)]. *)
Definition die {A} : M proc A := fail (Exited 1).

(** A mapping made and one removed. *)
Definition mapped : M proc unit := λ p,
  Ok (tt, Proc (open_fds p) (S (mappings p)) (live_names p) (stdout p)).
Definition unmapped : M proc unit := λ p,
  Ok (tt, Proc (open_fds p) (pred (mappings p)) (live_names p) (stdout p)).

(** [fprintf(stdout, ...)]. *)
Definition print (bs : list byte) : M proc unit := λ p,
  Ok (tt, Proc (open_fds p) (mappings p) (live_names p) (stdout p ++ [bs])).

(** Remove one element of a list. *)
Fixpoint remove_one {A} `{EqDecision A} (x : A) (l : list A) : list A :=
  match l with
  | [] => []
  | y :: l' => if decide (x = y) then l' else y :: remove_one x l'
  end.

(** [free(fi.filename)] of a name made by [strndup]. *)
Definition free_name (name : list byte) : M proc unit := λ p,
  if bool_decide (name ∈ live_names p) then
    Ok (tt, Proc (open_fds p) (mappings p) (remove_one name (live_names p)) (stdout p))
  else Fail UseAfterFree.

(** [strndup] of a path, stored in a new [fileinfo]. *)
Definition dup_name (name : list byte) : M proc unit := λ p,
  Ok (tt, Proc (open_fds p) (mappings p) (name :: live_names p) (stdout p)).

(** ** Operations *)

(** [map_file]: the mapping, or NULL for an empty file. *)
Definition map_file (o : os) (fi : fileinfo) : M proc (option (list byte) * fileinfo) :=
  lift (check (bool_decide (fd fi ≠ 0)) AssertionFailed);;
  match os_fstat o (fd fi) with
  | None => close (fd fi);; die
  | Some st_size =>
      if bool_decide (st_size ≤ 0) then mret (None, fi)
      else match os_mmap o (fd fi) st_size with
           | None => close (fd fi);; die
           | Some mem =>
               mapped;;
               mret (Some mem, FileInfo (fd fi) (filename fi) (Some mem) st_size)
           end
  end.

(** [unmap_file]; it always returns true. *)
Definition unmap_file (o : os) (fi : fileinfo) : M proc (bool * fileinfo) :=
  lift (check (bool_decide (is_Some (pmap fi))) AssertionFailed);;
  (if bool_decide (size fi ≠ 0) then
     if os_munmap o (size fi) then unmapped else die
   else mret tt);;
  close (fd fi);;
  mret (true, FileInfo (fd fi) (filename fi) None 0).

(** [inbound]: a stub that accepts every position. *)
Definition inbound (pos : Z) : bool := true.

(** ** Facts *)

Lemma wp_close n Q p :
  Q tt (Proc (open_fds p ∖ {[n]}) (mappings p) (live_names p) (stdout p)) → wp (close n) Q p.
Proof. done. Qed.

Lemma wp_print bs Q p :
  Q tt (Proc (open_fds p) (mappings p) (live_names p) (stdout p ++ [bs])) → wp (print bs) Q p.
Proof. done. Qed.

Lemma wp_free_name name Q p :
  name ∈ live_names p →
  Q tt (Proc (open_fds p) (mappings p) (remove_one name (live_names p)) (stdout p)) →
  wp (free_name name) Q p.
Proof. intros Hn HQ. unfold wp, free_name. by rewrite bool_decide_true. Qed.

Lemma wp_map_file o content pad fi Q p :
  mmap_law o (fd fi) content pad → fd fi ≠ 0 → content ≠ [] →
  Q (Some (content ++ pad),
     FileInfo (fd fi) (filename fi) (Some (content ++ pad)) (Z.of_nat (length content)))
    (Proc (open_fds p) (S (mappings p)) (live_names p) (stdout p)) →
  wp (map_file o fi) Q p.
Proof.
  intros (Hstat & Hmap & _) Hfd Hc HQ. unfold map_file. rewrite bool_decide_true by done.
  apply wp_bind, wp_lift. cbn [check yields]. rewrite Hstat.
  assert (0 < length content)%nat by (destruct content; cbn; [done|lia]).
  rewrite bool_decide_false by lia. rewrite Hmap. by apply wp_bind.
Qed.

Lemma wp_map_file_empty o pad fi Q p :
  mmap_law o (fd fi) [] pad → fd fi ≠ 0 → Q (None, fi) p → wp (map_file o fi) Q p.
Proof.
  intros (Hstat & _) Hfd HQ. unfold map_file. rewrite bool_decide_true by done.
  apply wp_bind, wp_lift. cbn [check yields].
  rewrite Hstat, bool_decide_true by (cbn; lia). exact HQ.
Qed.

Lemma wp_unmap_file o content pad fi Q p :
  mmap_law o (fd fi) content pad → content ≠ [] → is_Some (pmap fi) →
  size fi = Z.of_nat (length content) →
  Q (true, FileInfo (fd fi) (filename fi) None 0)
    (Proc (open_fds p ∖ {[fd fi]}) (pred (mappings p)) (live_names p) (stdout p)) →
  wp (unmap_file o fi) Q p.
Proof.
  intros (_ & _ & _ & Hun) Hc Hp Hs HQ. unfold unmap_file. rewrite (bool_decide_true (is_Some (pmap fi))) by done.
  apply wp_bind, wp_lift. cbn [check yields]. rewrite Hs.
  assert (0 < length content)%nat by (destruct content; cbn; [done|lia]).
  rewrite bool_decide_true by lia. rewrite Hun. apply wp_bind. by apply wp_bind.
Qed.

(** What the operations do when a call may fail: what they should, or [die]. *)
Lemma map_file_runs flaky o content pad fi p :
  mmap_may flaky o (fd fi) content pad → fd fi ≠ 0 →
  flaky ∧ map_file o fi p = Fail (Exited 1) ∨
  map_file o fi p =
    if decide (content = []) then Ok ((None, fi), p)
    else Ok ((Some (content ++ pad),
              FileInfo (fd fi) (filename fi) (Some (content ++ pad)) (Z.of_nat (length content))),
             Proc (open_fds p) (S (mappings p)) (live_names p) (stdout p)).
Proof.
  intros (Hstat & Hmap & _) Hfd. unfold map_file. rewrite bool_decide_true by done.
  unfold check, lift, mbind, M_bind. destruct Hstat as [-> |[? ->]]; [|by left].
  case_decide as Hc; [subst content; by right|].
  assert (0 < length content)%nat by (destruct content; cbn; [done|lia]).
  rewrite bool_decide_false by lia. destruct Hmap as [-> |[? ->]]; [by right|by left].
Qed.

Lemma unmap_file_runs flaky o content pad fi p :
  mmap_may flaky o (fd fi) content pad → content ≠ [] → is_Some (pmap fi) →
  size fi = Z.of_nat (length content) →
  flaky ∧ unmap_file o fi p = Fail (Exited 1) ∨
  unmap_file o fi p = Ok ((true, FileInfo (fd fi) (filename fi) None 0),
    Proc (open_fds p ∖ {[fd fi]}) (pred (mappings p)) (live_names p) (stdout p)).
Proof.
  intros (_ & _ & _ & Hun) Hc Hp Hs. unfold unmap_file. rewrite (bool_decide_true (is_Some (pmap fi))) by done.
  assert (0 < length content)%nat by (destruct content; cbn; [done|lia]).
  rewrite Hs, bool_decide_true by lia. unfold check, lift, mbind, M_bind.
  destruct Hun as [-> |?]; [by right|]. destruct (os_munmap o _); [by right|by left].
Qed.
