(* ===== verification/Options.v ===== *)
(** The command line ([src/options.c]): [parse_options] over the results of
    [getopt_long], and what it leaves in [opt]. *)

From S2P Require Import Prelude CInt.
Local Open Scope Z_scope.

(** ** Data *)

(** [cli_options] ([src/options.h]); pointers to strings are NULL or a
    string. *)
Record cli_options := CliOptions {
  str_matching_algo : Z;
  search_pattern : option (list byte);
  search_patlen : Z;
  input_file : option (list byte);
  input_dirs : option (list (list byte));
  list_matching_files : bool;
}.

(** The global [opt] before [main]. *)
Definition opt_initial : cli_options := CliOptions 0 None 0 None None false.

Definition SM_ALGO_KMP : Z := 0.

(** A row of [longopts]: the name, or NULL in the row of zeros that is to end
    such a table; whether [has_arg] is [required_argument]; whether [flag] points
    to [opt.str_matching_algo]; and [val]. *)
Record longopt := LongOpt { lo_name : option (list byte); lo_arg : bool; lo_flag : bool; lo_val : Z }.

(** The table of the program; it has no row of zeros. *)
Definition longopts : list longopt :=
  [LongOpt (Some (bytes_of "kmp")) false true 0; LongOpt (Some (bytes_of "file")) true false 0].

(** The short options. *)
Definition optstring : list byte := bytes_of "l".

(** What [parse_options] prints on the way. *)
Inductive message :=
  | FileListOnly
  | UsingKMP
  | SearchFor (pattern : list byte) (len : Z)
  | DefaultDirectory.

(** The text of a message. [search_patlen] is an [int], and [%zd] asks for a
    [ssize_t]: [zd] is what is printed for it. *)
Definition message_text (zd : Z → list byte) (m : message) : list byte :=
  match m with
  | FileListOnly => bytes_of "print file list only" ++ [x0a]
  | UsingKMP => bytes_of "using KMP algorithm" ++ [x0a]
  | SearchFor pattern len =>
      bytes_of "search for " ++ x22 :: pattern ++ x22 :: bytes_of "-" ++ zd len ++ [x0a]
  | DefaultDirectory => bytes_of "default in current directory" ++ [x0a]
  end.

(** ** [getopt_long]

    The function of the C library, for the arguments that [parse_options] gives
    it, when POSIXLY_CORRECT is not set. *)

(** An option on the command line: a character of a word that begins with one
    dash; the name that follows two dashes, with the argument after an equals sign
    or, for an option that asks for one, in the next word. *)
Inductive cli_item :=
  | Short (c : byte)
  | Long (name : list byte) (arg : option (list byte)).

(** The characters before the first equals sign, and those after it. *)
Fixpoint split_equals (w : list byte) : list byte * option (list byte) :=
  match w with
  | [] => ([], None)
  | c :: w' =>
      if bool_decide (c = x3d) then ([], Some w')
      else let r := split_equals w' in (c :: fst r, snd r)
  end.

(** The options, the words that they take, and the operands: the words go on
    being looked at after an operand, and two dashes end the options. *)
Record scanned := Scanned {
  sc_items : list cli_item;
  sc_taken : list (list byte);
  sc_operands : list (list byte);
}.

Definition takes (items : list cli_item) (ws : list (list byte)) (r : scanned) : scanned :=
  Scanned (items ++ sc_items r) (ws ++ sc_taken r) (sc_operands r).

Definition needs_argument (name : list byte) : bool :=
  existsb (λ lo, bool_decide (lo_name lo = Some name) && lo_arg lo) longopts.

Fixpoint scan_words (args : list (list byte)) : scanned :=
  match args with
  | [] => Scanned [] [] []
  | w :: args' =>
      match w with
      | x2d :: x2d :: [] => Scanned [] [w] args'
      | x2d :: x2d :: body =>
          let (name, arg) := split_equals body in
          match arg, args' with
          | None, a :: args'' =>
              if needs_argument name then takes [Long name (Some a)] [w; a] (scan_words args'')
              else takes [Long name None] [w] (scan_words args')
          | _, _ => takes [Long name arg] [w] (scan_words args')
          end
      | x2d :: c :: cs => takes (Short <$> c :: cs) [w] (scan_words args')
      | _ => let r := scan_words args' in Scanned (sc_items r) (sc_taken r) (w :: sc_operands r)
      end
  end.

(** A run of [getopt_long] over a command line: the options that its calls find,
    the permuted [argv], in which the operands come last, and the final [optind]. *)
Record getopt_run := GetoptRun {
  g_items : list cli_item;
  g_argv : list (list byte);
  g_optind : nat;
}.

Definition getopt (argv : list (list byte)) : getopt_run :=
  match argv with
  | [] => GetoptRun [] [] 1
  | name :: args =>
      let r := scan_words args in
      GetoptRun (sc_items r) (name :: sc_taken r ++ sc_operands r) (S (length (sc_taken r)))
  end.

(** What one call of [getopt_long] returns and stores: the character, the
    index it stores through [&opt_idx] (only for a long option), and
    [optarg]. *)
Record getopt_ret := GetoptRet {
  g_ch : Z;
  g_idx : option Z;
  g_optarg : option (list byte);
}.

(** The row of a name: the rows are looked at in their order, until one has the
    name or is the row of zeros, and there is nothing to stop at the end of the
    table. Names may be abbreviated, but only a search that has come to the row
    of zeros can tell. *)
Fixpoint find_long (rows : list longopt) (name : list byte) (i : Z) : outcome (option Z) :=
  match rows with
  | [] => Fail OutOfBounds
  | lo :: rows' =>
      match lo_name lo with
      | None => Ok None
      | Some n => if bool_decide (n = name) then Ok (Some i) else find_long rows' name (i + 1)
      end
  end.

(** A call of [getopt_long] that finds the option [it]. *)
Definition getopt_long (it : cli_item) : outcome getopt_ret :=
  let unknown := GetoptRet 63 None None in
  match it with
  | Short c => Ok (if bool_decide (c ∈ optstring) then GetoptRet (Z.of_nat (u8 c)) None None else unknown)
  | Long name arg =>
      r ← find_long longopts name 0;
      match r with
      | None => Ok unknown
      | Some i =>
          lo ← rd longopts i;
          if bool_decide (lo_arg lo = bool_decide (is_Some arg))
          then Ok (GetoptRet (if lo_flag lo then 0 else lo_val lo) (Some i) arg)
          else Ok unknown
      end
  end.

(** ** The loop *)

Record parse_state := ParseState {
  ps_opt : cli_options;
  ps_idx : option Z;  (** [opt_idx], which is not initialised *)
  ps_out : list message;
}.

Definition set_algo (o : cli_options) (v : Z) : cli_options :=
  CliOptions v (search_pattern o) (search_patlen o) (input_file o) (input_dirs o)
    (list_matching_files o).
Definition set_file (o : cli_options) (f : option (list byte)) : cli_options :=
  CliOptions (str_matching_algo o) (search_pattern o) (search_patlen o) f (input_dirs o)
    (list_matching_files o).
Definition set_list (o : cli_options) : cli_options :=
  CliOptions (str_matching_algo o) (search_pattern o) (search_patlen o) (input_file o)
    (input_dirs o) true.

(** [print_usage] ends with [exit(1)]. *)
Definition print_usage {A} : outcome A := Fail (Exited 1).

(** What [getopt_long] does to the variables it was given pointers to. *)
Definition getopt_stores (g : getopt_ret) (s : parse_state) : outcome parse_state :=
  match g_idx g with
  | None => Ok s
  | Some i =>
      lo ← rd longopts i;
      Ok (ParseState (if lo_flag lo then set_algo (ps_opt s) (lo_val lo) else ps_opt s)
            (Some i) (ps_out s))
  end.

(** [case 0:]. *)
Definition case_long (g : getopt_ret) (s : parse_state) : outcome parse_state :=
  i ← match ps_idx s with Some i => Ok i | None => Fail Uninitialised end;
  lo ← rd longopts i;
  name ← match lo_name lo with Some n => Ok n | None => Fail NullPointer end;
  if bool_decide (name = bytes_of "file") then
    Ok (ParseState (set_file (ps_opt s) (g_optarg g)) (ps_idx s) (ps_out s))
  else if bool_decide (str_matching_algo (ps_opt s) = SM_ALGO_KMP) then
    Ok (ParseState (ps_opt s) (ps_idx s) (ps_out s ++ [UsingKMP]))
  else Ok s.

(** One iteration; [case 'l'] has no [break] and goes on into [case 0]. *)
Definition parse_step (it : cli_item) (s : parse_state) : outcome parse_state :=
  g ← getopt_long it;
  s ← getopt_stores g s;
  if bool_decide (g_ch g = 63) then print_usage
  else if bool_decide (g_ch g = 108) then
    case_long g (ParseState (set_list (ps_opt s)) (ps_idx s) (ps_out s ++ [FileListOnly]))
  else if bool_decide (g_ch g = 0) then case_long g s
  else print_usage.

Fixpoint parse_loop (its : list cli_item) (s : parse_state) : outcome parse_state :=
  match its with
  | [] => Ok s
  | it :: its' => s' ← parse_step it s; parse_loop its' s'
  end.

(** ** After the loop *)

Definition parse_options (g : getopt_run) (o : cli_options) : outcome (cli_options * list message) :=
  s ← parse_loop (g_items g) (ParseState o None []);
  let o := ps_opt s in
  if bool_decide (length (g_argv g) ≤ g_optind g)%nat then print_usage
  else
    pattern ← rd (g_argv g) (Z.of_nat (g_optind g));
    let optind := S (g_optind g) in
    let patlen := to_int (Z.of_nat (length pattern)) in
    let dirs := if bool_decide (optind < length (g_argv g))%nat
                then Some (drop optind (g_argv g)) else input_dirs o in
    let o := CliOptions (str_matching_algo o) (Some pattern) patlen (input_file o) dirs
               (list_matching_files o) in
    let out := ps_out s ++ [SearchFor pattern patlen] in
    match input_file o, dirs with
    | None, None => Ok (o, out ++ [DefaultDirectory])
    | _, _ => Ok (o, out)
    end.

(** ** What is on a command line *)

(** The options of the program. [Unknown] is a short option that is not one of
    them, or a long one without its argument or with one that it does not take;
    [Unlisted] a long option that is not one of them. *)
Inductive cli_word :=
  | Kmp
  | FileName (name : list byte)
  | ListFiles
  | Unknown
  | Unlisted.

#[export] Instance cli_word_eq_dec : EqDecision cli_word.
Proof. solve_decision. Defined.

Definition word_of (it : cli_item) : cli_word :=
  match it with
  | Short c => if bool_decide (c = x6c) then ListFiles else Unknown
  | Long name arg =>
      if bool_decide (name = bytes_of "kmp") then match arg with None => Kmp | Some _ => Unknown end
      else if bool_decide (name = bytes_of "file") then
        match arg with Some f => FileName f | None => Unknown end
      else Unlisted
  end.

(** The fault that ends the loop: the first unknown option ends the program
    with the usage text; a long option that is not in the table is looked for past
    the end of the table; a [-l] before any long option ([long] is false) reads
    [opt_idx] before something has been stored in it. *)
Fixpoint loop_fault (long : bool) (ws : list cli_word) : option fault :=
  match ws with
  | [] => None
  | Unknown :: _ => Some (Exited 1)
  | Unlisted :: _ => Some OutOfBounds
  | ListFiles :: ws' => if long then loop_fault long ws' else Some Uninitialised
  | (Kmp | FileName _) :: ws' => loop_fault true ws'
  end.

Definition names_file (w : cli_word) : bool := match w with FileName _ => true | _ => false end.

(** The next option is [-l]. *)
Definition list_next (ws : list cli_word) : bool :=
  match ws with ListFiles :: _ => true | _ => false end.

(** The file that the options leave: that of the last [--file], unless [-l]
    comes right after it. *)
Fixpoint file_left (ws : list cli_word) : option (list byte) :=
  match ws with
  | [] => None
  | FileName name :: ws' =>
      if existsb names_file ws' then file_left ws' else if list_next ws' then None else Some name
  | _ :: ws' => file_left ws'
  end.

(** The messages of the options: [-l] repeats that of the last long option,
    which is [--kmp] when [kmp] is true. *)
Fixpoint said (kmp : bool) (ws : list cli_word) : list message :=
  match ws with
  | [] => []
  | Kmp :: ws' => UsingKMP :: said true ws'
  | FileName _ :: ws' => said false ws'
  | ListFiles :: ws' => FileListOnly :: (if kmp then [UsingKMP] else []) ++ said kmp ws'
  | (Unknown | Unlisted) :: ws' => said kmp ws'
  end.

(** ** Facts *)

(** The file after the options [ws], when it was [f] before, and the last long
    option before them was [--kmp], if [kmp] is true, or [--file]. *)
Definition file_after (kmp : bool) (f : option (list byte)) (ws : list cli_word) : option (list byte) :=
  if existsb names_file ws then file_left ws else if negb kmp && list_next ws then None else f.

(** What an iteration does for an option. *)
Lemma parse_step_word it o idx out :
  str_matching_algo o = 0 → (idx = Some 0 ∨ idx = Some 1 ∨ idx = None) →
  parse_step it (ParseState o idx out) =
    match word_of it with
    | Kmp => Ok (ParseState o (Some 0) (out ++ [UsingKMP]))
    | FileName name => Ok (ParseState (set_file o (Some name)) (Some 1) out)
    | ListFiles =>
        match idx with
        | None => Fail Uninitialised
        | Some i => if bool_decide (i = 1)
            then Ok (ParseState (set_file (set_list o) None) idx (out ++ [FileListOnly]))
            else Ok (ParseState (set_list o) idx ((out ++ [FileListOnly]) ++ [UsingKMP]))
        end
    | Unknown => Fail (Exited 1)
    | Unlisted => Fail OutOfBounds
    end.
Proof.
  destruct o as [a p l fl ds lf]. cbn [str_matching_algo]. intros -> Hidx.
  unfold parse_step, getopt_long, word_of. destruct it as [c|name arg].
  - destruct (decide (c = x6c)) as [->|Hc].
    + destruct Hidx as [->|[->| ->]]; reflexivity.
    + rewrite (bool_decide_false (c = x6c)) by done. rewrite bool_decide_false; [done|].
      intros [?|?%elem_of_nil]%elem_of_cons; done.
  - destruct (decide (name = bytes_of "kmp")) as [->|Hk]; [by destruct arg|].
    destruct (decide (name = bytes_of "file")) as [->|Hf]; [by destruct arg|].
    cbn [find_long longopts lo_name]. rewrite (bool_decide_false (_ = name)) by done.
    rewrite (bool_decide_false (_ = name)) by done. rewrite (bool_decide_false (name = _)) by done.
    by rewrite (bool_decide_false (name = _)) by done.
Qed.

Lemma file_after_kmp kmp f ws : file_after kmp f (Kmp :: ws) = file_after true f ws.
Proof. unfold file_after. cbn. by rewrite andb_false_r. Qed.

Lemma file_left_none ws : existsb names_file ws = false → file_left ws = None.
Proof. induction ws as [|[] ws IH]; cbn; done || auto. Qed.

Lemma file_after_name kmp f name ws : file_after kmp f (FileName name :: ws) = file_after false (Some name) ws.
Proof. done. Qed.

Lemma file_after_list kmp f ws :
  file_after kmp f (ListFiles :: ws) = file_after kmp (if kmp then f else None) ws.
Proof. unfold file_after. cbn. destruct (existsb names_file ws), kmp, (list_next ws); done. Qed.

(** The loop, once a long option has been seen. *)
Lemma parse_loop_long its : ∀ kmp o out,
  let ws := word_of <$> its in
  str_matching_algo o = 0 →
  match loop_fault true ws with
  | Some f => parse_loop its (ParseState o (Some (if kmp : bool then 0 else 1)) out) = Fail f
  | None => ∃ idx, parse_loop its (ParseState o (Some (if kmp : bool then 0 else 1)) out) =
      Ok (ParseState (CliOptions 0 (search_pattern o) (search_patlen o)
        (file_after kmp (input_file o) ws) (input_dirs o)
        (list_matching_files o || bool_decide (ListFiles ∈ ws))) idx (out ++ said kmp ws))
  end.
Proof.
  induction its as [|it its IH]; intros kmp o out ws Halgo.
  { eexists. cbn [parse_loop said ws fmap list_fmap]. rewrite app_nil_r.
    rewrite bool_decide_false by apply not_elem_of_nil. rewrite orb_false_r. unfold file_after. cbn.
    rewrite andb_false_r. destruct o. cbn in *. by rewrite Halgo. }
  cbn [parse_loop]. unfold ws. rewrite fmap_cons. clear ws. set (ws := word_of <$> its) in *.
  rewrite parse_step_word by (first [done|destruct kmp; auto]).
  destruct (word_of it) as [|name| | |]; cbn [loop_fault]; [| | |done|done]; ok_simpl.
  - specialize (IH true o (out ++ [UsingKMP]) Halgo). fold ws in IH. cbv zeta in IH. destruct (loop_fault true ws); [done|].
    destruct IH as [idx ->]. exists idx. rewrite <-app_assoc, file_after_kmp. do 4 f_equal.
    f_equal. by apply bool_decide_ext; set_solver.
  - specialize (IH false (set_file o (Some name)) out Halgo). fold ws in IH. cbv zeta in IH. destruct (loop_fault true ws); [done|].
    destruct IH as [idx ->]. exists idx. rewrite file_after_name. cbn. do 3 f_equal.
    f_equal. by apply bool_decide_ext; set_solver.
  - rewrite (bool_decide_true (ListFiles ∈ _)) by by left. rewrite orb_true_r, file_after_list.
    destruct kmp; cbn [said]; [rewrite bool_decide_false by done|rewrite bool_decide_true by done]; ok_simpl;
      [specialize (IH true (set_list o) ((out ++ [FileListOnly]) ++ [UsingKMP]) Halgo)|
       specialize (IH false (set_file (set_list o) None) (out ++ [FileListOnly]) Halgo)]; fold ws in IH; cbv zeta in IH;
      (destruct (loop_fault true ws); [done|]); destruct IH as [idx ->]; exists idx; by rewrite <-!app_assoc.
Qed.

(** The whole loop: until there is a long option, [-l] is not allowed. *)
Lemma parse_loop_words its out :
  let ws := word_of <$> its in
  match loop_fault false ws with
  | Some f => parse_loop its (ParseState opt_initial None out) = Fail f
  | None => ∃ idx, parse_loop its (ParseState opt_initial None out) =
      Ok (ParseState (CliOptions 0 None 0 (file_left ws) None (bool_decide (ListFiles ∈ ws))) idx
        (out ++ said false ws))
  end.
Proof.
  destruct its as [|it its]; intros ws.
  { eexists. cbn. by rewrite app_nil_r. }
  cbn [parse_loop]. unfold ws. rewrite fmap_cons. clear ws. set (ws := word_of <$> its) in *.
  rewrite parse_step_word by auto.
  destruct (word_of it) as [|name| | |]; cbn [loop_fault]; [| |done|done|done]; ok_simpl.
  - pose proof (parse_loop_long its true opt_initial (out ++ [UsingKMP]) eq_refl) as IH.
    fold ws in IH. cbv zeta in IH. destruct (loop_fault true ws); [done|]. destruct IH as [idx ->]. exists idx.
    rewrite <-app_assoc. cbn. do 3 f_equal. f_equal.
    + unfold file_after. destruct (existsb names_file ws) eqn:Hf; [done|]. by rewrite file_left_none by done.
    + by apply bool_decide_ext; set_solver.
  - pose proof (parse_loop_long its false (set_file opt_initial (Some name)) out eq_refl) as IH.
    fold ws in IH. cbv zeta in IH. destruct (loop_fault true ws); [done|]. destruct IH as [idx ->]. exists idx.
    cbn. do 3 f_equal. f_equal. by apply bool_decide_ext; set_solver.
Qed.

(** The pattern and its length. *)
Lemma parse_options_pattern g o r :
  parse_options g o = Ok r →
  ∃ pattern, search_pattern r.1 = Some pattern ∧ search_patlen r.1 = to_int (Z.of_nat (length pattern)).
Proof.
  unfold parse_options. intros (s & _ & Hr)%outcome_bind_Ok. case_bool_decide; [done|].
  apply outcome_bind_Ok in Hr as (pattern & _ & Hr). exists pattern. cbn in Hr.
  repeat case_match; by injection Hr as <-.
Qed.

(** ** The properties *)

(** C33: [parse_options] on every command line, as [getopt_long] takes it apart.
    The first option that ends the loop ends the program: one that is unknown or
    lacks its argument, with the usage text; a [-l] before any long option, which
    reads [opt_idx] before anything has been stored in it; a long option that is not
    in [longopts], which is looked for past the end of that table, since it has no
    row of zeros. Without an operand the program ends too. Otherwise the first operand is
    the pattern, with its length as an [int], the others are the directories, [-l]
    anywhere lists files only, and the file is that of the last [--file], unless
    [-l] comes right after it; what is printed is said too. *)
Theorem parse_options_words name args :
  let r := scan_words args in
  let ws := word_of <$> sc_items r in
  parse_options (getopt (name :: args)) opt_initial =
    match loop_fault false ws, sc_operands r with
    | Some f, _ => Fail f
    | None, [] => Fail (Exited 1)
    | None, pattern :: dirs =>
        let len := to_int (Z.of_nat (length pattern)) in
        let scope := bool_decide (file_left ws = None ∧ dirs = []) in
        Ok (CliOptions 0 (Some pattern) len (file_left ws) (if bool_decide (dirs = []) then None else Some dirs)
              (bool_decide (ListFiles ∈ ws)),
            said false ws ++ SearchFor pattern len :: if scope then [DefaultDirectory] else [])
    end.
Proof.
  intros r ws. unfold parse_options, getopt. fold r. cbn [g_items g_argv g_optind].
  pose proof (parse_loop_words (sc_items r) []) as Hloop. cbv zeta in Hloop. fold ws in Hloop.
  destruct (loop_fault false ws) as [f|]; [by rewrite Hloop|]. destruct Hloop as [idx ->]. ok_simpl. cbn [ps_opt ps_out].
  set (argv := name :: sc_taken r ++ sc_operands r). set (optind := S (length (sc_taken r))).
  assert (drop optind argv = sc_operands r) as Hdrop by apply drop_app_length.
  destruct (sc_operands r) as [|pattern dirs]; pose proof (f_equal length Hdrop) as Hl;
    rewrite length_drop in Hl; cbn [length] in Hl; [by rewrite bool_decide_true by lia|].
  rewrite bool_decide_false by lia.
  assert (argv !! optind = Some pattern) as Hp
    by (rewrite <-(Nat.add_0_r optind), <-lookup_drop, Hdrop; done).
  rewrite (rd_nat _ _ _ Hp). ok_simpl.
  assert (drop (S optind) argv = dirs) as ->
    by (rewrite <-Nat.add_1_r, <-drop_drop, Hdrop; done).
  cbn [str_matching_algo list_matching_files input_file input_dirs app].
  destruct dirs as [|d dirs]; cbn [length] in Hl.
  - rewrite (bool_decide_false (S optind < _)%nat), (bool_decide_true (_ = [])) by first [lia|done].
    destruct (file_left ws); [rewrite (bool_decide_false (_ ∧ _)) by by intros [? _]|rewrite (bool_decide_true (_ ∧ _)) by done];
      by rewrite <-?app_assoc.
  - rewrite (bool_decide_true (S optind < _)%nat), (bool_decide_false (_ = [])) by first [lia|done].
    rewrite (bool_decide_false (_ ∧ _)) by by intros [_ ?].
    by destruct (file_left ws).
Qed.

(** [ss main --kmp -l src]. *)
Example kmp_list :
  parse_options (getopt [bytes_of "ss"; bytes_of "main"; bytes_of "--kmp"; bytes_of "-l"; bytes_of "src"]) opt_initial =
  Ok (CliOptions 0 (Some (bytes_of "main")) 4 None (Some [bytes_of "src"]) true,
      [UsingKMP; FileListOnly; UsingKMP; SearchFor (bytes_of "main") 4]).
Proof. by vm_compute. Qed.

(** [-l] before any long option: the missing [break] leads into
    [case 0], which reads [opt_idx] before anything has been stored in it. *)
Lemma parse_options_list_first its argv optind :
  parse_options (GetoptRun (Short x6c :: its) argv optind) opt_initial = Fail Uninitialised.
Proof. reflexivity. Qed.

(** [--help] and the abbreviation [--fi] are looked for past the end of
    [longopts]. *)
Lemma parse_options_unlisted name arg its argv optind :
  name ≠ bytes_of "kmp" → name ≠ bytes_of "file" →
  parse_options (GetoptRun (Long name arg :: its) argv optind) opt_initial = Fail OutOfBounds.
Proof.
  intros Hk Hf. unfold parse_options. cbn [g_items parse_loop]. rewrite parse_step_word by auto.
  cbn [word_of]. rewrite (bool_decide_false (name = _)) by done.
  by rewrite (bool_decide_false (name = _)) by done.
Qed.

Example unlisted_options :
  parse_options (getopt [bytes_of "ss"; bytes_of "--help"]) opt_initial = Fail OutOfBounds ∧
  parse_options (getopt [bytes_of "ss"; bytes_of "--fi=a.c"; bytes_of "main"]) opt_initial = Fail OutOfBounds.
Proof. by vm_compute. Qed.

(** After [--file], [-l] runs [case 0] for that option once more and loses
    its argument. *)
Example list_loses_file :
  (r ← parse_options (getopt
     [bytes_of "ss"; bytes_of "--file"; bytes_of "a.c"; bytes_of "-l"; bytes_of "main"])
     opt_initial; Ok (input_file r.1)) = Ok None.
Proof. by vm_compute. Qed.

(** [--file] without an argument, a missing pattern, and words after two
    dashes. *)
Example no_argument :
  parse_options (getopt [bytes_of "ss"; bytes_of "main"; bytes_of "--file"]) opt_initial = Fail (Exited 1).
Proof. by vm_compute. Qed.

Example no_pattern :
  parse_options (getopt [bytes_of "ss"; bytes_of "--file=a.c"]) opt_initial = Fail (Exited 1).
Proof. by vm_compute. Qed.

Example dashes :
  (r ← parse_options (getopt [bytes_of "ss"; bytes_of "--"; bytes_of "-l"]) opt_initial;
   Ok (search_pattern r.1)) = Ok (Some (bytes_of "-l")).
Proof. by vm_compute. Qed.
