(* ===== verification/Worker.v ===== *)
(** The search of one file by a worker ([src/thread.c]): the line that holds a
    match, the report appended to the result buffer, and the loop that looks
    for the next match. *)

From S2P Require Import Prelude CInt Match Block Buffer File Options.
Local Open Scope Z_scope.

(** ** State *)

(** The thread's result buffer beside the function-local statics of
    [worker_writebuffer]: [nll], the length of the last line written, and
    [cnt], the number of matches in it. The two statics are one copy for
    all threads. *)
Record worker_state := WorkerState {
  wbuf : bufstate;
  nll : Z;
  cnt : Z;
}.

(** The statics' initial values. *)
Definition worker_initial : worker_state := WorkerState buf_initial 0 0.

(** ** The line of a match *)

(** [while (mid > 0) { if (fb[mid - 1] == '\n') break; mid--; }]. *)
Fixpoint begin_of_line_loop (fuel : nat) (fb : list byte) (mid : Z) : outcome Z :=
  if bool_decide (0 < mid) then
    c ← rd fb (mid - 1);
    if bool_decide (c = newline) then Ok mid
    else match fuel with
         | O => Fail OutOfFuel
         | S fuel' => begin_of_line_loop fuel' fb (mid - 1)
         end
  else Ok mid.

Definition begin_of_line (fb : list byte) (mid : Z) : outcome Z :=
  begin_of_line_loop (Z.to_nat mid) fb mid.

(** [LINUM_COLOR "\n%u:" "\e[0m"]. *)
Definition LINUM_FORMAT : list byte := LINUM_COLOR ++ newline :: bytes_of "%u:" ++ RESET.

(** The limit on the length of a line in the output. *)
Definition LINE_LIMIT : Z := 1024.

(** [patlen] is the [int] [opt.search_patlen], converted to [size_t] by the
    calls; [fb] is the memory from the start of the mapping on. *)
Definition worker_writebuffer (ok : allocator) (patlen : Z) (fb : list byte)
    (pos linum lastlinum : Z) (st : worker_state) : outcome worker_state :=
  bol ← begin_of_line fb pos;
  if bool_decide (linum ≠ lastlinum) then
    r ← writef_buffer ok LINUM_FORMAT linum (wbuf st);
    r ← writeline_color_buffer ok (drop (Z.to_nat bol) fb) LINE_LIMIT (u32 (pos - bol))
          (u64 patlen) (snd r);
    Ok (WorkerState (snd r) (fst r) 1)
  else
    r ← amendline_color_buffer ok (nll st) (u32 (pos - bol)) (u64 patlen) (cnt st) (wbuf st);
    c ← int_add (cnt st) 1;
    Ok (WorkerState (snd r) (u64 (nll st + fst r)) c).

(** ** The loop over the matches of a file *)

(** [while (1)]: [startpos], [linum] and [lastlinum] are [uint32_t];
    [worker_writebuffer] receives [lastlinum] by value. *)
Fixpoint search_loop (fuel : nat) (ok : allocator) (kst : kmp_state) (patlen : Z)
    (fb : list byte) (size startpos linum0 lastlinum : Z) (st : worker_state)
    : outcome worker_state :=
  r ← kmp_match kst (drop (Z.to_nat startpos) fb) (u64 (size - startpos)) linum0;
  if matched r then
    st ← worker_writebuffer ok patlen fb (u32 (matchpos r + startpos)) (linum r) lastlinum st;
    match fuel with
    | O => Fail OutOfFuel
    | S fuel' =>
        search_loop fuel' ok kst patlen fb size
          (u32 (startpos + u32 (matchpos r + u32 patlen))) (linum r) lastlinum st
    end
  else Ok st.

(** A match is never empty: a file has at most [size] of them. *)
Definition search_file (ok : allocator) (kst : kmp_state) (patlen : Z) (fb : list byte)
    (size : Z) (st : worker_state) : outcome worker_state :=
  search_loop (Z.to_nat size) ok kst patlen fb size 0 1 0 st.

(** ** One iteration of [worker_thread] *)

(** [fprintf(stdout, FNAME_COLOR "%s" "\e[0m\n", fi.filename)]. *)
Definition filename_line (name : list byte) : list byte :=
  FNAME_COLOR ++ name ++ RESET ++ [newline].

(** What follows [read] in the loop of [worker_thread], for a [fileinfo] that
    has been received; [continue] is the end of the iteration. *)
Definition worker_file (o : os) (ok : allocator) (opt : cli_options) (kst : kmp_state)
    (fi : fileinfo) (st : worker_state) : M proc worker_state :=
  r ← map_file o fi;
  let fi := snd r in
  match fst r with
  | None => close (fd fi);; mret st
  | Some fb =>
      st ← lift (search_file ok kst (search_patlen opt) fb (size fi) st);
      (if bool_decide (off (wbuf st) ≠ 0) then
         print (filename_line (filename fi));;
         (if list_matching_files opt then mret tt
          else s ← lift (blk ← deref (read_buffer (wbuf st)); c_string blk);
               print (s ++ [newline]));;
         free_name (filename fi)
       else mret tt);;
      b ← lift (reset_buffer ok (wbuf st));
      unmap_file o fi;;
      mret (WorkerState b (nll st) (cnt st))
  end.

(** The files that one worker receives, in their order. *)
Fixpoint worker_files (o : os) (ok : allocator) (opt : cli_options) (kst : kmp_state)
    (fis : list fileinfo) (st : worker_state) : M proc worker_state :=
  match fis with
  | [] => mret st
  | fi :: fis' => st' ← worker_file o ok opt kst fi st; worker_files o ok opt kst fis' st'
  end.

(** [worker_thread] of the thread [tid]: prepare, handle the files, finish.
    The pipe hands it [fis]; the thread-local statics are in their initial
    state; [result] holds the pairs of descriptors of that name. *)
Definition worker_thread (o : os) (ok : allocator) (mem_ok : bool) (opt : cli_options)
    (result : list (Z * Z)) (tid : nat) (fis : list fileinfo)
    : M proc (kmp_state * worker_state) :=
  b ← lift (init_buffer ok buf_initial);
  kst ← lift (pattern ← match search_pattern opt with
                        | Some p => Ok p
                        | None => Fail NullPointer
                        end;
              kmp_prepare mem_ok pattern (u64 (search_patlen opt)) kmp_initial);
  st ← worker_files o ok opt kst fis (WorkerState b (nll worker_initial) (cnt worker_initial));
  r ← lift (rd result (Z.of_nat tid));
  close (snd r);;
  mret (kmp_finish kst, WorkerState (destroy_buffer (wbuf st)) (nll st) (cnt st)).
