(* ===== verification/WorkerSpec.v ===== *)
(** What a worker reports for one file: the leftmost non-overlapping
    occurrences of the pattern, each on a line of its own. *)

From S2P Require Import Prelude CInt Match MatchSpec Block Buffer BufferSpec Worker.

(** ** Reference definitions *)

(** The leftmost occurrence from [start] on, then the leftmost one after its
    end, and so on. *)
Fixpoint matches_from (fuel : nat) (P T : list byte) (start : nat) : list nat :=
  match naive_search P (drop start T) with
  | None => []
  | Some s =>
      match fuel with
      | O => []
      | S fuel' => (start + s) :: matches_from fuel' P T (start + s + length P)
      end
  end.

Definition matches (P T : list byte) : list nat := matches_from (length T) P T 0.

(** Where the line of position [m] starts. *)
Fixpoint line_start (T : list byte) (m : nat) : nat :=
  match m with
  | O => O
  | S m' => if decide (T !! m' = Some newline) then m else line_start T m'
  end.

(** The text appended for a match at [m] to which the matcher gives the line
    [l]. *)
Definition report (P mem : list byte) (m : nat) (l : Z) : list byte :=
  LINUM_COLOR ++ newline :: decimal l ++ bytes_of ":" ++ RESET ++
  colored (drop (line_start mem m) mem) 1024 (m - line_start mem m) (length P).

(** A match that ends in the first 1024 columns of its line, and whose line
    has an end that can be read. *)
Definition reportable (P mem : list byte) (m : nat) : Prop :=
  m + length P - line_start mem m ≤ 1024 ∧
  Exists (λ c, is_nl_or_nul c = true) (drop (m + length P) mem).

#[export] Instance reportable_dec P mem m : Decision (reportable P mem m).
Proof. unfold reportable. apply _. Defined.

(** What can be said of the matches [ms] that the worker finds, each with the
    line that it gives it: they are occurrences, in order and disjoint, with
    lines that do not decrease; for an adequate pattern they are the reference
    matches; for a line-exact one the line is that of the last character. *)
Record hits (P T : list byte) (ms : list (nat * Z)) : Prop := {
  hits_sound (i m : nat) (l : Z) : ms !! i = Some (m, l) →
    occurs_at P T m ∧ (1 ≤ l)%Z ∧
    ∀ (m2 : nat) (l2 : Z), ms !! S i = Some (m2, l2) → m + length P ≤ m2 ∧ (l ≤ l2)%Z;
  hits_first : adequate P → ms.*1 = matches P T;
  hits_lines : line_exact P → Forall (λ x : nat * Z,
    x.2 = (1 + Z.of_nat (count_nl (take (x.1 + length P) T)))%Z) ms;
}.

(** ** The start of the line *)

Lemma line_start_le T m : line_start T m ≤ m.
Proof. induction m as [|m IH]; cbn [line_start]; [lia|]. case_decide; lia. Qed.

Lemma line_start_no_newline T m i :
  line_start T m ≤ i < m → T !! i ≠ Some newline.
Proof.
  induction m as [|m IH]; cbn [line_start]; [lia|]. case_decide as Hm; [lia|].
  intros Hi. destruct (decide (i = m)) as [->|]; [done|]. apply IH. lia.
Qed.

Lemma line_start_after_newline T m :
  0 < line_start T m → T !! (line_start T m - 1) = Some newline.
Proof.
  induction m as [|m IH]; cbn [line_start]; [lia|]. case_decide as Hm; [|done].
  intros _. by replace (S m - 1) with m by lia.
Qed.

Local Open Scope Z_scope.

Lemma begin_of_line_loop_spec fuel fb (m : nat) :
  (m ≤ fuel)%nat → (m ≤ length fb)%nat →
  begin_of_line_loop fuel fb (Z.of_nat m) = Ok (Z.of_nat (line_start fb m)).
Proof.
  revert m. induction fuel as [|fuel IH]; intros [|m] Hf Hm; try done; [lia|].
  cbn [begin_of_line_loop line_start]. rewrite bool_decide_true by lia.
  replace (Z.of_nat (S m) - 1) with (Z.of_nat m) by lia.
  destruct (lookup_lt_is_Some_2 fb m) as [c Hc]; [lia|].
  rewrite (rd_nat _ _ _ Hc), Hc. ok_simpl.
  case_bool_decide; case_decide; try congruence. apply IH; lia.
Qed.

Lemma begin_of_line_spec fb (m : nat) :
  (m ≤ length fb)%nat → begin_of_line fb (Z.of_nat m) = Ok (Z.of_nat (line_start fb m)).
Proof. intros. apply begin_of_line_loop_spec; lia. Qed.

(** ** Printing a number *)

Lemma digits_length fuel n : (length (digits fuel n) ≤ fuel)%nat.
Proof.
  revert n. induction fuel as [|fuel IH]; intros n; cbn [digits]; [done|].
  case_bool_decide; [cbn [length]; lia|]. rewrite length_app. specialize (IH (n / 10)).
  cbn [length]. lia.
Qed.

Lemma sprintf_LINUM n :
  sprintf_u LINUM_FORMAT n = LINUM_COLOR ++ newline :: decimal n ++ bytes_of ":" ++ RESET.
Proof. reflexivity. Qed.

Lemma writef_buffer_holds ok format arg st s :
  holds st s → (length (sprintf_u format (u32 arg)) < 512)%nat → Z.of_nat (length s) ≤ 2 ^ 61 →
  serves ok (2 ^ 64) →
  writef_buffer ok format arg st ⇓ λ r,
    r.1 = Z.of_nat (length (sprintf_u format (u32 arg))) ∧
    holds r.2 (s ++ sprintf_u format (u32 arg)).
Proof.
  intros Hst Hlen Hs Hok. pose proof (holds_max _ _ Hst). unfold writef_buffer. rewrite bool_decide_true by lia.
  unfold check. ok_simpl. apply yields_bind. eapply yields_mono.
  - apply (write_buffer_holds ok _ _ st s); [done|rewrite length_app; lia|lia|].
    intros m Hm. apply Hok. lia.
  - intros [n st'] (_ & Hst' & _). cbn [fst snd yields] in *.
    rewrite Nat2Z.id, take_app_length in Hst'. done.
Qed.

(** ** One report *)

Lemma report_length P mem m l :
  reportable P mem m → (m + length P ≤ length mem)%nat → (length (report P mem m l) ≤ 1100)%nat.
Proof.
  intros [Hcol _] Hm. pose proof (line_start_le mem m). unfold report.
  rewrite length_app. cbn [length]. rewrite !length_app, colored_length
    by (rewrite length_drop; lia).
  destruct (rest_of_line (drop (line_start mem m) mem) 1024 (m - line_start mem m) (length P))
    as (Hr & _); [rewrite length_drop; lia|].
  pose proof (digits_length 10 l) as Hd.
  unfold decimal. change (length LINUM_COLOR) with 7%nat. change (length RESET) with 4%nat.
  change (length (bytes_of ":")) with 1%nat. lia.
Qed.

(** [worker_writebuffer] on a new line appends the report. *)
Lemma worker_writebuffer_reports ok P mem (m : nat) l lastlinum st s :
  holds (wbuf st) s → Z.of_nat (length s) ≤ 2 ^ 60 → serves ok (2 ^ 64) →
  Z.of_nat (length mem) < INT_MAX → (m + length P ≤ length mem)%nat → reportable P mem m →
  0 ≤ l < U32_MOD → l ≠ lastlinum →
  worker_writebuffer ok (Z.of_nat (length P)) mem (Z.of_nat m) l lastlinum st
    ⇓ λ st', holds (wbuf st') (s ++ report P mem m l) ∧ cnt st' = 1.
Proof.
  intros Hst Hs Hok Hmem Hm Hrep Hl Hne. pose proof (line_start_le mem m) as Hbol.
  unfold worker_writebuffer. rewrite begin_of_line_spec by lia. ok_simpl.
  rewrite bool_decide_true by done. apply yields_bind.
  pose proof (u32_small l Hl) as Hlin.
  assert (length (sprintf_u LINUM_FORMAT l) ≤ 23)%nat as Hfmt.
  { rewrite sprintf_LINUM, length_app. cbn [length]. rewrite !length_app.
    pose proof (digits_length 10 l). unfold decimal.
    change (length LINUM_COLOR) with 7%nat. change (length RESET) with 4%nat.
    change (length (bytes_of ":")) with 1%nat. lia. }
  eapply yields_mono; [apply (writef_buffer_holds ok _ _ _ s); [done|rewrite Hlin; lia|lia|done]|].
  rewrite Hlin. intros [n st1] [_ Hst1]. cbn [fst snd] in *.
  pose proof (holds_max _ _ Hst1). rewrite u64_small by cint_lia.
  rewrite u32_small by cint_lia.
  replace (Z.of_nat m - Z.of_nat (line_start mem m)) with (Z.of_nat (m - line_start mem m)) by lia.
  rewrite Nat2Z.id. apply yields_bind. destruct Hrep as [Hcol Hend].
  eapply yields_mono; [apply (writeline_color_holds ok _ 1024 _ _ st1
    (s ++ sprintf_u LINUM_FORMAT l))|].
  - done.
  - lia.
  - rewrite length_drop. lia.
  - rewrite length_drop. cint_lia.
  - cint_lia.
  - rewrite length_app. lia.
  - right. rewrite drop_drop. by replace (line_start mem m + (m - line_start mem m + length P))%nat
      with (m + length P)%nat by lia.
  - intros k Hk. apply Hok. lia.
  - intros [n2 st2] (_ & Hst2 & _). cbn [fst snd] in *. cbn [yields wbuf cnt]. split; [|done].
    rewrite sprintf_LINUM, <-!app_assoc in Hst2. unfold report.
    cbn [app] in Hst2 |- *. rewrite <-!app_assoc in Hst2. done.
Qed.

(** ** The reference list of matches *)

Section matches.
Local Open Scope nat_scope.
Context (P T : list byte) (H0 : 0 < length P).

Lemma matches_from_Some start s :
  naive_search P (drop start T) = Some s → start ≤ length T →
  occurs_at P T (start + s) ∧ start + s + length P ≤ length T.
Proof.
  intros (Ho & _ & _)%naive_search_Some Hstart. pose proof (occurs_at_bound _ _ _ H0 Ho) as Hb.
  rewrite length_drop in Hb. split; [|lia]. unfold occurs_at in *. by rewrite drop_drop in Ho.
Qed.

(** Every element is an occurrence, and the next one starts at or after its
    end. *)
Lemma matches_from_sound fuel : ∀ start,
  start ≤ length T →
  ∀ i m, matches_from fuel P T start !! i = Some m →
    start ≤ m ∧ occurs_at P T m ∧ m + length P ≤ length T ∧
    ∀ m', matches_from fuel P T start !! S i = Some m' → m + length P ≤ m'.
Proof.
  induction fuel as [|fuel IH]; intros start Hstart i m; cbn [matches_from];
    destruct (naive_search P (drop start T)) as [s|] eqn:Hs; try done.
  destruct (matches_from_Some _ _ Hs Hstart) as [Ho Hb].
  specialize (IH (start + s + length P) Hb).
  destruct i as [|i]; cbn [lookup list_lookup].
  - intros [= <-]. split_and!; [lia|done|done|]. intros m' Hm'.
    by destruct (IH 0 m' Hm') as (? & _).
  - intros Hm. destruct (IH i m Hm) as (? & ? & ? & ?). split_and!; try done. lia.
Qed.

(** Every occurrence overlaps an element that starts no later. *)
Lemma matches_from_complete fuel : ∀ start q,
  length T - start ≤ fuel → start ≤ q → occurs_at P T q →
  ∃ m, m ∈ matches_from fuel P T start ∧ m ≤ q < m + length P.
Proof.
  induction fuel as [|fuel IH]; intros start q Hf Hq Ho;
    pose proof (occurs_at_bound _ _ _ H0 Ho) as Hb; [lia|]; cbn [matches_from].
  assert (occurs_at P (drop start T) (q - start)) as Ho'.
  { unfold occurs_at in *. rewrite drop_drop. by replace (start + (q - start)) with q by lia. }
  destruct (naive_search P (drop start T)) as [s|] eqn:Hs.
  2:{ rewrite naive_search_None in Hs. destruct (Hs (q - start)); [|done].
      rewrite length_drop. lia. }
  apply naive_search_Some in Hs as (_ & _ & Hmin).
  destruct (decide (q < start + s)) as [Hlt|Hge].
  { destruct (Hmin (q - start)); [lia|done]. }
  destruct (decide (q < start + s + length P)) as [Hin|Hout].
  - exists (start + s). split; [left|lia].
  - destruct (IH (start + s + length P) q) as (m & Hm & ?); [lia..|done|].
    exists m. split; [by right|done].
Qed.
End matches.

Lemma count_nl_app (l1 l2 : list byte) : count_nl (l1 ++ l2) = (count_nl l1 + count_nl l2)%nat.
Proof. unfold count_nl. by rewrite list.filter_app, length_app. Qed.

Lemma count_nl_split (T : list byte) (a b : nat) :
  count_nl (take (a + b) T) = (count_nl (take a T) + count_nl (take b (drop a T)))%nat.
Proof. by rewrite <-take_take_drop, count_nl_app. Qed.

(** ** The loop *)

Section search.
Context (ok : allocator) (P T pad : list byte) (kst : kmp_state).
Context (H0 : (0 < length P)%nat) (HP : Z.of_nat (length P) ≤ INT_MAX).
Context (Hkst : kmp_prepare true P (Z.of_nat (length P)) kmp_initial = Ok kst).
Context (Hsize : 3 * Z.of_nat (length (T ++ pad)) < INT_MAX).
Context (Hok : serves ok (2 ^ 64)).
Context (Hrep : ∀ m, occurs_at P T m → reportable P (T ++ pad) m).

(** One call of the matcher, on what follows [start]. *)
Definition match_from (start : nat) (l : Z) : outcome kmp_result :=
  kmp_match kst (drop start (T ++ pad)) (Z.of_nat (length T - start)) l.

(** The matches that the loop finds from [start] on, with the lines it gives
    them. *)
Fixpoint found_from (fuel start : nat) (l : Z) : list (nat * Z) :=
  match match_from start l with
  | Ok r =>
      if matched r then
        let m := (start + Z.to_nat (matchpos r))%nat in
        (m, linum r) :: match fuel with
                        | O => []
                        | S fuel' => found_from fuel' (m + length P) (linum r)
                        end
      else []
  | Fail _ => []
  end.

Lemma match_from_sound (start : nat) l :
  (start ≤ length T)%nat → 1 ≤ l ≤ 1 + 2 * Z.of_nat start →
  match_from start l ⇓ λ r, matched r = true → ∃ s : nat,
    matchpos r = Z.of_nat s ∧ (start + s + length P ≤ length T)%nat ∧
    occurs_at P T (start + s) ∧ l ≤ linum r ≤ 1 + 2 * Z.of_nat (start + s + length P).
Proof.
  intros Hstart Hl. unfold match_from. rewrite drop_app_le by done. rewrite <-length_drop.
  rewrite length_app in Hsize. eapply yields_mono.
  - apply (kmp_match_run P kst H0 HP Hkst (drop start T) pad l ltac:(lia)
      ltac:(rewrite length_drop; cint_lia)
      (λ p t l', l' ≤ l + 2 * Z.of_nat t + if decide (p = 0%nat) then 1 else 0)).
    + intros p t l' c Hp _ _ HJ. assert (0 ≤ nl c ≤ 1) by (unfold nl; case_bool_decide; lia).
      destruct (kmp_move P p c) as [|p'|] eqn:Hmv; [done| |].
      * repeat case_decide; lia.
      * apply kmp_move_again in Hmv. repeat case_decide; lia.
    + rewrite decide_True by done. lia.
  - intros r [Hge Hr] Hm. rewrite Hm in Hr.
    destruct Hr as (s & l' & c & Hmp & Hb & Ho & _ & _ & HJ & Hlin).
    assert (0 ≤ nl c ≤ 1) by (unfold nl; case_bool_decide; lia).
    rewrite length_drop in Hb. exists s. split_and!; [done|lia| |done|].
    + unfold occurs_at in *. by rewrite drop_drop in Ho.
    + case_decide; lia.
Qed.

(** What a call finds, and what the loop goes on with. *)
Lemma found_step fuel (start : nat) l :
  (start ≤ length T)%nat → 1 ≤ l ≤ 1 + 2 * Z.of_nat start →
  ∃ r, match_from start l = Ok r ∧
    (matched r = false ∧ found_from fuel start l = [] ∨
     ∃ s : nat, matched r = true ∧ matchpos r = Z.of_nat s ∧
      (start + s + length P ≤ length T)%nat ∧ occurs_at P T (start + s) ∧
      l ≤ linum r ≤ 1 + 2 * Z.of_nat (start + s + length P) ∧
      found_from fuel start l = ((start + s)%nat, linum r) ::
        match fuel with O => [] | S fuel' => found_from fuel' (start + s + length P) (linum r) end).
Proof.
  intros Hstart Hl. pose proof (match_from_sound start l Hstart Hl) as Hm.
  apply yields_Ok in Hm as (r & Hr & Hm). exists r. split; [done|].
  destruct (matched r) eqn:Hmt; [right|left];
    (destruct fuel; cbn [found_from]; rewrite Hr, Hmt); try done;
    destruct (Hm eq_refl) as (s & Hmp & ? & ? & ?); exists s; rewrite Hmp, Nat2Z.id; done.
Qed.

(** The loop appends a report for every match found, and never takes the
    branch that amends a line: [cnt] stays at one. *)
Lemma search_loop_holds fuel : ∀ (start : nat) l st s,
  (start ≤ length T)%nat → (length T - start ≤ fuel)%nat → 1 ≤ l ≤ 1 + 2 * Z.of_nat start →
  holds (wbuf st) s → Z.of_nat (length s) + 1100 * Z.of_nat (length T - start) ≤ 2 ^ 60 →
  let ms := found_from fuel start l in
  search_loop fuel ok kst (Z.of_nat (length P)) (T ++ pad) (Z.of_nat (length T))
    (Z.of_nat start) l 0 st ⇓ λ st',
    holds (wbuf st') (s ++ concat (uncurry (report P (T ++ pad)) <$> ms)) ∧
    (if decide (ms = []) then st' = st else cnt st' = 1).
Proof.
  assert (length (T ++ pad) = length T + length pad)%nat as Hlen by apply length_app.
  induction fuel as [|fuel IH]; intros start l st s Hstart Hfuel Hl Hst Hs ms;
    [destruct (found_step 0 start l Hstart Hl) as (r & Hr & Hf)|
     destruct (found_step (S fuel) start l Hstart Hl) as (r & Hr & Hf)];
    subst ms; cbn [search_loop]; rewrite Nat2Z.id, u64_small by cint_lia;
    replace (Z.of_nat (length T) - Z.of_nat start) with (Z.of_nat (length T - start)) by lia;
    unfold match_from in Hr; rewrite Hr; ok_simpl;
    (destruct Hf as [[-> ->]|(s0 & -> & Hmp & Hb & Ho & Hlin & ->)];
     [by rewrite app_nil_r|]); [lia|].
  rewrite Hmp, (u32_small (Z.of_nat s0 + Z.of_nat start)) by cint_lia.
  replace (Z.of_nat s0 + Z.of_nat start) with (Z.of_nat (start + s0)) by lia.
  apply yields_bind. eapply yields_mono.
  { apply (worker_writebuffer_reports ok P (T ++ pad) (start + s0) (linum r) 0 st s);
      try done; try cint_lia. by apply Hrep. }
  intros st' [Hst' Hcnt]. rewrite (u32_small (Z.of_nat (length P))) by cint_lia.
  rewrite (u32_small (Z.of_nat s0 + _)) by cint_lia. rewrite u32_small by cint_lia.
  replace (Z.of_nat start + (Z.of_nat s0 + Z.of_nat (length P)))
    with (Z.of_nat (start + s0 + length P)) by lia.
  pose proof (report_length P (T ++ pad) (start + s0) (linum r) (Hrep _ Ho) ltac:(lia)).
  eapply yields_mono; [apply (IH (start + s0 + length P)%nat (linum r) st'
    (s ++ report P (T ++ pad) (start + s0) (linum r))); try done; rewrite ?length_app; lia|].
  intros st'' (Hst'' & Hc). rewrite decide_False by done.
  split; [by rewrite <-app_assoc in Hst''|]. case_decide; [by rewrite Hc|done].
Qed.

(** The matches found are occurrences, in order and disjoint, with line
    numbers that do not decrease. *)
Lemma found_sound fuel : ∀ start l,
  (start ≤ length T)%nat → 1 ≤ l ≤ 1 + 2 * Z.of_nat start →
  ∀ i (m : nat) l', found_from fuel start l !! i = Some (m, l') →
    (start ≤ m)%nat ∧ occurs_at P T m ∧ l ≤ l' ∧
    ∀ (m2 : nat) l2, found_from fuel start l !! S i = Some (m2, l2) → (m + length P ≤ m2)%nat ∧ l' ≤ l2.
Proof.
  induction fuel as [|fuel IH]; intros start l Hstart Hl i m l';
    [destruct (found_step 0 start l Hstart Hl) as (r & _ & Hf)|
     destruct (found_step (S fuel) start l Hstart Hl) as (r & _ & Hf)];
    destruct Hf as [[_ ->]|(s & _ & _ & Hb & Ho & Hlin & ->)]; try done.
  - destruct i; cbn; [|done]. intros [= <- <-]. split_and!; [lia|done|lia|done].
  - specialize (IH _ (linum r) Hb ltac:(lia)). destruct i as [|i]; cbn [lookup list_lookup].
    + intros [= <- <-]. split_and!; [lia|done|lia|]. intros m2 l2 H2.
      by destruct (IH 0%nat m2 l2 H2) as (? & _ & ? & _).
    + intros Hi. destruct (IH i m l' Hi) as (? & ? & ? & ?). split_and!; try done; lia.
Qed.

(** For an adequate pattern they are the reference matches. *)
Lemma found_first : adequate P → ∀ fuel start l,
  (start ≤ length T)%nat → (length T - start ≤ fuel)%nat → 1 ≤ l ≤ 1 + 2 * Z.of_nat start →
  (found_from fuel start l).*1 = matches_from fuel P T start.
Proof.
  intros Had. pose proof Hsize as Hsz. rewrite length_app in Hsz.
  induction fuel as [|fuel IH]; intros start l Hstart Hfuel Hl;
    [destruct (found_step 0 start l Hstart Hl) as (r & Hr & Hf)|
     destruct (found_step (S fuel) start l Hstart Hl) as (r & Hr & Hf)];
    pose proof (kmp_match_first P kst H0 HP Hkst (drop start T) pad l ltac:(lia)
      ltac:(rewrite length_drop; cint_lia) Had) as Hk;
    unfold match_from in Hr; rewrite drop_app_le in Hr by done; rewrite length_drop, Hr in Hk;
    cbn [yields] in Hk; cbn [matches_from];
    destruct (naive_search P (drop start T)) as [s'|]; destruct Hk as [Hk1 Hk2];
    (destruct Hf as [[Hm ->]|(s & Hm & Hmp & Hb & _ & Hlin & ->)]); try congruence; try done.
  - lia.
  - assert (s' = s) as -> by lia. cbn. f_equal. apply IH; lia.
Qed.

(** For a line-exact one the line of each is that of its last character. *)
Lemma found_lines : line_exact P → ∀ fuel start,
  (start ≤ length T)%nat →
  Forall (λ x : nat * Z, x.2 = 1 + Z.of_nat (count_nl (take (x.1 + length P) T)))
    (found_from fuel start (1 + Z.of_nat (count_nl (take start T)))).
Proof.
  intros Hex. pose proof Hsize as Hsz. rewrite length_app in Hsz.
  assert (∀ n, (n ≤ length T)%nat → 0 ≤ Z.of_nat (count_nl (take n T)) ≤ Z.of_nat n) as Hcount.
  { intros n Hn. unfold count_nl. pose proof (length_filter (λ c, c = newline) (take n T)) as Hf.
    rewrite length_take in Hf. lia. }
  induction fuel as [|fuel IH]; intros start Hstart; pose proof (Hcount start Hstart);
    [destruct (found_step 0 start (1 + Z.of_nat (count_nl (take start T))) Hstart ltac:(lia)) as (r & Hr & Hf)|
     destruct (found_step (S fuel) start (1 + Z.of_nat (count_nl (take start T))) Hstart ltac:(lia)) as (r & Hr & Hf)];
    (destruct Hf as [[_ ->]|(s & Hmt & Hmp & Hb & _ & Hlin & ->)]; [by apply Forall_nil_2|]);
    pose proof (kmp_match_lines P kst H0 HP Hkst (drop start T) pad
      (1 + Z.of_nat (count_nl (take start T))) ltac:(lia)
      ltac:(rewrite length_drop; cint_lia) Hex) as Hk;
    unfold match_from in Hr; rewrite drop_app_le in Hr by done; rewrite length_drop, Hr in Hk;
    cbn [yields] in Hk; unfold read_end in Hk; rewrite Hmt, Hmp, Nat2Z.id in Hk;
    assert (linum r = 1 + Z.of_nat (count_nl (take (start + s + length P) T))) as Hl'
      by (rewrite Hk, <-Nat.add_assoc, (count_nl_split _ start); lia);
    (apply Forall_cons_2; [exact Hl'|]); [by apply Forall_nil_2|].
  rewrite Hl'. by apply IH.
Qed.
End search.

(** ** The matches in a file *)

(** Those that a worker finds, from the first byte and the first line on. *)
Definition found (P T pad : list byte) : list (nat * Z) :=
  match kmp_prepare true P (Z.of_nat (length P)) kmp_initial with
  | Ok kst => found_from P T pad kst (length T) 0 1
  | Fail _ => []
  end.

Lemma found_hits P T pad :
  (0 < length P)%nat → Z.of_nat (length P) ≤ INT_MAX → 3 * Z.of_nat (length (T ++ pad)) < INT_MAX →
  hits P T (found P T pad).
Proof.
  intros H0 HP Hsize. unfold found.
  pose proof (kmp_prepare_ready P P kmp_initial H0 HP ltac:(done) ltac:(done)) as Hready.
  apply yields_Ok in Hready as (kst & Hkst & _). rewrite Hkst. split.
  - intros i m l Hi. eapply found_sound in Hi as (_ & ? & ? & ?); try done; lia.
  - intros Had. unfold matches. apply found_first; try done; lia.
  - intros Hex. apply (found_lines P T pad kst H0 HP Hkst Hsize Hex (length T) 0). lia.
Qed.

(** An empty file has none. *)
Lemma found_nil P pad :
  (0 < length P)%nat → Z.of_nat (length P) ≤ INT_MAX → 3 * Z.of_nat (length pad) < INT_MAX →
  found P [] pad = [].
Proof.
  intros H0 HP Hsize. destruct (found P [] pad) as [|[m l] ms] eqn:Hf; [done|].
  pose proof (hits_sound _ _ _ (found_hits P [] pad H0 HP Hsize) 0 m l) as Hs.
  rewrite Hf in Hs. destruct (Hs eq_refl) as (Ho & _).
  pose proof (occurs_at_bound _ _ _ H0 Ho) as Hb. cbn [length] in Hb. lia.
Qed.

(** With both, they are known exactly. *)
Lemma hits_exact P T ms :
  hits P T ms → adequate P → line_exact P →
  ms = (λ m, (m, 1 + Z.of_nat (count_nl (take (m + length P) T)))) <$> matches P T.
Proof.
  intros [_ Hf Hl] Had Hex. rewrite <-(Hf Had). specialize (Hl Hex). clear Hf.
  induction Hl as [|[m l] ms Hm _ IH]; [done|]. cbn in *. by rewrite Hm, <-IH.
Qed.
