(* ===== verification/WorkerClaims.v ===== *)
(** The properties of a worker: what it appends for a file, what it prints,
    and what it holds of the process's resources. *)

From S2P Require Import Prelude CInt Match MatchSpec Block Buffer BufferSpec File Options Worker WorkerSpec.
Local Open Scope Z_scope.

(** The text a file contributes: a report for each match found. *)
Definition file_text (P T pad : list byte) : list byte :=
  concat (uncurry (report P (T ++ pad)) <$> found P T pad).

Section search_file.
Context (ok : allocator) (P T pad : list byte) (kst : kmp_state) (st : worker_state) (s : list byte).
Context (H0 : (0 < length P)%nat) (HP : Z.of_nat (length P) ≤ INT_MAX).
Context (Hkst : kmp_prepare true P (Z.of_nat (length P)) kmp_initial = Ok kst).
Context (Hsize : 3 * Z.of_nat (length (T ++ pad)) < INT_MAX) (Hok : serves ok (2 ^ 64)).
Context (Hrep : ∀ m, occurs_at P T m → reportable P (T ++ pad) m).
Context (Hst : holds (wbuf st) s) (Hs : Z.of_nat (length s) ≤ 2 ^ 59).

Lemma search_file_text :
  search_file ok kst (Z.of_nat (length P)) (T ++ pad) (Z.of_nat (length T)) st ⇓ λ st',
    holds (wbuf st') (s ++ file_text P T pad) ∧
    (if decide (found P T pad = []) then st' = st else cnt st' = 1).
Proof.
  unfold search_file, file_text, found. rewrite Hkst, Nat2Z.id. change 0 with (Z.of_nat 0) at 1.
  apply search_loop_holds; try done; try lia. rewrite length_app in Hsize. cint_lia.
Qed.
End search_file.

(** C27: for every pattern and file, the text appended is a report for each
    match that a sequence of occurrences gives: they are in order, they do not
    overlap, their lines do not decrease, and the branch that amends a line is
    never taken: [cnt] is left alone or set to one. *)
Theorem search_file_sound ok P T pad kst st s :
  (0 < length P)%nat → Z.of_nat (length P) ≤ INT_MAX →
  kmp_prepare true P (Z.of_nat (length P)) kmp_initial = Ok kst →
  3 * Z.of_nat (length (T ++ pad)) < INT_MAX → serves ok (2 ^ 64) →
  (∀ m, occurs_at P T m → reportable P (T ++ pad) m) →
  holds (wbuf st) s → Z.of_nat (length s) ≤ 2 ^ 59 →
  search_file ok kst (Z.of_nat (length P)) (T ++ pad) (Z.of_nat (length T)) st ⇓ λ st', ∃ ms,
    holds (wbuf st') (s ++ concat (uncurry (report P (T ++ pad)) <$> ms)) ∧
    (cnt st' = cnt st ∨ cnt st' = 1) ∧
    ∀ i (m : nat) l, ms !! i = Some (m, l) → occurs_at P T m ∧ 1 ≤ l ∧
      ∀ (m2 : nat) l2, ms !! S i = Some (m2, l2) → (m + length P ≤ m2)%nat ∧ l ≤ l2.
Proof.
  intros H0 HP Hkst Hsize Hok Hrep Hst Hs.
  eapply yields_mono; [by apply search_file_text|]. intros st' [Hst' Hcnt].
  exists (found P T pad). split_and!; [done| |].
  - case_decide; [subst; by left|by right].
  - by apply hits_sound, found_hits.
Qed.

(** A file of two lines with a match in each. *)
Definition sample_file : list byte := bytes_of "a stat b" ++ newline :: bytes_of "xx stat".
Definition sample_pad : list byte := [x00; x00].

Definition ready_worker : worker_state :=
  WorkerState (BufState (Some (text_block 4096 [])) 4096 0) 0 0.

Lemma ready_worker_holds : holds (wbuf ready_worker) [].
Proof. split; cbn [wbuf ready_worker buf cap off]; try done. exists 0. split; [lia|done]. Qed.

Lemma sample_reportable m :
  occurs_at (bytes_of "stat") sample_file m →
  reportable (bytes_of "stat") (sample_file ++ sample_pad) m.
Proof.
  intros Ho. pose proof (occurs_at_bound (bytes_of "stat") _ _ ltac:(vm_compute; lia) Ho) as Hb.
  change (length sample_file) with 16%nat in Hb. change (length (bytes_of "stat")) with 4%nat in Hb.
  clear Ho. assert (m ∈ seq 0 13) as Hm by (apply elem_of_seq; lia). clear Hb. revert m Hm.
  apply list.Forall_forall. apply (bool_decide_unpack _). by vm_compute.
Qed.

Lemma search_file_sound_witness : ∃ kst,
  kmp_prepare true (bytes_of "stat") 4 kmp_initial = Ok kst ∧
  search_file (λ _, true) kst 4 (sample_file ++ sample_pad) 16 ready_worker ⇓ λ st', ∃ ms,
    holds (wbuf st') (concat (uncurry (report (bytes_of "stat") (sample_file ++ sample_pad)) <$> ms)) ∧
    (cnt st' = 0 ∨ cnt st' = 1) ∧
    ∀ i (m : nat) l, ms !! i = Some (m, l) → occurs_at (bytes_of "stat") sample_file m ∧ 1 ≤ l ∧
      ∀ (m2 : nat) l2, ms !! S i = Some (m2, l2) → (m + 4 ≤ m2)%nat ∧ l ≤ l2.
Proof.
  eexists. split; [vm_compute; reflexivity|].
  apply (search_file_sound (λ _, true) (bytes_of "stat") sample_file sample_pad _ ready_worker []);
    [vm_compute; lia|by vm_compute|vm_compute; reflexivity|by vm_compute|done|
     apply sample_reportable|apply ready_worker_holds|by vm_compute].
Defined.

(** C3: for an adequate and line-exact pattern there is a report for each
    leftmost match: the positions are occurrences that do not overlap, every
    occurrence overlaps one of them that starts no later, and the line of a match is
    one plus the newlines up to its end. *)
Theorem search_file_exact ok P T pad kst st s :
  (0 < length P)%nat → Z.of_nat (length P) ≤ INT_MAX →
  kmp_prepare true P (Z.of_nat (length P)) kmp_initial = Ok kst →
  3 * Z.of_nat (length (T ++ pad)) < INT_MAX → serves ok (2 ^ 64) →
  (∀ m, occurs_at P T m → reportable P (T ++ pad) m) →
  holds (wbuf st) s → Z.of_nat (length s) ≤ 2 ^ 59 →
  adequate P → line_exact P →
  ∃ ms : list nat,
    (∀ i m, ms !! i = Some m → occurs_at P T m ∧ m + length P ≤ length T ∧
      ∀ m', ms !! S i = Some m' → m + length P ≤ m')%nat ∧
    (∀ q, occurs_at P T q → ∃ m, m ∈ ms ∧ m ≤ q < m + length P)%nat ∧
    search_file ok kst (Z.of_nat (length P)) (T ++ pad) (Z.of_nat (length T)) st ⇓ λ st',
      holds (wbuf st') (s ++ concat
        ((λ m, report P (T ++ pad) m (1 + Z.of_nat (count_nl (take (m + length P) T)))) <$> ms)).
Proof.
  intros H0 HP Hkst Hsize Hok Hrep Hst Hs Had Hex. exists (matches P T). split_and!.
  - intros i m Hi. by destruct (matches_from_sound P T H0 (length T) 0 ltac:(lia) i m Hi)
      as (_ & ? & ? & ?).
  - intros q Hq. apply matches_from_complete; [done|lia|lia|done].
  - eapply yields_mono; [by apply (search_file_text ok P T pad kst st s)|]. intros st' [Hst' _].
    unfold file_text in Hst'. rewrite (hits_exact P T (found P T pad)) in Hst' by (done || by apply found_hits).
    by rewrite <-list_fmap_compose in Hst'.
Qed.

Lemma search_file_exact_witness : ∃ kst,
  kmp_prepare true (bytes_of "stat") 4 kmp_initial = Ok kst ∧
  ∃ ms : list nat,
    (∀ i m, ms !! i = Some m → occurs_at (bytes_of "stat") sample_file m ∧ m + 4 ≤ 16 ∧
      ∀ m', ms !! S i = Some m' → m + 4 ≤ m')%nat ∧
    (∀ q, occurs_at (bytes_of "stat") sample_file q → ∃ m, m ∈ ms ∧ m ≤ q < m + 4)%nat ∧
    search_file (λ _, true) kst 4 (sample_file ++ sample_pad) 16 ready_worker ⇓ λ st',
      holds (wbuf st') (concat ((λ m, report (bytes_of "stat") (sample_file ++ sample_pad) m
        (1 + Z.of_nat (count_nl (take (m + 4) sample_file)))) <$> ms)).
Proof.
  eexists. split; [vm_compute; reflexivity|].
  apply (search_file_exact (λ _, true) (bytes_of "stat") sample_file sample_pad _ ready_worker []);
    [vm_compute; lia|by vm_compute|vm_compute; reflexivity|by vm_compute|done|
     apply sample_reportable|apply ready_worker_holds|by vm_compute|
     apply (bool_decide_unpack _); by vm_compute..].
Defined.

(** A pattern that is not adequate: an occurrence that is not found. *)
Example found_misses :
  found (bytes_of "aabaax") (bytes_of "aabaaabaax") [x00] = [] ∧
  matches (bytes_of "aabaax") (bytes_of "aabaaabaax") = [4%nat].
Proof. split; by vm_compute. Qed.

(** ** A file in the hands of a worker *)

(** A [fileinfo] with the contents of its file and the rest of the last page
    of the mapping. *)
Record job := Job { job_fi : fileinfo; job_content : list byte; job_pad : list byte }.

Definition job_text (P : list byte) (j : job) : list byte :=
  file_text P (job_content j) (job_pad j).

(** What is printed for it. *)
Definition job_output (list_only : bool) (P : list byte) (j : job) : list (list byte) :=
  if decide (found P (job_content j) (job_pad j) = []) then []
  else filename_line (filename (job_fi j)) ::
       (if list_only then [] else [job_text P j ++ [newline]]).

(** A file the theorems speak about: the calls of the system succeed, every
    occurrence can be reported, and its text is a string that does not fill the
    buffer exactly. *)
Record job_ok (o : os) (P : list byte) (j : job) : Prop := {
  job_fd : fd (job_fi j) ≠ 0;
  job_mmap : mmap_law o (fd (job_fi j)) (job_content j) (job_pad j);
  job_size : 3 * Z.of_nat (length (job_content j ++ job_pad j)) < INT_MAX;
  job_reportable : ∀ m, occurs_at P (job_content j) m →
    reportable P (job_content j ++ job_pad j) m;
  job_nul : NUL ∉ job_text P j;
  job_inexact : ∀ k, 0 ≤ k → Z.of_nat (length (job_text P j)) ≠ DEFAULT_SIZE * 2 ^ k;
}.

Lemma found_text_nil P T pad :
  found P T pad = [] ↔ length (file_text P T pad) = 0%nat.
Proof.
  unfold file_text. destruct (found P T pad) as [|[m l] ms]; [done|].
  split; [done|]. rewrite fmap_cons. cbn [concat uncurry]. unfold report.
  rewrite !length_app. change (length LINUM_COLOR) with 7%nat. lia.
Qed.

(** The string printed from a buffer that is not full. *)
Lemma read_string st s :
  holds st s → NUL ∉ s → Z.of_nat (length s) ≠ cap st →
  (blk ← deref (read_buffer st); c_string blk) = Ok s.
Proof.
  intros Hst Hnul Hne. rewrite (read_text _ _ Hst), bool_decide_false by tauto. by rewrite as_string_id.
Qed.

Lemma remove_one_perm {A} `{EqDecision A} (x : A) l : x ∈ l → l ≡ₚ x :: remove_one x l.
Proof.
  induction l as [|y l IH]; [by intros ?%elem_of_nil|]. cbn [remove_one].
  intros [->|Hx]%elem_of_cons; case_decide as Hd; subst; try done.
  rewrite Permutation_swap. f_equiv. by apply IH.
Qed.

Section worker.
Context (o : os) (ok : allocator) (opt : cli_options) (P : list byte) (kst : kmp_state).
Context (H0 : (0 < length P)%nat) (HP : Z.of_nat (length P) ≤ INT_MAX).
Context (Hlen : search_patlen opt = Z.of_nat (length P)).
Context (Hok : serves ok (2 ^ 64)).
Context (Hkst : kmp_prepare true P (Z.of_nat (length P)) kmp_initial = Ok kst).

(** The names a worker frees: those of the files with a match. *)
Definition names_left (j : job) (names : list (list byte)) : list (list byte) :=
  if decide (found P (job_content j) (job_pad j) = []) then names
  else remove_one (filename (job_fi j)) names.

(** The state after a file. *)
Definition after_file (j : job) (p : proc) : proc :=
  Proc (open_fds p ∖ {[fd (job_fi j)]}) (mappings p) (names_left j (live_names p))
    (stdout p ++ job_output (list_matching_files opt) P j).

(** The part between [map_file] and [reset_buffer]: print when there is
    something to print. *)
Lemma wp_print_file j st p (fi : fileinfo) Q :
  job_ok o P j → holds (wbuf st) (job_text P j) → filename fi = filename (job_fi j) →
  filename (job_fi j) ∈ live_names p →
  Q tt (Proc (open_fds p) (mappings p) (names_left j (live_names p))
    (stdout p ++ job_output (list_matching_files opt) P j)) →
  wp (if bool_decide (off (wbuf st) ≠ 0) then
       print (filename_line (filename fi));;
       (if list_matching_files opt then mret tt
        else s ← lift (blk ← deref (read_buffer (wbuf st)); c_string blk);
             print (s ++ [newline]));;
       free_name (filename fi)
     else mret tt) Q p.
Proof.
  intros Hj Hst -> Hlive HQ. rewrite (holds_off _ _ Hst).
  pose proof (found_text_nil P (job_content j) (job_pad j)) as Hnil.
  unfold names_left, job_output, job_text in *. case_bool_decide as Hoff.
  - rewrite !decide_False in HQ by (rewrite Hnil; lia).
    apply wp_bind, wp_print. destruct (list_matching_files opt).
    + apply wp_bind, wp_ret, wp_free_name; done.
    + assert (Z.of_nat (length (file_text P (job_content j) (job_pad j))) ≠ cap (wbuf st)) as Hne.
      { destruct (holds_cap _ _ Hst) as (k & Hk & ->). by apply (job_inexact _ _ _ Hj). }
      rewrite (read_string _ _ Hst (job_nul _ _ _ Hj) Hne).
      apply wp_bind, wp_bind, wp_lift, wp_print, wp_free_name; [done|].
      cbn [stdout live_names mappings open_fds]. by rewrite <-app_assoc.
  - rewrite !decide_True in HQ by (rewrite Hnil; lia). rewrite app_nil_r in HQ.
    apply wp_ret. by destruct p.
Qed.

Lemma wp_worker_file j st p :
  job_ok o P j → holds (wbuf st) [] → filename (job_fi j) ∈ live_names p →
  wp (worker_file o ok opt kst (job_fi j) st)
    (λ st' p', holds (wbuf st') [] ∧ p' = after_file j p) p.
Proof.
  intros Hj Hst Hlive. unfold worker_file. apply wp_bind.
  destruct (decide (job_content j = [])) as [Hc|Hc].
  - pose proof (job_mmap _ _ _ Hj) as Hm. rewrite Hc in Hm.
    eapply (wp_map_file_empty o (job_pad j)); [done|by apply Hj|]. cbn [fst snd].
    apply wp_bind, wp_close, wp_ret. split; [done|]. unfold after_file, names_left, job_output.
    pose proof (job_size _ _ _ Hj) as Hsize. rewrite Hc in Hsize. cbn [app] in Hsize.
    by rewrite Hc, !decide_True, app_nil_r by (by apply found_nil).
  - eapply wp_map_file; [by apply Hj|by apply Hj|done|]. cbn [fst snd filename fd size].
    apply wp_bind, wp_lift. rewrite Hlen. eapply yields_mono.
    { apply (search_file_text ok P (job_content j) (job_pad j) kst st []); try done;
        by apply Hj. }
    intros st' [Hst' _]. cbn [app] in Hst'. apply wp_bind.
    apply (wp_print_file j); [done|done|done|done|].
    apply wp_bind, wp_lift. eapply yields_mono; [apply init_buffer_holds|].
    { intros m Hm. apply Hok. unfold DEFAULT_SIZE in Hm. lia. }
    intros b [Hb _]. apply wp_bind.
    eapply (wp_unmap_file o _ (job_pad j)); [by apply Hj|done|done|done|].
    apply wp_ret. done.
Qed.

(** The state after a sequence of files. *)
Fixpoint after_files (js : list job) (p : proc) : proc :=
  match js with
  | [] => p
  | j :: js' => after_files js' (after_file j p)
  end.

Lemma remove_one_other (x y : list byte) l : x ≠ y → y ∈ l → y ∈ remove_one x l.
Proof.
  intros Hne. induction l as [|z l IH]; [done|]. cbn [remove_one].
  intros [->|Hy]%elem_of_cons; case_decide; subst; try done; [by left|by right; apply IH].
Qed.

Lemma names_left_other j names (x : list byte) :
  x ≠ filename (job_fi j) → x ∈ names → x ∈ names_left j names.
Proof.
  intros Hne Hx. unfold names_left. case_decide; [done|]. by apply remove_one_other.
Qed.

Lemma wp_worker_files js st p :
  Forall (job_ok o P) js → holds (wbuf st) [] →
  NoDup ((filename ∘ job_fi) <$> js) →
  Forall (λ j, filename (job_fi j) ∈ live_names p) js →
  wp (worker_files o ok opt kst (job_fi <$> js) st)
    (λ st' p', holds (wbuf st') [] ∧ p' = after_files js p) p.
Proof.
  revert st p. induction js as [|j js IH]; intros st p Hjs Hst Hnd Hlive.
  { by apply wp_ret. }
  apply Forall_cons_iff in Hjs as [Hj Hjs]. apply Forall_cons_iff in Hlive as [Hl Hlive].
  rewrite fmap_cons in Hnd. apply list.NoDup_cons in Hnd as [Hnin Hnd].
  rewrite fmap_cons. cbn [worker_files after_files]. apply wp_bind.
  eapply wp_mono; [by apply wp_worker_file|]. intros st' p' [Hst' ->]. apply IH; [done..|].
  apply list.Forall_forall. intros j' Hj'. rewrite list.Forall_forall in Hlive.
  apply names_left_other; [|by apply Hlive]. intros Heq. apply Hnin.
  apply list_elem_of_fmap. exists j'. split; [by symmetry|done].
Qed.

Lemma after_files_fields js p :
  open_fds (after_files js p) = open_fds p ∖ list_to_set ((fd ∘ job_fi) <$> js) ∧
  mappings (after_files js p) = mappings p ∧
  stdout (after_files js p) =
    stdout p ++ concat (job_output (list_matching_files opt) P <$> js).
Proof.
  revert p. induction js as [|j js IH]; intros p; cbn [after_files].
  { rewrite !fmap_nil, list_to_set_nil. cbn [concat]. rewrite app_nil_r. split_and!; [clear; set_solver|done|done]. }
  destruct (IH (after_file j p)) as (-> & -> & ->). rewrite !fmap_cons, list_to_set_cons.
  unfold after_file. cbn [open_fds mappings stdout concat]. rewrite <-app_assoc.
  split_and!; [clear; set_solver|done|done].
Qed.

(** The names not freed are those of the files without a match. *)
Lemma after_files_names js p (names : list (list byte)) :
  live_names p = ((filename ∘ job_fi) <$> js) ++ names →
  live_names (after_files js p) ≡ₚ
    ((filename ∘ job_fi) <$> filter (λ j, found P (job_content j) (job_pad j) = []) js) ++ names.
Proof.
  assert (∀ kept q, live_names q ≡ₚ ((filename ∘ job_fi) <$> js) ++ kept →
    live_names (after_files js q) ≡ₚ
    ((filename ∘ job_fi) <$> filter (λ j, found P (job_content j) (job_pad j) = []) js) ++ kept) as Hgen.
  { induction js as [|j js IH]; intros kept q Hq; [done|].
    cbn [after_files]. rewrite list.filter_cons. rewrite fmap_cons in Hq. case_decide as Hm.
    - rewrite (IH ((filename ∘ job_fi) j :: kept)).
      + rewrite fmap_cons. cbn [app]. by rewrite Permutation_middle.
      + unfold after_file, names_left. rewrite decide_True by done. cbn [live_names].
        rewrite Hq. cbn [app]. by rewrite Permutation_middle.
    - apply IH. unfold after_file, names_left. rewrite decide_False by done. cbn [live_names].
      apply (Permutation_cons_inv (a := filename (job_fi j))). rewrite <-Hq.
      symmetry. apply remove_one_perm. rewrite Hq. by left. }
  intros Hp. apply Hgen. by rewrite Hp.
Qed.
End worker.

(** C4: a worker that receives a sequence of files prints, for each file
    with a match and in their order, the line with its name and a report for
    each match, and nothing for the others; for every pattern the matches are
    as [hits] says: occurrences, and for an adequate pattern the leftmost ones; it closes every descriptor, its end of the result
    pipe included, and removes every mapping; it frees its buffer and its table;
    the names of the files without a match are never freed. *)
Theorem worker_thread_output o ok opt P result tid r w js p names :
  (0 < length P)%nat → Z.of_nat (length P) ≤ INT_MAX →
  search_pattern opt = Some P → search_patlen opt = Z.of_nat (length P) →
  serves ok (2 ^ 64) →
  Forall (job_ok o P) js → NoDup ((filename ∘ job_fi) <$> js) →
  live_names p = ((filename ∘ job_fi) <$> js) ++ names → result !! tid = Some (r, w) →
  Forall (λ j, hits P (job_content j) (found P (job_content j) (job_pad j))) js ∧
  wp (worker_thread o ok true opt result tid (job_fi <$> js)) (λ st p',
    (kmp_table st.1 = None ∧ wbuf st.2 = buf_initial) ∧
    open_fds p' = open_fds p ∖ list_to_set ((fd ∘ job_fi) <$> js) ∖ {[w]} ∧ mappings p' = mappings p ∧
    live_names p' ≡ₚ
      ((filename ∘ job_fi) <$> filter (λ j, found P (job_content j) (job_pad j) = []) js) ++ names ∧
    stdout p' = stdout p ++ concat (job_output (list_matching_files opt) P <$> js)) p.
Proof.
  intros H0 HP Hpat Hlen Hok Hjs Hnd Hlive Hres. split.
  { eapply list.Forall_impl; [exact Hjs|]. intros j Hj. apply found_hits; [done|done|by apply Hj]. }
  unfold worker_thread. rewrite Hpat. apply wp_bind, wp_lift.
  eapply yields_mono; [apply init_buffer_holds; intros m Hm; apply Hok; unfold DEFAULT_SIZE in Hm; lia|].
  intros b [Hb _]. apply wp_bind, wp_lift. ok_simpl.
  rewrite Hlen, u64_small by cint_lia. pose proof (kmp_prepare_ready P P kmp_initial H0 HP ltac:(done) ltac:(done)) as Hready.
  apply yields_Ok in Hready as (kst & Hkst & _). rewrite Hkst. cbn [yields].
  apply wp_bind. eapply wp_mono.
  - apply (wp_worker_files o ok opt P kst H0 HP Hlen Hok Hkst js); [done|done|done|].
    apply list.Forall_forall. intros j Hj. rewrite Hlive. apply elem_of_app. left.
    apply list_elem_of_fmap. by exists j.
  - intros st p' [_ ->]. rewrite (rd_nat _ _ _ Hres). apply wp_bind, wp_lift.
    apply wp_bind, wp_close, wp_ret.
    cbn [fst snd wbuf kmp_finish kmp_table open_fds mappings live_names stdout].
    destruct (after_files_fields opt P js p) as (Hf & Hm & Ho).
    split_and!; [done|done|by rewrite Hf|done|by apply after_files_names|done].
Qed.

(** One file with two matches, on descriptor 5. *)
Definition sample_os : os :=
  Os (λ n, if bool_decide (n = 5) then Some 16 else None)
     (λ n _, if bool_decide (n = 5) then Some (sample_file ++ sample_pad) else None)
     (λ _, true).
Definition sample_job : job :=
  Job (FileInfo 5 (bytes_of "./a.c") None 0) sample_file sample_pad.

Lemma sample_job_ok : job_ok sample_os (bytes_of "stat") sample_job.
Proof.
  split; cbn [job_fi fd job_content job_pad sample_job].
  - done.
  - split_and!; [done|done|by apply (bool_decide_unpack _)|done].
  - by vm_compute.
  - apply sample_reportable.
  - apply (bool_decide_unpack _). by vm_compute.
  - intros k Hk. unfold DEFAULT_SIZE. pose proof (Z.pow_pos_nonneg 2 k ltac:(lia) Hk).
    assert (Z.of_nat (length (job_text (bytes_of "stat") sample_job)) < 4096) by (by vm_compute).
    lia.
Qed.

Lemma worker_thread_output_witness :
  wp (worker_thread sample_os (λ _, true) true (CliOptions 0 (Some (bytes_of "stat")) 4 None None false)
      [(6, 7); (8, 9)] 1 [FileInfo 5 (bytes_of "./a.c") None 0]) (λ r p',
    (kmp_table r.1 = None ∧ wbuf r.2 = buf_initial) ∧
    open_fds p' = {[3]} ∧ mappings p' = 0%nat ∧ live_names p' ≡ₚ [] ∧
    stdout p' = [filename_line (bytes_of "./a.c"); job_text (bytes_of "stat") sample_job ++ [newline]])
    (Proc {[3; 5; 9]} 0 [bytes_of "./a.c"] []).
Proof.
  eapply wp_mono.
  - refine (proj2 (worker_thread_output sample_os (λ _, true) (CliOptions 0 (Some (bytes_of "stat")) 4 None None false)
      (bytes_of "stat") [(6, 7); (8, 9)] 1 8 9 [sample_job] (Proc {[3; 5; 9]} 0 [bytes_of "./a.c"] []) []
      _ _ eq_refl eq_refl _ (proj2 (Forall_singleton _ _) _) _ eq_refl eq_refl)).
    + vm_compute. lia.
    + by vm_compute.
    + done.
    + apply sample_job_ok.
    + apply (bool_decide_unpack _). by vm_compute.
  - intros r p' (Hr & Hf & Hm & Hn & Ho).
    split; [exact Hr|]. split; [|split; [exact Hm|split; [|]]].
    + rewrite Hf. by apply (bool_decide_unpack _); vm_compute.
    + rewrite Hn. by apply (bool_decide_unpack _); vm_compute.
    + rewrite Ho. by apply (bool_decide_unpack _); vm_compute.
Defined.

(** The same run, executed. *)
Example sample_run :
  (r ← worker_thread sample_os (λ _, true) true (CliOptions 0 (Some (bytes_of "stat")) 4 None None false)
     [(6, 7); (8, 9)] 1 [FileInfo 5 (bytes_of "./a.c") None 0] (Proc {[3; 5; 9]} 0 [bytes_of "./a.c"] []);
   Ok (stdout r.2)) =
  Ok [FNAME_COLOR ++ bytes_of "./a.c" ++ RESET ++ [newline];
      LINUM_COLOR ++ newline :: bytes_of "1:" ++ RESET ++
        bytes_of "a " ++ HILI_COLOR ++ bytes_of "stat" ++ RESET ++ bytes_of " b" ++
      LINUM_COLOR ++ newline :: bytes_of "2:" ++ RESET ++
        bytes_of "xx " ++ HILI_COLOR ++ bytes_of "stat" ++ RESET ++ [newline]].
Proof. by vm_compute. Qed.
