(* ===== verification/Scarce.v ===== *)
(** What a worker does when the allocator refuses a request: nothing else
    than with one that does not, up to the point where it writes through the NULL
    pointer, or, for the table of the matcher, calls [exit]. *)

From S2P Require Import Prelude CInt Match Block Buffer BufferSpec Worker.
Local Open Scope Z_scope.

(** The allocator refuses a request for some number of bytes. *)
Definition scarce (ok : allocator) : Prop := ∃ n, 0 ≤ n < U64_MOD ∧ ok n = false.

Lemma serves_not_scarce ok : serves ok (2 ^ 64) → ¬ scarce ok.
Proof. intros Hok (n & Hn & Hf). unfold U64_MOD in Hn. rewrite Hok in Hf by lia. done. Qed.

(** ** Two runs that differ in the allocator *)

(** Of the two runs [o] is the same as [o'], whose values satisfy [Q], or stops
    at a NULL pointer because [P]. *)
Definition unless (P : Prop) {A} (Q : A → Prop) (o o' : outcome A) : Prop :=
  (o = o' ∧ ∀ a, o' = Ok a → Q a) ∨ P ∧ o = Fail NullPointer.

Section unless.
Context (P : Prop).

Lemma unless_refl {A} (Q : A → Prop) o : (∀ a, o = Ok a → Q a) → unless P Q o o.
Proof. by left. Qed.

Lemma unless_bind {A B} (Q : A → Prop) (R : B → Prop) o o' k k' :
  unless P Q o o' → (∀ a, Q a → unless P R (k a) (k' a)) → unless P R (o ≫= k) (o' ≫= k').
Proof.
  intros [[-> HQ]|[HP ->]] Hk; [|by right]. destruct o' as [a|f]; [|by left].
  apply Hk. by apply HQ.
Qed.

(** A step in which the allocator has no part. *)
Lemma unless_step {A B} (R : B → Prop) (o : outcome A) k k' :
  (∀ a, unless P R (k a) (k' a)) → unless P R (o ≫= k) (o ≫= k').
Proof. intros Hk. apply (unless_bind (λ _, True)); [by apply unless_refl|auto]. Qed.

Lemma unless_mono {A} (Q R : A → Prop) o o' :
  unless P Q o o' → (∀ a, Q a → R a) → unless P R o o'.
Proof. intros [[-> HQ]|[HP ->]] HR; [left; split; auto|by right]. Qed.

(** What holds of the second run holds of the first, if that one has a value. *)
Lemma unless_yields {A} (Q R : A → Prop) o o' :
  unless P Q o o' → o' ⇓ R → o ⇓ R ∨ P ∧ o = Fail NullPointer.
Proof. intros [[-> _]|?] HR; [by left|by right]. Qed.
End unless.

(** ** The result buffer *)

(** The capacity is a [size_t]. *)
Definition sized (st : bufstate) : Prop := 0 ≤ cap st < U64_MOD.

Section buffer.
Context (ok : allocator).
(** The allocator that serves every request. *)
Abbreviation plenty := (λ _ : Z, true).
Abbreviation unless := (unless (scarce ok)).
Implicit Types st : bufstate.

Lemma deref_unless {A} (R : A → Prop) b n k k' :
  0 ≤ n < U64_MOD → (∀ a, unless R (k a) (k' a)) →
  unless R (deref (realloc ok b n) ≫= k) (deref (realloc plenty b n) ≫= k').
Proof.
  intros Hn Hk. unfold realloc. destruct (ok n) eqn:Hok; [apply Hk|]. right. split; [by exists n|done].
Qed.

Lemma grow_loop_sized fuel : ∀ c need c',
  0 ≤ c < U64_MOD → grow_loop fuel c need = Ok c' → 0 ≤ c' < U64_MOD.
Proof.
  induction fuel as [|fuel IH]; intros c need c' Hc; cbn [grow_loop]; case_bool_decide; try done;
    [by intros [= <-]| |by intros [= <-]].
  apply IH. unfold u64. by apply Z.mod_pos_bound.
Qed.

Lemma buffer_grow_unless len st :
  sized st → unless sized (buffer_grow ok len st) (buffer_grow plenty len st).
Proof.
  intros Hst. unfold buffer_grow.
  apply (unless_bind _ (λ c, 0 ≤ c < U64_MOD)).
  { apply unless_refl. intros c. by apply grow_loop_sized. }
  intros c Hc. apply deref_unless; [done|]. intros blk. apply unless_step. intros blk'.
  apply unless_refl. by intros st' [= <-].
Qed.

Lemma init_buffer_unless st : unless sized (init_buffer ok st) (init_buffer plenty st).
Proof.
  assert (0 ≤ DEFAULT_SIZE < U64_MOD) as Hd by (unfold DEFAULT_SIZE, U64_MOD; lia).
  unfold init_buffer. destruct (buf st); (apply deref_unless; [done|]; intros blk;
    apply unless_step; intros blk'; apply unless_refl; by intros st' [= <-]).
Qed.

Lemma ensure_unless len st : sized st → unless sized (ensure ok len st) (ensure plenty len st).
Proof.
  intros Hst. unfold ensure. case_bool_decide; [by apply buffer_grow_unless|].
  apply unless_refl. by intros st' [= <-].
Qed.

(** The functions that return their result beside the new state. *)
Abbreviation sized_after := (λ r : Z * bufstate, sized r.2).

Lemma write_buffer_unless content len st :
  sized st → unless sized_after (write_buffer ok content len st) (write_buffer plenty content len st).
Proof.
  intros Hst. unfold write_buffer. eapply unless_bind; [by apply ensure_unless|].
  intros st' Hst'. do 2 (apply unless_step; intros ?). apply unless_refl. by intros r [= <-].
Qed.

Lemma writef_buffer_unless format arg st :
  sized st → unless sized_after (writef_buffer ok format arg st) (writef_buffer plenty format arg st).
Proof.
  intros Hst. unfold writef_buffer. apply unless_step. intros [].
  eapply unless_bind; [by apply write_buffer_unless|]. intros r Hr.
  apply unless_refl. by intros ? [= <-].
Qed.

Lemma writeline_color_unless content len off1 colorlen st :
  sized st → unless sized_after (writeline_color_buffer ok content len off1 colorlen st)
    (writeline_color_buffer plenty content len off1 colorlen st).
Proof.
  intros Hst. unfold writeline_color_buffer. apply (unless_bind _ sized).
  { case_bool_decide; [by apply buffer_grow_unless|]. apply unless_refl. by intros ? [= <-]. }
  intros st' Hst'. do 7 (apply unless_step; intros ?). apply unless_refl. by intros r [= <-].
Qed.

Lemma amendline_color_unless lastlen off1 colorlen cnt st :
  sized st → unless sized_after (amendline_color_buffer ok lastlen off1 colorlen cnt st)
    (amendline_color_buffer plenty lastlen off1 colorlen cnt st).
Proof.
  intros Hst. unfold amendline_color_buffer. apply (unless_bind _ sized).
  { case_bool_decide; [by apply buffer_grow_unless|]. apply unless_refl. by intros ? [= <-]. }
  intros st' Hst'. do 5 (apply unless_step; intros ?). apply unless_refl. by intros r [= <-].
Qed.

(** ** The search of a file *)

Abbreviation wsized := (λ st : worker_state, sized (wbuf st)).

Lemma worker_writebuffer_unless patlen fb pos linum lastlinum (st : worker_state) :
  sized (wbuf st) →
  unless wsized (worker_writebuffer ok patlen fb pos linum lastlinum st)
    (worker_writebuffer plenty patlen fb pos linum lastlinum st).
Proof.
  intros Hst. unfold worker_writebuffer. apply unless_step. intros bol. case_bool_decide.
  - eapply unless_bind; [by apply writef_buffer_unless|]. intros r Hr.
    eapply unless_bind; [by apply writeline_color_unless|]. intros r' Hr'.
    apply unless_refl. by intros ? [= <-].
  - eapply unless_bind; [by apply amendline_color_unless|]. intros r Hr. apply unless_step. intros c.
    apply unless_refl. by intros ? [= <-].
Qed.

Lemma search_loop_unless kst patlen fb size fuel : ∀ startpos linum0 lastlinum (st : worker_state),
  sized (wbuf st) →
  unless wsized (search_loop fuel ok kst patlen fb size startpos linum0 lastlinum st)
    (search_loop fuel plenty kst patlen fb size startpos linum0 lastlinum st).
Proof.
  induction fuel as [|fuel IH]; intros startpos linum0 lastlinum st Hst; cbn [search_loop];
    apply unless_step; intros r; (destruct (matched r); [|apply unless_refl; by intros ? [= <-]]);
    (eapply unless_bind; [by apply worker_writebuffer_unless|]); intros st' Hst';
    [by apply unless_refl|by apply IH].
Qed.

Lemma search_file_unless kst patlen fb size (st : worker_state) :
  sized (wbuf st) →
  unless wsized (search_file ok kst patlen fb size st) (search_file plenty kst patlen fb size st).
Proof. apply search_loop_unless. Qed.
End buffer.

(** A buffer that holds a text is one. *)
Lemma holds_sized st s : holds st s → sized st.
Proof.
  intros Hst. pose proof (holds_cap_pos _ _ Hst) as Hc. pose proof (holds_max _ _ Hst).
  unfold DEFAULT_SIZE in Hc. unfold sized, U64_MOD. lia.
Qed.

Lemma plenty_serves n : serves (λ _, true) n.
Proof. by intros m _. Qed.
