(* ===== verification/LinkedList.v ===== *)
(** The circular doubly linked list of [src/util.h]: [INIT_LIST_HEAD],
    [__list_add], [list_add], [list_add_tail], [list_empty] and the traversal
    of [list_for_each_entry]. *)

From S2P Require Import Prelude Heap.

(** ** Data *)

(** [struct list_head]; the fields of a head that nothing has initialised are
    not pointers to anything. *)
Record list_head := ListHead { next : ptr; prev : ptr }.

(** The list heads in memory, by address. *)
Abbreviation links := (gmap loc list_head).

Definition get_head (p : ptr) : M links list_head := λ m,
  match p with
  | None => Fail NullPointer
  | Some l => match m !! l with Some h => Ok (h, m) | None => Fail UseAfterFree end
  end.

Definition put_head (p : ptr) (h : list_head) : M links unit := λ m,
  match p with
  | None => Fail NullPointer
  | Some l => match m !! l with Some _ => Ok (tt, <[l := h]> m) | None => Fail UseAfterFree end
  end.

(** [p->next = v] and [p->prev = v]. *)
Definition set_next (p v : ptr) : M links unit :=
  h ← get_head p; put_head p (ListHead v (prev h)).
Definition set_prev (p v : ptr) : M links unit :=
  h ← get_head p; put_head p (ListHead (next h) v).
Definition get_next (p : ptr) : M links ptr := h ← get_head p; mret (next h).
Definition get_prev (p : ptr) : M links ptr := h ← get_head p; mret (prev h).

(** ** Operations *)

Definition INIT_LIST_HEAD (list : ptr) : M links unit :=
  set_next list list;; set_prev list list.

Definition __list_add (newnode prev next : ptr) : M links unit :=
  set_prev next newnode;;
  set_next newnode next;;
  set_prev newnode prev;;
  set_next prev newnode.

Definition list_empty (head : ptr) : M links bool :=
  n ← get_next head; mret (bool_decide (n = head)).

Definition list_add (newnode head : ptr) : M links unit :=
  n ← get_next head; __list_add newnode head n.

Definition list_add_tail (newnode head : ptr) : M links unit :=
  p ← get_prev head; __list_add newnode p head.

(** The entries that [list_for_each_entry] visits from [pos] on; the list
    head is the first member of its structure, so [list_entry] is the
    identity on addresses. *)
Fixpoint for_each_entry (fuel : nat) (pos head : ptr) : M links (list loc) :=
  if bool_decide (pos = head) then mret []
  else match fuel, pos with
       | O, _ => fail OutOfFuel
       | _, None => fail NullPointer
       | S fuel', Some l =>
           pos' ← get_next pos;
           ls ← for_each_entry fuel' pos' head;
           mret (l :: ls)
       end.

Definition list_for_each_entry (fuel : nat) (head : ptr) : M links (list loc) :=
  pos ← get_next head; for_each_entry fuel pos head.

(** ** Rings *)

Definition nxt (m : links) (a : loc) : option ptr := next <$> m !! a.
Definition prv (m : links) (a : loc) : option ptr := prev <$> m !! a.

(** Neighbours in the list point to each other. *)
Fixpoint linked (m : links) (l : list loc) : Prop :=
  match l with
  | [] => True
  | a :: l' =>
      match l' with
      | [] => True
      | b :: _ => nxt m a = Some (Some b) ∧ prv m b = Some (Some a) ∧ linked m l'
      end
  end.

(** The list of head [h] has the entries [xs]. *)
Definition ring (m : links) (h : loc) (xs : list loc) : Prop :=
  NoDup (h :: xs) ∧ linked m (h :: xs ++ [h]).

Lemma linked_app m l1 a l2 :
  linked m (l1 ++ a :: l2) ↔ linked m (l1 ++ [a]) ∧ linked m (a :: l2).
Proof.
  induction l1 as [|b l1 IH].
  - cbn [app]. split; [by split|]. by intros [_ ?].
  - destruct l1 as [|c l1]; cbn [app] in *.
    + cbn [linked tail]. naive_solver.
    + cbn [linked tail] in *. rewrite IH. naive_solver.
Qed.

Lemma linked_frame m m' l :
  (∀ a, a ∈ removelast l → nxt m' a = nxt m a) → (∀ b, b ∈ tail l → prv m' b = prv m b) →
  linked m l → linked m' l.
Proof.
  induction l as [|a [|b l] IH]; intros Hn Hp Hl; [done..|].
  destruct Hl as (H1 & H2 & H3). cbn [linked tail]. split_and!.
  - rewrite Hn; [done|]. by left.
  - rewrite Hp; [done|]. by left.
  - apply IH; [..|done].
    + intros c Hc. apply Hn. by right.
    + intros c Hc. apply Hp. by right.
Qed.

Lemma linked_alloc m l a : linked m l → a ∈ l → l ≠ [a] → is_Some (m !! a).
Proof.
  intros Hl [l1 [l2 ->]]%list_elem_of_split Hne. destruct l2 as [|b l2].
  - destruct l1 as [|c l1] using rev_ind; [done|]. rewrite <-app_assoc in Hl. cbn [app] in Hl.
    apply linked_app in Hl as [_ (_ & H & _)]. unfold prv in H.
    destruct (m !! a); [by eauto|done].
  - apply linked_app in Hl as [_ (H & _)]. unfold nxt in H. destruct (m !! a); [by eauto|done].
Qed.

Lemma wp_get_next l p m Q :
  nxt m l = Some p → Q p m → wp (get_next (Some l)) Q m.
Proof.
  unfold nxt. intros (h & Hh & ->)%fmap_Some HQ. unfold get_next. apply wp_bind.
  unfold wp, get_head. by rewrite Hh.
Qed.

Lemma wp_get_prev l p m Q :
  prv m l = Some p → Q p m → wp (get_prev (Some l)) Q m.
Proof.
  unfold prv. intros (h & Hh & ->)%fmap_Some HQ. unfold get_prev. apply wp_bind.
  unfold wp, get_head. by rewrite Hh.
Qed.

(** A store to one field: what it changes, and what it does not. *)
Lemma wp_set_next l v m (Q : unit → links → Prop) :
  is_Some (m !! l) →
  (∀ m', dom m' = dom m → (∀ a, prv m' a = prv m a) →
    (∀ a, nxt m' a = if decide (a = l) then Some v else nxt m a) → Q tt m') →
  wp (set_next (Some l) v) Q m.
Proof.
  intros [h Hh] HQ. unfold set_next, wp, get_head, put_head, mbind, M_bind.
  rewrite Hh. cbn. rewrite Hh. cbn.
  apply HQ; unfold prv, nxt.
  - apply dom_insert_lookup_L. by eauto.
  - intros a. destruct (decide (l = a)) as [->|]; [by rewrite lookup_insert_eq, Hh|].
    by rewrite lookup_insert_ne.
  - intros a. case_decide as Ha; [subst; by rewrite lookup_insert_eq|].
    by rewrite lookup_insert_ne by congruence.
Qed.

Lemma wp_set_prev l v m (Q : unit → links → Prop) :
  is_Some (m !! l) →
  (∀ m', dom m' = dom m → (∀ a, nxt m' a = nxt m a) →
    (∀ a, prv m' a = if decide (a = l) then Some v else prv m a) → Q tt m') →
  wp (set_prev (Some l) v) Q m.
Proof.
  intros [h Hh] HQ. unfold set_prev, wp, get_head, put_head, mbind, M_bind.
  rewrite Hh. cbn. rewrite Hh. cbn.
  apply HQ; unfold prv, nxt.
  - apply dom_insert_lookup_L. by eauto.
  - intros a. destruct (decide (l = a)) as [->|]; [by rewrite lookup_insert_eq, Hh|].
    by rewrite lookup_insert_ne.
  - intros a. case_decide as Ha; [subst; by rewrite lookup_insert_eq|].
    by rewrite lookup_insert_ne by congruence.
Qed.

Lemma dom_is_Some (m m' : links) a : dom m' = dom m → is_Some (m !! a) → is_Some (m' !! a).
Proof. intros Hd. rewrite <-!elem_of_dom. by rewrite Hd. Qed.

(** The four stores of [__list_add]. *)
Lemma wp___list_add n p q m (Q : unit → links → Prop) :
  is_Some (m !! n) → is_Some (m !! p) → is_Some (m !! q) → n ≠ p → n ≠ q →
  (∀ m', dom m' = dom m →
    (∀ a, nxt m' a = if decide (a = p) then Some (Some n)
                     else if decide (a = n) then Some (Some q) else nxt m a) →
    (∀ a, prv m' a = if decide (a = n) then Some (Some p)
                     else if decide (a = q) then Some (Some n) else prv m a) → Q tt m') →
  wp (__list_add (Some n) (Some p) (Some q)) Q m.
Proof.
  intros Hn Hp Hq Hnp Hnq HQ. unfold __list_add.
  apply wp_bind, wp_set_prev; [done|]. intros m1 D1 N1 P1.
  apply wp_bind, wp_set_next; [by eapply (dom_is_Some m)|]. intros m2 D2 P2 N2.
  apply wp_bind, wp_set_prev; [by eapply (dom_is_Some m); [congruence|]|]. intros m3 D3 N3 P3.
  apply wp_set_next; [by eapply (dom_is_Some m); [congruence|]|]. intros m4 D4 P4 N4.
  apply HQ; [congruence|..]; intros a.
  - rewrite N4, N3, N2, N1. done.
  - rewrite P4, P3, P2, P1. done.
Qed.

(** ** Insertion between two neighbours *)

Lemma elem_of_removelast_app (l : list loc) (x a : loc) : a ∈ removelast (l ++ [x]) ↔ a ∈ l.
Proof. by rewrite removelast_last. Qed.

Lemma ring_split m h xs ys p q :
  list.last (h :: xs) = Some p → list.head (ys ++ [h]) = Some q →
  ring m h (xs ++ ys) ↔ NoDup (h :: xs ++ ys) ∧ linked m (h :: xs) ∧ linked m (ys ++ [h]) ∧
    nxt m p = Some (Some q) ∧ prv m q = Some (Some p).
Proof.
  intros [l1 Hl1]%last_Some Hq. unfold ring.
  destruct (ys ++ [h]) as [|q' l2] eqn:Hys; [done|]. cbn in Hq. simplify_eq.
  assert (h :: (xs ++ ys) ++ [h] = l1 ++ p :: q :: l2) as ->.
  { by rewrite <-app_assoc, Hys, (app_comm_cons xs), Hl1, <-app_assoc. }
  rewrite linked_app, Hl1. cbn [linked]. tauto.
Qed.

(** The two neighbours, and who they differ from. *)
Record neighbours (h : loc) (xs ys : list loc) (n p q : loc) : Prop := {
  nb_np : n ≠ p;
  nb_nq : n ≠ q;
  nb_before : ∀ a, a ∈ removelast (h :: xs) → a ≠ p ∧ a ≠ n;
  nb_xs : ∀ b, b ∈ xs → b ≠ n ∧ b ≠ q;
  nb_ys : ∀ a, a ∈ ys → a ≠ p ∧ a ≠ n;
  nb_after : ∀ b, b ∈ tail (ys ++ [h]) → b ≠ n ∧ b ≠ q;
}.

Lemma neighbours_intro h xs ys n p q :
  NoDup (h :: xs ++ ys) → n ∉ h :: xs ++ ys →
  list.last (h :: xs) = Some p → list.head (ys ++ [h]) = Some q → neighbours h xs ys n p q.
Proof.
  intros Hnd Hn [l1 Hl1]%list.last_Some Hq.
  assert (∀ b, b ∈ h :: xs ++ ys → b ≠ n) as Hbn by (intros b Hb ->; done).
  assert (∀ b, b ∈ h :: xs → b ∈ ys → False) as Hdisj.
  { rewrite app_comm_cons in Hnd. by apply list.NoDup_app in Hnd as (_ & Hd & _). }
  assert (p ∈ h :: xs) as Hp by (rewrite Hl1; apply elem_of_app; right; by left).
  assert (∀ b, b ∈ ys → b ∈ h :: xs ++ ys) as Hys by (intros b Hb; right; apply elem_of_app; auto).
  assert (∀ b, b ∈ h :: xs → b ∈ h :: xs ++ ys) as Hxs
    by (intros b Hb; rewrite app_comm_cons; apply elem_of_app; auto).
  assert (q = h ∨ q ∈ ys) as Hqc by (destruct ys; cbn in Hq; simplify_eq; [by left|right; by left]).
  apply list.NoDup_cons in Hnd as [Hh Hnd].
  split.
  - intros ->. by apply (Hbn p); [apply Hxs|].
  - intros ->. destruct Hqc as [->|Hqc]; [by apply (Hbn h); [left|]|by apply (Hbn q); [apply Hys|]].
  - rewrite Hl1. intros a Ha%elem_of_removelast_app. split; [|apply Hbn, Hxs; rewrite Hl1; set_solver].
    intros ->. assert (NoDup (h :: xs)) as Hnd'.
    { apply list.NoDup_cons. split; [|by apply list.NoDup_app in Hnd as (? & _)].
      intros Hin. apply Hh, elem_of_app. by left. }
    rewrite Hl1 in Hnd'. apply list.NoDup_app in Hnd' as (_ & Hd & _). apply (Hd p); [done|by left].
  - intros b Hb. split; [apply Hbn, Hxs; by right|]. intros ->. destruct Hqc as [->|Hqc].
    + apply Hh, elem_of_app. by left.
    + apply (Hdisj q); [by right|done].
  - intros a Ha. split; [intros ->; by apply (Hdisj p)|by apply Hbn, Hys].
  - intros b Hb. destruct ys as [|y ys]; cbn [tail app] in Hb; [by apply elem_of_nil in Hb|].
    cbn in Hq. simplify_eq. apply elem_of_app in Hb as [Hb|Hb%list_elem_of_singleton].
    + split; [apply Hbn, Hys; by right|]. intros ->.
      apply list.NoDup_app in Hnd as (_ & _ & Hnd). by apply list.NoDup_cons in Hnd as [? _].
    + subst b. split; [apply Hbn; by left|]. intros ->. apply Hh, elem_of_app. right. by left.
Qed.

Lemma ring_insert m h xs ys n p q (Q : unit → links → Prop) :
  ring m h (xs ++ ys) → n ∉ h :: xs ++ ys → is_Some (m !! n) →
  list.last (h :: xs) = Some p → list.head (ys ++ [h]) = Some q →
  is_Some (m !! p) → is_Some (m !! q) →
  (∀ m', ring m' h (xs ++ n :: ys) → dom m' = dom m → Q tt m') →
  wp (__list_add (Some n) (Some p) (Some q)) Q m.
Proof.
  intros Hr Hn Hsn Hp Hq Hsp Hsq HQ.
  pose proof Hr as (Hnd & H1 & H2 & Hpq & Hqp)%(ring_split _ _ _ _ p q); [|done..].
  destruct (neighbours_intro h xs ys n p q Hnd Hn Hp Hq) as [Hnp Hnq Hbefore Hxs Hys Hafter].
  apply wp___list_add; [done..|]. intros m' Hdom N P. apply HQ; [|done].
  apply (ring_split _ _ xs (n :: ys) p n); [done|done|]. split_and!.
  - assert (h :: xs ++ n :: ys ≡ₚ n :: h :: xs ++ ys) as ->
      by (by rewrite <-Permutation_middle, Permutation_swap).
    by apply list.NoDup_cons.
  - apply (linked_frame m); [| |done].
    + intros a Ha. destruct (Hbefore a Ha). by rewrite N, !decide_False.
    + intros b Hb. destruct (Hxs b Hb). by rewrite P, !decide_False.
  - cbn [app]. destruct (ys ++ [h]) as [|q' l2] eqn:Hl2; [done|]. cbn in Hq. simplify_eq.
    split; [by rewrite N, decide_False, decide_True|].
    split; [by rewrite P, decide_False, decide_True|].
    apply (linked_frame m); [| |done].
    + intros a Ha. rewrite <-Hl2 in Ha. apply elem_of_removelast_app in Ha.
      destruct (Hys a Ha). by rewrite N, !decide_False.
    + intros b Hb. destruct (Hafter b Hb). by rewrite P, !decide_False.
  - by rewrite N, decide_True.
  - by rewrite P, decide_True.
Qed.

(** ** The operations on a ring *)

Lemma ring_alloc m h xs a : ring m h xs → a ∈ h :: xs → is_Some (m !! a).
Proof.
  intros [_ Hl] Ha. apply (linked_alloc m _ a Hl).
  - rewrite app_comm_cons. apply elem_of_app. by left.
  - by destruct xs.
Qed.

Lemma ring_last m h xs p :
  ring m h xs → list.last (h :: xs) = Some p → prv m h = Some (Some p).
Proof.
  intros Hr Hp. rewrite <-(app_nil_r xs) in Hr.
  by apply (ring_split m h xs [] p h) in Hr as (_ & _ & _ & _ & ?).
Qed.

Lemma ring_head m h xs q :
  ring m h xs → list.head (xs ++ [h]) = Some q → nxt m h = Some (Some q).
Proof.
  intros Hr Hq. by apply (ring_split m h [] xs h q) in Hr as (_ & _ & _ & ? & _).
Qed.

Lemma wp_INIT_LIST_HEAD h m (Q : unit → links → Prop) :
  is_Some (m !! h) → (∀ m', ring m' h [] → dom m' = dom m → Q tt m') →
  wp (INIT_LIST_HEAD (Some h)) Q m.
Proof.
  intros Hh HQ. unfold INIT_LIST_HEAD. apply wp_bind, wp_set_next; [done|]. intros m1 D1 P1 N1.
  apply wp_set_prev; [by eapply (dom_is_Some m)|]. intros m2 D2 N2 P2. apply HQ; [|congruence].
  split; [apply list.NoDup_singleton|]. cbn [app linked].
  by rewrite N2, N1, P2, !decide_True.
Qed.

Lemma wp_list_add_tail n h xs m (Q : unit → links → Prop) :
  ring m h xs → n ∉ h :: xs → is_Some (m !! n) →
  (∀ m', ring m' h (xs ++ [n]) → dom m' = dom m → Q tt m') →
  wp (list_add_tail (Some n) (Some h)) Q m.
Proof.
  intros Hr Hn Hsn HQ. destruct (list.last (h :: xs)) as [p|] eqn:Hp.
  2:{ by apply list.last_None in Hp. }
  unfold list_add_tail. apply wp_bind, (wp_get_prev h (Some p)); [by eapply ring_last|].
  apply (ring_insert m h xs [] n p h); rewrite ?app_nil_r; try done.
  - eapply ring_alloc; [done|]. apply list.last_Some in Hp as [l ->]. apply elem_of_app. right. by left.
  - eapply ring_alloc; [done|]. by left.
Qed.

Lemma wp_list_add n h xs m (Q : unit → links → Prop) :
  ring m h xs → n ∉ h :: xs → is_Some (m !! n) →
  (∀ m', ring m' h (n :: xs) → dom m' = dom m → Q tt m') →
  wp (list_add (Some n) (Some h)) Q m.
Proof.
  intros Hr Hn Hsn HQ. destruct (list.head (xs ++ [h])) as [q|] eqn:Hq; [|by destruct xs].
  unfold list_add. apply wp_bind, (wp_get_next h (Some q)); [by eapply ring_head|].
  apply (ring_insert m h [] xs n h q); try done.
  - eapply ring_alloc; [done|]. by left.
  - eapply ring_alloc; [done|]. destruct xs as [|x xs]; cbn in Hq; simplify_eq.
    + by left.
    + right. by left.
Qed.

Lemma wp_list_empty h xs m :
  ring m h xs → wp (list_empty (Some h)) (λ b m', m' = m ∧ (b = true ↔ xs = [])) m.
Proof.
  intros Hr. destruct (list.head (xs ++ [h])) as [q|] eqn:Hq; [|by destruct xs].
  unfold list_empty. apply wp_bind, (wp_get_next h (Some q)); [by eapply ring_head|].
  apply wp_ret. split; [done|]. rewrite bool_decide_eq_true.
  destruct Hr as [Hnd _]. destruct xs as [|x xs]; cbn in Hq; simplify_eq; [done|].
  split; [|done]. intros [= ->]. apply list.NoDup_cons in Hnd as [Hn _]. by destruct Hn; left.
Qed.

(** The traversal visits the entries in order and leaves the list alone. *)
Lemma for_each_linked m h xs : ∀ fuel pos,
  h ∉ xs → linked m (xs ++ [h]) → list.head (xs ++ [h]) = Some pos → (length xs ≤ fuel)%nat →
  wp (for_each_entry fuel (Some pos) (Some h)) (λ l m', l = xs ∧ m' = m) m.
Proof.
  induction xs as [|x xs IH]; intros fuel pos Hh Hl Hp Hf; cbn in Hp; simplify_eq.
  { destruct fuel; cbn [for_each_entry]; by rewrite bool_decide_true. }
  apply not_elem_of_cons in Hh as [Hne Hh]. destruct fuel as [|fuel]; [cbn [length] in Hf; lia|].
  cbn [for_each_entry]. rewrite bool_decide_false by congruence.
  destruct (list.head (xs ++ [h])) as [q|] eqn:Hq; [|by destruct xs].
  assert (nxt m pos = Some (Some q) ∧ linked m (xs ++ [h])) as [Hn Hl'].
  { destruct xs; cbn in Hq; simplify_eq; cbn [app linked] in *; tauto. }
  apply wp_bind, (wp_get_next pos (Some q)); [done|]. apply wp_bind.
  eapply wp_mono; [apply (IH fuel q); [done..|cbn [length] in Hf; lia]|].
  intros l m' [-> ->]. by apply wp_ret.
Qed.

Lemma wp_list_for_each_entry fuel m h xs :
  ring m h xs → (length xs ≤ fuel)%nat →
  wp (list_for_each_entry fuel (Some h)) (λ l m', l = xs ∧ m' = m) m.
Proof.
  intros Hr Hf. destruct (list.head (xs ++ [h])) as [q|] eqn:Hq; [|by destruct xs].
  unfold list_for_each_entry. apply wp_bind, (wp_get_next h (Some q)); [by eapply ring_head|].
  destruct Hr as [Hnd Hl]. apply for_each_linked; [|destruct xs; cbn in Hl |- *; tauto|done..].
  by apply list.NoDup_cons in Hnd as [? _].
Qed.

(** ** Sessions *)

Inductive list_op := AddFront (n : loc) | AddBack (n : loc).
Definition op_node (o : list_op) : loc := match o with AddFront n | AddBack n => n end.

(** What an operation does, and what it means on a sequence. *)
Definition run_op (h : loc) (o : list_op) : M links unit :=
  match o with
  | AddFront n => list_add (Some n) (Some h)
  | AddBack n => list_add_tail (Some n) (Some h)
  end.
Definition spec_op (xs : list loc) (o : list_op) : list loc :=
  match o with AddFront n => n :: xs | AddBack n => xs ++ [n] end.

Fixpoint run_ops (h : loc) (ops : list list_op) : M links unit :=
  match ops with
  | [] => mret tt
  | o :: ops' => run_op h o;; run_ops h ops'
  end.

Lemma spec_op_perm xs o : spec_op xs o ≡ₚ op_node o :: xs.
Proof. destruct o; cbn [spec_op op_node]; [done|]. by rewrite Permutation_app_comm. Qed.

Lemma wp_run_ops h ops : ∀ xs m,
  ring m h xs → NoDup (h :: xs ++ (op_node <$> ops)) → Forall (λ o, is_Some (m !! op_node o)) ops →
  wp (run_ops h ops) (λ _ m', ring m' h (fold_left spec_op ops xs)) m.
Proof.
  induction ops as [|o ops IH]; intros xs m Hr Hnd Ha; [by apply wp_ret|].
  cbn [run_ops fold_left]. apply Forall_cons_iff in Ha as [Hao Ha].
  assert (op_node o :: h :: xs ++ (op_node <$> ops) ≡ₚ h :: xs ++ (op_node <$> o :: ops)) as Hp.
  { rewrite fmap_cons, <-Permutation_middle. by rewrite Permutation_swap. }
  rewrite <-Hp in Hnd. apply list.NoDup_cons in Hnd as [Hno Hnd].
  assert (op_node o ∉ h :: xs) as Hni by (intros Hin; apply Hno; rewrite app_comm_cons;
    apply elem_of_app; by left).
  assert (∀ m', ring m' h (spec_op xs o) → dom m' = dom m →
    wp (run_ops h ops) (λ _ m', ring m' h (fold_left spec_op ops (spec_op xs o))) m') as Hnext.
  { intros m' Hr' Hdom. apply IH; [done| |].
    - rewrite spec_op_perm. cbn [app]. rewrite Permutation_swap. by apply list.NoDup_cons.
    - eapply list.Forall_impl; [exact Ha|]. intros o' Ho'. by eapply (dom_is_Some m). }
  apply wp_bind. destruct o as [n|n]; cbn [run_op op_node spec_op] in *.
  - by eapply wp_list_add.
  - by eapply wp_list_add_tail.
Qed.

(** C28: after [INIT_LIST_HEAD], any sequence of [list_add] and
    [list_add_tail] of distinct nodes is, for [list_for_each_entry], the
    sequence of the nodes added in front and at the back, and [list_empty]
    tells whether there are any. *)
Theorem list_ops_refine h ops m :
  is_Some (m !! h) → NoDup (h :: (op_node <$> ops)) →
  Forall (λ o, is_Some (m !! op_node o)) ops →
  let xs := fold_left spec_op ops [] in
  wp (INIT_LIST_HEAD (Some h);; run_ops h ops;;
      b ← list_empty (Some h); l ← list_for_each_entry (length ops) (Some h); mret (b, l))
    (λ r m', r.2 = xs ∧ (r.1 = true ↔ xs = []) ∧ ring m' h xs) m.
Proof.
  intros Hh Hnd Ha xs. apply wp_bind, wp_INIT_LIST_HEAD; [done|]. intros m1 Hr1 D1.
  apply wp_bind. eapply wp_mono; [apply (wp_run_ops h ops []); [done|done|]|].
  { eapply list.Forall_impl; [exact Ha|]. intros o Ho. by eapply (dom_is_Some m). }
  intros [] m2 Hr2. fold xs in Hr2. apply wp_bind.
  eapply wp_mono; [by apply wp_list_empty|]. intros b m3 [-> Hb]. apply wp_bind.
  assert (length xs = length ops) as Hlen.
  { assert (∀ os l, length (fold_left spec_op os l) = (length l + length os)%nat) as H.
    { induction os as [|o os IH]; intros l; cbn [fold_left length]; [lia|].
      rewrite IH, spec_op_perm. cbn [length]. lia. }
    apply H. }
  eapply wp_mono; [apply (wp_list_for_each_entry _ m2 h xs); [done|lia]|].
  intros l m3 [-> ->]. by apply wp_ret.
Qed.

(** Three nodes and a head, not initialised. *)
Definition four_heads : links :=
  list_to_map ((λ l, (l, ListHead None None)) <$> [1; 2; 3; 4]%positive).

Lemma list_ops_refine_witness :
  wp (INIT_LIST_HEAD (Some 1%positive);;
      run_ops 1 [AddBack 2; AddBack 3; AddFront 4];;
      b ← list_empty (Some 1%positive);
      l ← list_for_each_entry 3 (Some 1%positive); mret (b, l))
    (λ r m', r.2 = [4; 2; 3]%positive ∧ (r.1 = true ↔ [4; 2; 3]%positive = []) ∧
      ring m' 1%positive [4; 2; 3]%positive) four_heads.
Proof.
  apply (list_ops_refine 1 [AddBack 2; AddBack 3; AddFront 4] four_heads).
  - by eexists.
  - apply (bool_decide_unpack _). by vm_compute.
  - apply (bool_decide_unpack _). by vm_compute.
Defined.
