(* ===== verification/Rope.v ===== *)
(** The second result buffer of [src/buffer.c]: a list of ropes, one for each
    write ([buf_init], [buf_write], [buf_dump], [buf_destroy]), and the
    operations on a single rope. *)

From S2P Require Import Prelude CInt Heap LinkedList Block.
Local Open Scope Z_scope.

(** ** Data *)

Definition TAG_DEFAULT : Z := 0.
Definition TAG_CONTEXT : Z := 1.
Definition TAG_KEYWORD : Z := 2.
Definition TAG_ANSIESC : Z := 3.
Definition TAG_MISCTXT : Z := 4.

(** [struct rope] without its [list_head], which is its first member and has
    its address. A field is [None] until it is written. The union of [pstr]
    and [isleaf] is the address in [pstr]: [isleaf] is its lowest byte. *)
Record rope := Rope {
  left : option ptr;
  right : option ptr;
  isleaf : option Z;
  pstr_high : option Z;
  tag : option Z;
}.

Definition indeterminate : rope := Rope None None None None None.

(** The list heads, the ropes and the strings in memory. *)
Record rmem := RMem {
  rlinks : links;
  rropes : heap rope;
  rstrs : heap (list byte);
}.

Definition on_links {A} (m : M links A) : M rmem A := λ s,
  match m (rlinks s) with
  | Ok (a, l) => Ok (a, RMem l (rropes s) (rstrs s))
  | Fail f => Fail f
  end.
Definition on_ropes {A} (m : M (heap rope) A) : M rmem A := λ s,
  match m (rropes s) with
  | Ok (a, r) => Ok (a, RMem (rlinks s) r (rstrs s))
  | Fail f => Fail f
  end.
Definition on_strs {A} (m : M (heap (list byte)) A) : M rmem A := λ s,
  match m (rstrs s) with
  | Ok (a, t) => Ok (a, RMem (rlinks s) (rropes s) t)
  | Fail f => Fail f
  end.

(** The number that is a pointer's value. *)
Definition address (p : ptr) : Z := match p with None => 0 | Some l => Zpos l end.
Definition to_ptr (a : Z) : ptr := match a with Zpos l => Some l | _ => None end.

(** ** Memory *)

(** The list head inside a rope comes and goes with it. *)
Definition new_head (l : loc) : M rmem unit := λ s,
  Ok (tt, RMem (<[l := ListHead None None]> (rlinks s)) (rropes s) (rstrs s)).
Definition drop_head (l : loc) : M rmem unit := λ s,
  Ok (tt, RMem (delete l (rlinks s)) (rropes s) (rstrs s)).

(** [malloc(sizeof(struct rope))]. *)
Definition malloc_rope : M rmem ptr :=
  p ← on_ropes (malloc indeterminate);
  match p with
  | None => mret None
  | Some l => new_head l;; mret (Some l)
  end.

Definition free_rope (p : ptr) : M rmem unit :=
  on_ropes (free p);;
  match p with
  | None => mret tt
  | Some l => drop_head l
  end.

(** The characters [strndup] copies: at most [len], and none from the first
    NUL on. *)
Fixpoint strn (content : list byte) (len : nat) {struct len} : outcome (list byte) :=
  match len with
  | O => Ok []
  | S len' =>
      match content with
      | [] => Fail OutOfBounds
      | c :: content' =>
          if bool_decide (c = NUL) then Ok []
          else s ← strn content' len'; Ok (c :: s)
      end
  end.

Definition strndup (content : list byte) (len : Z) : M rmem ptr :=
  s ← lift (strn content (Z.to_nat len));
  on_strs (malloc s).

Definition strdup (s : list byte) : M rmem ptr := on_strs (malloc s).

(** ** Operations on a rope *)

(** [r->pstr = s; r->tag = tag;]. *)
Definition set_leaf (r s : ptr) (tag : Z) : M rmem unit :=
  b ← on_ropes (load r);
  on_ropes (store r (Rope (left b) (right b) (Some (address s mod 256))
    (Some (address s / 256)) (Some tag))).

Definition rope_set (r : ptr) (str : list byte) (tag : Z) : M rmem unit :=
  s ← strdup str; set_leaf r s tag.

(** [len] is a [uint32_t]. *)
Definition rope_setn (r : ptr) (str : list byte) (len tag : Z) : M rmem unit :=
  s ← strndup str (u32 len); set_leaf r s tag.

(** [r->pstr]. *)
Definition get_pstr (r : ptr) : M rmem ptr :=
  b ← on_ropes (load r);
  match isleaf b, pstr_high b with
  | Some lo, Some hi => mret (to_ptr (256 * hi + lo))
  | _, _ => fail Uninitialised
  end.

Definition rope_tear (r : ptr) : M rmem unit :=
  b ← on_ropes (load r);
  match isleaf b with
  | None => fail Uninitialised
  | Some lo =>
      if bool_decide (lo ≠ 0) then s ← get_pstr r; on_strs (free s) else mret tt
  end.

(** [rope_join]; [offset] is not stored. *)
Definition rope_join (r : ptr) (offset : Z) (r1 r2 : ptr) : M rmem unit :=
  b ← on_ropes (load r);
  on_ropes (store r (Rope (Some r1) (Some r2) (Some 0) (pstr_high b) (Some TAG_DEFAULT))).

Definition rope_isleaf (r : ptr) : M rmem bool :=
  b ← on_ropes (load r);
  match tag b with
  | None => fail Uninitialised
  | Some t => mret (bool_decide (t ≠ TAG_DEFAULT))
  end.

(** ** The buffer: [head] is the address of its [ropelist] *)

Definition buf_init (head : ptr) : M rmem unit := on_links (INIT_LIST_HEAD head).

(** It declares a result and returns none. *)
Definition buf_write (head : ptr) (content : list byte) (len : Z) : M rmem unit :=
  pr ← malloc_rope;
  rope_setn pr content len TAG_CONTEXT;;
  on_links (list_add_tail pr head).

(** The loop of [buf_dump] over the entries: the lines printed. *)
Fixpoint dump_entries (ls : list loc) : M rmem (list (list byte)) :=
  match ls with
  | [] => mret []
  | l :: ls' =>
      leaf ← rope_isleaf (Some l);
      line ← (if (leaf : bool) then
                p ← get_pstr (Some l);
                s ← on_strs (load p);
                mret [s ++ [x0a]]
              else mret []);
      rest ← dump_entries ls';
      mret (line ++ rest)
  end.

Definition buf_dump (fuel : nat) (head : ptr) : M rmem (list (list byte)) :=
  ls ← on_links (list_for_each_entry fuel head);
  dump_entries ls.

(** The loop of [buf_destroy]: [prefetch] is read before [p] is freed. *)
Fixpoint destroy_loop (fuel : nat) (p prefetch head : ptr) : M rmem unit :=
  if bool_decide (p = head) then mret tt
  else match fuel with
       | O => fail OutOfFuel
       | S fuel' =>
           s ← get_pstr p;
           on_strs (free s);;
           free_rope p;;
           n ← on_links (get_next prefetch);
           destroy_loop fuel' prefetch n head
       end.

Definition buf_destroy (fuel : nat) (head : ptr) : M rmem unit :=
  p ← on_links (get_next head);
  prefetch ← on_links (get_next p);
  destroy_loop fuel p prefetch head.

(** ** Facts about the memory *)

Lemma wp_on_links {A} (m : M links A) (Q : A → rmem → Prop) s :
  wp m (λ a l, Q a (RMem l (rropes s) (rstrs s))) (rlinks s) → wp (on_links m) Q s.
Proof. unfold wp, on_links. by destruct (m (rlinks s)) as [[]|]. Qed.
Lemma wp_on_ropes {A} (m : M (heap rope) A) (Q : A → rmem → Prop) s :
  wp m (λ a r, Q a (RMem (rlinks s) r (rstrs s))) (rropes s) → wp (on_ropes m) Q s.
Proof. unfold wp, on_ropes. by destruct (m (rropes s)) as [[]|]. Qed.
Lemma wp_on_strs {A} (m : M (heap (list byte)) A) (Q : A → rmem → Prop) s :
  wp m (λ a t, Q a (RMem (rlinks s) (rropes s) t)) (rstrs s) → wp (on_strs m) Q s.
Proof. unfold wp, on_strs. by destruct (m (rstrs s)) as [[]|]. Qed.

(** The address survives the split into the byte [isleaf] and the rest. *)
Lemma to_ptr_address p : to_ptr (256 * (address p / 256) + address p mod 256) = p.
Proof. rewrite <-Z.div_mod by lia. by destruct p. Qed.

(** A rope that [rope_setn] has filled in with the string at [sl]. *)
Definition leaf_rope (sl : loc) (r : rope) : Prop :=
  isleaf r = Some (Zpos sl mod 256) ∧ pstr_high r = Some (Zpos sl / 256) ∧
  tag r = Some TAG_CONTEXT.

Lemma wp_get_pstr l sl r s (Q : ptr → rmem → Prop) :
  cells (rropes s) !! l = Some r → leaf_rope sl r → Q (Some sl) s → wp (get_pstr (Some l)) Q s.
Proof.
  intros Hl (Hi & Hh & _) HQ. unfold get_pstr. apply wp_bind, wp_on_ropes.
  eapply wp_load; [done|]. rewrite Hi, Hh. apply wp_ret.
  change (Zpos sl) with (address (Some sl)). rewrite to_ptr_address. by destruct s.
Qed.

Lemma wp_set_leaf l sl r s (Q : unit → rmem → Prop) :
  cells (rropes s) !! l = Some r →
  (∀ r', leaf_rope sl r' → Q tt (RMem (rlinks s)
    (Heap (<[l := r']> (cells (rropes s))) (brk (rropes s)) (avail (rropes s))) (rstrs s))) →
  wp (set_leaf (Some l) (Some sl) TAG_CONTEXT) Q s.
Proof.
  intros Hl HQ. unfold set_leaf. apply wp_bind, wp_on_ropes. eapply wp_load; [done|].
  apply wp_on_ropes. cbn [rropes]. apply wp_store_exact; [by eexists|].
  cbn [rlinks rstrs]. apply HQ. by split_and!.
Qed.

(** ** The ropes of a buffer *)

(** An entry: the rope, its string's address, and the string. *)
Abbreviation entry := (loc * loc * list byte)%type.
Definition entry_rope (e : entry) : loc := e.1.1.
Definition entry_text (e : entry) : list byte := e.2.

(** The ropes and the strings are those of the entries, beside [Fr] and [Fs]. *)
Fixpoint owns (cr : gmap loc rope) (cs : gmap loc (list byte)) (es : list entry)
    (Fr : gmap loc rope) (Fs : gmap loc (list byte)) : Prop :=
  match es with
  | [] => cr = Fr ∧ cs = Fs
  | (l, sl, t) :: es' =>
      (∃ r, cr !! l = Some r ∧ leaf_rope sl r) ∧ cs !! sl = Some t ∧
      owns (delete l cr) (delete sl cs) es' Fr Fs
  end.

(** The buffer at [h] holds the texts of the entries. *)
Record buf_repr (h : loc) (es : list entry) Fr Fs (s : rmem) : Prop := {
  br_ring : ring (rlinks s) h (entry_rope <$> es);
  br_owns : owns (cells (rropes s)) (cells (rstrs s)) es Fr Fs;
  br_ropes : heap_ok (rropes s);
  br_strs : heap_ok (rstrs s);
  br_links : dom (rlinks s) = {[h]} ∪ dom (cells (rropes s));
  br_head : h ∉ dom (cells (rropes s)) ∧ (h < brk (rropes s))%positive;
}.

Lemma owns_append cr cs es Fr Fs l sl t r :
  owns cr cs es Fr Fs → cr !! l = None → cs !! sl = None → leaf_rope sl r →
  owns (<[l := r]> cr) (<[sl := t]> cs) (es ++ [(l, sl, t)]) Fr Fs.
Proof.
  revert cr cs. induction es as [|[[l0 sl0] t0] es IH]; intros cr cs Ho Hl Hsl Hr.
  - destruct Ho as [-> ->]. cbn [app owns]. rewrite !lookup_insert_eq.
    split_and!; [eauto|done|..]; by rewrite delete_insert_id.
  - destruct Ho as ((r0 & Hr0 & Hleaf) & Ht0 & Ho). cbn [app owns].
    assert (l ≠ l0 ∧ sl ≠ sl0) as [Hne1 Hne2] by (split; intros ->; congruence).
    rewrite !lookup_insert_ne by done. split_and!; [eauto|done|].
    rewrite !delete_insert_ne by done. apply IH; [done|by rewrite lookup_delete_ne..|done].
Qed.

Lemma owns_lookup cr cs es Fr Fs e :
  owns cr cs es Fr Fs → e ∈ es → ∃ r, cr !! entry_rope e = Some r ∧ leaf_rope e.1.2 r ∧
    cs !! e.1.2 = Some (entry_text e).
Proof.
  revert cr cs. induction es as [|[[l sl] t] es IH]; intros cr cs Ho He; [by apply elem_of_nil in He|].
  destruct Ho as ((r & Hr & Hleaf) & Ht & Ho). apply elem_of_cons in He as [->|He]; [eauto|].
  destruct (IH _ _ Ho He) as (r' & Hr' & Hl' & Ht').
  apply lookup_delete_Some in Hr' as [_ ?]. apply lookup_delete_Some in Ht' as [_ ?]. eauto.
Qed.

(** ** Writing *)

Lemma strn_length content n s : strn content n = Ok s → (length s ≤ n)%nat.
Proof.
  revert content s. induction n as [|n IH]; intros content s Hs; cbn [strn] in Hs.
  { injection Hs as <-. done. }
  destruct content as [|c content]; [done|]. case_bool_decide.
  { injection Hs as <-. cbn. lia. }
  apply outcome_bind_Ok in Hs as (s' & Hs' & Hs). injection Hs as <-.
  apply IH in Hs'. cbn [length]. lia.
Qed.

Lemma wp_buf_write h es Fr Fs content len t s n m (Q : unit → rmem → Prop) :
  buf_repr h es Fr Fs s → strn content (Z.to_nat (u32 len)) = Ok t →
  avail (rropes s) = S n → avail (rstrs s) = S m →
  (∀ e s', buf_repr h (es ++ [e]) Fr Fs s' → entry_text e = t →
    avail (rropes s') = n → avail (rstrs s') = m → Q tt s') →
  wp (buf_write (Some h) content len) Q s.
Proof.
  intros [Hring Howns Hokr Hoks Hdom [Hh Hbrk]] Hstr Hn Hm HQ. unfold buf_write, malloc_rope.
  set (l := brk (rropes s)). set (sl := brk (rstrs s)).
  assert (cells (rropes s) !! l = None) as Hl by by apply heap_ok_fresh.
  assert (cells (rstrs s) !! sl = None) as Hsl by by apply heap_ok_fresh.
  assert (l ∉ dom (rlinks s)) as Hnew.
  { rewrite Hdom, elem_of_union, elem_of_singleton, elem_of_dom, Hl. intros [Heq|[? ?]]; [|done].
    unfold l in Heq. lia. }
  apply wp_bind, wp_bind, wp_on_ropes. eapply wp_malloc_exact; [done|]. fold l. cbn [rlinks rstrs].
  apply wp_bind. unfold wp at 1, new_head. cbn [yields fst snd rlinks rropes rstrs]. apply wp_ret.
  apply wp_bind. unfold rope_setn, strndup. rewrite Hstr.
  apply wp_bind, wp_bind, wp_lift, wp_on_strs. cbn [rstrs].
  eapply wp_malloc_exact; [done|]. fold sl. cbn [rlinks rropes].
  eapply wp_set_leaf; [apply lookup_insert_eq|]. intros r Hr. cbn [rlinks rropes rstrs cells brk avail].
  rewrite insert_insert_eq. apply wp_on_links. cbn [rlinks].
  eapply (wp_list_add_tail l h (entry_rope <$> es)).
  - split; [apply Hring|]. destruct Hring as [Hnd Hlk]. eapply linked_frame; [..|exact Hlk].
    + intros a Ha. unfold nxt. rewrite lookup_insert_ne; [done|]. intros <-. apply Hnew.
      rewrite app_comm_cons in Ha. apply elem_of_removelast_app in Ha. apply elem_of_dom.
      by eapply ring_alloc.
    + intros a Ha. unfold prv. rewrite lookup_insert_ne; [done|]. intros <-. apply Hnew.
      apply elem_of_dom. eapply ring_alloc; [done|]. cbn [tail] in Ha. apply elem_of_app in Ha as [?|Ha].
      * by right.
      * apply list_elem_of_singleton in Ha as ->. by left.
  - intros Hin. apply Hnew, elem_of_dom. by eapply ring_alloc.
  - rewrite lookup_insert_eq. by eexists.
  - intros lk' Hring' Hdom'. cbn [rropes rstrs]. apply (HQ (l, sl, t)); cbn [rropes rstrs avail]; [|done..].
    split; cbn [rlinks rropes rstrs cells brk]; [by rewrite fmap_app|by apply owns_append|..].
    + apply heap_ok_below. intros x. rewrite dom_insert_L, elem_of_union, elem_of_singleton.
      intros [Hx|Hx%elem_of_dom]; [unfold l, sl in *; lia|]. apply Hokr in Hx. lia.
    + apply heap_ok_below. intros x. rewrite dom_insert_L, elem_of_union, elem_of_singleton.
      intros [Hx|Hx%elem_of_dom]; [unfold l, sl in *; lia|]. apply Hoks in Hx. lia.
    + rewrite Hdom', !dom_insert_L, Hdom. clear. set_solver.
    + rewrite dom_insert_L. split; [|lia]. rewrite not_elem_of_union, not_elem_of_singleton.
      split; [intros Heq; unfold l in Heq; lia|done].
Qed.

(** ** Reading *)

Lemma wp_buf_dump fuel h es Fr Fs s :
  buf_repr h es Fr Fs s → (length es ≤ fuel)%nat →
  wp (buf_dump fuel (Some h)) (λ out s', s' = s ∧ out = (λ e, entry_text e ++ [x0a]) <$> es) s.
Proof.
  intros [Hring Howns _ _ _ _] Hf. unfold buf_dump. apply wp_bind, wp_on_links.
  eapply wp_mono; [apply (wp_list_for_each_entry fuel _ h (entry_rope <$> es)); [done|]|].
  { by rewrite length_fmap. }
  intros ls lk [-> ->]. pose proof (λ e, owns_lookup _ _ es Fr Fs e Howns) as Hlook.
  clear Hf. assert (RMem (rlinks s) (rropes s) (rstrs s) = s) as -> by (by destruct s).
  assert (∀ es', (∀ e, e ∈ es' → e ∈ es) → wp (dump_entries (entry_rope <$> es'))
    (λ out s', s' = s ∧ out = (λ e, entry_text e ++ [x0a]) <$> es') s) as Hall; [|by apply Hall].
  induction es' as [|e es' IH]; intros Hin; [by apply wp_ret|].
  destruct (Hlook e (Hin e ltac:(by left))) as (r & Hr & Hleaf & Ht).
  rewrite !fmap_cons. cbn [dump_entries]. apply wp_bind. unfold rope_isleaf.
  apply wp_bind, wp_on_ropes. eapply wp_load; [done|].
  assert (RMem (rlinks s) (rropes s) (rstrs s) = s) as -> by (by destruct s).
  pose proof Hleaf as (_ & _ & ->). apply wp_ret. rewrite bool_decide_true by done.
  apply wp_bind, wp_bind. eapply wp_get_pstr; [done..|]. apply wp_bind, wp_on_strs.
  eapply wp_load; [done|]. apply wp_ret.
  assert (RMem (rlinks s) (rropes s) (rstrs s) = s) as -> by (by destruct s).
  apply wp_bind. eapply wp_mono; [apply IH; intros e' He'; apply Hin; by right|].
  intros out s' [-> ->]. by apply wp_ret.
Qed.

(** ** Destroying *)

(** Only the forward links matter. *)
Fixpoint path (m : links) (l : list loc) : Prop :=
  match l with
  | [] => True
  | a :: l' => match l' with [] => True | b :: _ => nxt m a = Some (Some b) ∧ path m l' end
  end.

Lemma linked_path m l : linked m l → path m l.
Proof.
  induction l as [|a [|b l] IH]; [done..|]. intros (? & _ & ?). split; [done|by apply IH].
Qed.

Lemma path_delete m x l : x ∉ l → path m l → path (delete x m) l.
Proof.
  induction l as [|a [|b l] IH]; [done..|]. intros Hx [Hn Hp].
  apply not_elem_of_cons in Hx as [Hne Hx]. split; [|by apply IH].
  unfold nxt. by rewrite lookup_delete_ne.
Qed.

Lemma wp_destroy_loop h Fr Fs es : ∀ fuel p q s,
  (length es ≤ fuel)%nat → NoDup ((entry_rope <$> es) ++ [h]) →
  path (rlinks s) ((entry_rope <$> es) ++ [h]) → is_Some (rlinks s !! h) →
  list.head ((entry_rope <$> es) ++ [h]) = Some p →
  (es ≠ [] → list.head (tail ((entry_rope <$> es) ++ [h])) = q) →
  owns (cells (rropes s)) (cells (rstrs s)) es Fr Fs →
  wp (destroy_loop fuel (Some p) q (Some h)) (λ _ s',
    cells (rropes s') = Fr ∧ cells (rstrs s') = Fs ∧
    avail (rropes s') = (avail (rropes s) + length es)%nat ∧
    avail (rstrs s') = (avail (rstrs s) + length es)%nat) s.
Proof.
  induction es as [|[[l sl] t] es IH]; intros fuel p q s Hf Hnd Hpath Hh Hp Hq Howns.
  { cbn in Hp. simplify_eq. destruct Howns as [Hr Hs].
    destruct fuel; cbn [destroy_loop]; rewrite bool_decide_true by done; apply wp_ret;
      cbn [length]; rewrite !Nat.add_0_r; done. }
  cbn in Hp. simplify_eq. specialize (Hq ltac:(done)).
  rewrite fmap_cons in Hnd, Hpath, Hq. cbn [app entry_rope fst tail] in Hnd, Hpath, Hq.
  change (entry_rope (p, sl, t)) with p in *. apply list.NoDup_cons in Hnd as [Hnin Hnd].
  destruct Howns as ((r & Hr & Hleaf) & Ht & Howns).
  assert (p ≠ h) as Hne.
  { intros ->. apply Hnin, elem_of_app. right. by left. }
  assert (path (rlinks s) ((entry_rope <$> es) ++ [h])) as Hpath'.
  { destruct es; cbn in Hpath |- *; tauto. }
  destruct fuel as [|fuel]; [cbn [length] in Hf; lia|]. cbn [destroy_loop].
  rewrite bool_decide_false by congruence.
  apply wp_bind. eapply wp_get_pstr; [done..|].
  apply wp_bind, wp_on_strs. apply wp_free_exact; [by eexists|].
  apply wp_bind. unfold free_rope. apply wp_bind, wp_on_ropes. cbn [rropes].
  apply wp_free_exact; [by eexists|]. cbn [rlinks rstrs].
  unfold wp at 1, drop_head. cbn [yields fst snd rlinks rropes rstrs].
  destruct (list.head ((entry_rope <$> es) ++ [h])) as [q'|] eqn:Hq'; [|by destruct es].
  subst q. apply wp_bind, wp_on_links. cbn [rlinks].
  pose proof (path_delete _ p _ Hnin Hpath') as Hpath''.
  assert (∃ n, nxt (delete p (rlinks s)) q' = Some n ∧
    (es ≠ [] → list.head (tail ((entry_rope <$> es) ++ [h])) = n)) as (n & Hn & Hnq).
  { destruct es as [|e es].
    - cbn in Hq'. simplify_eq. destruct Hh as [hd Hhd]. exists (next hd). split; [|done].
      unfold nxt. by rewrite lookup_delete_ne, Hhd.
    - rewrite fmap_cons in Hq', Hpath'' |- *. cbn in Hq'. simplify_eq.
      destruct (list.head ((entry_rope <$> es) ++ [h])) as [x|] eqn:Hx; [|by destruct es].
      exists (Some x). cbn [app tail]. split; [|done].
      destruct es; cbn in Hx; simplify_eq; by destruct Hpath'' as [? _]. }
  eapply wp_get_next; [exact Hn|]. cbn [rropes rstrs].
  eapply wp_mono; [apply (IH fuel q' n); cbn [rlinks rropes rstrs cells]; try done|].
  - cbn [length] in Hf. lia.
  - destruct Hh as [hd Hhd]. exists hd. by rewrite lookup_delete_ne.
  - cbn [rropes rstrs avail length]. intros [] s' (? & ? & ? & ?). split_and!; [done|done|lia|lia].
Qed.

Lemma wp_buf_destroy fuel h es Fr Fs s :
  buf_repr h es Fr Fs s → (length es ≤ fuel)%nat →
  wp (buf_destroy fuel (Some h)) (λ _ s',
    cells (rropes s') = Fr ∧ cells (rstrs s') = Fs ∧
    avail (rropes s') = (avail (rropes s) + length es)%nat ∧
    avail (rstrs s') = (avail (rstrs s) + length es)%nat) s.
Proof.
  intros [Hring Howns _ _ _ _] Hf. unfold buf_destroy.
  assert (RMem (rlinks s) (rropes s) (rstrs s) = s) as Hs by (by destruct s).
  pose proof Hring as [Hnd Hl]. pose proof (ring_alloc _ _ _ h Hring ltac:(by left)) as Hh.
  apply linked_path in Hl. set (ls := entry_rope <$> es) in *.
  destruct (list.head (ls ++ [h])) as [p|] eqn:Hp; [|by destruct ls].
  apply wp_bind, wp_on_links, (wp_get_next h (Some p)); [by eapply ring_head|]. rewrite Hs.
  assert (path (rlinks s) (ls ++ [h])) as Hpath by (destruct ls; cbn in Hl |- *; tauto).
  assert (∃ q, nxt (rlinks s) p = Some q ∧ (es ≠ [] → list.head (tail (ls ++ [h])) = q))
    as (q & Hq & Hqt).
  { destruct es as [|e es]; [subst ls; cbn in Hp; simplify_eq|].
    - destruct Hh as [hd Hhd]. exists (next hd). unfold nxt. by rewrite Hhd.
    - subst ls. rewrite fmap_cons in Hp, Hpath |- *. cbn in Hp. simplify_eq.
      destruct (list.head ((entry_rope <$> es) ++ [h])) as [x|] eqn:Hx; [|by destruct es].
      exists (Some x). cbn [app tail]. split; [|done].
      destruct es; cbn in Hx; simplify_eq; by destruct Hpath as [? _]. }
  apply wp_bind, wp_on_links, (wp_get_next p q); [done|]. rewrite Hs.
  apply wp_destroy_loop; try done. fold ls. rewrite Permutation_app_comm. done.
Qed.

(** ** The properties *)

(** A sequence of calls of [buf_write]. *)
Fixpoint buf_writes (head : ptr) (chunks : list (list byte * Z)) : M rmem unit :=
  match chunks with
  | [] => mret tt
  | (content, len) :: chunks' => buf_write head content len;; buf_writes head chunks'
  end.

Lemma wp_buf_writes h Fr Fs chunks : ∀ texts es s,
  buf_repr h es Fr Fs s →
  Forall2 (λ c t, strn c.1 (Z.to_nat (u32 c.2)) = Ok t) chunks texts →
  (length chunks ≤ avail (rropes s))%nat → (length chunks ≤ avail (rstrs s))%nat →
  wp (buf_writes (Some h) chunks) (λ _ s', ∃ es', buf_repr h (es ++ es') Fr Fs s' ∧
    entry_text <$> es' = texts ∧
    (avail (rropes s') + length es' = avail (rropes s))%nat ∧
    (avail (rstrs s') + length es' = avail (rstrs s))%nat) s.
Proof.
  induction chunks as [|[content len] chunks IH]; intros texts es s Hs Ht Hr Hst;
    inversion Ht as [|? t ? texts' Ht1 Ht2]; subst; cbn [buf_writes].
  { apply wp_ret. exists []. rewrite app_nil_r. cbn [length]. split_and!; [done|done|lia|lia]. }
  cbn [length] in Hr, Hst. destruct (avail (rropes s)) as [|n] eqn:Hn; [lia|].
  destruct (avail (rstrs s)) as [|m] eqn:Hm; [lia|].
  apply wp_bind. eapply wp_buf_write; [done|exact Ht1|done|done|].
  intros e s1 Hs1 He Hn1 Hm1. eapply wp_mono; [apply (IH texts' (es ++ [e])); [done|done|lia|lia]|].
  intros [] s2 (es' & Hs2 & Hes' & ? & ?). exists (e :: es').
  rewrite <-(assoc_L (++)) in Hs2. rewrite fmap_cons, He, Hes'. cbn [length].
  split_and!; [done|done|lia|lia].
Qed.

(** C29: a buffer that is initialised, written to, dumped and destroyed: the
    dump prints a line for each write, in order, with the characters of the
    content before the first NUL and the limit, and the destruction gives every
    rope and every string back and no other block. *)
Theorem rope_buffer_session h chunks texts s :
  heap_ok (rropes s) → heap_ok (rstrs s) → dom (rlinks s) = {[h]} ∪ dom (cells (rropes s)) →
  h ∉ dom (cells (rropes s)) → (h < brk (rropes s))%positive →
  (length chunks ≤ avail (rropes s))%nat → (length chunks ≤ avail (rstrs s))%nat →
  Forall2 (λ c t, strn c.1 (Z.to_nat (u32 c.2)) = Ok t) chunks texts →
  wp (buf_init (Some h);; buf_writes (Some h) chunks;;
      out ← buf_dump (length chunks) (Some h); buf_destroy (length chunks) (Some h);; mret out)
    (λ out s', out = (λ t, t ++ [x0a]) <$> texts ∧
      cells (rropes s') = cells (rropes s) ∧ cells (rstrs s') = cells (rstrs s) ∧
      avail (rropes s') = avail (rropes s) ∧ avail (rstrs s') = avail (rstrs s)) s.
Proof.
  intros Hokr Hoks Hdom Hh Hbrk Hr Hs Ht.
  apply wp_bind, wp_on_links, wp_INIT_LIST_HEAD; [apply elem_of_dom; rewrite Hdom; set_solver|].
  intros lk Hring Hdlk. set (s1 := RMem lk (rropes s) (rstrs s)).
  assert (buf_repr h [] (cells (rropes s)) (cells (rstrs s)) s1) as H1.
  { split; cbn [rlinks rropes rstrs s1]; try done. congruence. }
  apply wp_bind. eapply wp_mono; [by apply (wp_buf_writes h (cells (rropes s)) (cells (rstrs s)) chunks texts [])|].
  intros [] s2 (es & Hs2 & Hes & Ha & Hb). cbn [rropes rstrs s1 app] in *.
  assert (length es = length chunks) as Hlen.
  { apply Forall2_length in Ht. by rewrite Ht, <-Hes, length_fmap. }
  apply wp_bind. eapply wp_mono; [eapply (wp_buf_dump _ h es); [done|lia]|].
  intros out s3 [-> ->]. apply wp_bind.
  eapply wp_mono; [eapply (wp_buf_destroy _ h es); [done|lia]|].
  intros [] s4 (Hcr & Hcs & Har & Has). apply wp_ret.
  split_and!; [|done|done|lia|lia]. by rewrite <-Hes, <-list_fmap_compose.
Qed.

(** A buffer at address 1 and nothing else. *)
Definition empty_rmem : rmem :=
  RMem {[1%positive := ListHead None None]} (Heap ∅ 2 10) (Heap ∅ 1 10).

Lemma rope_buffer_session_witness :
  wp (buf_init (Some 1%positive);;
      buf_writes (Some 1%positive) [(bytes_of "hello", 4); (bytes_of "ab" ++ [NUL], 9)];;
      out ← buf_dump 2 (Some 1%positive); buf_destroy 2 (Some 1%positive);; mret out)
    (λ out s', out = [bytes_of "hell" ++ [x0a]; bytes_of "ab" ++ [x0a]] ∧
      cells (rropes s') = ∅ ∧ cells (rstrs s') = ∅ ∧
      avail (rropes s') = 10%nat ∧ avail (rstrs s') = 10%nat) empty_rmem.
Proof.
  apply (rope_buffer_session 1 [(bytes_of "hello", 4); (bytes_of "ab" ++ [NUL], 9)]
    [bytes_of "hell"; bytes_of "ab"] empty_rmem).
  - by apply heap_ok_below.
  - by apply heap_ok_below.
  - by vm_compute.
  - apply (bool_decide_unpack _). by vm_compute.
  - by vm_compute.
  - cbn. lia.
  - cbn. lia.
  - apply (bool_decide_unpack _). by vm_compute.
Defined.

(** [rope_tear] looks at [isleaf], which shares its byte with the lowest
    byte of [pstr]: the string of a leaf is freed exactly when its address is
    not a multiple of 256. *)
Lemma rope_tear_frees_iff l sl r t s :
  cells (rropes s) !! l = Some r → leaf_rope sl r → cells (rstrs s) !! sl = Some t →
  wp (rope_tear (Some l)) (λ _ s',
    rropes s' = rropes s ∧ rlinks s' = rlinks s ∧
    cells (rstrs s') = if bool_decide (Zpos sl mod 256 = 0) then cells (rstrs s)
                       else delete sl (cells (rstrs s))) s.
Proof.
  intros Hr Hleaf Ht. pose proof Hleaf as (Hi & _ & _).
  assert (RMem (rlinks s) (rropes s) (rstrs s) = s) as Hs by (by destruct s).
  unfold rope_tear. apply wp_bind, wp_on_ropes. eapply wp_load; [done|]. rewrite Hi, Hs.
  case_bool_decide as Hz.
  - rewrite bool_decide_false by done. apply wp_bind. eapply wp_get_pstr; [done..|].
    apply wp_on_strs, wp_free_exact; [by eexists|]. done.
  - rewrite bool_decide_true by lia. by apply wp_ret.
Qed.

Definition torn (sl : loc) : rmem :=
  RMem ∅ (Heap {[1%positive := Rope None None (Some (Zpos sl mod 256)) (Some (Zpos sl / 256))
                                (Some TAG_CONTEXT)]} 2 0) (Heap {[sl := bytes_of "x"]} (Pos.succ sl) 0).

Lemma rope_tear_frees_iff_witness :
  wp (rope_tear (Some 1%positive)) (λ _ s',
    rropes s' = rropes (torn 512) ∧ rlinks s' = ∅ ∧
    cells (rstrs s') = {[512%positive := bytes_of "x"]}) (torn 512).
Proof.
  refine (rope_tear_frees_iff 1 512 _ (bytes_of "x") (torn 512) eq_refl _ eq_refl).
  split_and!; reflexivity.
Defined.
