(* ===== verification/Dispatcher.v ===== *)
(** The dispatcher ([dispatcher_thread] of [src/thread.c], the [ENABLE_FTS]
    branch): it walks the tree below the current directory, skips version
    control directories and binary files, and sends the others down the
    pipe. *)

From S2P Require Import Prelude CInt Heap Trie TrieSpec WordSet Magic File.
Local Open Scope nat_scope.

(** ** The file tree *)

(** A node of the hierarchy [fts_read] goes through: the last component of
    its path, whether it is a regular file, and its children. *)
Inductive fts_tree := Entry (fts_name : list byte) (regular : bool) (children : list fts_tree).

Definition tree_name (t : fts_tree) : list byte := let 'Entry n _ _ := t in n.

(** The path of a child. *)
Definition child_path (path : list byte) (c : fts_tree) : list byte :=
  path ++ bytes_of "/" ++ tree_name c.

(** The names that are skipped. *)
Definition skipped (name : list byte) : bool :=
  bool_decide (name = bytes_of ".git") || bool_decide (name = bytes_of ".svn") ||
  bool_decide (name = bytes_of ".hg").

(** ** The environment *)

(** What the calls of the operating system do: [open] succeeds or not, and
    chooses a descriptor that is not open; [read] delivers the first bytes of
    the file; the 16 bytes of stack that [magic_scan] finds. *)
Record fs := Fs {
  fs_open : list byte → bool;
  fs_pick : gset Z → Z;
  fs_content : list byte → list byte;
  fs_stack : list byte → list byte;
}.

Definition fs_law (e : fs) : Prop :=
  (∀ X, fs_pick e X ∉ X) ∧ ∀ path, length (fs_stack e path) = 16.

Section dispatcher.
Context {S P F : Type} `{!WordSet S P F}.

(** The process, the detector, and what has been written to the pipe. *)
Record dstate := DState {
  d_proc : proc;
  d_det : magic_state S P;
  d_pipe : list fileinfo;
  d_open : bool;
}.

Definition on_proc {A} (m : M proc A) : M dstate A := λ s,
  match m (d_proc s) with
  | Ok (a, p) => Ok (a, DState p (d_det s) (d_pipe s) (d_open s))
  | Fail f => Fail f
  end.
Definition on_det {A} (m : M (magic_state S P) A) : M dstate A := λ s,
  match m (d_det s) with
  | Ok (a, d) => Ok (a, DState (d_proc s) d (d_pipe s) (d_open s))
  | Fail f => Fail f
  end.

(** [open(path, O_RDONLY)]. *)
Definition open_file (e : fs) (path : list byte) : M proc (option Z) := λ p,
  if fs_open e path then
    let n := fs_pick e (open_fds p) in
    Ok (Some n, Proc ({[n]} ∪ open_fds p) (mappings p) (live_names p) (stdout p))
  else Ok (None, p).

(** [write(pipefd[1], &fi, sizeof(fileinfo))]. *)
Definition write_pipe (fi : fileinfo) : M dstate unit := λ s,
  Ok (tt, DState (d_proc s) (d_det s) (d_pipe s ++ [fi]) (d_open s)).

Definition close_pipe : M dstate unit := λ s,
  Ok (tt, DState (d_proc s) (d_det s) (d_pipe s) false).

(** A regular file that is not skipped. *)
Definition dispatch_file (e : fs) (path : list byte) : M dstate unit :=
  r ← on_proc (open_file e path);
  match r with
  | None => mret tt
  | Some n =>
      b ← on_det (magic_scan (fs_stack e path) (read16 (fs_content e path)));
      if (b : bool) then on_proc (close n)
      else
        on_proc (dup_name path);;
        write_pipe (FileInfo n path None 0)
  end.

(** What the loop does with an entry: true when it asks [fts_read] to skip
    what is below. The visit of a directory after its children finds an entry
    that is not a regular file and does nothing. *)
Definition visit (e : fs) (name path : list byte) (regular : bool) : M dstate bool :=
  if skipped name then mret true
  else (if regular then dispatch_file e path else mret tt);; mret false.

(** [while ((fts_entry = fts_read(pfts)))]: [fts_read] returns a node and
    then its children. *)
Fixpoint fts_walk (e : fs) (path : list byte) (t : fts_tree) : M dstate unit :=
  match t with
  | Entry name regular children =>
      skip ← visit e name path regular;
      if (skip : bool) then mret tt
      else (fix walk_all (cs : list fts_tree) : M dstate unit :=
              match cs with
              | [] => mret tt
              | c :: cs' => fts_walk e (child_path path c) c;; walk_all cs'
              end) children
  end.

(** [dispatcher_thread], [root] being the tree of ["."]. *)
Definition dispatcher_thread (e : fs) (root : fts_tree) : M dstate unit :=
  on_det magic_init;;
  fts_walk e (tree_name root) root;;
  close_pipe;;
  on_det magic_fini.
End dispatcher.
Arguments dstate : clear implicits.

(** ** Reference definitions *)

(** The regular files that are not skipped, in the order of the walk. *)
Fixpoint listing (path : list byte) (t : fts_tree) : list (list byte) :=
  match t with
  | Entry name regular children =>
      if skipped name then []
      else (if regular then [path] else []) ++
           (fix listing_all (cs : list fts_tree) : list (list byte) :=
              match cs with
              | [] => []
              | c :: cs' => listing (child_path path c) c ++ listing_all cs'
              end) children
  end.

(** A regular file no component of whose path is skipped. *)
Inductive visible : list byte → fts_tree → list byte → Prop :=
  | visible_self path name cs :
      skipped name = false → visible path (Entry name true cs) path
  | visible_child path name regular cs c p :
      skipped name = false → c ∈ cs → visible (child_path path c) c p →
      visible path (Entry name regular cs) p.

(** A text that begins with a magic number. *)
Definition binary (content : list byte) : Prop :=
  ∃ row, row ∈ magic_index ∧ magic_word row `prefix_of` content.

#[export] Instance binary_dec content : Decision (binary content).
Proof.
  refine (cast_if (decide (Exists (λ row, magic_word row `prefix_of` content) magic_index)));
    unfold binary; rewrite <-list.Exists_exists; done.
Defined.

(** The 16 bytes that the detector looks at: the first ones of the file, and for
    a shorter file the rest is what the stack held. *)
Definition header (e : fs) (path : list byte) : list byte :=
  magic_buf (fs_stack e path) (read16 (fs_content e path)).

(** Files that are sent: those that can be opened and do not look binary. *)
Definition sent (e : fs) (path : list byte) : Prop :=
  fs_open e path = true ∧ ¬ binary (header e path).

#[export] Instance sent_dec e path : Decision (sent e path).
Proof. unfold sent. apply _. Defined.

Lemma binary_words text : some_prefix magic_words text ↔ binary text.
Proof.
  rewrite some_prefix_magic. unfold binary. setoid_rewrite magic_words_list.
  setoid_rewrite list_elem_of_fmap. naive_solver.
Qed.

(** For a file of at least 16 bytes the content decides. *)
Lemma binary_header e path :
  fs_law e → 16 ≤ length (fs_content e path) → binary (header e path) ↔ binary (fs_content e path).
Proof.
  intros [_ Hstack] Hlen. rewrite <-binary_words. unfold header. by rewrite some_prefix_content.
Qed.

(** Induction over a tree and its children. *)
Lemma fts_tree_ind' (Q : fts_tree → Prop) :
  (∀ name regular cs, Forall Q cs → Q (Entry name regular cs)) → ∀ t, Q t.
Proof.
  intros HQ. fix IH 1. intros [name regular cs]. apply HQ.
  induction cs as [|c cs IHcs]; constructor; [apply IH|apply IHcs].
Qed.

Lemma listing_visible t : ∀ path p, p ∈ listing path t ↔ visible path t p.
Proof.
  induction t as [name regular cs IH] using fts_tree_ind'. intros path p. cbn [listing].
  destruct (skipped name) eqn:Hs.
  { split; [by intros ?%elem_of_nil|]. inversion 1; congruence. }
  rewrite elem_of_app.
  match goal with |- context [?f cs] => set (all := f) end.
  assert (p ∈ all cs ↔ ∃ c, c ∈ cs ∧ visible (child_path path c) c p) as ->.
  { induction IH as [|c cs Hc _ IHcs]; cbn [all].
    - split; [by intros ?%elem_of_nil|]. by intros (c & ?%elem_of_nil & _).
    - change (all (c :: cs)) with (listing (child_path path c) c ++ all cs).
      rewrite elem_of_app, IHcs, Hc. setoid_rewrite elem_of_cons. naive_solver. }
  split.
  - intros [Hp|(c & Hc & Hv)]; [|by eapply visible_child].
    destruct regular; [|by apply elem_of_nil in Hp].
    apply list_elem_of_singleton in Hp as ->. by apply visible_self.
  - inversion 1; subst; [left; by apply list_elem_of_singleton|right; eauto].
Qed.

(** ** What the walk does *)

Section spec.
Context {S P F : Type} `{WordSetLaws S P F}.
Context (e : fs) (He : fs_law e) (f : F).

(** From [s] to [s'] the files [paths] have been sent: a record for each,
    with a descriptor of its own that was not open, and a name of its own. *)
Record sends (s : dstate S P) (paths : list (list byte)) (s' : dstate S P) : Prop := {
  sends_det : d_det s' = d_det s;
  sends_open : d_open s' = d_open s;
  sends_rest : mappings (d_proc s') = mappings (d_proc s) ∧ stdout (d_proc s') = stdout (d_proc s);
  sends_names : live_names (d_proc s') ≡ₚ paths ++ live_names (d_proc s);
  sends_fis : ∃ fis, d_pipe s' = d_pipe s ++ fis ∧ filename <$> fis = paths ∧
    open_fds (d_proc s') = open_fds (d_proc s) ∪ list_to_set (fd <$> fis) ∧
    NoDup (fd <$> fis) ∧ Forall (λ fi, fd fi ∉ open_fds (d_proc s)) fis;
}.

Lemma sends_refl s : sends s [] s.
Proof.
  split; try done. exists []. rewrite app_nil_r. split_and!; try done; [|apply base.NoDup_nil_2].
  rewrite fmap_nil, list_to_set_nil. by rewrite (right_id_L ∅ (∪)).
Qed.

Lemma sends_trans s1 ps1 s2 ps2 s3 :
  sends s1 ps1 s2 → sends s2 ps2 s3 → sends s1 (ps1 ++ ps2) s3.
Proof.
  intros [D1 O1 [M1 T1] N1 (fis1 & Q1 & E1 & X1 & U1 & A1)]
         [D2 O2 [M2 T2] N2 (fis2 & Q2 & E2 & X2 & U2 & A2)].
  split; [congruence|congruence|split; congruence| |].
  - rewrite N2, N1, (assoc_L (++)). by rewrite (Permutation_app_comm ps2 ps1).
  - exists (fis1 ++ fis2). rewrite !fmap_app, list_to_set_app_L. split_and!.
    + by rewrite Q2, Q1, (assoc_L (++)).
    + congruence.
    + by rewrite X2, X1, (assoc_L (∪)).
    + apply list.NoDup_app. split_and!; [done| |done]. intros n Hn Hn2.
      apply list_elem_of_fmap in Hn2 as (fi & -> & Hfi). rewrite list.Forall_forall in A2.
      apply (A2 fi Hfi). rewrite X1. apply elem_of_union. right. by apply elem_of_list_to_set.
    + apply Forall_app. split; [done|]. eapply list.Forall_impl; [exact A2|].
      intros fi Hfi Hin. apply Hfi. rewrite X1. apply elem_of_union. by left.
Qed.

Lemma wp_on_proc {A} (m : M proc A) (Q : A → dstate S P → Prop) s :
  wp m (λ a p, Q a (DState p (d_det s) (d_pipe s) (d_open s))) (d_proc s) → wp (on_proc m) Q s.
Proof. unfold wp, on_proc. by destruct (m (d_proc s)) as [[]|]. Qed.

Lemma wp_on_det {A} (m : M (magic_state S P) A) (Q : A → dstate S P → Prop) s :
  wp m (λ a d, Q a (DState (d_proc s) d (d_pipe s) (d_open s))) (d_det s) → wp (on_det m) Q s.
Proof. unfold wp, on_det. by destruct (m (d_det s)) as [[]|]. Qed.

Lemma wp_dispatch_file path s :
  magic_ready f magic_words (d_det s) →
  wp (dispatch_file e path) (λ _ s', sends s (filter (sent e) [path]) s') s.
Proof.
  intros Hready. destruct He as [Hpick Hstack]. unfold dispatch_file.
  rewrite list.filter_cons, list.filter_nil. apply wp_bind, wp_on_proc.
  unfold wp at 1, open_file. destruct (fs_open e path) eqn:Hopen; cbn [yields fst snd].
  2:{ rewrite decide_False by (intros [? _]; congruence). apply wp_ret. destruct s. apply sends_refl. }
  set (n := fs_pick e (open_fds (d_proc s))).
  assert (n ∉ open_fds (d_proc s)) as Hn by apply Hpick.
  apply wp_bind, wp_on_det. cbn [d_det]. eapply wp_mono.
  { apply (wp_magic_scan f magic_words); [done|done|]. unfold read16. rewrite length_take. lia. }
  intros b d [-> Hb]. rewrite binary_words in Hb. fold (header e path) in Hb.
  destruct b.
  - rewrite decide_False by (intros [_ Hx]; by apply Hx, Hb).
    apply wp_on_proc, wp_close. cbn [d_proc open_fds mappings live_names stdout d_det d_pipe d_open].
    assert (({[n]} ∪ open_fds (d_proc s)) ∖ {[n]} = open_fds (d_proc s)) as -> by (clear -Hn; set_solver).
    destruct s as [[] ? ? ?]. apply sends_refl.
  - rewrite decide_True by (split; [done|]; intros Hx; by apply Hb in Hx).
    split; cbn [d_proc open_fds mappings live_names stdout d_det d_pipe d_open snd]; try done.
    exists [FileInfo n path None 0%Z]. split_and!; try done.
    + rewrite fmap_cons, fmap_nil, list_to_set_cons, list_to_set_nil. cbn [fd].
      by rewrite (right_id_L ∅ (∪)), (comm_L (∪)).
    + apply list.NoDup_singleton.
    + by apply Forall_singleton.
Qed.

Lemma wp_fts_walk t : ∀ path s,
  magic_ready f magic_words (d_det s) →
  wp (fts_walk e path t) (λ _ s', sends s (filter (sent e) (listing path t)) s') s.
Proof.
  induction t as [name regular cs IH] using fts_tree_ind'. intros path s Hready.
  cbn [fts_walk listing] in *. apply wp_bind. unfold visit.
  destruct (skipped name); [apply wp_ret; by apply wp_ret, sends_refl|].
  apply wp_bind. assert (wp (if regular then dispatch_file e path else mret tt)
    (λ _ s', sends s (filter (sent e) (if regular then [path] else [])) s') s) as Hfile.
  { destruct regular; [|by apply wp_ret, sends_refl].
    by apply wp_dispatch_file. }
  eapply wp_mono; [exact Hfile|]. intros [] s1 Hs1. apply wp_ret.
  rewrite list.filter_app. clear Hfile.
  revert s1 Hs1. generalize (filter (sent e) (if regular then [path] else [])).
  induction IH as [|c cs Hc _ IHcs]; intros ps s1 Hs1.
  { apply wp_ret. by rewrite list.filter_nil, app_nil_r. }
  apply wp_bind. eapply wp_mono; [apply Hc|].
  - by rewrite (sends_det _ _ _ Hs1).
  - intros [] s2 Hs2. rewrite list.filter_app, (assoc_L (++)). apply IHcs. by eapply sends_trans.
Qed.
End spec.

(** ** The property *)

(** C8: over any word set that obeys its laws, the dispatcher sends a record
    for each regular file that lies under no version control directory, can be
    opened and does not look binary, in the order of the walk; each has a
    descriptor of its own, no other descriptor is left open, the pipe's write end
    is closed, and the detector's memory is given back. A file of at least 16
    bytes looks binary when it begins with a magic number; what the stack held
    completes the others. *)
Theorem dispatcher_sends {S P F} `{WordSetLaws S P F} (e : fs) (f : F) root (s : dstate S P) :
  fs_law e → tr (d_det s) = None → ws_frame f (mem (d_det s)) →
  magic_room ≤ ws_room (mem (d_det s)) → d_pipe s = [] →
  (∀ p, 16 ≤ length (fs_content e p) → sent e p ↔ fs_open e p = true ∧ ¬ binary (fs_content e p)) ∧
  wp (dispatcher_thread e root) (λ _ s',
    d_open s' = false ∧ ws_frame f (mem (d_det s')) ∧
    filename <$> d_pipe s' = filter (sent e) (listing (tree_name root) root) ∧
    (∀ p, p ∈ filename <$> d_pipe s' ↔ visible (tree_name root) root p ∧ sent e p) ∧
    NoDup (fd <$> d_pipe s') ∧
    open_fds (d_proc s') = open_fds (d_proc s) ∪ list_to_set (fd <$> d_pipe s') ∧
    live_names (d_proc s') ≡ₚ (filename <$> d_pipe s') ++ live_names (d_proc s)) s.
Proof.
  intros He Htr Hf Hroom Hpipe. split.
  { intros p Hp. unfold sent. by rewrite binary_header. }
  unfold dispatcher_thread.
  apply wp_bind, wp_on_det. eapply wp_mono; [by apply wp_magic_init|].
  intros [] d Hready. apply wp_bind. eapply wp_mono.
  - by apply (wp_fts_walk e He f root).
  - intros [] s1 [D O R N (fis & Q & E & X & U & A)]. cbn [d_det d_pipe d_proc] in *.
    rewrite Hpipe in Q. cbn [app] in Q. subst fis.
    apply wp_bind. unfold wp at 1, close_pipe. cbn [yields fst snd].
    apply wp_on_det. cbn [d_det]. eapply wp_mono; [eapply wp_magic_fini; by rewrite D|].
    intros [] d' [Hframe _]. cbn [d_det d_open d_pipe d_proc]. split_and!; try done.
    + intros p. rewrite E, list_elem_of_filter, listing_visible. tauto.
    + by rewrite E.
Qed.

(** A directory with a text file, a PNG image and a [.git] directory. *)
Definition sample_tree : fts_tree :=
  Entry (bytes_of ".") false
    [Entry (bytes_of "a.c") true [];
     Entry (bytes_of ".git") false [Entry (bytes_of "config") true []];
     Entry (bytes_of "b.png") true []].

Definition sample_fs : fs :=
  Fs (λ _, true) (λ X, fresh X)
     (λ path, if bool_decide (path = bytes_of "./b.png")
              then [x89; x50; x4e; x47; x0d; x0a; x1a; x0a] ++ replicate 20 x00
              else bytes_of "int main(void) { return 0; }")
     (λ _, replicate 16 x00).

Lemma sample_fs_law : fs_law sample_fs.
Proof. split; [intros X; apply is_fresh|done]. Qed.

Definition sample_dstate : dstate theap loc :=
  DState (Proc {[0%Z; 1%Z; 2%Z]} 0 [] []) fresh_detector [] true.

Example sample_sent :
  filter (sent sample_fs) (listing (tree_name sample_tree) sample_tree) = [bytes_of "./a.c"].
Proof. by vm_compute. Qed.

Lemma dispatcher_sends_witness :
  wp (dispatcher_thread sample_fs sample_tree) (λ _ s',
    d_open s' = false ∧ ws_frame (∅ : gmap loc trie_cell) (mem (d_det s')) ∧
    filename <$> d_pipe s' = [bytes_of "./a.c"] ∧
    (∀ p, p ∈ filename <$> d_pipe s' ↔ visible (bytes_of ".") sample_tree p ∧ sent sample_fs p) ∧
    NoDup (fd <$> d_pipe s') ∧
    open_fds (d_proc s') = {[0%Z; 1%Z; 2%Z]} ∪ list_to_set (fd <$> d_pipe s') ∧
    live_names (d_proc s') ≡ₚ (filename <$> d_pipe s') ++ []) sample_dstate.
Proof.
  rewrite <-sample_sent.
  exact (proj2 (dispatcher_sends sample_fs (∅ : gmap loc trie_cell) sample_tree sample_dstate
    sample_fs_law eq_refl fresh_detector_frame fresh_detector_room eq_refl)).
Defined.
