(* ===== verification/Proc.v ===== *)
(** Threads that share a state: a program is a tree of atomic actions, a
    schedule interleaves the actions of several threads, and a thread runs a
    list of calls one after the other. A rely-guarantee logic for these
    programs ([safe]) and its soundness for every schedule. *)

From S2P Require Import Prelude.

(** ** Programs *)

(** A program that returns a value of type [A] after atomic actions on a
    shared state of type [S]; other threads act between two of them. *)
Inductive proc (S A : Type) : Type :=
  | Ret (a : A)
  | Atomic {B : Type} (m : M S B) (k : B → proc S A).
Arguments Ret {S A} a.
Arguments Atomic {S A B} m k.

Fixpoint proc_bind {S A B} (p : proc S A) (k : A → proc S B) : proc S B :=
  match p with
  | Ret a => k a
  | Atomic m k' => Atomic m (λ b, proc_bind (k' b) k)
  end.

#[export] Instance proc_ret S : MRet (proc S) := @Ret S.
#[export] Instance proc_mbind S : MBind (proc S) := λ A B k p, proc_bind p k.

Definition atomic {S A} (m : M S A) : proc S A := Atomic m Ret.

(** The program that stops with a fault. *)
Definition stop {S A} (f : fault) : proc S A := Atomic (fail (A := Empty_set) f) (Empty_set_rect _).

(** A program run without interference. *)
Fixpoint solo {S A} (p : proc S A) : M S A :=
  match p with
  | Ret a => mret a
  | Atomic m k => b ← m; solo (k b)
  end.

Section solo.
Context {S : Type}.

Lemma wp_solo_ret {A} (a : A) Q (s : S) : Q a s → wp (solo (mret a)) Q s.
Proof. done. Qed.

Lemma wp_solo_atomic {A B} (m : M S A) (k : A → proc S B) Q s :
  wp m (λ a, wp (solo (k a)) Q) s → wp (solo (atomic m ≫= k)) Q s.
Proof. apply wp_bind. Qed.

Lemma solo_bind {A B} (p : proc S A) (k : A → proc S B) s :
  solo (p ≫= k) s = (solo p ≫= λ a, solo (k a)) s.
Proof.
  revert s. induction p as [a|B' m k' IH]; intros s; [done|].
  cbn. unfold mbind, M_bind. destruct (m s) as [[b s']|]; [|done]. apply (IH b s').
Qed.

Lemma wp_solo_bind {A B} (p : proc S A) (k : A → proc S B) Q s :
  wp (solo p) (λ a, wp (solo (k a)) Q) s → wp (solo (p ≫= k)) Q s.
Proof. unfold wp. rewrite solo_bind. apply (wp_bind (solo p) (λ a, solo (k a))). Qed.
End solo.

(** ** Threads *)

Inductive event (C V : Type) : Type :=
  | Invoked (i : nat) (c : C)
  | Returned (i : nat) (c : C) (v : V).
Arguments Invoked {C V}.
Arguments Returned {C V}.

Record thread (S C V : Type) := Thread {
  running : option (C * proc S V);
  pending : list C;
}.
Arguments Thread {S C V}.
Arguments running {S C V}.
Arguments pending {S C V}.

Record config (S C V : Type) := Config {
  shared : S;
  pool : list (thread S C V);
  history : list (event C V);
}.
Arguments Config {S C V}.
Arguments shared {S C V}.
Arguments pool {S C V}.
Arguments history {S C V}.

Section threads.
Context {S C V : Type} (body : nat → C → proc S V).

(** A step of thread [i]: it starts its next call, performs an action, or
    returns from the call. A thread with nothing to do stays as it is. *)
Definition thread_step (i : nat) (g : config S C V) : outcome (config S C V) :=
  match pool g !! i with
  | None => Ok g
  | Some (Thread None []) => Ok g
  | Some (Thread None (c :: cs)) =>
      Ok (Config (shared g) (<[i := Thread (Some (c, body i c)) cs]> (pool g))
            (history g ++ [Invoked i c]))
  | Some (Thread (Some (c, Ret v)) cs) =>
      Ok (Config (shared g) (<[i := Thread None cs]> (pool g)) (history g ++ [Returned i c v]))
  | Some (Thread (Some (c, Atomic m k)) cs) =>
      match m (shared g) with
      | Ok (b, s') => Ok (Config s' (<[i := Thread (Some (c, k b)) cs]> (pool g)) (history g))
      | Fail f => Fail f
      end
  end.

(** The threads take the steps of a schedule. *)
Fixpoint run_schedule (sched : list nat) (g : config S C V) : outcome (config S C V) :=
  match sched with
  | [] => Ok g
  | i :: sched' => g' ← thread_step i g; run_schedule sched' g'
  end.

(** The same when a thread that has to wait is passed over. *)
Fixpoint run_waiting (sched : list nat) (g : config S C V) : outcome (config S C V) :=
  match sched with
  | [] => Ok g
  | i :: sched' =>
      match thread_step i g with
      | Ok g' => run_waiting sched' g'
      | Fail Blocked => run_waiting sched' g
      | Fail f => Fail f
      end
  end.

(** Before any step, thread [i] has the calls [progs !! i] to make. *)
Definition start (s : S) (progs : list (list C)) : config S C V :=
  Config s (Thread None <$> progs) [].

(** No call is under way. *)
Definition quiescent (g : config S C V) : Prop :=
  Forall (λ t, running t = None) (pool g).
End threads.

(** ** A rely-guarantee logic

    [W] is what only grows, ordered by [R]; [T] is the bookkeeping of one
    thread, which only its own steps change. [Inv] relates them to the shared
    state and the history, [fault_ok] says which faults may meet a thread in
    which states, and [call_ok c] which calls are made. *)

Section rely.
Context {S C V W T : Type} (R : W → W → Prop) {HR : PreOrder R}.
Context (body : nat → C → proc S V).
Context (Inv : list (event C V) → S → W → list T → Prop).
Context (fault_ok : nat → S → W → list T → fault → Prop) (idle : T → Prop) (final : C → W → T → V → Prop).
Context (call_ok : C → Prop).

(** From any state that other threads may leave, each action of [p] keeps the
    invariant, and a result satisfies [Q]. *)
Fixpoint safe {A} (i : nat) (p : proc S A) (w : W) (t : T) (Q : W → T → A → Prop) : Prop :=
  match p with
  | Ret a => Q w t a
  | Atomic m k => ∀ h s w1 ts, R w w1 → Inv h s w1 ts → ts !! i = Some t →
      match m s with
      | Fail f => fault_ok i s w1 ts f
      | Ok (b, s') => ∃ w2 t', R w1 w2 ∧ Inv h s' w2 (<[i := t']> ts) ∧ safe i (k b) w2 t' Q
      end
  end.

Lemma safe_ret {A} i (a : A) w t (Q : W → T → A → Prop) : Q w t a → safe i (mret a) w t Q.
Proof. done. Qed.

Lemma safe_atomic {A B} i (m : M S A) (k : A → proc S B) w t Q :
  (∀ h s w1 ts, R w w1 → Inv h s w1 ts → ts !! i = Some t →
    match m s with
    | Fail f => fault_ok i s w1 ts f
    | Ok (b, s') => ∃ w2 t', R w1 w2 ∧ Inv h s' w2 (<[i := t']> ts) ∧ safe i (k b) w2 t' Q
    end) →
  safe i (atomic m ≫= k) w t Q.
Proof. done. Qed.

Lemma safe_last {A} i (m : M S A) w t Q : safe i (atomic m ≫= mret) w t Q → safe i (atomic m) w t Q.
Proof. done. Qed.

Lemma safe_bind {A B} i (p : proc S A) (k : A → proc S B) w t Q :
  safe i p w t (λ w' t' a, safe i (k a) w' t' Q) → safe i (p ≫= k) w t Q.
Proof.
  revert w t. induction p as [a|B' m k' IH]; intros w t; [done|].
  cbn. intros H h s w1 ts Hw HI Ht. specialize (H h s w1 ts Hw HI Ht).
  destruct (m s) as [[b s']|]; [|done]. destruct H as (w2 & t' & ? & ? & ?).
  exists w2, t'. split_and!; [done..|]. by apply IH.
Qed.

Lemma safe_mono {A} i (p : proc S A) w t (P Q : W → T → A → Prop) :
  safe i p w t P → (∀ w' t' a, R w w' → P w' t' a → Q w' t' a) → safe i p w t Q.
Proof.
  revert w t. induction p as [a|B m k IH]; intros w t; [intros ? H; by apply H|].
  cbn. intros H HPQ h s w1 ts Hw HI Ht. specialize (H h s w1 ts Hw HI Ht).
  destruct (m s) as [[b s']|]; [|done]. destruct H as (w2 & t' & Hw2 & ? & ?).
  exists w2, t'. split_and!; [done..|]. eapply IH; [done|].
  intros w' ???. apply HPQ. by do 2 (etrans; [done|]).
Qed.

Definition thread_ok (w : W) (i : nat) (th : thread S C V) (t : T) : Prop :=
  Forall call_ok (pending th) ∧
  match running th with
  | None => idle t
  | Some (c, p) => ∃ w0, R w0 w ∧ safe i p w0 t (final c)
  end.

(** The bookkeeping [ts] of the threads of [g], with [w]. *)
Definition config_books (g : config S C V) (w : W) (ts : list T) : Prop :=
  Inv (history g) (shared g) w ts ∧ length ts = length (pool g) ∧
    ∀ i th t, pool g !! i = Some th → ts !! i = Some t → thread_ok w i th t.

Definition config_ok (g : config S C V) : Prop := ∃ w ts, config_books g w ts.

Lemma thread_ok_mono w w' i th t : R w w' → thread_ok w i th t → thread_ok w' i th t.
Proof.
  intros Hw [Hcs Hr]. split; [done|]. destruct (running th) as [[c p]|]; [|done].
  destruct Hr as (w0 & ? & ?). exists w0. split; [by etrans|done].
Qed.

Hypothesis Inv_invoke : ∀ h s w ts i t c,
  Inv h s w ts → ts !! i = Some t → idle t → call_ok c →
  ∃ t', Inv (h ++ [Invoked i c]) s w (<[i := t']> ts) ∧ safe i (body i c) w t' (final c).
Hypothesis Inv_return : ∀ h s w w0 ts i t c v,
  Inv h s w ts → ts !! i = Some t → R w0 w → final c w0 t v →
  ∃ t', idle t' ∧ Inv (h ++ [Returned i c v]) s w (<[i := t']> ts).

(** A step of one thread changes its own bookkeeping only. *)
Lemma config_ok_update g w w' ts i th t h s :
  (∀ j th t, pool g !! j = Some th → ts !! j = Some t → thread_ok w j th t) →
  length ts = length (pool g) → R w w' → Inv h s w' (<[i := t]> ts) → thread_ok w' i th t →
  config_ok (Config s (<[i := th]> (pool g)) h).
Proof.
  intros Hts Hlen Hw HI Hth. exists w', (<[i := t]> ts).
  split; [done|]. split; [by cbn; rewrite !length_insert|]. intros j th' t'. cbn.
  destruct (decide (j = i)) as [->|Hj].
  - intros Hp Hq. apply list_lookup_insert_Some in Hp as [(_ & -> & _)|[? _]]; [|done].
    apply list_lookup_insert_Some in Hq as [(_ & -> & _)|[? _]]; [done|done].
  - rewrite !list_lookup_insert_ne by done. intros ??. eapply thread_ok_mono; eauto.
Qed.

Lemma thread_step_safe i g w ts :
  config_books g w ts →
  match thread_step body i g with
  | Ok g' => config_ok g'
  | Fail f => fault_ok i (shared g) w ts f
  end.
Proof using All.
  intros (HI & Hlen & Hth). unfold thread_step.
  destruct (pool g !! i) as [th|] eqn:Hi; [|by exists w, ts].
  assert (is_Some (ts !! i)) as [t Ht].
  { apply lookup_lt_is_Some. rewrite Hlen. by eapply lookup_lt_Some. }
  destruct (Hth _ _ _ Hi Ht) as [Hcs Hok].
  destruct th as [[[c [v|B m k]]|] cs]; cbn in Hok, Hcs.
  - destruct Hok as (w0 & Hw0 & Hfin). edestruct Inv_return as (t' & ? & ?); [done..|].
    eapply (config_ok_update g w w); [done|done|reflexivity|done|by split].
  - destruct Hok as (w0 & Hw0 & Hsafe). specialize (Hsafe _ _ _ _ Hw0 HI Ht).
    destruct (m (shared g)) as [[b s']|]; [|done].
    destruct Hsafe as (w2 & t' & ? & ? & ?).
    eapply (config_ok_update g w w2); [done..|]. split; [done|]. exists w2. by split.
  - destruct cs as [|c cs]; [by exists w, ts|]. apply Forall_cons_1 in Hcs as [Hc Hcs].
    edestruct Inv_invoke as (t' & ? & ?); [done..|].
    eapply (config_ok_update g w w); [done|done|reflexivity|done|]. split; [done|]. exists w. by split.
Qed.

(** Every schedule keeps the configuration well formed, or ends in a fault
    that is allowed. *)
Lemma run_schedule_safe sched g :
  config_ok g →
  match run_schedule body sched g with
  | Ok g' => config_ok g'
  | Fail f => ∃ i s w ts, fault_ok i s w ts f
  end.
Proof using All.
  revert g. induction sched as [|i sched IH]; intros g Hg; [done|]. cbn.
  destruct Hg as (w & ts & Hg). pose proof (thread_step_safe i g w ts Hg) as Hs.
  destruct (thread_step body i g) as [g'|]; [by apply IH|]. by exists i, (shared g), w, ts.
Qed.

(** The same when a thread that has to wait is passed over. *)
Lemma run_waiting_safe sched g :
  config_ok g →
  match run_waiting body sched g with
  | Ok g' => config_ok g'
  | Fail f => f ≠ Blocked ∧ ∃ i s w ts, fault_ok i s w ts f
  end.
Proof using All.
  revert g. induction sched as [|i sched IH]; intros g Hg; [done|]. cbn.
  pose proof Hg as (w & ts & Hb). pose proof (thread_step_safe i g w ts Hb) as Hs.
  destruct (thread_step body i g) as [g'|f]; [by apply IH|].
  destruct f; try (split; [done|]; by exists i, (shared g), w, ts). by apply IH.
Qed.
End rely.

(** ** A thread that runs alone *)

Section alone.
Context {S C V : Type} (body : nat → C → proc S V).
Implicit Types g : config S C V.

Lemma run_schedule_app r1 r2 g :
  run_schedule body (r1 ++ r2) g = (g' ← run_schedule body r1 g; run_schedule body r2 g').
Proof.
  revert g. induction r1 as [|i r1 IH]; intros g; [done|]. cbn.
  destruct (thread_step body i g) as [g'|]; [apply IH|done].
Qed.

(** It finishes the call that it is in as [solo] says. *)
Lemma solo_finishes i c (p : proc S V) cs v s' g :
  pool g !! i = Some (Thread (Some (c, p)) cs) → solo p (shared g) = Ok (v, s') →
  ∃ n, run_schedule body (replicate n i) g =
    Ok (Config s' (<[i := Thread None cs]> (pool g)) (history g ++ [Returned i c v])).
Proof.
  revert g. induction p as [a|B m k IH]; intros g Hi Hsolo.
  - injection Hsolo as -> <-. exists 1%nat. cbn. unfold thread_step. by rewrite Hi.
  - cbn in Hsolo. unfold mbind, M_bind in Hsolo. destruct (m (shared g)) as [[b s1]|] eqn:Hm; [|done].
    edestruct (IH b (Config s1 (<[i := Thread (Some (c, k b)) cs]> (pool g)) (history g))) as (n & Hn);
      [by apply list_lookup_insert_eq; eapply lookup_lt_Some|exact Hsolo|].
    exists (Datatypes.S n). cbn. unfold thread_step at 1. rewrite Hi, Hm, bind_Ok, Hn. cbn.
    by rewrite list_insert_insert_eq.
Qed.

(** The same from the beginning of the call. *)
Lemma solo_returns i c cs v s' g :
  pool g !! i = Some (Thread None (c :: cs)) → solo (body i c) (shared g) = Ok (v, s') →
  ∃ n, run_schedule body (replicate n i) g =
    Ok (Config s' (<[i := Thread None cs]> (pool g)) (history g ++ [Invoked i c; Returned i c v])).
Proof.
  intros Hi Hsolo.
  edestruct (solo_finishes i c (body i c) cs v s'
    (Config (shared g) (<[i := Thread (Some (c, body i c)) cs]> (pool g)) (history g ++ [Invoked i c])))
    as (n & Hn); [by apply list_lookup_insert_eq; eapply lookup_lt_Some|exact Hsolo|].
  exists (Datatypes.S n). cbn. unfold thread_step at 1. rewrite Hi, bind_Ok, Hn. cbn.
  by rewrite list_insert_insert_eq, <-(assoc_L (++)).
Qed.
End alone.

(** ** Configurations that stay as they are *)

Section stuck.
Context {S C V : Type} (body : nat → C → proc S V).

(** Thread [i] has returned or waits. *)
Definition stuck_at (g : config S C V) (i : nat) : bool :=
  match pool g !! i with
  | None | Some (Thread None []) => true
  | _ => match thread_step body i g with Fail Blocked => true | _ => false end
  end.

Lemma stuck_stays g sched :
  forallb (stuck_at g) (seq 0 (length (pool g))) = true → run_waiting body sched g = Ok g.
Proof.
  intros Hall. rewrite forallb_forall in Hall.
  assert (∀ i, thread_step body i g = Fail Blocked ∨ thread_step body i g = Ok g) as Hstep.
  { intros i. destruct (pool g !! i) as [th|] eqn:Hi; [|right; unfold thread_step; by rewrite Hi].
    assert (stuck_at g i = true) as Hs.
    { apply Hall, in_seq. apply lookup_lt_Some in Hi. lia. }
    unfold stuck_at in Hs. rewrite Hi in Hs.
    destruct th as [[r|] [|c cs]]; try (destruct (thread_step body i g) as [|[]]; by auto).
    right. unfold thread_step. by rewrite Hi. }
  induction sched as [|i sched IH]; [done|]. cbn. by destruct (Hstep i) as [-> | ->].
Qed.
End stuck.
