(* ===== verification/Fair.v ===== *)
(** Fair schedules: threads whose programs end, of which one can always move
    until all have returned, do all return when each of them is given its turn
    again and again. *)

From S2P Require Import Prelude Proc.
Local Open Scope nat_scope.

(** ** Lists of which one element becomes smaller *)

Section decrease.
Context {T : Type}.

Definition decrease (r : nat → T → T → Prop) (l' l : list T) : Prop :=
  ∃ i x y, l !! i = Some x ∧ r i y x ∧ l' = <[i := y]> l.

Lemma decrease_wf (r : nat → T → T → Prop) : (∀ i, well_founded (r i)) → well_founded (decrease r).
Proof.
  intros Hr l. revert r Hr. induction l as [|x l IH]; intros r Hr.
  { constructor. intros l' (i & x & y & Hx & _). by rewrite lookup_nil in Hx. }
  specialize (IH (r ∘ S) ltac:(intros i; apply Hr)).
  revert l IH. induction (Hr 0 x) as [x _ IHx]. intros l Hl.
  induction Hl as [l Hl IHl]. constructor. intros l' ([|i] & x' & y & Hx' & Hxy & ->).
  - cbn in Hx'. injection Hx' as <-. cbn. apply IHx; [done|]. by constructor.
  - cbn in Hx'. cbn. apply IHl. exists i, x', y. by split_and!.
Qed.
End decrease.

(** Several steps, the last of which is the first argument. *)
Lemma tc_well_founded {T} (R : T → T → Prop) : well_founded R → well_founded (tc R).
Proof.
  intros HR x. induction (HR x) as [x _ IH]. constructor. intros y Hy.
  revert IH. induction Hy as [y x Hyx|y z x Hyz Hzx IHz]; intros IH; [by apply IH|].
  specialize (IHz IH). destruct IHz as [IHz]. by apply IHz, tc_once.
Qed.

(** ** Moves *)

Section fair.
Context {S C V : Type} (body : nat → C → proc S V).
Implicit Types g : config S C V.

(** [t'] is what a step makes of the thread [t]. *)
Definition moves (i : nat) (t' t : thread S C V) : Prop :=
  match t with
  | Thread None [] => False
  | Thread None (c :: cs) => t' = Thread (Some (c, body i c)) cs
  | Thread (Some (c, Ret v)) cs => t' = Thread None cs
  | Thread (Some (c, Atomic m k)) cs => ∃ b, t' = Thread (Some (c, k b)) cs
  end.

(** A thread makes no more than finitely many of them. *)
Lemma moves_wf i : well_founded (moves i).
Proof.
  assert (∀ cs, Acc (moves i) (Thread None cs) → ∀ c p, Acc (moves i) (Thread (Some (c, p)) cs)) as Hrun.
  { intros cs Hcs c p. induction p as [v|B m k IH]; constructor; cbn; [by intros t ->|].
    intros t [b ->]. apply IH. }
  assert (∀ cs, Acc (moves i) (Thread None cs)) as Hnone.
  { induction cs as [|c cs IH]; constructor; cbn; [done|]. intros t ->. by apply Hrun. }
  intros [[[c p]|] cs]; [by apply Hrun|done].
Qed.

(** A step that changes its thread. *)
Definition effective (i : nat) (g g' : config S C V) : Prop :=
  thread_step body i g = Ok g' ∧
  ∃ t t', pool g !! i = Some t ∧ moves i t' t ∧ pool g' = <[i := t']> (pool g).

Definition finished g : Prop := Forall (λ t, t = Thread None []) (pool g).

Lemma thread_step_effective i g t :
  pool g !! i = Some t → t ≠ Thread None [] →
  match thread_step body i g with Ok g' => effective i g g' | Fail _ => True end.
Proof.
  intros Hi Hne. unfold effective, thread_step. rewrite Hi.
  destruct t as [[[c [v|B m k]]|] [|c' cs]]; cbn;
    first [done | split; [done|]; eexists _, _; by split_and! | idtac];
    (destruct (m (shared g)) as [[b s']|]; [|done]; split; [done|]; eexists _, _;
     split_and!; [done|by exists b|done]).
Qed.

Lemma thread_step_moves i g :
  match thread_step body i g with
  | Ok g' => effective i g g' ∨ g' = g
  | Fail _ => True
  end.
Proof.
  destruct (pool g !! i) as [t|] eqn:Hi; [destruct t as [[r|] [|c cs]]|].
  3:{ unfold thread_step. rewrite Hi. by right. }
  4:{ unfold thread_step. rewrite Hi. by right. }
  all: pose proof (thread_step_effective i g _ Hi ltac:(done)); destruct (thread_step body i g); auto.
Qed.

Lemma run_waiting_app r1 r2 g :
  run_waiting body (r1 ++ r2) g = (g' ← run_waiting body r1 g; run_waiting body r2 g').
Proof.
  revert g. induction r1 as [|i r1 IH]; intros g; [done|]. cbn.
  destruct (thread_step body i g) as [g'|[]]; done.
Qed.

Lemma effective_changes i g : ¬ effective i g g.
Proof.
  intros (_ & t & t' & Ht & Hm & Hp). assert (t' = t) as ->.
  { apply (f_equal (.!! i)) in Hp.
    rewrite list_lookup_insert_eq in Hp by (by eapply lookup_lt_Some). congruence. }
  clear -Hm. induction (moves_wf i t) as [t _ IH]. by eapply IH.
Qed.

(** ** Fairness *)

(** Thread [i] does something: it moves, or it stops the program. *)
Definition acts (i : nat) (g : config S C V) : Prop :=
  (∃ g', effective i g g') ∨ ∃ f, thread_step body i g = Fail f ∧ f ≠ Blocked.

(** Configurations that are well formed stay so, unless the program stops with a
    fault of [crash]; and when not all threads have returned, one of them does
    something. *)
Context (good : config S C V → Prop) (crash : fault → Prop).
Hypothesis good_step : ∀ i g, good g →
  match thread_step body i g with Ok g' => good g' | Fail f => f = Blocked ∨ crash f end.
Hypothesis good_progress : ∀ g, good g → finished g ∨ ∃ i, acts i g.

(** A round of a schedule: something moves, or no thread of the round can. *)
Lemma round_moves r g :
  good g →
  match run_waiting body r g with
  | Ok g' => good g' ∧ length (pool g') = length (pool g) ∧
      (tc (decrease moves) (pool g') (pool g) ∨ g' = g ∧ ∀ i, i ∈ r → ¬ acts i g)
  | Fail f => crash f
  end.
Proof using good_step.
  revert g. induction r as [|i r IH]; intros g Hg.
  { split_and!; [done..|right]. split; [done|]. by intros i ?%elem_of_nil. }
  assert (¬ acts i g →
    match run_waiting body r g with
    | Ok g' => good g' ∧ length (pool g') = length (pool g) ∧
        (tc (decrease moves) (pool g') (pool g) ∨ g' = g ∧ ∀ j, j ∈ i :: r → ¬ acts j g)
    | Fail f => crash f
    end) as Hidle.
  { intros Hno. specialize (IH g Hg). destruct (run_waiting body r g) as [g'|]; [|done].
    destruct IH as (? & ? & [?|[-> Hr]]); split_and!; auto. right. split; [done|].
    intros j [->|Hj]%elem_of_cons; auto. }
  pose proof (good_step i g Hg) as Hs. pose proof (thread_step_moves i g) as Hm. cbn.
  destruct (thread_step body i g) as [g1|f] eqn:Hi.
  - destruct Hm as [(_ & t & t' & Ht & Htt & Hp)| ->].
    + specialize (IH g1 Hs). destruct (run_waiting body r g1) as [g'|]; [|done].
      destruct IH as (Hg' & Hlen & Hor). split_and!; [done|rewrite Hlen, Hp; apply length_insert|].
      left. assert (decrease moves (pool g1) (pool g)) as Hd by (by exists i, t, t').
      destruct Hor as [Hor|[-> _]]; [by eapply tc_r|by apply tc_once].
    + apply Hidle. intros [(h & Hh & t & t' & Ht & Htt & Hp)|(f & Hf & _)]; [|congruence].
      rewrite Hi in Hh. injection Hh as <-. apply (effective_changes i g). split; [done|]. by exists t, t'.
  - destruct (decide (f = Blocked)) as [->|Hf].
    + apply Hidle. intros [(h & Hh & _)|(f & Hf & Hne)]; congruence.
    + destruct Hs as [?|?]; [done|]. by destruct f.
Qed.

(** Whatever the rounds, if each of them gives every thread its turn then
    after some number of them all threads have returned, or the program has
    stopped. *)
Lemma fair_finishes (rounds : nat → list nat) g :
  good g → (∀ k i, i < length (pool g) → i ∈ rounds k) →
  ∃ n, match run_waiting body (concat (rounds <$> seq 0 n)) g with
       | Ok g' => good g' ∧ finished g'
       | Fail f => crash f
       end.
Proof using All.
  intros Hg Hall. remember (pool g) as l eqn:Hl.
  revert rounds g Hg Hl Hall.
  induction (tc_well_founded _ (decrease_wf moves moves_wf) l) as [l _ IH]. intros rounds g Hg -> Hall.
  destruct (good_progress g Hg) as [Hfin|(i & Hi)]; [by exists 0|].
  pose proof (round_moves (rounds 0) g Hg) as Hround.
  destruct (run_waiting body (rounds 0) g) as [g1|f] eqn:Hrun.
  2:{ exists 1. cbn. rewrite app_nil_r. by rewrite Hrun. }
  destruct Hround as (Hg1 & Hlen & [Hor|[-> Hno]]).
  - destruct (IH _ Hor (rounds ∘ Datatypes.S) g1 Hg1 eq_refl) as (n & Hn).
    { intros k j Hj. apply Hall. by rewrite <-Hlen. }
    exists (Datatypes.S n). cbn [seq]. rewrite fmap_cons. cbn [concat].
    rewrite run_waiting_app, Hrun, bind_Ok, <-fmap_S_seq, <-list_fmap_compose. exact Hn.
  - exfalso. apply (Hno i); [|done]. apply Hall.
    destruct Hi as [(? & _ & t & ? & ?%lookup_lt_Some & _)|(f & Hf & _)]; [done|].
    destruct (pool g !! i) eqn:Ht; [by eapply lookup_lt_Some|]. unfold thread_step in Hf. by rewrite Ht in Hf.
Qed.
End fair.
