(* ===== verification/Locks.v ===== *)
(** Lists of threads of which one takes a step, and the mutexes that they
    hold. *)

From S2P Require Import Prelude.
Local Open Scope nat_scope.

Section update.
Context {T : Type}.
Implicit Types (l : list T) (p q : T) (w : nat).

Lemma update_split w l p q :
  l !! w = Some p → ∃ l1 l2, l = l1 ++ p :: l2 ∧ length l1 = w ∧ <[w := q]> l = l1 ++ q :: l2.
Proof.
  intros Hw. exists (take w l), (drop (S w) l).
  pose proof (lookup_lt_Some _ _ _ Hw) as Hlt.
  split_and!; [by rewrite take_drop_middle|by rewrite length_take; lia|].
  by apply insert_take_drop.
Qed.

Lemma update_sum f w l p q :
  l !! w = Some p → sum_list_with f (<[w := q]> l) + f p = sum_list_with f l + f q.
Proof.
  intros Hw. destruct (update_split w l p q Hw) as (l1 & l2 & -> & _ & ->).
  rewrite !sum_list_with_app. cbn [sum_list_with]. lia.
Qed.

Lemma update_concat {A} (f : T → list A) w l p q :
  l !! w = Some p →
  concat (f <$> <[w := q]> l) ++ f p ≡ₚ concat (f <$> l) ++ f q.
Proof.
  intros Hw. destruct (update_split w l p q Hw) as (l1 & l2 & -> & _ & ->).
  rewrite !fmap_app, !fmap_cons, !concat_app. cbn [concat]. solve_Permutation.
Qed.

Lemma update_lookup w l p q v x :
  l !! w = Some p → <[w := q]> l !! v = Some x → (v = w ∧ x = q) ∨ (v ≠ w ∧ l !! v = Some x).
Proof.
  intros Hw. pose proof (lookup_lt_Some _ _ _ Hw).
  destruct (decide (v = w)) as [->|]; [rewrite list_lookup_insert_eq by done|
    rewrite list_lookup_insert_ne by done]; naive_solver.
Qed.

(** The mutex [m] is held by the thread that is at a position of [h], if
    there is one. *)
Definition owner (h : T → bool) (m : option nat) (l : list T) : Prop :=
  ∀ v, m = Some v ↔ ∃ p, l !! v = Some p ∧ h p = true.

Lemma owner_keep h m l w p q :
  owner h m l → l !! w = Some p → h p = h q → owner h m (<[w := q]> l).
Proof.
  intros Ho Hw Hpq v. rewrite (Ho v). pose proof (lookup_lt_Some _ _ _ Hw).
  destruct (decide (v = w)) as [->|Hne].
  - rewrite list_lookup_insert_eq by done. rewrite Hw. naive_solver congruence.
  - by rewrite list_lookup_insert_ne.
Qed.

Lemma owner_acquire h l w p q :
  owner h None l → l !! w = Some p → h q = true → owner h (Some w) (<[w := q]> l).
Proof.
  intros Ho Hw Hq v. pose proof (lookup_lt_Some _ _ _ Hw).
  destruct (decide (v = w)) as [->|Hne].
  - rewrite list_lookup_insert_eq by done. naive_solver.
  - rewrite list_lookup_insert_ne by done. split; [congruence|].
    intros Hv. apply Ho in Hv. done.
Qed.

Lemma owner_release h l w p q :
  owner h (Some w) l → l !! w = Some p → h q = false → owner h None (<[w := q]> l).
Proof.
  intros Ho Hw Hq v. pose proof (lookup_lt_Some _ _ _ Hw). split; [done|].
  destruct (decide (v = w)) as [->|Hne].
  - rewrite list_lookup_insert_eq by done. intros (? & [= <-] & ?). congruence.
  - rewrite list_lookup_insert_ne by done. intros Hv. apply Ho in Hv. congruence.
Qed.

(** What the holder of [m] has, by [f]. *)
Definition held_by {A} (f : T → list A) (m : option nat) l : list A :=
  match m with
  | Some w => match l !! w with Some p => f p | None => [] end
  | None => []
  end.

(** Another thread's step leaves that alone. *)
Lemma held_by_other {A} (f : T → list A) m l w q :
  m ≠ Some w → held_by f m (<[w := q]> l) = held_by f m l.
Proof.
  destruct m as [v|]; [|done]. intros Hne. cbn. rewrite list_lookup_insert_ne; [done|congruence].
Qed.

Lemma held_by_self {A} (f : T → list A) l w p q :
  l !! w = Some p → held_by f (Some w) (<[w := q]> l) = f q.
Proof. intros Hw. cbn. rewrite list_lookup_insert_eq; [done|by eapply lookup_lt_Some]. Qed.
End update.

(** ** Totals *)

(** All that the threads have together, by [f]; and what the threads other
    than [w] have. *)
Definition all {T A} (f : T → list A) (l : list T) : list A := concat (f <$> l).
Definition others {T A} (f : T → list A) (w : nat) (l : list T) : list A := all f (delete w l).

Lemma all_focus {T A} (f : T → list A) (l : list T) w p :
  l !! w = Some p → all f l ≡ₚ f p ++ others f w l.
Proof.
  intros Hw. unfold others, all. rewrite <-(take_drop_middle l w p Hw) at 1.
  rewrite delete_take_drop, !fmap_app, fmap_cons, !concat_app. cbn [concat]. solve_Permutation.
Qed.

Lemma all_update {T A} (f : T → list A) (l : list T) w p q :
  l !! w = Some p → all f (<[w := q]> l) ≡ₚ f q ++ others f w l.
Proof.
  intros Hw. pose proof (lookup_lt_Some _ _ _ Hw).
  rewrite (all_focus f (<[w := q]> l) w q) by (by apply list_lookup_insert_eq).
  unfold others. rewrite !delete_take_drop, take_insert_ge, drop_insert_lt by lia. done.
Qed.

Lemma all_empty {T A} (f : T → list A) (l : list T) : (∀ t, t ∈ l → f t = []) → all f l = [].
Proof.
  unfold all. induction l as [|t l IH]; intros Ht; [done|]. rewrite fmap_cons. cbn [concat].
  rewrite Ht by apply list_elem_of_here. apply IH. intros t' Ht'. apply Ht. by apply list_elem_of_further.
Qed.

Lemma elem_of_all {T A} (f : T → list A) (l : list T) w p x :
  l !! w = Some p → x ∈ f p → x ∈ all f l.
Proof. intros Hw Hx. rewrite (all_focus f l w p Hw). apply elem_of_app. by left. Qed.
