(* ===== verification/Pipeline.v ===== *)
(** The threads of [test_procon] ([src/main.c], [src/thread.c]): the dispatcher
    that writes [fileinfo] records into a pipe, the workers that take them out
    under [readmtx] and print under [outmtx], as a step relation. *)

From S2P Require Import Prelude Locks.
Local Open Scope nat_scope.

Section pipeline.
(** A record in the pipe, and what a worker prints for it: the calls of
    [fprintf] it makes between the lock and the unlock of [outmtx]; none when
    the file has no match. *)
Context {J : Type} (chunks : J → list (list byte)).

(** The pipe holds [room] records; a writer waits while it is full. *)
Context (room : nat).

(** ** State *)

(** Where a worker stands in the loop of [worker_thread]. *)
Inductive wpc :=
  | Idle                                      (** before [lock(&readmtx)] *)
  | Reading                                   (** before [read] *)
  | Got (r : option J)                        (** after [read]: a record, or 0 *)
  | Searching (j : J)                         (** after [unlock(&readmtx)] *)
  | Printing (j : J) (printed rest : list (list byte))   (** inside [outmtx] *)
  | Exited_.                                  (** after [break] *)

Record state := State {
  todo : list J;             (** what the dispatcher has still to write *)
  pipe : list J;
  write_open : bool;         (** [pipefd[1]] *)
  readmtx : option nat;      (** the holder *)
  outmtx : option nat;
  ws : list wpc;
  out : list (list byte);    (** standard output *)
  taken : list J;            (** history: the records read, in order *)
  finished : list J;         (** history: the records done with, in order *)
}.

Definition initial (js : list J) (n : nat) : state :=
  State js [] true None None (replicate n Idle) [] [] [].

Definition set_ws (s : state) (w : nat) (p : wpc) : list wpc := <[w := p]> (ws s).

(** ** Steps *)

Inductive step : state → state → Prop :=
  (** [write(pipefd[1], &fi, sizeof(fileinfo))]. *)
  | step_write s j js :
      todo s = j :: js → write_open s = true → length (pipe s) < room →
      step s (State js (pipe s ++ [j]) true (readmtx s) (outmtx s) (ws s) (out s)
                (taken s) (finished s))
  (** [close(pipefd[1])]. *)
  | step_close s :
      todo s = [] → write_open s = true →
      step s (State [] (pipe s) false (readmtx s) (outmtx s) (ws s) (out s)
                (taken s) (finished s))
  | step_lock_read s w :
      ws s !! w = Some Idle → readmtx s = None →
      step s (State (todo s) (pipe s) (write_open s) (Some w) (outmtx s)
                (set_ws s w Reading) (out s) (taken s) (finished s))
  | step_read s w j js :
      ws s !! w = Some Reading → pipe s = j :: js →
      step s (State (todo s) js (write_open s) (readmtx s) (outmtx s)
                (set_ws s w (Got (Some j))) (out s) (taken s ++ [j]) (finished s))
  (** [read] returns 0 when the pipe is empty and its write end closed. *)
  | step_eof s w :
      ws s !! w = Some Reading → pipe s = [] → write_open s = false →
      step s (State (todo s) [] false (readmtx s) (outmtx s)
                (set_ws s w (Got None)) (out s) (taken s) (finished s))
  | step_unlock_read s w r :
      ws s !! w = Some (Got r) → readmtx s = Some w →
      step s (State (todo s) (pipe s) (write_open s) None (outmtx s)
                (set_ws s w (match r with Some j => Searching j | None => Exited_ end))
                (out s) (taken s) (finished s))
  (** A file with nothing to print: [off] is zero, or it could not be
      mapped. *)
  | step_nothing s w j :
      ws s !! w = Some (Searching j) → chunks j = [] →
      step s (State (todo s) (pipe s) (write_open s) (readmtx s) (outmtx s)
                (set_ws s w Idle) (out s) (taken s) (finished s ++ [j]))
  | step_lock_out s w j :
      ws s !! w = Some (Searching j) → chunks j ≠ [] → outmtx s = None →
      step s (State (todo s) (pipe s) (write_open s) (readmtx s) (Some w)
                (set_ws s w (Printing j [] (chunks j))) (out s) (taken s) (finished s))
  | step_print s w j done c rest :
      ws s !! w = Some (Printing j done (c :: rest)) →
      step s (State (todo s) (pipe s) (write_open s) (readmtx s) (outmtx s)
                (set_ws s w (Printing j (done ++ [c]) rest)) (out s ++ [c])
                (taken s) (finished s))
  | step_unlock_out s w j done :
      ws s !! w = Some (Printing j done []) → outmtx s = Some w →
      step s (State (todo s) (pipe s) (write_open s) (readmtx s) None
                (set_ws s w Idle) (out s) (taken s) (finished s ++ [j])).

Inductive steps : nat → state → state → Prop :=
  | steps_refl s : steps 0 s s
  | steps_l n s1 s2 s3 : step s1 s2 → steps n s2 s3 → steps (S n) s1 s3.

Lemma steps_snoc n s1 s2 s3 : steps n s1 s2 → step s2 s3 → steps (S n) s1 s3.
Proof. induction 1; intros; econstructor; eauto using steps_refl. Qed.

(** Every thread has returned. *)
Definition final (s : state) : Prop :=
  write_open s = false ∧ Forall (λ p, p = Exited_) (ws s).

(** ** Positions *)

Definition holds_read (p : wpc) : bool :=
  match p with Reading | Got _ => true | _ => false end.
Definition holds_out (p : wpc) : bool :=
  match p with Printing _ _ _ => true | _ => false end.

(** The record a worker has, and how much of it has been printed. *)
Definition in_hand (p : wpc) : list J :=
  match p with Got (Some j) | Searching j | Printing j _ _ => [j] | _ => [] end.
Definition printed_of (p : wpc) : list (list byte) :=
  match p with Printing _ done _ => done | _ => [] end.

(** Steps a worker may still make with what it has. *)
Definition work (p : wpc) : nat :=
  match p with
  | Idle => 3
  | Reading => 2
  | Got (Some j) => 7 + length (chunks j)
  | Got None => 1
  | Searching j => 6 + length (chunks j)
  | Printing _ _ rest => 4 + length rest
  | Exited_ => 0
  end.

Definition work_of (j : J) : nat := 6 + length (chunks j).

Definition measure (s : state) : nat :=
  sum_list_with (λ j, S (work_of j)) (todo s) + sum_list_with work_of (pipe s) +
  sum_list_with work (ws s) + (if write_open s then 1 else 0).

(** ** The invariant *)

(** What the holder of [outmtx] has printed of its file. *)
Definition partial_output (s : state) : list (list byte) :=
  match outmtx s with
  | Some w => match ws s !! w with Some p => printed_of p | None => [] end
  | None => []
  end.

(** A worker at this position has seen the end of the pipe. *)
Definition at_eof (p : wpc) : Prop := p = Got None ∨ p = Exited_.

Record inv (js : list J) (s : state) : Prop := {
  inv_read : owner holds_read (readmtx s) (ws s);
  inv_out : owner holds_out (outmtx s) (ws s);
  inv_fifo : taken s ++ pipe s ++ todo s = js;
  inv_hand : taken s ≡ₚ finished s ++ concat (in_hand <$> ws s);
  inv_stdout : out s = concat (chunks <$> finished s) ++ partial_output s;
  inv_printing : ∀ w j d r, ws s !! w = Some (Printing j d r) → chunks j = d ++ r;
  inv_open : write_open s = false → todo s = [];
  inv_eof : ∀ w p, ws s !! w = Some p → at_eof p → pipe s = [] ∧ write_open s = false;
  inv_room : length (pipe s) ≤ room;
}.

Lemma replicate_idle n w p : replicate n Idle !! w = Some p → p = Idle.
Proof. by intros [-> _]%lookup_replicate. Qed.

Lemma inv_initial js n : inv js (initial js n).
Proof.
  split; cbn [initial readmtx outmtx ws taken pipe todo finished out write_open]; try done.
  - intros v. split; [done|]. intros (p & ->%replicate_idle & Hp). done.
  - intros v. split; [done|]. intros (p & ->%replicate_idle & Hp). done.
  - induction n as [|n IH]; [done|]. cbn [replicate]. by rewrite fmap_cons.
  - intros w j d r H%replicate_idle. done.
  - intros w p ->%replicate_idle [|]; done.
  - cbn [length]. lia.
Qed.

(** The records in hand after an update. *)
Lemma hand_update (t f f' : list J) l w p q :
  l !! w = Some p → t ≡ₚ f ++ concat (in_hand <$> l) → f' ++ in_hand q ≡ₚ f ++ in_hand p →
  t ≡ₚ f' ++ concat (in_hand <$> <[w := q]> l).
Proof.
  intros Hw Ht Hf. pose proof (update_concat in_hand w l p q Hw) as Hu.
  rewrite Ht. apply (Permutation_app_inv_r (in_hand p)).
  rewrite <-!(assoc_L (++)), Hu. rewrite (Permutation_app_comm (concat _) (in_hand q)).
  rewrite (assoc_L (++) f'), Hf. solve_Permutation.
Qed.

Lemma partial_idle s w p :
  owner holds_out (outmtx s) (ws s) → ws s !! w = Some p → holds_out p = false →
  outmtx s ≠ Some w.
Proof. intros Ho Hw Hp Heq. apply Ho in Heq as (p' & Hp' & ?). congruence. Qed.

(** Another worker's update leaves the partial output alone. *)
Lemma partial_other (o : option nat) (l : list wpc) (w : nat) (q : wpc) :
  o ≠ Some w →
  match o with
  | Some v => match <[w := q]> l !! v with Some p => printed_of p | None => [] end
  | None => []
  end = match o with
        | Some v => match l !! v with Some p => printed_of p | None => [] end
        | None => []
        end.
Proof.
  destruct o as [v|]; [|done]. intros Hne. rewrite list_lookup_insert_ne; [done|congruence].
Qed.

(** ** Preservation *)

Lemma inv_write js s j todo' :
  todo s = j :: todo' → write_open s = true → length (pipe s) < room → inv js s →
  inv js (State todo' (pipe s ++ [j]) true (readmtx s) (outmtx s) (ws s) (out s)
            (taken s) (finished s)).
Proof.
  intros Ht Hopen Hroom [R O F H S P Op E Rm]. split; cbn in *; try done.
  - rewrite <-F, Ht. by rewrite <-(assoc_L (++)).
  - intros w p Hw Hp. destruct (E w p Hw Hp) as [_ ?]. congruence.
  - rewrite length_app. cbn [length]. lia.
Qed.

Lemma inv_close js s :
  todo s = [] → write_open s = true → inv js s →
  inv js (State [] (pipe s) false (readmtx s) (outmtx s) (ws s) (out s) (taken s) (finished s)).
Proof.
  intros Ht Hopen [R O F H S P Op E Rm]. split; cbn in *; try done.
  - by rewrite <-F, Ht.
  - intros w p Hw Hp. destruct (E w p Hw Hp) as [_ ?]. congruence.
Qed.

(** A worker moves between two positions outside [outmtx], the rest of the
    state changing only in the pipe, the mutex [readmtx] and the histories. *)
Lemma inv_move js s w p q pipe' rm' taken' fin' :
  ws s !! w = Some p → holds_out p = false → holds_out q = false →
  owner holds_read rm' (set_ws s w q) →
  taken' ++ pipe' = taken s ++ pipe s → length pipe' ≤ length (pipe s) →
  taken' ≡ₚ fin' ++ concat (in_hand <$> set_ws s w q) →
  concat (chunks <$> fin') = concat (chunks <$> finished s) →
  (at_eof q → pipe' = [] ∧ write_open s = false) → (pipe s = [] → pipe' = []) → inv js s →
  inv js (State (todo s) pipe' (write_open s) rm' (outmtx s) (set_ws s w q) (out s) taken' fin').
Proof.
  intros Hw Hp Hq R' Hf Hl H' Hc Heof Hpipe [R O F H S P Op E Rm].
  pose proof (partial_idle s w p O Hw Hp) as Hne. unfold set_ws in *.
  split; cbn [readmtx outmtx ws taken pipe todo finished out write_open]; try done.
  - eapply owner_keep; [done..|congruence].
  - rewrite (assoc_L (++)), Hf, <-(assoc_L (++)). done.
  - rewrite S, Hc. unfold partial_output at 2. cbn [outmtx ws]. by rewrite partial_other.
  - intros v j d r Hv. destruct (update_lookup _ _ _ _ _ _ Hw Hv) as [[-> <-]|[_ Hv']]; [done|eauto].
  - intros v x Hv Hx. destruct (update_lookup _ _ _ _ _ _ Hw Hv) as [[-> ->]|[_ Hv']]; [by apply Heof|].
    destruct (E v x Hv' Hx). auto.
  - lia.
Qed.

Lemma inv_lock_read js s w :
  ws s !! w = Some Idle → readmtx s = None → inv js s →
  inv js (State (todo s) (pipe s) (write_open s) (Some w) (outmtx s) (set_ws s w Reading)
            (out s) (taken s) (finished s)).
Proof.
  intros Hw Hm Hi. pose proof Hi as [R _ _ H _ _ _ _ _]. rewrite Hm in R.
  eapply inv_move; try done.
  - by eapply owner_acquire.
  - by eapply hand_update.
  - by intros [|].
Qed.

Lemma inv_read_record js s w j pipe' :
  ws s !! w = Some Reading → pipe s = j :: pipe' → inv js s →
  inv js (State (todo s) pipe' (write_open s) (readmtx s) (outmtx s)
            (set_ws s w (Got (Some j))) (out s) (taken s ++ [j]) (finished s)).
Proof.
  intros Hw Hpipe Hi. pose proof Hi as [R _ _ H _ _ _ _ _].
  eapply inv_move; try done.
  - by eapply owner_keep.
  - rewrite Hpipe. by rewrite <-(assoc_L (++)).
  - rewrite Hpipe. cbn [length]. lia.
  - pose proof (update_concat in_hand w (ws s) _ (Got (Some j)) Hw) as Hu.
    cbn [in_hand] in Hu. rewrite app_nil_r in Hu. unfold set_ws. rewrite Hu, H.
    by rewrite (assoc_L (++)).
  - by intros [|].
  - by rewrite Hpipe.
Qed.

Lemma inv_read_eof js s w :
  ws s !! w = Some Reading → pipe s = [] → write_open s = false → inv js s →
  inv js (State (todo s) [] false (readmtx s) (outmtx s)
            (set_ws s w (Got None)) (out s) (taken s) (finished s)).
Proof.
  intros Hw Hpipe Hopen Hi. pose proof Hi as [R _ _ H _ _ _ _ _].
  rewrite <-Hopen. eapply inv_move; try done.
  - by eapply owner_keep.
  - by rewrite Hpipe.
  - cbn [length]. lia.
  - by eapply hand_update.
Qed.

Lemma inv_unlock_read js s w r :
  ws s !! w = Some (Got r) → readmtx s = Some w → inv js s →
  inv js (State (todo s) (pipe s) (write_open s) None (outmtx s)
            (set_ws s w (match r with Some j => Searching j | None => Exited_ end))
            (out s) (taken s) (finished s)).
Proof.
  intros Hw Hm Hi. pose proof Hi as [R _ _ H _ _ _ E _]. rewrite Hm in R.
  eapply inv_move; try done.
  - by destruct r.
  - eapply owner_release; [done..|by destruct r].
  - eapply hand_update; [done..|by destruct r].
  - intros Hq. apply (E w _ Hw). destruct r; [by destruct Hq|by left].
Qed.

Lemma inv_nothing js s w j :
  ws s !! w = Some (Searching j) → chunks j = [] → inv js s →
  inv js (State (todo s) (pipe s) (write_open s) (readmtx s) (outmtx s)
            (set_ws s w Idle) (out s) (taken s) (finished s ++ [j])).
Proof.
  intros Hw Hc Hi. pose proof Hi as [R _ _ H _ _ _ _ _].
  eapply inv_move; try done.
  - by eapply owner_keep.
  - eapply hand_update; [done..|]. cbn [in_hand]. by rewrite app_nil_r.
  - rewrite fmap_app, concat_app. cbn [fmap list_fmap concat]. rewrite Hc. by rewrite !app_nil_r.
  - by intros [|].
Qed.

(** A step of the worker that holds [outmtx] or takes it. *)
Lemma inv_lock_out js s w j :
  ws s !! w = Some (Searching j) → outmtx s = None → inv js s →
  inv js (State (todo s) (pipe s) (write_open s) (readmtx s) (Some w)
            (set_ws s w (Printing j [] (chunks j))) (out s) (taken s) (finished s)).
Proof.
  intros Hw Hm [R O F H S P Op E Rm]. rewrite Hm in O. unfold set_ws.
  pose proof (lookup_lt_Some _ _ _ Hw).
  split; cbn [readmtx outmtx ws taken pipe todo finished out write_open]; try done.
  - by eapply owner_keep.
  - by eapply owner_acquire.
  - by eapply hand_update.
  - rewrite S. unfold partial_output. rewrite Hm. cbn [outmtx ws].
    by rewrite list_lookup_insert_eq.
  - intros v j' d r Hv. destruct (update_lookup _ _ _ _ _ _ Hw Hv) as [[-> Hq]|[_ Hv']]; [|eauto].
    by injection Hq as -> -> ->.
  - intros v x Hv Hx. destruct (update_lookup _ _ _ _ _ _ Hw Hv) as [[-> ->]|[_ Hv']]; [|eauto].
    by destruct Hx.
Qed.

Lemma inv_print js s w j d c r :
  ws s !! w = Some (Printing j d (c :: r)) → inv js s →
  inv js (State (todo s) (pipe s) (write_open s) (readmtx s) (outmtx s)
            (set_ws s w (Printing j (d ++ [c]) r)) (out s ++ [c]) (taken s) (finished s)).
Proof.
  intros Hw [R O F H S P Op E Rm]. unfold set_ws.
  assert (outmtx s = Some w) as Hm by (apply O; eauto).
  pose proof (lookup_lt_Some _ _ _ Hw).
  split; cbn [readmtx outmtx ws taken pipe todo finished out write_open]; try done.
  - by eapply owner_keep.
  - by eapply owner_keep.
  - by eapply hand_update.
  - rewrite S. unfold partial_output. rewrite Hm, Hw. cbn [outmtx ws].
    rewrite list_lookup_insert_eq by done. cbn [printed_of]. by rewrite (assoc_L (++)).
  - intros v j' d' r' Hv. destruct (update_lookup _ _ _ _ _ _ Hw Hv) as [[-> Hq]|[_ Hv']]; [|eauto].
    injection Hq as -> -> ->. rewrite <-(assoc_L (++)). by apply (P w).
  - intros v x Hv Hx. destruct (update_lookup _ _ _ _ _ _ Hw Hv) as [[-> ->]|[_ Hv']]; [|eauto].
    by destruct Hx.
Qed.

Lemma inv_unlock_out js s w j d :
  ws s !! w = Some (Printing j d []) → outmtx s = Some w → inv js s →
  inv js (State (todo s) (pipe s) (write_open s) (readmtx s) None
            (set_ws s w Idle) (out s) (taken s) (finished s ++ [j])).
Proof.
  intros Hw Hm [R O F H S P Op E Rm]. rewrite Hm in O. unfold set_ws.
  pose proof (P w j d [] Hw) as Hc. rewrite app_nil_r in Hc.
  split; cbn [readmtx outmtx ws taken pipe todo finished out write_open]; try done.
  - by eapply owner_keep.
  - by eapply owner_release.
  - eapply hand_update; [done..|]. cbn [in_hand]. by rewrite app_nil_r.
  - rewrite S. unfold partial_output. rewrite Hm, Hw. cbn [outmtx printed_of].
    rewrite app_nil_r, fmap_app, concat_app. cbn [fmap list_fmap concat].
    by rewrite app_nil_r, Hc.
  - intros v j' d' r' Hv. by destruct (update_lookup _ _ _ _ _ _ Hw Hv) as [[-> Hq]|[_ Hv']]; eauto.
  - intros v x Hv Hx. destruct (update_lookup _ _ _ _ _ _ Hw Hv) as [[-> ->]|[_ Hv']]; [|eauto].
    by destruct Hx.
Qed.

Lemma inv_step js s s' : step s s' → inv js s → inv js s'.
Proof.
  destruct 1; eauto using inv_write, inv_close, inv_lock_read, inv_read_record, inv_read_eof,
    inv_unlock_read, inv_nothing, inv_lock_out, inv_print, inv_unlock_out.
Qed.

Lemma inv_steps js n s s' : steps n s s' → inv js s → inv js s'.
Proof. induction 1; eauto using inv_step. Qed.

(** ** Termination *)

(** Every step makes the measure smaller. *)
Lemma step_measure s s' : step s s' → measure s' < measure s.
Proof.
  destruct 1; unfold measure, set_ws;
    cbn [todo pipe write_open ws];
    try match goal with
    | H : ws ?s !! ?w = Some ?p |- context [<[?w := ?q]> (ws ?s)] =>
        pose proof (update_sum work w (ws s) p q H)
    end;
    repeat match goal with
    | H : todo _ = _ |- _ => rewrite H
    | H : pipe _ = _ |- _ => rewrite H
    | H : write_open _ = _ |- _ => rewrite H
    | H : chunks _ = [] |- _ => rewrite H in *
    | r : option J |- _ => destruct r
    end;
    rewrite ?sum_list_with_app; cbn [sum_list_with work] in *; unfold work_of in *;
    cbn [length] in *; try lia.
Qed.

Lemma steps_measure n s s' : steps n s s' → n + measure s' ≤ measure s.
Proof. induction 1 as [|? ? ? ? Hs]; [lia|]. apply step_measure in Hs. lia. Qed.

(** ** Progress *)

(** A worker that is not at a lock held by another, and not waiting for the
    pipe, can move. *)
Lemma worker_progress js s w p :
  inv js s → ws s !! w = Some p → p ≠ Exited_ →
  (p = Idle → readmtx s = None) → (∀ j, p = Searching j → outmtx s = None) →
  (p = Reading → pipe s ≠ [] ∨ write_open s = false) → ∃ s', step s s'.
Proof.
  intros [R O F H S P Op E Rm] Hw Hne Hidle Hsearch Hread.
  destruct p as [| |r|j|j d [|c rest]|].
  - eexists. by eapply step_lock_read; auto.
  - destruct (pipe s) as [|j js'] eqn:Hp.
    + eexists. eapply step_eof; [done..|]. by destruct (Hread eq_refl).
    + eexists. by eapply step_read.
  - eexists. eapply step_unlock_read; [done|]. apply R. eauto.
  - destruct (chunks j) eqn:Hc.
    + eexists. by eapply step_nothing.
    + eexists. eapply step_lock_out; [done|by rewrite Hc|by eapply Hsearch].
  - eexists. eapply step_unlock_out; [done|]. apply O. eauto.
  - eexists. by eapply step_print.
  - done.
Qed.

(** The dispatcher can move unless it has closed the pipe or the pipe is
    full. *)
Lemma dispatcher_progress s :
  write_open s = true → length (pipe s) < room → ∃ s', step s s'.
Proof.
  intros Ho Hr. destruct (todo s) as [|j js] eqn:Ht; eexists;
    [by eapply step_close|by eapply step_write].
Qed.

#[local] Instance exited_dec (p : wpc) : Decision (p = Exited_).
Proof. destruct p; try (right; discriminate). by left. Defined.

Lemma ws_length_step s s' : step s s' → length (ws s') = length (ws s).
Proof. destruct 1; cbn [ws]; unfold set_ws; by rewrite ?length_insert. Qed.

Lemma ws_length_steps k s s' : steps k s s' → length (ws s') = length (ws s).
Proof. induction 1; [done|]. by erewrite IHsteps, ws_length_step. Qed.

Lemma inv_progress js s :
  0 < room → 0 < length (ws s) → inv js s → final s ∨ ∃ s', step s s'.
Proof.
  intros Hroom Hn Hi. pose proof Hi as [R O _ _ _ _ _ E _].
  destruct (outmtx s) as [w|] eqn:Ho.
  { right. destruct (proj1 (O w) eq_refl) as (p & Hp & Hh).
    eapply worker_progress; [done|done|..]; by destruct p. }
  destruct (readmtx s) as [w|] eqn:Hr.
  { right. destruct (proj1 (R w) eq_refl) as (p & Hp & Hh).
    destruct (pipe s) as [|j pipe'] eqn:Hpipe; [destruct (write_open s) eqn:Hopen|].
    - apply dispatcher_progress; [done|]. rewrite Hpipe. done.
    - eapply (worker_progress js s w p); auto; destruct p; naive_solver.
    - eapply (worker_progress js s w p); auto; destruct p; naive_solver congruence. }
  destruct (decide (Forall (λ p, p = Exited_) (ws s))) as [Hall|Hex].
  - left. split; [|done]. destruct (ws s) as [|p l] eqn:Hws; [cbn in Hn; lia|].
    apply Forall_cons_iff in Hall as [-> _]. apply (E 0 Exited_); [done|by right].
  - right. apply not_Forall_Exists in Hex; [|apply _]. apply list.Exists_exists in Hex as (p & Hin & Hp).
    apply list_elem_of_lookup in Hin as [w Hw].
    eapply (worker_progress js s w p); auto. intros ->.
    assert (None = Some w) as [=]. apply R. eauto.
Qed.

(** From every state of the invariant the threads can all return. *)
Lemma inv_completes js s :
  0 < room → 0 < length (ws s) → inv js s → ∃ k s', steps k s s' ∧ final s'.
Proof.
  intros Hroom. remember (measure s) as m eqn:Hm. revert s Hm.
  induction (lt_wf m) as [m _ IH]; intros s -> Hn Hi.
  destruct (inv_progress js s Hroom Hn Hi) as [Hf|[s1 Hs]].
  - exists 0, s. split; [apply steps_refl|done].
  - destruct (IH (measure s1) (step_measure _ _ Hs) s1 eq_refl) as (k & s2 & Hk & Hf).
    + by rewrite (ws_length_step _ _ Hs).
    + by eapply inv_step.
    + exists (S k), s2. split; [by eapply steps_l|done].
Qed.

(** At the end nothing is in hand. *)
Lemma final_in_hand l : Forall (λ p, p = Exited_) l → concat (in_hand <$> l) = [].
Proof. by induction 1 as [|p l -> _ IH]. Qed.

(** With one worker the files are done with in the order they are read. *)
Lemma single_order js k s :
  steps k (initial js 1) s → taken s = finished s ++ concat (in_hand <$> ws s).
Proof.
  intros Hs. assert (length (ws s) = 1) as H1 by (by rewrite (ws_length_steps _ _ _ Hs)).
  remember (initial js 1) as s0 eqn:H0. assert (taken s0 = finished s0 ++ concat (in_hand <$> ws s0))
    as Hbase by (by rewrite H0). assert (length (ws s0) = 1) as Hlen by (by rewrite H0). clear H0 H1.
  induction Hs as [|k s1 s2 s3 Hs _ IH]; [done|]. apply IH.
  - destruct (ws s1) as [|p [|]] eqn:Hws; [done| |done].
    destruct Hs; cbn [taken finished ws]; unfold set_ws; rewrite ?Hws in *; try done;
      (destruct w; [|done]); cbn in *; simplify_eq; cbn in *; rewrite ?app_nil_r in *;
      try congruence; try (destruct r; cbn in *; congruence).
  - by rewrite (ws_length_step _ _ Hs).
Qed.
End pipeline.

Arguments wpc : clear implicits.
Arguments state : clear implicits.

(** What a final state shows. *)
Lemma pipeline_final {J} (chunks : J → list (list byte)) room js n k s :
  0 < n → steps chunks room k (initial js n) s → final s →
  taken s = js ∧ ∃ order, order ≡ₚ js ∧ out s = concat (chunks <$> order) ∧
    (n = 1 → order = js).
Proof.
  intros Hn Hs [Hopen Hall].
  pose proof (inv_steps chunks room js _ _ _ Hs (inv_initial _ _ js n)) as Hi.
  pose proof (ws_length_steps _ _ _ _ _ Hs) as Hlen. cbn [initial ws] in Hlen.
  rewrite length_replicate in Hlen.
  destruct Hi as [R O F H S P Op E Rm]. pose proof (final_in_hand _ Hall) as Hnone.
  rewrite Hnone, app_nil_r in H. pose proof Hall as Hall'. rewrite list.Forall_forall in Hall'.
  assert (partial_output s = []) as Hpart.
  { unfold partial_output. destruct (outmtx s) as [w|]; [|done].
    destruct (ws s !! w) as [p|] eqn:Hw; [|done].
    by rewrite (Hall' p) by (eapply list_elem_of_lookup_2; done). }
  rewrite Hpart, app_nil_r in S.
  destruct (lookup_lt_is_Some_2 (ws s) 0) as [p Hp]; [lia|].
  assert (p = Exited_) as -> by (by apply Hall', (list_elem_of_lookup_2 _ 0)).
  destruct (E 0 Exited_ Hp) as [Hpipe _]; [by right|].
  rewrite Hpipe, (Op Hopen), app_nil_r in F. split; [done|].
  exists (finished s). split_and!; [by rewrite <-F, H|done|].
  intros ->. pose proof (single_order _ _ _ _ _ Hs) as H1.
  rewrite Hnone, app_nil_r in H1. congruence.
Qed.

(** ** The properties *)

(** C36: whenever all threads have returned, every record has been read once
    and in the order of the dispatcher, and standard output is the concatenation
    of what the files print, each file's contribution in one piece; the files
    come in some order, and in the dispatcher's when there is one worker. *)
Theorem pipeline_output {J} (chunks : J → list (list byte)) room js n k s :
  0 < n → steps chunks room k (initial js n) s → final s →
  taken s = js ∧ ∃ order, order ≡ₚ js ∧ out s = concat (chunks <$> order) ∧
    (n = 1 → order = js).
Proof. apply pipeline_final. Qed.

(** One file, one worker, a pipe of one record: the whole run. *)
Definition one_chunk (j : nat) : list (list byte) := [[x61]; [x62]].
Definition one_run_end : state nat :=
  State [] [] false None None [Exited_] [[x61]; [x62]] [7] [7].

Lemma one_run : steps one_chunk 1 12 (initial [7] 1) one_run_end.
Proof.
  eapply steps_l; [by eapply step_write; cbn; [..|lia]|]. vm_compute.
  eapply steps_l; [by eapply step_close|]. vm_compute.
  eapply steps_l; [by eapply (step_lock_read _ _ _ 0)|]. vm_compute.
  eapply steps_l; [by eapply (step_read _ _ _ 0)|]. vm_compute.
  eapply steps_l; [by eapply (step_unlock_read _ _ _ 0)|]. vm_compute.
  eapply steps_l; [by eapply (step_lock_out _ _ _ 0)|]. vm_compute.
  eapply steps_l; [by eapply (step_print _ _ _ 0)|]. vm_compute.
  eapply steps_l; [by eapply (step_print _ _ _ 0)|]. vm_compute.
  eapply steps_l; [by eapply (step_unlock_out _ _ _ 0)|]. vm_compute.
  eapply steps_l; [by eapply (step_lock_read _ _ _ 0)|]. vm_compute.
  eapply steps_l; [by eapply (step_eof _ _ _ 0)|]. vm_compute.
  eapply steps_l; [by eapply (step_unlock_read _ _ _ 0)|]. vm_compute.
  apply steps_refl.
Qed.

Lemma pipeline_output_witness :
  taken one_run_end = [7] ∧ ∃ order, order ≡ₚ [7] ∧
    out one_run_end = concat (one_chunk <$> order) ∧ (1 = 1 → order = [7]).
Proof.
  apply (pipeline_output one_chunk 1 [7] 1 12 one_run_end); [lia|exact one_run|].
  split; [reflexivity|]. apply (Forall_cons_iff _ Exited_). split; [reflexivity|constructor].
Defined.

(** C39: no deadlock and no livelock in the pipeline: from every state that is reached, some
    thread can move unless all have returned, all can still return, and the
    number of steps of any run is bounded in advance. *)
Theorem pipeline_completes {J} (chunks : J → list (list byte)) room js n k s :
  0 < room → 0 < n → steps chunks room k (initial js n) s →
  k ≤ sum_list_with (λ j, 7 + length (chunks j)) js + 3 * n + 1 ∧
  (final s ∨ ∃ s', step chunks room s s') ∧
  ∃ k' s', steps chunks room k' s s' ∧ final s'.
Proof.
  intros Hroom Hn Hs. pose proof (inv_steps chunks room js _ _ _ Hs (inv_initial _ _ js n)) as Hi.
  assert (0 < length (ws s)) as Hws.
  { rewrite (ws_length_steps _ _ _ _ _ Hs). cbn [initial ws]. by rewrite length_replicate. }
  split_and!; [|by eapply inv_progress|by eapply inv_completes].
  apply steps_measure in Hs. etrans; [|etrans; [exact (Nat.le_trans _ _ _ (Nat.le_add_r _ _) Hs)|]].
  { done. }
  unfold measure, work_of. cbn [initial todo pipe ws write_open sum_list_with].
  assert (sum_list_with (work chunks) (replicate n Idle) = 3 * n) as ->; [|cbn; lia].
  clear. induction n as [|n IH]; [done|]. cbn [replicate sum_list_with work]. lia.
Qed.

Lemma pipeline_completes_witness :
  12 ≤ 9 + 3 + 1 ∧
  (final one_run_end ∨ ∃ s', step one_chunk 1 one_run_end s') ∧
  ∃ k' s', steps one_chunk 1 k' one_run_end s' ∧ final s'.
Proof. apply (pipeline_completes one_chunk 1 [7] 1 12 one_run_end); [lia|lia|exact one_run]. Defined.

(** In every state that is reached the mutexes exclude: at most one
    worker is between the lock and the unlock of [readmtx], at most one inside
    [outmtx], and standard output consists of the whole outputs of some files
    followed by the beginning of the output of the one being printed. *)
Lemma pipeline_mutex {J} (chunks : J → list (list byte)) room js n k s :
  steps chunks room k (initial js n) s →
  (∀ w1 w2 p1 p2, ws s !! w1 = Some p1 → ws s !! w2 = Some p2 →
    holds_read p1 = true → holds_read p2 = true → w1 = w2) ∧
  (∀ w1 w2 p1 p2, ws s !! w1 = Some p1 → ws s !! w2 = Some p2 →
    holds_out p1 = true → holds_out p2 = true → w1 = w2) ∧
  ∃ files part, out s = concat (chunks <$> files) ++ part ∧ files ⊆+ js ∧
    (part = [] ∨ ∃ w j rest, ws s !! w = Some (Printing j part rest) ∧ chunks j = part ++ rest).
Proof.
  intros Hs. pose proof (inv_steps chunks room js _ _ _ Hs (inv_initial _ _ js n)) as Hi.
  destruct Hi as [R O F H S P Op E Rm]. split_and!.
  - intros w1 w2 p1 p2 H1 H2 Hh1 Hh2.
    assert (readmtx s = Some w1) by (apply R; eauto). assert (readmtx s = Some w2) by (apply R; eauto).
    congruence.
  - intros w1 w2 p1 p2 H1 H2 Hh1 Hh2.
    assert (outmtx s = Some w1) by (apply O; eauto). assert (outmtx s = Some w2) by (apply O; eauto).
    congruence.
  - exists (finished s), (partial_output s). split_and!; [done| |].
    + rewrite <-F, H. rewrite <-(assoc_L (++)). by apply submseteq_inserts_r.
    + unfold partial_output. destruct (outmtx s) as [w|] eqn:Hm; [|by left].
      destruct (proj1 (O w) eq_refl) as (p & Hp & Hh). rewrite Hp.
      destruct p as [| | | |j d r|]; try done. right. exists w, j, r. eauto.
Qed.

Lemma pipeline_mutex_witness :
  (∀ w1 w2 p1 p2, ws one_run_end !! w1 = Some p1 → ws one_run_end !! w2 = Some p2 →
    holds_read p1 = true → holds_read p2 = true → w1 = w2) ∧
  (∀ w1 w2 p1 p2, ws one_run_end !! w1 = Some p1 → ws one_run_end !! w2 = Some p2 →
    holds_out p1 = true → holds_out p2 = true → w1 = w2) ∧
  ∃ files part, out one_run_end = concat (one_chunk <$> files) ++ part ∧ files ⊆+ [7] ∧
    (part = [] ∨ ∃ w j rest, ws one_run_end !! w = Some (Printing j part rest) ∧
      one_chunk j = part ++ rest).
Proof. apply (pipeline_mutex one_chunk 1 [7] 1 12 one_run_end one_run). Defined.
