(* ===== verification/Main.v ===== *)
(** The pipes of the program ([src/main.c]), made by [sf_init], and what is
    printed for a file. *)

From S2P Require Import Prelude CInt Match MatchSpec Block Buffer BufferSpec Heap Trie TrieSpec WordSet Magic File Options Worker WorkerSpec WorkerClaims Dispatcher.
Local Open Scope Z_scope.

(** ** The pipes *)

Definition NCPU : nat := 2.
Definition NTHR : nat := 3.
Definition EXIT_FAILURE : Z := 1.

(** The globals [pipefd] and [result], each pair being read end, write end. *)
Record pipes := Pipes { pipefd : Z * Z; result : list (Z * Z) }.

(** [pipe(fds)]: two descriptors that are not open, or -1. *)
Definition make_pipe (pick : gset Z → Z) (succeeds : bool) : M proc (Z * Z) := λ p,
  if succeeds then
    let r := pick (open_fds p) in
    let w := pick ({[r]} ∪ open_fds p) in
    Ok ((r, w), Proc ({[w]} ∪ ({[r]} ∪ open_fds p)) (mappings p) (live_names p) (stdout p))
  else Fail (Exited EXIT_FAILURE).

(** The loop over [result]; [ok] tells which of the calls of [pipe] succeed. *)
Fixpoint make_pipes (pick : gset Z → Z) (ok : nat → bool) (i n : nat) : M proc (list (Z * Z)) :=
  match n with
  | O => mret []
  | S n' =>
      r ← make_pipe pick (ok i);
      rs ← make_pipes pick ok (S i) n';
      mret (r :: rs)
  end.

Definition sf_init (pick : gset Z → Z) (ok : nat → bool) : M proc pipes :=
  p ← make_pipe pick (ok O);
  rs ← make_pipes pick ok 1 NCPU;
  mret (Pipes p rs).

(** [sf_exit]. *)
Definition sf_exit (ps : pipes) : M proc unit := close (fst (pipefd ps)).

Definition pipe_ends (l : list (Z * Z)) : list Z := concat ((λ p, [p.1; p.2]) <$> l).

Lemma make_pipes_spec pick ok n : ∀ i p,
  (∀ X, pick X ∉ X) →
  if forallb ok (seq i n) then
    wp (make_pipes pick ok i n) (λ l p', length l = n ∧ NoDup (pipe_ends l) ∧
      (∀ x, x ∈ pipe_ends l → x ∉ open_fds p) ∧
      p' = Proc (open_fds p ∪ list_to_set (pipe_ends l)) (mappings p) (live_names p) (stdout p)) p
  else make_pipes pick ok i n p = Fail (Exited EXIT_FAILURE).
Proof.
  induction n as [|n IH]; intros i p Hpick; cbn [seq forallb make_pipes].
  { apply wp_ret. split_and!; [done|apply base.NoDup_nil_2|by intros x ?%elem_of_nil|].
    cbn. rewrite (right_id_L ∅ (∪)). by destruct p. }
  unfold make_pipe at 1 2. destruct (ok i) eqn:Hok; cbn [andb]; [|done].
  set (r := pick (open_fds p)). set (w := pick ({[r]} ∪ open_fds p)).
  set (p1 := Proc ({[w]} ∪ ({[r]} ∪ open_fds p)) (mappings p) (live_names p) (stdout p)).
  assert (r ∉ open_fds p ∧ w ∉ {[r]} ∪ open_fds p) as [Hr Hw] by (split; apply Hpick).
  apply not_elem_of_union in Hw as [Hwr%not_elem_of_singleton Hw].
  specialize (IH (S i) p1 Hpick). destruct (forallb ok (seq (S i) n)).
  - apply wp_bind. unfold wp at 1. cbn [yields fst snd]. fold r w p1. apply wp_bind.
    eapply wp_mono; [exact IH|]. intros l p' (Hlen & Hnd & Hnew & Hopen). apply wp_ret.
    assert (∀ x, x ∈ pipe_ends l → x ≠ w ∧ x ≠ r ∧ x ∉ open_fds p) as Hx.
    { intros x Hx%Hnew. cbn [p1 open_fds] in Hx. rewrite !elem_of_union, !elem_of_singleton in Hx.
      tauto. }
    change (pipe_ends ((r, w) :: l)) with (r :: w :: pipe_ends l). split_and!.
    + cbn [length]. lia.
    + apply list.NoDup_cons. split; [|apply list.NoDup_cons; split; [|done]].
      * rewrite elem_of_cons. intros [?|Hin]; [congruence|]. by destruct (Hx r Hin) as (_ & ? & _).
      * intros Hin. by destruct (Hx w Hin) as (? & _).
    + intros x. rewrite !elem_of_cons. intros [->|[->|Hin]]; [done|done|].
      by destruct (Hx x Hin) as (_ & _ & ?).
    + rewrite Hopen. cbn [p1 open_fds mappings live_names stdout list_to_set]. f_equal. clear.
      apply set_eq. intros x. set_solver.
  - unfold mbind, M_bind. cbv beta iota zeta. fold r w p1. by rewrite IH.
Qed.

(** All the descriptors of the pipes. *)
Definition all_ends (ps : pipes) : list Z := pipe_ends (pipefd ps :: result ps).

(** When every call of [pipe] succeeds, [sf_init] leaves six distinct
    descriptors that were not open before, a pair for [pipefd] and one for each
    worker, and the process is otherwise as it was; when one fails the program ends with [EXIT_FAILURE]. *)
Lemma sf_init_pipes pick ok p :
  (∀ X, pick X ∉ X) →
  if forallb ok (seq 0 (S NCPU)) then
    wp (sf_init pick ok) (λ ps p', length (result ps) = NCPU ∧ NoDup (all_ends ps) ∧
      (∀ x, x ∈ all_ends ps → x ∉ open_fds p) ∧
      p' = Proc (open_fds p ∪ list_to_set (all_ends ps)) (mappings p) (live_names p) (stdout p)) p
  else sf_init pick ok p = Fail (Exited EXIT_FAILURE).
Proof.
  intros Hpick. pose proof (make_pipes_spec pick ok (S NCPU) 0 p Hpick) as H.
  destruct (forallb ok (seq 0 (S NCPU))).
  - apply wp_run in H as (l & p' & Hrun & Hlen & Hnd & Hnew & Hopen).
    cbn [make_pipes] in Hrun. apply M_bind_Ok in Hrun as (pr & p1 & H1 & Hrun).
    apply M_bind_Ok in Hrun as (rs & p2 & H2 & Hrun). injection Hrun as <- <-.
    unfold sf_init. apply wp_bind. eapply wp_run_eq; [exact H1|]. apply wp_bind.
    eapply wp_run_eq; [exact H2|]. apply wp_ret. unfold all_ends. cbn [result pipefd].
    cbn [length] in Hlen. split_and!; [lia|done..].
  - cbn [make_pipes] in H. unfold sf_init. unfold mbind, M_bind in H |- *.
    destruct (make_pipe pick (ok 0%nat) p) as [[pr p1]|]; [|congruence].
    fold (make_pipes pick ok 1 NCPU) in H. destruct (make_pipes pick ok 1 NCPU p1) as [[]|]; [discriminate H|congruence].
Qed.

Definition pick_fresh (X : gset Z) : Z := fresh X.

Lemma sf_init_pipes_witness :
  wp (sf_init pick_fresh (λ _, true)) (λ ps p', length (result ps) = 2%nat ∧ NoDup (all_ends ps) ∧
    (∀ x, x ∈ all_ends ps → x ∉ ({[0; 1; 2]} : gset Z)) ∧
    p' = Proc ({[0; 1; 2]} ∪ list_to_set (all_ends ps)) 0 [] []) (Proc {[0; 1; 2]} 0 [] []).
Proof.
  pose proof (sf_init_pipes pick_fresh (λ _, true) (Proc {[0; 1; 2]} 0 [] [])
    (λ X, is_fresh X)) as H.
  change (forallb (λ _, true) (seq 0 (S NCPU))) with true in H. exact H.
Defined.

(** ** The output *)

(** What is printed for a path, [pad] being the rest of the last page of its
    mapping: the text of the matches is printed as a string. *)
Definition path_output (list_only : bool) (P : list byte) (content pad : list byte → list byte)
    (path : list byte) : list (list byte) :=
  if decide (found P (content path) (pad path) = []) then []
  else filename_line path ::
       (if list_only then [] else [as_string (file_text P (content path) (pad path)) ++ [newline]]).
