(* ===== verification/Program.v ===== *)
(** The program ([main] of [src/main.c]) as threads on a shared state: the
    dispatcher and the workers of [src/thread.c], each a program whose atomic
    actions are its calls of the system and of the mutexes, run under every
    schedule between [sf_init] and [sf_exit]. *)

From S2P Require Import Prelude CInt Match Block Buffer Heap Trie WordSet Magic File Options Worker Dispatcher Main Proc.
Local Open Scope Z_scope.

(** ** State *)

(** What the threads share: the process ([kernel]: descriptors, mappings,
    names and standard output), the path on which each descriptor was opened,
    the records in the pipe, the holders of the two mutexes, and the detector of
    [src/magic.c]. *)
Record system {S P : Type} := System {
  kernel : File.proc;
  opened : gmap Z (list byte);
  records : list fileinfo;
  readmtx : option nat;
  outmtx : option nat;
  detector : magic_state S P;
}.
Arguments system : clear implicits.
Arguments System {S P}.

Section program.
Context {S P F : Type} `{!WordSet S P F}.
(** The file system; what the calls on descriptors do, given the path that each
    of them is open on; and the allocator. *)
Context (e : fs) (calls : gmap Z (list byte) → os) (ok : allocator).
(** What [parse_options] and [sf_init] left; and the number of records for
    which the pipe has room. *)
Context (opt : cli_options) (ps : pipes) (room : nat).

Abbreviation sys := (system S P).

(** ** Actions *)

Definition in_kernel {A} (m : M File.proc A) : M sys A := λ s,
  match m (kernel s) with
  | Ok (a, k) => Ok (a, System k (opened s) (records s) (readmtx s) (outmtx s) (detector s))
  | Fail f => Fail f
  end.

Definition in_detector {A} (m : M (magic_state S P) A) : M sys A := λ s,
  match m (detector s) with
  | Ok (a, d) => Ok (a, System (kernel s) (opened s) (records s) (readmtx s) (outmtx s) d)
  | Fail f => Fail f
  end.

(** The descriptors that are open on files, with their paths. *)
Definition open_files (s : sys) : gmap Z (list byte) :=
  filter (λ x, x.1 ∈ open_fds (kernel s)) (opened s).

(** A computation of [src/file.c], with the calls as they behave now. *)
Definition in_files {A} (m : os → M File.proc A) : M sys A := λ s,
  in_kernel (m (calls (open_files s))) s.

Definition set_readmtx (m : option nat) : M sys unit := λ s,
  Ok (tt, System (kernel s) (opened s) (records s) m (outmtx s) (detector s)).
Definition set_outmtx (m : option nat) : M sys unit := λ s,
  Ok (tt, System (kernel s) (opened s) (records s) (readmtx s) m (detector s)).
Definition set_records (fis : list fileinfo) : M sys unit := λ s,
  Ok (tt, System (kernel s) (opened s) fis (readmtx s) (outmtx s) (detector s)).

(** [pthread_mutex_lock(&readmtx)] by thread [i], and its [unlock]; the same
    for [outmtx]. *)
Definition lock_read (i : nat) : M sys unit :=
  s ← get; match readmtx s with None => set_readmtx (Some i) | Some _ => fail Blocked end.
Definition unlock_read : M sys unit := set_readmtx None.
Definition lock_out (i : nat) : M sys unit :=
  s ← get; match outmtx s with None => set_outmtx (Some i) | Some _ => fail Blocked end.
Definition unlock_out : M sys unit := set_outmtx None.

(** [read(pipefd[0], &fi, sizeof(fi))]: a whole record, since records are
    written whole; it waits while the pipe is empty and has a writer, and gives
    0 when it has none. *)
Definition read_record : M sys (option fileinfo) :=
  s ← get;
  match records s with
  | fi :: fis => set_records fis;; mret (Some fi)
  | [] => if bool_decide (snd (pipefd ps) ∈ open_fds (kernel s)) then fail Blocked else mret None
  end.

(** [write(pipefd[1], &fi, sizeof(fileinfo))]: it waits while there is no room
    for a record. *)
Definition write_record (fi : fileinfo) : M sys unit :=
  s ← get;
  if bool_decide (length (records s) < room)%nat then set_records (records s ++ [fi])
  else fail Blocked.

(** [open(path, O_RDONLY)]. *)
Definition open_path (path : list byte) : M sys (option Z) :=
  r ← in_kernel (open_file e path);
  match r with
  | None => mret None
  | Some n =>
      s ← get;
      put (System (kernel s) (<[n := path]> (opened s)) (records s) (readmtx s) (outmtx s) (detector s));;
      mret (Some n)
  end.

(** [magic_scan(fd)]: it reads the file on which the descriptor is open. *)
Definition scan_descriptor (n : Z) : M sys bool :=
  s ← get;
  match open_files s !! n with
  | Some path => in_detector (magic_scan (fs_stack e path) (read16 (fs_content e path)))
  | None => fail UseAfterFree
  end.

(** ** The dispatcher *)

Definition dispatch_program (path : list byte) : proc sys unit :=
  r ← atomic (open_path path);
  match r with
  | None => mret tt
  | Some n =>
      b ← atomic (scan_descriptor n);
      if (b : bool) then atomic (in_kernel (close n))
      else
        atomic (in_kernel (dup_name path));;
        atomic (write_record (FileInfo n path None 0))
  end.

Definition visit_program (name path : list byte) (regular : bool) : proc sys bool :=
  if skipped name then mret true
  else (if regular then dispatch_program path else mret tt);; mret false.

Fixpoint walk_program (path : list byte) (t : fts_tree) : proc sys unit :=
  match t with
  | Entry name regular children =>
      skip ← visit_program name path regular;
      if (skip : bool) then mret tt
      else (fix walk_all (cs : list fts_tree) : proc sys unit :=
              match cs with
              | [] => mret tt
              | c :: cs' => walk_program (child_path path c) c;; walk_all cs'
              end) children
  end.

(** [dispatcher_thread]. *)
Definition dispatcher_program (root : fts_tree) : proc sys unit :=
  atomic (in_detector magic_init);;
  walk_program (tree_name root) root;;
  atomic (in_kernel (close (snd (pipefd ps))));;
  atomic (in_detector magic_fini).

(** ** A worker *)

(** The calls between the lock and the unlock of [outmtx], and the lock and the
    unlock. *)
Definition print_program (i : nat) (name : list byte) (st : worker_state) : proc sys unit :=
  atomic (lock_out i);;
  atomic (in_kernel (print (filename_line name)));;
  (if list_matching_files opt then mret tt
   else s ← atomic (lift (blk ← deref (read_buffer (wbuf st)); c_string blk));
        atomic (in_kernel (print (s ++ [newline]))));;
  atomic unlock_out;;
  atomic (in_kernel (free_name name)).

(** An iteration once a record has been received. The search itself touches
    only what the thread owns: it is one action. *)
Definition file_program (i : nat) (kst : kmp_state) (fi : fileinfo) (st : worker_state)
    : proc sys worker_state :=
  r ← atomic (in_files (λ o, map_file o fi));
  let fi := snd r in
  match fst r with
  | None => atomic (in_kernel (close (fd fi)));; mret st
  | Some fb =>
      st ← atomic (lift (search_file ok kst (search_patlen opt) fb (size fi) st));
      (if bool_decide (off (wbuf st) ≠ 0) then print_program i (filename fi) st else mret tt);;
      b ← atomic (lift (reset_buffer ok (wbuf st)));
      atomic (in_files (λ o, unmap_file o fi));;
      mret (WorkerState b (nll st) (cnt st))
  end.

(** [while (1)]. *)
Fixpoint worker_loop (fuel : nat) (i : nat) (kst : kmp_state) (st : worker_state)
    : proc sys worker_state :=
  match fuel with
  | O => stop OutOfFuel
  | Datatypes.S fuel' =>
      atomic (lock_read i);;
      n ← atomic read_record;
      atomic unlock_read;;
      match n with
      | None => mret st
      | Some fi => st' ← file_program i kst fi st; worker_loop fuel' i kst st'
      end
  end.

(** [worker_thread] with the argument [tid], as thread [i]: prepare, handle the
    files, finish. The buffer and the table are the thread's own. *)
Definition worker_program (fuel i tid : nat) : proc sys (kmp_state * worker_state) :=
  b ← atomic (lift (init_buffer ok buf_initial));
  kst ← atomic (lift (pattern ← match search_pattern opt with
                                | Some p => Ok p
                                | None => Fail NullPointer
                                end;
                      let patlen := u64 (search_patlen opt) in
                      kmp_prepare (ok (4 * patlen)) pattern patlen kmp_initial));
  st ← worker_loop fuel i kst (WorkerState b (nll worker_initial) (cnt worker_initial));
  r ← atomic (lift (rd (result ps) (Z.of_nat tid)));
  atomic (in_kernel (close (snd r)));;
  mret (kmp_finish kst, WorkerState (destroy_buffer (wbuf st)) (nll st) (cnt st)).

(** ** The threads *)

(** What [pthread_create] starts. *)
Inductive routine := Dispatch | Work (tid : nat).

Definition routine_program (fuel : nat) (root : fts_tree) (i : nat) (c : routine) : proc sys unit :=
  match c with
  | Dispatch => dispatcher_program root
  | Work tid => worker_program fuel i tid;; mret tt
  end.

(** The threads of [test_procon]. *)
Definition test_procon : list routine := [Dispatch; Work 0; Work 1].

Definition created (fuel : nat) (root : fts_tree) (s : sys) : config sys routine unit :=
  Config s (imap (λ i c, Thread (Some (c, routine_program fuel root i c)) []) test_procon) [].

(** Every thread has returned: the calls of [pthread_join] return. *)
Definition joined (g : config sys routine unit) : bool :=
  forallb (λ t, match running t with None => true | Some _ => false end) (pool g).
End program.

(** ** [main] *)

(** The program still runs, or has ended. *)
Inductive main_state {S P : Type} :=
  | Runs (g : config (system S P) routine unit)
  | Ends (p : File.proc) (d : magic_state S P).
Arguments main_state : clear implicits.

(** What [parse_options] has printed. *)
Definition say (texts : list (list byte)) (p : File.proc) : File.proc :=
  File.Proc (open_fds p) (mappings p) (live_names p) (stdout p ++ texts).

(** [main] on the results of [getopt_long] ([getopt argv] for a command line),
    with the calls of [pipe] that succeed, from a process and an empty detector,
    after the steps of a schedule; [fuel] bounds the loop of each worker, and [zd]
    is what [%zd] prints for an [int]. *)
Definition main {S P F} `{!WordSet S P F} (e : fs) (calls : gmap Z (list byte) → os)
    (ok : allocator) (zd : Z → list byte) (room : nat) (g : getopt_run) (pipe_ok : nat → bool)
    (root : fts_tree) (p : File.proc) (d : magic_state S P) (fuel : nat) (sched : list nat)
    : outcome (main_state S P) :=
  r ← parse_options g opt_initial;
  x ← sf_init (fs_pick e) pipe_ok (say (message_text zd <$> r.2) p);
  c ← run_waiting (routine_program e calls ok r.1 x.1 room fuel root) sched
        (created e calls ok r.1 x.1 room fuel root (System x.2 ∅ [] None None d));
  if joined c then y ← sf_exit x.1 (kernel (shared c)); Ok (Ends y.2 (detector (shared c))) else Ok (Runs c).
