(* ===== verification/ProgramInv.v ===== *)
(** The invariant of the whole program: who holds each descriptor, name and
    mapping, which files are still to come, in the pipe, in a worker's hands or
    done with, what has been printed, and that the threads have done so far what
    a run of [Pipeline] does. *)

From S2P Require Import Prelude Pipeline CInt Heap Trie WordSet Magic File Worker Dispatcher Main Proc Locks Program.
Local Open Scope nat_scope.

(** ** The books of a thread *)

(** Where the dispatcher stands with the detector; before [magic_init], how many
    nodes there is room for. *)
Inductive stage := Fresh (room : nat) | Ready | Gone.

(** What a thread has: the paths that it has still to send; the ends of pipes
    that it will close; its descriptors with their paths, the names that it will
    free, its mappings, the files that it has received and not dealt with; what it
    has printed since it took [outmtx]; the mutexes that it holds; and whether it
    has seen the end of the pipe. *)
Record account := Account {
  a_left : list (list byte);
  a_ends : list Z;
  a_held : list (Z * list byte);
  a_names : list (list byte);
  a_maps : list Z;
  a_hand : list (list byte);
  a_part : list (list byte);
  a_read : bool;
  a_out : bool;
  a_eof : bool;
  a_stage : stage;
}.

(** The books of the dispatcher, and of a worker. *)
Definition dispatching (left : list (list byte)) (ends : list Z) (held : list (Z * list byte))
    (names : list (list byte)) (g : stage) : account :=
  Account left ends held names [] [] [] false false false g.

Definition working (ends : list Z) (held : list (Z * list byte)) (names : list (list byte))
    (maps : list Z) (hand part : list (list byte)) (read out eof : bool) : account :=
  Account [] ends held names maps hand part read out eof Gone.

(** A thread that has returned. *)
Definition over (t : account) : Prop :=
  a_left t = [] ∧ a_ends t = [] ∧ a_held t = [] ∧ a_names t = [] ∧ a_maps t = [] ∧ a_hand t = [] ∧
  a_read t = false ∧ a_out t = false ∧ a_stage t = Gone.

(** The descriptor of a record, with its path. *)
Definition record_fd (fi : fileinfo) : Z * list byte := (fd fi, filename fi).

Section inv.
Context {S P F : Type} `{WordSetLaws S P F} (f : F).
(** What is printed for a file. *)
Context (outs : list byte → list (list byte)).
(** The write end of the pipe, its room, the files to be searched, and what the
    process has beside them. *)
Context (wr : Z) (room : nat) (L : list (list byte)).
Context (base : gset Z) (names0 : list (list byte)) (maps0 : nat) (out0 : list (list byte)).
Abbreviation sys := (system S P).

(** ** What is conserved *)

(** The descriptors in use beside those of [base]. *)
Definition in_use (s : sys) (held : list (Z * list byte)) (ends : list Z) : list Z :=
  (record_fd <$> records s).*1 ++ held.*1 ++ ends.

Record core (s : sys) (n : nat) (done left : list (list byte)) (ends : list Z)
    (held : list (Z * list byte)) (names : list (list byte)) (maps : list Z)
    (hand : list (list byte)) : Prop := {
  core_fds : NoDup (in_use s held ends);
  core_open : ∀ x, x ∈ open_fds (kernel s) ↔ x ∈ base ∨ x ∈ in_use s held ends;
  core_base : ∀ x, x ∈ in_use s held ends → x ∉ base;
  core_files : ∀ x p, (x, p) ∈ (record_fd <$> records s) ++ held → opened s !! x = Some p;
  core_names : live_names (kernel s) ≡ₚ
    (filename <$> records s) ++ names ++ filter (λ p, outs p = []) done ++ names0;
  core_maps : mappings (kernel s) = maps0 + length maps;
  core_paths : (filename <$> records s) ++ left ++ hand ++ done ≡ₚ L;
  core_count : length (records s) + length left ≤ n;
}.

Lemma in_use_perm s held held' ends ends' :
  held ≡ₚ held' → ends ≡ₚ ends' → in_use s held ends ≡ₚ in_use s held' ends'.
Proof. intros Hh He. unfold in_use. by rewrite Hh, He. Qed.

Lemma core_perm s n done left left' ends ends' held held' names names' maps maps' hand hand' :
  left ≡ₚ left' → ends ≡ₚ ends' → held ≡ₚ held' → names ≡ₚ names' → maps ≡ₚ maps' →
  hand ≡ₚ hand' →
  core s n done left ends held names maps hand → core s n done left' ends' held' names' maps' hand'.
Proof.
  intros Hl He Hh Hn Hm Hd [C1 C2 C3 C4 C5 C6 C7 C8].
  pose proof (in_use_perm s held held' ends ends' Hh He) as Hu. constructor.
  - by rewrite <-Hu.
  - intros x. by rewrite <-Hu.
  - intros x. rewrite <-Hu. apply C3.
  - intros x p. rewrite <-Hh. apply C4.
  - by rewrite <-Hn.
  - by rewrite <-Hm.
  - by rewrite <-Hl, <-Hd.
  - by rewrite <-Hl.
Qed.

(** ** The abstract pipeline *)

(** Where a worker stands in the pipeline. *)
Definition position (t : account) : wpc (list byte) :=
  if a_eof t then if a_read t then Got None else Exited_
  else match a_hand t with
       | [] => if a_read t then Reading else Idle
       | p :: _ =>
           if a_read t then Got (Some p)
           else if a_out t then Printing p (a_part t) (drop (length (a_part t)) (outs p))
           else Searching p
       end.

(** A state of the pipeline shows what the threads have done. *)
Record shows (s : sys) (done : list (list byte)) (ts : list account) (a : state (list byte)) : Prop := {
  shows_todo t : ts !! 0 = Some t → todo a = a_left t;
  shows_open t : ts !! 0 = Some t → write_open a = bool_decide (wr ∈ a_ends t);
  shows_ws : ws a = position <$> drop 1 ts;
  shows_pipe : pipe a = filename <$> records s;
  shows_read : Pipeline.readmtx a = pred <$> readmtx s;
  shows_mutex : Pipeline.outmtx a = pred <$> outmtx s;
  shows_out : stdout (kernel s) = out0 ++ out a;
  shows_finished : finished a = done;
}.

(** The pipeline comes to such a state from the start. *)
Definition reached (s : sys) (done : list (list byte)) (ts : list account) : Prop :=
  ∃ k a, steps outs room k (initial L (pred (length ts))) a ∧ shows s done ts a.

(** A step of a thread is a step of the pipeline, or none. *)
Lemma reached_step s s' done done' ts i t :
  (∀ a, shows s done ts a → ∃ a', (a' = a ∨ step outs room a a') ∧ shows s' done' (<[i := t]> ts) a') →
  reached s done ts → reached s' done' (<[i := t]> ts).
Proof.
  intros Hstep (k & a & Hk & Ha). destruct (Hstep a Ha) as (a' & [->|Ha'] & Hs).
  - exists k, a. by rewrite length_insert.
  - exists (Datatypes.S k), a'. rewrite length_insert. split; [|done].
    by eapply steps_snoc.
Qed.

Lemma shows_at s done ts a i t :
  shows s done ts a → i ≠ 0 → ts !! i = Some t → ws a !! pred i = Some (position t).
Proof.
  intros [] Hi Ht. rewrite shows_ws0, list_lookup_fmap, lookup_drop.
  replace (1 + pred i) with i by lia. by rewrite Ht.
Qed.

(** What is to be shown when a worker has made a step, *)
Lemma shows_worker s s' done done' ts i t t' a a' :
  shows s done ts a → i ≠ 0 → ts !! i = Some t →
  todo a' = todo a → write_open a' = write_open a → ws a' = set_ws a (pred i) (position t') →
  pipe a' = filename <$> records s' → Pipeline.readmtx a' = pred <$> readmtx s' →
  Pipeline.outmtx a' = pred <$> outmtx s' → stdout (kernel s') = out0 ++ out a' → finished a' = done' →
  shows s' done' (<[i := t']> ts) a'.
Proof.
  intros [] Hi Ht Htodo Hopen Hws ?????. constructor; try done.
  - intros u. rewrite list_lookup_insert_ne, Htodo by done. apply shows_todo0.
  - intros u. rewrite list_lookup_insert_ne, Hopen by done. apply shows_open0.
  - rewrite Hws. unfold set_ws. rewrite shows_ws0, <-list_fmap_insert. f_equal.
    destruct i as [|i]; [done|]. by destruct ts.
Qed.

(** and when the dispatcher has. *)
Lemma shows_dispatcher s s' done ts t t' a a' :
  shows s done ts a → ts !! 0 = Some t →
  todo a' = a_left t' → write_open a' = bool_decide (wr ∈ a_ends t') → ws a' = ws a →
  pipe a' = filename <$> records s' → Pipeline.readmtx a' = pred <$> readmtx s' →
  Pipeline.outmtx a' = pred <$> outmtx s' → stdout (kernel s') = out0 ++ out a' → finished a' = done →
  shows s' done (<[0 := t']> ts) a'.
Proof.
  intros [] Ht ?? Hws ?????. destruct ts as [|u ts]; [done|].
  constructor; try done; [by intros ? [= <-]|by intros ? [= <-]|].
  by rewrite Hws, shows_ws0.
Qed.

(** The pipeline does not see what a thread does by itself. *)
Lemma reached_stutter s s' done ts i t t' :
  ts !! i = Some t → records s' = records s → readmtx s' = readmtx s → outmtx s' = outmtx s →
  stdout (kernel s') = stdout (kernel s) →
  (i = 0 → a_left t' = a_left t ∧ a_ends t' = a_ends t) → (i ≠ 0 → position t' = position t) →
  reached s done ts → reached s' done (<[i := t']> ts).
Proof.
  intros Ht Hrec Hr Ho Hout Hzero Hi. apply reached_step. intros a Ha. exists a. split; [by left|].
  destruct (decide (i = 0)) as [->|Hne].
  - destruct (Hzero eq_refl) as [El Ee]. pose proof Ha as [].
    eapply shows_dispatcher; [exact Ha|exact Ht|..]; rewrite ?Hrec, ?Hr, ?Ho, ?Hout, ?El, ?Ee; auto.
  - pose proof Ha as []. eapply shows_worker; [exact Ha|done|exact Ht|..]; rewrite ?Hrec, ?Hr, ?Ho, ?Hout; auto.
    unfold set_ws. rewrite Hi by done. symmetry. apply list_insert_id. by eapply shows_at.
Qed.

(** ** The invariant *)

Definition stage_ok (g : stage) (d : magic_state S P) : Prop :=
  match g with
  | Fresh n => tr d = None ∧ ws_frame f (mem d) ∧ ws_room (mem d) = n
  | Ready => magic_ready f magic_words d
  | Gone => ws_frame f (mem d)
  end.

(** [w] has the number of files that have not been received, and those that
    are done with. The dispatcher is thread 0. *)
Record Inv (h : list (event routine unit)) (s : sys) (w : nat * list (list byte)) (ts : list account)
    : Prop := {
  inv_core : core s w.1 w.2 (all a_left ts) (all a_ends ts) (all a_held ts) (all a_names ts)
    (all a_maps ts) (all a_hand ts);
  inv_rlock : owner a_read (readmtx s) ts;
  inv_olock : owner a_out (outmtx s) ts;
  inv_out : stdout (kernel s) = out0 ++ concat (outs <$> w.2) ++ held_by a_part (outmtx s) ts;
  inv_excl i t : ts !! i = Some t → a_read t = true → a_out t = false;
  inv_stage t : ts !! 0 = Some t → stage_ok (a_stage t) (detector s);
  inv_wr : wr ∈ open_fds (kernel s) → ∃ t, ts !! 0 = Some t ∧ a_ends t = [wr];
  inv_eof i t : ts !! i = Some t → a_eof t = true → records s = [] ∧ wr ∉ open_fds (kernel s);
  inv_over i t : i ≠ 0 → ts !! i = Some t → a_ends t = [] → a_eof t = true;
  inv_reached : reached s w.2 ts;
}.

(** Files only become fewer. *)
Definition fewer (w w' : nat * list (list byte)) : Prop := w'.1 ≤ w.1.

#[export] Instance fewer_preorder : PreOrder fewer.
Proof. split; unfold fewer; [intros ?; lia|intros ???; lia]. Qed.

(** A thread that waits: the dispatcher, for room in the pipe; a worker, for a
    mutex when it holds none, or for a record with [readmtx]. *)
Definition waits (i : nat) (s : sys) (w : nat * list (list byte)) (ts : list account) (fl : fault) : Prop :=
  fl = Blocked ∧ ∃ t, ts !! i = Some t ∧
    if decide (i = 0) then a_read t = false ∧ a_out t = false ∧ room ≤ length (records s)
    else (a_read t = true ∧ records s = [] ∧ wr ∈ open_fds (kernel s)) ∨
         (a_read t = false ∧ a_out t = false ∧ (is_Some (readmtx s) ∨ is_Some (outmtx s))).

(** How a thread may stop: it waits; or it has run into one of the faults [quits]
    that end the program. *)
Definition stops (quits : fault → Prop) (i : nat) (s : sys) (w : nat * list (list byte)) (ts : list account)
    (fl : fault) : Prop :=
  quits fl ∨ waits i s w ts fl.

(** ** One step *)

Abbreviation focused c s n done t i ts :=
  (c s n done (a_left t ++ others a_left i ts) (a_ends t ++ others a_ends i ts)
     (a_held t ++ others a_held i ts) (a_names t ++ others a_names i ts)
     (a_maps t ++ others a_maps i ts) (a_hand t ++ others a_hand i ts)).

Lemma core_focus s n done ts i t :
  ts !! i = Some t →
  core s n done (all a_left ts) (all a_ends ts) (all a_held ts) (all a_names ts)
    (all a_maps ts) (all a_hand ts) →
  focused core s n done t i ts.
Proof. intros Ht. by apply core_perm; apply all_focus. Qed.

Lemma core_unfocus s n done ts i t t' :
  ts !! i = Some t → focused core s n done t' i ts →
  core s n done (all a_left (<[i := t']> ts)) (all a_ends (<[i := t']> ts))
    (all a_held (<[i := t']> ts)) (all a_names (<[i := t']> ts))
    (all a_maps (<[i := t']> ts)) (all a_hand (<[i := t']> ts)).
Proof. intros Ht. apply core_perm; symmetry; by eapply all_update. Qed.

Lemma Inv_focus h h' s s' w w' ts i t t' :
  Inv h s w ts → ts !! i = Some t →
  (focused core s w.1 w.2 t i ts → focused core s' w'.1 w'.2 t' i ts) →
  owner a_read (readmtx s') (<[i := t']> ts) → owner a_out (outmtx s') (<[i := t']> ts) →
  stdout (kernel s') = out0 ++ concat (outs <$> w'.2) ++ held_by a_part (outmtx s') (<[i := t']> ts) →
  (a_read t' = true → a_out t' = false) →
  (i = 0 → stage_ok (a_stage t') (detector s')) → (i ≠ 0 → detector s' = detector s) →
  (wr ∈ open_fds (kernel s') → wr ∈ open_fds (kernel s) ∧ (i = 0 → a_ends t' = a_ends t)) →
  (records s = [] → wr ∉ open_fds (kernel s) → records s' = []) →
  (a_eof t' = true → a_eof t = true ∨ records s' = [] ∧ wr ∉ open_fds (kernel s')) →
  (i ≠ 0 → a_ends t' = [] → a_eof t' = true) →
  (reached s w.2 ts → reached s' w'.2 (<[i := t']> ts)) →
  Inv h' s' w' (<[i := t']> ts).
Proof.
  intros [] Ht Hcore Hr Ho Hout Hex Hst Hdet Hwr Hrec Heof Hover Hreach.
  constructor; try done.
  - eapply core_unfocus; [done|]. apply Hcore. by apply core_focus.
  - intros j x Hx. destruct (update_lookup _ _ _ _ _ _ Ht Hx) as [[-> ->]|[_ ?]]; eauto.
  - intros x Hx. destruct (update_lookup _ _ _ _ _ _ Ht Hx) as [[<- ->]|[? ?]]; [by auto|].
    rewrite Hdet by done. eauto.
  - intros [Hw Hends]%Hwr. destruct (inv_wr0 Hw) as (x & Hx & He).
    destruct (decide (i = 0)) as [->|].
    + assert (x = t) as -> by congruence. exists t'.
      split; [apply list_lookup_insert_eq; by eapply lookup_lt_Some|]. by rewrite Hends.
    + exists x. by rewrite list_lookup_insert_ne.
  - assert (records s = [] ∧ wr ∉ open_fds (kernel s) → records s' = [] ∧ wr ∉ open_fds (kernel s')) as Hkeep.
    { intros [? ?]. split; [by auto|]. by intros [? _]%Hwr. }
    intros j x Hx He. destruct (update_lookup _ _ _ _ _ _ Ht Hx) as [[-> ->]|[_ ?]]; [|eauto].
    destruct (Heof He) as [?|?]; [eauto|done].
  - intros j x Hj Hx. destruct (update_lookup _ _ _ _ _ _ Ht Hx) as [[-> ->]|[_ ?]]; eauto.
  - by apply Hreach.
Qed.
End inv.

Arguments core_open {S P outs L base names0 maps0 s n done left ends held names maps hand}.
Arguments core_base {S P outs L base names0 maps0 s n done left ends held names maps hand}.
Arguments core_files {S P outs L base names0 maps0 s n done left ends held names maps hand}.
Arguments core_names {S P outs L base names0 maps0 s n done left ends held names maps hand}.
Arguments core_maps {S P outs L base names0 maps0 s n done left ends held names maps hand}.
Arguments core_paths {S P outs L base names0 maps0 s n done left ends held names maps hand}.
Arguments inv_core {S P F H f outs wr room L base names0 maps0 out0 h s w ts}.
Arguments inv_rlock {S P F H f outs wr room L base names0 maps0 out0 h s w ts}.
Arguments inv_olock {S P F H f outs wr room L base names0 maps0 out0 h s w ts}.
Arguments inv_out {S P F H f outs wr room L base names0 maps0 out0 h s w ts}.
Arguments inv_excl {S P F H f outs wr room L base names0 maps0 out0 h s w ts}.
Arguments inv_stage {S P F H f outs wr room L base names0 maps0 out0 h s w ts}.
Arguments inv_wr {S P F H f outs wr room L base names0 maps0 out0 h s w ts}.
Arguments inv_eof {S P F H f outs wr room L base names0 maps0 out0 h s w ts}.
Arguments inv_over {S P F H f outs wr room L base names0 maps0 out0 h s w ts}.
Arguments inv_reached {S P F H f outs wr room L base names0 maps0 out0 h s w ts}.
