(* ===== verification/ProgramCore.v ===== *)
(** What each action of the program does to the totals of [core]. *)

From S2P Require Import Prelude CInt Heap WordSet Magic File Worker WorkerClaims Dispatcher Main Proc Locks Program ProgramInv.
Local Open Scope nat_scope.

Section core.
Context {S P F : Type} `{WordSetLaws S P F} (f : F).
Context (outs : list byte → list (list byte)).
Context (L : list (list byte)).
Context (base : gset Z) (names0 : list (list byte)) (maps0 : nat).
Abbreviation core := (core outs L base names0 maps0).
Implicit Types s : system S P.

Lemma core_same s s' n done left ends held names maps hand :
  open_fds (kernel s') = open_fds (kernel s) → live_names (kernel s') = live_names (kernel s) →
  mappings (kernel s') = mappings (kernel s) → opened s' = opened s → records s' = records s →
  core s n done left ends held names maps hand → core s' n done left ends held names maps hand.
Proof.
  intros Ho Hn Hm Hp Hr [C1 C2 C3 C4 C5 C6 C7 C8].
  assert (∀ h e, in_use s' h e = in_use s h e) as Hu by (intros h e; unfold in_use; by rewrite Hr).
  constructor; rewrite ?Hu, ?Ho, ?Hn, ?Hm, ?Hp, ?Hr; done.
Qed.

Lemma in_use_held s x p held ends : in_use s ((x, p) :: held) ends ≡ₚ x :: in_use s held ends.
Proof. unfold in_use. cbn. solve_Permutation. Qed.

Lemma in_use_end s x held ends : in_use s held (x :: ends) ≡ₚ x :: in_use s held ends.
Proof. unfold in_use. solve_Permutation. Qed.

(** A descriptor goes. *)
Lemma in_use_close x (l l' : list Z) (o o' : gset Z) :
  l ≡ₚ x :: l' → NoDup l → (∀ y, y ∈ o ↔ y ∈ base ∨ y ∈ l) → (∀ y, y ∈ l → y ∉ base) →
  o' = o ∖ {[x]} →
  NoDup l' ∧ (∀ y, y ∈ o' ↔ y ∈ base ∨ y ∈ l') ∧ (∀ y, y ∈ l' → y ∉ base).
Proof.
  intros Hl Hnd Ho Hb ->. rewrite Hl in Hnd. apply list.NoDup_cons in Hnd as [Hx Hnd].
  setoid_rewrite Hl in Ho. setoid_rewrite Hl in Hb. setoid_rewrite elem_of_cons in Ho.
  setoid_rewrite elem_of_cons in Hb.
  split_and!; [done| |by auto]. intros y. rewrite elem_of_difference, elem_of_singleton, Ho.
  split; [naive_solver|]. intros [Hy|Hy]; (split; [tauto|]); intros ->; [|done]. by apply (Hb x); [left|].
Qed.

Lemma core_close_held s s' n done left ends x p held names maps hand :
  open_fds (kernel s') = open_fds (kernel s) ∖ {[x]} → live_names (kernel s') = live_names (kernel s) →
  mappings (kernel s') = mappings (kernel s) → opened s' = opened s → records s' = records s →
  core s n done left ends ((x, p) :: held) names maps hand → core s' n done left ends held names maps hand.
Proof.
  intros Ho Hn Hm Hp Hr [C1 C2 C3 C4 C5 C6 C7 C8].
  assert (∀ h e, in_use s' h e = in_use s h e) as Hu by (intros h e; unfold in_use; by rewrite Hr).
  destruct (in_use_close x _ _ _ _ (in_use_held s x p held ends) C1 C2 C3 Ho) as (D1 & D2 & D3).
  constructor; rewrite ?Hu, ?Hn, ?Hm, ?Hp, ?Hr; try done.
  intros y q Hy. apply C4. revert Hy. rewrite !elem_of_app, elem_of_cons. tauto.
Qed.

Lemma core_close_end s s' n done left x ends held names maps hand :
  open_fds (kernel s') = open_fds (kernel s) ∖ {[x]} → live_names (kernel s') = live_names (kernel s) →
  mappings (kernel s') = mappings (kernel s) → opened s' = opened s → records s' = records s →
  core s n done left (x :: ends) held names maps hand → core s' n done left ends held names maps hand.
Proof.
  intros Ho Hn Hm Hp Hr [C1 C2 C3 C4 C5 C6 C7 C8].
  assert (∀ h e, in_use s' h e = in_use s h e) as Hu by (intros h e; unfold in_use; by rewrite Hr).
  destruct (in_use_close x _ _ _ _ (in_use_end s x held ends) C1 C2 C3 Ho) as (D1 & D2 & D3).
  constructor; rewrite ?Hu, ?Hn, ?Hm, ?Hp, ?Hr; done.
Qed.

Lemma core_open_file s s' n done left ends x p held names maps hand :
  x ∉ open_fds (kernel s) →
  open_fds (kernel s') = {[x]} ∪ open_fds (kernel s) → live_names (kernel s') = live_names (kernel s) →
  mappings (kernel s') = mappings (kernel s) → opened s' = <[x := p]> (opened s) → records s' = records s →
  core s n done left ends held names maps hand → core s' n done left ends ((x, p) :: held) names maps hand.
Proof.
  intros Hx Ho Hn Hm Hp Hr [C1 C2 C3 C4 C5 C6 C7 C8].
  assert (∀ h e, in_use s' h e = in_use s h e) as Hu by (intros h e; unfold in_use; by rewrite Hr).
  rewrite C2 in Hx.
  constructor; rewrite ?Hn, ?Hm, ?Hp, ?Hr; try done.
  - rewrite Hu, in_use_held. apply list.NoDup_cons. tauto.
  - intros y. rewrite Hu, in_use_held, elem_of_cons, Ho, elem_of_union, elem_of_singleton, C2. tauto.
  - intros y. rewrite Hu, in_use_held, elem_of_cons. intros [->|Hy]; [tauto|by apply C3].
  - intros y q. rewrite elem_of_app, elem_of_cons. intros Hy. rewrite lookup_insert_Some.
    destruct (decide (x = y)) as [<-|Hne].
    + left. split; [done|]. destruct Hy as [Hy|[[= ->]|Hy]]; [|done|]; exfalso; apply Hx; right; unfold in_use.
      * rewrite elem_of_app. left. apply list_elem_of_fmap. by exists (x, q).
      * rewrite !elem_of_app. right. left. apply list_elem_of_fmap. by exists (x, q).
    + right. split; [done|]. apply C4. rewrite elem_of_app. destruct Hy as [?|[[= ? ?]|?]]; [by left|done|by right].
Qed.

Lemma core_name s s' n done left ends held p names maps hand :
  open_fds (kernel s') = open_fds (kernel s) → live_names (kernel s') = p :: live_names (kernel s) →
  mappings (kernel s') = mappings (kernel s) → opened s' = opened s → records s' = records s →
  core s n done left ends held names maps hand → core s' n done left ends held (p :: names) maps hand.
Proof.
  intros Ho Hn Hm Hp Hr [C1 C2 C3 C4 C5 C6 C7 C8].
  assert (∀ h e, in_use s' h e = in_use s h e) as Hu by (intros h e; unfold in_use; by rewrite Hr).
  constructor; rewrite ?Hu, ?Ho, ?Hn, ?Hm, ?Hp, ?Hr; try done. rewrite C5. solve_Permutation.
Qed.

Lemma core_has_name s n done left ends held p names maps hand :
  core s n done left ends held (p :: names) maps hand → p ∈ live_names (kernel s).
Proof. intros [_ _ _ _ C _ _ _]. rewrite C, !elem_of_app, elem_of_cons. tauto. Qed.

Lemma core_unname s s' n done left ends held p names maps hand :
  open_fds (kernel s') = open_fds (kernel s) → live_names (kernel s') = remove_one p (live_names (kernel s)) →
  mappings (kernel s') = mappings (kernel s) → opened s' = opened s → records s' = records s →
  core s n done left ends held (p :: names) maps hand → core s' n done left ends held names maps hand.
Proof.
  intros Ho Hn Hm Hp Hr HC. pose proof (core_has_name _ _ _ _ _ _ _ _ _ _ HC) as Hin.
  destruct HC as [C1 C2 C3 C4 C5 C6 C7 C8].
  assert (∀ h e, in_use s' h e = in_use s h e) as Hu by (intros h e; unfold in_use; by rewrite Hr).
  constructor; rewrite ?Hu, ?Ho, ?Hm, ?Hp, ?Hr; try done. rewrite Hn.
  apply (Permutation_cons_inv (a := p)). rewrite <-remove_one_perm by done. rewrite C5. solve_Permutation.
Qed.

Lemma core_map s s' n done left ends held names x maps hand :
  open_fds (kernel s') = open_fds (kernel s) → live_names (kernel s') = live_names (kernel s) →
  mappings (kernel s') = Datatypes.S (mappings (kernel s)) → opened s' = opened s → records s' = records s →
  core s n done left ends held names maps hand → core s' n done left ends held names (x :: maps) hand.
Proof.
  intros Ho Hn Hm Hp Hr [C1 C2 C3 C4 C5 C6 C7 C8].
  assert (∀ h e, in_use s' h e = in_use s h e) as Hu by (intros h e; unfold in_use; by rewrite Hr).
  constructor; rewrite ?Hu, ?Ho, ?Hn, ?Hm, ?Hp, ?Hr; try done. cbn [length]. lia.
Qed.

Lemma core_unmap s s' n done left ends x p held names y maps hand :
  open_fds (kernel s') = open_fds (kernel s) ∖ {[x]} → live_names (kernel s') = live_names (kernel s) →
  mappings (kernel s') = pred (mappings (kernel s)) → opened s' = opened s → records s' = records s →
  core s n done left ends ((x, p) :: held) names (y :: maps) hand →
  core s' n done left ends held names maps hand.
Proof.
  intros Ho Hn Hm Hp Hr HC.
  set (k' := Proc (open_fds (kernel s')) (mappings (kernel s)) (live_names (kernel s')) (stdout (kernel s'))).
  assert (core (System k' (opened s') (records s') (readmtx s') (outmtx s') (detector s'))
    n done left ends held names (y :: maps) hand) as HC'.
  { by eapply (core_close_held s). }
  destruct HC' as [C1 C2 C3 C4 C5 C6 C7 C8]. constructor; try done.
  cbn [kernel k' mappings length] in C6. lia.
Qed.

(** A record is written, and received. *)
Lemma core_send s s' n done p left ends x held names maps hand :
  kernel s' = kernel s → opened s' = opened s → records s' = records s ++ [FileInfo x p None 0] →
  core s n done (p :: left) ends ((x, p) :: held) (p :: names) maps hand →
  core s' n done left ends held names maps hand.
Proof.
  intros Hk Hp Hr [C1 C2 C3 C4 C5 C6 C7 C8].
  assert (in_use s' held ends ≡ₚ in_use s ((x, p) :: held) ends) as Hu.
  { unfold in_use. rewrite Hr, !fmap_app. cbn. solve_Permutation. }
  constructor; rewrite ?Hk, ?Hp; try done.
  - by rewrite Hu.
  - intros y. by rewrite Hu.
  - intros y. rewrite Hu. apply C3.
  - intros y q Hy. apply C4. rewrite Hr in Hy. revert Hy. rewrite fmap_app, !elem_of_app, elem_of_cons.
    cbn. rewrite list_elem_of_singleton. unfold record_fd. cbn. tauto.
  - rewrite C5, Hr, fmap_app. cbn. solve_Permutation.
  - rewrite <-C7, Hr, fmap_app. cbn. solve_Permutation.
  - rewrite Hr, length_app. cbn [length] in *. lia.
Qed.

Lemma core_receive s s' n done left ends held names maps hand fi fis :
  records s = fi :: fis → kernel s' = kernel s → opened s' = opened s → records s' = fis →
  core s n done left ends held names maps hand →
  0 < n ∧ core s' (pred n) done left ends (record_fd fi :: held) (filename fi :: names) maps
    (filename fi :: hand).
Proof.
  intros Hs Hk Hp Hr [C1 C2 C3 C4 C5 C6 C7 C8]. rewrite Hs in *. cbn [length] in C8. split; [lia|].
  assert (in_use s' (record_fd fi :: held) ends ≡ₚ in_use s held ends) as Hu.
  { unfold in_use. rewrite Hs, Hr. cbn. solve_Permutation. }
  constructor; rewrite ?Hk, ?Hp, ?Hr; try done.
  - by rewrite Hu.
  - intros y. by rewrite Hu.
  - intros y. rewrite Hu. apply C3.
  - intros y q Hy. apply C4. revert Hy. rewrite fmap_cons, !elem_of_app, !elem_of_cons. tauto.
  - rewrite C5. cbn. solve_Permutation.
  - rewrite <-C7. cbn. solve_Permutation.
  - lia.
Qed.

(** A file is done with: its name is lost when nothing is printed for it. *)
Lemma core_silent s n done left ends held p names maps hand :
  outs p = [] → core s n done left ends held (p :: names) maps (p :: hand) →
  core s n (done ++ [p]) left ends held names maps hand.
Proof.
  intros Hp [C1 C2 C3 C4 C5 C6 C7 C8]. constructor; try done.
  - rewrite C5, list.filter_app, list.filter_cons, decide_True, list.filter_nil by done. solve_Permutation.
  - rewrite <-C7. solve_Permutation.
Qed.

Lemma core_printed s n done left ends held p names maps hand :
  outs p ≠ [] → core s n done left ends held names maps (p :: hand) →
  core s n (done ++ [p]) left ends held names maps hand.
Proof.
  intros Hp [C1 C2 C3 C4 C5 C6 C7 C8]. constructor; try done.
  - by rewrite C5, list.filter_app, list.filter_cons, decide_False, list.filter_nil, (app_nil_r (filter _ done)) by done.
  - rewrite <-C7. solve_Permutation.
Qed.
End core.
