(* ===== verification/ProgramSafe.v ===== *)
(** Each thread of the program keeps the invariant of [ProgramInv], whatever the
    others do between its actions: rules for the actions, then the dispatcher and
    the workers. *)

From S2P Require Import Prelude Pipeline CInt Match MatchSpec Block Buffer BufferSpec Heap Trie TrieSpec WordSet Magic File Options Worker WorkerSpec WorkerClaims Dispatcher Main Proc Locks Program ProgramInv ProgramCore.
Local Open Scope nat_scope.

(** What the calls of [src/file.c] rely on: a descriptor that is open on a file
    can be mapped, unless the calls are [flaky]. *)
Definition calls_law (flaky : Prop) (e : fs) (pad : list byte → list byte) (calls : gmap Z (list byte) → os) : Prop :=
  ∀ m n path, m !! n = Some path → mmap_may flaky (calls m) n (fs_content e path) (pad path).

Section rules.
Context {S P F : Type} `{WordSetLaws S P F} (f : F) (quits : fault → Prop).
Context (outs : list byte → list (list byte)) (wr : Z) (room : nat) (L : list (list byte)).
Context (base : gset Z) (names0 : list (list byte)) (maps0 : nat) (out0 : list (list byte)).
Abbreviation sys := (system S P).
Abbreviation core := (core outs L base names0 maps0).
Abbreviation inv := (Inv f outs wr room L base names0 maps0 out0).
Abbreviation safely := (safe fewer inv (stops wr room quits)).
Implicit Types (s : sys) (t : account).

(** ** Steps that concern the books of one thread *)

(** From [s] to [s'] the total of [core] changes as the books of the thread do. *)
Definition moves (s s' : sys) (t t' : account) : Prop := ∀ n done left ends held names maps hand,
  core s n done (a_left t ++ left) (a_ends t ++ ends) (a_held t ++ held) (a_names t ++ names)
    (a_maps t ++ maps) (a_hand t ++ hand) →
  core s' n done (a_left t' ++ left) (a_ends t' ++ ends) (a_held t' ++ held) (a_names t' ++ names)
    (a_maps t' ++ maps) (a_hand t' ++ hand).

(** The pipe, the mutexes and standard output are left alone. *)
Definition apart (s s' : sys) : Prop :=
  records s' = records s ∧ readmtx s' = readmtx s ∧ outmtx s' = outmtx s ∧
  stdout (kernel s') = stdout (kernel s).

(** The thread keeps its mutexes and what it knows of the pipe. *)
Definition steady (t t' : account) : Prop :=
  a_read t' = a_read t ∧ a_out t' = a_out t ∧ a_part t' = a_part t ∧ a_eof t' = a_eof t ∧
  a_ends t' = a_ends t ∧ a_left t' = a_left t ∧ a_hand t' = a_hand t.

Lemma moves_refl s t : moves s s t t.
Proof. by intros ????????. Qed.

Lemma moves_same s s' t :
  open_fds (kernel s') = open_fds (kernel s) → live_names (kernel s') = live_names (kernel s) →
  mappings (kernel s') = mappings (kernel s) → opened s' = opened s → records s' = records s →
  moves s s' t t.
Proof. intros ????? n done left ends held names maps hand. by apply core_same. Qed.

(** Standard output of a thread that does not print. *)
Lemma part_keep i t t' s s' ts :
  ts !! i = Some t → outmtx s' = outmtx s → a_part t' = a_part t →
  held_by a_part (outmtx s') (<[i := t']> ts) = held_by a_part (outmtx s) ts.
Proof.
  intros Ht Ho Hp. rewrite Ho. destruct (decide (outmtx s = Some i)) as [Hi|Hi].
  - rewrite Hi. erewrite held_by_self by done. cbn. by rewrite Ht.
  - by apply held_by_other.
Qed.

Lemma Inv_apart h s s' w w' ts i t t' :
  inv h s w ts → ts !! i = Some t → apart s s' → steady t t' → w' = w → moves s s' t t' →
  (i = 0 → stage_ok f (a_stage t') (detector s')) → (i ≠ 0 → detector s' = detector s) →
  (wr ∈ open_fds (kernel s') → wr ∈ open_fds (kernel s)) →
  inv h s' w' (<[i := t']> ts).
Proof.
  intros HI Ht (Hrec & Hr & Ho & Hs) (Er & Eo & Ep & Ee & En & El & Eh) -> Hm Hst Hdet Hwr.
  eapply Inv_focus; [exact HI|exact Ht|intros HC; by apply Hm|..].
  - rewrite Hr. eapply owner_keep; [by eapply inv_rlock|done|congruence].
  - rewrite Ho. eapply owner_keep; [by eapply inv_olock|done|congruence].
  - rewrite Hs, (inv_out HI). by erewrite part_keep.
  - rewrite Er, Eo. by eapply inv_excl.
  - done.
  - done.
  - intros ?. split; [auto|done].
  - congruence.
  - rewrite Ee. auto.
  - rewrite Ee, En. intros ??. by eapply inv_over.
  - eapply reached_stutter; [exact Ht|done..|]. intros _. unfold position. by rewrite Er, Eo, Ep, Ee, Eh.
Qed.

(** ** What the books say of the state *)

Lemma held_open h s w ts i t x p :
  inv h s w ts → ts !! i = Some t → (x, p) ∈ a_held t →
  x ∈ open_fds (kernel s) ∧ x ∉ base ∧ open_files s !! x = Some p.
Proof.
  intros HI Ht Hx. pose proof (inv_core HI) as HC.
  pose proof (elem_of_all a_held ts i t _ Ht Hx) as Hall.
  assert (x ∈ in_use s (all a_held ts) (all a_ends ts)) as Hu.
  { unfold in_use. rewrite !elem_of_app. right. left. apply list_elem_of_fmap. by exists (x, p). }
  assert (x ∈ open_fds (kernel s)) as Ho by (apply (core_open HC); by right).
  split_and!; [done|by eapply core_base|].
  unfold open_files. apply map_lookup_filter_Some. split; [|done].
  eapply core_files; [done|]. apply elem_of_app. by right.
Qed.

Lemma end_open h s w ts i t x :
  inv h s w ts → ts !! i = Some t → x ∈ a_ends t → x ∈ open_fds (kernel s).
Proof.
  intros HI Ht Hx. pose proof (inv_core HI) as HC.
  apply (core_open HC). right. unfold in_use.
  rewrite !elem_of_app. right. right. by eapply elem_of_all.
Qed.

Lemma name_live h s w ts i t p :
  inv h s w ts → ts !! i = Some t → p ∈ a_names t → p ∈ live_names (kernel s).
Proof.
  intros HI Ht Hx. pose proof (inv_core HI) as HC.
  rewrite (core_names HC), !elem_of_app. right. left. by eapply elem_of_all.
Qed.

(** ** Rules *)

(** A computation on what the thread owns. *)
Lemma safe_own {A B} i (o : outcome A) (k : A → Proc.proc sys B) w t Q :
  o ⇓ (λ a, ∀ w1, fewer w w1 → safely i (k a) w1 t Q) → safely i (atomic (lift o) ≫= k) w t Q.
Proof.
  intros Ho. apply safe_atomic. intros h s w1 ts Hw HI Ht. unfold lift.
  destruct o as [a|]; [|done]. exists w1, t. split; [done|]. split; [|by apply Ho].
  by rewrite list_insert_id.
Qed.

(** The same, when the computation may end the program instead. *)
Lemma safe_own_or_quits {A B} i (o : outcome A) (R : A → Prop) (k : A → Proc.proc sys B) w t Q :
  o ⇓ R ∨ (∃ fl, quits fl ∧ o = Fail fl) →
  (∀ a w1, R a → fewer w w1 → safely i (k a) w1 t Q) → safely i (atomic (lift o) ≫= k) w t Q.
Proof.
  intros [Ho|(fl & Hfl & ->)] Hk.
  - apply safe_own. eapply yields_mono; [done|]. auto.
  - apply safe_atomic. intros h s w1 ts Hw HI Ht. by left.
Qed.

(** An action that leaves the pipe, the mutexes and the output alone, or that
    may end the program. *)
Lemma safe_apart_or_quits {A B} i (m : M sys A) (k : A → Proc.proc sys B) w t Q :
  (∀ h s w1 ts, fewer w w1 → inv h s w1 ts → ts !! i = Some t →
    (∃ fl, quits fl ∧ m s = Fail fl) ∨ ∃ a s' t',
    m s = Ok (a, s') ∧ apart s s' ∧ steady t t' ∧ moves s s' t t' ∧
    (i = 0 → stage_ok f (a_stage t') (detector s')) ∧ (i ≠ 0 → detector s' = detector s) ∧
    (wr ∈ open_fds (kernel s') → wr ∈ open_fds (kernel s)) ∧ safely i (k a) w1 t' Q) →
  safely i (atomic m ≫= k) w t Q.
Proof.
  intros Hm. apply safe_atomic. intros h s w1 ts Hw HI Ht.
  destruct (Hm h s w1 ts Hw HI Ht) as [(fl & ? & ->)|(a & s' & t' & -> & ? & ? & ? & ? & ? & ? & ?)]; [by left|].
  exists w1, t'. split; [done|]. split; [|done]. by eapply Inv_apart.
Qed.

Lemma safe_apart {A B} i (m : M sys A) (k : A → Proc.proc sys B) w t Q :
  (∀ h s w1 ts, fewer w w1 → inv h s w1 ts → ts !! i = Some t → ∃ a s' t',
    m s = Ok (a, s') ∧ apart s s' ∧ steady t t' ∧ moves s s' t t' ∧
    (i = 0 → stage_ok f (a_stage t') (detector s')) ∧ (i ≠ 0 → detector s' = detector s) ∧
    (wr ∈ open_fds (kernel s') → wr ∈ open_fds (kernel s)) ∧ safely i (k a) w1 t' Q) →
  safely i (atomic m ≫= k) w t Q.
Proof. intros Hm. apply safe_apart_or_quits. intros. right. eauto. Qed.

(** [close] of a descriptor that was opened on a file. *)
Lemma moves_close x p s left ends held names maps hand part read out eof g :
  moves s (System (Proc (open_fds (kernel s) ∖ {[x]}) (mappings (kernel s)) (live_names (kernel s))
      (stdout (kernel s))) (opened s) (records s) (readmtx s) (outmtx s) (detector s))
    (Account left ends ((x, p) :: held) names maps hand part read out eof g)
    (Account left ends held names maps hand part read out eof g).
Proof. intros n done l e h nm mp hd. cbn. by apply core_close_held. Qed.
End rules.
Arguments held_open {S P F _ f outs wr room L base names0 maps0 out0 h s w ts i t} x p.
Arguments end_open {S P F _ f outs wr room L base names0 maps0 out0 h s w ts i t} x.
Arguments name_live {S P F _ f outs wr room L base names0 maps0 out0 h s w ts i t} p.

(** ** The dispatcher *)

Section dispatcher.
Context {S P F : Type} `{WordSetLaws S P F} (f : F) (quits : fault → Prop) (e : fs) (He : fs_law e).
Context (ps : pipes) (room : nat).
Context (outs : list byte → list (list byte)) (L : list (list byte)).
Context (base : gset Z) (names0 : list (list byte)) (maps0 : nat) (out0 : list (list byte)).
Abbreviation wr := (snd (pipefd ps)).
Abbreviation inv := (Inv (S := S) (P := P) f outs wr room L base names0 maps0 out0).
Abbreviation safely := (safe fewer inv (stops wr room quits)).

(** The books between two files: [left] is to be sent. *)
Abbreviation between left := (dispatching left [wr] [] [] Ready).

Lemma safe_open {B} path (k : option Z → Proc.proc (system S P) B) w left Q :
  (if fs_open e path
   then ∀ w1 n, fewer w w1 → safely 0 (k (Some n)) w1 (dispatching left [wr] [(n, path)] [] Ready) Q
   else ∀ w1, fewer w w1 → safely 0 (k None) w1 (between left) Q) →
  safely 0 (atomic (open_path e path) ≫= k) w (between left) Q.
Proof.
  intros Hk. apply safe_apart. intros h s w1 ts Hw HI Ht.
  pose proof (inv_stage HI _ Ht) as Hst.
  unfold open_path, in_kernel, open_file. unfold mbind, M_bind. destruct (fs_open e path).
  - set (n := fs_pick e (open_fds (kernel s))).
    assert (n ∉ open_fds (kernel s)) as Hn by apply He.
    assert (wr ∈ open_fds (kernel s)) as Hwr by (eapply end_open; [done..|by left]).
    eexists _, _, (dispatching left [wr] [(n, path)] [] Ready). split; [reflexivity|].
    split_and!; [done..| |done|done|done|by apply Hk].
    intros m done l en h' nm mp hd HC. by eapply core_open_file.
  - eexists _, _, (between left). split; [reflexivity|]. split_and!; [done..|apply moves_same; done|done|done|done|by apply Hk].
Qed.
(** A step of the detector alone. *)
Lemma safe_detector {A B} (m : M (magic_state S P) A) (k : A → Proc.proc (system S P) B) w left ends held names g g' Q :
  (∀ d, stage_ok f g d → wp m (λ a d', stage_ok f g' d' ∧
    ∀ w1, fewer w w1 → safely 0 (k a) w1 (dispatching left ends held names g') Q) d ∨
    ∃ fl, quits fl ∧ m d = Fail fl) →
  safely 0 (atomic (in_detector m) ≫= k) w (dispatching left ends held names g) Q.
Proof.
  intros Hm. apply safe_apart_or_quits. intros h s w1 ts Hw HI Ht. unfold in_detector.
  destruct (Hm _ (inv_stage HI _ Ht)) as [Hwp|(fl & Hfl & ->)]; [right|left; eauto].
  apply wp_run in Hwp as (a & d' & Hrun & Hst & Hk). rewrite Hrun.
  eexists _, _, (dispatching left ends held names g'). split; [reflexivity|].
  split_and!; [done..| |done|done|done|by apply Hk].
  intros n done l e' h' nm mp hd. by apply core_same.
Qed.

Lemma safe_scan {B} (k : bool → Proc.proc (system S P) B) w left x path Q :
  (∀ w1, fewer w w1 → safely 0 (k (bool_decide (binary (header e path)))) w1
    (dispatching left [wr] [(x, path)] [] Ready) Q) →
  safely 0 (atomic (scan_descriptor e x) ≫= k) w (dispatching left [wr] [(x, path)] [] Ready) Q.
Proof.
  intros Hk. apply safe_apart. intros h s w1 ts Hw HI Ht.
  pose proof (inv_stage HI _ Ht) as Hst.
  destruct (held_open x path HI Ht) as (_ & _ & Hx); [by left|].
  unfold scan_descriptor. unfold mbind, M_bind, get. rewrite Hx. unfold in_detector.
  assert (wp (magic_scan (fs_stack e path) (read16 (fs_content e path)))
    (λ b d, d = detector s ∧ b = bool_decide (binary (header e path))) (detector s)) as Hwp.
  { eapply wp_mono; [apply (wp_magic_scan f magic_words); [exact Hst|apply He|]|].
    - unfold read16. rewrite length_take. lia.
    - intros b d [-> Hb]. split; [done|]. rewrite binary_words in Hb. fold (header e path) in Hb. apply eq_bool_prop_intro. by rewrite bool_decide_spec, <-Hb, Is_true_true. }
  apply wp_run in Hwp as (b & d & -> & -> & ->).
  eexists _, _, (dispatching left [wr] [(x, path)] [] Ready). split; [reflexivity|].
  split_and!; [done..| |done|done|done|by apply Hk]. apply moves_same; done.
Qed.

Lemma safe_send (Q : nat * list (list byte) → account → unit → Prop) w x path left :
  (∀ w1, fewer w w1 → Q w1 (between left) tt) →
  safely 0 (atomic (write_record room (FileInfo x path None 0))) w
    (dispatching (path :: left) [wr] [(x, path)] [path] Ready) Q.
Proof.
  intros HQ h s w1 ts Hw HI Ht. unfold write_record. unfold mbind, M_bind, get.
  case_bool_decide as Hroom.
  - exists w1, (between left). split; [done|]. split; [|by apply HQ].
    assert (wr ∈ open_fds (kernel s)) as Hwr by (eapply end_open; [done..|by left]).
    eapply Inv_focus; [exact HI|exact Ht|..].
    + by apply core_send.
    + eapply owner_keep; [exact (inv_rlock HI)|exact Ht|done].
    + eapply owner_keep; [exact (inv_olock HI)|exact Ht|done].
    + cbn. rewrite (inv_out HI). cbn. by erewrite (part_keep 0 _ _ s s).
    + done.
    + intros _. exact (inv_stage HI _ Ht).
    + done.
    + done.
    + done.
    + by left.
    + done.
    + apply reached_step. intros a Ha. pose proof Ha as []. eexists. split.
      * right. apply (step_write _ _ _ path left); [exact (shows_todo _ Ht)|
          rewrite (shows_open _ Ht); by apply bool_decide_eq_true, list_elem_of_here|
          by rewrite shows_pipe, length_fmap].
      * eapply shows_dispatcher; [exact Ha|exact Ht|..]; cbn; try done.
        -- symmetry. by apply bool_decide_eq_true, list_elem_of_here.
        -- by rewrite shows_pipe, fmap_app.
  - right. split; [done|]. eexists. split; [exact Ht|]. cbn. split_and!; [done..|lia].
Qed.

Lemma safe_dispatch path left w :
  safely 0 (dispatch_program e room path) w (between (filter (sent e) [path] ++ left))
    (λ w1 t _, fewer w w1 ∧ t = between left).
Proof.
  unfold dispatch_program. rewrite list.filter_cons, list.filter_nil.
  apply safe_open. destruct (fs_open e path) eqn:Hopen.
  2:{ intros w1 Hw. rewrite decide_False by (intros [? _]; congruence). by apply safe_ret. }
  intros w1 n Hw. apply safe_scan. intros w2 Hw2. case_bool_decide as Hb.
  - rewrite decide_False by (by intros [_ ?]). apply safe_last.
    apply safe_apart. intros h s w3 ts Hw3 HI Ht.
    pose proof (inv_stage HI _ Ht) as Hst.
    eexists _, _, (between left). split; [reflexivity|].
    split_and!; [done..|apply moves_close|done|done|by intros [? _]%elem_of_difference|].
    apply safe_ret. split; [|done]. by do 2 (etrans; [done|]).
  - rewrite decide_True by done. cbn [app]. apply safe_apart. intros h s w3 ts Hw3 HI Ht.
    pose proof (inv_stage HI _ Ht) as Hst.
    eexists _, _, (dispatching (path :: left) [wr] [(n, path)] [path] Ready). split; [reflexivity|].
    split_and!; [done..| |done|done|done|].
    + intros m done l en h' nm mp hd. by apply core_name.
    + apply safe_send. intros w4 Hw4. split; [|done]. by do 3 (etrans; [done|]).
Qed.

Lemma safe_walk t : ∀ path left w,
  safely 0 (walk_program e room path t) w (between (filter (sent e) (listing path t) ++ left))
    (λ w1 u _, fewer w w1 ∧ u = between left).
Proof.
  induction t as [name regular cs IH] using fts_tree_ind'. intros path left w.
  cbn [walk_program listing] in *. apply safe_bind. unfold visit_program.
  destruct (skipped name); [by apply safe_ret|].
  rewrite list.filter_app, <-(assoc_L (++)). apply safe_bind.
  set (rest := filter (sent e) (_ cs) ++ left).
  assert (safely 0 (if regular then dispatch_program e room path else mret tt) w
    (between (filter (sent e) (if regular then [path] else []) ++ rest))
    (λ w1 u _, fewer w w1 ∧ u = between rest)) as Hfile.
  { destruct regular; [|by apply safe_ret].
    apply safe_dispatch. }
  eapply safe_mono; [apply _|exact Hfile|]. intros w1 t1 [] _ [Hw ->]. cbn. clear Hfile. subst rest.
  revert w1 Hw. induction IH as [|c cs Hc _ IHcs]; intros w1 Hw.
  { by apply safe_ret. }
  rewrite list.filter_app, <-(assoc_L (++)). apply safe_bind.
  eapply safe_mono; [apply _|apply Hc|].
  - intros w2 t2 [] _ [Hw2 ->]. apply IHcs. by etrans.
Qed.
(** [close(pipefd[1])]. *)
Lemma safe_close_pipe {B} (k : unit → Proc.proc (system S P) B) w Q :
  (∀ w1, fewer w w1 → safely 0 (k tt) w1 (dispatching [] [] [] [] Ready) Q) →
  safely 0 (atomic (in_kernel (close wr)) ≫= k) w (between []) Q.
Proof.
  intros Hk. apply safe_atomic. intros h s w1 ts Hw HI Ht.
  unfold in_kernel, close. exists w1, (dispatching [] [] [] [] Ready).
  split; [done|]. split; [|by apply Hk].
  eapply Inv_focus; [exact HI|exact Ht|..]; cbn.
  - by apply core_close_end.
  - eapply owner_keep; [exact (inv_rlock HI)|exact Ht|done].
  - eapply owner_keep; [exact (inv_olock HI)|exact Ht|done].
  - rewrite (inv_out HI). by erewrite (part_keep 0 _ _ s s).
  - done.
  - intros _. exact (inv_stage HI _ Ht).
  - done.
  - intros [_ []]%elem_of_difference. by apply elem_of_singleton.
  - done.
  - by left.
  - done.
  - apply reached_step. intros a Ha. pose proof Ha as []. eexists. split.
    + right. apply step_close; [exact (shows_todo _ Ht)|].
      rewrite (shows_open _ Ht). by apply bool_decide_eq_true, list_elem_of_here.
    + eapply shows_dispatcher; [exact Ha|exact Ht|..]; done.
Qed.

Lemma safe_dispatcher root n w :
  (n < magic_room → quits NullPointer) →
  safely 0 (dispatcher_program e ps room root) w
    (dispatching (filter (sent e) (listing (tree_name root) root)) [wr] [] [] (Fresh n))
    (λ _ t _, over t).
Proof.
  intros Hn. unfold dispatcher_program.
  apply (safe_detector _ _ _ _ _ _ _ (Fresh n) Ready). intros d (Htr & Hf & Hd).
  destruct (wp_magic_init_any f d Htr Hf) as [Hinit|[Hinit Hroom]]; [left|right; rewrite Hd in Hroom; by eauto].
  eapply wp_mono; [exact Hinit|].
  intros [] d' Hready. split; [done|]. intros w1 Hw1. apply safe_bind.
  eapply safe_mono; [apply _|..].
  - rewrite <-(app_nil_r (filter _ _)). apply safe_walk.
  - intros w2 t [] _ [_ ->]. apply safe_close_pipe. intros w3 _.
    apply safe_last. apply (safe_detector _ _ _ _ _ _ _ Ready Gone).
    intros d1 Hd1. left. eapply wp_mono; [by eapply wp_magic_fini|]. intros [] d2 [Hd2 _].
    split; [done|]. intros w4 _. by apply safe_ret.
Qed.
End dispatcher.
