(* ===== verification/ProgramWork.v ===== *)
(** The workers keep the invariant of [ProgramInv]: rules for the mutexes, the
    pipe and the output, then a file, the loop and the thread. *)

From S2P Require Import Prelude Pipeline CInt Match MatchSpec Block Buffer BufferSpec Heap Trie TrieSpec WordSet Magic File Options Worker WorkerSpec WorkerClaims Scarce Dispatcher Main Proc Locks Program ProgramInv ProgramCore ProgramSafe.
Local Open Scope nat_scope.

(** A file that can be searched: it is short, and every occurrence can be
    reported: it ends in the first 1024 columns of its line, whose end is in the
    mapping. *)
Record searchable (pat T pad : list byte) : Prop := {
  sea_size : (3 * Z.of_nat (length (T ++ pad)) < INT_MAX)%Z;
  sea_reportable : ∀ m, occurs_at pat T m → reportable pat (T ++ pad) m;
}.

(** The faults that end the program although nothing has gone wrong in it: a
    call of [die], if [die] holds; when the allocator refuses a request of a
    worker, a write through the NULL pointer that it returns, or the [exit(-1)] of
    [kmp_prepare]; and the same write when there is no room for the nodes of the
    detector, if [short] holds; and a read past the block of the buffer, if [full]
    holds. *)
Inductive gives_up (die short full : Prop) (ok : allocator) : fault → Prop :=
  | by_die : die → gives_up die short full ok (Exited EXIT_FAILURE)
  | by_null : scarce ok → gives_up die short full ok NullPointer
  | by_exit : scarce ok → gives_up die short full ok (Exited (-1))
  | by_node : short → gives_up die short full ok NullPointer
  | by_full : full → gives_up die short full ok OutOfBounds.

(** With enough memory and no text that fills a block only [die] is left. *)
Lemma gives_up_served die short full ok fl :
  gives_up die short full ok fl → serves ok (2 ^ 64) → ¬ short → ¬ full → die ∧ fl = Exited EXIT_FAILURE.
Proof. intros Hfl Hok%serves_not_scarce Hshort Hfull. by destruct Hfl. Qed.

Section locks.
Context {S P F : Type} `{WordSetLaws S P F} (f : F) (quits : fault → Prop).
Context (outs : list byte → list (list byte)) (ps : pipes) (room : nat) (L : list (list byte)).
Context (base : gset Z) (names0 : list (list byte)) (maps0 : nat) (out0 : list (list byte)).
Abbreviation wr := (snd (pipefd ps)).
Abbreviation inv := (Inv (S := S) (P := P) f outs wr room L base names0 maps0 out0).
Abbreviation safely := (safe fewer inv (stops wr room quits)).
Context (i : nat) (Hi : i ≠ 0).
Implicit Types (s : system S P) (t : account).

(** A step in which a thread that is not the dispatcher changes the mutexes,
    its position in the pipe, or the output. *)
Lemma Inv_worker h s s' w w' ts t t' :
  inv h s w ts → ts !! i = Some t →
  (∀ l e hd nm mp ha, core outs L base names0 maps0 s w.1 w.2 (a_left t ++ l) (a_ends t ++ e)
      (a_held t ++ hd) (a_names t ++ nm) (a_maps t ++ mp) (a_hand t ++ ha) →
    core outs L base names0 maps0 s' w'.1 w'.2 (a_left t' ++ l) (a_ends t' ++ e)
      (a_held t' ++ hd) (a_names t' ++ nm) (a_maps t' ++ mp) (a_hand t' ++ ha)) →
  open_fds (kernel s') = open_fds (kernel s) → detector s' = detector s →
  owner a_read (readmtx s') (<[i := t']> ts) → owner a_out (outmtx s') (<[i := t']> ts) →
  stdout (kernel s') = out0 ++ concat (outs <$> w'.2) ++ held_by a_part (outmtx s') (<[i := t']> ts) →
  (a_read t' = true → a_out t' = false) → (records s = [] → records s' = []) →
  (a_eof t' = true → a_eof t = true ∨ records s' = [] ∧ wr ∉ open_fds (kernel s)) →
  a_ends t' ≠ [] → (reached outs wr room L out0 s w.2 ts → reached outs wr room L out0 s' w'.2 (<[i := t']> ts)) →
  inv h s' w' (<[i := t']> ts).
Proof.
  intros HI Ht Hcore Ho Hd ?????? Hends Hreach.
  eapply Inv_focus; [exact HI|exact Ht|intros HC; by apply Hcore|..]; rewrite ?Ho; (done || auto).
Qed.

(** A step of the pipeline by this thread. *)
Lemma reached_worker s s' done done' ts t t' :
  ts !! i = Some t →
  (∀ a, shows outs wr out0 s done ts a → ws a !! pred i = Some (position outs t) → ∃ a',
    step outs room a a' ∧ todo a' = todo a ∧ write_open a' = write_open a ∧
    ws a' = set_ws a (pred i) (position outs t') ∧ pipe a' = filename <$> records s' ∧
    Pipeline.readmtx a' = pred <$> readmtx s' ∧ Pipeline.outmtx a' = pred <$> outmtx s' ∧
    stdout (kernel s') = out0 ++ out a' ∧ finished a' = done') →
  reached outs wr room L out0 s done ts → reached outs wr room L out0 s' done' (<[i := t']> ts).
Proof using Hi.
  intros Ht Hstep. apply reached_step. intros a Ha.
  destruct (Hstep a Ha) as (a' & Hs & ? & ? & ? & ? & ? & ? & ? & ?); [by eapply shows_at|].
  exists a'. split; [by right|]. by eapply shows_worker.
Qed.

(** ** The mutexes *)

(** [pthread_mutex_lock(&readmtx)]. *)
Lemma safe_lock_read {B} (k : unit → Proc.proc (system S P) B) w x held names maps Q :
  (∀ w1, fewer w w1 → safely i (k tt) w1 (working [x] held names maps [] [] true false false) Q) →
  safely i (atomic (lock_read i) ≫= k) w (working [x] held names maps [] [] false false false) Q.
Proof.
  intros Hk. apply safe_atomic. intros h s w1 ts Hw HI Ht. unfold lock_read, mbind, M_bind, get.
  destruct (readmtx s) as [j|] eqn:Hm.
  - right. split; [done|]. eexists. split; [exact Ht|]. rewrite decide_False by done. right.
    split_and!; [done..|left; by rewrite Hm].
  - eexists w1, _. split; [done|]. split; [|by apply Hk].
    pose proof (inv_rlock HI) as Hr. rewrite Hm in Hr.
    eapply Inv_worker; [exact HI|exact Ht|..]; cbn; try done.
    + intros ??????. by apply core_same.
    + by eapply owner_acquire.
    + eapply owner_keep; [exact (inv_olock HI)|exact Ht|done].
    + rewrite (inv_out HI). by erewrite (part_keep i _ _ s s).
    + eapply reached_worker; [exact Ht|]. intros a [] Hat. eexists. split; [apply step_lock_read; [exact Hat|]|done].
      by rewrite shows_read, Hm.
Qed.

(** [read(pipefd[0], &fi, sizeof(fi))]. *)
Lemma safe_read_record {B} (k : option fileinfo → Proc.proc (system S P) B) w x Q :
  (∀ w1 fi, fewer w w1 → w1.1 < w.1 → filename fi ∈ L →
    safely i (k (Some fi)) w1
      (working [x] [record_fd fi] [filename fi] [] [filename fi] [] true false false) Q) →
  (∀ w1, fewer w w1 → safely i (k None) w1 (working [x] [] [] [] [] [] true false true) Q) →
  safely i (atomic (read_record ps) ≫= k) w (working [x] [] [] [] [] [] true false false) Q.
Proof.
  intros Hfi Hnone. apply safe_atomic. intros h s w1 ts Hw HI Ht. unfold read_record, mbind, M_bind, get.
  destruct (records s) as [|fi fis] eqn:Hrec; [case_bool_decide as Hwr|].
  - right. split; [done|]. eexists. split; [exact Ht|]. rewrite decide_False by done. by left.
  - eexists w1, _. split; [done|]. split; [|by apply Hnone]. cbn.
    eapply Inv_worker; [exact HI|exact Ht|..]; cbn; try done.
    + eapply owner_keep; [exact (inv_rlock HI)|exact Ht|done].
    + eapply owner_keep; [exact (inv_olock HI)|exact Ht|done].
    + rewrite (inv_out HI). by erewrite (part_keep i _ _ s s).
    + auto.
    + eapply reached_worker; [exact Ht|]. intros a [] Hat.
      assert (write_open a = false) as Hopen.
      { destruct ts as [|t0 ts0]; [done|]. rewrite (shows_open t0) by done. apply bool_decide_eq_false.
        intros Hin. apply Hwr. by eapply (end_open wr HI (i := 0)). }
      rewrite Hrec in shows_pipe. eexists. split; [by apply step_eof|]. split_and!; try done. by rewrite Hrec.
  - pose proof (inv_core HI) as HC.
    assert (0 < w1.1) as Hpos.
    { pose proof (core_count _ _ _ _ _ _ _ _ _ _ _ _ _ _ HC) as Hn. rewrite Hrec in Hn. cbn in Hn. lia. }
    eexists (pred w1.1, w1.2), _. unfold fewer in *. split; [cbn; lia|].
    split; [|apply Hfi; cbn; [lia..|]].
    + eapply Inv_worker; [exact HI|exact Ht|..]; cbn; try done.
      * intros l e hd nm mp ha HC'. by eapply (core_receive _ _ _ _ _ s).
      * eapply owner_keep; [exact (inv_rlock HI)|exact Ht|done].
      * eapply owner_keep; [exact (inv_olock HI)|exact Ht|done].
      * rewrite (inv_out HI). by erewrite (part_keep i _ _ s s).
      * by rewrite Hrec.
      * eapply reached_worker; [exact Ht|]. intros a [] Hat. rewrite Hrec in shows_pipe.
        eexists. split; [by eapply step_read|done].
    + rewrite <-(core_paths HC), Hrec. cbn. by left.
Qed.

(** [pthread_mutex_unlock(&readmtx)]. *)
Lemma safe_unlock_read {B} (k : unit → Proc.proc (system S P) B) w x held names maps hand eof Q :
  (eof = true ∨ hand ≠ []) →
  (∀ w1, fewer w w1 → safely i (k tt) w1 (working [x] held names maps hand [] false false eof) Q) →
  safely i (atomic unlock_read ≫= k) w (working [x] held names maps hand [] true false eof) Q.
Proof.
  intros Hgot Hk. apply safe_atomic. intros h s w1 ts Hw HI Ht. unfold unlock_read, set_readmtx.
  eexists w1, _. split; [done|]. split; [|by apply Hk].
  pose proof (inv_rlock HI) as Hr. assert (readmtx s = Some i) as Hm by (apply Hr; eauto). rewrite Hm in Hr.
  eapply Inv_worker; [exact HI|exact Ht|..]; cbn; try done.
  - intros ??????. by apply core_same.
  - by eapply owner_release.
  - eapply owner_keep; [exact (inv_olock HI)|exact Ht|done].
  - rewrite (inv_out HI). by erewrite (part_keep i _ _ s s).
  - by left.
  - eapply reached_worker; [exact Ht|]. intros a [] Hat.
    assert (∃ r, position outs (working [x] held names maps hand [] true false eof) = Got r ∧
      position outs (working [x] held names maps hand [] false false eof) =
        match r with Some j => Searching j | None => Exited_ end) as (r & Hr1 & Hr2).
    { destruct eof; [by exists None|]. destruct hand as [|j hand]; [by destruct Hgot|]. by exists (Some j). }
    rewrite Hr1 in Hat. eexists. split; [eapply step_unlock_read; [exact Hat|by rewrite shows_read, Hm]|].
    by rewrite Hr2.
Qed.

(** [pthread_mutex_lock(&outmtx)]. *)
Lemma safe_lock_out {B} (k : unit → Proc.proc (system S P) B) w x held names maps path Q :
  outs path ≠ [] →
  (∀ w1, fewer w w1 → safely i (k tt) w1 (working [x] held names maps [path] [] false true false) Q) →
  safely i (atomic (lock_out i) ≫= k) w (working [x] held names maps [path] [] false false false) Q.
Proof.
  intros Hne Hk. apply safe_atomic. intros h s w1 ts Hw HI Ht. unfold lock_out, mbind, M_bind, get.
  destruct (outmtx s) as [j|] eqn:Hm.
  - right. split; [done|]. eexists. split; [exact Ht|]. rewrite decide_False by done. right.
    split_and!; [done..|right; by rewrite Hm].
  - eexists w1, _. split; [done|]. split; [|by apply Hk].
    pose proof (inv_olock HI) as Hr. rewrite Hm in Hr.
    eapply Inv_worker; [exact HI|exact Ht|..]; cbn; try done.
    + intros ??????. by apply core_same.
    + eapply owner_keep; [exact (inv_rlock HI)|exact Ht|done].
    + by eapply owner_acquire.
    + rewrite (inv_out HI), Hm. cbn. rewrite list_lookup_insert_eq by (by eapply lookup_lt_Some). done.
    + eapply reached_worker; [exact Ht|]. intros a [] Hat. eexists.
      split; [eapply step_lock_out; [exact Hat|done|by rewrite shows_mutex, Hm]|done].
Qed.

(** [fprintf] under [outmtx]. *)
Lemma safe_print {B} bs rest (k : unit → Proc.proc (system S P) B) w x held names maps path part Q :
  outs path = part ++ bs :: rest →
  (∀ w1, fewer w w1 →
    safely i (k tt) w1 (working [x] held names maps [path] (part ++ [bs]) false true false) Q) →
  safely i (atomic (in_kernel (print bs)) ≫= k) w (working [x] held names maps [path] part false true false) Q.
Proof.
  intros Houts Hk. apply safe_atomic. intros h s w1 ts Hw HI Ht. unfold in_kernel, print.
  eexists w1, _. split; [done|]. split; [|by apply Hk].
  assert (outmtx s = Some i) as Hm by (apply (inv_olock HI); eauto).
  eapply Inv_worker; [exact HI|exact Ht|..]; cbn; try done.
  - intros ??????. by apply core_same.
  - eapply owner_keep; [exact (inv_rlock HI)|exact Ht|done].
  - eapply owner_keep; [exact (inv_olock HI)|exact Ht|done].
  - rewrite (inv_out HI), Hm. cbn. rewrite list_lookup_insert_eq by (by eapply lookup_lt_Some).
    rewrite Ht. cbn. by rewrite <-!(assoc_L (++)).
  - eapply reached_worker; [exact Ht|]. intros a [] Hat. unfold position in *. cbn in *.
    rewrite Houts, drop_app_length in Hat.
    eexists. split; [by eapply step_print|]. cbn. split_and!; try done; [|by rewrite shows_out, <-(assoc_L (++))].
    rewrite Houts. change (bs :: rest) with ([bs] ++ rest). by rewrite (assoc_L (++)), drop_app_length.
Qed.

(** [pthread_mutex_unlock(&outmtx)], when all of the file's output is printed. *)
Lemma safe_unlock_out {B} (k : unit → Proc.proc (system S P) B) w x held names maps path Q :
  outs path ≠ [] →
  (∀ w1, fewer w w1 → safely i (k tt) w1 (working [x] held names maps [] [] false false false) Q) →
  safely i (atomic unlock_out ≫= k) w
    (working [x] held names maps [path] (outs path) false true false) Q.
Proof.
  intros Hne Hk. apply safe_atomic. intros h s w1 ts Hw HI Ht. unfold unlock_out, set_outmtx.
  eexists (w1.1, w1.2 ++ [path]), _. split; [unfold fewer; done|].
  split; [|apply Hk; by unfold fewer in *].
  pose proof (inv_olock HI) as Hr. assert (outmtx s = Some i) as Hm by (apply Hr; eauto). rewrite Hm in Hr.
  eapply Inv_worker; [exact HI|exact Ht|..]; cbn; try done.
  - intros l e hd nm mp ha HC. apply core_printed; [done|]. by eapply core_same, HC.
  - eapply owner_keep; [exact (inv_rlock HI)|exact Ht|done].
  - by eapply owner_release.
  - rewrite (inv_out HI), Hm. cbn. rewrite Ht, fmap_app, concat_app. cbn. by rewrite !app_nil_r.
  - eapply reached_worker; [exact Ht|]. intros a [] Hat. unfold position in *. cbn in *.
    rewrite drop_all in Hat. eexists. split; [eapply step_unlock_out; [exact Hat|by rewrite shows_mutex, Hm]|].
    cbn. split_and!; try done. congruence.
Qed.

(** A file for which nothing is printed is done with. *)
Lemma Inv_silent h s w ts x held names maps path :
  outs path = [] →
  inv h s w ts → ts !! i = Some (working [x] held (path :: names) maps [path] [] false false false) →
  inv h s (w.1, w.2 ++ [path]) (<[i := working [x] held names maps [] [] false false false]> ts).
Proof.
  intros Hp HI Ht. eapply Inv_worker; [exact HI|exact Ht|..]; cbn; try done.
  - intros l e hd nm mp ha. by apply core_silent.
  - eapply owner_keep; [exact (inv_rlock HI)|exact Ht|done].
  - eapply owner_keep; [exact (inv_olock HI)|exact Ht|done].
  - rewrite (inv_out HI), fmap_app, concat_app. cbn. rewrite Hp, app_nil_r. by erewrite (part_keep i _ _ s s).
  - eapply reached_worker; [exact Ht|]. intros a [] Hat. eexists. split; [eapply step_nothing; [exact Hat|done]|].
    cbn. split_and!; try done. congruence.
Qed.
End locks.

(** ** The worker *)

Section worker.
Context {S P F : Type} `{WordSetLaws S P F} (f : F) (flaky short full : Prop).
Context (e : fs) (calls : gmap Z (list byte) → os) (ok : allocator) (pad : list byte → list byte).
Context (opt : cli_options) (ps : pipes) (room : nat) (pat : list byte) (kst : kmp_state).
Context (L : list (list byte)).
Context (base : gset Z) (names0 : list (list byte)) (maps0 : nat) (out0 : list (list byte)).
Context (Hcalls : calls_law flaky e pad calls) (Hbase : 0%Z ∈ base).
Context (Hp0 : 0 < length pat) (HP : (Z.of_nat (length pat) ≤ INT_MAX)%Z).
Context (Hpat : search_pattern opt = Some pat) (Hlen : search_patlen opt = Z.of_nat (length pat)).
Context (Hkst : kmp_prepare true pat (Z.of_nat (length pat)) kmp_initial = Ok kst).
Context (Hfiles : ∀ path, path ∈ L → searchable pat (fs_content e path) (pad path)).
Abbreviation lo := (list_matching_files opt).
Context (Hfull : ∀ path, path ∈ L → lo = false → fills (file_text pat (fs_content e path) (pad path)) → full).
Abbreviation outs := (path_output lo pat (fs_content e) pad).
Abbreviation wr := (snd (pipefd ps)).
Abbreviation inv := (Inv (S := S) (P := P) f outs wr room L base names0 maps0 out0).
Abbreviation safely := (safe fewer inv (stops wr room (gives_up flaky short full ok))).
Context (i : nat) (Hi : i ≠ 0).
Implicit Types (s : system S P) (t : account).

(** What is in the thread's hands once the file [path] has been printed, if
    there is something to print. *)
Definition unprinted (path : list byte) : list (list byte) :=
  if decide (outs path = []) then [path] else [].

Lemma outs_text path :
  outs path = [] ↔ length (file_text pat (fs_content e path) (pad path)) = 0.
Proof. rewrite <-found_text_nil. unfold path_output. by case_decide. Qed.

Lemma outs_some path :
  outs path ≠ [] → outs path = filename_line path ::
    (if lo then [] else [as_string (file_text pat (fs_content e path) (pad path)) ++ [newline]]).
Proof. unfold path_output. by case_decide. Qed.

(** A computation that asks the allocator for memory. *)
Lemma safe_unless {A B} (o o' : outcome A) (R R' : A → Prop) (k : A → Proc.proc (system S P) B) w t Q :
  unless (scarce ok) R' o o' → o' ⇓ R →
  (∀ a w1, R a → fewer w w1 → safely i (k a) w1 t Q) → safely i (atomic (lift o) ≫= k) w t Q.
Proof.
  intros Ho Ho'. apply safe_own_or_quits.
  destruct (unless_yields _ _ _ _ _ Ho Ho') as [?|[? ->]]; [by left|right]. by eexists; split; [apply by_null|].
Qed.

(** The buffer as it is at the start of a search. *)
Lemma safe_init_buffer {B} b (k : bufstate → Proc.proc (system S P) B) w t Q :
  (∀ b w1, holds b [] → fewer w w1 → safely i (k b) w1 t Q) →
  safely i (atomic (lift (init_buffer ok b)) ≫= k) w t Q.
Proof.
  intros Hk. eapply safe_unless; [apply init_buffer_unless|apply init_buffer_holds, plenty_serves|].
  intros b' w1 [Hb' _]. auto.
Qed.

(** [map_file]. *)
Lemma safe_map {B} (k : option (list byte) * fileinfo → Proc.proc (system S P) B) w x fi Q :
  let path := filename fi in
  (∀ w1, fewer w w1 → fs_content e path = [] → safely i (k (None, fi)) w1
    (working [x] [record_fd fi] [path] [] [path] [] false false false) Q) →
  (∀ w1 fi', fewer w w1 → fs_content e path ≠ [] →
    fi' = FileInfo (fd fi) path (Some (fs_content e path ++ pad path)) (Z.of_nat (length (fs_content e path))) →
    safely i (k (Some (fs_content e path ++ pad path), fi')) w1
      (working [x] [record_fd fi] [path] [0%Z] [path] [] false false false) Q) →
  safely i (atomic (in_files calls (λ o, map_file o fi)) ≫= k) w
    (working [x] [record_fd fi] [path] [] [path] [] false false false) Q.
Proof.
  intros path Hempty Hsome. apply safe_apart_or_quits. intros h s w1 ts Hw HI Ht.
  destruct (held_open (fd fi) path HI Ht) as (Ho & Hb & Hf); [by left|].
  pose proof (Hcalls _ _ _ Hf) as Hlaw. unfold in_files, in_kernel.
  assert (fd fi ≠ 0%Z) as Hfd by (by intros Heq; rewrite Heq in Hb).
  destruct (map_file_runs flaky _ _ _ fi (kernel s) Hlaw Hfd) as [[? ->]| ->]; [left; by eexists; split; [apply by_die|]|right].
  case_decide as Hc.
  - eexists _, _, (working [x] [record_fd fi] [path] [] [path] [] false false false).
    split; [reflexivity|]. split_and!; [done..|apply moves_same; done|done|done|done|by apply Hempty].
  - eexists _, _, (working [x] [record_fd fi] [path] [0%Z] [path] [] false false false).
    split; [reflexivity|]. split_and!; [done..| |done|done|done|by eapply Hsome].
    intros n done l e' h' nm mp hd. by apply core_map.
Qed.

(** [close] after a file that is empty. *)
Lemma safe_close_empty {B} (k : unit → Proc.proc (system S P) B) w x fi Q :
  let path := filename fi in
  outs path = [] →
  (∀ w1, fewer w w1 → safely i (k tt) w1 (working [x] [] [] [] [] [] false false false) Q) →
  safely i (atomic (in_kernel (close (fd fi))) ≫= k) w
    (working [x] [record_fd fi] [path] [] [path] [] false false false) Q.
Proof.
  intros path Hnil Hk. apply safe_atomic. intros h s w1 ts Hw HI Ht. unfold in_kernel, close.
  set (s' := System _ _ _ _ _ _).
  assert (inv h s' w1 (<[i := working [x] [] [path] [] [path] [] false false false]> ts)) as HI'.
  { eapply Inv_apart; [exact HI|exact Ht|done|done|done| |done|done|].
    - intros n done l e' h' nm mp hd. by apply core_close_held.
    - by intros [? _]%elem_of_difference. }
  eexists (w1.1, w1.2 ++ [path]), _. split; [unfold fewer; done|].
  split; [|apply Hk; by unfold fewer in *].
  erewrite <-(list_insert_insert_eq ts i). eapply (Inv_silent f outs ps room L base names0 maps0 out0 i Hi); [done|exact HI'|].
  apply list_lookup_insert_eq. by eapply lookup_lt_Some.
Qed.

(** [unmap_file]: a file that has not been printed is done with. *)
Lemma safe_unmap {B} (k : bool * fileinfo → Proc.proc (system S P) B) w x fi Q :
  let path := filename fi in
  fs_content e path ≠ [] → is_Some (pmap fi) → size fi = Z.of_nat (length (fs_content e path)) →
  (∀ w1 r, fewer w w1 → safely i (k r) w1 (working [x] [] [] [] [] [] false false false) Q) →
  safely i (atomic (in_files calls (λ o, unmap_file o fi)) ≫= k) w
    (working [x] [record_fd fi] (unprinted path) [0%Z] (unprinted path) [] false false false) Q.
Proof.
  intros path Hc Hmap Hsize Hk. apply safe_atomic. intros h s w1 ts Hw HI Ht.
  destruct (held_open (fd fi) path HI Ht) as (Ho & Hb & Hf); [by left|].
  pose proof (Hcalls _ _ _ Hf) as Hlaw. unfold in_files, in_kernel.
  destruct (unmap_file_runs flaky _ _ _ fi (kernel s) Hlaw Hc Hmap Hsize) as [[? ->]| ->]; [left; by apply by_die|].
  set (s' := System _ _ _ _ _ _).
  assert (inv h s' w1 (<[i := working [x] [] (unprinted path) [] (unprinted path) [] false false false]> ts)) as HI'.
  { eapply Inv_apart; [exact HI|exact Ht|done|done|done| |done|done|].
    - intros n done l e' h' nm mp hd. by apply core_unmap.
    - by intros [? _]%elem_of_difference. }
  unfold unprinted in HI'. case_decide as Hnil.
  2:{ eexists w1, _. split; [done|]. split; [exact HI'|by apply Hk]. }
  eexists (w1.1, w1.2 ++ [path]), _. split; [unfold fewer; done|].
  split; [|apply Hk; by unfold fewer in *].
  erewrite <-(list_insert_insert_eq ts i). eapply (Inv_silent f outs ps room L base names0 maps0 out0 i Hi); [done|exact HI'|].
  apply list_lookup_insert_eq. by eapply lookup_lt_Some.
Qed.

(** [free(fi.filename)]. *)
Lemma safe_free w x held path maps Q :
  (∀ w1, fewer w w1 → Q w1 (working [x] held [] maps [] [] false false false) tt) →
  safely i (atomic (in_kernel (free_name path))) w (working [x] held [path] maps [] [] false false false) Q.
Proof.
  intros Hk. apply safe_last. apply safe_apart. intros h s w1 ts Hw HI Ht.
  pose proof (name_live path HI Ht ltac:(by left)) as Hlive. unfold in_kernel, free_name.
  rewrite bool_decide_true by done.
  eexists _, _, (working [x] held [] maps [] [] false false false). split; [reflexivity|].
  split_and!; [done..| |done|done|done|by apply safe_ret, Hk].
  intros n done l e' h' nm mp hd. by apply core_unname.
Qed.

(** The string of the buffer, unless it has no end. *)
Lemma string_or_quits path st :
  path ∈ L → lo = false → holds st (file_text pat (fs_content e path) (pad path)) →
  let o := blk ← deref (read_buffer st); c_string blk in
  o ⇓ (λ bs, bs = as_string (file_text pat (fs_content e path) (pad path))) ∨
  ∃ fl, gives_up flaky short full ok fl ∧ o = Fail fl.
Proof.
  intros Hin Hlo Hst o. unfold o. rewrite (read_text _ _ Hst). case_bool_decide as Hend; [right|by left].
  eexists. split; [|done]. apply by_full, (Hfull path); [done..|]. destruct Hend as [Hnul Heq].
  split; [done|]. rewrite Heq. by destruct Hst.
Qed.

(** What follows the search: the file is printed when there is something to
    print. *)
Lemma safe_print_file w x held path maps st :
  path ∈ L → holds (wbuf st) (file_text pat (fs_content e path) (pad path)) →
  safely i (if bool_decide (off (wbuf st) ≠ 0%Z) then print_program opt i path st else mret tt) w
    (working [x] held [path] maps [path] [] false false false)
    (λ w1 t _, fewer w w1 ∧ t = working [x] held (unprinted path) maps (unprinted path) [] false false false).
Proof.
  intros Hin Hst. pose proof (λ Elo, string_or_quits path (wbuf st) Hin Elo Hst) as Hstring. unfold unprinted.
  rewrite (holds_off _ _ Hst). pose proof (outs_text path) as Htext. case_bool_decide as Hoff.
  2:{ rewrite decide_True by (rewrite Htext; lia). by apply safe_ret. }
  assert (outs path ≠ []) as Hne by (rewrite Htext; lia). rewrite decide_False by done.
  assert (∀ w1, fewer w w1 → safely i (atomic unlock_out;; atomic (in_kernel (free_name path))) w1
    (working [x] held [path] maps [path] (outs path) false true false)
    (λ w1 t _, fewer w w1 ∧ t = working [x] held [] maps [] [] false false false)) as Hend.
  { intros w1 Hw1. apply safe_unlock_out; [done|done|]. intros w2 Hw2. apply safe_free. intros w3 Hw3.
    split; [|done]. by do 3 (etrans; [done|]). }
  unfold print_program. apply safe_lock_out; [done|done|]. intros w1 Hw1.
  eapply safe_print; [done|exact (outs_some _ Hne)|].
  intros w2 Hw2. pose proof (outs_some _ Hne) as Houts. rewrite Houts in Hend. destruct lo.
  - apply Hend. by etrans.
  - apply safe_bind. eapply safe_own_or_quits; [exact (Hstring eq_refl)|]. intros bs w3 -> Hw3.
    apply safe_last.
    eapply safe_print with (rest := []); [done|exact Houts|]. intros w4 Hw4. apply safe_ret. apply Hend.
    by do 3 (etrans; [done|]).
Qed.

(** An iteration with a record. *)
Lemma safe_file w x fi st :
  let path := filename fi in
  path ∈ L → holds (wbuf st) [] →
  safely i (file_program calls ok opt i kst fi st) w
    (working [x] [record_fd fi] [path] [] [path] [] false false false)
    (λ w1 t st', fewer w w1 ∧ holds (wbuf st') [] ∧ t = working [x] [] [] [] [] [] false false false).
Proof.
  intros path Hin Hst. destruct (Hfiles _ Hin) as [Hsize Hrep].
  unfold file_program. apply safe_map.
  - intros w1 Hw1 Hc. cbn [fst snd]. apply safe_close_empty.
    { unfold path_output. fold path. fold path in Hc. rewrite Hc in Hsize |- *. cbn [app] in Hsize.
      by rewrite decide_True by (by apply found_nil). }
    intros w2 Hw2. apply safe_ret. split_and!; [by etrans|done..].
  - intros w1 fi' Hw1 Hc ->. cbn [fst snd filename size]. fold path. rewrite Hlen.
    eapply safe_unless; [by apply search_file_unless; eapply holds_sized|
      by apply (search_file_text (λ _, true) pat (fs_content e path) (pad path) kst st [])|].
    intros st' w2 [Hst' _] Hw2. cbn [app] in Hst'. apply safe_bind. eapply safe_mono; [apply _|by apply safe_print_file|].
    intros w3 t [] Hw3 [_ ->]. apply safe_init_buffer. intros b w4 Hb Hw4.
    apply (safe_unmap _ _ _ (FileInfo (fd fi) path (Some (fs_content e path ++ pad path)) (Z.of_nat (length (fs_content e path)))));
      [done..|]. intros w5 r Hw5. apply safe_ret. split_and!; [|done..]. by do 4 (etrans; [done|]).
Qed.

(** [while (1)]: no more iterations than files that have not been received. *)
Lemma safe_loop x fuel : ∀ w st,
  w.1 < fuel → holds (wbuf st) [] →
  safely i (worker_loop calls ok opt ps fuel i kst st) w (working [x] [] [] [] [] [] false false false)
    (λ w1 t _, fewer w w1 ∧ t = working [x] [] [] [] [] [] false false true).
Proof.
  induction fuel as [|fuel IH]; intros w st Hfuel Hst; [lia|]. cbn [worker_loop].
  apply safe_lock_read; [done|]. intros w1 Hw1. apply safe_read_record; [done|..].
  - intros w2 fi Hw2 Hless Hin. apply safe_unlock_read; [done|by right|]. intros w3 Hw3. apply safe_bind.
    eapply safe_mono; [apply _|by apply safe_file|]. intros w4 t st' Hw4 (_ & Hst' & ->).
    unfold fewer in *. eapply safe_mono; [apply _|apply IH; [lia|done]|].
    intros w5 t _ _ [Hw5 ->]. split; [|done]. unfold fewer in *. lia.
  - intros w2 Hw2. apply safe_unlock_read; [done|by left|]. intros w3 Hw3. apply safe_ret.
    split; [|done]. by do 2 (etrans; [done|]).
Qed.

(** [close(result[tid][1])]. *)
Lemma safe_close_result {B} (k : unit → Proc.proc (system S P) B) w x Q :
  (∀ w1, fewer w w1 → safely i (k tt) w1 (working [] [] [] [] [] [] false false true) Q) →
  safely i (atomic (in_kernel (close x)) ≫= k) w (working [x] [] [] [] [] [] false false true) Q.
Proof.
  intros Hk. apply safe_atomic. intros h s w1 ts Hw HI Ht. unfold in_kernel, close.
  eexists w1, (working [] [] [] [] [] [] false false true). split; [done|]. split; [|by apply Hk].
  eapply Inv_focus; [exact HI|exact Ht|..]; cbn; try done.
  - by apply core_close_end.
  - eapply owner_keep; [exact (inv_rlock HI)|exact Ht|done].
  - eapply owner_keep; [exact (inv_olock HI)|exact Ht|done].
  - rewrite (inv_out HI). by erewrite (part_keep i _ _ s s).
  - by intros [? _]%elem_of_difference.
  - by left.
  - by apply (reached_stutter _ _ _ _ _ _ _ _ _ _ _ _ Ht).
Qed.

(** [kmp_prepare]. *)
Lemma prepare_or_quits :
  let o := pattern ← Ok pat; let patlen := u64 (search_patlen opt) in
           kmp_prepare (ok (4 * patlen)%Z) pattern patlen kmp_initial in
  o ⇓ (λ st, st = kst) ∨ ∃ fl, gives_up flaky short full ok fl ∧ o = Fail fl.
Proof.
  cbv zeta. ok_simpl. rewrite Hlen, u64_small by (unfold INT_MAX in HP; cint_lia).
  destruct (ok (4 * Z.of_nat (length pat))%Z) eqn:Hok; [left; by rewrite Hkst|right].
  eexists. split; [apply by_exit|done]. exists (4 * Z.of_nat (length pat))%Z. split; [|done]. cint_lia.
Qed.

Lemma safe_worker fuel tid w r x :
  result ps !! tid = Some (r, x) → w.1 < fuel →
  safely i (worker_program calls ok opt ps fuel i tid) w
    (working [x] [] [] [] [] [] false false false) (λ _ t _, over t).
Proof.
  intros Hres Hfuel. unfold worker_program. rewrite Hpat. apply safe_init_buffer. intros b w1 Hb Hw1.
  eapply safe_own_or_quits; [by apply prepare_or_quits|]. intros _ w2 -> Hw2.
  unfold fewer in *. apply safe_bind. eapply safe_mono; [apply _|apply safe_loop; [lia|done]|].
  intros w3 t st _ [_ ->]. rewrite (rd_nat _ _ _ Hres). apply safe_own. intros w4 _.
  apply safe_close_result. intros w5 _. by apply safe_ret.
Qed.
End worker.
