(* ===== verification/ProgramClaims.v ===== *)
(** The properties of the whole program: what it prints and leaves under every
    schedule, that it ends under every fair one, and that its runs are runs of
    [Pipeline]. *)

From S2P Require Import Prelude Pipeline CInt Match MatchSpec Block Buffer BufferSpec Heap Trie TrieSpec WordSet Magic File Options Worker WorkerSpec WorkerClaims Scarce Dispatcher Main Proc Fair Locks Program ProgramInv ProgramCore ProgramSafe ProgramWork.
Local Open Scope nat_scope.

(** When the program may leave by [die] once its threads run, or before: the
    calls of [src/file.c] are [flaky], or one of the calls of [pipe] fails. *)
Definition may_die (flaky : Prop) (pipe_ok : nat → bool) : Prop :=
  flaky ∨ ∃ i, i ≤ NCPU ∧ pipe_ok i = false.

(** The text of the matches of a file has no NUL and the length of a block. *)
Definition may_fill (list_only : bool) (pat : list byte) (e : fs) (pad : list byte → list byte)
    (paths : list (list byte)) : Prop :=
  list_only = false ∧ ∃ path, path ∈ paths ∧ fills (file_text pat (fs_content e path) (pad path)).

Section program.
Context {S P F : Type} `{WordSetLaws S P F} (f : F) (flaky : Prop).
(** The environment. *)
Context (e : fs) (calls : gmap Z (list byte) → os) (ok : allocator) (pad : list byte → list byte) (room : nat).
Context (He : fs_law e) (Hcalls : calls_law flaky e pad calls) (Hroom : 0 < room).
(** The command line, the pattern and the tree. *)
Context (zd : Z → list byte) (g : getopt_run) (opt : cli_options) (messages : list message) (pat : list byte) (root : fts_tree).
Context (Hopt : parse_options g opt_initial = Ok (opt, messages)) (Hpat : search_pattern opt = Some pat).
Context (Hp0 : 0 < length pat) (HP : (Z.of_nat (length pat) ≤ INT_MAX)%Z).
Context (Hfiles : ∀ path, visible (tree_name root) root path → sent e path →
  searchable pat (fs_content e path) (pad path)).
(** The process and the detector at the start, and the fuel of the workers. *)
Context (pipe_ok : nat → bool) (p : File.proc) (d : magic_state S P) (fuel : nat).
Context (Hzero : 0%Z ∈ open_fds p).
Context (Htr : tr d = None) (Hf : ws_frame f (mem d)).
Abbreviation files := (filter (sent e) (listing (tree_name root) root)).
Context (Hfuel : length files < fuel).
(** There are too few nodes for the detector. *)
Abbreviation short := (ws_room (mem d) < magic_room).
(** The matches of some file are printed from a block that they may fill. *)
Abbreviation full := (may_fill (list_matching_files opt) pat e pad files).
Abbreviation outs := (path_output (list_matching_files opt) pat (fs_content e) pad).
(** What [parse_options] prints. *)
Abbreviation said := (message_text zd <$> messages).

(** ** The threads, once the pipes are made *)

Section run.
Context (ps : pipes) (r0 x0 r1 x1 : Z) (base : gset Z) (names0 : list (list byte)) (maps0 : nat) (out0 : list (list byte)).
Context (Hres : result ps = [(r0, x0); (r1, x1)]).
Abbreviation wr := (snd (pipefd ps)).
Abbreviation inv := (Inv (S := S) (P := P) f outs wr room files base names0 maps0 out0).
Abbreviation body := (routine_program e calls ok opt ps room fuel root).
Abbreviation books := (config_books fewer inv (stops wr room (gives_up flaky short full ok)) over (λ _ _ t _, over t) (λ _, False)).
Implicit Types c : config (system S P) routine unit.

(** A configuration of the three threads with its books. *)
Definition well (c : config (system S P) routine unit) : Prop :=
  config_ok fewer inv (stops wr room (gives_up flaky short full ok)) over (λ _ _ t _, over t) (λ _, False) c ∧ length (pool c) = NTHR.

Lemma inv_history h h' s w ts : inv h s w ts → inv h' s w ts.
Proof. by intros []. Qed.

Lemma step_books i c w ts :
  books c w ts →
  match thread_step body i c with
  | Ok c' => config_ok fewer inv (stops wr room (gives_up flaky short full ok)) over (λ _ _ t _, over t) (λ _, False) c'
  | Fail fl => stops wr room (gives_up flaky short full ok) i (shared c) w ts fl
  end.
Proof.
  apply thread_step_safe; [apply _|done|].
  intros h s w' w0 ts' j t r v HI Ht _ Hfin. exists t. split; [done|].
  rewrite list_insert_id by done. by eapply inv_history.
Qed.

Lemma well_step i c :
  well c → match thread_step body i c with Ok c' => well c' | Fail fl => fl = Blocked ∨ gives_up flaky short full ok fl end.
Proof.
  intros [(w & ts & Hc) Hlen]. pose proof (step_books i c w ts Hc) as Hs.
  pose proof (thread_step_moves body i c) as Hm.
  destruct (thread_step body i c) as [c'|fl]; [|by destruct Hs as [?|[]]; [right|left]]. split; [done|].
  destruct Hm as [(_ & t & t' & _ & _ & ->)| ->]; [by rewrite length_insert|done].
Qed.

(** A thread that has not returned does something or waits. *)
Lemma acts_or_waits i c w ts th :
  books c w ts → pool c !! i = Some th → th ≠ Thread None [] →
  acts body i c ∨ ∃ fl, waits wr room i (shared c) w ts fl.
Proof.
  intros Hc Hi Hne. pose proof (step_books i c w ts Hc) as Hs.
  pose proof (thread_step_effective body i c th Hi Hne) as Hm. unfold acts.
  destruct (thread_step body i c) as [c'|fl] eqn:Hstep; [left; left; eauto|].
  destruct Hs as [Hq|Hw]; [|right; eauto]. left. right. exists fl. split; [done|]. by destruct Hq.
Qed.

(** The books of a thread that has returned. *)
Lemma books_over c w ts i t :
  books c w ts → pool c !! i = Some (Thread None []) → ts !! i = Some t → over t.
Proof. intros (_ & _ & Hth) Hi Ht. by destruct (Hth i _ t Hi Ht). Qed.

Lemma all_over c w ts i t : books c w ts → finished c → ts !! i = Some t → over t.
Proof.
  intros Hc Hfin Ht. pose proof Hc as (_ & Hlen & _).
  assert (is_Some (pool c !! i)) as [th Hth].
  { apply lookup_lt_is_Some. rewrite <-Hlen. by eapply lookup_lt_Some. }
  eapply books_over; [done| |done]. unfold finished in Hfin. rewrite Forall_lookup in Hfin.
  by rewrite Hth, (Hfin i th Hth).
Qed.

(** A thread does something, waits, or has returned. *)
Lemma each_thread i c w ts t :
  books c w ts → ts !! i = Some t →
  acts body i c ∨ (∃ fl, waits wr room i (shared c) w ts fl) ∨
  pool c !! i = Some (Thread None []) ∧ over t.
Proof.
  intros Hc Ht. pose proof Hc as (HI & Hlen & Hth).
  destruct (pool c !! i) as [th|] eqn:Hi.
  2:{ apply lookup_ge_None in Hi. apply lookup_lt_Some in Ht. lia. }
  destruct (Hth i th t Hi Ht) as [Hpend Hrun].
  destruct th as [[r|] [|r' rs]]; cbn in Hpend; [| |by auto|];
    try (by apply Forall_cons_iff in Hpend as [[] _]).
  destruct (acts_or_waits i c w ts _ Hc Hi ltac:(done)); auto.
Qed.

(** A thread that holds a mutex acts, or is a worker that waits for a
    record. *)
Lemma holder_moves i c w ts t :
  books c w ts → ts !! i = Some t → a_read t = true ∨ a_out t = true →
  acts body i c ∨
  a_read t = true ∧ records (shared c) = [] ∧ wr ∈ open_fds (kernel (shared c)).
Proof.
  intros Hc Ht Hheld. destruct (each_thread i c w ts t Hc Ht) as [?|[(fl & _ & t' & Ht' & Hw)|(_ & Ho)]]; [by left| |].
  - rewrite Ht in Ht'. injection Ht' as <-. case_decide as Hi; [destruct Hw as (? & ? & _), Hheld; congruence|].
    destruct Hw as [(? & ? & ?)|(? & ? & _)]; [by right|destruct Hheld; congruence].
  - destruct Ho as (_ & _ & _ & _ & _ & _ & ? & ? & _). destruct Hheld; congruence.
Qed.

(** When a mutex is held, a thread can act: the holder, or the dispatcher. *)
Lemma mutex_moves c w ts :
  books c w ts → is_Some (outmtx (shared c)) ∨ is_Some (readmtx (shared c)) →
  ∃ i, acts body i c.
Proof.
  intros Hc [[v Hv]|[v Hv]]; pose proof Hc as (HI & _).
  - apply (inv_olock HI) in Hv as (t & Ht & Hto).
    destruct (holder_moves v c w ts t Hc Ht (or_intror Hto)) as [?|(Hread & _)]; [eauto|].
    pose proof (inv_excl HI v t Ht Hread). congruence.
  - apply (inv_rlock HI) in Hv as (t & Ht & Hread).
    destruct (holder_moves v c w ts t Hc Ht (or_introl Hread)) as [?|(_ & Hrec & Hwr)]; [eauto|].
    destruct (inv_wr HI Hwr) as (t0 & Ht0 & Hends).
    destruct (each_thread 0 c w ts t0 Hc Ht0) as [?|[(fl & _ & t' & Ht' & Hw)|(_ & Ho)]]; [eauto| |].
    + cbn in Hw. destruct Hw as (_ & _ & Hw). rewrite Hrec in Hw. cbn in Hw. lia.
    + destruct Ho as (_ & Ho & _). congruence.
Qed.

(** When none is held, a worker acts or has returned. *)
Lemma worker_moves i c w ts t :
  books c w ts → outmtx (shared c) = None → readmtx (shared c) = None → i ≠ 0 → ts !! i = Some t →
  acts body i c ∨ pool c !! i = Some (Thread None []) ∧ over t.
Proof.
  intros Hc Hom Hrm Hi Ht. pose proof Hc as (HI & _).
  destruct (each_thread i c w ts t Hc Ht) as [?|[(fl & _ & t' & Ht' & Hw)|?]]; [by left| |by right].
  rewrite decide_False in Hw by done. rewrite Ht in Ht'. injection Ht' as <-. exfalso.
  destruct Hw as [(Hread & _)|(_ & _ & [[? ?]|[? ?]])]; [|congruence..].
  pose proof (proj2 (inv_rlock HI i)) as Hr. rewrite Hrm in Hr. discriminate Hr; eauto.
Qed.

(** Until all threads have returned, one of them can act. *)
Lemma well_progress c : well c → finished c ∨ ∃ i, acts body i c.
Proof.
  intros [(w & ts & Hc) Hlen]. pose proof Hc as (HI & Hlen' & _). rewrite Hlen in Hlen'.
  destruct (outmtx (shared c)) as [v|] eqn:Hom; [right; apply (mutex_moves c w ts Hc); left; by rewrite Hom|].
  destruct (readmtx (shared c)) as [v|] eqn:Hrm; [right; apply (mutex_moves c w ts Hc); right; by rewrite Hrm|].
  unfold NTHR in *. destruct ts as [|t0 [|t1 [|t2 [|]]]]; try (cbn in Hlen'; lia).
  destruct (worker_moves 1 c w _ t1 Hc Hom Hrm ltac:(done) eq_refl) as [?|[Hth1 O1]]; [right; eauto|].
  destruct (worker_moves 2 c w _ t2 Hc Hom Hrm ltac:(done) eq_refl) as [?|[Hth2 O2]]; [right; eauto|].
  destruct (each_thread 0 c w _ t0 Hc eq_refl) as [?|[(fl & _ & t' & Ht' & Hw)|[Hth0 O0]]]; [right; eauto| |].
  - exfalso. cbn in Hw. destruct Hw as (_ & _ & Hw). destruct O1 as (_ & Hends & _).
    pose proof (inv_over HI 1 t1 ltac:(done) eq_refl Hends) as Heof.
    destruct (inv_eof HI 1 t1 eq_refl Heof) as [Hrec _]. rewrite Hrec in Hw. cbn in Hw. lia.
  - left. unfold finished. destruct (pool c) as [|a [|b [|b' [|]]]]; try (cbn in Hlen; lia).
    cbn in Hth0, Hth1, Hth2. simplify_eq. by repeat constructor.
Qed.

(** ** The end *)

(** When all threads have returned, every file is done with. *)
Lemma well_finished c :
  well c → finished c →
  ∃ paths, paths ≡ₚ files ∧ stdout (kernel (shared c)) = out0 ++ concat (outs <$> paths) ∧
    (∀ x, x ∈ open_fds (kernel (shared c)) ↔ x ∈ base) ∧ mappings (kernel (shared c)) = maps0 ∧
    live_names (kernel (shared c)) ≡ₚ filter (λ q, outs q = []) paths ++ names0 ∧
    ws_frame f (mem (detector (shared c))).
Proof.
  intros [(w & ts & Hc) Hlen] Hfin. pose proof Hc as (HI & Hlen' & _). rewrite Hlen in Hlen'.
  pose proof (λ i t, all_over c w ts i t Hc Hfin) as Hover.
  assert (∀ t, t ∈ ts → over t) as Hin by (intros t [i Ht]%list_elem_of_lookup; by eapply Hover).
  assert (∃ t0 t1, ts !! 0 = Some t0 ∧ ts !! 1 = Some t1) as (t0 & t1 & Ht0 & Ht1).
  { unfold NTHR in *. destruct ts as [|a [|b ?]]; [cbn in Hlen'; lia..|]. by exists a, b. }
  pose proof (inv_core HI) as HC.
  rewrite !all_empty in HC by (intros t Ht; apply Hin in Ht; unfold over in Ht; tauto).
  assert (records (shared c) = []) as Hrec.
  { apply (inv_eof HI 1 t1 Ht1), (inv_over HI 1 t1); [done..|]. apply (Hover 1 t1 Ht1). }
  exists w.2. split_and!.
  - pose proof (core_paths HC) as Hp. by rewrite Hrec in Hp.
  - rewrite (inv_out HI). destruct (outmtx (shared c)) as [v|] eqn:Hom; [|by rewrite app_nil_r].
    apply (inv_olock HI) in Hom as (t & Ht & Hto). destruct (Hover v t Ht) as (_ & _ & _ & _ & _ & _ & _ & ? & _). congruence.
  - intros x. rewrite (core_open HC). unfold in_use. rewrite Hrec. cbn. rewrite elem_of_nil. tauto.
  - rewrite (core_maps HC). cbn. lia.
  - rewrite (core_names HC), Hrec. done.
  - pose proof (inv_stage HI t0 Ht0) as Hst. destruct (Hover 0 t0 Ht0) as (_ & _ & _ & _ & _ & _ & _ & _ & Hg).
    by rewrite Hg in Hst.
Qed.

(** What a run of the pipeline shows of the threads. *)
Lemma well_shows c :
  well c → ∃ k a, steps outs room k (initial files NCPU) a ∧
    stdout (kernel (shared c)) = out0 ++ out a ∧ pipe a = filename <$> records (shared c) ∧
    Pipeline.readmtx a = pred <$> readmtx (shared c) ∧ Pipeline.outmtx a = pred <$> outmtx (shared c) ∧
    (finished c → final a).
Proof.
  intros [(w & ts & Hc) Hlen]. pose proof Hc as (HI & Hlen' & _). rewrite Hlen in Hlen'.
  destruct (inv_reached HI) as (k & a & Hk & Ha). rewrite Hlen' in Hk. exists k, a.
  split; [exact Hk|]. pose proof Ha as []. split_and!; [done..|]. intros Hfin.
  assert (∃ t0, ts !! 0 = Some t0) as [t0 Ht0] by (destruct ts; [done|eauto]).
  split.
  - rewrite (shows_open t0 Ht0). destruct (all_over _ _ _ _ _ Hc Hfin Ht0) as (_ & -> & _). done.
  - apply Forall_lookup. intros i pos. rewrite shows_ws, list_lookup_fmap, lookup_drop. intros Hpos.
    destruct (ts !! (1 + i)) as [t|] eqn:Ht; [|done]. injection Hpos as <-.
    destruct (all_over _ _ _ _ _ Hc Hfin Ht) as (_ & Hends & _ & _ & _ & _ & Hread & _).
    unfold position. by rewrite (inv_over HI (1 + i) t ltac:(done) Ht Hends), Hread.
Qed.

Lemma joined_finished c : well c → joined c = true ↔ finished c.
Proof.
  intros [(w & ts & Hc) _]. pose proof Hc as (_ & Hlen & Hth). unfold joined, finished.
  rewrite <-Is_true_true, forallb_True, !Forall_lookup. split.
  - intros Hj i th Hi. specialize (Hj i th Hi).
    assert (is_Some (ts !! i)) as [t Ht].
    { apply lookup_lt_is_Some. rewrite Hlen. by eapply lookup_lt_Some. }
    destruct (Hth i th t Hi Ht) as [Hpend _]. destruct th as [[r|] [|r' rs]]; cbn in *; try done.
    by apply Forall_cons_iff in Hpend as [[] _].
  - intros Hall i th Hi. by rewrite (Hall i th Hi).
Qed.

(** ** The start *)

Abbreviation books0 :=
  [dispatching files [wr] [] [] (Fresh (ws_room (mem d))); working [x0] [] [] [] [] [] false false false;
   working [x1] [] [] [] [] [] false false false].

Context (k : File.proc).
Context (Hopen : ∀ x, x ∈ open_fds k ↔ x ∈ base ∨ x ∈ [wr; x0; x1]).
Context (Hends : NoDup [wr; x0; x1]) (Hbase : ∀ x, x ∈ [wr; x0; x1] → x ∉ base) (Hin0 : 0%Z ∈ base).
Context (Hmaps : mappings k = maps0) (Hnames : live_names k = names0) (Hout : stdout k = out0).
Abbreviation start := (System (S := S) (P := P) k ∅ [] None None d).

Lemma inv_start h : inv h start (length files, []) books0.
Proof.
  assert (∀ i t, books0 !! i = Some t → a_read t = false ∧ a_out t = false ∧ a_eof t = false) as Hb.
  { intros [|[|[|i]]] t Ht; cbn in Ht; by simplify_eq. }
  constructor; cbn; try done.
  - unfold all. cbn. rewrite app_nil_r. constructor; cbn; try done.
    + intros x q ?%elem_of_nil. done.
    + by rewrite Hnames.
    + lia.
    + by rewrite !app_nil_r.
  - intros v. split; [done|]. intros (t & (? & _)%Hb & ?). congruence.
  - intros v. split; [done|]. intros (t & (_ & ? & _)%Hb & ?). congruence.
  - by rewrite Hout, app_nil_r.
  - intros i t (? & _)%Hb ?. congruence.
  - intros t [= <-]. done.
  - intros _. eexists. split; [done|]. done.
  - intros i t (_ & _ & ?)%Hb ?. congruence.
  - intros [|[|[|i]]] t Hi Ht; cbn in Ht; by simplify_eq.
  - exists 0. eexists. split; [apply steps_refl|]. constructor; cbn; try done.
    + by intros t [= <-].
    + intros t [= <-]. symmetry. by apply bool_decide_eq_true, list_elem_of_here.
    + by rewrite Hout, app_nil_r.
Qed.

Lemma well_start : well (created e calls ok opt ps room fuel root start).
Proof.
  split; [|done]. exists (length files, []), books0. split_and!; [apply inv_start|done|].
  destruct (parse_options_pattern _ _ _ Hopt) as (pat' & Hpat' & Hlen). cbn in Hpat', Hlen.
  assert (pat' = pat) as -> by congruence. rewrite to_int_small in Hlen by cint_lia.
  pose proof (kmp_prepare_ready pat pat kmp_initial Hp0 HP ltac:(done) ltac:(done)) as Hready.
  apply yields_Ok in Hready as (kst & Hkst & _).
  assert (∀ path, path ∈ files → searchable pat (fs_content e path) (pad path)) as Hsearch.
  { intros path [Hs Hv]%list_elem_of_filter. apply Hfiles; [by apply listing_visible|done]. }
  assert (∀ path, path ∈ files → list_matching_files opt = false →
    fills (file_text pat (fs_content e path) (pad path)) → full) as Hfull by (intros path ? ? ?; split; [done|by exists path]).
  assert (∀ i tid r x, i ≠ 0 → result ps !! tid = Some (r, x) →
    safe fewer inv (stops wr room (gives_up flaky short full ok)) i (body i (Work tid)) (length files, [])
      (working [x] [] [] [] [] [] false false false) (λ _ t _, over t)) as Hwork.
  { intros i tid r x Hi Hr. unfold routine_program. apply safe_bind.
    eapply safe_mono; [apply _|by eapply safe_worker|done]. }
  intros [|[|[|i]]] th t Hth Ht; cbn in Hth, Ht; simplify_eq; (split; [done|]); cbn;
    eexists; (split; [done|]).
  - apply safe_dispatcher; [done|]. intros ?. by apply by_node.
  - apply (Hwork 1 0 r0); [done|by rewrite Hres].
  - apply (Hwork 2 1 r1); [done|by rewrite Hres].
Qed.
End run.

(** ** [main] *)

Abbreviation spoken := (say said p).

(** What [sf_init] leaves for the threads. *)
Lemma init_pipes : forallb pipe_ok (seq 0 (Datatypes.S NCPU)) = true → ∃ rd wr r0 x0 r1 x1 k,
  let ps := Pipes (rd, wr) [(r0, x0); (r1, x1)] in
  sf_init (fs_pick e) pipe_ok spoken = Ok (ps, k) ∧ NoDup [rd; wr; r0; x0; r1; x1] ∧
  (∀ x, x ∈ [rd; wr; r0; x0; r1; x1] → x ∉ open_fds p) ∧
  k = File.Proc (open_fds p ∪ list_to_set [rd; wr; r0; x0; r1; x1]) (mappings p) (live_names p) (stdout p ++ said).
Proof.
  intros Htrue. pose proof (sf_init_pipes (fs_pick e) pipe_ok spoken (proj1 He)) as Hinit.
  rewrite Htrue in Hinit.
  apply wp_run in Hinit as ([[rd wr] res] & k & Hrun & Hlen & Hnd & Hnew & ->). cbn in Hlen.
  destruct res as [|[r0 x0] [|[r1 x1] [|]]]; try (cbn in Hlen; unfold NCPU in Hlen; lia).
  exists rd, wr, r0, x0, r1, x1. eexists. split_and!; [exact Hrun|exact Hnd|exact Hnew|done].
Qed.

(** The threads start well formed; [main] lets them run and closes the read end
    of the pipe when they have returned. *)
Lemma main_starts : forallb pipe_ok (seq 0 (Datatypes.S NCPU)) = true → ∃ ps r0 r1 base c,
  well ps base (live_names p) (mappings p) (stdout p ++ said) c ∧
  r0 ≠ r1 ∧ r0 ∉ open_fds p ∧ r1 ∉ open_fds p ∧
  (∀ x, x ∈ base ∧ x ≠ (pipefd ps).1 ↔ x ∈ open_fds p ∨ x = r0 ∨ x = r1) ∧
  ∀ sched, main e calls ok zd room g pipe_ok root p d fuel sched =
    c' ← run_waiting (routine_program e calls ok opt ps room fuel root) sched c;
    if joined c' then y ← sf_exit ps (kernel (shared c')); Ok (Ends y.2 (detector (shared c')))
    else Ok (Runs c').
Proof.
  intros Htrue. destruct (init_pipes Htrue) as (rd & wr & r0 & x0 & r1 & x1 & k & Hinit & Hnd & Hnew & Hk).
  rewrite !list.NoDup_cons, !not_elem_of_cons in Hnd.
  assert (rd ∉ open_fds p ∧ wr ∉ open_fds p ∧ r0 ∉ open_fds p ∧ x0 ∉ open_fds p ∧ r1 ∉ open_fds p ∧ x1 ∉ open_fds p)
    as Hout by (split_and!; apply Hnew; rewrite !elem_of_cons; tauto).
  exists (Pipes (rd, wr) [(r0, x0); (r1, x1)]), r0, r1, (open_fds p ∪ {[rd; r0; r1]}),
    (created e calls ok opt (Pipes (rd, wr) [(r0, x0); (r1, x1)]) room fuel root (System k ∅ [] None None d)).
  split; [|split_and!; [tauto..| |]].
  - eapply (well_start (Pipes (rd, wr) [(r0, x0); (r1, x1)]) r0 x0 r1 x1); subst k; try done; cbn [open_fds pipefd snd].
    + intros x. rewrite elem_of_union, elem_of_list_to_set, !elem_of_cons, !elem_of_union, !elem_of_singleton, elem_of_nil. tauto.
    + rewrite !list.NoDup_cons, !not_elem_of_cons. split_and!; try tauto; try apply not_elem_of_nil.
    + intros x. rewrite !elem_of_cons, !elem_of_union, !elem_of_singleton, elem_of_nil.
      intros [->|[->|[->|[]]]] [?|[[?|?]|?]]; subst; tauto.
    + rewrite elem_of_union. by left.
  - cbn [pipefd fst]. intros x. rewrite !elem_of_union, !elem_of_singleton.
    split; [tauto|]. intros [?|[->| ->]]; (split; [tauto|]); intros ->; tauto.
  - intros sched. unfold main. rewrite Hopt, bind_Ok. cbn [fst snd]. rewrite Hinit, bind_Ok. done.
Qed.

(** Without its pipes the program leaves by [die]. *)
Lemma main_no_pipes sched :
  forallb pipe_ok (seq 0 (Datatypes.S NCPU)) = false →
  main e calls ok zd room g pipe_ok root p d fuel sched = Fail (Exited EXIT_FAILURE) ∧
  gives_up (may_die flaky pipe_ok) short full ok (Exited EXIT_FAILURE).
Proof.
  intros Hfalse. split.
  - pose proof (sf_init_pipes (fs_pick e) pipe_ok spoken (proj1 He)) as Hinit. rewrite Hfalse in Hinit.
    unfold main. rewrite Hopt, bind_Ok. cbn [fst snd]. by rewrite Hinit.
  - apply by_die. right. apply not_true_iff_false in Hfalse. rewrite forallb_forall in Hfalse.
    destruct (decide (Exists (λ i, pipe_ok i = false) (seq 0 (Datatypes.S NCPU)))) as [Hex|Hno].
    + apply list.Exists_exists in Hex as (i & Hi%elem_of_seq & ?). exists i. split; [lia|done].
    + destruct Hfalse. intros i Hi. apply not_false_iff_true. intros Hn. apply Hno, list.Exists_exists.
      exists i. split; [by apply list_elem_of_In|done].
Qed.

Lemma flaky_gives_up fl : gives_up flaky short full ok fl → gives_up (may_die flaky pipe_ok) short full ok fl.
Proof. intros []; [apply by_die; by left|by apply by_null|by apply by_exit|by apply by_node|by apply by_full]. Qed.

(** What a schedule leaves of the threads. *)
Lemma threads_run ps base names0 maps0 out0 sched c :
  well ps base names0 maps0 out0 c →
  match run_waiting (routine_program e calls ok opt ps room fuel root) sched c with
  | Ok c' => well ps base names0 maps0 out0 c'
  | Fail fl => gives_up flaky short full ok fl
  end.
Proof.
  intros Hc. pose proof (round_moves _ _ _ (well_step ps base _ _ _) sched c Hc) as Hrun.
  destruct (run_waiting _ sched c); [by destruct Hrun|done].
Qed.

(** C1: [main], for a pattern that is not empty and short enough for an [int],
    when every file that is sent is shorter than a third of an [int] and all the
    occurrences of the pattern in it end in the first 1024 columns of their line,
    whose end is in the mapping. Under every schedule of the dispatcher and the two
    workers no thread goes wrong, and none runs out of the fuel of its loop; when
    all have returned, standard output is the messages of [parse_options] and then,
    for the regular files under no version control directory that can be opened and
    do not look binary, in some order, the name and a report for each match of each
    that has one, the reports up to the first NUL in them. For every pattern the
    matches are as [hits] says: occurrences, and for an adequate pattern the
    leftmost ones; the names of the others are never freed, and the read ends of
    the two result pipes never closed, but nothing else is left. The program may
    also end before that, but only by [die] when a call of [pipe], [fstat], [mmap]
    or [munmap] may fail; when the allocator may refuse a request, by [exit] or by a
    write through the NULL pointer that it returns; and, when the reports of some
    file have no NUL and the length of a block, 4096 or that doubled any number of
    times, by a read past the block from which they are printed. *)
Theorem main_prints sched :
  (∀ path, path ∈ files → hits pat (fs_content e path) (found pat (fs_content e path) (pad path))) ∧
  match main e calls ok zd room g pipe_ok root p d fuel sched with
  | Ok (Runs _) => True
  | Ok (Ends p' d') => ∃ paths, paths ≡ₚ files ∧
      stdout p' = stdout p ++ said ++ concat (outs <$> paths) ∧
      live_names p' ≡ₚ filter (λ path, outs path = []) paths ++ live_names p ∧
      mappings p' = mappings p ∧ ws_frame f (mem d') ∧
      ∃ r0 r1, r0 ≠ r1 ∧ r0 ∉ open_fds p ∧ r1 ∉ open_fds p ∧ open_fds p' = open_fds p ∪ {[r0; r1]}
  | Fail fl => gives_up (may_die flaky pipe_ok) short full ok fl
  end.
Proof.
  split.
  { intros path [Hs Hv%listing_visible]%list_elem_of_filter. apply found_hits; [done|done|by apply Hfiles]. }
  destruct (forallb pipe_ok (seq 0 (Datatypes.S NCPU))) eqn:Hpipes.
  2:{ by destruct (main_no_pipes sched Hpipes) as [-> ?]. }
  destruct (main_starts Hpipes) as (ps & r0 & r1 & base & c & Hc & Hne & Hr0 & Hr1 & Hbase & ->).
  pose proof (threads_run _ _ _ _ _ sched c Hc) as Hc'.
  destruct (run_waiting _ sched c) as [c'|fl]; [ok_simpl|by apply flaky_gives_up].
  destruct (joined c') eqn:Hj; [|done]. apply (joined_finished _ _ _ _ _ _ Hc') in Hj.
  destruct (well_finished _ r0 _ _ _ _ _ Hc' Hj) as (paths & Hp & Hout & Hfds & Hmaps & Hnames & Hframe).
  cbn. exists paths. rewrite (assoc_L (++)). split_and!; [done..|]. exists r0, r1. split_and!; [done..|].
  apply set_eq. intros x. rewrite elem_of_difference, Hfds, not_elem_of_singleton, Hbase. clear. set_solver.
Qed.

(** C10: [main] refines the pipeline of [Pipeline], in which a worker is a position
    and a file is a record with the output that it has: at every point of every
    schedule some run of the pipeline has printed the same (after the messages of
    [parse_options]), has the same records in its pipe and the same holders of the mutexes (worker [i] is thread [i + 1]);
    and when the program ends, that run has come to its end. *)
Theorem main_refines sched :
  match main e calls ok zd room g pipe_ok root p d fuel sched with
  | Ok (Runs c) => ∃ k a, steps outs room k (initial files NCPU) a ∧
      stdout (kernel (shared c)) = stdout p ++ said ++ out a ∧ pipe a = filename <$> records (shared c) ∧
      Pipeline.readmtx a = pred <$> readmtx (shared c) ∧ Pipeline.outmtx a = pred <$> outmtx (shared c)
  | Ok (Ends p' _) => ∃ k a, steps outs room k (initial files NCPU) a ∧ final a ∧
      stdout p' = stdout p ++ said ++ out a
  | Fail fl => gives_up (may_die flaky pipe_ok) short full ok fl
  end.
Proof.
  destruct (forallb pipe_ok (seq 0 (Datatypes.S NCPU))) eqn:Hpipes.
  2:{ by destruct (main_no_pipes sched Hpipes) as [-> ?]. }
  destruct (main_starts Hpipes) as (ps & r0 & r1 & base & c & Hc & _ & _ & _ & _ & ->).
  pose proof (threads_run _ _ _ _ _ sched c Hc) as Hc'.
  destruct (run_waiting _ sched c) as [c'|fl]; [ok_simpl|by apply flaky_gives_up].
  destruct (well_shows _ _ _ _ _ _ Hc') as (k & a & Hk & Hout & Hpipe & Hread & Hmutex & Hfinal).
  rewrite <-(assoc_L (++)) in Hout. destruct (joined c') eqn:Hj; [|by exists k, a].
  apply (joined_finished _ _ _ _ _ _ Hc') in Hj. cbn. exists k, a. split_and!; [done|by apply Hfinal|done].
Qed.

(** C2: the program ends. From any point that a schedule can reach, rounds in
    which each of the three threads gets its turn, in whatever order and
    however often, bring every thread to its end after some number of rounds, or
    the program to an early end when one of its calls or the allocator may
    fail: there is no deadlock, and no waiting for ever. *)
Theorem main_ends sched rounds :
  (∀ k i, i < NTHR → i ∈ rounds k) →
  ∃ n, match main e calls ok zd room g pipe_ok root p d fuel (sched ++ concat (rounds <$> seq 0 n)) with
       | Ok (Runs _) => False
       | Ok (Ends _ _) => True
       | Fail fl => gives_up (may_die flaky pipe_ok) short full ok fl
       end.
Proof.
  intros Hrounds. destruct (forallb pipe_ok (seq 0 (Datatypes.S NCPU))) eqn:Hpipes.
  2:{ exists 0. by destruct (main_no_pipes (sched ++ concat (rounds <$> seq 0 0)) Hpipes) as [-> ?]. }
  destruct (main_starts Hpipes) as (ps & r0 & r1 & base & c & Hc & _ & _ & _ & _ & Hmain).
  pose proof (threads_run _ _ _ _ _ sched c Hc) as Hc'.
  destruct (run_waiting _ sched c) as [c'|fl] eqn:Hrun.
  2:{ exists 0. rewrite Hmain, run_waiting_app, Hrun. by apply flaky_gives_up. }
  destruct (fair_finishes _ _ _ (well_step ps base _ _ _) (well_progress ps base _ _ _) rounds c' Hc')
    as (n & Hn).
  { intros k i Hi. apply Hrounds. by rewrite (proj2 Hc') in Hi. }
  exists n. rewrite Hmain, run_waiting_app, Hrun, bind_Ok.
  destruct (run_waiting _ (concat _) c') as [c''|fl]; [|by apply flaky_gives_up].
  destruct Hn as [Hc'' Hfin]. rewrite bind_Ok. by apply (joined_finished _ _ _ _ _ _ Hc'') in Hfin as ->.
Qed.
End program.

(** ** An execution *)

(** [ss main] in the directory [sample_tree]. *)
Definition sample_pad : list byte → list byte := λ _, [x00].
Definition sample_calls (m : gmap Z (list byte)) : os :=
  let content n := fs_content sample_fs (default [] (m !! n)) in
  Os (λ n, Some (Z.of_nat (length (content n)))) (λ n _, Some (content n ++ [x00])) (λ _, true).
Definition sample_run : getopt_run := getopt [bytes_of "ss"; bytes_of "main"].
Definition sample_opt : cli_options := CliOptions 0 (Some (bytes_of "main")) 4 None None false.
Definition sample_process : File.proc := File.Proc {[0%Z; 1%Z; 2%Z]} 0 [] [].

Lemma sample_calls_law : calls_law False sample_fs sample_pad sample_calls.
Proof.
  intros m n path Hm. unfold mmap_may, sample_calls. cbn [os_fstat os_mmap os_munmap]. rewrite Hm.
  split_and!; [by left|by left|by apply Forall_singleton|by left].
Qed.

Lemma sample_searchable path :
  visible (tree_name sample_tree) sample_tree path → sent sample_fs path →
  searchable (bytes_of "main") (fs_content sample_fs path) (sample_pad path).
Proof.
  intros Hv Hs. assert (path ∈ [bytes_of "./a.c"]) as Hp.
  { rewrite <-sample_sent. apply list_elem_of_filter. split; [done|]. by apply listing_visible. }
  apply list_elem_of_singleton in Hp as ->. clear Hv Hs. split.
  - by vm_compute.
  - intros m Ho. pose proof (occurs_at_bound (bytes_of "main") _ _ ltac:(vm_compute; lia) Ho) as Hb.
    change (length (fs_content sample_fs (bytes_of "./a.c"))) with 28 in Hb.
    change (length (bytes_of "main")) with 4 in Hb.
    clear Ho. assert (m ∈ seq 0 25) as Hm by (apply elem_of_seq; lia). clear Hb. revert m Hm.
    apply list.Forall_forall. apply (bool_decide_unpack _). by vm_compute.
Qed.

(** Forty turns for each thread are enough. *)
Definition sample_schedule : list nat := concat (replicate 40 [2; 0; 1]).
Definition sample_main (sched : list nat) : outcome (main_state theap loc) :=
  main sample_fs sample_calls (λ _, true) decimal 1 sample_run (λ _, true) sample_tree sample_process
    fresh_detector 2 sched.

Definition sample_said : list (list byte) :=
  message_text decimal <$> [SearchFor (bytes_of "main") 4; DefaultDirectory].

Example sample_main_prints :
  match sample_main sample_schedule with
  | Ok (Ends p' _) => bool_decide (stdout p' = sample_said ++
      path_output false (bytes_of "main") (fs_content sample_fs) sample_pad (bytes_of "./a.c"))
  | _ => false
  end = true.
Proof. by vm_compute. Qed.

(** The hypotheses of the theorems, for this directory. *)
Ltac at_sample tac :=
  tac; [lia|reflexivity|vm_compute; lia|by vm_compute|
        apply (bool_decide_unpack _); by vm_compute|
        rewrite sample_sent; apply (bool_decide_unpack _); by vm_compute|..].

(** The same when [mmap] fails, and when the third call of [pipe] does. *)
Definition refusing (m : gmap Z (list byte)) : os :=
  Os (os_fstat (sample_calls m)) (λ _ _, None) (os_munmap (sample_calls m)).

Lemma refusing_law : calls_law True sample_fs sample_pad refusing.
Proof.
  intros m n path Hm. unfold mmap_may, refusing, sample_calls. cbn [os_fstat os_mmap os_munmap]. rewrite Hm.
  split_and!; [by left|by right|by apply Forall_singleton|by left].
Qed.

Example sample_main_dies :
  main sample_fs refusing (λ _, true) decimal 1 sample_run (λ _, true) sample_tree sample_process
    fresh_detector 2 sample_schedule = Fail (Exited EXIT_FAILURE).
Proof. by vm_compute. Qed.

Example sample_main_no_pipe :
  main sample_fs sample_calls (λ _, true) decimal 1 sample_run (λ i, bool_decide (i ≠ 2)) sample_tree
    sample_process fresh_detector 2 [] = Fail (Exited EXIT_FAILURE).
Proof. by vm_compute. Qed.

(** An allocator that has room for the table of the matcher only, and one that
    has room for the buffer only. *)
Example sample_main_null :
  main sample_fs sample_calls (λ n, bool_decide (n = 16)%Z) decimal 1 sample_run (λ _, true) sample_tree
    sample_process fresh_detector 2 sample_schedule = Fail NullPointer.
Proof. by vm_compute. Qed.

Example sample_main_no_table :
  main sample_fs sample_calls (λ n, bool_decide (n = 4096)%Z) decimal 1 sample_run (λ _, true) sample_tree
    sample_process fresh_detector 2 sample_schedule = Fail (Exited (-1)).
Proof. by vm_compute. Qed.

(** Room for three nodes only. *)
Example sample_main_no_nodes :
  main sample_fs sample_calls (λ _, true) decimal 1 sample_run (λ _, true) sample_tree
    sample_process (MagicState None (Heap ∅ 1%positive 3)) 2 sample_schedule = Fail NullPointer.
Proof. by vm_compute. Qed.

Lemma main_prints_witness :
  (∀ path, path ∈ [bytes_of "./a.c"] → hits (bytes_of "main") (fs_content sample_fs path)
    (found (bytes_of "main") (fs_content sample_fs path) (sample_pad path))) ∧
  match sample_main sample_schedule with
  | Ok (Runs _) => True
  | Ok (Ends p' d') => ∃ paths, paths ≡ₚ [bytes_of "./a.c"] ∧
      stdout p' = [] ++ sample_said ++ concat (path_output false (bytes_of "main") (fs_content sample_fs) sample_pad <$> paths) ∧
      live_names p' ≡ₚ filter (λ path,
        path_output false (bytes_of "main") (fs_content sample_fs) sample_pad path = []) paths ++ [] ∧
      mappings p' = 0 ∧ ws_frame (∅ : gmap loc trie_cell) (mem d') ∧
      ∃ r0 r1, r0 ≠ r1 ∧ r0 ∉ ({[0%Z; 1%Z; 2%Z]} : gset Z) ∧ r1 ∉ ({[0%Z; 1%Z; 2%Z]} : gset Z) ∧
        open_fds p' = {[0%Z; 1%Z; 2%Z]} ∪ {[r0; r1]}
  | Fail fl => gives_up (may_die False (λ _, true)) (ws_room (mem fresh_detector) < magic_room)
      (may_fill false (bytes_of "main") sample_fs sample_pad (filter (sent sample_fs) (listing (tree_name sample_tree) sample_tree)))
      (λ _, true) fl
  end.
Proof.
  rewrite <-sample_sent.
  at_sample ltac:(refine (main_prints (∅ : gmap loc trie_cell) False sample_fs sample_calls (λ _, true) sample_pad 1 sample_fs_law
    sample_calls_law _ decimal sample_run sample_opt [SearchFor (bytes_of "main") 4; DefaultDirectory]
    (bytes_of "main") sample_tree _ eq_refl _ _ sample_searchable
    (λ _, true) sample_process fresh_detector 2 _ eq_refl
    fresh_detector_frame _ sample_schedule)).
Defined.

Lemma main_refines_witness :
  match sample_main [0; 0; 0; 0; 0; 0; 0; 1; 1; 1; 1] with
  | Ok (Runs c) => ∃ k a,
      steps (path_output false (bytes_of "main") (fs_content sample_fs) sample_pad) 1 k
        (initial (filter (sent sample_fs) (listing (tree_name sample_tree) sample_tree)) NCPU) a ∧
      stdout (kernel (shared c)) = [] ++ sample_said ++ out a ∧ pipe a = filename <$> records (shared c) ∧
      Pipeline.readmtx a = pred <$> readmtx (shared c) ∧ Pipeline.outmtx a = pred <$> outmtx (shared c)
  | Ok (Ends p' _) => ∃ k a,
      steps (path_output false (bytes_of "main") (fs_content sample_fs) sample_pad) 1 k
        (initial (filter (sent sample_fs) (listing (tree_name sample_tree) sample_tree)) NCPU) a ∧ final a ∧
      stdout p' = [] ++ sample_said ++ out a
  | Fail fl => gives_up (may_die False (λ _, true)) (ws_room (mem fresh_detector) < magic_room)
      (may_fill false (bytes_of "main") sample_fs sample_pad (filter (sent sample_fs) (listing (tree_name sample_tree) sample_tree)))
      (λ _, true) fl
  end.
Proof.
  at_sample ltac:(refine (main_refines (∅ : gmap loc trie_cell) False sample_fs sample_calls (λ _, true) sample_pad 1 sample_fs_law
    sample_calls_law _ decimal sample_run sample_opt [SearchFor (bytes_of "main") 4; DefaultDirectory]
    (bytes_of "main") sample_tree _ eq_refl _ _ sample_searchable
    (λ _, true) sample_process fresh_detector 2 _ eq_refl
    fresh_detector_frame _ [0; 0; 0; 0; 0; 0; 0; 1; 1; 1; 1])).
Defined.

Lemma main_ends_witness :
  ∃ n, match sample_main ([0; 0; 0] ++ concat ((λ _, [2; 1; 0]) <$> seq 0 n)) with
       | Ok (Runs _) => False
       | Ok (Ends _ _) => True
       | Fail fl => gives_up (may_die False (λ _, true)) (ws_room (mem fresh_detector) < magic_room)
      (may_fill false (bytes_of "main") sample_fs sample_pad (filter (sent sample_fs) (listing (tree_name sample_tree) sample_tree)))
      (λ _, true) fl
       end.
Proof.
  at_sample ltac:(refine (main_ends (∅ : gmap loc trie_cell) False sample_fs sample_calls (λ _, true) sample_pad 1 sample_fs_law
    sample_calls_law _ decimal sample_run sample_opt [SearchFor (bytes_of "main") 4; DefaultDirectory]
    (bytes_of "main") sample_tree _ eq_refl _ _ sample_searchable
    (λ _, true) sample_process fresh_detector 2 _ eq_refl
    fresh_detector_frame _ [0; 0; 0] (λ _, [2; 1; 0]) _)).
  intros _ i Hi. unfold NTHR in Hi. rewrite !elem_of_cons. lia.
Defined.
