(* ===== verification/ProgramSolo.v ===== *)
(** The programs of the threads, run without interference, are the functions
    of [Worker] and [Dispatcher]. *)

From S2P Require Import Prelude CInt Match Block Buffer Heap Trie TrieSpec WordSet Magic File Options Worker WorkerClaims Dispatcher Main Proc Program.
Local Open Scope nat_scope.

Section solo.
Context {S P F : Type} `{!WordSet S P F}.
Implicit Types s : system S P.

(** Another process, the rest being the same. *)
Definition with_kernel s (k : File.proc) : system S P :=
  System k (opened s) (records s) (readmtx s) (outmtx s) (detector s).

(** A result on the process as one on the system. *)
Definition on_kernel {A} s (r : outcome (A * File.proc)) : outcome (A * system S P) :=
  match r with Ok (a, k) => Ok (a, with_kernel s k) | Fail fl => Fail fl end.

Lemma solo_kernel {A B} (m : M File.proc A) (k : A → Proc.proc (system S P) B) s :
  solo (atomic (in_kernel m) ≫= k) s =
    match m (kernel s) with Ok (a, p) => solo (k a) (with_kernel s p) | Fail fl => Fail fl end.
Proof. cbn. unfold mbind, M_bind, in_kernel. by destruct (m (kernel s)) as [[]|]. Qed.

Lemma solo_lift {A B} (o : outcome A) (k : A → Proc.proc (system S P) B) s :
  solo (atomic (lift o) ≫= k) s = match o with Ok a => solo (k a) s | Fail fl => Fail fl end.
Proof. cbn. unfold mbind, M_bind, lift. by destruct o. Qed.

Lemma on_kernel_bind {A B} (m : M File.proc A) (k : A → M File.proc B) s p :
  on_kernel s ((m ≫= k) p) =
    match m p with Ok (a, p') => on_kernel s (k a p') | Fail fl => Fail fl end.
Proof. unfold mbind, M_bind. by destruct (m p) as [[]|]. Qed.

Lemma on_kernel_lift {A B} (o : outcome A) (k : A → M File.proc B) s p :
  on_kernel s ((lift o ≫= k) p) = match o with Ok a => on_kernel s (k a p) | Fail fl => Fail fl end.
Proof. by destruct o. Qed.

Section file.
Context (calls : gmap Z (list byte) → os) (ok : allocator) (opt : cli_options) (i : nat).

Lemma solo_lock_out {B} (k : unit → Proc.proc (system S P) B) s :
  outmtx s = None →
  solo (atomic (lock_out i) ≫= k) s =
    solo (k tt) (System (kernel s) (opened s) (records s) (readmtx s) (Some i) (detector s)).
Proof. intros Hm. cbn. unfold mbind, M_bind. unfold lock_out, mbind, M_bind, get. by rewrite Hm. Qed.

Lemma solo_unlock_out {B} (k : unit → Proc.proc (system S P) B) s :
  solo (atomic unlock_out ≫= k) s =
    solo (k tt) (System (kernel s) (opened s) (records s) (readmtx s) None (detector s)).
Proof. done. Qed.

Lemma solo_last {A} (m : M (system S P) A) s : solo (atomic m) s = solo (atomic m ≫= mret) s.
Proof. done. Qed.

(** The output of a file. *)
Definition print_file (name : list byte) (st : worker_state) : M File.proc unit :=
  print (filename_line name);;
  (if list_matching_files opt then mret tt
   else s ← lift (blk ← deref (read_buffer (wbuf st)); c_string blk);
        print (s ++ [newline]));;
  free_name name.

Lemma solo_print name st s :
  outmtx s = None →
  solo (print_program opt i name st) s = on_kernel s (print_file name st (kernel s)).
Proof.
  intros Hm. unfold print_program, print_file. rewrite solo_lock_out, solo_kernel, on_kernel_bind by done. cbn [print kernel].
  set (k1 := File.Proc _ _ _ _).
  assert (∀ s' k', solo (atomic unlock_out;; atomic (in_kernel (free_name name))) (System k' (opened s) (records s) (readmtx s) (Some i) (detector s)) =
    on_kernel s (free_name name k')) as Hend.
  { intros _ k'. rewrite solo_unlock_out, solo_last, solo_kernel. cbn [kernel].
    destruct (free_name name k') as [[[] k2]|]; [|done]. cbn. unfold with_kernel. by rewrite Hm. }
  destruct (list_matching_files opt).
  - exact (Hend s k1).
  - destruct (blk ← deref (read_buffer (wbuf st)); c_string blk) as [bs|fl]; [|reflexivity]. exact (Hend s _).
Qed.

(** The calls that follow see the same files. *)
Lemma open_files_same s s' :
  open_fds (kernel s') = open_fds (kernel s) → opened s' = opened s → open_files s' = open_files s.
Proof. unfold open_files. by intros -> ->. Qed.

Lemma solo_in_files {A B} (m : os → M File.proc A) (k : A → Proc.proc (system S P) B) s :
  solo (atomic (in_files calls m) ≫= k) s =
    match m (calls (open_files s)) (kernel s) with
    | Ok (a, p) => solo (k a) (with_kernel s p)
    | Fail fl => Fail fl
    end.
Proof. cbn. unfold mbind, M_bind. unfold in_files, in_kernel. by destruct (m _ (kernel s)) as [[]|]. Qed.

Lemma map_file_fds o fi k :
  match map_file o fi k with Ok (_, k') => open_fds k' = open_fds k | Fail _ => True end.
Proof.
  unfold map_file, check, mapped, die, fail, lift, mret, M_ret, mbind, M_bind. repeat (case_match; simplify_eq/=; try done).
Qed.

Lemma print_file_fds name st k :
  match print_file name st k with Ok (_, k') => open_fds k' = open_fds k | Fail _ => True end.
Proof.
  unfold print_file, print, free_name. rewrite (run_bind _ _ _ tt (File.Proc (open_fds k) (mappings k)
    (live_names k) (stdout k ++ [filename_line name]))) by done.
  unfold mbind, M_bind, lift, mret, M_ret. repeat (case_match; simplify_eq/=; try done).
Qed.

(** An iteration of the loop of a worker that is not disturbed is
    [worker_file]: it takes the mutex and gives it back, and does what that
    function does with the process and the buffer, faults included. *)
Lemma file_program_solo kst fi st s :
  outmtx s = None →
  solo (file_program calls ok opt i kst fi st) s =
    on_kernel s (worker_file (calls (open_files s)) ok opt kst fi st (kernel s)).
Proof.
  intros Hm. unfold file_program, worker_file. rewrite solo_in_files, on_kernel_bind.
  pose proof (map_file_fds (calls (open_files s)) fi (kernel s)) as Hfds.
  destruct (map_file (calls (open_files s)) fi (kernel s)) as [[[[fb|] fi'] k1]|]; cbn [fst snd]; [| |done].
  2:{ rewrite solo_kernel, on_kernel_bind. cbn [kernel with_kernel].
      by destruct (close (fd fi') k1) as [[[] k2]|]. }
  rewrite solo_lift, on_kernel_lift.
  destruct (search_file ok kst (search_patlen opt) fb (size fi') st) as [st'|]; [|done].
  rewrite solo_bind, on_kernel_bind.
  change (print (filename_line (filename fi'));; _) with (print_file (filename fi') st').
  assert (∀ k2, open_fds k2 = open_fds k1 →
    solo (b ← atomic (lift (reset_buffer ok (wbuf st')));
          atomic (in_files calls (λ o, unmap_file o fi'));; mret (WorkerState b (nll st') (cnt st')))
      (with_kernel s k2) =
    on_kernel s ((b ← lift (reset_buffer ok (wbuf st'));
          unmap_file (calls (open_files s)) fi';; mret (WorkerState b (nll st') (cnt st'))) k2)) as Hend.
  { intros k2 Hk2. rewrite solo_lift, on_kernel_lift.
    destruct (reset_buffer ok (wbuf st')) as [b|]; [|done].
    rewrite solo_in_files, on_kernel_bind, (open_files_same s) by (cbn; congruence).
    cbn [kernel with_kernel]. by destruct (unmap_file _ fi' k2) as [[r k3]|]. }
  unfold mbind at 1, M_bind at 1. case_bool_decide.
  - rewrite solo_print by done. cbn [kernel with_kernel].
    pose proof (print_file_fds (filename fi') st' k1) as Hk2.
    destruct (print_file (filename fi') st' k1) as [[[] k2]|]; [|done]. cbn. apply Hend. congruence.
  - cbn. by apply Hend.
Qed.
End file.

(** ** The dispatcher *)

Section dispatcher.
Context (e : fs) (ps : pipes) (room : nat).
Implicit Types ds : dstate S P.

(** The state of [Dispatcher] that goes with the state of the program. *)
Definition agree s ds : Prop :=
  kernel s = d_proc ds ∧ detector s = d_det ds ∧ records s = d_pipe ds.

(** The program [p] does what [m] does, unless it has to wait: then there is no
    room in the pipe for what [m] writes. *)
Definition follows {A} (p : Proc.proc (system S P) A) (m : M (dstate S P) A) : Prop := ∀ s ds,
  agree s ds →
  match m ds with
  | Ok (a, ds') => length (d_pipe ds) ≤ length (d_pipe ds') ∧
      ((∃ s', solo p s = Ok (a, s') ∧ agree s' ds') ∨
       solo p s = Fail Blocked ∧ room < length (d_pipe ds'))
  | Fail fl => solo p s = Fail fl ∨ solo p s = Fail Blocked
  end.

Lemma follows_ret {A} (a : A) : follows (mret a) (mret a).
Proof. intros s ds Hs. split; [done|]. left. by exists s. Qed.

Lemma follows_bind {A B} p m (k : A → Proc.proc (system S P) B) (k' : A → M (dstate S P) B) :
  follows p m → (∀ a, follows (k a) (k' a)) → follows (p ≫= k) (m ≫= k').
Proof.
  intros Hp Hk s ds Hs. specialize (Hp s ds Hs). rewrite solo_bind. unfold mbind, M_bind.
  destruct (m ds) as [[a ds1]|fl]; [|by destruct Hp as [-> | ->]; [left|right]].
  destruct Hp as [Hle [(s1 & -> & Hs1)|[-> Hroom]]].
  - specialize (Hk a s1 ds1 Hs1). destruct (k' a ds1) as [[b ds2]|]; [|done]. split; [lia|]. tauto.
  - specialize (Hk a (System (d_proc ds1) ∅ (d_pipe ds1) None None (d_det ds1)) ds1 ltac:(done)).
    destruct (k' a ds1) as [[b ds2]|]; [|by right]. destruct Hk as [? _]. split; [lia|right; split; [done|lia]].
Qed.

Lemma follows_kernel {A} (m : M File.proc A) : follows (atomic (in_kernel m)) (on_proc m).
Proof.
  intros s ds (Hk & Hd & Hr). rewrite solo_last, solo_kernel, Hk. unfold on_proc.
  destruct (m (d_proc ds)) as [[a k]|]; [|by left]. split; [done|]. left. eexists. by split_and!.
Qed.

Lemma follows_detector {A} (m : M (magic_state S P) A) : follows (atomic (in_detector m)) (on_det m).
Proof.
  intros s ds (Hk & Hd & Hr). cbn. unfold mbind, M_bind, in_detector, on_det. rewrite Hd.
  destruct (m (d_det ds)) as [[a d]|]; [|by left]. split; [done|]. left. eexists. by split_and!.
Qed.

Lemma follows_write fi : follows (atomic (write_record room fi)) (write_pipe fi).
Proof.
  intros s ds (Hk & Hd & Hr). unfold write_pipe. cbn [d_pipe]. rewrite length_app. cbn [length].
  split; [lia|]. cbn. unfold mbind, M_bind, write_record, mbind, M_bind, get. cbn.
  case_bool_decide; [left|right; split; [done|rewrite <-Hr; lia]].
  eexists. split; [done|]. split_and!; [done..|]. cbn. by rewrite Hr.
Qed.

(** A descriptor that is open on a path is scanned there. *)
Lemma solo_scan {B} n path (k : bool → Proc.proc (system S P) B) s :
  open_files s !! n = Some path →
  solo (atomic (scan_descriptor e n) ≫= k) s =
    solo (atomic (in_detector (magic_scan (fs_stack e path) (read16 (fs_content e path)))) ≫= k) s.
Proof. intros Hn. cbn. unfold mbind, M_bind. unfold scan_descriptor, mbind, M_bind, get. by rewrite Hn. Qed.

Lemma follows_dispatch path : follows (dispatch_program e room path) (dispatch_file e path).
Proof.
  intros s ds Hs. unfold dispatch_program, dispatch_file. destruct (fs_open e path) eqn:Hopen.
  - set (n := fs_pick e (open_fds (kernel s))).
    set (k := File.Proc ({[n]} ∪ open_fds (kernel s)) (mappings (kernel s)) (live_names (kernel s)) (stdout (kernel s))).
    set (s1 := System k (<[n := path]> (opened s)) (records s) (readmtx s) (outmtx s) (detector s)).
    set (ds1 := DState k (d_det ds) (d_pipe ds) (d_open ds)).
    assert (agree s1 ds1) as Hs1 by (destruct Hs as (? & ? & ?); by split_and!).
    assert (∀ B (k' : option Z → Proc.proc (system S P) B), solo (atomic (open_path e path) ≫= k') s = solo (k' (Some n)) s1) as Hrun.
    { intros B k'. cbn. unfold mbind, M_bind. unfold open_path, in_kernel, open_file, mbind, M_bind. by rewrite Hopen. }
    assert (∀ B (k' : option Z → M (dstate S P) B), (on_proc (open_file e path) ≫= k') ds = k' (Some n) ds1) as Hrun'.
    { intros B k'. unfold mbind, M_bind, on_proc, open_file. rewrite Hopen. destruct Hs as (Hk & _ & _). by rewrite <-Hk. }
    rewrite Hrun, Hrun'. rewrite (solo_scan n path).
    2:{ unfold open_files. apply map_lookup_filter_Some. split; [apply lookup_insert_eq|].
        cbn. apply elem_of_union. left. by apply elem_of_singleton. }
    change (length (d_pipe ds)) with (length (d_pipe ds1)). revert s1 ds1 Hs1 Hrun Hrun'.
    intros s1 ds1 Hs1 _ _. revert Hs1. apply follows_bind; [apply follows_detector|].
    intros [|]; [apply follows_kernel|]. apply follows_bind; [apply follows_kernel|]. intros [].
    apply follows_write.
  - cbn. unfold mbind, M_bind. unfold open_path, in_kernel, open_file, on_proc, mbind, M_bind. rewrite Hopen. cbn.
    split; [done|]. left. eexists. split; [done|]. by destruct Hs as (? & ? & ?).
Qed.

Lemma follows_walk t : ∀ path, follows (walk_program e room path t) (fts_walk e path t).
Proof.
  induction t as [name regular cs IH] using fts_tree_ind'. intros path. cbn [walk_program fts_walk].
  apply follows_bind.
  { unfold visit_program, visit. destruct (skipped name); [apply follows_ret|].
    apply follows_bind; [destruct regular; [apply follows_dispatch|apply follows_ret]|].
    intros []. apply follows_ret. }
  intros [|]; [apply follows_ret|]. induction IH as [|c cs Hc _ IHcs]; [apply follows_ret|].
  apply follows_bind; [apply Hc|]. intros []. apply IHcs.
Qed.

(** The dispatcher that is not disturbed is [dispatcher_thread]: the same
    files are opened, scanned and sent, with the same faults, and the write end of
    the pipe is closed; or it waits, when the pipe has less room than the records
    need. *)
Lemma dispatcher_program_solo root s :
  match dispatcher_thread e root (DState (kernel s) (detector s) (records s) true) with
  | Ok (_, ds) =>
      (∃ s', solo (dispatcher_program e ps room root) s = Ok (tt, s') ∧ d_open ds = false ∧
        kernel s' = File.Proc (open_fds (d_proc ds) ∖ {[(pipefd ps).2]}) (mappings (d_proc ds))
          (live_names (d_proc ds)) (stdout (d_proc ds)) ∧
        detector s' = d_det ds ∧ records s' = d_pipe ds) ∨
      solo (dispatcher_program e ps room root) s = Fail Blocked ∧ room < length (d_pipe ds)
  | Fail fl => solo (dispatcher_program e ps room root) s = Fail fl ∨
      solo (dispatcher_program e ps room root) s = Fail Blocked
  end.
Proof.
  assert (follows (atomic (in_detector magic_init);; walk_program e room (tree_name root) root)
    (on_det magic_init;; fts_walk e (tree_name root) root)) as Hwalk.
  { apply follows_bind; [apply follows_detector|]. intros []. apply follows_walk. }
  set (ds0 := DState _ _ _ _). specialize (Hwalk s ds0 ltac:(done)).
  assert (solo (dispatcher_program e ps room root) s =
    (solo (atomic (in_detector magic_init);; walk_program e room (tree_name root) root) ≫= λ _,
      solo (atomic (in_kernel (close (pipefd ps).2));; atomic (in_detector magic_fini))) s) as ->.
  { by rewrite <-solo_bind. }
  assert (dispatcher_thread e root ds0 = ((on_det magic_init;; fts_walk e (tree_name root) root) ≫= λ _,
      close_pipe;; on_det magic_fini) ds0) as ->.
  { unfold dispatcher_thread, mbind, M_bind. by destruct (on_det magic_init ds0) as [[[] s1]|]. }
  assert (∀ s1 ds1, agree s1 ds1 →
    solo (atomic (in_kernel (close (pipefd ps).2));; atomic (in_detector magic_fini)) s1 =
    match magic_fini (d_det ds1) with
    | Ok (_, d) => Ok (tt, System (File.Proc (open_fds (d_proc ds1) ∖ {[(pipefd ps).2]}) (mappings (d_proc ds1))
        (live_names (d_proc ds1)) (stdout (d_proc ds1))) (opened s1) (d_pipe ds1) (readmtx s1) (outmtx s1) d)
    | Fail fl => Fail fl
    end) as Htail.
  { intros s1 ds1 (Hk & Hd & Hr). rewrite solo_kernel. cbn [close]. rewrite solo_last. cbn.
    unfold mbind, M_bind. unfold in_detector. cbn. rewrite Hk, Hd, Hr. by destruct (magic_fini (d_det ds1)) as [[[] d]|]. }
  destruct ((on_det magic_init;; fts_walk e (tree_name root) root) ds0) as [[[] ds1]|fl] eqn:Hm.
  - rewrite (run_bind _ _ _ _ _ Hm). unfold mbind at 1, M_bind at 1. cbn [close_pipe]. unfold on_det. cbn [d_det].
    destruct Hwalk as [_ [(s1 & Hs & Hag)|[Hs Hroom]]].
    + rewrite (run_bind _ _ _ _ _ Hs), (Htail s1 ds1 Hag).
      destruct (magic_fini (d_det ds1)) as [[[] d]|]; [|by left]. left. eexists. by split_and!.
    + rewrite (run_bind_fail _ _ _ _ Hs). destruct (magic_fini (d_det ds1)) as [[[] d]|]; [|by right].
      right. by split.
  - rewrite (run_bind_fail _ _ _ _ Hm).
    destruct Hwalk as [Hs|Hs]; rewrite (run_bind_fail _ _ _ _ Hs); [by left|by right].
Qed.
End dispatcher.
End solo.

(** A worker that has received the file of [sample_os]. *)
Definition sample_system : system theap loc :=
  System (File.Proc {[3%Z; 5%Z]} 0 [bytes_of "./a.c"] []) {[5%Z := bytes_of "./a.c"]} [] None None fresh_detector.

Example file_program_solo_sample : ∃ kst,
  kmp_prepare true (bytes_of "stat") 4 kmp_initial = Ok kst ∧
  let opt := CliOptions 0 (Some (bytes_of "stat")) 4 None None false in
  let fi := FileInfo 5 (bytes_of "./a.c") None 0 in
  solo (file_program (λ _, sample_os) (λ _, true) opt 1 kst fi ready_worker) sample_system =
    on_kernel sample_system (worker_file sample_os (λ _, true) opt kst fi ready_worker
      (kernel sample_system)).
Proof.
  eexists. split; [vm_compute; reflexivity|]. cbv zeta.
  apply (file_program_solo (λ _, sample_os) (λ _, true) (CliOptions 0 (Some (bytes_of "stat")) 4 None None false)
    1 _ (FileInfo 5 (bytes_of "./a.c") None 0) ready_worker sample_system eq_refl).
Qed.
