(* ===== verification/Lcrq.v ===== *)
(** The concurrent queue of [src/snippets/lcrq.c]: a linked list of rings,
    each an array of cells used through tickets that [head] and [tail] hand
    out. [enqueue], [dequeue] and [fixState] are programs whose actions are
    the single accesses of the code to shared memory. *)

From S2P Require Import Prelude CInt Heap Proc.
Local Open Scope Z_scope.

(** ** Data *)

(** [RingNode]; the padding is left out. *)
Record ring_node := RingNode { val : Z; idx : Z }.

(** [RingQueue]. The 64-bit fields hold the bits of an [uint64_t]; the code
    compares and masks them as such. *)
Record ring := RingQueue {
  rhead : Z;
  rtail : Z;
  rnext : ptr;
  array : list ring_node;
}.

#[export] Instance ring_node_eq_dec : EqDecision ring_node.
Proof. solve_decision. Defined.

(** A block of [getMemory] holds [None] until [init_ring]. *)
Abbreviation rheap := (heap (option ring)).

(** The heap, the globals [head] and [tail], and the thread-local [nrq] of
    each thread. *)
Record queue := Queue {
  mem : rheap;
  qhead : ptr;
  qtail : ptr;
  nrq : gmap nat loc;
}.

(** [-1] as an [uint64_t]. *)
Definition EMPTY : Z := u64 (-1).

(** ** What the file includes from elsewhere *)

(** The primitives come from a header that is not part of the repository. On
    a location that holds [v], [FAA64 v n] and [CAS64 v o n] are the result
    and the new content. *)
Class Primitives := {
  FAA64 : Z → Z → Z * Z;
  CAS64 : Z → Z → Z → bool * Z;
  CASPTR : ptr → ptr → ptr → bool * ptr;
  getMemory : M rheap ptr;
}.

(** Fetch-and-add returns the old value and wraps around; compare-and-swap
    stores the new value exactly when the old one is there; [getMemory]
    returns a fresh block. *)
Class PrimitivesLaws `{Primitives} : Prop := {
  FAA64_law v n : FAA64 v n = (v, u64 (v + n));
  CAS64_law v o n : CAS64 v o n = if decide (v = o) then (true, n) else (false, v);
  CASPTR_law p o n : CASPTR p o n = if decide (p = o) then (true, n) else (false, p);
  getMemory_law Q h :
    heap_ok h →
    (∀ l h', cells h !! l = None → cells h' = <[l := None]> (cells h) → heap_ok h' →
      Q (Some l) h') →
    wp getMemory Q h;
}.

(** ** Indices *)

Definition BIT63 : Z := 2 ^ 63.

Definition is_empty (v : Z) : bool := bool_decide (v = EMPTY).
Definition node_index (i : Z) : Z := Z.land i (Z.lnot BIT63).
Definition set_unsafe (i : Z) : Z := Z.lor i BIT63.
Definition node_unsafe (i : Z) : Z := Z.land i BIT63.
Definition tail_index (t : Z) : Z := Z.land t (Z.lnot BIT63).
Definition crq_is_closed (t : Z) : bool := bool_decide (Z.land t BIT63 ≠ 0).

Section lcrq.
(** [RING_POW] can be set when the file is compiled. *)
Context (RING_POW : nat) `{Primitives}.

Definition RING_SIZE : Z := 2 ^ Z.of_nat RING_POW.

(** [init_ring]: every cell is empty and has its own position as index. *)
Definition init_ring : ring :=
  RingQueue 0 0 None
    ((λ i, RingNode EMPTY (Z.of_nat i)) <$> seq 0 (Z.to_nat RING_SIZE)).

(** [t & (RING_SIZE-1)]. *)
Definition slot (t : Z) : Z := Z.land t (RING_SIZE - 1).

(** ** Accesses to shared memory *)

Definition on_mem {A} (m : M rheap A) : M queue A := λ q,
  match m (mem q) with
  | Ok (a, h) => Ok (a, Queue h (qhead q) (qtail q) (nrq q))
  | Fail f => Fail f
  end.

Definition load_ring (p : ptr) : M rheap ring :=
  c ← load p;
  match c with Some r => mret r | None => fail Uninitialised end.

Definition store_ring (p : ptr) (r : ring) : M rheap unit := store p (Some r).

(** Read a part of the ring at [p]. *)
Definition rget {A} (p : ptr) (f : ring → outcome A) : M queue A :=
  on_mem (r ← load_ring p; lift (f r)).

(** Replace the ring at [p] in one action, with a result. *)
Definition rmod {A} (p : ptr) (f : ring → outcome (A * ring)) : M queue A :=
  on_mem (r ← load_ring p; x ← lift (f r); store_ring p x.2;; mret x.1).

Definition read_head (p : ptr) : M queue Z := rget p (λ r, Ok (rhead r)).
Definition read_tail (p : ptr) : M queue Z := rget p (λ r, Ok (rtail r)).
Definition read_next (p : ptr) : M queue ptr := rget p (λ r, Ok (rnext r)).
Definition read_idx (p : ptr) (i : Z) : M queue Z :=
  rget p (λ r, n ← rd (array r) i; Ok (idx n)).
Definition read_val (p : ptr) (i : Z) : M queue Z :=
  rget p (λ r, n ← rd (array r) i; Ok (val n)).

Definition set_head (h : Z) (r : ring) : ring := RingQueue h (rtail r) (rnext r) (array r).
Definition set_tail (t : Z) (r : ring) : ring := RingQueue (rhead r) t (rnext r) (array r).
Definition set_next (n : ptr) (r : ring) : ring := RingQueue (rhead r) (rtail r) n (array r).
Definition set_array (a : list ring_node) (r : ring) : ring :=
  RingQueue (rhead r) (rtail r) (rnext r) a.

(** [FAA64(&rq->head, n)], [FAA64(&rq->tail, n)]. *)
Definition faa_head (p : ptr) (n : Z) : M queue Z :=
  rmod p (λ r, let x := FAA64 (rhead r) n in Ok (x.1, set_head x.2 r)).
Definition faa_tail (p : ptr) (n : Z) : M queue Z :=
  rmod p (λ r, let x := FAA64 (rtail r) n in Ok (x.1, set_tail x.2 r)).

(** [CAS64(&rq->tail, o, n)], [CASPTR(&rq->next, o, n)]. *)
Definition cas_tail (p : ptr) (o n : Z) : M queue bool :=
  rmod p (λ r, let x := CAS64 (rtail r) o n in Ok (x.1, set_tail x.2 r)).
Definition cas_next (p : ptr) (o n : ptr) : M queue bool :=
  rmod p (λ r, let x := CASPTR (rnext r) o n in Ok (x.1, set_next x.2 r)).

(** [BIT_TEST_AND_SET(&rq->tail, 63)]: set the bit, true when it was clear. *)
Definition bts_tail (p : ptr) : M queue bool :=
  rmod p (λ r, Ok (negb (Z.testbit (rtail r) 63), set_tail (Z.lor (rtail r) BIT63) r)).

(** [CAS2(cell, o1, o2, n1, n2)], [cell] being [&rq->array[i]]: both words are
    compared and exchanged at once. *)
Definition CAS2 (p : ptr) (i o1 o2 n1 n2 : Z) : M queue bool :=
  rmod p (λ r,
    n ← rd (array r) i;
    if bool_decide (val n = o1 ∧ idx n = o2) then
      a ← wr (array r) i (RingNode n1 n2); Ok (true, set_array a r)
    else Ok (false, r)).

(** [rq->array[i].val = v], [rq->array[i].idx = x], [rq->tail = t], on a ring
    that no other thread can reach. *)
Definition write_val (p : ptr) (i v : Z) : M queue unit :=
  rmod p (λ r, n ← rd (array r) i; a ← wr (array r) i (RingNode v (idx n)); Ok (tt, set_array a r)).
Definition write_idx (p : ptr) (i x : Z) : M queue unit :=
  rmod p (λ r, n ← rd (array r) i; a ← wr (array r) i (RingNode (val n) x); Ok (tt, set_array a r)).
Definition write_tail (p : ptr) (t : Z) : M queue unit :=
  rmod p (λ r, Ok (tt, set_tail t r)).

Definition read_qhead : M queue ptr := q ← get; mret (qhead q).
Definition read_qtail : M queue ptr := q ← get; mret (qtail q).

(** [CASPTR(&head, o, n)], [CASPTR(&tail, o, n)]. *)
Definition cas_qhead (o n : ptr) : M queue bool :=
  q ← get; let x := CASPTR (qhead q) o n in
  put (Queue (mem q) x.2 (qtail q) (nrq q));; mret x.1.
Definition cas_qtail (o n : ptr) : M queue bool :=
  q ← get; let x := CASPTR (qtail q) o n in
  put (Queue (mem q) (qhead q) x.2 (nrq q));; mret x.1.

Definition read_nrq (tid : nat) : M queue ptr := q ← get; mret (nrq q !! tid).
Definition clear_nrq (tid : nat) : M queue unit :=
  q ← get; put (Queue (mem q) (qhead q) (qtail q) (delete tid (nrq q))).

(** [nrq = getMemory(sizeof(RingQueue)); init_ring(nrq);]: one action, since
    no other thread can reach the block. *)
Definition alloc_nrq (tid : nat) : M queue unit :=
  p ← on_mem getMemory;
  on_mem (store_ring p init_ring);;
  q ← get;
  put (Queue (mem q) (qhead q) (qtail q) (partial_alter (λ _, p) tid (nrq q))).

(** ** Operations *)

(** [fixState]. *)
Fixpoint fixState (fuel : nat) (rq : ptr) : proc queue unit :=
  match fuel with
  | O => stop OutOfFuel
  | S fuel' =>
      t ← atomic (faa_tail rq 0);
      h ← atomic (faa_head rq 0);
      t' ← atomic (read_tail rq);
      if bool_decide (t' ≠ t) then fixState fuel' rq
      else if bool_decide (t < h) then
        b ← atomic (cas_tail rq t h);
        if (b : bool) then mret tt else fixState fuel' rq
      else mret tt
  end.

(** [close_crq]. *)
Definition close_crq (rq : ptr) (t tries : Z) : proc queue bool :=
  if bool_decide (tries < 10) then
    atomic (cas_tail rq (u64 (t + 1)) (Z.lor (u64 (t + 1)) BIT63))
  else atomic (bts_tail rq).

(** From the label [alloc]: true when the new ring has been linked, false
    when the loop continues. *)
Definition enqueue_alloc (tid : nat) (rq : ptr) (arg : Z) : proc queue bool :=
  n ← atomic (read_nrq tid);
  (match n with None => atomic (alloc_nrq tid) | Some _ => mret tt end);;
  n ← atomic (read_nrq tid);
  atomic (write_tail n 1);;
  atomic (write_val n 0 arg);;
  atomic (write_idx n 0 0);;
  b ← atomic (cas_next rq None n);
  if (b : bool) then
    atomic (cas_qtail rq n);;
    atomic (clear_nrq tid);;
    mret true
  else mret false.

(** The attempt to put [arg] into the cell of ticket [t]. *)
Definition enqueue_cell (rq : ptr) (arg t : Z) : proc queue bool :=
  i ← atomic (read_idx rq (slot t));
  v ← atomic (read_val rq (slot t));
  if is_empty v && bool_decide (node_index i ≤ t) then
    safe ← (if bool_decide (node_unsafe i = 0) then mret true
            else h ← atomic (read_head rq); mret (bool_decide (h < t)));
    if (safe : bool) then atomic (CAS2 rq (slot t) EMPTY i arg t) else mret false
  else mret false.

Fixpoint enqueue_loop (fuel : nat) (tid : nat) (arg try_close : Z) : proc queue unit :=
  match fuel with
  | O => stop OutOfFuel
  | S fuel' =>
      rq ← atomic read_qtail;
      next ← atomic (read_next rq);
      match next with
      | Some _ =>
          atomic (cas_qtail rq next);;
          enqueue_loop fuel' tid arg try_close
      | None =>
          t ← atomic (faa_tail rq 1);
          if crq_is_closed t then
            b ← enqueue_alloc tid rq arg;
            if (b : bool) then mret tt else enqueue_loop fuel' tid arg try_close
          else
            b ← enqueue_cell rq arg t;
            if (b : bool) then mret tt
            else
              h ← atomic (read_head rq);
              if bool_decide (RING_SIZE ≤ u64 (t - h)) then
                tries ← atomic (lift (int_add try_close 1));
                c ← close_crq rq t tries;
                if (c : bool) then
                  b ← enqueue_alloc tid rq arg;
                  if (b : bool) then mret tt else enqueue_loop fuel' tid arg tries
                else enqueue_loop fuel' tid arg tries
              else enqueue_loop fuel' tid arg try_close
      end
  end.

Definition enqueue (fuel : nat) (tid : nat) (arg : Z) : proc queue unit :=
  enqueue_loop fuel tid arg 0.

(** One iteration of the inner loop of [dequeue] on ticket [h]: it returns a
    value, leaves the loop, or continues with [tt] and [r]. *)
Inductive cell_flow := Got (v : Z) | Leave | Again (tt : option Z) (r : Z).

Definition dequeue_cell (rq : ptr) (h : Z) (tt : option Z) (r : Z) : proc queue cell_flow :=
  cell_idx ← atomic (read_idx rq (slot h));
  v ← atomic (read_val rq (slot h));
  let unsafe := node_unsafe cell_idx in
  let i := node_index cell_idx in
  if bool_decide (h < i) then mret Leave
  else if negb (is_empty v) then
    if bool_decide (i = h) then
      b ← atomic (CAS2 rq (slot h) v cell_idx EMPTY (Z.lor unsafe (u64 (h + RING_SIZE))));
      mret (if (b : bool) then Got v else Again tt r)
    else
      b ← atomic (CAS2 rq (slot h) v cell_idx v (set_unsafe i));
      mret (if (b : bool) then Leave else Again tt r)
  else
    tt ← (if bool_decide (Z.land r 1023 = 0) then t ← atomic (read_tail rq); mret (Some t)
          else mret tt);
    match tt with
    | None => stop Uninitialised
    | Some t0 =>
        let t := tail_index t0 in
        if bool_decide (unsafe ≠ 0) then
          b ← atomic (CAS2 rq (slot h) v cell_idx v (Z.lor unsafe (u64 (h + RING_SIZE))));
          mret (if (b : bool) then Leave else Again tt r)
        else if bool_decide (u64 (t - 1) ≤ h) || bool_decide (200000 < r) || crq_is_closed t0 then
          b ← atomic (CAS2 rq (slot h) v i v (u64 (h + RING_SIZE)));
          mret (if (b : bool) then Leave else Again tt r)
        else mret (Again tt (r + 1))
    end.

Fixpoint dequeue_cells (fuel : nat) (rq : ptr) (h : Z) (tt : option Z) (r : Z)
    : proc queue (option Z) :=
  match fuel with
  | O => stop OutOfFuel
  | S fuel' =>
      x ← dequeue_cell rq h tt r;
      match x with
      | Got v => mret (Some v)
      | Leave => mret None
      | Again tt' r' => dequeue_cells fuel' rq h tt' r'
      end
  end.

(** [fuel] bounds the outer loop, [inner] the loops it contains. *)
Fixpoint dequeue (fuel inner : nat) : proc queue Z :=
  match fuel with
  | O => stop OutOfFuel
  | S fuel' =>
      rq ← atomic read_qhead;
      h ← atomic (faa_head rq 1);
      x ← dequeue_cells inner rq h None 0;
      match x with
      | Some v => mret v
      | None =>
          t ← atomic (read_tail rq);
          if bool_decide (u64 (tail_index t - 1) ≤ h) then
            fixState inner rq;;
            next ← atomic (read_next rq);
            match next with
            | None => mret EMPTY
            | Some _ => atomic (cas_qhead rq next);; dequeue fuel' inner
            end
          else dequeue fuel' inner
      end
  end.

(** [SHARED_OBJECT_INIT], for the value of [FULL]: the queue before the
    threads start. *)
Definition fill_ring (full : bool) (r : ring) : ring :=
  if full then
    RingQueue (rhead r) (rtail r + RING_SIZE / 2) (rnext r)
      (imap (λ i n, if bool_decide (Z.of_nat i < RING_SIZE / 2) then RingNode 0 (Z.of_nat i) else n)
         (array r))
  else r.

Definition SHARED_OBJECT_INIT (full : bool) : M rheap ptr :=
  rq ← getMemory;
  store_ring rq init_ring;;
  store_ring rq (fill_ring full init_ring);;
  mret rq.

(** The queue that [main] gives to the threads; memory is empty at first. *)
Definition queue_initial (full : bool) : outcome queue :=
  match SHARED_OBJECT_INIT full (Heap ∅ 1%positive 0) with
  | Ok (rq, h) => Ok (Queue h rq rq ∅)
  | Fail f => Fail f
  end.

(** ** The benchmark *)

Inductive call := Enqueue (arg : Z) | Dequeue.

#[export] Instance call_eq_dec : EqDecision call.
Proof. solve_decision. Defined.

(** A call made by thread [tid]; the result of [enqueue] is not used. *)
Definition call_body (fuel inner : nat) (tid : nat) (c : call) : proc queue Z :=
  match c with
  | Enqueue arg => enqueue fuel tid arg;; mret 0
  | Dequeue => dequeue fuel inner
  end.

(** [Execute]: each of the [RUNS] iterations enqueues the number of the thread and
    dequeues. *)
Definition Execute (RUNS : nat) (id : nat) : list call :=
  mjoin (replicate RUNS [Enqueue (Z.of_nat id); Dequeue]).

(** [main]: the threads, before they run. *)
Definition benchmark (RUNS N_THREADS : nat) (q : queue) : config queue call Z :=
  start q (Execute RUNS <$> seq 0 N_THREADS).
End lcrq.

Arguments init_ring : simpl never.
