(* ===== verification/LcrqInv.v ===== *)
(** What the threads of the queue of [src/snippets/lcrq.c] preserve, whatever
    their interleaving: the structure of the rings, which rings are linked and
    which are kept in a thread's [nrq], which nobody can reach any more, and an
    account of the values. *)

From S2P Require Import Prelude CInt Heap Proc Lcrq.
From stdpp Require Import gmultiset.
Local Open Scope Z_scope.

(** ** Sums of multisets *)

Section sums.
Context {A : Type}.
Implicit Types (f : A → gmultiset Z) (l : list A).

Definition sum_ms f l : gmultiset Z := foldr (λ a m, f a ⊎ m) ∅ l.

Lemma sum_ms_nil f : sum_ms f [] = ∅.
Proof. done. Qed.

Lemma sum_ms_cons f a l : sum_ms f (a :: l) = f a ⊎ sum_ms f l.
Proof. done. Qed.

Lemma sum_ms_app f l1 l2 : sum_ms f (l1 ++ l2) = sum_ms f l1 ⊎ sum_ms f l2.
Proof.
  induction l1 as [|a l1 IH]; [rewrite app_nil_l, sum_ms_nil; multiset_solver|].
  rewrite <-app_comm_cons, !sum_ms_cons, IH. multiset_solver.
Qed.

Lemma sum_ms_perm f l1 l2 : l1 ≡ₚ l2 → sum_ms f l1 = sum_ms f l2.
Proof. induction 1; rewrite ?sum_ms_cons; [done|congruence|multiset_solver|congruence]. Qed.

Lemma sum_ms_insert f l i a a' :
  l !! i = Some a → sum_ms f (<[i := a']> l) ⊎ f a = sum_ms f l ⊎ f a'.
Proof.
  revert i. induction l as [|b l IH]; intros i Hi; [done|]. destruct i as [|i].
  - injection Hi as ->. change (<[0%nat := a']> (a :: l)) with (a' :: l).
    rewrite !sum_ms_cons. multiset_solver.
  - change (<[S i := a']> (b :: l)) with (b :: <[i := a']> l).
    rewrite !sum_ms_cons. specialize (IH i Hi). multiset_solver.
Qed.

Lemma sum_ms_ext f g l : (∀ a, a ∈ l → f a = g a) → sum_ms f l = sum_ms g l.
Proof.
  induction l as [|a l IH]; intros H; [done|]. rewrite !sum_ms_cons, H, IH; [done| |by left].
  intros b ?. apply H. by right.
Qed.

Lemma sum_ms_empty f l : (∀ a, a ∈ l → f a = ∅) → sum_ms f l = ∅.
Proof.
  induction l as [|a l IH]; intros H; [done|]. rewrite sum_ms_cons, H, IH; [done| |by left].
  intros b ?. apply H. by right.
Qed.

Lemma sum_ms_mono f g l : (∀ a, a ∈ l → f a ⊆ g a) → sum_ms f l ⊆ sum_ms g l.
Proof.
  induction l as [|a l IH]; intros H; [done|]. rewrite !sum_ms_cons.
  assert (f a ⊆ g a) by (apply H; by left).
  assert (sum_ms f l ⊆ sum_ms g l) by (apply IH; intros; apply H; by right).
  by apply gmultiset_disj_union_mono.
Qed.
End sums.

(** The same over a finite map. *)
Definition map_ms {A} (f : loc → A → gmultiset Z) (m : gmap loc A) : gmultiset Z :=
  sum_ms (λ x, f x.1 x.2) (map_to_list m).

Lemma map_ms_delete {A} (f : loc → A → gmultiset Z) m l a :
  m !! l = Some a → map_ms f m = f l a ⊎ map_ms f (delete l m).
Proof. intros Hl. unfold map_ms. by rewrite <-(sum_ms_perm _ _ _ (map_to_list_delete m l a Hl)). Qed.

Lemma map_ms_insert_new {A} (f : loc → A → gmultiset Z) m l a :
  m !! l = None → map_ms f (<[l := a]> m) = f l a ⊎ map_ms f m.
Proof. intros Hl. unfold map_ms. by rewrite (sum_ms_perm _ _ _ (map_to_list_insert m l a Hl)). Qed.

Lemma map_ms_insert {A} (f : loc → A → gmultiset Z) m l a a' :
  m !! l = Some a → map_ms f (<[l := a']> m) ⊎ f l a = map_ms f m ⊎ f l a'.
Proof.
  intros Hl. rewrite (map_ms_delete f m l a Hl).
  rewrite <-insert_delete_eq, map_ms_insert_new by apply lookup_delete_eq. multiset_solver.
Qed.

Lemma map_ms_ext {A} (f g : loc → A → gmultiset Z) m :
  (∀ l a, m !! l = Some a → f l a = g l a) → map_ms f m = map_ms g m.
Proof. intros H. apply sum_ms_ext. intros [l a] ?%elem_of_map_to_list. by apply H. Qed.

(** ** The values in a ring *)

Definition node_ms (n : ring_node) : gmultiset Z := if is_empty (val n) then ∅ else {[+ val n +]}.
Definition ring_ms (r : ring) : gmultiset Z := sum_ms node_ms (array r).

(** The values in the rings of [w]. *)
Definition linked_val (w : gset loc) (l : loc) (c : option ring) : gmultiset Z :=
  match c with Some r => if decide (l ∈ w) then ring_ms r else ∅ | None => ∅ end.
Definition linked_ms (w : gset loc) (m : gmap loc (option ring)) : gmultiset Z :=
  map_ms (linked_val w) m.

Lemma linked_val_in w l r : l ∈ w → linked_val w l (Some r) = ring_ms r.
Proof. intros. cbn. by rewrite decide_True. Qed.

Lemma linked_val_out w l c : l ∉ w → linked_val w l c = ∅.
Proof. intros. destruct c; cbn; [|done]. by rewrite decide_False. Qed.

Lemma linked_ms_union w1 w2 m :
  (∀ l, l ∈ w1 → l ∉ w2) → linked_ms (w1 ∪ w2) m = linked_ms w1 m ⊎ linked_ms w2 m.
Proof.
  intros Hd. unfold linked_ms, map_ms. induction (map_to_list m) as [|[l c] ls IH]; [rewrite !sum_ms_nil; multiset_solver|].
  rewrite !sum_ms_cons, IH. cbn [fst snd].
  assert (linked_val (w1 ∪ w2) l c = linked_val w1 l c ⊎ linked_val w2 l c) as ->; [|multiset_solver].
  destruct c as [r|]; cbn; [|multiset_solver]. specialize (Hd l).
  repeat case_decide; first [set_solver|multiset_solver].
Qed.

(** Only a part of a map counts. *)
Lemma map_ms_part {A} (f : loc → A → gmultiset Z) (part m : gmap loc A) :
  part ⊆ m → (∀ l a, m !! l = Some a → part !! l = None → f l a = ∅) → map_ms f m = map_ms f part.
Proof.
  revert m. induction part as [|l a part Hl IH] using map_ind; intros m Hsub Hf.
  - rewrite (map_ms_ext f (λ _ _, ∅)) by (intros l a Ha; by apply Hf). by apply sum_ms_empty.
  - assert (m !! l = Some a) as Ha by (eapply lookup_weaken; [apply lookup_insert_eq|done]).
    rewrite map_ms_insert_new, (map_ms_delete f m l a Ha) by done. f_equal. apply IH.
    + apply map_subseteq_spec. intros k b Hk. assert (k ≠ l) by (intros ->; congruence).
      rewrite lookup_delete_ne by done. eapply lookup_weaken; [|exact Hsub]. by rewrite lookup_insert_ne.
    + intros k b [Hne Hk]%lookup_delete_Some Hno. apply Hf; [done|]. by rewrite lookup_insert_ne.
Qed.

(** The values in some rings. *)
Definition dead_ms (dead : gmap loc (option ring)) : gmultiset Z :=
  map_ms (λ _ c, match c with Some r => ring_ms r | None => ∅ end) dead.

Lemma linked_dead dead m : dead ⊆ m → linked_ms (dom dead) m = dead_ms dead.
Proof.
  intros Hsub. unfold linked_ms. rewrite (map_ms_part _ dead m Hsub).
  - apply map_ms_ext. intros l [r|] Hl; [|done]. apply linked_val_in. by apply elem_of_dom_2 in Hl.
  - intros l c _ Hl. apply linked_val_out. by apply not_elem_of_dom.
Qed.

(** The values that a [dequeue] may find: those of the rings that no thread
    keeps for itself. *)
Definition available (q : queue) : gmultiset Z :=
  linked_ms (dom (cells (mem q)) ∖ map_img (nrq q)) (cells (mem q)).

(** ** The history *)

Definition event_in (e : event call Z) : gmultiset Z :=
  match e with Returned _ (Enqueue v) _ => {[+ v +]} | _ => ∅ end.
Definition event_out (e : event call Z) : gmultiset Z :=
  match e with Returned _ Dequeue v => if is_empty v then ∅ else {[+ v +]} | _ => ∅ end.
Definition event_asked (e : event call Z) : gmultiset Z :=
  match e with Invoked _ (Enqueue v) => {[+ v +]} | _ => ∅ end.

(** The values whose [enqueue] has returned, the values that [dequeue] has
    returned, and the values whose [enqueue] has begun. *)
Definition enqueued (h : list (event call Z)) : gmultiset Z := sum_ms event_in h.
Definition dequeued (h : list (event call Z)) : gmultiset Z := sum_ms event_out h.
Definition asked (h : list (event call Z)) : gmultiset Z := sum_ms event_asked h.

(** ** The account of a thread *)

(** [kept]: the ring in [nrq], with its values while it is not linked.
    [todo], [inn], [out]: what the call that is running was asked to enqueue,
    has enqueued, and has taken out. *)
Record account := Account {
  kept : option (loc * option (gmultiset Z));
  todo : gmultiset Z;
  inn : gmultiset Z;
  out : gmultiset Z;
}.

Definition idle (t : account) : Prop :=
  todo t = ∅ ∧ inn t = ∅ ∧ out t = ∅ ∧
  match kept t with Some (_, None) => False | _ => True end.

Section inv.
Context (RING_POW : nat).
Context (initially : gmultiset Z).
(** Rings that [head], [tail] and the linked ones no longer lead to: no thread
    can reach them, and they stay as they are. *)
Context (dead : gmap loc (option ring)).
Abbreviation N := (RING_SIZE RING_POW).

(** [head] and [tail] are words, in a ring that can be addressed. *)
Definition words (r : ring) : Prop :=
  N ≤ 2 ^ 63 → 0 ≤ rhead r < U64_MOD ∧ 0 ≤ rtail r < U64_MOD.

Definition ring_ok (w : gset loc) (r : ring) : Prop :=
  Z.of_nat (length (array r)) = N ∧ (∀ n, rnext r = Some n → n ∈ w) ∧ words r.

(** A ring that is not linked: only its first cell is in use. *)
Definition private_ok (vs : gmultiset Z) (r : ring) : Prop :=
  Z.of_nat (length (array r)) = N ∧ rnext r = None ∧
  sum_ms node_ms (drop 1 (array r)) = ∅ ∧ ring_ms r = vs ∧ words r.

(** The rings of [w] form a list. *)
Definition chain (m : gmap loc (option ring)) (w : gset loc) : Prop :=
  ∃ ls, NoDup ls ∧ (∀ l, l ∈ w ↔ l ∈ ls) ∧
    ∀ i l r, ls !! i = Some l → m !! l = Some (Some r) → rnext r = ls !! S i.

Lemma chain_upd m w l r r' :
  m !! l = Some (Some r) → rnext r' = rnext r → chain m w → chain (<[l := Some r']> m) w.
Proof.
  intros Hl Hn (ls & Hnd & Hw & Hls). exists ls. split_and!; [done..|].
  intros i l1 r1 Hi [(<- & [= ->])|[_ ?]]%lookup_insert_Some; [rewrite Hn|]; eauto.
Qed.

Lemma chain_other m w l c : l ∉ w → chain m w → chain (<[l := c]> m) w.
Proof.
  intros Hl (ls & Hnd & Hw & Hls). exists ls. split_and!; [done..|].
  intros i l1 r1 Hi. rewrite lookup_insert_ne; [by apply Hls|].
  intros ->. apply Hl, Hw. by eapply list_elem_of_lookup_2.
Qed.

(** Another ring is linked to the last one. *)
Lemma chain_publish m w l n r r' rn :
  m !! l = Some (Some r) → l ∈ w → rnext r = None → rnext r' = Some n →
  n ∉ w → m !! n = Some (Some rn) → rnext rn = None →
  chain m w → chain (<[l := Some r']> m) ({[n]} ∪ w).
Proof.
  intros Hl Hlw Hr Hr' Hn Hrn Hnone (ls & Hnd & Hw & Hls).
  assert (NoDup (ls ++ [n])) as Hnd'.
  { apply list.NoDup_app. split_and!; [done| |apply NoDup_singleton].
    intros x Hx ->%list_elem_of_singleton. by apply Hn, Hw. }
  exists (ls ++ [n]). split_and!; [done|..].
  - intros x. rewrite elem_of_union, elem_of_singleton, elem_of_app, list_elem_of_singleton, Hw. tauto.
  - assert (ls !! pred (length ls) = Some l) as Hlast.
    { apply Hw, list_elem_of_lookup in Hlw as [j Hj]. pose proof (Hls j l r Hj Hl) as Hnext.
      rewrite Hr in Hnext. symmetry in Hnext. apply lookup_ge_None in Hnext.
      apply lookup_lt_Some in Hj as Hlt. by replace (pred (length ls)) with j by lia. }
    apply lookup_lt_Some in Hlast as Hlen. intros i l1 r1 Hi Hr1.
    apply lookup_insert_Some in Hr1 as [(<- & [= ->])|[Hne Hr1]].
    + assert (i = pred (length ls)) as ->.
      { eapply (NoDup_lookup (ls ++ [n])); [done|exact Hi|by rewrite lookup_app_l]. }
      rewrite Hr', lookup_app_r by lia. by replace (_ - _)%nat with 0%nat by lia.
    + apply lookup_app_Some in Hi as [Hi|[Hge Hi]].
      * rewrite (Hls i l1 r1 Hi Hr1). apply lookup_lt_Some in Hi as Hlt. symmetry. apply lookup_app_l.
        destruct (decide (i = pred (length ls))) as [->|]; [congruence|lia].
      * apply list_lookup_singleton_Some in Hi as [Hi <-].
        assert (r1 = rn) as -> by congruence. rewrite Hnone. symmetry. apply lookup_ge_None.
        rewrite length_app. cbn. lia.
Qed.

Definition kept_ok (m : gmap loc (option ring)) (w : gset loc) (k : option (loc * option (gmultiset Z)))
    : Prop :=
  match k with
  | None => True
  | Some (l, None) => l ∈ w
  | Some (l, Some vs) => l ∉ w ∧ ∃ r, m !! l = Some (Some r) ∧ private_ok vs r
  end.

Record Inv (h : list (event call Z)) (q : queue) (w : gset loc) (ts : list account) : Prop := {
  inv_heap : heap_ok (mem q);
  inv_linked l : l ∈ w → ∃ r, cells (mem q) !! l = Some (Some r) ∧ ring_ok w r;
  inv_head : ∃ l, qhead q = Some l ∧ l ∈ w;
  inv_tail : ∃ l, qtail q = Some l ∧ l ∈ w;
  inv_chain : chain (cells (mem q)) w;
  inv_all l : is_Some (cells (mem q) !! l) → l ∈ w ∨ (∃ i, nrq q !! i = Some l) ∨ is_Some (dead !! l);
  inv_threads i l : nrq q !! i = Some l → (i < length ts)%nat;
  inv_nrq i t : ts !! i = Some t → nrq q !! i = fst <$> kept t;
  inv_kept i t : ts !! i = Some t → kept_ok (cells (mem q)) w (kept t);
  inv_apart i j t1 t2 l vs1 vs2 :
    i ≠ j → ts !! i = Some t1 → ts !! j = Some t2 → kept t1 = Some (l, Some vs1) →
    kept t2 ≠ Some (l, vs2);
  inv_inn i t : ts !! i = Some t → inn t = ∅ ∨ inn t = todo t;
  inv_asked : asked h = enqueued h ⊎ sum_ms todo ts;
  inv_account :
    dequeued h ⊎ sum_ms out ts ⊎ linked_ms w (cells (mem q)) ⊎ dead_ms dead =
    initially ⊎ enqueued h ⊎ sum_ms inn ts;
  inv_dead l c : dead !! l = Some c → cells (mem q) !! l = Some c ∧ l ∉ w ∧ ∀ i, nrq q !! i ≠ Some l;
}.

Definition upd (q : queue) (l : loc) (r : ring) : queue :=
  Queue (Heap (<[l := Some r]> (cells (mem q))) (brk (mem q)) (avail (mem q)))
    (qhead q) (qtail q) (nrq q).

(** *** Running an action on a ring *)

Lemma rget_run {A} q l r (f : ring → outcome A) :
  cells (mem q) !! l = Some (Some r) →
  rget (Some l) f q = match f r with Ok a => Ok (a, q) | Fail x => Fail x end.
Proof.
  intros Hl. unfold rget, on_mem, load_ring, load, mbind, M_bind. rewrite Hl. cbn.
  unfold lift. destruct (f r); [|done]. cbn. by destruct q.
Qed.

Lemma rmod_run {A} q l r (f : ring → outcome (A * ring)) :
  cells (mem q) !! l = Some (Some r) →
  rmod (Some l) f q = match f r with Ok x => Ok (x.1, upd q l x.2) | Fail x => Fail x end.
Proof.
  intros Hl. unfold rmod, on_mem, load_ring, store_ring, store, load, mbind, M_bind. rewrite Hl. cbn.
  unfold lift. destruct (f r); [|done]. cbn. by rewrite Hl.
Qed.
(** *** The invariant after an action *)

(** A step of thread [i] keeps the invariant when it keeps the parts that
    concern the shared state and the thread itself, and its account
    balances. *)
Lemma Inv_step h q q' w w' ts i t t' :
  Inv h q w ts → ts !! i = Some t →
  heap_ok (mem q') →
  (∀ l, l ∈ w' → ∃ r, cells (mem q') !! l = Some (Some r) ∧ ring_ok w' r) →
  (∃ l, qhead q' = Some l ∧ l ∈ w') → (∃ l, qtail q' = Some l ∧ l ∈ w') →
  chain (cells (mem q')) w' →
  (∀ l, is_Some (cells (mem q') !! l) → l ∈ w' ∨ (∃ j, nrq q' !! j = Some l) ∨ is_Some (dead !! l)) →
  nrq q' !! i = fst <$> kept t' → (∀ j, j ≠ i → nrq q' !! j = nrq q !! j) →
  kept_ok (cells (mem q')) w' (kept t') →
  (∀ j t2, j ≠ i → ts !! j = Some t2 → kept_ok (cells (mem q')) w' (kept t2)) →
  (∀ j t2 l vs1 vs2, j ≠ i → ts !! j = Some t2 →
    (kept t' = Some (l, Some vs1) → kept t2 ≠ Some (l, vs2)) ∧
    (kept t2 = Some (l, Some vs1) → kept t' ≠ Some (l, vs2))) →
  inn t' = ∅ ∨ inn t' = todo t' → todo t' = todo t →
  linked_ms w' (cells (mem q')) ⊎ out t' ⊎ inn t = linked_ms w (cells (mem q)) ⊎ out t ⊎ inn t' →
  (∀ l c, dead !! l = Some c → cells (mem q') !! l = Some c ∧ l ∉ w' ∧ nrq q' !! i ≠ Some l) →
  Inv h q' w' (<[i := t']> ts).
Proof.
  intros HI Ht Hheap Hlinked Hhd Htl Hch Hall Hn Hns Hk Hks Hap Hin Htodo Hacc Hdead. destruct HI.
  assert (∀ j t2, <[i := t']> ts !! j = Some t2 → j = i ∧ t2 = t' ∨ j ≠ i ∧ ts !! j = Some t2)
    as Hcase.
  { intros j t2 [(-> & -> & _)|[? ?]]%list_lookup_insert_Some; [by left|by right]. }
  constructor; [done..| | | | | | | |].
  - intros j l Hj. rewrite length_insert. destruct (decide (j = i)) as [->|Hji].
    + by eapply lookup_lt_Some.
    + rewrite Hns in Hj by done. eauto.
  - intros j t2 [[-> ->]|[? ?]]%Hcase; [done|]. rewrite Hns; eauto.
  - intros j t2 [[-> ->]|[? ?]]%Hcase; eauto.
  - intros j1 j2 t1 t2 l vs1 vs2 Hj [[-> ->]|[? ?]]%Hcase [[-> ->]|[? ?]]%Hcase; [done| | |eauto].
    + by apply (Hap j2 t2 l vs1 vs2).
    + by apply (Hap j1 t1 l vs1 vs2).
  - intros j t2 [[-> ->]|[? ?]]%Hcase; eauto.
  - pose proof (sum_ms_insert todo ts i t t' Ht) as E. rewrite Htodo in E. multiset_solver.
  - pose proof (sum_ms_insert out ts i t t' Ht) as E1.
    pose proof (sum_ms_insert inn ts i t t' Ht) as E2. clear Hdead inv_dead0. multiset_solver.
  - intros l c Hl. destruct (Hdead l c Hl) as (? & ? & Hi). split_and!; [done..|]. intros j.
    destruct (decide (j = i)) as [->|Hj]; [done|]. rewrite Hns by done. by apply (inv_dead0 l c).
Qed.

Lemma linked_ms_upd w m l r r' :
  m !! l = Some (Some r) → l ∈ w →
  linked_ms w (<[l := Some r']> m) ⊎ ring_ms r = linked_ms w m ⊎ ring_ms r'.
Proof.
  intros Hl Hw. pose proof (map_ms_insert (linked_val w) m l _ (Some r') Hl) as E.
  by rewrite !linked_val_in in E.
Qed.

Lemma linked_ms_upd_other w m l c :
  l ∉ w →
  linked_ms w (<[l := c]> m) = linked_ms w m.
Proof.
  intros Hw. unfold linked_ms. destruct (m !! l) as [c0|] eqn:E.
  - pose proof (map_ms_insert (linked_val w) m l c0 c E) as E1.
    rewrite !linked_val_out in E1 by done. multiset_solver.
  - rewrite map_ms_insert_new, linked_val_out by done. multiset_solver.
Qed.

Lemma kept_ok_upd m w k l c :
  l ∈ w → kept_ok m w k → kept_ok (<[l := c]> m) w k.
Proof.
  destruct k as [[l' [vs|]]|]; cbn; [|done..]. intros Hl (Hl' & r & Hr & ?).
  split; [done|]. exists r. split; [|done]. by rewrite lookup_insert_ne by (intros ->; done).
Qed.

Lemma heap_ok_upd (hp : rheap) l c c' :
  heap_ok hp → cells hp !! l = Some c →
  heap_ok (Heap (<[l := c']> (cells hp)) (brk hp) (avail hp)).
Proof.
  intros Hok Hl x Hx. cbn in *. apply Hok. destruct (decide (x = l)) as [->|]; [by eauto|].
  by rewrite lookup_insert_ne in Hx.
Qed.

(** An action on a linked ring. *)
Lemma Inv_upd h q w ts i t t' l r r' :
  Inv h q w ts → ts !! i = Some t → l ∈ w → cells (mem q) !! l = Some (Some r) → ring_ok w r' →
  rnext r' = rnext r → kept t' = kept t → todo t' = todo t → inn t' = ∅ ∨ inn t' = todo t' →
  ring_ms r' ⊎ out t' ⊎ inn t = ring_ms r ⊎ out t ⊎ inn t' →
  Inv h (upd q l r') w (<[i := t']> ts).
Proof.
  intros HI Ht Hl Hr Hr' Hnext Hk Htodo Hin Hacc. pose proof HI as [].
  eapply Inv_step; [done|done|..]; cbn.
  - by eapply heap_ok_upd.
  - intros l' Hl'. destruct (decide (l' = l)) as [->|].
    + exists r'. by rewrite lookup_insert_eq.
    + rewrite lookup_insert_ne by done. by apply inv_linked0.
  - done.
  - done.
  - by eapply chain_upd.
  - intros l' Hl'. destruct (decide (l' = l)) as [->|]; [by left|].
    rewrite lookup_insert_ne in Hl' by done. by apply inv_all0.
  - rewrite Hk. by eapply inv_nrq0.
  - done.
  - rewrite Hk. apply kept_ok_upd; [done|]. by eapply inv_kept0.
  - intros. apply kept_ok_upd; [done|]. by eapply inv_kept0.
  - intros j t2 l2 vs1 vs2 Hj Ht2. rewrite Hk.
    split; intros; [eapply (inv_apart0 i j)|eapply (inv_apart0 j i)]; eauto.
  - done.
  - done.
  - pose proof (linked_ms_upd w _ l r r' Hr Hl). clear inv_dead0. multiset_solver.
  - intros l' c Hl'. destruct (inv_dead0 l' c Hl') as (? & ? & ?).
    rewrite lookup_insert_ne by (intros ->; done). by split_and!.
Qed.
End inv.
