(* ===== verification/LcrqSafe.v ===== *)
(** The queue of [src/snippets/lcrq.c] under every interleaving: each action
    of [enqueue] and [dequeue] keeps the invariant of [LcrqInv], so no value is
    lost from the rings, invented or returned twice. *)

From S2P Require Import Prelude CInt Heap Proc Lcrq LcrqInv.
From stdpp Require Import gmultiset.
Local Open Scope Z_scope.

(** Replacing a part of a sum. *)
Lemma ms_swap (a b n n' o o' i i' : gmultiset Z) :
  a ⊎ n = b ⊎ n' → n' ⊎ o' ⊎ i = n ⊎ o ⊎ i' → a ⊎ o' ⊎ i = b ⊎ o ⊎ i'.
Proof. multiset_solver. Qed.

Section rules.
Context `{Primitives} {HL : PrimitivesLaws} (RING_POW : nat).
Context (initially : gmultiset Z) (dead : gmap loc (option ring)).
Abbreviation N := (RING_SIZE RING_POW).
Abbreviation safeq :=
  (safe (⊆@{gset loc}) (Inv RING_POW initially dead) (λ _ _ _ _ f, f = OutOfFuel)).

(** ** Actions on a linked ring *)

Lemma safe_read {A B} i w t l (f : ring → outcome A) (k : A → proc queue B) Q :
  l ∈ w →
  (∀ w1 r, w ⊆ w1 → ring_ok RING_POW w1 r → f r ⇓ (λ a, safeq i (k a) w1 t Q)) →
  safeq i (atomic (rget (Some l) f) ≫= k) w t Q.
Proof.
  intros Hl Hk. apply safe_atomic. intros h q w1 ts Hw HI Ht. pose proof HI as [].
  destruct (inv_linked l) as (r & Hr & Hok); [set_solver|].
  rewrite (rget_run _ _ r) by done. specialize (Hk w1 r Hw Hok).
  destruct (f r) as [a|]; [|done]. exists w1, t.
  split_and!; [done|by rewrite list_insert_id|done].
Qed.

Lemma safe_mod {A B} i w t l (f : ring → outcome (A * ring)) (k : A → proc queue B) Q :
  l ∈ w →
  (∀ w1 r, w ⊆ w1 → ring_ok RING_POW w1 r → f r ⇓ (λ x, ring_ok RING_POW w1 x.2 ∧ rnext x.2 = rnext r ∧
    ∃ t', kept t' = kept t ∧ todo t' = todo t ∧ (inn t' = ∅ ∨ inn t' = todo t') ∧
      ring_ms x.2 ⊎ out t' ⊎ inn t = ring_ms r ⊎ out t ⊎ inn t' ∧ safeq i (k x.1) w1 t' Q)) →
  safeq i (atomic (rmod (Some l) f) ≫= k) w t Q.
Proof.
  intros Hl Hk. apply safe_atomic. intros h q w1 ts Hw HI Ht. pose proof HI as [].
  destruct (inv_linked l) as (r & Hr & Hok); [set_solver|].
  rewrite (rmod_run _ _ r) by done. specialize (Hk w1 r Hw Hok).
  destruct (f r) as [x|]; [|done].
  destruct Hk as (? & ? & t' & ? & ? & ? & ? & ?). exists w1, t'. split_and!; [done| |done].
  eapply Inv_upd; try done. set_solver.
Qed.

(** An action that changes no value and no account. *)
Lemma safe_mod_same {A B} i w t l (f : ring → outcome (A * ring)) (k : A → proc queue B) Q :
  l ∈ w →
  (∀ w1 r, w ⊆ w1 → ring_ok RING_POW w1 r →
    f r ⇓ (λ x, rnext x.2 = rnext r ∧ array x.2 = array r ∧ words RING_POW x.2 ∧ safeq i (k x.1) w1 t Q)) →
  (inn t = ∅ ∨ inn t = todo t) →
  safeq i (atomic (rmod (Some l) f) ≫= k) w t Q.
Proof.
  intros Hl Hk Hin. apply safe_mod; [done|]. intros w1 r Hw Hok.
  eapply yields_mono; [by apply Hk|]. intros [a r'] (Hn & Ha & Hwords & Hs). cbn in *.
  split; [destruct Hok as (? & ? & _); by unfold ring_ok; rewrite Hn, Ha|]. split; [done|].
  exists t. split_and!; [done..| |done]. unfold ring_ms. by rewrite Ha.
Qed.

Lemma safe_read_head {B} i w t l (k : Z → proc queue B) Q :
  l ∈ w → (∀ w1 a, w ⊆ w1 → safeq i (k a) w1 t Q) →
  safeq i (atomic (read_head (Some l)) ≫= k) w t Q.
Proof. intros Hl Hk. apply safe_read; [done|]. intros. by apply Hk. Qed.

Lemma safe_read_tail {B} i w t l (k : Z → proc queue B) Q :
  l ∈ w → (∀ w1 a, w ⊆ w1 → safeq i (k a) w1 t Q) →
  safeq i (atomic (read_tail (Some l)) ≫= k) w t Q.
Proof. intros Hl Hk. apply safe_read; [done|]. intros. by apply Hk. Qed.

Lemma safe_read_next {B} i w t l (k : ptr → proc queue B) Q :
  l ∈ w → (∀ w1 p, w ⊆ w1 → (∀ n, p = Some n → n ∈ w1) → safeq i (k p) w1 t Q) →
  safeq i (atomic (read_next (Some l)) ≫= k) w t Q.
Proof. intros Hl Hk. apply safe_read; [done|]. intros w1 r ? (_ & ? & _). by apply Hk. Qed.

(** The cell of a ticket is in the array. *)
Lemma slot_range t : 0 ≤ slot RING_POW t < N.
Proof.
  unfold slot, RING_SIZE. rewrite Z.sub_1_r, <-Z.ones_equiv, Z.land_ones by lia.
  apply Z.mod_pos_bound. lia.
Qed.

Lemma slot_cell w r t :
  ring_ok RING_POW w r →
  ∃ n, array r !! Z.to_nat (slot RING_POW t) = Some n ∧ rd (array r) (slot RING_POW t) = Ok n.
Proof.
  intros (Hlen & _). pose proof (slot_range t).
  destruct (lookup_lt_is_Some_2 (array r) (Z.to_nat (slot RING_POW t))) as [n Hn]; [lia|].
  exists n. split; [done|]. apply rd_Some; [lia|done].
Qed.

Lemma safe_read_idx {B} i w t l a (k : Z → proc queue B) Q :
  l ∈ w → (∀ w1 x, w ⊆ w1 → safeq i (k x) w1 t Q) →
  safeq i (atomic (read_idx (Some l) (slot RING_POW a)) ≫= k) w t Q.
Proof.
  intros Hl Hk. apply safe_read; [done|]. intros w1 r ? Hok.
  destruct (slot_cell w1 r a Hok) as (n & _ & ->). ok_simpl. by apply Hk.
Qed.

Lemma safe_read_val {B} i w t l a (k : Z → proc queue B) Q :
  l ∈ w → (∀ w1 x, w ⊆ w1 → safeq i (k x) w1 t Q) →
  safeq i (atomic (read_val (Some l) (slot RING_POW a)) ≫= k) w t Q.
Proof.
  intros Hl Hk. apply safe_read; [done|]. intros w1 r ? Hok.
  destruct (slot_cell w1 r a Hok) as (n & _ & ->). ok_simpl. by apply Hk.
Qed.

(** [CAS2] on a cell: when it fails nothing changes, when it succeeds the
    value [o1] gives way to [n1]. *)
Lemma safe_CAS2 {B} i w t l a o1 o2 n1 n2 (k : bool → proc queue B) Q :
  l ∈ w → (inn t = ∅ ∨ inn t = todo t) →
  (∀ w1, w ⊆ w1 → safeq i (k false) w1 t Q) →
  (∀ w1, w ⊆ w1 → ∃ t', kept t' = kept t ∧ todo t' = todo t ∧ (inn t' = ∅ ∨ inn t' = todo t') ∧
    node_ms (RingNode n1 n2) ⊎ out t' ⊎ inn t = node_ms (RingNode o1 o2) ⊎ out t ⊎ inn t' ∧
    safeq i (k true) w1 t' Q) →
  safeq i (atomic (CAS2 (Some l) (slot RING_POW a) o1 o2 n1 n2) ≫= k) w t Q.
Proof.
  intros Hl Hin Hf Ht. apply safe_mod; [done|]. intros w1 r Hw Hok.
  destruct (slot_cell w1 r a Hok) as (n & Hn & ->). ok_simpl.
  case_bool_decide as Hc; [|cbn; split; [done|]; split; [done|]; exists t; split_and!; auto].
  destruct Hc as [<- <-]. pose proof (slot_range a). destruct Hok as (Hlen & Hnext & Hwords).
  unfold wr. rewrite bool_decide_true by lia. ok_simpl. cbn [fst snd].
  split; [by split; cbn; rewrite ?length_insert|]. split; [done|].
  destruct (Ht w1 Hw) as (t' & ? & ? & ? & ? & ?). exists t'. split_and!; [done..| |done].
  destruct n as [v x]. pose proof (sum_ms_insert node_ms _ _ _ (RingNode n1 n2) Hn) as E.
  by eapply ms_swap.
Qed.

(** ** The globals *)

Lemma safe_read_qhead {B} i w t (k : ptr → proc queue B) Q :
  (∀ w1 l, w ⊆ w1 → l ∈ w1 → safeq i (k (Some l)) w1 t Q) →
  safeq i (atomic read_qhead ≫= k) w t Q.
Proof.
  intros Hk. apply safe_atomic. intros h q w1 ts Hw HI Ht.
  change (read_qhead q) with (Ok (qhead q, q)).
  destruct (inv_head _ _ _ _ _ _ _ HI) as (l & -> & Hl). exists w1, t.
  split_and!; [done|by rewrite list_insert_id|by apply Hk].
Qed.

Lemma safe_read_qtail {B} i w t (k : ptr → proc queue B) Q :
  (∀ w1 l, w ⊆ w1 → l ∈ w1 → safeq i (k (Some l)) w1 t Q) →
  safeq i (atomic read_qtail ≫= k) w t Q.
Proof.
  intros Hk. apply safe_atomic. intros h q w1 ts Hw HI Ht.
  change (read_qtail q) with (Ok (qtail q, q)).
  destruct (inv_tail _ _ _ _ _ _ _ HI) as (l & -> & Hl). exists w1, t.
  split_and!; [done|by rewrite list_insert_id|by apply Hk].
Qed.

(** Another linked ring becomes the head or the tail. *)
Lemma Inv_globals h q w ts p p' :
  Inv RING_POW initially dead h q w ts → (∃ l, p = Some l ∧ l ∈ w) → (∃ l, p' = Some l ∧ l ∈ w) →
  Inv RING_POW initially dead h (Queue (mem q) p p' (nrq q)) w ts.
Proof. intros [] ??. by constructor. Qed.

Lemma CASPTR_either p o n : (CASPTR p o n).2 = p ∨ (CASPTR p o n).2 = n.
Proof using HL. rewrite CASPTR_law. case_decide; auto. Qed.

Lemma safe_cas_qtail {B} i w t o n (k : bool → proc queue B) Q :
  n ∈ w → (∀ w1 b, w ⊆ w1 → safeq i (k b) w1 t Q) →
  safeq i (atomic (cas_qtail o (Some n)) ≫= k) w t Q.
Proof using HL.
  intros Hn Hk. apply safe_atomic. intros h q w1 ts Hw HI Ht.
  change (cas_qtail o (Some n) q) with
    (Ok ((CASPTR (qtail q) o (Some n)).1, Queue (mem q) (qhead q) (CASPTR (qtail q) o (Some n)).2 (nrq q))).
  exists w1, t. split_and!; [done| |by apply Hk]. rewrite list_insert_id by done.
  apply Inv_globals; [done|by destruct HI|].
  destruct (CASPTR_either (qtail q) o (Some n)) as [->| ->]; [by destruct HI|set_solver].
Qed.

Lemma safe_cas_qhead {B} i w t o n (k : bool → proc queue B) Q :
  n ∈ w → (∀ w1 b, w ⊆ w1 → safeq i (k b) w1 t Q) →
  safeq i (atomic (cas_qhead o (Some n)) ≫= k) w t Q.
Proof using HL.
  intros Hn Hk. apply safe_atomic. intros h q w1 ts Hw HI Ht.
  change (cas_qhead o (Some n) q) with
    (Ok ((CASPTR (qhead q) o (Some n)).1, Queue (mem q) (CASPTR (qhead q) o (Some n)).2 (qtail q) (nrq q))).
  exists w1, t. split_and!; [done| |by apply Hk]. rewrite list_insert_id by done.
  apply Inv_globals; [done| |by destruct HI].
  destruct (CASPTR_either (qhead q) o (Some n)) as [->| ->]; [by destruct HI|set_solver].
Qed.

(** ** The ring a thread keeps *)

Definition set_kept (k : option (loc * option (gmultiset Z))) (t : account) : account :=
  Account k (todo t) (inn t) (out t).

Lemma safe_read_nrq {B} i w t (k : ptr → proc queue B) Q :
  (∀ w1, w ⊆ w1 → safeq i (k (fst <$> kept t)) w1 t Q) →
  safeq i (atomic (read_nrq i) ≫= k) w t Q.
Proof.
  intros Hk. apply safe_atomic. intros h q w1 ts Hw HI Ht.
  change (read_nrq i q) with (Ok (nrq q !! i, q)).
  rewrite (inv_nrq _ _ _ _ _ _ _ HI i t Ht). exists w1, t.
  split_and!; [done|by rewrite list_insert_id|by apply Hk].
Qed.

Lemma init_ring_private : private_ok RING_POW ∅ (init_ring RING_POW).
Proof.
  assert (∀ n, n ∈ array (init_ring RING_POW) → node_ms n = ∅) as Hms.
  { intros n (j & -> & _)%list_elem_of_fmap. reflexivity. }
  split_and!; [|done| |by apply sum_ms_empty|done].
  - unfold init_ring. cbn [array]. rewrite length_fmap, length_seq. unfold RING_SIZE. lia.
  - apply sum_ms_empty. intros n Hn. apply Hms.
    rewrite <-(take_drop 1 (array (init_ring RING_POW))). apply elem_of_app. by right.
Qed.

(** What happens to a block that is not linked does not concern the threads
    that do not keep it. *)
Lemma kept_ok_private m w k l c :
  (∀ vs, k ≠ Some (l, Some vs)) → kept_ok RING_POW m w k → kept_ok RING_POW (<[l := c]> m) w k.
Proof.
  destruct k as [[l' [vs|]]|]; cbn; [|done..]. intros Hne (Hl' & r & Hr & ?).
  split; [done|]. exists r. split; [|done].
  rewrite lookup_insert_ne; [done|]. intros ->. by apply (Hne vs).
Qed.

Lemma Inv_private h q w ts i t l vs' r' (m' : rheap) nrq' :
  Inv RING_POW initially dead h q w ts → ts !! i = Some t →
  heap_ok m' → cells m' = <[l := Some r']> (cells (mem q)) → l ∉ w →
  nrq' !! i = Some l → (∀ j, j ≠ i → nrq' !! j = nrq q !! j) →
  private_ok RING_POW vs' r' →
  (∀ l', nrq q !! i = Some l' → l' = l) →
  (∀ j t2 vs, j ≠ i → ts !! j = Some t2 → kept t2 ≠ Some (l, vs)) → dead !! l = None →
  Inv RING_POW initially dead h (Queue m' (qhead q) (qtail q) nrq') w
    (<[i := set_kept (Some (l, Some vs')) t]> ts).
Proof.
  intros HI Ht Hheap Hm Hl Hn Hns Hr Hsame Hap Hfresh. pose proof HI as [].
  eapply Inv_step; [done|done|..]; cbn [mem qhead qtail nrq kept todo inn out set_kept].
  - done.
  - intros l' Hl'. rewrite Hm, lookup_insert_ne by (intros ->; done). by apply inv_linked.
  - done.
  - done.
  - rewrite Hm. by apply chain_other.
  - intros l'. rewrite Hm. intros [c Hc]. destruct (decide (l' = l)) as [->|]; [by eauto|].
    rewrite lookup_insert_ne in Hc by done. destruct (inv_all l') as [?|[[j Hj]|?]]; [by eauto|by left| |by auto].
    right; left. exists j. rewrite Hns; [done|]. intros ->. by apply Hsame in Hj.
  - done.
  - done.
  - split; [done|]. exists r'. split; [|done]. by rewrite Hm, lookup_insert_eq.
  - intros j t2 Hj Ht2. rewrite Hm. apply kept_ok_private; [|by eapply inv_kept].
    intros vs. by eapply Hap.
  - intros j t2 l2 vs1 vs2 Hj Ht2. split.
    + intros [= <- <-]. by eapply Hap.
    + intros Hk [= <- _]. by eapply Hap.
  - by eapply inv_inn.
  - done.
  - rewrite Hm, linked_ms_upd_other by done. multiset_solver.
  - intros l' c Hl'. destruct (inv_dead l' c Hl') as (? & ? & _). assert (l' ≠ l) by (intros ->; congruence).
    rewrite Hm, lookup_insert_ne, Hn by done. split_and!; [done..|congruence].
Qed.

Lemma wp_alloc_nrq i q (Q : unit → queue → Prop) :
  heap_ok (mem q) →
  (∀ l hp, cells (mem q) !! l = None →
    cells hp = <[l := Some (init_ring RING_POW)]> (cells (mem q)) → heap_ok hp →
    Q tt (Queue hp (qhead q) (qtail q) (<[i := l]> (nrq q)))) →
  wp (alloc_nrq RING_POW i) Q q.
Proof using HL.
  intros Hok HQ. unfold alloc_nrq. apply wp_bind. unfold on_mem at 1.
  assert (wp getMemory (λ p hp, ∃ l, p = Some l ∧ cells (mem q) !! l = None ∧
    cells hp = <[l := None]> (cells (mem q)) ∧ heap_ok hp) (mem q)) as Hget
    by (apply getMemory_law; [done|]; eauto).
  unfold wp in Hget. unfold wp at 1. destruct (getMemory (mem q)) as [[p hp]|]; [|done].
  destruct Hget as (l & Hp & Hfresh & Hc & Hok1). cbn in Hp, Hc, Hok1. subst p. cbn [yields fst snd].
  apply wp_bind. unfold on_mem, store_ring, store, wp at 1. cbn [mem].
  assert (cells hp !! l = Some None) as Hnew by (by rewrite Hc, lookup_insert_eq).
  rewrite Hnew. cbn. apply (HQ l); [done| |by eapply heap_ok_upd].
  cbn. by rewrite Hc, insert_insert_eq.
Qed.

Lemma safe_alloc_nrq {B} i w t (k : unit → proc queue B) Q :
  kept t = None →
  (∀ w1 l, w ⊆ w1 → safeq i (k tt) w1 (set_kept (Some (l, Some ∅)) t) Q) →
  safeq i (atomic (alloc_nrq RING_POW i) ≫= k) w t Q.
Proof using HL.
  intros Hkept Hk. apply safe_atomic. intros h q w1 ts Hw HI Ht. pose proof HI as [].
  assert (wp (alloc_nrq RING_POW i) (λ _ q', ∃ l, Inv RING_POW initially dead h q' w1
    (<[i := set_kept (Some (l, Some ∅)) t]> ts)) q) as Hwp.
  2: { unfold wp in Hwp. destruct (alloc_nrq RING_POW i q) as [[[] q']|]; [|done].
       destruct Hwp as [l Hl]. exists w1. eexists. split_and!; [done|exact Hl|by apply Hk]. }
  apply wp_alloc_nrq; [done|]. intros l hp Hfresh Hc Hok. exists l.
  apply (Inv_private h q w1 ts i t l ∅ (init_ring RING_POW)); [done..| | | | | | |].
  - intros Hl. destruct (inv_linked l Hl) as (r & ? & _). congruence.
  - by rewrite lookup_insert_eq.
  - intros j Hj. by rewrite lookup_insert_ne.
  - apply init_ring_private.
  - intros l'. by rewrite (inv_nrq i t Ht), Hkept.
  - intros j t2 vs Hj Ht2 Hk2. pose proof (inv_kept j t2 Ht2) as Hk3. rewrite Hk2 in Hk3.
    destruct vs as [vs|]; cbn in Hk3.
    + destruct Hk3 as (_ & r & ? & _). congruence.
    + destruct (inv_linked l Hk3) as (r & ? & _). congruence.
  - destruct (dead !! l) as [c|] eqn:Hd; [|done]. destruct (inv_dead l c Hd) as (? & _). congruence.
Qed.

(** Writing to the ring that the thread keeps. *)
Lemma safe_mod_private {A B} i w t l vs vs' (f : ring → outcome (A * ring)) (k : A → proc queue B) Q :
  kept t = Some (l, Some vs) →
  (∀ r, private_ok RING_POW vs r → f r ⇓ (λ x, private_ok RING_POW vs' x.2 ∧
    ∀ w1, w ⊆ w1 → safeq i (k x.1) w1 (set_kept (Some (l, Some vs')) t) Q)) →
  safeq i (atomic (rmod (Some l) f) ≫= k) w t Q.
Proof.
  intros Hkept Hk. apply safe_atomic. intros h q w1 ts Hw HI Ht. pose proof HI as [].
  pose proof (inv_kept i t Ht) as Hki. rewrite Hkept in Hki. destruct Hki as (Hl & r & Hr & Hp).
  rewrite (rmod_run _ _ r) by done. specialize (Hk r Hp).
  destruct (f r) as [x|]; [|done]. destruct Hk as [Hp' Hk]. exists w1.
  eexists. split_and!; [done| |by apply Hk].
  apply (Inv_private _ _ _ _ _ _ _ _ x.2); [done|done| |done|done| |done|done| | |].
  - by eapply heap_ok_upd.
  - rewrite (inv_nrq i t Ht), Hkept. done.
  - intros l'. rewrite (inv_nrq i t Ht), Hkept. by intros [= ->].
  - intros j t2 vs2 Hj Ht2. by eapply (inv_apart i j).
  - destruct (dead !! l) as [c|] eqn:Hd; [|done]. destruct (inv_dead l c Hd) as (_ & _ & Hno).
    destruct (Hno i). by rewrite (inv_nrq i t Ht), Hkept.
Qed.

(** Linking the ring that the thread keeps makes its values available. *)
Lemma linked_ms_publish w m n r :
  m !! n = Some (Some r) → n ∉ w → linked_ms ({[n]} ∪ w) m = linked_ms w m ⊎ ring_ms r.
Proof.
  intros Hn Hw. unfold linked_ms. rewrite !(map_ms_delete _ _ _ _ Hn).
  rewrite linked_val_in, linked_val_out by set_solver.
  rewrite (map_ms_ext (linked_val ({[n]} ∪ w)) (linked_val w)); [multiset_solver|].
  intros l c [Hne _]%lookup_delete_Some. destruct c as [r'|]; cbn; [|done].
  destruct (decide (l ∈ w)); [by rewrite decide_True by set_solver|].
  by rewrite decide_False by set_solver.
Qed.

Lemma kept_ok_grow m w n k :
  (∀ vs, k ≠ Some (n, Some vs)) → kept_ok RING_POW m w k → kept_ok RING_POW m ({[n]} ∪ w) k.
Proof.
  destruct k as [[l [vs|]]|]; cbn; [|set_solver|done]. intros Hne [Hl Hr]. split; [|done].
  intros [->%elem_of_singleton|?]%elem_of_union; [by apply (Hne vs)|done].
Qed.

Lemma Inv_publish h q w ts i t l n r r' :
  Inv RING_POW initially dead h q w ts → ts !! i = Some t → l ∈ w →
  cells (mem q) !! l = Some (Some r) → rnext r = None → rnext r' = Some n → array r' = array r →
  rhead r' = rhead r → rtail r' = rtail r →
  kept t = Some (n, Some (todo t)) → inn t = ∅ →
  Inv RING_POW initially dead h (upd q l r') ({[n]} ∪ w)
    (<[i := Account (Some (n, None)) (todo t) (todo t) (out t)]> ts).
Proof.
  intros HI Ht Hl Hr Hnone Hn' Ha' Hh' Ht' Hk Hin. pose proof HI as [].
  pose proof (inv_kept i t Ht) as Hki. rewrite Hk in Hki. destruct Hki as (Hn & rn & Hrn & Hp).
  destruct Hp as (Hlen & Hnext & _ & Hms & Hwn). assert (n ≠ l) as Hnl by (intros ->; done).
  assert (cells (mem (upd q l r')) !! n = Some (Some rn)) as Hrn'
    by (cbn; by rewrite lookup_insert_ne).
  destruct (inv_linked l Hl) as (r0 & Hr0 & Hlen0 & _ & Hwl). assert (r0 = r) as -> by congruence.
  eapply Inv_step; [done|done|..]; cbn [qhead qtail nrq upd kept todo inn out].
  - by eapply heap_ok_upd.
  - intros l' Hl'. destruct (decide (l' = n)) as [->|Hl'n].
    { exists rn. split; [done|]. split_and!; [done|by rewrite Hnext|done]. }
    destruct (decide (l' = l)) as [->|Hl'l].
    + exists r'. split; [cbn; by rewrite lookup_insert_eq|].
      split_and!; [by rewrite Ha'|rewrite Hn'; intros ? [= <-]; set_solver|].
      unfold words. by rewrite Hh', Ht'.
    + destruct (inv_linked l') as (r1 & Hr1 & Hlen1 & Hnx1 & Hw1); [set_solver|].
      exists r1. split; [cbn; by rewrite lookup_insert_ne|]. split_and!; [done|set_solver|done].
  - set_solver.
  - set_solver.
  - by eapply chain_publish.
  - intros l' Hl'. destruct (decide (l' = l)) as [->|]; [left; set_solver|].
    cbn in Hl'. rewrite lookup_insert_ne in Hl' by done.
    destruct (inv_all l' Hl') as [?|?]; [left; set_solver|by right].
  - by rewrite (inv_nrq i t Ht), Hk.
  - done.
  - cbn. set_solver.
  - intros j t2 Hj Ht2. apply kept_ok_grow; [intros vs; by eapply (inv_apart i j)|].
    apply kept_ok_upd; [done|]. by eapply inv_kept.
  - intros j t2 l2 vs1 vs2 Hj Ht2. split; [done|]. intros Hk2 [= -> _].
    by eapply (inv_apart i j).
  - by right.
  - done.
  - rewrite (linked_ms_publish w _ n rn Hrn' Hn), Hms, Hin.
    pose proof (linked_ms_upd w _ l r r' Hr Hl) as E. unfold ring_ms in E. rewrite Ha' in E.
    cbn [mem cells upd]. clear inv_dead. multiset_solver.
  - intros l' c Hl'. destruct (inv_dead l' c Hl') as (? & Hnw & Hno).
    cbn. rewrite lookup_insert_ne by (intros ->; done). split_and!; [done| |by apply Hno].
    intros [->%elem_of_singleton|?]%elem_of_union; [|done]. destruct (Hno i). by rewrite (inv_nrq i t Ht), Hk.
Qed.

Lemma safe_publish {B} i w t l n (k : bool → proc queue B) Q :
  l ∈ w → kept t = Some (n, Some (todo t)) → inn t = ∅ →
  (∀ w1, w ⊆ w1 → n ∈ w1 →
    safeq i (k true) w1 (Account (Some (n, None)) (todo t) (todo t) (out t)) Q) →
  (∀ w1, w ⊆ w1 → safeq i (k false) w1 t Q) →
  safeq i (atomic (cas_next (Some l) None (Some n)) ≫= k) w t Q.
Proof using HL.
  intros Hl Hk Hin Htrue Hfalse. apply safe_atomic. intros h q w1 ts Hw HI Ht. pose proof HI as [].
  destruct (inv_linked l) as (r & Hr & Hok); [set_solver|].
  unfold cas_next. rewrite (rmod_run _ _ r) by done. rewrite CASPTR_law.
  destruct (decide (rnext r = None)) as [Hnone|Hsome]; cbn [fst snd].
  - exists ({[n]} ∪ w1). eexists. split_and!; [set_solver| |apply Htrue; set_solver].
    eapply Inv_publish; try done. set_solver.
  - exists w1, t. split_and!; [done| |by apply Hfalse].
    eapply Inv_upd; try done; [set_solver|by left].
Qed.

Lemma safe_clear_nrq {B} i w t l (k : unit → proc queue B) Q :
  kept t = Some (l, None) → (∀ w1, w ⊆ w1 → safeq i (k tt) w1 (set_kept None t) Q) →
  safeq i (atomic (clear_nrq i) ≫= k) w t Q.
Proof.
  intros Hkept Hk. apply safe_atomic. intros h q w1 ts Hw HI Ht. pose proof HI as [].
  change (clear_nrq i q) with (Ok (tt, Queue (mem q) (qhead q) (qtail q) (delete i (nrq q)))).
  exists w1, (set_kept None t). split_and!; [done| |by apply Hk].
  eapply Inv_step; [done|done|..]; cbn [mem qhead qtail nrq kept todo inn out set_kept]; try done.
  - intros l' Hl'. destruct (inv_all l' Hl') as [?|[[j Hj]|?]]; [by left| |by auto].
    destruct (decide (j = i)) as [->|]; [|right; left; exists j; by rewrite lookup_delete_ne].
    left. rewrite (inv_nrq i t Ht), Hkept in Hj. injection Hj as <-.
    pose proof (inv_kept i t Ht) as Hki. by rewrite Hkept in Hki.
  - by rewrite lookup_delete_eq.
  - intros j Hj. by rewrite lookup_delete_ne.
  - intros j t2 ? Ht2. by eapply inv_kept.
  - by eapply inv_inn.
  - intros l' c Hl'. destruct (inv_dead l' c Hl') as (? & ? & _). by rewrite lookup_delete_eq.
Qed.

(** ** Programs *)

Lemma safe_out_of_fuel {A} i w t (Q : _ → _ → A → Prop) : safeq i (stop OutOfFuel) w t Q.
Proof. by intros h s w1 ts. Qed.

Lemma lor_word a : 0 ≤ a < U64_MOD → 0 ≤ Z.lor a BIT63 < U64_MOD.
Proof.
  intros Ha. unfold U64_MOD, BIT63 in *.
  assert (0 ≤ Z.lor a (2 ^ 63)) by (apply Z.lor_nonneg; lia). split; [done|].
  destruct (decide (Z.lor a (2 ^ 63) = 0)) as [->|]; [done|].
  apply Z.log2_lt_pow2; [lia|]. rewrite Z.log2_lor by lia.
  destruct (decide (a = 0)) as [->|]; [done|]. apply Z.max_lub_lt; [|done]. apply Z.log2_lt_pow2; lia.
Qed.

Lemma safe_faa_tail {B} i w t l n (k : Z → proc queue B) Q :
  l ∈ w → (inn t = ∅ ∨ inn t = todo t) → (∀ w1 a, w ⊆ w1 → safeq i (k a) w1 t Q) →
  safeq i (atomic (faa_tail (Some l) n) ≫= k) w t Q.
Proof using HL.
  intros Hl Hin Hk. apply safe_mod_same; [done| |done]. intros w1 r ? (_ & _ & Hr). cbv zeta.
  rewrite FAA64_law. split_and!; [done|done|intros [? _]%Hr; by split; [|apply u64_range]|by apply Hk].
Qed.

(** What is read from [head] is a word. *)
Lemma safe_faa_head {B} i w t l n (k : Z → proc queue B) Q :
  l ∈ w → (inn t = ∅ ∨ inn t = todo t) →
  (∀ w1 a, w ⊆ w1 → (N ≤ 2 ^ 63 → 0 ≤ a < U64_MOD) → safeq i (k a) w1 t Q) →
  safeq i (atomic (faa_head (Some l) n) ≫= k) w t Q.
Proof using HL.
  intros Hl Hin Hk. apply safe_mod_same; [done| |done]. intros w1 r ? (_ & _ & Hr). cbv zeta.
  rewrite FAA64_law. split_and!; [done|done|intros [_ ?]%Hr; by split; [apply u64_range|]|].
  apply Hk; [done|]. by intros [? _]%Hr.
Qed.

Lemma safe_cas_tail {B} i w t l o n (k : bool → proc queue B) Q :
  l ∈ w → (inn t = ∅ ∨ inn t = todo t) → (N ≤ 2 ^ 63 → 0 ≤ n < U64_MOD) →
  (∀ w1 a, w ⊆ w1 → safeq i (k a) w1 t Q) →
  safeq i (atomic (cas_tail (Some l) o n) ≫= k) w t Q.
Proof using HL.
  intros Hl Hin Hn Hk. apply safe_mod_same; [done| |done]. intros w1 r ? (_ & _ & Hr). cbv zeta.
  rewrite CAS64_law. split_and!; [done|done| |by apply Hk].
  intros HN. destruct (Hr HN), (decide (rtail r = o)); split; auto.
Qed.

Lemma safe_bts_tail {B} i w t l (k : bool → proc queue B) Q :
  l ∈ w → (inn t = ∅ ∨ inn t = todo t) → (∀ w1 a, w ⊆ w1 → safeq i (k a) w1 t Q) →
  safeq i (atomic (bts_tail (Some l)) ≫= k) w t Q.
Proof.
  intros Hl Hin Hk. apply safe_mod_same; [done| |done]. intros w1 r ? (_ & _ & Hr).
  split_and!; [done|done|intros [? ?]%Hr; by split; [|apply lor_word]|by apply Hk].
Qed.

Lemma fixState_safe fuel i w t l (Q : _ → _ → unit → Prop) :
  l ∈ w → (inn t = ∅ ∨ inn t = todo t) → (∀ w1, w ⊆ w1 → Q w1 t tt) →
  safeq i (fixState fuel (Some l)) w t Q.
Proof.
  revert w. induction fuel as [|fuel IH]; intros w Hl Hin HQ; [apply safe_out_of_fuel|]. cbn [fixState].
  apply safe_faa_tail; [done..|]. intros w1 t1 Hw1.
  apply safe_faa_head; [set_solver|done|]. intros w2 h Hw2 Hh.
  apply safe_read_tail; [set_solver|]. intros w3 t2 Hw3.
  case_bool_decide; [apply IH; [set_solver|done|]; intros; apply HQ; set_solver|].
  case_bool_decide; [|apply HQ; set_solver].
  apply safe_cas_tail; [set_solver|done|done|]. intros w4 [] Hw4; [apply HQ; set_solver|].
  apply IH; [set_solver|done|]. intros; apply HQ; set_solver.
Qed.

Lemma close_crq_safe i w t l a tries (Q : _ → _ → bool → Prop) :
  l ∈ w → (inn t = ∅ ∨ inn t = todo t) → (∀ w1 b, w ⊆ w1 → Q w1 t b) →
  safeq i (close_crq (Some l) a tries) w t Q.
Proof.
  intros Hl Hin HQ. unfold close_crq. case_bool_decide; apply safe_last.
  - apply safe_cas_tail; [done..|intros _; apply lor_word, u64_range|]. intros. by apply HQ.
  - apply safe_bts_tail; [done..|]. intros. by apply HQ.
Qed.
End rules.
