(* ===== verification/LcrqClaims.v ===== *)
(** The properties of the queue of [src/snippets/lcrq.c] that hold under every
    interleaving, rings that are out of reach, and an interleaving that loses
    values. *)

From S2P Require Import Prelude CInt Heap Proc Lcrq LcrqInv LcrqSafe.
From stdpp Require Import gmultiset.
Local Open Scope Z_scope.

Section operations.
Context `{Primitives} {HL : PrimitivesLaws} (RING_POW : nat).
Context (initially : gmultiset Z) (dead : gmap loc (option ring)).
Abbreviation safeq :=
  (safe (⊆@{gset loc}) (Inv RING_POW initially dead) (λ _ _ _ _ f, f = OutOfFuel)).

(** The ring a thread keeps between calls, if any, is not linked. *)
Definition unlinked (k : option (loc * option (gmultiset Z))) : Prop :=
  match k with Some (_, None) => False | _ => True end.

(** A call of [enqueue] that has not put its value yet, and one that has. *)
Definition started (v : Z) (t : account) : Prop :=
  todo t = {[+ v +]} ∧ inn t = ∅ ∧ out t = ∅ ∧ unlinked (kept t).
Definition finished (v : Z) (t : account) : Prop :=
  todo t = {[+ v +]} ∧ inn t = {[+ v +]} ∧ out t = ∅ ∧ unlinked (kept t).

(** A call of [dequeue] that holds the values [m]. *)
Definition taking (m : gmultiset Z) (t : account) : Prop :=
  todo t = ∅ ∧ inn t = ∅ ∧ out t = m ∧ unlinked (kept t).

Lemma node_ms_EMPTY x : node_ms (RingNode EMPTY x) = ∅.
Proof. done. Qed.

Lemma node_ms_value v x : v ≠ EMPTY → node_ms (RingNode v x) = {[+ v +]}.
Proof. intros Hv. unfold node_ms, is_empty. cbn. by rewrite bool_decide_false. Qed.

(** The ring that a thread keeps, with [arg] in its first cell. *)
Lemma private_write_val r vs arg :
  arg ≠ EMPTY → private_ok RING_POW vs r →
  (n ← rd (array r) 0; a ← wr (array r) 0 (RingNode arg (idx n)); Ok (tt, set_array a r))
  ⇓ (λ x, private_ok RING_POW {[+ arg +]} x.2).
Proof.
  intros Harg (Hlen & Hnext & Hrest & _ & Hwords). unfold RING_SIZE in Hlen.
  destruct (array r) as [|n ns] eqn:E; [cbn in Hlen; lia|].
  rewrite (rd_Some _ _ n) by done. ok_simpl. unfold wr.
  rewrite bool_decide_true by (cbn [length]; lia). cbn. split_and!; [done|done|done| |done].
  unfold ring_ms, set_array. cbn [array]. change (<[Z.to_nat 0 := ?x]> (n :: ns)) with (x :: ns).
  rewrite sum_ms_cons, node_ms_value by done. change (drop 1 (n :: ns)) with ns in Hrest. rewrite Hrest. multiset_solver.
Qed.

Lemma private_write_idx r vs x :
  private_ok RING_POW vs r →
  (n ← rd (array r) 0; a ← wr (array r) 0 (RingNode (val n) x); Ok (tt, set_array a r))
  ⇓ (λ y, private_ok RING_POW vs y.2).
Proof.
  intros (Hlen & Hnext & Hrest & Hms & Hwords). unfold RING_SIZE in Hlen.
  unfold ring_ms in Hms. destruct (array r) as [|n ns] eqn:E; [cbn in Hlen; lia|].
  rewrite (rd_Some _ _ n) by done. ok_simpl. unfold wr.
  rewrite bool_decide_true by (cbn [length]; lia). cbn. split_and!; [done|done|done| |done].
  unfold ring_ms, set_array. cbn [array]. change (<[Z.to_nat 0 := ?y]> (n :: ns)) with (y :: ns).
  rewrite sum_ms_cons in Hms |- *. done.
Qed.

Lemma enqueue_alloc_fill i w t l rq arg n vs (Q : _ → _ → bool → Prop) :
  arg ≠ EMPTY → started arg t → l ∈ w → rq = Some l → kept t = Some (n, Some vs) →
  (∀ w1 t', w ⊆ w1 → finished arg t' → Q w1 t' true) →
  (∀ w1 t', w ⊆ w1 → started arg t' → Q w1 t' false) →
  safeq i (p ← atomic (read_nrq i);
    atomic (write_tail p 1);; atomic (write_val p 0 arg);; atomic (write_idx p 0 0);;
    b ← atomic (cas_next rq None p);
    if (b : bool) then atomic (cas_qtail rq p);; atomic (clear_nrq i);; mret true
    else mret false) w t Q.
Proof using HL.
  intros Harg (Htodo & Hinn & Hout & _) Hl -> Hk HQ1 HQ2.
  apply safe_read_nrq. intros w1 Hw1. rewrite Hk. cbn [fmap option_fmap option_map fst].
  eapply (safe_mod_private _ _ _ _ _ _ _ vs); [done|]. intros r Hr.
  split; [destruct Hr as (? & ? & ? & ? & Hwords); split_and!; [done..|intros [? _]%Hwords; by split]|].
  intros w2 Hw2. eapply (safe_mod_private _ _ _ _ _ _ _ _ {[+ arg +]}); [reflexivity|].
  intros r1 Hr1. eapply yields_mono; [by eapply private_write_val|]. intros [[] r1'] Hr1'.
  split; [done|]. intros w3 Hw3.
  eapply (safe_mod_private _ _ _ _ _ _ _ _ {[+ arg +]}); [reflexivity|]. intros r2 Hr2.
  eapply yields_mono; [by eapply private_write_idx|]. intros [[] r2'] Hr2'.
  split; [done|]. intros w4 Hw4.
  apply safe_publish; [set_solver|cbn [kept set_kept todo]; by rewrite Htodo|done| |].
  - intros w5 Hw5 Hn. apply safe_cas_qtail; [done|]. intros w6 _ Hw6.
    eapply safe_clear_nrq; [done|]. intros w7 Hw7. apply HQ1; [set_solver|].
    by split_and!; cbn.
  - intros w5 Hw5. apply HQ2; [set_solver|]. by split_and!; cbn.
Qed.

Lemma enqueue_alloc_safe i w t l arg (Q : _ → _ → bool → Prop) :
  arg ≠ EMPTY → started arg t → l ∈ w →
  (∀ w1 t', w ⊆ w1 → finished arg t' → Q w1 t' true) →
  (∀ w1 t', w ⊆ w1 → started arg t' → Q w1 t' false) →
  safeq i (enqueue_alloc RING_POW i (Some l) arg) w t Q.
Proof using HL.
  intros Harg Hst Hl HQ1 HQ2. pose proof Hst as (Htodo & Hinn & Hout & Hk). unfold enqueue_alloc.
  apply safe_read_nrq. intros w1 Hw1.
  destruct (kept t) as [[n [vs|]]|] eqn:Ek; cbn [fmap option_fmap option_map fst]; [|done|].
  - eapply (enqueue_alloc_fill _ _ _ l); try done; [set_solver| |];
      intros; [apply HQ1|apply HQ2]; try done; set_solver.
  - apply safe_alloc_nrq; [done|]. intros w2 n Hw2.
    eapply (enqueue_alloc_fill _ _ _ l); try done; [set_solver| |];
      intros; [apply HQ1|apply HQ2]; try done; set_solver.
Qed.

Lemma enqueue_cell_safe i w t l arg a (Q : _ → _ → bool → Prop) :
  arg ≠ EMPTY → started arg t → l ∈ w →
  (∀ w1 t', w ⊆ w1 → finished arg t' → Q w1 t' true) →
  (∀ w1, w ⊆ w1 → Q w1 t false) →
  safeq i (enqueue_cell RING_POW (Some l) arg a) w t Q.
Proof using HL.
  intros Harg (Htodo & Hinn & Hout & Hk) Hl HQ1 HQ2. unfold enqueue_cell.
  apply safe_read_idx; [done|]. intros w1 x Hw1.
  apply safe_read_val; [set_solver|]. intros w2 v Hw2.
  destruct (is_empty v && _); [|apply HQ2; set_solver].
  assert (∀ w3, w2 ⊆ w3 →
    safeq i (atomic (CAS2 (Some l) (slot RING_POW a) EMPTY x arg a)) w3 t Q) as Hcas.
  { intros w3 Hw3. apply safe_last. apply safe_CAS2; [set_solver|by left| |].
    - intros w4 Hw4. apply HQ2. set_solver.
    - intros w4 Hw4. exists (Account (kept t) (todo t) (todo t) (out t)).
      cbn [kept todo inn out]. split_and!; [done|done|by right| |].
      + rewrite node_ms_EMPTY, node_ms_value, Hinn, Htodo by done. multiset_solver.
      + apply HQ1; [set_solver|]. by split_and!; cbn. }
  case_bool_decide; [by apply Hcas|].
  apply safe_bind, safe_read_head; [set_solver|]. intros w3 h Hw3.
  case_bool_decide; [apply Hcas; set_solver|apply HQ2; set_solver].
Qed.

Lemma enqueue_loop_safe fuel i w t arg tries (Q : _ → _ → unit → Prop) :
  arg ≠ EMPTY → started arg t → 0 ≤ tries → tries + Z.of_nat fuel ≤ INT_MAX →
  (∀ w1 t', finished arg t' → Q w1 t' tt) →
  safeq i (enqueue_loop RING_POW fuel i arg tries) w t Q.
Proof using HL.
  intros Harg. revert w t tries. induction fuel as [|fuel IH]; intros w t tries Hst H0 Hf HQ;
    [apply safe_out_of_fuel|]. cbn [enqueue_loop].
  assert (inn t = ∅ ∨ inn t = todo t) as Hin by (left; by destruct Hst as (_ & ? & _)).
  apply safe_read_qtail. intros w1 l Hw1 Hl.
  apply safe_read_next; [done|]. intros w2 [n|] Hw2 Hn.
  { apply safe_cas_qtail; [by apply Hn|]. intros w3 _ Hw3. apply IH; [done..|lia|done]. }
  assert (∀ w' tries', l ∈ w' → tries ≤ tries' ≤ tries + 1 →
    safeq i (b ← enqueue_alloc RING_POW i (Some l) arg;
      if (b : bool) then mret tt else enqueue_loop RING_POW fuel i arg tries') w' t Q) as Halloc.
  { intros w' tries' Hl' Ht. apply safe_bind, enqueue_alloc_safe; [done..| |].
    - intros. by apply HQ.
    - intros. apply IH; [done|lia|lia|done]. }
  apply safe_faa_tail; [set_solver|done|]. intros w3 a Hw3.
  destruct (crq_is_closed a); [apply Halloc; [set_solver|lia]|].
  apply safe_bind, enqueue_cell_safe; [done|done|set_solver|intros; by apply HQ|].
  intros w4 Hw4. apply safe_read_head; [set_solver|]. intros w5 h Hw5.
  case_bool_decide; [|apply IH; [done..|lia|done]].
  apply safe_atomic. intros h' q w6 ts Hw6 HI Ht. unfold lift.
  rewrite int_add_ok by (unfold INT_MIN, INT_MAX in *; lia).
  exists w6, t. split_and!; [done|by rewrite list_insert_id|].
  apply safe_bind, close_crq_safe; [set_solver|done|]. intros w7 [] Hw7.
  - apply Halloc; [set_solver|lia].
  - apply IH; [done|lia|lia|done].
Qed.

(** What an iteration of the inner loop of [dequeue] leaves: a value held, or
    the account as it was. *)
Definition cell_post (tt : option Z) (r : Z) (t' : account) (x : cell_flow) : Prop :=
  match x with
  | Got v => v ≠ EMPTY ∧ taking {[+ v +]} t'
  | Leave => taking ∅ t'
  | Again tt' r' => taking ∅ t' ∧ (tt' = None → r' = 0)
  end.

(** A [CAS2] that leaves the value of the cell as it is. *)
Lemma safe_CAS2_keep {B} i w t l a o1 o2 n2 (k : bool → proc queue B) Q :
  l ∈ w → (inn t = ∅ ∨ inn t = todo t) →
  (∀ w1 b, w ⊆ w1 → safeq i (k b) w1 t Q) →
  safeq i (atomic (CAS2 (Some l) (slot RING_POW a) o1 o2 o1 n2) ≫= k) w t Q.
Proof using HL.
  intros Hl Hin Hk. apply safe_CAS2; [done|done|by intros; apply Hk|].
  intros w1 Hw1. exists t. split_and!; auto.
Qed.

Lemma dequeue_cell_safe i w t l h tt' r :
  l ∈ w → taking ∅ t → (tt' = None → r = 0) →
  safeq i (dequeue_cell RING_POW (Some l) h tt' r) w t (λ w' t' x, cell_post tt' r t' x).
Proof using HL.
  intros Hl Ht Hr. pose proof Ht as (Htodo & Hinn & Hout & Hk). unfold dequeue_cell.
  apply safe_read_idx; [done|]. intros w1 x Hw1.
  apply safe_read_val; [set_solver|]. intros w2 v Hw2.
  case_bool_decide; [done|]. destruct (is_empty v) eqn:Hv; cbn [negb].
  - assert (∀ w' o1 o2 n2 t0 r', l ∈ w' → (t0 = None → r' = 0) →
      safeq i (b ← atomic (CAS2 (Some l) (slot RING_POW h) o1 o2 o1 n2);
        mret (if (b : bool) then Leave else Again t0 r')) w' t
        (λ w' t' x, cell_post tt' r t' x)) as Hcas.
    { intros w' o1 o2 n2 t0 r' Hl' Hr'. apply safe_CAS2_keep; [done|by left|].
      by intros w3 [] Hw3. }
    apply safe_bind. case_bool_decide as Hz.
    + apply safe_read_tail; [set_solver|]. intros w3 a Hw3. apply safe_ret.
      case_bool_decide; [apply Hcas; [set_solver|done]|].
      destruct (_ || _); [apply Hcas; [set_solver|done]|done].
    + destruct tt' as [a|]; [|by rewrite Hr in Hz]. apply safe_ret.
      case_bool_decide; [apply Hcas; [set_solver|done]|].
      destruct (_ || _); [apply Hcas; [set_solver|done]|done].
  - assert (v ≠ EMPTY) as Hne by (intros ->; done). case_bool_decide.
    + apply safe_CAS2; [set_solver|by left|by intros|].
      intros w3 Hw3. exists (Account (kept t) (todo t) (inn t) {[+ v +]}).
      cbn [kept todo inn out]. split_and!; [done|done|by left| |].
      * rewrite node_ms_EMPTY, node_ms_value, Hinn, Hout by done. multiset_solver.
      * split; [done|]. by split_and!; cbn.
    + apply safe_CAS2_keep; [set_solver|by left|]. by intros w3 [] Hw3.
Qed.

(** What [dequeue] returns is what it has taken out. *)
Definition dequeued_value (v : Z) (t : account) : Prop :=
  taking (if is_empty v then ∅ else {[+ v +]}) t.

Lemma dequeue_cells_safe fuel i w t l h tt' r (Q : _ → _ → option Z → Prop) :
  l ∈ w → taking ∅ t → (tt' = None → r = 0) →
  (∀ w1 t' v, w ⊆ w1 → dequeued_value v t' → Q w1 t' (Some v)) →
  (∀ w1 t', w ⊆ w1 → taking ∅ t' → Q w1 t' None) →
  safeq i (dequeue_cells RING_POW fuel (Some l) h tt' r) w t Q.
Proof using HL.
  intros Hl. revert w t tt' r Hl. induction fuel as [|fuel IH]; intros w t tt' r Hl Ht Hr HQ1 HQ2;
    [apply safe_out_of_fuel|]. cbn [dequeue_cells].
  apply safe_bind. eapply safe_mono; [apply _|by apply dequeue_cell_safe|].
  intros w1 t1 [v| |tt1 r1] Hw1 Hp; cbn in Hp.
  - destruct Hp as [Hv Hp]. apply HQ1; [done|]. unfold dequeued_value, is_empty.
    by rewrite bool_decide_false.
  - by apply HQ2.
  - destruct Hp as [Hp Hr1]. apply IH; [set_solver|done|done| |];
      intros; [apply HQ1|apply HQ2]; try done; set_solver.
Qed.

Lemma dequeue_safe fuel inner i w t (Q : _ → _ → Z → Prop) :
  taking ∅ t → (∀ w1 t' v, dequeued_value v t' → Q w1 t' v) →
  safeq i (dequeue RING_POW fuel inner) w t Q.
Proof using HL.
  revert w t. induction fuel as [|fuel IH]; intros w t Ht HQ; [apply safe_out_of_fuel|].
  cbn [dequeue].
  assert (inn t = ∅ ∨ inn t = todo t) as Hin by (left; by destruct Ht as (_ & ? & _)).
  apply safe_read_qhead. intros w1 l Hw1 Hl.
  apply safe_faa_head; [done|done|]. intros w2 h Hw2 _.
  apply safe_bind, dequeue_cells_safe; [set_solver|done|done|intros; by apply HQ|].
  intros w3 t3 Hw3 Ht3.
  assert (inn t3 = ∅ ∨ inn t3 = todo t3) as Hin3 by (left; by destruct Ht3 as (_ & ? & _)).
  apply safe_read_tail; [set_solver|]. intros w4 a Hw4.
  case_bool_decide; [|by apply IH].
  apply safe_bind, fixState_safe; [set_solver|done|]. intros w5 Hw5.
  apply safe_read_next; [set_solver|]. intros w6 [n|] Hw6 Hn; [|by apply HQ].
  apply safe_cas_qhead; [by apply Hn|]. intros. by apply IH.
Qed.

(** ** Calls *)

Definition call_ok (c : call) : Prop :=
  match c with Enqueue v => v ≠ EMPTY | Dequeue => True end.

Definition call_final (c : call) (_ : gset loc) (t : account) (v : Z) : Prop :=
  match c with Enqueue a => finished a t | Dequeue => dequeued_value v t end.

Lemma enqueued_app h e : enqueued (h ++ [e]) = enqueued h ⊎ event_in e.
Proof. unfold enqueued. rewrite sum_ms_app, sum_ms_cons, sum_ms_nil. multiset_solver. Qed.
Lemma dequeued_app h e : dequeued (h ++ [e]) = dequeued h ⊎ event_out e.
Proof. unfold dequeued. rewrite sum_ms_app, sum_ms_cons, sum_ms_nil. multiset_solver. Qed.
Lemma asked_app h e : asked (h ++ [e]) = asked h ⊎ event_asked e.
Proof. unfold asked. rewrite sum_ms_app, sum_ms_cons, sum_ms_nil. multiset_solver. Qed.

(** A call begins or ends: only the history and the account change. *)
Lemma Inv_event h q w ts i t t' e :
  Inv RING_POW initially dead h q w ts → ts !! i = Some t → kept t' = kept t →
  (inn t' = ∅ ∨ inn t' = todo t') →
  event_asked e ⊎ todo t = event_in e ⊎ todo t' →
  event_out e ⊎ out t' ⊎ inn t = event_in e ⊎ inn t' ⊎ out t →
  Inv RING_POW initially dead (h ++ [e]) q w (<[i := t']> ts).
Proof.
  intros [] Ht Hk Hin Htodo Hout.
  assert (∀ j t2, <[i := t']> ts !! j = Some t2 → ∃ t1, ts !! j = Some t1 ∧ kept t2 = kept t1)
    as Hcase.
  { intros j t2 [(-> & -> & _)|[? ?]]%list_lookup_insert_Some; eauto. }
  constructor; [done..| | | | | | | |].
  - intros j l. rewrite length_insert. eauto.
  - intros j t2 (t1 & Ht1 & ->)%Hcase. eauto.
  - intros j t2 (t1 & Ht1 & ->)%Hcase. eauto.
  - intros j1 j2 t1 t2 l vs1 vs2 Hj (t1' & Ht1 & ->)%Hcase (t2' & Ht2 & ->)%Hcase. eauto.
  - intros j t2 [(-> & -> & _)|[? ?]]%list_lookup_insert_Some; eauto.
  - rewrite asked_app, enqueued_app. pose proof (sum_ms_insert todo ts i t t' Ht).
    clear Hcase Hin Hout inv_account inv_dead. multiset_solver.
  - rewrite dequeued_app, enqueued_app. pose proof (sum_ms_insert out ts i t t' Ht).
    pose proof (sum_ms_insert inn ts i t t' Ht).
    clear Hcase Hin Htodo inv_asked inv_dead. multiset_solver.
  - done.
Qed.

Definition fresh_account : account := Account None ∅ ∅ ∅.

Lemma Inv_start rq q (n : nat) :
  (∃ r, cells (mem q) = {[rq := Some r]} ∧ ring_ok RING_POW {[rq]} r ∧ rnext r = None ∧
    ring_ms r = initially) →
  heap_ok (mem q) → qhead q = Some rq → qtail q = Some rq → nrq q = ∅ →
  Inv RING_POW initially ∅ [] q {[rq]} (replicate n fresh_account).
Proof.
  intros (r & Hc & Hr & Hnone & Hms) Hok Hh Ht Hn.
  assert (∀ i t, replicate n fresh_account !! i = Some t → t = fresh_account) as Hrep
    by (by intros i t [-> _]%lookup_replicate).
  assert (rq ∈ ({[rq]} : gset loc)) as Hin by by apply elem_of_singleton.
  constructor; [done| |by exists rq|by exists rq| | | | | | | | | |done].
  - intros l ->%elem_of_singleton. exists r. split; [|done]. by rewrite Hc, lookup_singleton_eq.
  - exists [rq]. split_and!; [apply NoDup_singleton|intros l; by rewrite list_elem_of_singleton, elem_of_singleton|].
    rewrite Hc. intros i l r' [-> <-]%list_lookup_singleton_Some [_ [= <-]]%lookup_singleton_Some.
    by rewrite Hnone.
  - rewrite Hc. intros l [c [<- _]%lookup_singleton_Some]. by left.
  - intros i l. by rewrite Hn, lookup_empty.
  - intros i t ->%Hrep. by rewrite Hn, lookup_empty.
  - by intros i t ->%Hrep.
  - by intros i j t1 t2 l vs1 vs2 _ ->%Hrep.
  - intros i t ->%Hrep. by left.
  - rewrite (sum_ms_empty todo); [done|]. by intros t [-> _]%elem_of_replicate.
  - rewrite (sum_ms_empty out), (sum_ms_empty inn) by (by intros t [-> _]%elem_of_replicate).
    unfold dequeued, enqueued. rewrite !sum_ms_nil, Hc. unfold linked_ms.
    rewrite <-insert_empty, map_ms_insert_new by apply lookup_empty.
    rewrite linked_val_in, Hms by done.
    change (map_ms _ ∅) with (∅ : gmultiset Z). change (dead_ms ∅) with (∅ : gmultiset Z). multiset_solver.
Qed.

Abbreviation queue_ok :=
  (config_ok (⊆@{gset loc}) (Inv RING_POW initially dead) (λ _ _ _ _ f, f = OutOfFuel) idle call_final call_ok).

Lemma queue_run fuel inner sched g :
  Z.of_nat fuel ≤ INT_MAX → queue_ok g →
  match run_schedule (call_body RING_POW fuel inner) sched g with
  | Ok g' => queue_ok g'
  | Fail f => f = OutOfFuel
  end.
Proof using HL.
  intros Hfuel Hg.
  cut (match run_schedule (call_body RING_POW fuel inner) sched g with
       | Ok g' => queue_ok g'
       | Fail f => ∃ (i : nat) (s : queue) (w : gset loc) (ts : list account), f = OutOfFuel
       end); [destruct (run_schedule _ _ _) as [|f]; [done|by intros (_ & _ & _ & _ & ?)]|].
  revert Hg. apply (run_schedule_safe (⊆@{gset loc}) _ _ (λ _ _ _ _ f, f = OutOfFuel)).
  - intros h q w ts i t c HI Ht (Htodo & Hinn & Hout & Hk) Hc. destruct c as [v|]; cbn in Hc.
    + exists (Account (kept t) {[+ v +]} ∅ ∅). split.
      * eapply Inv_event; [done..|by left| |]; cbn [event_asked event_in event_out todo inn out];
          rewrite ?Htodo, ?Hinn, ?Hout; multiset_solver.
      * cbn [call_body]. apply safe_bind. eapply enqueue_loop_safe; [done| |lia|lia|].
        -- by split_and!; cbn; destruct (kept t) as [[? []]|].
        -- by intros.
    + exists t. split.
      * eapply Inv_event; [done..|by left| |]; cbn [event_asked event_in event_out];
          rewrite ?Htodo, ?Hinn, ?Hout; multiset_solver.
      * apply dequeue_safe; [|done]. by split_and!; destruct (kept t) as [[? []]|].
  - intros h q w w0 ts i t c v HI Ht Hw Hfin. exists (Account (kept t) ∅ ∅ ∅). destruct c as [a|].
    + destruct Hfin as (Htodo & Hinn & Hout & Hk). split; [by split_and!|].
      eapply Inv_event; [done..|by left| |]; cbn [event_asked event_in event_out todo inn out];
        rewrite ?Htodo, ?Hinn, ?Hout; multiset_solver.
    + destruct Hfin as (Htodo & Hinn & Hout & Hk). split; [by split_and!|].
      eapply Inv_event; [done..|by left| |]; cbn [event_asked event_in event_out todo inn out];
        rewrite ?Htodo, ?Hinn, ?Hout; destruct (is_empty v); multiset_solver.
Qed.

(** The rings of the invariant are those that no thread keeps, when no call is
    under way. *)
Lemma available_linked h q w ts :
  Inv RING_POW initially dead h q w ts → (∀ t, t ∈ ts → idle t) →
  available q = linked_ms w (cells (mem q)) ⊎ dead_ms dead.
Proof.
  intros [] Hidle. rewrite <-(linked_dead dead (cells (mem q)));
    [|apply map_subseteq_spec; intros l c Hl; by apply (inv_dead l c)].
  rewrite <-linked_ms_union by (intros l Hl [c Hc]%elem_of_dom; by destruct (inv_dead l c Hc) as (_ & ? & _)).
  apply map_ms_ext. intros l [r|] Hl; [|done]. cbn.
  destruct (decide (l ∈ w ∪ dom dead)) as [[Hw|[c Hc]%elem_of_dom]%elem_of_union|Hw].
  - apply decide_True. apply elem_of_difference. split; [by apply elem_of_dom|].
    intros [i Hi]%elem_of_map_img. pose proof (inv_threads i l Hi) as [t Ht]%lookup_lt_is_Some.
    pose proof (inv_nrq i t Ht) as E. pose proof (inv_kept i t Ht) as Hk.
    destruct (Hidle t) as (_ & _ & _ & Hun); [by eapply list_elem_of_lookup_2|].
    rewrite Hi in E. destruct (kept t) as [[l' [vs|]]|]; simplify_eq/=; [by destruct Hk|done].
  - apply decide_True. apply elem_of_difference. split; [by apply elem_of_dom|].
    intros [i Hi]%elem_of_map_img. destruct (inv_dead l c Hc) as (_ & _ & Hno). by apply (Hno i).
  - apply decide_False. intros [_ Hn]%elem_of_difference. apply Hn, elem_of_map_img.
    destruct (inv_all l) as [?|[[i Hi]|?%elem_of_dom]]; [by eauto|set_solver|by eauto|set_solver].
Qed.

(** What the invariant says of the history: the values of dead rings are none of
    those that have been returned. *)
Lemma queue_ok_values g :
  queue_ok g →
  dequeued (history g) ⊎ dead_ms dead ⊆ initially ⊎ asked (history g) ∧
  (quiescent g → asked (history g) = enqueued (history g) ∧
    dequeued (history g) ⊎ available (shared g) = initially ⊎ enqueued (history g)).
Proof.
  intros (w & ts & HI & Hlen & Hth). pose proof HI as []. split.
  - assert (sum_ms inn ts ⊆ sum_ms todo ts) as Hle.
    { apply sum_ms_mono. intros t [i Hi]%list_elem_of_lookup.
      destruct (inv_inn i t Hi) as [-> | ->]; [apply gmultiset_empty_subseteq|done]. }
    rewrite inv_asked. clear - inv_account Hle. multiset_solver.
  - intros Hq. assert (∀ t, t ∈ ts → idle t) as Hidle.
    { intros t [i Hi]%list_elem_of_lookup.
      destruct (lookup_lt_is_Some_2 (pool g) i) as [th Hp];
        [rewrite <-Hlen; by eapply lookup_lt_Some|].
      destruct (Hth i th t Hp Hi) as [_ Hok].
      unfold quiescent in Hq. rewrite Forall_lookup in Hq. by rewrite (Hq i th Hp) in Hok. }
    rewrite (available_linked _ _ _ _ HI Hidle).
    rewrite (sum_ms_empty todo) in inv_asked by (intros t Ht; by apply Hidle).
    rewrite (sum_ms_empty out), (sum_ms_empty inn) in inv_account
      by (intros t Ht; by apply Hidle).
    clear - inv_asked inv_account. split; multiset_solver.
Qed.
End operations.

(** ** The queue at the start *)

Section start.
Context `{Primitives} {HL : PrimitivesLaws} (RING_POW : nat).

(** The values that [FULL] puts into the queue: half of the ring. *)
Definition filled (full : bool) : gmultiset Z :=
  if full then sum_ms (λ _, {[+ 0 +]}) (seq 0 (Z.to_nat (RING_SIZE RING_POW / 2))) else ∅.

Lemma fill_array half :
  imap (λ i n, if bool_decide (Z.of_nat i < half) then RingNode 0 (Z.of_nat i) else n)
    (array (init_ring RING_POW)) =
  (λ i, RingNode (if bool_decide (Z.of_nat i < half) then 0 else EMPTY) (Z.of_nat i)) <$>
    seq 0 (Z.to_nat (RING_SIZE RING_POW)).
Proof.
  apply list_eq. intros i. unfold init_ring. cbn [array].
  rewrite list_lookup_imap, !list_lookup_fmap.
  destruct (seq 0 _ !! i) as [j|] eqn:E; [|done]. apply lookup_seq in E as [-> _]. cbn.
  by case_bool_decide.
Qed.

Lemma sum_ms_fmap {A B} (f : B → gmultiset Z) (g : A → B) l :
  sum_ms f (g <$> l) = sum_ms (λ a, f (g a)) l.
Proof. induction l as [|a l IH]; [done|]. by rewrite fmap_cons, !sum_ms_cons, IH. Qed.

Lemma fill_ring_ms full : ring_ms (fill_ring RING_POW full (init_ring RING_POW)) = filled full.
Proof.
  destruct full; cbn [fill_ring filled]; [|by destruct (init_ring_private RING_POW) as (_&_&_&?&_)].
  unfold ring_ms. cbn [array]. rewrite fill_array, sum_ms_fmap.
  set (N := RING_SIZE RING_POW). set (half := N / 2).
  assert (0 ≤ half ≤ N) as Hhalf.
  { assert (0 ≤ N) by (unfold N, RING_SIZE; lia).
    split; [apply Z.div_pos; lia|apply Z.div_le_upper_bound; lia]. }
  replace (Z.to_nat N) with (Z.to_nat half + Z.to_nat (N - half))%nat by lia.
  rewrite seq_app, sum_ms_app, (sum_ms_empty _ (seq (0 + _) _)).
  - rewrite (sum_ms_ext _ (λ _, {[+ 0 +]})); [apply (right_id_L ∅ (⊎))|].
    intros i [_ Hi]%elem_of_seq. by rewrite bool_decide_true by lia.
  - intros i [Hi _]%elem_of_seq. by rewrite bool_decide_false by lia.
Qed.

Lemma fill_ring_ok full w : ring_ok RING_POW w (fill_ring RING_POW full (init_ring RING_POW)).
Proof.
  destruct (init_ring_private RING_POW) as (Hlen & Hnext & _ & _ & Hwords).
  destruct full; cbn [fill_ring]; [|by split_and!; [|rewrite Hnext|]].
  split_and!; cbn [array rnext]; [by rewrite length_imap|by rewrite Hnext|].
  intros HN. split; [done|]. cbn. change (rtail (init_ring RING_POW)) with 0. assert (0 ≤ RING_SIZE RING_POW) by (unfold RING_SIZE; lia).
  assert (0 ≤ RING_SIZE RING_POW / 2) by (apply Z.div_pos; lia).
  assert (RING_SIZE RING_POW / 2 ≤ 2 ^ 63) by (apply Z.div_le_upper_bound; lia).
  unfold U64_MOD. lia.
Qed.

Lemma empty_heap_ok : heap_ok (Heap ∅ 1%positive 0 : rheap).
Proof. intros l [c Hc]. cbn in Hc. by rewrite lookup_empty in Hc. Qed.

(** [SHARED_OBJECT_INIT] makes one ring that is the head and the tail. *)
Lemma initial_queue full :
  queue_initial RING_POW full ⇓ (λ q, ∃ rq,
    cells (mem q) = {[rq := Some (fill_ring RING_POW full (init_ring RING_POW))]} ∧
    heap_ok (mem q) ∧ qhead q = Some rq ∧ qtail q = Some rq ∧ nrq q = ∅).
Proof using HL.
  unfold queue_initial.
  assert (wp (SHARED_OBJECT_INIT RING_POW full) (λ p h, ∃ rq, p = Some rq ∧
    cells h = {[rq := Some (fill_ring RING_POW full (init_ring RING_POW))]} ∧ heap_ok h)
    (Heap ∅ 1%positive 0)) as Hwp.
  { unfold SHARED_OBJECT_INIT. apply wp_bind, getMemory_law; [by apply empty_heap_ok|].
    intros rq h1 _ Hc1 Hok1. cbn [cells] in Hc1. apply wp_bind.
    apply wp_store; [done|by rewrite Hc1, lookup_insert_eq|]. intros h2 Hc2 _ Hok2.
    rewrite Hc1, insert_insert_eq in Hc2. apply wp_bind.
    apply wp_store; [done|by rewrite Hc2, lookup_insert_eq|]. intros h3 Hc3 _ Hok3.
    rewrite Hc2, insert_insert_eq in Hc3. apply wp_ret. exists rq.
    split_and!; [done|by rewrite Hc3, insert_empty|done]. }
  unfold wp in Hwp. destruct (SHARED_OBJECT_INIT _ _ _) as [[p h]|]; [|done].
  destruct Hwp as (rq & Hp & Hc & Hok). cbn in Hp, Hc, Hok. subst p. exists rq. by split_and!.
Qed.

Lemma start_ok full q progs :
  queue_initial RING_POW full = Ok q → Forall (Forall call_ok) progs →
  config_ok (⊆@{gset loc}) (Inv RING_POW (filled full) ∅) (λ _ _ _ _ f, f = OutOfFuel) idle call_final call_ok
    (start q progs).
Proof using HL.
  intros Hq Hprogs. pose proof (initial_queue full) as Hi. rewrite Hq in Hi.
  destruct Hi as (rq & Hc & Hok & Hh & Ht & Hn).
  exists {[rq]}, (replicate (length progs) fresh_account). split; [|split].
  - eapply Inv_start; [|done..]. eexists. split; [done|]. split; [apply fill_ring_ok|].
    split; [by destruct full|]. apply fill_ring_ms.
  - cbn. by rewrite length_replicate, length_fmap.
  - intros i th t (cs & -> & Hcs)%list_lookup_fmap_Some [-> _]%lookup_replicate.
    split; [|by split_and!]. cbn. by eapply Forall_lookup_1.
Qed.
End start.

(** ** Rings that are left behind *)

Section behind.
Context `{Primitives} {HL : PrimitivesLaws} (RING_POW : nat) (initially : gmultiset Z).

(** [head], [tail] and the rings that threads keep are others than [D], and no
    other ring leads to one of [D]. *)
Definition left_behind (D : gset loc) (q : queue) : Prop :=
  (∀ l, l ∈ D → is_Some (cells (mem q) !! l) ∧ qhead q ≠ Some l ∧ qtail q ≠ Some l ∧ ∀ i, nrq q !! i ≠ Some l) ∧
  ∀ l c n, cells (mem q) !! l = Some c → c ≫= rnext = Some n → n ∈ D → l ∈ D.

Definition rings_of (D : gset loc) (q : queue) : gmap loc (option ring) :=
  filter (λ p, p.1 ∈ D) (cells (mem q)).

Lemma rings_of_lookup D q l c : rings_of D q !! l = Some c ↔ cells (mem q) !! l = Some c ∧ l ∈ D.
Proof. apply map_lookup_filter_Some. Qed.

(** A list whose elements in [D] come first. *)
Lemma split_behind (D : gset loc) (ls : list loc) :
  (∀ i a b, ls !! i = Some a → ls !! S i = Some b → b ∈ D → a ∈ D) →
  ∃ ls1 ls2, ls = ls1 ++ ls2 ∧ (∀ l, l ∈ ls1 → l ∈ D) ∧ (∀ l, l ∈ ls2 → l ∉ D).
Proof.
  induction ls as [|a ls IH]; intros Hls.
  { exists [], []. split_and!; [done|by intros l ?%elem_of_nil..]. }
  destruct IH as (ls1 & ls2 & -> & H1 & H2); [intros i; apply (Hls (S i))|]. destruct (decide (a ∈ D)) as [Ha|Ha].
  - exists (a :: ls1), ls2. split_and!; [done| |done]. intros l [->|?]%elem_of_cons; auto.
  - destruct ls1 as [|b ls1].
    + exists [], (a :: ls2). split_and!; [done|by intros l ?%elem_of_nil|]. intros l [->|?]%elem_of_cons; auto.
    + destruct Ha. apply (Hls 0%nat a b); [done..|]. apply H1, list_elem_of_here.
Qed.

Lemma chain_behind m w D :
  (∀ l, l ∈ w → ∃ r, m !! l = Some (Some r)) →
  (∀ l c n, m !! l = Some c → c ≫= rnext = Some n → n ∈ D → l ∈ D) → chain m w → chain m (w ∖ D).
Proof.
  intros Hw HD (ls & Hnd & Hls & Hnext). destruct (split_behind D ls) as (ls1 & ls2 & -> & H1 & H2).
  { intros i a b Ha Hb. destruct (Hw a) as [r Hr]; [by apply Hls, (list_elem_of_lookup_2 _ i)|].
    apply (HD a (Some r)); [done|]. cbn. by rewrite (Hnext i a r Ha Hr), Hb. }
  exists ls2. apply list.NoDup_app in Hnd as (_ & _ & Hnd). split_and!; [done|..].
  - intros l. rewrite elem_of_difference, Hls, elem_of_app. specialize (H1 l). specialize (H2 l). tauto.
  - intros i l r Hi Hr. rewrite (Hnext (length ls1 + i)%nat l r); [|by rewrite lookup_app_r, Nat.add_sub_swap, Nat.sub_diag by lia|done].
    rewrite lookup_app_r by lia. f_equal. lia.
Qed.

Abbreviation config_with dead :=
  (config_ok (⊆@{gset loc}) (Inv RING_POW initially dead) (λ _ _ _ _ f, f = OutOfFuel) idle call_final call_ok).

Lemma linked_ms_difference w D q :
  (∀ l c, rings_of D q !! l = Some c → l ∈ w) →
  linked_ms w (cells (mem q)) = linked_ms (w ∖ D) (cells (mem q)) ⊎ dead_ms (rings_of D q).
Proof.
  intros Hw. rewrite <-(linked_dead (rings_of D q) (cells (mem q))) by apply map_filter_subseteq.
  rewrite <-linked_ms_union.
  2:{ intros l [_ Hl]%elem_of_difference [c [_ ?]%rings_of_lookup]%elem_of_dom. done. }
  apply map_ms_ext. intros l [r|] Hl; [|done]. cbn. apply decide_ext. rewrite elem_of_union, elem_of_difference.
  split; [|intros [[? _]|[c ?]%elem_of_dom]; eauto]. intros Hlw. destruct (decide (l ∈ D)); [right|by left].
  apply elem_of_dom. exists (Some r). by apply rings_of_lookup.
Qed.

(** When no call is under way, what is left behind is dead. *)
Lemma behind_dead g D :
  config_with ∅ g → quiescent g → left_behind D (shared g) → config_with (rings_of D (shared g)) g.
Proof.
  intros (w & ts & HI & Hlen & Hth) Hq [Hroots Hclosed].
  assert (∀ i t, ts !! i = Some t → idle t) as Hidle.
  { intros i t Ht. destruct (lookup_lt_is_Some_2 (pool g) i) as [th Hp]; [rewrite <-Hlen; by eapply lookup_lt_Some|].
    destruct (Hth i th t Hp Ht) as [_ Hok]. unfold quiescent in Hq. rewrite Forall_lookup in Hq.
    by rewrite (Hq i th Hp) in Hok. }
  assert (∀ l c, rings_of D (shared g) !! l = Some c → l ∈ w) as Hdead.
  { intros l c [Hl HD]%rings_of_lookup. destruct (inv_all _ _ _ _ _ _ _ HI l) as [?|[[i Hi]|[? ?]]]; [by eauto|done| |done].
    destruct (Hroots l HD) as (_ & _ & _ & Hno). by destruct (Hno i). }
  pose proof (linked_ms_difference w D (shared g) Hdead) as Hms. pose proof HI as []. clear HI.
  exists (w ∖ D), ts. split; [|split; [done|]].
  - constructor; try done.
    + intros l [Hl HD]%elem_of_difference. destruct (inv_linked l Hl) as (r & Hr & Hok & Hnext & Hwords).
      exists r. split; [done|]. split_and!; [done| |done]. intros n Hn. apply elem_of_difference. split; [by apply Hnext|].
      intros HnD. apply HD. by eapply Hclosed.
    + destruct inv_head as (l & Hl & Hlw). exists l. split; [done|]. apply elem_of_difference. split; [done|].
      intros HD. by destruct (Hroots l HD) as (_ & ? & _).
    + destruct inv_tail as (l & Hl & Hlw). exists l. split; [done|]. apply elem_of_difference. split; [done|].
      intros HD. by destruct (Hroots l HD) as (_ & _ & ? & _).
    + apply chain_behind; [|done|done]. intros l Hl. destruct (inv_linked l Hl) as (r & ? & _). eauto.
    + intros l [c Hl]. destruct (decide (l ∈ D)) as [HD|HD].
      { right; right. exists c. by apply rings_of_lookup. }
      destruct (inv_all l) as [?|[?|[? ?]]]; [by eauto|left; set_solver|by auto|done].
    + intros i t Ht. pose proof (inv_kept i t Ht) as Hk. destruct (Hidle i t Ht) as (_ & _ & _ & Hun).
      destruct (kept t) as [[l [vs|]]|]; [|done..]. destruct Hk as [? ?]. split; [set_solver|done].
    + rewrite Hms in inv_account. change (dead_ms ∅) with (∅ : gmultiset Z) in inv_account.
      clear -inv_account. multiset_solver.
    + intros l c [Hl HD]%rings_of_lookup. destruct (Hroots l HD) as (_ & _ & _ & ?). split_and!; [done|set_solver|done].
  - intros i th t Hi Ht. destruct (Hth i th t Hi Ht) as [Hcs _]. split; [done|].
    unfold quiescent in Hq. rewrite Forall_lookup in Hq. rewrite (Hq i th Hi). by eapply Hidle.
Qed.

(** Dead rings stay as they are. *)
Lemma dead_stays D q g :
  config_with (rings_of D q) g → left_behind D q → rings_of D (shared g) = rings_of D q.
Proof.
  intros (w & ts & [] & _) [HD _]. apply map_eq. intros l. destruct (decide (l ∈ D)) as [Hl|Hl].
  - destruct (HD l Hl) as [[c Hc] _]. assert (rings_of D q !! l = Some c) as Hr by by apply rings_of_lookup.
    rewrite Hr. apply rings_of_lookup. split; [by apply inv_dead|done].
  - unfold rings_of. rewrite !map_lookup_filter_None_2; [done|right; by intros ? _..].
Qed.
End behind.

(** ** An instance of the primitives *)

#[export] Instance atomics : Primitives := {|
  FAA64 v n := (v, u64 (v + n));
  CAS64 v o n := if decide (v = o) then (true, n) else (false, v);
  CASPTR p o n := if decide (p = o) then (true, n) else (false, p);
  getMemory h :=
    Ok (Some (brk h), Heap (<[brk h := None]> (cells h)) (Pos.succ (brk h)) (avail h));
|}.

#[export] Instance atomics_laws : PrimitivesLaws.
Proof.
  split; [done..|]. intros Q h Hok HQ. unfold wp. cbn. apply HQ; cbn; [|done|].
  - by apply heap_ok_fresh.
  - intros l [c Hl]. cbn in *. destruct (decide (l = brk h)) as [->|]; [lia|].
    rewrite lookup_insert_ne in Hl by done. assert (l < brk h)%positive by (apply Hok; eauto). lia.
Qed.

(** ** The properties *)

(** C12: Under every schedule of any number of threads, the calls of [enqueue] and
    [dequeue] never touch memory they may not, and the values that [dequeue]
    has returned are, with their multiplicity, among those in the queue at the
    start and those whose [enqueue] has begun: none is invented or returned
    twice. When no call is under way, the values returned and those in the
    rings are together exactly the initial ones and those enqueued: the rings
    never drop a value. *)
Theorem lcrq_conserves `{Primitives, !PrimitivesLaws} RING_POW full fuel inner sched progs q :
  queue_initial RING_POW full = Ok q → Z.of_nat fuel ≤ INT_MAX → Forall (Forall call_ok) progs →
  match run_schedule (call_body RING_POW fuel inner) sched (start q progs) with
  | Fail f => f = OutOfFuel
  | Ok g =>
      dequeued (history g) ⊆ filled RING_POW full ⊎ asked (history g) ∧
      (quiescent g → asked (history g) = enqueued (history g) ∧
        dequeued (history g) ⊎ available (shared g) = filled RING_POW full ⊎ enqueued (history g))
  end.
Proof.
  intros Hq Hfuel Hprogs.
  pose proof (queue_run RING_POW _ ∅ fuel inner sched _ Hfuel (start_ok _ _ _ _ Hq Hprogs)) as Hrun.
  destruct (run_schedule _ _ _) as [g|]; [|done]. apply queue_ok_values in Hrun as [Hsub ?]. split; [|done].
  etrans; [apply gmultiset_disj_union_subseteq_l|exact Hsub].
Qed.

(** A queue with rings of two cells, and the benchmark's two threads with one
    round each. *)
Definition small_queue : queue :=
  match queue_initial 1 false with Ok q => q | Fail _ => Queue (Heap ∅ 1%positive 0) None None ∅ end.

Lemma lcrq_conserves_witness :
  match run_schedule (call_body 1 10 10) (mjoin (replicate 40 [0; 1]%nat))
          (benchmark 1 2 small_queue) with
  | Fail f => f = OutOfFuel
  | Ok g =>
      dequeued (history g) ⊆ filled 1 false ⊎ asked (history g) ∧
      (quiescent g → asked (history g) = enqueued (history g) ∧
        dequeued (history g) ⊎ available (shared g) = filled 1 false ⊎ enqueued (history g))
  end.
Proof.
  apply lcrq_conserves; [by vm_compute|unfold INT_MAX; lia|].
  repeat constructor; by vm_compute.
Defined.

(** In that run both threads get a value. *)
Example small_run :
  (history <$> match run_schedule (call_body 1 10 10) (mjoin (replicate 40 [0; 1]%nat))
     (benchmark 1 2 small_queue) with Ok g => Some g | Fail _ => None end) =
  Some [Invoked 0 (Enqueue 0); Invoked 1 (Enqueue 1); Returned 0 (Enqueue 0) 0;
    Returned 1 (Enqueue 1) 0; Invoked 0 Dequeue; Invoked 1 Dequeue;
    Returned 0 Dequeue 0; Returned 1 Dequeue 1].
Proof. vm_compute. reflexivity. Qed.

(** The schedule of [lcrq_loses]: thread 0 enqueues and dequeues once; thread 1
    begins to dequeue, finds the ring empty and stops before it reads [next];
    thread 0 fills the ring, which closes it and links another; thread 1 goes on
    and moves [head] to that one. *)
Definition losing_schedule : list nat :=
  replicate 16 0%nat ++ replicate 12 1%nat ++ replicate 34 0%nat ++ replicate 22 1%nat ++
  replicate 14 0%nat.

(** What has been left behind is never returned. *)
Lemma behind_lost `{Primitives, !PrimitivesLaws} RING_POW full fuel inner first sched progs q g D :
  queue_initial RING_POW full = Ok q → Z.of_nat fuel ≤ INT_MAX → Forall (Forall call_ok) progs →
  run_schedule (call_body RING_POW fuel inner) first (start q progs) = Ok g → quiescent g →
  left_behind D (shared g) →
  match run_schedule (call_body RING_POW fuel inner) sched g with
  | Fail f => f = OutOfFuel
  | Ok g' => rings_of D (shared g') = rings_of D (shared g) ∧
      dequeued (history g') ⊎ dead_ms (rings_of D (shared g)) ⊆ filled RING_POW full ⊎ asked (history g')
  end.
Proof.
  intros Hq Hfuel Hprogs Hfirst Hquiet HD.
  pose proof (queue_run RING_POW _ ∅ fuel inner first _ Hfuel (start_ok _ _ _ _ Hq Hprogs)) as Hrun.
  rewrite Hfirst in Hrun. pose proof (behind_dead RING_POW _ g D Hrun Hquiet HD) as Hg.
  pose proof (queue_run RING_POW _ _ fuel inner sched g Hfuel Hg) as Hrun'.
  destruct (run_schedule _ sched g) as [g'|]; [|done]. split; [by eapply dead_stays|].
  by apply queue_ok_values in Hrun' as [? _].
Qed.

(** The calls of [losing_schedule], and any that follow. *)
Definition losing_calls (cs0 cs1 : list call) : list (list call) :=
  [[Enqueue 7; Dequeue; Enqueue 8; Enqueue 9; Enqueue 10; Dequeue] ++ cs0; [Dequeue; Dequeue] ++ cs1].

(** What [losing_schedule] does. *)
Definition losing_history : list (event call Z) := [
  Invoked 0 (Enqueue 7); Returned 0 (Enqueue 7) 0; Invoked 0 Dequeue; Returned 0 Dequeue 7;
  Invoked 0 (Enqueue 8); Invoked 1 Dequeue; Returned 0 (Enqueue 8) 0;
  Invoked 0 (Enqueue 9); Returned 0 (Enqueue 9) 0;
  Invoked 0 (Enqueue 10); Returned 0 (Enqueue 10) 0; Returned 1 Dequeue 10;
  Invoked 1 Dequeue; Returned 1 Dequeue EMPTY; Invoked 0 Dequeue; Returned 0 Dequeue EMPTY].

Lemma losing_run cs0 cs1 :
  ∃ g, run_schedule (call_body 1 10 10) losing_schedule (start small_queue (losing_calls cs0 cs1)) = Ok g ∧
    quiescent g ∧ history g = losing_history ∧
    left_behind {[1%positive]} (shared g) ∧ dead_ms (rings_of {[1%positive]} (shared g)) = {[+ 8; 9 +]}.
Proof.
  eexists. split; [vm_compute; reflexivity|].
  split; [apply Forall_cons_2; [done|]; apply Forall_cons_2; [done|]; by apply Forall_nil_2|].
  split; [reflexivity|]. split; [|by vm_compute]. split.
  - intros l ->%elem_of_singleton. split; [by eexists|]. split_and!; [done|done|]. intros i.
    change (nrq _) with (∅ : gmap nat loc). by rewrite lookup_empty.
  - match goal with |- ∀ l c n, ?m !! l = Some c → _ =>
      assert (map_Forall (λ _ (c : option ring), c ≫= rnext ≠ Some 1%positive) m) as Hm
    end.
    + apply (bool_decide_unpack _). by vm_compute.
    + intros l c n Hc Hn ->%elem_of_singleton. by destruct (Hm l c Hc).
Qed.

(** C14: rings that [head] and [tail] have passed are out of reach. At any point of
    any run where no call is under way, rings that are neither the head nor the
    tail nor kept by a thread, and to which no other ring leads, stay as they are
    under every schedule of the calls that follow, and the values in them are
    never returned. And values do get there: with rings of two cells there is a
    schedule of two threads after which every call has returned and the values 8
    and 9 are in such a ring, though their [enqueue] returned before the last two
    calls of [dequeue] began, which say that the queue is empty; whatever calls of
    the two threads follow, and in whatever order, 8 and 9 are not returned. The
    queue loses values. *)
Theorem lcrq_loses :
  (∀ `{Primitives, !PrimitivesLaws} RING_POW full fuel inner first sched progs q g D,
    queue_initial RING_POW full = Ok q → Z.of_nat fuel ≤ INT_MAX → Forall (Forall call_ok) progs →
    run_schedule (call_body RING_POW fuel inner) first (start q progs) = Ok g → quiescent g →
    left_behind D (shared g) →
    match run_schedule (call_body RING_POW fuel inner) sched g with
    | Fail f => f = OutOfFuel
    | Ok g' => rings_of D (shared g') = rings_of D (shared g) ∧
        dequeued (history g') ⊎ dead_ms (rings_of D (shared g)) ⊆ filled RING_POW full ⊎ asked (history g')
    end) ∧
  ∀ cs0 cs1, Forall call_ok cs0 → Forall call_ok cs1 →
    ∃ g, run_schedule (call_body 1 10 10) losing_schedule (start small_queue (losing_calls cs0 cs1)) = Ok g ∧
      quiescent g ∧
      history g = losing_history ∧
      ∀ sched, match run_schedule (call_body 1 10 10) sched g with
        | Fail f => f = OutOfFuel
        | Ok g' => dequeued (history g') ⊎ {[+ 8; 9 +]} ⊆ asked (history g')
        end.
Proof.
  split; [intros; by eapply behind_lost|]. intros cs0 cs1 H0 H1.
  destruct (losing_run cs0 cs1) as (g & Hrun & Hq & Hh & HD & Hms). exists g. split_and!; [done..|]. intros sched.
  assert (Forall (Forall call_ok) (losing_calls cs0 cs1)) as Hcalls.
  { apply Forall_cons_2; [|apply Forall_cons_2; [|by apply Forall_nil_2]]; (apply Forall_app_2; [|done]);
      repeat (apply Forall_cons_2; [by vm_compute|]); by apply Forall_nil_2. }
  pose proof (behind_lost 1 false 10 10 losing_schedule sched (losing_calls cs0 cs1) small_queue g {[1%positive]}
    eq_refl ltac:(unfold INT_MAX; lia) Hcalls Hrun Hq HD) as Hlost.
  destruct (run_schedule _ sched g) as [g'|f]; [|done]. destruct Hlost as [_ Hsub].
  rewrite Hms in Hsub. change (filled 1 false) with (∅ : gmultiset Z) in Hsub. by rewrite (left_id_L ∅ (⊎)) in Hsub.
Qed.
