(* ===== verification/LcrqSeq.v ===== *)
(** The queue of [src/snippets/lcrq.c] used by one thread at a time: [enqueue]
    and [dequeue] refine a list, first in first out, whatever the number of
    rings that have been closed; a queue that has never been enqueued to is
    the exception. *)

From S2P Require Import Prelude CInt Heap Proc Lcrq LcrqInv LcrqSafe LcrqClaims.
Local Open Scope Z_scope.

(** ** Bits and tickets *)

Section bits.
Implicit Types t : Z.

Lemma land_BIT63 t : 0 ≤ t < BIT63 → Z.land t BIT63 = 0.
Proof.
  intros Ht. apply Z.bits_inj'. intros n Hn. rewrite Z.land_spec, Z.bits_0.
  unfold BIT63 in *. rewrite Z.pow2_bits_eqb by lia. destruct (Z.eqb_spec 63 n) as [<-|]; [|apply andb_false_r].
  rewrite andb_true_r. rewrite Z.testbit_false by lia. rewrite Z.div_small by lia. done.
Qed.

Lemma node_index_small t : 0 ≤ t < BIT63 → node_index t = t.
Proof.
  intros Ht. unfold node_index. rewrite Z.land_comm. pose proof (land_BIT63 t Ht) as E.
  apply Z.bits_inj'. intros n Hn. rewrite Z.land_spec, Z.lnot_spec by done.
  pose proof (f_equal (λ z, Z.testbit z n) E) as En. cbn beta in En.
  rewrite Z.land_spec, Z.bits_0 in En. destruct (Z.testbit t n), (Z.testbit BIT63 n); done.
Qed.

Lemma tail_index_small t : 0 ≤ t < BIT63 → tail_index t = t.
Proof. apply node_index_small. Qed.

Lemma node_unsafe_small t : 0 ≤ t < BIT63 → node_unsafe t = 0.
Proof. apply land_BIT63. Qed.

Lemma crq_open t : 0 ≤ t < BIT63 → crq_is_closed t = false.
Proof. intros Ht. unfold crq_is_closed. rewrite land_BIT63 by done. done. Qed.

Lemma lor_BIT63 t : 0 ≤ t < BIT63 → Z.lor t BIT63 = BIT63 + t.
Proof. intros Ht. rewrite <-Z.lxor_lor, <-Z.add_nocarry_lxor by (by apply land_BIT63). lia. Qed.

Lemma tail_index_closed t : 0 ≤ t < BIT63 → tail_index (BIT63 + t) = t.
Proof.
  intros Ht. unfold tail_index. rewrite <-lor_BIT63 by done.
  rewrite Z.land_lor_distr_l, Z.land_lnot_diag, Z.lor_0_r. by apply node_index_small.
Qed.

Lemma crq_closed t : 0 ≤ t < BIT63 → crq_is_closed (BIT63 + t) = true.
Proof.
  intros Ht. unfold crq_is_closed. rewrite <-lor_BIT63, Z.land_lor_distr_l, land_BIT63 by done.
  done.
Qed.
End bits.

(** Tickets below this bound do not overflow. *)
Definition TICKETS : Z := 2 ^ 62.

Lemma small_ticket h : 0 ≤ h ≤ TICKETS → 0 ≤ h < BIT63.
Proof. unfold TICKETS, BIT63. lia. Qed.

Lemma u64_ticket h : 0 ≤ h ≤ TICKETS + 2 ^ 30 → u64 h = h.
Proof. intros. apply u64_small. unfold U64_MOD, TICKETS in *. lia. Qed.

Lemma slot_mod RING_POW t : slot RING_POW t = t mod RING_SIZE RING_POW.
Proof. unfold slot, RING_SIZE. rewrite Z.sub_1_r, <-Z.ones_equiv, Z.land_ones by lia. done. Qed.

Section seq.
Context `{Primitives} {HL : PrimitivesLaws} (RING_POW : nat).
Hypothesis Hpow : (RING_POW ≤ 30)%nat.
Abbreviation N := (RING_SIZE RING_POW).

Lemma N_bounds : 1 ≤ N ≤ 2 ^ 30.
Proof using Hpow.
  unfold RING_SIZE. split; [pose proof (Z.pow_pos_nonneg 2 (Z.of_nat RING_POW)); lia|].
  apply Z.pow_le_mono_r; lia.
Qed.

(** Tickets less than [N] apart use different cells. *)
Lemma mod_window h i j :
  0 ≤ i < N → 0 ≤ j < N → (h + i) mod N = (h + j) mod N → i = j.
Proof using Hpow.
  intros Hi Hj E. pose proof N_bounds as HN.
  pose proof (Z.div_mod (h + i) N ltac:(lia)). pose proof (Z.div_mod (h + j) N ltac:(lia)).
  assert (i - j = N * ((h + i) / N - (h + j) / N)) as Hd by lia.
  assert ((h + i) / N - (h + j) / N = 0) by nia. lia.
Qed.

(** ** A ring *)

(** The tickets from [h] on: the first [length vs] hold [vs], the others are
    free for the next round. *)
Definition window (a : list ring_node) (h : Z) (vs : list Z) : Prop :=
  Z.of_nat (length a) = N ∧ 0 ≤ h ∧ Z.of_nat (length vs) ≤ N ∧
  ∀ k : nat, Z.of_nat k < N → ∃ n, a !! Z.to_nat ((h + Z.of_nat k) mod N) = Some n ∧
    match vs !! k with
    | Some v => n = RingNode v (h + Z.of_nat k) ∧ v ≠ EMPTY
    | None => val n = EMPTY ∧ 0 ≤ idx n ≤ h + Z.of_nat k
    end.

Lemma mod_N_nat t : (Z.to_nat (t mod N) < Z.to_nat N)%nat.
Proof using Hpow. pose proof N_bounds. pose proof (Z.mod_pos_bound t N). lia. Qed.

(** Taking the first ticket, whether it holds a value or not. *)
Lemma window_advance a h vs :
  window a h vs →
  window (<[Z.to_nat (h mod N) := RingNode EMPTY (h + N)]> a) (h + 1) (drop 1 vs).
Proof using Hpow.
  intros (Hlen & Hh & Hvs & Hcells). pose proof N_bounds as HN.
  split_and!; [by rewrite length_insert|lia|rewrite length_drop; lia|].
  intros k Hk. destruct (decide (Z.of_nat k = N - 1)) as [Hlast|Hlast].
  - replace ((h + 1 + Z.of_nat k) mod N) with (h mod N).
    2: { replace (h + 1 + Z.of_nat k) with (h + 1 * N) by lia. by rewrite Z.mod_add by lia. }
    eexists. split; [apply list_lookup_insert_eq|].
    { pose proof (mod_N_nat h). lia. }
    rewrite lookup_drop, lookup_ge_None_2 by lia. cbn. lia.
  - destruct (Hcells (S k)) as (n & Hn & Hv); [lia|].
    replace (h + Z.of_nat (S k)) with (h + 1 + Z.of_nat k) in Hn, Hv by lia.
    exists n. split; [|by rewrite lookup_drop].
    rewrite list_lookup_insert_ne; [done|]. intros E.
    assert (h mod N = (h + 1 + Z.of_nat k) mod N) as E'.
    { apply (f_equal Z.of_nat) in E. rewrite !Z2Nat.id in E by (apply Z.mod_pos_bound; lia). done. }
    replace h with (h + 0) in E' at 1 by lia.
    replace (h + 1 + Z.of_nat k) with (h + (1 + Z.of_nat k)) in E' by lia.
    apply mod_window in E'; lia.
Qed.

(** Using the next free ticket. *)
Lemma window_put a h vs v :
  window a h vs → Z.of_nat (length vs) < N → v ≠ EMPTY →
  window (<[Z.to_nat ((h + Z.of_nat (length vs)) mod N) := RingNode v (h + Z.of_nat (length vs))]> a)
    h (vs ++ [v]).
Proof using Hpow.
  intros (Hlen & Hh & Hvs & Hcells) Hlt Hv. pose proof N_bounds as HN.
  split_and!; [by rewrite length_insert|lia|rewrite length_app; cbn; lia|].
  intros k Hk. destruct (decide (k = length vs)) as [->|Hne].
  - eexists. split; [apply list_lookup_insert_eq|].
    { pose proof (mod_N_nat (h + Z.of_nat (length vs))). lia. }
    by rewrite lookup_app_r, Nat.sub_diag by lia.
  - destruct (Hcells k Hk) as (n & Hn & Hc). exists n. split.
    + rewrite list_lookup_insert_ne; [done|]. intros E.
      apply (f_equal Z.of_nat) in E. rewrite !Z2Nat.id in E by (apply Z.mod_pos_bound; lia).
      apply mod_window in E; lia.
    + destruct (decide (k < length vs)%nat); [by rewrite lookup_app_l|].
      rewrite lookup_ge_None_2 in Hc by lia.
      rewrite lookup_ge_None_2; [done|]. rewrite length_app. cbn. lia.
Qed.

Lemma window_read a h vs :
  window a h vs → ∃ n, rd a (slot RING_POW h) = Ok n ∧
    match vs with
    | v :: _ => n = RingNode v h ∧ v ≠ EMPTY
    | [] => val n = EMPTY ∧ 0 ≤ idx n ≤ h
    end.
Proof using Hpow.
  intros (Hlen & Hh & Hvs & Hcells). pose proof N_bounds.
  destruct (Hcells 0%nat) as (n & Hn & Hc); [lia|]. rewrite Z.add_0_r in Hn, Hc. exists n.
  rewrite slot_mod. split; [apply rd_Some; [apply Z.mod_pos_bound; lia|done]|].
  destruct vs; exact Hc.
Qed.

(** The ring at [l] holds [vs] and is followed by [next]; it is closed when it
    is followed by another. No ticket has reached [B], and the ticket [lo] has
    been reached in the last ring. *)
Definition ring_at (lo B : Z) (m : gmap loc (option ring)) (l : loc) (next : ptr) (vs : list Z)
    : Prop :=
  ∃ r h, m !! l = Some (Some r) ∧ window (array r) h vs ∧ rhead r = h ∧ rnext r = next ∧
    h + Z.of_nat (length vs) ≤ B ∧
    match next with
    | None => rtail r = h + Z.of_nat (length vs) ∧ lo ≤ rtail r
    | Some _ => rtail r = BIT63 + (h + Z.of_nat (length vs) + 1)
    end.

(** The rings of the queue are [ls], with the values [vss]; only the first one
    may be empty. *)
Record rep_seq (lo B : Z) (s : queue) (ls : list loc) (vss : list (list Z)) : Prop := {
  rep_length : length ls = length vss;
  rep_nodup : NoDup ls;
  rep_head : qhead s = ls !! 0%nat;
  rep_tail : qtail s = ls !! pred (length ls);
  rep_heap : heap_ok (mem s);
  rep_nrq i : nrq s !! i = None;
  rep_full i vs : vss !! S i = Some vs → vs ≠ [];
  rep_ring i l vs : ls !! i = Some l → vss !! i = Some vs →
    ring_at lo B (cells (mem s)) l (ls !! S i) vs;
}.

(** The queue holds the values [q], in their order. *)
Definition holds_seq (lo B : Z) (s : queue) (q : list Z) : Prop :=
  ∃ ls vss, rep_seq lo B s ls vss ∧ ls ≠ [] ∧ q = mjoin vss.

Lemma ring_at_mono lo lo' B B' m l next vs :
  lo' ≤ lo → B ≤ B' → ring_at lo B m l next vs → ring_at lo' B' m l next vs.
Proof.
  intros ?? (r & h & ? & ? & ? & ? & ? & Hn). exists r, h. split_and!; [done..|lia|].
  destruct next; [done|]. destruct Hn. split; [done|lia].
Qed.

Lemma ring_at_other lo B m l l' c next vs :
  l ≠ l' → ring_at lo B m l next vs → ring_at lo B (<[l' := c]> m) l next vs.
Proof. intros Hl (r & h & Hr & ?). exists r, h. by rewrite lookup_insert_ne by done. Qed.

(** *** Actions without interference *)

Lemma solo_rget {A B} l r (f : ring → outcome A) a (k : A → proc queue B) Q q :
  cells (mem q) !! l = Some (Some r) → f r = Ok a → wp (solo (k a)) Q q →
  wp (solo (atomic (rget (Some l) f) ≫= k)) Q q.
Proof.
  intros Hl Hf HQ. apply wp_solo_atomic. eapply wp_run_eq; [|exact HQ].
  by rewrite (rget_run _ _ r), Hf.
Qed.

Lemma solo_rmod {A B} l r (f : ring → outcome (A * ring)) x (k : A → proc queue B) Q q :
  cells (mem q) !! l = Some (Some r) → f r = Ok x → wp (solo (k x.1)) Q (upd q l x.2) →
  wp (solo (atomic (rmod (Some l) f) ≫= k)) Q q.
Proof.
  intros Hl Hf HQ. apply wp_solo_atomic. eapply wp_run_eq; [|exact HQ].
  by rewrite (rmod_run _ _ r), Hf.
Qed.

Lemma cells_upd q l r : cells (mem (upd q l r)) !! l = Some (Some r).
Proof. apply lookup_insert_eq. Qed.

Lemma upd_upd q l r1 r2 : upd (upd q l r1) l r2 = upd q l r2.
Proof. unfold upd. cbn. by rewrite insert_insert_eq. Qed.

Lemma CAS2_hit r i n n1 n2 o1 o2 :
  rd (array r) i = Ok n → n = RingNode o1 o2 → 0 ≤ i < Z.of_nat (length (array r)) →
  (n ← rd (array r) i;
   if bool_decide (val n = o1 ∧ idx n = o2) then
     a ← wr (array r) i (RingNode n1 n2); Ok (true, set_array a r)
   else Ok (false, r)) =
  Ok (true, set_array (<[Z.to_nat i := RingNode n1 n2]> (array r)) r).
Proof.
  intros -> -> Hi. ok_simpl. cbn [val idx]. rewrite bool_decide_true by done.
  unfold wr. by rewrite bool_decide_true.
Qed.

Lemma heap_ok_mem_upd q l c r :
  heap_ok (mem q) → cells (mem q) !! l = Some c → heap_ok (mem (upd q l r)).
Proof. apply heap_ok_upd. Qed.

(** *** [dequeue] on a ring *)

(** The cell of the first ticket gives its value, and the ring advances. *)
Lemma dequeue_cells_value fuel q l r h v vs tt' k (Q : option Z → queue → Prop) :
  cells (mem q) !! l = Some (Some r) → window (array r) h (v :: vs) → h ≤ TICKETS →
  Q (Some v) (upd q l (set_array (<[Z.to_nat (h mod N) := RingNode EMPTY (h + N)]> (array r)) r)) →
  wp (solo (dequeue_cells RING_POW (S fuel) (Some l) h tt' k)) Q q.
Proof using Hpow.
  intros Hl Hwin Hh HQ. pose proof Hwin as (Hlen & H0 & _). pose proof N_bounds as HN.
  destruct (window_read _ _ _ Hwin) as (n & Hn & -> & Hv).
  cbn [dequeue_cells]. apply wp_solo_bind. unfold dequeue_cell.
  eapply solo_rget; [done|by rewrite Hn|]. eapply solo_rget; [done|by rewrite Hn|].
  cbn beta. cbn [val idx]. cbv zeta.
  rewrite node_index_small, node_unsafe_small by (apply small_ticket; lia).
  rewrite bool_decide_false by lia. unfold is_empty. rewrite (bool_decide_false (v = EMPTY)) by done.
  cbn [negb]. rewrite bool_decide_true by done.
  eapply solo_rmod; [done|eapply CAS2_hit; [done|done|]|].
  { rewrite slot_mod. pose proof (Z.mod_pos_bound h N). lia. }
  cbn [fst snd]. apply wp_solo_ret, wp_solo_ret.
  rewrite Z.lor_0_l, u64_ticket, slot_mod by (unfold TICKETS in *; lia). exact HQ.
Qed.

(** On an empty ring the first ticket is given up. *)
Lemma dequeue_cells_empty fuel q l r h tl (Q : option Z → queue → Prop) :
  cells (mem q) !! l = Some (Some r) → window (array r) h [] → h ≤ TICKETS →
  rtail r = tl → u64 (tail_index tl - 1) ≤ h →
  Q None (upd q l (set_array (<[Z.to_nat (h mod N) := RingNode EMPTY (h + N)]> (array r)) r)) →
  wp (solo (dequeue_cells RING_POW (S fuel) (Some l) h None 0)) Q q.
Proof using Hpow.
  intros Hl Hwin Hh Htl Hle HQ. pose proof Hwin as (Hlen & H0 & _). pose proof N_bounds as HN.
  destruct (window_read _ _ _ Hwin) as ([v x] & Hn & Hv & Hx). cbn in Hv, Hx. subst v.
  cbn [dequeue_cells]. apply wp_solo_bind. unfold dequeue_cell.
  eapply solo_rget; [done|by rewrite Hn|]. eapply solo_rget; [done|by rewrite Hn|].
  cbn beta. cbn [val idx]. cbv zeta.
  rewrite node_index_small, node_unsafe_small by (apply small_ticket; lia).
  rewrite bool_decide_false by lia. change (is_empty EMPTY) with true. cbn [negb].
  apply wp_solo_bind. rewrite bool_decide_true by done.
  eapply solo_rget; [done|done|]. apply wp_solo_ret. cbv beta iota zeta. rewrite (bool_decide_false (0 ≠ 0)) by auto.
  rewrite Htl, (bool_decide_true (u64 _ ≤ h)) by done. cbn [orb].
  eapply solo_rmod; [done|eapply CAS2_hit; [done|done|]|].
  { rewrite slot_mod. pose proof (Z.mod_pos_bound h N). lia. }
  cbn [fst snd]. apply wp_solo_ret, wp_solo_ret.
  rewrite u64_ticket, slot_mod by (unfold TICKETS in *; lia). exact HQ.
Qed.

(** [fixState] raises [tail] to [head]. *)
Lemma fixState_solo fuel q l r (Q : unit → queue → Prop) :
  cells (mem q) !! l = Some (Some r) → 0 ≤ rhead r < U64_MOD → 0 ≤ rtail r < U64_MOD →
  Q tt (upd q l (set_tail (rtail r `max` rhead r) r)) →
  wp (solo (fixState (S fuel) (Some l))) Q q.
Proof using All.
  intros Hl Hh Ht HQ. cbn [fixState].
  eapply solo_rmod; [done|done|]. cbv zeta. rewrite FAA64_law. cbn [fst snd].
  rewrite Z.add_0_r, u64_small by done.
  eapply solo_rmod; [apply cells_upd|done|]. cbv zeta. rewrite FAA64_law. cbn [fst snd rhead set_tail].
  rewrite Z.add_0_r, u64_small by done. rewrite upd_upd.
  eapply solo_rget; [apply cells_upd|done|]. cbn [rtail set_head set_tail].
  rewrite bool_decide_false by auto.
  assert (set_head (rhead r) (set_tail (rtail r) r) = r) as -> by by destruct r.
  case_bool_decide.
  - eapply solo_rmod; [apply cells_upd|done|]. cbv zeta. rewrite CAS64_law, decide_True by done.
    cbn [fst snd]. rewrite upd_upd. apply wp_solo_ret. by rewrite Z.max_r in HQ by lia.
  - apply wp_solo_ret. rewrite Z.max_l in HQ by lia. by destruct r.
Qed.

(** *** The representation after an operation *)

Lemma rep_seq_mono lo lo' B B' s ls vss :
  lo' ≤ lo → B ≤ B' → rep_seq lo B s ls vss → rep_seq lo' B' s ls vss.
Proof. intros ?? []. constructor; eauto using ring_at_mono. Qed.

(** The ring at position [i] is replaced. *)
Lemma rep_seq_upd lo lo' B B' s ls vss i l vs vs' r r' :
  rep_seq lo B s ls vss → B ≤ B' → (lo' ≤ lo ∨ i = pred (length ls)) → ls !! i = Some l → vss !! i = Some vs →
  cells (mem s) !! l = Some (Some r) →
  ring_at lo' B' (cells (mem (upd s l r'))) l (ls !! S i) vs' → (vs' ≠ [] ∨ i = 0%nat) →
  rep_seq lo' B' (upd s l r') ls (<[i := vs']> vss).
Proof.
  intros [] HB Hlo Hl Hvs Hr Hring Hfull. constructor; cbn [upd mem qhead qtail nrq]; try done.
  - by rewrite length_insert.
  - by eapply heap_ok_upd.
  - intros j ws [(-> & <- & _)|[_ ?]]%list_lookup_insert_Some; [|eauto]. by destruct Hfull.
  - intros j l2 ws Hl2 Hws. apply list_lookup_insert_Some in Hws as [(<- & -> & _)|[Hne Hws]].
    + assert (l2 = l) as -> by congruence. exact Hring.
    + apply ring_at_other.
      * intros ->. apply Hne. by eapply NoDup_lookup.
      * destruct (rep_ring0 j l2 ws Hl2 Hws) as (rj & hj & ? & ? & ? & ? & ? & Hnx).
        exists rj, hj. split_and!; [done..|lia|].
        destruct (ls !! S j) as [nx|] eqn:E; [done|]. destruct Hnx. split; [done|].
        destruct Hlo as [?| ->]; [lia|]. exfalso. apply Hne.
        apply lookup_lt_Some in Hl2. apply lookup_ge_None_1 in E. lia.
Qed.

(** The first ring is left behind. *)
Lemma rep_seq_tail lo B s s' l ls vs vss :
  rep_seq lo B s (l :: ls) (vs :: vss) → ls ≠ [] →
  heap_ok (mem s') → (∀ x, x ≠ l → cells (mem s') !! x = cells (mem s) !! x) →
  qhead s' = ls !! 0%nat → qtail s' = qtail s → nrq s' = nrq s →
  rep_seq lo B s' ls vss.
Proof.
  intros [] Hne Hok Hm Hh Ht Hn. destruct ls as [|l1 ls]; [done|].
  constructor; rewrite ?Hh, ?Ht, ?Hn; [by injection rep_length0| |done|done|done|done| |].
  - by inversion rep_nodup0.
  - intros i ws Hi. by apply (rep_full0 (S i)).
  - intros i l2 ws Hl2 Hws. destruct (rep_ring0 (S i) l2 ws) as (r & h & Hr & ?); [done..|].
    exists r, h. rewrite Hm; [done|]. intros ->.
    by assert (0%nat = S i) by (by eapply NoDup_lookup).
Qed.

Lemma cas_qhead_run o n s :
  cas_qhead o n s =
  Ok ((CASPTR (qhead s) o n).1, Queue (mem s) (CASPTR (qhead s) o n).2 (qtail s) (nrq s)).
Proof. done. Qed.

Lemma cas_qtail_run o n s :
  cas_qtail o n s =
  Ok ((CASPTR (qtail s) o n).1, Queue (mem s) (qhead s) (CASPTR (qtail s) o n).2 (nrq s)).
Proof. done. Qed.

(** ** [dequeue] *)

Lemma dequeue_value lo B fuel inner s l ls v vs vss :
  rep_seq lo B s (l :: ls) ((v :: vs) :: vss) → B ≤ TICKETS →
  wp (solo (dequeue RING_POW (S fuel) (S inner)))
    (λ x s', x = v ∧ rep_seq lo B s' (l :: ls) (vs :: vss)) s.
Proof using All.
  intros Hrep HB. pose proof Hrep as [].
  destruct (rep_ring0 0%nat l (v :: vs)) as (r & h & Hr & Hwin & Hh & Hnext & HhB & Htail); [done..|].
  pose proof Hwin as (_ & H0 & _). cbn [length] in *. cbn [dequeue].
  apply wp_solo_atomic. eapply wp_run_eq; [reflexivity|]. rewrite rep_head0. cbn [lookup list_lookup].
  eapply solo_rmod; [done|done|]. cbv zeta. rewrite FAA64_law, Hh. cbn [fst snd].
  rewrite u64_ticket by (unfold TICKETS in *; lia).
  apply wp_solo_bind. eapply dequeue_cells_value; [apply cells_upd|exact Hwin|lia|].
  apply wp_solo_ret. split; [done|]. rewrite upd_upd.
  apply (rep_seq_upd lo lo B B s (l :: ls) ((v :: vs) :: vss) 0 l (v :: vs) vs r);
    [done|done|by left|done|done|done| |by right].
  eexists _, (h + 1). split; [apply cells_upd|]. cbn [array set_array set_head rhead rnext rtail].
  split_and!; [by apply (window_advance _ _ (v :: vs))|done|done|lia|].
  destruct ((l :: ls) !! 1%nat); [lia|]. destruct Htail. split; lia.
Qed.

Lemma dequeue_nothing B fuel inner s l :
  rep_seq 1 B s [l] [[]] → B < TICKETS →
  wp (solo (dequeue RING_POW (S fuel) (S inner)))
    (λ x s', x = EMPTY ∧ rep_seq 1 (B + 1) s' [l] [[]]) s.
Proof using All.
  intros Hrep HB. pose proof Hrep as [].
  destruct (rep_ring0 0%nat l []) as (r & h & Hr & Hwin & Hh & Hnext & HhB & Htail); [done..|].
  destruct Htail as [Htail Hlo]. pose proof Hwin as (_ & H0 & _).
  cbn [length Z.of_nat] in *. rewrite Z.add_0_r in *. cbn [dequeue].
  apply wp_solo_atomic. eapply wp_run_eq; [reflexivity|]. rewrite rep_head0. cbn [lookup list_lookup].
  eapply solo_rmod; [done|done|]. cbv zeta. rewrite FAA64_law, Hh. cbn [fst snd].
  rewrite u64_ticket by (unfold TICKETS in *; lia).
  assert (u64 (tail_index h - 1) ≤ h) as Hle.
  { rewrite tail_index_small, u64_ticket by (unfold BIT63, TICKETS in *; lia). lia. }
  apply wp_solo_bind. eapply dequeue_cells_empty;
    [apply cells_upd|exact Hwin|lia|exact Htail|exact Hle|].
  rewrite upd_upd. eapply solo_rget; [apply cells_upd|done|]. cbn [rtail set_array set_head].
  rewrite Htail, bool_decide_true by done.
  apply wp_solo_bind, (fixState_solo _ _ _ _ _ (cells_upd _ _ _));
    cbn [rhead rtail set_array set_head]; [unfold U64_MOD, TICKETS in *; lia..|].
  rewrite upd_upd, Htail, Z.max_r by lia. cbn [set_tail set_array set_head rhead rnext array].
  eapply solo_rget; [apply cells_upd|done|]. cbn [rnext set_tail set_array set_head]. rewrite Hnext.
  apply wp_solo_ret. split; [done|].
  apply (rep_seq_upd 1 1 B (B + 1) s [l] [[]] 0 l [] [] r);
    [done|lia|by left|done|done|done| |by right].
  eexists _, (h + 1). split; [apply cells_upd|]. cbn [array rhead rnext rtail].
  split_and!; [by apply (window_advance _ _ [])|done|done|cbn; lia|]. cbn. lia.
Qed.

Lemma dequeue_next lo B fuel inner s l l1 ls v vs vss :
  rep_seq lo B s (l :: l1 :: ls) ([] :: (v :: vs) :: vss) → B < TICKETS →
  wp (solo (dequeue RING_POW (S (S fuel)) (S inner)))
    (λ x s', x = v ∧ rep_seq lo B s' (l1 :: ls) (vs :: vss)) s.
Proof using All.
  intros Hrep HB. pose proof Hrep as [].
  destruct (rep_ring0 0%nat l []) as (r & h & Hr & Hwin & Hh & Hnext & HhB & Htail); [done..|].
  pose proof Hwin as (_ & H0 & _). cbn [lookup list_lookup] in Hnext, Htail.
  cbn [length Z.of_nat] in *. rewrite Z.add_0_r in *.
  remember (S fuel) as fuel' eqn:Ef. cbn [dequeue].
  apply wp_solo_atomic. eapply wp_run_eq; [reflexivity|]. rewrite rep_head0. cbn [lookup list_lookup].
  eapply solo_rmod; [done|done|]. cbv zeta. rewrite FAA64_law, Hh. cbn [fst snd].
  rewrite u64_ticket by (unfold TICKETS in *; lia).
  assert (u64 (tail_index (BIT63 + (h + 1)) - 1) ≤ h) as Hle.
  { rewrite tail_index_closed, u64_ticket by (unfold BIT63, TICKETS in *; lia). lia. }
  apply wp_solo_bind. eapply dequeue_cells_empty;
    [apply cells_upd|exact Hwin|lia|exact Htail|exact Hle|].
  rewrite upd_upd. eapply solo_rget; [apply cells_upd|done|]. cbn [rtail set_array set_head].
  rewrite Htail, bool_decide_true by done.
  apply wp_solo_bind, (fixState_solo _ _ _ _ _ (cells_upd _ _ _));
    cbn [rhead rtail set_array set_head]; [unfold U64_MOD, BIT63, TICKETS in *; lia..|].
  rewrite upd_upd, Htail. cbn [set_tail set_array set_head rhead rnext array].
  eapply solo_rget; [apply cells_upd|done|]. cbn [rnext set_tail set_array set_head]. rewrite Hnext.
  apply wp_solo_atomic. eapply wp_run_eq; [apply cas_qhead_run|]. rewrite CASPTR_law.
  cbn [qhead upd]. rewrite rep_head0, decide_True by done. cbn [fst snd]. subst fuel'.
  eapply dequeue_value; [|lia].
  eapply rep_seq_tail; [done|done|by eapply heap_ok_upd| |done..].
  intros x Hx. cbn. by rewrite lookup_insert_ne.
Qed.

(** ** [enqueue] *)

(** The cell of a ticket [t] within [N] of [h]. *)
Lemma window_cell a h vs k :
  window a h vs → 0 ≤ k < N →
  ∃ n, rd a (slot RING_POW (h + k)) = Ok n ∧
    match vs !! Z.to_nat k with
    | Some v => n = RingNode v (h + k) ∧ v ≠ EMPTY
    | None => val n = EMPTY ∧ 0 ≤ idx n ≤ h + k
    end.
Proof using Hpow.
  intros (Hlen & Hh & Hvs & Hcells) Hk. pose proof N_bounds.
  destruct (Hcells (Z.to_nat k)) as (n & Hn & Hc); [lia|]. rewrite Z2Nat.id in Hn, Hc by lia.
  exists n. rewrite slot_mod. split; [|done].
  apply rd_Some; [apply Z.mod_pos_bound; lia|done].
Qed.

(** There is room: the value goes into the cell of the ticket [t]. *)
Lemma enqueue_cell_room q l r h vs arg t (Q : bool → queue → Prop) :
  cells (mem q) !! l = Some (Some r) → window (array r) h vs → Z.of_nat (length vs) < N →
  t = h + Z.of_nat (length vs) → t ≤ TICKETS →
  Q true (upd q l (set_array (<[Z.to_nat (t mod N) := RingNode arg t]> (array r)) r)) →
  wp (solo (enqueue_cell RING_POW (Some l) arg t)) Q q.
Proof using Hpow.
  intros Hl Hwin Hroom Et Ht HQ. pose proof Hwin as (Hlen & H0 & _). pose proof N_bounds as HN.
  destruct (window_cell _ _ _ (Z.of_nat (length vs)) Hwin) as ([v x] & Hn & Hc); [lia|].
  rewrite <-Et in Hn, Hc. rewrite Nat2Z.id, lookup_ge_None_2 in Hc by lia. cbn in Hc.
  destruct Hc as [-> Hx]. unfold enqueue_cell.
  eapply solo_rget; [done|by rewrite Hn|]. eapply solo_rget; [done|by rewrite Hn|].
  cbn [val idx]. rewrite node_index_small, node_unsafe_small by (apply small_ticket; lia).
  change (is_empty EMPTY) with true. rewrite bool_decide_true by lia. cbn [andb].
  rewrite bool_decide_true by done.
  change (wp (solo (atomic (CAS2 (Some l) (slot RING_POW t) EMPTY x arg t) ≫= mret)) Q q).
  eapply solo_rmod; [done|eapply CAS2_hit; [done|done|]|].
  { rewrite slot_mod. pose proof (Z.mod_pos_bound t N). lia. }
  cbn [fst snd]. apply wp_solo_ret. by rewrite slot_mod.
Qed.

(** The ring is full: the cell of the ticket [t] still holds its oldest value. *)
Lemma enqueue_cell_full q l r h vs arg t (Q : bool → queue → Prop) :
  cells (mem q) !! l = Some (Some r) → window (array r) h vs → Z.of_nat (length vs) = N →
  t = h + N → Q false q →
  wp (solo (enqueue_cell RING_POW (Some l) arg t)) Q q.
Proof using Hpow.
  intros Hl Hwin Hfull -> HQ. pose proof N_bounds as HN.
  destruct (window_read _ _ _ Hwin) as (n & Hn & Hc).
  destruct vs as [|v vs]; [cbn in Hfull; lia|]. destruct Hc as [-> Hv].
  assert (slot RING_POW (h + N) = slot RING_POW h) as Hs.
  { rewrite !slot_mod. replace (h + N) with (h + 1 * N) by lia. by rewrite Z.mod_add by lia. }
  unfold enqueue_cell. rewrite Hs.
  eapply solo_rget; [done|by rewrite Hn|]. eapply solo_rget; [done|by rewrite Hn|].
  cbn [val idx]. unfold is_empty. rewrite bool_decide_false by done. by apply wp_solo_ret.
Qed.

Lemma init_window : window (array (init_ring RING_POW)) 0 [].
Proof using Hpow.
  pose proof N_bounds as HN. unfold init_ring. cbn [array]. split_and!; [|lia|cbn; lia|].
  - rewrite length_fmap, length_seq. lia.
  - intros k Hk. rewrite Z.add_0_l, Z.mod_small by lia.
    exists (RingNode EMPTY (Z.of_nat k)). split; [|cbn; split; [done|lia]].
    rewrite list_lookup_fmap, lookup_seq_lt by lia. cbn. f_equal. f_equal. lia.
Qed.

(** The new ring, with [arg] in its first cell. *)
Definition solo_ring (arg : Z) : ring :=
  RingQueue 0 1 None (<[0%nat := RingNode arg 0]> (array (init_ring RING_POW))).

Lemma solo_ring_window arg : arg ≠ EMPTY → window (array (solo_ring arg)) 0 [arg].
Proof using Hpow.
  intros Harg. pose proof N_bounds as HN. cbn [array solo_ring].
  pose proof init_window as Hinit.
  pose proof (window_put _ 0 [] arg Hinit) as Hput. cbn [length] in Hput.
  rewrite Z.add_0_l, Z.mod_0_l in Hput by lia. apply Hput; [lia|done].
Qed.

(** From the label [alloc], on the last ring. *)
Lemma enqueue_alloc_solo tid arg q l r (Q : bool → queue → Prop) :
  heap_ok (mem q) → cells (mem q) !! l = Some (Some r) → rnext r = None → qtail q = Some l →
  (∀ i, nrq q !! i = None) →
  (∀ n q', cells (mem q) !! n = None →
    cells (mem q') =
      <[l := Some (set_next (Some n) r)]> (<[n := Some (solo_ring arg)]> (cells (mem q))) →
    heap_ok (mem q') → qhead q' = qhead q → qtail q' = Some n → (∀ i, nrq q' !! i = None) →
    Q true q') →
  wp (solo (enqueue_alloc RING_POW tid (Some l) arg)) Q q.
Proof using All.
  intros Hok Hl Hnext Htail Hnrq HQ. pose proof N_bounds as HN. unfold enqueue_alloc.
  apply wp_solo_atomic. eapply wp_run_eq; [reflexivity|]. cbn beta. rewrite Hnrq.
  apply wp_solo_atomic, wp_alloc_nrq; [done|]. intros n hp Hn Hc Hok1.
  assert (l ≠ n) as Hln by congruence.
  apply wp_solo_atomic. eapply wp_run_eq; [reflexivity|]. cbn [nrq]. rewrite lookup_insert_eq.
  assert (∃ c cs, array (init_ring RING_POW) = c :: cs) as (c & cs & Ha).
  { unfold init_ring. cbn [array]. destruct (Z.to_nat N) eqn:E; [lia|]. cbn. eauto. }
  eapply solo_rmod; [cbn; by rewrite Hc, lookup_insert_eq|done|]. cbn [fst snd].
  eapply solo_rmod; [apply cells_upd|by cbn [array set_tail]; rewrite Ha|]. cbn [fst snd].
  eapply solo_rmod; [apply cells_upd|reflexivity|]. cbn [fst snd]. rewrite !upd_upd.
  eapply solo_rmod; [cbn; by rewrite lookup_insert_ne, Hc, lookup_insert_ne|done|]. cbv zeta.
  rewrite CASPTR_law, decide_True by done. cbn [fst snd].
  apply wp_solo_atomic. eapply wp_run_eq; [apply cas_qtail_run|]. rewrite CASPTR_law.
  cbn [qtail upd]. rewrite decide_True by done. cbn [fst snd].
  apply wp_solo_atomic. eapply wp_run_eq; [reflexivity|]. apply wp_solo_ret.
  apply (HQ n); [done| | |done|done|].
  - cbn [mem cells upd]. rewrite Hc, insert_insert_eq. do 3 f_equal. unfold solo_ring. by rewrite Ha.
  - apply (heap_ok_mem_upd (upd _ n _) l (Some r)).
    + by apply (heap_ok_mem_upd _ n (Some (init_ring RING_POW))); [|cbn; rewrite Hc, lookup_insert_eq].
    + etrans; [by apply lookup_insert_ne|]. cbn [mem]. by rewrite Hc, lookup_insert_ne.
  - intros i. cbn [nrq upd]. rewrite delete_insert_eq. apply lookup_delete_None. auto.
Qed.

(** A ring that is not the last one stays as it is when another is appended. *)
Lemma ring_at_inner lo B m m' ls l n j x ws :
  (ls ++ [l]) !! j = Some x → x ≠ l → j ≠ length ls → m' !! x = m !! x →
  ring_at lo B m x ((ls ++ [l]) !! S j) ws →
  ring_at 1 B m' x (((ls ++ [l]) ++ [n]) !! S j) ws.
Proof.
  intros Hx Hxl Hj Hm (r & h & Hr & Hring). apply lookup_lt_Some in Hx.
  rewrite length_app, Nat.add_1_r in Hx.
  assert (S j < length (ls ++ [l]))%nat as HSj by (rewrite length_app, Nat.add_1_r; lia).
  rewrite (lookup_app_l (ls ++ [l])) by done.
  destruct ((ls ++ [l]) !! S j) as [y|] eqn:E; [|apply lookup_ge_None_1 in E; lia].
  exists r, h. by rewrite Hm.
Qed.

(** The last ring, once it is closed. *)
Lemma ring_at_closed lo B m m' l vs r r' n :
  ring_at lo B m l None vs → m !! l = Some (Some r) → m' !! l = Some (Some r') →
  array r' = array r → rhead r' = rhead r → rnext r' = Some n →
  rtail r' = BIT63 + (rtail r + 1) → ring_at 1 B m' l (Some n) vs.
Proof.
  intros (r0 & h & Hr0 & Hwin & Hh0 & _ & HhB & Ht0 & _) Hr Hr' Ha Hh Hnx Htl.
  assert (r0 = r) as -> by congruence. exists r', h. rewrite Ha, Hh, Hnx, Htl, Ht0. by split_and!.
Qed.

(** The last ring is full: it is closed, and another follows it. *)
Lemma rep_seq_snoc lo B s s' ls vss l vs r r' n arg :
  rep_seq lo B s (ls ++ [l]) (vss ++ [vs]) → length ls = length vss → vs ≠ [] → 1 ≤ B →
  cells (mem s) !! l = Some (Some r) → cells (mem s) !! n = None → arg ≠ EMPTY →
  array r' = array r → rhead r' = rhead r → rnext r' = Some n →
  rtail r' = BIT63 + (rtail r + 1) →
  cells (mem s') = <[l := Some r']> (<[n := Some (solo_ring arg)]> (cells (mem s))) →
  heap_ok (mem s') → qhead s' = qhead s → qtail s' = Some n → (∀ i, nrq s' !! i = None) →
  rep_seq 1 B s' ((ls ++ [l]) ++ [n]) ((vss ++ [vs]) ++ [[arg]]).
Proof using Hpow.
  intros [] Hlen Hvs HB Hr Hn Harg Ha Hh Hnx Htl Hc Hok Hqh Hqt Hnrq.
  assert (∀ j x, (ls ++ [l]) !! j = Some x → x ≠ n) as Hold.
  { intros j x Hx ->. assert (is_Some ((vss ++ [vs]) !! j)) as [ws Hws].
    { apply lookup_lt_is_Some. rewrite <-rep_length0. by eapply lookup_lt_Some. }
    destruct (rep_ring0 j n ws Hx Hws) as (? & ? & ? & _). congruence. }
  assert ((ls ++ [l]) !! length ls = Some l) as Hl by by apply list_lookup_middle.
  constructor; [by rewrite (length_app (ls ++ [l])), (length_app (vss ++ [vs])), rep_length0
    | | | |done|done| |].
  - apply list.NoDup_app. split_and!; [done| |apply NoDup_singleton].
    intros x [j Hj]%list_elem_of_lookup ->%list_elem_of_singleton. by eapply Hold.
  - rewrite Hqh, rep_head0. symmetry. apply lookup_app_l. rewrite length_app. cbn. lia.
  - rewrite Hqt, length_app, Nat.add_1_r. cbn [Nat.pred]. symmetry. by apply list_lookup_middle.
  - intros j ws Hj. apply lookup_snoc_Some in Hj as [[_ Hj]|[_ <-]]; [by eapply rep_full0|done].
  - intros j x ws Hx Hws. apply lookup_snoc_Some in Hx as [[Hjl Hx]|[Hj <-]].
    + rewrite (lookup_app_l (vss ++ [vs])) in Hws by (rewrite <-rep_length0; lia).
      pose proof (rep_ring0 j x ws Hx Hws) as Hring. destruct (decide (j = length ls)) as [->|Hj].
      * assert (x = l) as -> by congruence.
        rewrite lookup_ge_None_2 in Hring by (rewrite length_app; cbn; lia).
        rewrite list_lookup_middle by (rewrite length_app; cbn; lia).
        eapply ring_at_closed; [done|done| |done..]. by rewrite Hc, lookup_insert_eq.
      * assert (x ≠ l) as Hxl by (intros ->; by apply Hj; eapply NoDup_lookup).
        eapply ring_at_inner; [done..| |done].
        by rewrite Hc, !lookup_insert_ne by (try done; by apply not_eq_sym, (Hold j)).
    + rewrite Hj, rep_length0, list_lookup_middle in Hws by done. injection Hws as <-.
      rewrite lookup_ge_None_2 by (rewrite length_app; cbn; lia).
      exists (solo_ring arg), 0. rewrite Hc, lookup_insert_ne, lookup_insert_eq by by eapply Hold.
      split_and!; [done|by apply solo_ring_window|done..|cbn; lia|done|done].
Qed.

Lemma rep_seq_last lo B s ls l vss vs :
  rep_seq lo B s (ls ++ [l]) (vss ++ [vs]) →
  length ls = length vss ∧ qtail s = Some l ∧ (ls ++ [l]) !! length ls = Some l ∧
  (vss ++ [vs]) !! length ls = Some vs ∧ ring_at lo B (cells (mem s)) l None vs.
Proof.
  intros []. assert (length ls = length vss) as E
    by (rewrite !length_app, !Nat.add_1_r in rep_length0; lia).
  assert ((ls ++ [l]) !! length ls = Some l) as Hl by by apply list_lookup_middle.
  assert ((vss ++ [vs]) !! length ls = Some vs) as Hvs by by apply list_lookup_middle.
  split_and!; [done| |done|done|].
  - by rewrite rep_tail0, length_app, Nat.add_1_r.
  - pose proof (rep_ring0 _ _ _ Hl Hvs) as H0.
    by rewrite (lookup_ge_None_2 (ls ++ [l])) in H0 by (rewrite length_app; cbn; lia).
Qed.

Lemma enqueue_room lo B fuel tid s ls l vss vs arg :
  rep_seq lo B s (ls ++ [l]) (vss ++ [vs]) → 0 ≤ B < TICKETS → arg ≠ EMPTY →
  Z.of_nat (length vs) < N →
  wp (solo (enqueue RING_POW (S fuel) tid arg))
    (λ _ s', rep_seq 1 (B + 1) s' (ls ++ [l]) (vss ++ [vs ++ [arg]])) s.
Proof using All.
  intros Hrep HB Harg Hroom.
  destruct (rep_seq_last _ _ _ _ _ _ _ Hrep) as (Hlen & Hqt & Hl & Hvs & Hring).
  destruct Hring as (r & h & Hr & Hwin & Hh & Hnext & HhB & Htail & Hlo).
  pose proof Hwin as (_ & H0 & _). unfold enqueue. cbn [enqueue_loop].
  apply wp_solo_atomic. eapply wp_run_eq; [reflexivity|]. rewrite Hqt.
  eapply solo_rget; [done|done|]. rewrite Hnext.
  eapply solo_rmod; [done|done|]. cbv zeta. rewrite FAA64_law, Htail. cbn [fst snd].
  rewrite crq_open by (unfold BIT63, TICKETS in *; lia).
  rewrite u64_ticket by (unfold TICKETS in *; lia).
  apply wp_solo_bind. eapply enqueue_cell_room; [apply cells_upd|exact Hwin|done|done|lia|].
  apply wp_solo_ret. rewrite upd_upd.
  replace (vss ++ [vs ++ [arg]]) with (<[length ls := vs ++ [arg]]> (vss ++ [vs]))
    by (rewrite Hlen, insert_app_r_alt, Nat.sub_diag by lia; done).
  apply (rep_seq_upd lo 1 B (B + 1) s _ _ _ l vs (vs ++ [arg]) r); try done; [lia| | |].
  - right. by rewrite length_app, Nat.add_1_r.
  - rewrite (lookup_ge_None_2 (ls ++ [l])) by (rewrite length_app; cbn; lia).
    eexists _, h. split; [apply cells_upd|]. cbn [array set_array set_tail rhead rnext rtail].
    rewrite length_app. cbn [length].
    split_and!; [by apply window_put|done|done|lia|lia|lia].
  - left. by destruct vs.
Qed.

Lemma enqueue_full lo B fuel tid s ls l vss vs arg :
  rep_seq lo B s (ls ++ [l]) (vss ++ [vs]) → 0 ≤ B < TICKETS → arg ≠ EMPTY →
  Z.of_nat (length vs) = N →
  wp (solo (enqueue RING_POW (S fuel) tid arg))
    (λ _ s', ∃ n, rep_seq 1 (B + 1) s' ((ls ++ [l]) ++ [n]) ((vss ++ [vs]) ++ [[arg]])) s.
Proof using All.
  intros Hrep HB Harg Hfull. pose proof N_bounds as HN.
  destruct (rep_seq_last _ _ _ _ _ _ _ Hrep) as (Hlen & Hqt & Hl & Hvs & Hring).
  destruct Hring as (r & h & Hr & Hwin & Hh & Hnext & HhB & Htail & Hlo).
  pose proof Hwin as (_ & H0 & _). unfold enqueue. cbn [enqueue_loop].
  apply wp_solo_atomic. eapply wp_run_eq; [reflexivity|]. rewrite Hqt.
  eapply solo_rget; [done|done|]. rewrite Hnext.
  eapply solo_rmod; [done|done|]. cbv zeta. rewrite FAA64_law, Htail. cbn [fst snd].
  rewrite crq_open by (unfold BIT63, TICKETS in *; lia).
  rewrite !(u64_ticket (_ + 1)) by (unfold TICKETS in *; lia).
  apply wp_solo_bind. eapply enqueue_cell_full; [apply cells_upd|exact Hwin|done|lia|].
  eapply solo_rget; [apply cells_upd|done|]. cbn [rhead set_tail]. rewrite Hh, Hfull.
  rewrite u64_ticket by (unfold TICKETS in *; lia). rewrite bool_decide_true by lia.
  apply wp_solo_atomic, wp_lift. rewrite int_add_ok by (unfold INT_MIN, INT_MAX; lia).
  apply wp_solo_bind. unfold close_crq. rewrite bool_decide_true by lia. cbv zeta.
  change (solo (atomic ?m)) with (solo (atomic m ≫= mret)).
  eapply solo_rmod; [apply cells_upd|done|]. cbv zeta. cbn [rtail set_tail].
  rewrite !(u64_ticket (_ + 1)) by (unfold TICKETS in *; lia).
  rewrite CAS64_law, decide_True by done. cbn [fst snd]. rewrite upd_upd. apply wp_solo_ret.
  rewrite lor_BIT63 by (unfold BIT63, TICKETS in *; lia).
  apply wp_solo_bind. eapply enqueue_alloc_solo.
  - eapply heap_ok_mem_upd; [by apply (rep_heap _ _ _ _ _ Hrep)|done].
  - apply cells_upd.
  - done.
  - done.
  - apply (rep_nrq _ _ _ _ _ Hrep).
  - intros n s' Hn Hc Hok Hqh' Hqt' Hnrq'. apply wp_solo_ret. exists n.
    assert (l ≠ n) as Hln by (intros <-; by rewrite cells_upd in Hn).
    cbn [mem cells upd] in Hn, Hc. rewrite lookup_insert_ne in Hn by done.
    apply (rep_seq_mono lo lo B (B + 1)) in Hrep; [|done|lia].
    apply (rep_seq_snoc lo (B + 1) s s' ls vss l vs r
      (set_next (Some n) (set_tail (BIT63 + (h + N + 1)) r))); try done.
    + intros ->. cbn in Hfull. lia.
    + lia.
    + cbn [rtail set_next set_tail]. rewrite Htail, Hfull. lia.
    + rewrite Hc, (insert_insert_ne _ n l) by done. by rewrite insert_insert_eq.
Qed.

(** ** Both operations on the queue *)

Lemma enqueue_holds lo B fuel tid s q arg :
  holds_seq lo B s q → 0 ≤ B < TICKETS → arg ≠ EMPTY →
  wp (solo (enqueue RING_POW (S fuel) tid arg)) (λ _ s', holds_seq 1 (B + 1) s' (q ++ [arg])) s.
Proof using All.
  intros (ls & vss & Hrep & Hne & ->) HB Harg.
  destruct ls as [|l ls _] using rev_ind; [done|].
  destruct vss as [|vs vss _] using rev_ind.
  { destruct Hrep. rewrite length_app, Nat.add_1_r in rep_length0. done. }
  assert (Z.of_nat (length vs) ≤ N) as Hle.
  { destruct (rep_seq_last _ _ _ _ _ _ _ Hrep) as (_ & _ & _ & _ & r & h & _ & (_ & _ & ? & _) & _).
    done. }
  destruct (decide (Z.of_nat (length vs) = N)) as [Hfull|Hroom].
  - eapply wp_mono; [by eapply enqueue_full|]. intros [] s' [n Hrep'].
    eexists _, _. split; [exact Hrep'|]. split; [by destruct (ls ++ [l])|].
    rewrite !join_app. cbn. by rewrite app_nil_r.
  - eapply wp_mono; [eapply enqueue_room; [done..|lia]|]. intros [] s' Hrep'.
    eexists _, _. split; [exact Hrep'|]. split; [done|].
    rewrite !join_app. cbn. by rewrite !app_nil_r, app_assoc.
Qed.

Lemma dequeue_holds B fuel inner s q :
  holds_seq 1 B s q → B < TICKETS →
  wp (solo (dequeue RING_POW (S (S fuel)) (S inner)))
    (λ v s', v = match q with [] => EMPTY | x :: _ => x end ∧ holds_seq 1 (B + 1) s' (drop 1 q)) s.
Proof using All.
  intros (ls & vss & Hrep & Hne & ->) HB.
  destruct ls as [|l ls]; [done|]. destruct vss as [|[|v vs] vss]; [by destruct Hrep| |].
  - destruct vss as [|[|v vs] vss].
    + assert (ls = []) as -> by (pose proof (rep_length _ _ _ _ _ Hrep); by destruct ls).
      eapply wp_mono; [by eapply (dequeue_nothing B)|]. intros x s' [-> Hrep']. split; [done|].
      by exists [l], [[]].
    + exfalso. by apply (rep_full _ _ _ _ _ Hrep 0 []).
    + destruct ls as [|l1 ls]; [by pose proof (rep_length _ _ _ _ _ Hrep)|].
      eapply wp_mono; [by eapply (dequeue_next 1 B)|]. intros x s' [-> Hrep']. split; [done|].
      exists (l1 :: ls), (vs :: vss). split; [|done].
      eapply rep_seq_mono; [done| |exact Hrep']. lia.
  - eapply wp_mono; [eapply (dequeue_value 1 B); [done|lia]|]. intros x s' [-> Hrep'].
    split; [done|]. exists (l :: ls), (vs :: vss). split; [|done].
    eapply rep_seq_mono; [done| |exact Hrep']. lia.
Qed.

(** Calls made one after the other, each by the thread given with it. *)
Fixpoint solo_calls (fuel inner : nat) (cs : list (nat * call)) : M queue (list Z) :=
  match cs with
  | [] => mret []
  | (tid, c) :: cs' =>
      v ← solo (call_body RING_POW fuel inner tid c);
      vs ← solo_calls fuel inner cs';
      mret (v :: vs)
  end.

(** The same calls on a list. *)
Fixpoint fifo_calls (q : list Z) (cs : list (nat * call)) : list Z :=
  match cs with
  | [] => []
  | (_, Enqueue v) :: cs' => 0 :: fifo_calls (q ++ [v]) cs'
  | (_, Dequeue) :: cs' =>
      match q with
      | [] => EMPTY :: fifo_calls [] cs'
      | x :: q' => x :: fifo_calls q' cs'
      end
  end.

Lemma call_holds B fuel inner tid c s q :
  holds_seq 1 B s q → 0 ≤ B < TICKETS → call_ok c →
  wp (solo (call_body RING_POW (S (S fuel)) (S inner) tid c))
    (λ v s', ∃ q', holds_seq 1 (B + 1) s' q' ∧
      ∀ cs, fifo_calls q ((tid, c) :: cs) = v :: fifo_calls q' cs) s.
Proof using All.
  intros Hq HB Hc. destruct c as [arg|]; cbn [call_body].
  - apply wp_solo_bind. eapply wp_mono; [by eapply enqueue_holds|]. intros [] s' Hs'.
    apply wp_solo_ret. by eexists.
  - eapply wp_mono; [apply dequeue_holds; [done|lia]|]. intros v s' [-> Hs'].
    exists (drop 1 q). split; [done|]. by destruct q.
Qed.

Lemma solo_calls_fifo B fuel inner cs s q :
  holds_seq 1 B s q → 0 ≤ B → B + Z.of_nat (length cs) ≤ TICKETS →
  Forall (λ c, call_ok c.2) cs →
  wp (solo_calls (S (S fuel)) (S inner) cs) (λ vs _, vs = fifo_calls q cs) s.
Proof using All.
  revert B s q. induction cs as [|[tid c] cs IH]; intros B s q Hq HB Hlen Hcs; [done|].
  apply Forall_cons_1 in Hcs as [Hc Hcs]. cbn [length] in Hlen.
  apply wp_bind. eapply wp_mono; [apply (call_holds B); [done|lia|done]|].
  intros v s' (q' & Hq' & Hspec). apply wp_bind.
  eapply wp_mono; [by apply (IH (B + 1)); [|lia|lia|]|]. intros vs s'' ->. apply wp_ret.
  by rewrite Hspec.
Qed.
End seq.
