(* ===== verification/LcrqFifo.v ===== *)
(** The properties of the queue of [src/snippets/lcrq.c] used by one thread at
    a time: it is a FIFO queue once something has been enqueued, and a
    [dequeue] before that never returns. *)

From S2P Require Import Prelude CInt Heap Proc Lcrq LcrqInv LcrqSafe LcrqClaims LcrqSeq.
Local Open Scope Z_scope.

(** ** The queue at the start *)

Section initial.
Context `{Primitives} {HL : PrimitivesLaws} (RING_POW : nat).
Hypothesis Hpow : (RING_POW ≤ 30)%nat.
Abbreviation N := (RING_SIZE RING_POW).

Definition initial_values (full : bool) : list Z :=
  if full then replicate (Z.to_nat (N / 2)) 0 else [].

Lemma half_bounds : 0 ≤ N / 2 ≤ N.
Proof using Hpow.
  pose proof (N_bounds RING_POW Hpow). split; [apply Z.div_pos; lia|].
  apply Z.div_le_upper_bound; lia.
Qed.

Lemma fill_window full :
  window RING_POW (array (fill_ring RING_POW full (init_ring RING_POW))) 0 (initial_values full).
Proof using Hpow.
  destruct full; [|by apply init_window]. pose proof half_bounds as Hh.
  cbn [fill_ring array initial_values]. rewrite fill_array.
  split_and!; [|lia|rewrite length_replicate; lia|].
  - rewrite length_fmap, length_seq. lia.
  - intros k Hk. rewrite Z.add_0_l, Z.mod_small by lia. eexists. split.
    { rewrite list_lookup_fmap, lookup_seq_lt by lia. done. }
    rewrite Nat2Z.id. cbn. destruct (decide (Z.of_nat k < N / 2)).
    + rewrite lookup_replicate_2 by lia. by rewrite bool_decide_true.
    + rewrite lookup_ge_None_2 by (rewrite length_replicate; lia).
      rewrite bool_decide_false by done. cbn. split; [done|lia].
Qed.

Lemma initial_holds full lo s :
  queue_initial RING_POW full = Ok s → lo ≤ Z.of_nat (length (initial_values full)) →
  holds_seq RING_POW lo (2 ^ 30) s (initial_values full).
Proof using All.
  intros Hs Hlo. pose proof (initial_queue RING_POW full) as Hq. rewrite Hs in Hq.
  destruct Hq as (rq & Hc & Hok & Hh & Ht & Hn). pose proof (fill_window full) as Hwin.
  pose proof (N_bounds RING_POW Hpow) as HN.
  exists [rq], [initial_values full]. split; [|split; [done|by cbn; rewrite app_nil_r]].
  constructor; [done|apply NoDup_singleton|done|done|done| |done|].
  - intros i. by rewrite Hn, lookup_empty.
  - intros [|i] l vs; [|done]. intros [= <-] [= <-]. eexists _, 0. cbn [lookup list_lookup].
    split; [by rewrite Hc, lookup_singleton_eq|].
    split; [exact Hwin|].
    pose proof half_bounds. destruct Hwin as (_ & _ & Hle & _).
    destruct full; cbn [fill_ring rhead rnext rtail initial_values] in *; split_and!; try done.
    all: rewrite ?length_replicate in *; cbn [length] in *;
      try change (rtail (init_ring RING_POW)) with 0; lia.
Qed.
End initial.

(** ** Programs that may run out of fuel *)

(** [m] ends in a state satisfying [Q] or its fuel is spent. *)
Definition wlp {S A} (m : M S A) (Q : A → S → Prop) (s : S) : Prop :=
  match m s with Ok (a, s') => Q a s' | Fail f => f = OutOfFuel end.

Section wlp.
Context {S : Type}.

Lemma wlp_ret {A} (a : A) Q (s : S) : Q a s → wlp (solo (mret a)) Q s.
Proof. done. Qed.

Lemma wlp_atomic {A B} (m : M S A) (k : A → proc S B) Q s a s' :
  m s = Ok (a, s') → wlp (solo (k a)) Q s' → wlp (solo (atomic m ≫= k)) Q s.
Proof. intros Hm HQ. unfold wlp. cbn. unfold mbind, M_bind. rewrite Hm. exact HQ. Qed.

Lemma wlp_bind {A B} (p : proc S A) (k : A → proc S B) Q s :
  wlp (solo p) (λ a, wlp (solo (k a)) Q) s → wlp (solo (p ≫= k)) Q s.
Proof.
  unfold wlp. rewrite solo_bind. unfold mbind, M_bind. by destruct (solo p s) as [[a s']|].
Qed.
End wlp.

Lemma wlp_rget {A B} l r (f : ring → outcome A) a (k : A → proc queue B) Q q :
  cells (mem q) !! l = Some (Some r) → f r = Ok a → wlp (solo (k a)) Q q →
  wlp (solo (atomic (rget (Some l) f) ≫= k)) Q q.
Proof. intros Hl Hf. apply wlp_atomic. by rewrite (rget_run _ _ r), Hf. Qed.

Lemma wlp_rmod {A B} l r (f : ring → outcome (A * ring)) x (k : A → proc queue B) Q q :
  cells (mem q) !! l = Some (Some r) → f r = Ok x → wlp (solo (k x.1)) Q (upd q l x.2) →
  wlp (solo (atomic (rmod (Some l) f) ≫= k)) Q q.
Proof. intros Hl Hf. apply wlp_atomic. by rewrite (rmod_run _ _ r), Hf. Qed.

Section fresh.
Context `{Primitives} {HL : PrimitivesLaws} (RING_POW : nat).
Hypothesis Hpow : (RING_POW ≤ 30)%nat.
Abbreviation N := (RING_SIZE RING_POW).

(** The ring has never been enqueued to, and [h] tickets have been given up. *)
Definition unused (q : queue) (l : loc) (h : Z) : Prop :=
  qhead q = Some l ∧ ∃ r, cells (mem q) !! l = Some (Some r) ∧
    window RING_POW (array r) h [] ∧ rhead r = h ∧ rtail r = 0.

(** [tail] is 0, so [t - 1] wraps around to the largest ticket: the inner loop
    waits for an [enqueue] until [r] passes its limit, and gives the ticket up. *)
Lemma dequeue_cells_unused inner q l r h tt' k (Q : option Z → queue → Prop) :
  cells (mem q) !! l = Some (Some r) → window RING_POW (array r) h [] → h ≤ TICKETS →
  rtail r = 0 → (tt' = None → k = 0) → (∀ t0, tt' = Some t0 → t0 = 0) →
  Q None (upd q l (set_array (<[Z.to_nat (h mod N) := RingNode EMPTY (h + N)]> (array r)) r)) →
  wlp (solo (dequeue_cells RING_POW inner (Some l) h tt' k)) Q q.
Proof using Hpow.
  intros Hl Hwin Hh Htl Hk Htt HQ. revert tt' k Hk Htt.
  pose proof Hwin as (Hlen & H0 & _). pose proof (N_bounds RING_POW Hpow) as HN.
  destruct (window_read _ Hpow _ _ _ Hwin) as ([v x] & Hn & Hv & Hx). cbn in Hv, Hx. subst v.
  induction inner as [|inner IH]; intros tt' k Hk Htt; [done|].
  cbn [dequeue_cells]. apply wlp_bind. unfold dequeue_cell.
  eapply wlp_rget; [done|by rewrite Hn|]. eapply wlp_rget; [done|by rewrite Hn|].
  cbn beta. cbn [val idx]. cbv zeta.
  rewrite node_index_small, node_unsafe_small by (apply small_ticket; lia).
  rewrite bool_decide_false by lia. change (is_empty EMPTY) with true. cbn [negb].
  apply wlp_bind.
  assert (∀ t0 k', t0 = 0 → wlp (solo (
    if bool_decide (u64 (tail_index t0 - 1) ≤ h) || bool_decide (200000 < k') || crq_is_closed t0
    then b ← atomic (CAS2 (Some l) (slot RING_POW h) EMPTY x EMPTY (u64 (h + N)));
         mret (if (b : bool) then Leave else Again (Some t0) k')
    else mret (Again (Some t0) (k' + 1))))
    (λ a, wlp (solo match a with
      | Got v => mret (Some v) | Leave => mret None
      | Again tt' r' => dequeue_cells RING_POW inner (Some l) h tt' r' end) Q) q) as Hrest.
  { intros t0 k' ->. change (u64 (tail_index 0 - 1)) with (U64_MOD - 1).
    rewrite bool_decide_false by (unfold U64_MOD, TICKETS in *; lia).
    change (crq_is_closed 0) with false. rewrite orb_false_r. cbn [orb].
    case_bool_decide; [|apply wlp_ret, IH; naive_solver].
    eapply wlp_rmod; [done|eapply CAS2_hit; [done|done|]|].
    { rewrite slot_mod. pose proof (Z.mod_pos_bound h N). lia. }
    cbn [fst snd]. apply wlp_ret, wlp_ret.
    rewrite u64_ticket, slot_mod by (unfold TICKETS in *; lia). exact HQ. }
  case_bool_decide as Hz.
  - eapply wlp_rget; [done|done|]. apply wlp_ret. cbv beta iota zeta.
    rewrite (bool_decide_false (0 ≠ 0)) by auto. by apply Hrest.
  - destruct tt' as [t0|]; [|by rewrite Hk in Hz]. apply wlp_ret. cbv beta iota zeta.
    rewrite (bool_decide_false (0 ≠ 0)) by auto. apply Hrest. by apply Htt.
Qed.

Lemma dequeue_unused fuel inner q l h :
  unused q l h → h + Z.of_nat fuel ≤ TICKETS →
  wlp (solo (dequeue RING_POW fuel inner)) (λ _ _, False) q.
Proof using All.
  revert q h. induction fuel as [|fuel IH]; intros q h (Hqh & r & Hr & Hwin & Hh & Htl) Hle; [done|].
  pose proof Hwin as (_ & H0 & _). cbn [dequeue].
  eapply wlp_atomic; [reflexivity|]. rewrite Hqh.
  eapply wlp_rmod; [done|done|]. cbv zeta. rewrite FAA64_law, Hh. cbn [fst snd].
  rewrite u64_ticket by (unfold TICKETS in *; lia).
  apply wlp_bind. eapply dequeue_cells_unused;
    [apply cells_upd|exact Hwin|lia|exact Htl|done|done|].
  rewrite upd_upd. eapply wlp_rget; [apply cells_upd|done|].
  cbn [rtail set_array set_head]. rewrite Htl.
  change (u64 (tail_index 0 - 1)) with (U64_MOD - 1).
  rewrite bool_decide_false by (unfold U64_MOD, TICKETS in *; lia).
  apply (IH _ (h + 1)); [|lia]. split; [done|]. eexists. split; [apply cells_upd|].
  cbn [array set_array set_head rhead rtail].
  split_and!; [by apply (window_advance _ Hpow _ _ [])|done|done].
Qed.
End fresh.

(** A first call that can be made: [dequeue] needs a queue that has been used. *)
Definition ready (RING_POW : nat) (full : bool) (cs : list (nat * call)) : Prop :=
  match cs with
  | (_, Dequeue) :: _ => full = true ∧ RING_POW ≠ 0%nat
  | _ => True
  end.

(** C13: Calls made one after the other, by any threads, give the results of a FIFO
    queue: [enqueue] returns, [dequeue] returns the oldest value or [EMPTY]
    when there is none, through any number of rings that fill up and are
    closed. Two iterations of the outer loop and one of the inner loops are
    enough. The number of calls is bounded so that no ticket overflows. *)
Theorem lcrq_fifo `{Primitives, !PrimitivesLaws} RING_POW full fuel inner cs s :
  (RING_POW ≤ 30)%nat → queue_initial RING_POW full = Ok s → ready RING_POW full cs →
  2 ^ 30 + Z.of_nat (length cs) ≤ TICKETS → Forall (λ c, call_ok c.2) cs →
  wp (solo_calls RING_POW (S (S fuel)) (S inner) cs)
    (λ vs _, vs = fifo_calls (initial_values RING_POW full) cs) s.
Proof.
  intros Hpow Hs Hready Hlen Hcs. destruct cs as [|[tid [arg|]] cs]; [done| |].
  - apply Forall_cons_1 in Hcs as [Hc Hcs]. cbn [length] in Hlen. cbn [solo_calls call_body].
    apply wp_bind, wp_solo_bind. eapply wp_mono.
    { apply (enqueue_holds _ Hpow 0 (2 ^ 30)); [|unfold TICKETS in *; lia|done].
      apply initial_holds; [done..|lia]. }
    intros [] s' Hs'. apply wp_solo_ret, wp_bind.
    eapply wp_mono; [by apply (solo_calls_fifo _ Hpow (2 ^ 30 + 1)); [|lia|lia|]|].
    intros vs s'' ->. by apply wp_ret.
  - destruct Hready as [-> Hpos]. apply (solo_calls_fifo _ Hpow (2 ^ 30)); [|lia|done|done].
    apply initial_holds; [done..|]. cbn [initial_values]. rewrite length_replicate.
    unfold RING_SIZE. replace (Z.of_nat RING_POW) with (Z.succ (Z.of_nat (RING_POW - 1))) by lia.
    rewrite Z.pow_succ_r, Z.mul_comm, Z.div_mul by lia.
    pose proof (Z.pow_pos_nonneg 2 (Z.of_nat (RING_POW - 1))). lia.
Qed.

(** Three rings of two cells: the queue grows, empties and is used again. *)
Definition fifo_trial : list (nat * call) :=
  [(0, Enqueue 5); (1, Enqueue 6); (0, Enqueue 7); (1, Enqueue 8); (0, Enqueue 9)]%nat ++
  replicate 6 (1%nat, Dequeue) ++ [(0%nat, Enqueue 4); (1%nat, Dequeue)].

Lemma lcrq_fifo_witness :
  wp (solo_calls 1 2 1 fifo_trial)
    (λ vs _, vs = [0; 0; 0; 0; 0; 5; 6; 7; 8; 9; EMPTY; 0; 4]) small_queue.
Proof.
  apply (lcrq_fifo 1 false 0 0 fifo_trial small_queue);
    [lia|by vm_compute|done|by vm_compute|repeat constructor; by vm_compute].
Defined.

(** C15: On a queue to which nothing has been enqueued, a [dequeue] that runs alone
    does not return [EMPTY]: it is still running after any number of
    iterations, up to the largest ticket. The comparison [t - 1 <= h] that
    should end it is made on unsigned numbers, and [t] is 0. *)
Theorem lcrq_fresh_dequeue `{Primitives, !PrimitivesLaws} RING_POW fuel inner s :
  (RING_POW ≤ 30)%nat → queue_initial RING_POW false = Ok s → Z.of_nat fuel ≤ TICKETS →
  solo (dequeue RING_POW fuel inner) s = Fail OutOfFuel.
Proof.
  intros Hpow Hs Hfuel. pose proof (initial_queue RING_POW false) as Hq. rewrite Hs in Hq.
  destruct Hq as (rq & Hc & _ & Hh & _ & _).
  assert (unused RING_POW s rq 0) as Hun.
  { split; [done|]. eexists. split; [by rewrite Hc, lookup_singleton_eq|].
    split_and!; [by apply init_window|done|done]. }
  pose proof (dequeue_unused RING_POW Hpow fuel inner s rq 0 Hun Hfuel) as Hd.
  unfold wlp in Hd. destruct (solo _ s) as [[v s']|f]; [done|by subst f].
Qed.

Lemma lcrq_fresh_dequeue_witness : solo (dequeue 1 100 500) small_queue = Fail OutOfFuel.
Proof. apply lcrq_fresh_dequeue; [lia|by vm_compute|unfold TICKETS; lia]. Defined.
