(* ===== verification/LcrqProgress.v ===== *)
(** [enqueue] of [src/snippets/lcrq.c] makes progress: whatever the other threads
    have left unfinished, a thread that runs alone comes to the end of its
    call. *)

From S2P Require Import Prelude CInt Heap Proc Lcrq LcrqInv LcrqSafe LcrqClaims LcrqSeq.
Local Open Scope Z_scope.

Section progress.
Context `{Primitives} {HL : PrimitivesLaws} (RING_POW : nat).
Hypothesis Hpow : (RING_POW ≤ 63)%nat.
Abbreviation N := (RING_SIZE RING_POW).
Implicit Types (q : queue) (l n : loc) (r : ring).

Lemma ring_size_bounds : 1 ≤ N ≤ 2 ^ 63.
Proof using Hpow.
  unfold RING_SIZE. split; [pose proof (Z.pow_pos_nonneg 2 (Z.of_nat RING_POW)); lia|].
  apply Z.pow_le_mono_r; lia.
Qed.

(** What thread [i] needs to link a ring to the one at [l]: memory, or a ring
    that it has kept. *)
Definition spare (i : nat) (l : loc) q : Prop :=
  heap_ok (mem q) ∧
  ∀ n, nrq q !! i = Some n → n ≠ l ∧ ∃ rn, cells (mem q) !! n = Some (Some rn) ∧ Z.of_nat (length (array rn)) = N.

Lemma spare_upd i l r r' q :
  cells (mem q) !! l = Some (Some r) → spare i l q → spare i l (upd q l r').
Proof.
  intros Hl [Hok Hn]. split; [by eapply heap_ok_mem_upd|]. intros n Hi.
  destruct (Hn n Hi) as (Hne & rn & Hrn & ?). split; [done|]. exists rn. split; [|done].
  cbn. by rewrite lookup_insert_ne.
Qed.

(** The first cell of a ring can be written. *)
Lemma first_cell r (f : ring_node → ring_node) :
  Z.of_nat (length (array r)) = N →
  ∃ a, (n ← rd (array r) 0; a ← wr (array r) 0 (f n); Ok (tt, set_array a r)) = Ok (tt, set_array a r) ∧
    Z.of_nat (length a) = N.
Proof using Hpow.
  intros Hlen. pose proof ring_size_bounds. destruct (array r) as [|n ns] eqn:E; [cbn in Hlen; lia|].
  rewrite (rd_Some _ _ n) by done. ok_simpl. unfold wr. rewrite bool_decide_true by (cbn [length]; lia).
  ok_simpl. eexists. split; [reflexivity|]. by rewrite length_insert.
Qed.

(** The rest of [enqueue_alloc], once the thread has a ring. *)
Lemma fill_alone i l n r rn arg q (Q : bool → queue → Prop) :
  cells (mem q) !! l = Some (Some r) → rnext r = None → nrq q !! i = Some n → n ≠ l →
  cells (mem q) !! n = Some (Some rn) → Z.of_nat (length (array rn)) = N →
  (∀ q', Q true q') →
  wp (solo (p ← atomic (read_nrq i);
    atomic (write_tail p 1);; atomic (write_val p 0 arg);; atomic (write_idx p 0 0);;
    b ← atomic (cas_next (Some l) None p);
    if (b : bool) then atomic (cas_qtail (Some l) p);; atomic (clear_nrq i);; mret true
    else mret false)) Q q.
Proof using All.
  intros Hl Hnone Hn Hne Hrn Hlen HQ.
  apply wp_solo_atomic. eapply wp_run_eq; [reflexivity|]. cbn beta. rewrite Hn.
  eapply solo_rmod; [exact Hrn|reflexivity|].
  destruct (first_cell (set_tail 1 rn) (λ c, RingNode arg (idx c))) as (a & Ha & Hlena); [done|].
  eapply solo_rmod; [apply cells_upd|exact Ha|]. rewrite upd_upd.
  destruct (first_cell (set_array a (set_tail 1 rn)) (λ c, RingNode (val c) 0)) as (a' & Ha' & _); [done|].
  eapply solo_rmod; [apply cells_upd|exact Ha'|]. rewrite upd_upd.
  eapply solo_rmod; [cbn; by rewrite lookup_insert_ne|reflexivity|].
  rewrite CASPTR_law, decide_True by done. cbn [fst snd].
  apply wp_solo_atomic. eapply wp_run_eq; [apply cas_qtail_run|].
  apply wp_solo_atomic. eapply wp_run_eq; [reflexivity|]. by apply wp_solo_ret.
Qed.

Lemma alloc_alone i l r arg q (Q : bool → queue → Prop) :
  cells (mem q) !! l = Some (Some r) → rnext r = None → spare i l q → (∀ q', Q true q') →
  wp (solo (enqueue_alloc RING_POW i (Some l) arg)) Q q.
Proof using All.
  intros Hl Hnone [Hok Hspare] HQ. unfold enqueue_alloc.
  apply wp_solo_atomic. eapply wp_run_eq; [reflexivity|]. cbn beta.
  destruct (nrq q !! i) as [n|] eqn:Hn.
  - destruct (Hspare n eq_refl) as (Hne & rn & Hrn & Hlen). by eapply fill_alone.
  - apply wp_solo_bind. apply wp_solo_atomic. apply wp_alloc_nrq; [done|].
    intros n hp Hfresh Hc _. apply wp_solo_ret.
    assert (n ≠ l) as Hne by (intros ->; congruence).
    eapply (fill_alone i l n r (init_ring RING_POW)); try done; cbn [mem nrq].
    + by rewrite Hc, lookup_insert_ne.
    + by rewrite lookup_insert_eq.
    + by rewrite Hc, lookup_insert_eq.
    + apply init_ring_private.
Qed.
(** The attempt to use a cell succeeds, or changes nothing. *)
Lemma cell_alone l r arg t q (Q : bool → queue → Prop) :
  cells (mem q) !! l = Some (Some r) → Z.of_nat (length (array r)) = N →
  (∀ q', Q true q') → Q false q →
  wp (solo (enqueue_cell RING_POW (Some l) arg t)) Q q.
Proof using All.
  intros Hl Hlen HQ1 HQ2. pose proof (slot_range RING_POW t) as Hslot.
  destruct (lookup_lt_is_Some_2 (array r) (Z.to_nat (slot RING_POW t))) as [c Hc]; [lia|].
  assert (rd (array r) (slot RING_POW t) = Ok c) as Hrd by (by apply rd_Some; [lia|]).
  unfold enqueue_cell.
  eapply solo_rget; [exact Hl|by rewrite Hrd|]. eapply solo_rget; [exact Hl|by rewrite Hrd|]. cbn beta.
  destruct (is_empty (val c)) eqn:Hempty; cbn [andb]; [|by apply wp_solo_ret].
  case_bool_decide; [|by apply wp_solo_ret].
  assert (wp (solo (atomic (CAS2 (Some l) (slot RING_POW t) EMPTY (idx c) arg t))) Q q) as Hcas.
  { change (atomic ?m) with (atomic m ≫= mret). unfold is_empty in Hempty. apply bool_decide_eq_true in Hempty.
    eapply solo_rmod; [exact Hl|eapply CAS2_hit; [exact Hrd|destruct c; cbn in *; congruence|lia]|].
    apply wp_solo_ret, HQ1. }
  apply wp_solo_bind. case_bool_decide; [by apply wp_solo_ret|].
  eapply solo_rget; [exact Hl|done|]. apply wp_solo_ret. case_bool_decide; [done|by apply wp_solo_ret].
Qed.

(** On the last ring every attempt that fails brings [tail] nearer to the
    point where the ring is closed. *)
Lemma last_ring_alone fuel i l r arg q :
  cells (mem q) !! l = Some (Some r) → Z.of_nat (length (array r)) = N → rnext r = None →
  qtail q = Some l → spare i l q → N - u64 (rtail r - rhead r) < Z.of_nat fuel → (0 < fuel)%nat →
  wp (solo (enqueue_loop RING_POW fuel i arg 0)) (λ _ _, True) q.
Proof using All.
  pose proof ring_size_bounds as HN.
  revert q r. induction fuel as [|fuel IH]; intros q r Hl Hlen Hnone Htail Hspare Hfuel Hpos; [lia|].
  cbn [enqueue_loop]. apply wp_solo_atomic. eapply wp_run_eq; [reflexivity|]. cbn beta. rewrite Htail.
  eapply solo_rget; [exact Hl|done|]. rewrite Hnone.
  eapply solo_rmod; [exact Hl|done|]. cbv zeta. rewrite FAA64_law. cbn [fst snd].
  set (r1 := set_tail _ r). assert (spare i l (upd q l r1)) as Hspare1 by (by eapply spare_upd).
  assert (∀ q2 r2 (k : bool → proc queue unit), cells (mem q2) !! l = Some (Some r2) → rnext r2 = None →
    spare i l q2 → k true = mret tt →
    wp (solo (b ← enqueue_alloc RING_POW i (Some l) arg; k b)) (λ _ _, True) q2) as Halloc.
  { intros q2 r2 k Hl2 Hn2 Hs2 Hk. apply wp_solo_bind. eapply alloc_alone; [done..|].
    intros q'. rewrite Hk. by apply wp_solo_ret. }
  destruct (crq_is_closed (rtail r)); [by apply (Halloc _ r1); [apply cells_upd|..]|].
  apply wp_solo_bind. eapply cell_alone; [apply cells_upd|done|by intros; apply wp_solo_ret|].
  eapply solo_rget; [apply cells_upd|done|]. cbn [rhead r1 set_tail].
  case_bool_decide as Hfull.
  - apply wp_solo_atomic. unfold lift. rewrite int_add_ok by (unfold INT_MIN, INT_MAX; lia).
    eapply wp_run_eq; [reflexivity|]. cbn beta. apply wp_solo_bind. unfold close_crq.
    rewrite bool_decide_true by lia. change (atomic ?m) with (atomic m ≫= mret) at 1.
    eapply solo_rmod; [apply cells_upd|done|]. cbv zeta. rewrite CAS64_law.
    rewrite decide_True by done. cbn [fst snd]. apply wp_solo_ret.
    eapply Halloc; [apply cells_upd|done|by eapply spare_upd; [apply cells_upd|]|done].
  - assert (u64 (rtail r1 - rhead r1) = u64 (rtail r - rhead r) + 1) as Hnext.
    { subst r1. cbn [rtail rhead set_tail]. unfold u64 in *.
      rewrite Zminus_mod_idemp_l. replace (rtail r + 1 - rhead r) with (rtail r - rhead r + 1) by lia.
      rewrite <-Zplus_mod_idemp_l. apply Z.mod_small. unfold U64_MOD in *.
      pose proof (Z.mod_pos_bound (rtail r - rhead r) (2 ^ 64)). lia. }
    apply (IH _ r1); try done; [apply cells_upd|lia|].
    unfold u64 in *. pose proof (Z.mod_pos_bound (rtail r - rhead r) U64_MOD ltac:(done)). lia.
Qed.

(** From another ring it moves [tail] along the list. *)
Lemma chain_alone fuel i arg q ls j :
  (∀ k l, ls !! k = Some l → ∃ r, cells (mem q) !! l = Some (Some r) ∧
    Z.of_nat (length (array r)) = N ∧ rnext r = ls !! S k) →
  (j < length ls)%nat → qtail q = ls !! j → (∀ l, l ∈ ls → spare i l q) →
  Z.of_nat (length ls - j) + N ≤ Z.of_nat fuel →
  wp (solo (enqueue_loop RING_POW fuel i arg 0)) (λ _ _, True) q.
Proof using All.
  pose proof ring_size_bounds as HN.
  revert j q. induction fuel as [|fuel IH]; intros j q Hls Hj Htail Hspare Hfuel; [lia|].
  destruct (lookup_lt_is_Some_2 ls j Hj) as [l Hl]. rewrite Hl in Htail.
  destruct (Hls j l Hl) as (r & Hr & Hlen & Hnext).
  destruct (ls !! S j) as [n|] eqn:Hn.
  - cbn [enqueue_loop]. apply wp_solo_atomic. eapply wp_run_eq; [reflexivity|]. cbn beta. rewrite Htail.
    eapply solo_rget; [exact Hr|done|]. rewrite Hnext.
    apply wp_solo_atomic. eapply wp_run_eq; [apply cas_qtail_run|].
    rewrite CASPTR_law, decide_True by done. cbn [fst snd]. apply lookup_lt_Some in Hn as Hlt.
    apply (IH (S j)); [done|done|by rewrite Hn|done|lia].
  - eapply last_ring_alone; [done..| | |lia].
    + apply Hspare. by eapply list_elem_of_lookup_2.
    + pose proof (u64_range (rtail r - rhead r)). apply lookup_ge_None in Hn. lia.
Qed.

(** Under the invariant a thread that is between two calls can enqueue. *)
Lemma enqueue_alone initially dead fuel i arg h q w ts t :
  Inv RING_POW initially dead h q w ts → ts !! i = Some t → idle t →
  Z.of_nat (size (cells (mem q))) + N ≤ Z.of_nat fuel →
  wp (solo (enqueue RING_POW fuel i arg)) (λ _ _, True) q.
Proof using All.
  intros [] Ht (_ & _ & _ & Hidle) Hfuel. destruct inv_chain as (ls & Hnd & Hw & Hnext).
  destruct inv_tail as (l & Htail & Hl). pose proof (proj1 (Hw l) Hl) as Hin.
  apply list_elem_of_lookup in Hin as [j Hj].
  assert (length ls ≤ size (cells (mem q)))%nat as Hsize.
  { rewrite <-size_dom, <-(size_list_to_set (C := gset loc) ls) by done.
    apply subseteq_size. intros x Hx%elem_of_list_to_set.
    apply Hw in Hx. destruct (inv_linked x Hx) as (r & Hr & _). by apply elem_of_dom_2 in Hr. }
  assert (∀ x, x ∈ ls → spare i x q) as Hspare.
  { intros x Hx. split; [done|]. intros n Hn. rewrite (inv_nrq i t Ht) in Hn.
    pose proof (inv_kept i t Ht) as Hk. destruct (kept t) as [[n' [vs|]]|]; [|done..].
    injection Hn as ->. destruct Hk as (Hout & rn & Hrn & Hlen & _). split.
    - intros ->. by apply Hout, Hw.
    - by exists rn. }
  apply lookup_lt_Some in Hj as Hlt.
  apply (chain_alone fuel i arg q ls j); [|done|congruence|done|lia].
  intros k x Hx. destruct (inv_linked x) as (r & Hr & Hlen & _); [by apply Hw, (list_elem_of_lookup_2 _ k)|].
  exists r. split_and!; [done..|by eapply Hnext].
Qed.
End progress.

(** C11: [enqueue] is obstruction-free. At whatever point the other threads have
    been stopped in their calls, a thread that begins an [enqueue] and runs
    alone returns from it; for the iterations of its loop it is enough to have as
    many as there are rings in memory, and one for each cell of a ring. *)
Theorem enqueue_progress `{Primitives, !PrimitivesLaws} RING_POW full fuel inner sched progs q g i v cs :
  queue_initial RING_POW full = Ok q → (RING_POW ≤ 63)%nat → Z.of_nat fuel ≤ INT_MAX → Forall (Forall call_ok) progs →
  run_schedule (call_body RING_POW fuel inner) sched (start q progs) = Ok g →
  pool g !! i = Some (Thread None (Enqueue v :: cs)) →
  Z.of_nat (size (cells (mem (shared g)))) + RING_SIZE RING_POW ≤ Z.of_nat fuel →
  ∃ n q', run_schedule (call_body RING_POW fuel inner) (sched ++ replicate n i) (start q progs) =
    Ok (Config q' (<[i := Thread None cs]> (pool g))
          (history g ++ [Invoked i (Enqueue v); Returned i (Enqueue v) 0])).
Proof.
  intros Hq Hpow Hfuel Hprogs Hrun Hi Hsize.
  pose proof (queue_run RING_POW _ _ fuel inner sched _ Hfuel (start_ok _ _ _ _ Hq Hprogs)) as Hok.
  rewrite Hrun in Hok. destruct Hok as (w & ts & HI & Hlen & Hth).
  destruct (lookup_lt_is_Some_2 ts i) as [t Ht]; [rewrite Hlen; by eapply lookup_lt_Some|].
  destruct (Hth i _ t Hi Ht) as [_ Hidle]. cbn in Hidle.
  assert (wp (solo (call_body RING_POW fuel inner i (Enqueue v))) (λ r _, r = 0) (shared g)) as Hwp.
  { cbn [call_body]. apply wp_solo_bind. eapply wp_mono; [eapply enqueue_alone; [lia|done..]|].
    intros [] q' _. by apply wp_solo_ret. }
  apply wp_run in Hwp as (r & q' & Hsolo & ->).
  destruct (solo_returns _ _ _ _ _ _ g Hi Hsolo) as (n & Hn).
  exists n, q'. by rewrite run_schedule_app, Hrun, bind_Ok, Hn.
Qed.

Lemma outcome_default {A} (o : outcome A) (d : A) :
  match o with Ok _ => True | Fail _ => False end →
  o = Ok (match o with Ok a => a | Fail _ => d end).
Proof. by destruct o. Qed.

(** Thread 0 has enqueued and stopped in the middle of its [dequeue]. *)
Definition stopped_early : config queue call Z :=
  match run_schedule (call_body 1 10 10) (replicate 13 0%nat) (start small_queue (Execute 1 <$> seq 0 2)) with
  | Ok g => g
  | Fail _ => start small_queue []
  end.

Example stopped_early_history :
  history stopped_early = [Invoked 0 (Enqueue 0); Returned 0 (Enqueue 0) 0; Invoked 0 Dequeue].
Proof. by vm_compute. Qed.

Lemma stopped_early_run :
  run_schedule (call_body 1 10 10) (replicate 13 0%nat) (start small_queue (Execute 1 <$> seq 0 2)) =
    Ok stopped_early.
Proof. apply outcome_default. vm_compute. exact I. Qed.

Lemma enqueue_progress_witness :
  ∃ n q', run_schedule (call_body 1 10 10) (replicate 13 0%nat ++ replicate n 1%nat)
      (start small_queue (Execute 1 <$> seq 0 2)) =
    Ok (Config q' (<[1%nat := Thread None [Dequeue]]> (pool stopped_early))
          (history stopped_early ++ [Invoked 1 (Enqueue 1); Returned 1 (Enqueue 1) 0])).
Proof.
  refine (enqueue_progress 1 false 10 10 (replicate 13 0%nat) (Execute 1 <$> seq 0 2) small_queue
    stopped_early 1 1 [Dequeue] _ _ _ _ stopped_early_run _ _).
  - by vm_compute.
  - lia.
  - unfold INT_MAX; lia.
  - repeat constructor; by vm_compute.
  - by vm_compute.
  - by vm_compute.
Defined.
