(* ===== verification/LcrqDequeue.v ===== *)
(** [dequeue] of [src/snippets/lcrq.c] makes progress on a queue of rings that
    have been used: whatever the other threads have left unfinished, a thread
    that runs alone comes to the end of its call. On a ring that was never
    enqueued to it does not ([LcrqFifo]). *)

From S2P Require Import Prelude CInt Heap Proc Lcrq LcrqInv LcrqSafe LcrqClaims LcrqSeq LcrqProgress.
Local Open Scope Z_scope.

Lemma tail_index_range t : 0 ≤ t < U64_MOD → 0 ≤ tail_index t < BIT63.
Proof.
  intros Ht. destruct (decide (t < BIT63)); [rewrite tail_index_small; lia|].
  replace t with (BIT63 + (t - BIT63)) by lia.
  rewrite tail_index_closed; unfold U64_MOD, BIT63 in *; lia.
Qed.

(** An index whose unsafe bit is clear is its own. *)
Lemma node_index_safe i : node_unsafe i = 0 → node_index i = i.
Proof.
  intros E. apply Z.bits_inj'. intros n Hn. unfold node_index. rewrite Z.land_spec, Z.lnot_spec by done.
  pose proof (f_equal (λ z, Z.testbit z n) E) as En. unfold node_unsafe in En. cbn beta in En.
  rewrite Z.land_spec, Z.bits_0 in En. destruct (Z.testbit i n), (Z.testbit BIT63 n); done.
Qed.

(** The iterations after which the inner loop gives up an empty cell. *)
Definition SPINS : Z := 200001.

Section dequeue.
Context `{Primitives} {HL : PrimitivesLaws} (RING_POW : nat).
Hypothesis Hpow : (RING_POW ≤ 63)%nat.
Abbreviation N := (RING_SIZE RING_POW).
Implicit Types (q : queue) (l : loc) (r : ring).

(** *** The inner loop *)

(** What it leaves of the ring: other cells, in the same number. *)
Definition same_but_cells r r' : Prop :=
  ∃ a, r' = set_array a r ∧ Z.of_nat (length a) = N.

Lemma CAS2_alone {B} l r i c n1 n2 q (k : bool → proc queue B) Q :
  cells (mem q) !! l = Some (Some r) → Z.of_nat (length (array r)) = N → 0 ≤ i < N →
  rd (array r) i = Ok c →
  (∀ r', same_but_cells r r' → wp (solo (k true)) Q (upd q l r')) →
  wp (solo (atomic (CAS2 (Some l) i (val c) (idx c) n1 n2) ≫= k)) Q q.
Proof.
  intros Hl Hlen Hi Hc HQ. eapply solo_rmod; [exact Hl|eapply CAS2_hit; [exact Hc|by destruct c|lia]|].
  apply HQ. eexists. split; [reflexivity|]. by rewrite length_insert.
Qed.

(** An iteration: it leaves the loop, or counts. *)
Lemma dequeue_cell_alone l r h t k q (Q : cell_flow → queue → Prop) :
  cells (mem q) !! l = Some (Some r) → Z.of_nat (length (array r)) = N → 0 ≤ k →
  (t = None → k = 0) →
  (∀ x r', (∀ t' k', x ≠ Again t' k') → same_but_cells r r' → Q x (upd q l r')) →
  (∀ t', k < SPINS → t' ≠ None → Q (Again t' (k + 1)) q) → Q Leave q →
  wp (solo (dequeue_cell RING_POW (Some l) h t k)) Q q.
Proof using All.
  intros Hl Hlen Hk Ht HQ HA HL1. pose proof (slot_range RING_POW h) as Hslot.
  destruct (lookup_lt_is_Some_2 (array r) (Z.to_nat (slot RING_POW h))) as [c Hc]; [lia|].
  assert (rd (array r) (slot RING_POW h) = Ok c) as Hrd by (by apply rd_Some; [lia|]).
  assert (∀ n1 n2 x y, (∀ t' k', x ≠ Again t' k') →
    wp (solo (b ← atomic (CAS2 (Some l) (slot RING_POW h) (val c) (idx c) n1 n2);
      mret (if (b : bool) then x else y))) Q q) as Hcas.
  { intros n1 n2 x y Hx. eapply CAS2_alone; [done..|]. intros r' Hr'. apply wp_solo_ret. by apply HQ. }
  unfold dequeue_cell.
  eapply solo_rget; [exact Hl|by rewrite Hrd|]. eapply solo_rget; [exact Hl|by rewrite Hrd|].
  cbn beta. cbv zeta. case_bool_decide; [by apply wp_solo_ret|].
  destruct (is_empty (val c)); cbn [negb]; [|by case_bool_decide; apply Hcas].
  assert (∀ t0, wp (solo (let t1 := tail_index t0 in
    if bool_decide (node_unsafe (idx c) ≠ 0) then
      b ← atomic (CAS2 (Some l) (slot RING_POW h) (val c) (idx c) (val c)
        (Z.lor (node_unsafe (idx c)) (u64 (h + N))));
      mret (if (b : bool) then Leave else Again (Some t0) k)
    else if bool_decide (u64 (t1 - 1) ≤ h) || bool_decide (200000 < k) || crq_is_closed t0 then
      b ← atomic (CAS2 (Some l) (slot RING_POW h) (val c) (node_index (idx c)) (val c) (u64 (h + N)));
      mret (if (b : bool) then Leave else Again (Some t0) k)
    else mret (Again (Some t0) (k + 1)))) Q q) as Hrest.
  { intros t0. cbv zeta. case_bool_decide as Hunsafe; [by apply Hcas|].
    rewrite (node_index_safe (idx c)) by lia.
    destruct (bool_decide (u64 _ ≤ h)); [by apply Hcas|]. case_bool_decide; [by apply Hcas|].
    destruct (crq_is_closed t0); [by apply Hcas|]. apply wp_solo_ret, HA; [unfold SPINS; lia|done]. }
  apply wp_solo_bind. destruct (decide (Z.land k 1023 = 0)) as [Hz|Hz];
    [rewrite (bool_decide_true (Z.land k 1023 = 0)) by done|rewrite (bool_decide_false (Z.land k 1023 = 0)) by done].
  - eapply solo_rget; [exact Hl|done|]. apply wp_solo_ret. exact (Hrest _).
  - destruct t as [t0|]; [|by rewrite Ht in Hz]. apply wp_solo_ret. exact (Hrest _).
Qed.

Lemma same_but_cells_refl r : Z.of_nat (length (array r)) = N → same_but_cells r r.
Proof. intros. exists (array r). by destruct r. Qed.

Lemma cells_alone fuel l r h t k q (Q : option Z → queue → Prop) :
  cells (mem q) !! l = Some (Some r) → Z.of_nat (length (array r)) = N → 0 ≤ k →
  (t = None → k = 0) → (0 < fuel)%nat → SPINS - k < Z.of_nat fuel →
  (∀ x q' r', cells (mem q') = <[l := Some r']> (cells (mem q)) → qhead q' = qhead q →
    same_but_cells r r' → Q x q') →
  wp (solo (dequeue_cells RING_POW fuel (Some l) h t k)) Q q.
Proof using All.
  revert t k. induction fuel as [|fuel IH]; intros t k Hl Hlen Hk Ht Hpos Hfuel HQ; [lia|].
  cbn [dequeue_cells]. apply wp_solo_bind. eapply dequeue_cell_alone; [done..| | |].
  - intros [v| |t' k'] r' Hx Hr'; [..|by destruct (Hx t' k')]; apply wp_solo_ret; by eapply HQ.
  - intros t' Hspin Ht'. apply IH; [done..|lia|done|lia|lia|done].
  - apply wp_solo_ret. eapply HQ; [|done|by apply same_but_cells_refl]. by rewrite insert_id.
Qed.

(** *** The outer loop *)

(** A ring that something has been enqueued to, with its words in range. *)
Record used r : Prop := {
  used_length : Z.of_nat (length (array r)) = N;
  used_head : 0 ≤ rhead r < U64_MOD;
  used_tail : 0 ≤ rtail r < U64_MOD;
  used_tickets : 1 ≤ tail_index (rtail r);
}.

(** The tickets up to the tail. *)
Definition tickets r : nat := Z.to_nat (tail_index (rtail r) - rhead r).

Lemma ring_alone m F inner l r q fuel :
  SPINS < Z.of_nat inner → cells (mem q) !! l = Some (Some r) → used r → qhead q = Some l →
  (tickets r ≤ m)%nat → (m + 1 + F ≤ fuel)%nat →
  (∀ q' r' n fuel', rnext r = Some n → cells (mem q') = <[l := Some r']> (cells (mem q)) →
    qhead q' = Some n → (F ≤ fuel')%nat → wp (solo (dequeue RING_POW fuel' inner)) (λ _ _, True) q') →
  wp (solo (dequeue RING_POW fuel inner)) (λ _ _, True) q.
Proof using All.
  intros Hinner. revert q r fuel. induction m as [m IH] using lt_wf_ind.
  intros q r fuel Hl [Hlen Hh Ht Hone] Hhead Hm Hfuel Hnext.
  destruct fuel as [|fuel]; [lia|]. cbn [dequeue].
  apply wp_solo_atomic. eapply wp_run_eq; [reflexivity|]. cbn beta. rewrite Hhead.
  eapply solo_rmod; [exact Hl|done|]. cbv zeta. rewrite FAA64_law. cbn [fst snd].
  set (h := rhead r) in *. set (r1 := set_head _ r).
  apply wp_solo_bind. eapply cells_alone; [apply cells_upd|done|done|done|unfold SPINS in *; lia|lia|].
  intros x q1 r2 Hc1 Hh1 (a & -> & Ha). assert (qhead q1 = Some l) as Hhead1 by (by rewrite Hh1).
  cbn in Hc1. rewrite insert_insert_eq in Hc1. clear Hh1.
  destruct x as [v|]; [by apply wp_solo_ret|]. set (r2 := set_array a r1) in *.
  assert (cells (mem q1) !! l = Some (Some r2)) as Hl1 by (by rewrite Hc1, lookup_insert_eq).
  eapply solo_rget; [exact Hl1|done|].
  change (rtail r2) with (rtail r). pose proof (tail_index_range _ Ht) as Hti.
  rewrite u64_small by (unfold U64_MOD, BIT63 in *; lia). case_bool_decide as Hle.
  - apply wp_solo_bind. destruct inner as [|inner]; [unfold SPINS in *; lia|].
    eapply (fixState_solo 0); [lia|exact Hl1|apply u64_range|done|].
    eapply solo_rget; [apply cells_upd|done|]. cbn [rnext r2 r1 set_tail set_array set_head].
    destruct (rnext r) as [n|] eqn:Hn; [|by apply wp_solo_ret].
    apply wp_solo_atomic. eapply wp_run_eq; [apply cas_qhead_run|].
    cbn [qhead upd]. rewrite CASPTR_law, Hhead1, decide_True by done. cbn [fst snd].
    eapply (Hnext _ _ n); [done| |done|lia]. cbn [mem cells upd]. by rewrite Hc1, insert_insert_eq.
  - assert (u64 (h + 1) = h + 1) as Hh1 by (apply u64_small; unfold U64_MOD, BIT63 in *; lia).
    assert (tickets r2 < m)%nat as Hless by (unfold tickets in *; cbn; rewrite Hh1; lia).
    eapply (IH _ Hless q1 r2); [done| |done|lia|lia|].
    + constructor; [done|cbn; apply u64_range|done|done].
    + intros q' r' n fuel' Hn Hc'. apply (Hnext q' r' n fuel' Hn).
      by rewrite Hc', Hc1, insert_insert_eq.
Qed.

(** The rings [rs] at [ls], each linked to the next. *)
Fixpoint rings_at (m : gmap loc (option ring)) (ls : list loc) (rs : list ring) : Prop :=
  match ls, rs with
  | [], [] => True
  | l :: ls', r :: rs' => m !! l = Some (Some r) ∧ used r ∧ rnext r = head ls' ∧ rings_at m ls' rs'
  | _, _ => False
  end.

Lemma rings_at_insert m ls rs l c : l ∉ ls → rings_at m ls rs → rings_at (<[l := c]> m) ls rs.
Proof.
  revert rs. induction ls as [|l' ls IH]; intros [|r rs]; cbn; try done.
  intros [Hl Hls]%not_elem_of_cons (Hr & ? & ? & ?). rewrite lookup_insert_ne by done. auto.
Qed.

Lemma rings_alone inner ls rs q fuel :
  SPINS < Z.of_nat inner → rings_at (cells (mem q)) ls rs → NoDup ls → ls ≠ [] → qhead q = head ls →
  (sum_list_with (λ r, S (tickets r)) rs ≤ fuel)%nat →
  wp (solo (dequeue RING_POW fuel inner)) (λ _ _, True) q.
Proof using All.
  intros Hinner. revert rs q fuel.
  induction ls as [|l ls IH]; intros [|r rs] q fuel Hrs Hnd Hne Hhead Hfuel; try done.
  destruct Hrs as (Hl & Hused & Hnext & Hrs). apply list.NoDup_cons in Hnd as [Hin Hnd].
  cbn [sum_list_with head] in *.
  eapply (ring_alone (tickets r) (sum_list_with (λ r, S (tickets r)) rs)); [done..|lia|].
  intros q' r' n fuel' Hn Hc Hh Hf. apply (IH rs); [|done| |congruence|done].
  - rewrite Hc. by apply rings_at_insert.
  - intros ->. cbn in Hnext. congruence.
Qed.

(** The rings that the queue still uses. *)
Inductive from_head q : loc → Prop :=
  | from_first l : qhead q = Some l → from_head q l
  | from_next l r n : from_head q l → cells (mem q) !! l = Some (Some r) → rnext r = Some n → from_head q n.

Definition enqueued_to q : Prop := ∀ l r,
  from_head q l → cells (mem q) !! l = Some (Some r) → 1 ≤ tail_index (rtail r).

(** Under the invariant they are a list of rings. *)
Lemma from_head_rings initially dead h q w ts :
  Inv RING_POW initially dead h q w ts → enqueued_to q →
  ∃ ls rs, rings_at (cells (mem q)) ls rs ∧ NoDup ls ∧ ls ≠ [] ∧ qhead q = head ls.
Proof using Hpow.
  intros [] Hen. destruct inv_chain as (cs & Hnd & Hw & Hnext).
  destruct inv_head as (l0 & Hl0 & Hin). apply Hw, list_elem_of_lookup in Hin as [j Hj].
  assert (∀ k i l, (i + k)%nat = length cs → cs !! i = Some l → from_head q l →
    ∃ rs, rings_at (cells (mem q)) (drop i cs) rs) as Hrings.
  { induction k as [|k IH]; intros i l Hk Hl Hfrom; [apply lookup_lt_Some in Hl; lia|].
    destruct (inv_linked l) as (r & Hr & Hlen & _ & Hwords); [by apply Hw, (list_elem_of_lookup_2 _ i)|].
    destruct Hwords as [? ?]; [apply ring_size_bounds; exact Hpow|].
    assert (∃ rs, rings_at (cells (mem q)) (drop (S i) cs) rs) as [rs Hrs].
    { destruct (cs !! S i) as [n|] eqn:Hn.
      - apply (IH (S i) n); [lia|done|]. eapply from_next; [done..|]. by rewrite (Hnext i l r Hl Hr).
      - exists []. rewrite drop_ge; [done|]. by apply lookup_ge_None. }
    exists (r :: rs). rewrite (drop_S cs l i Hl). split_and!; [done| | |done].
    - constructor; [done..|by eapply Hen].
    - by rewrite (Hnext i l r Hl Hr), head_lookup, lookup_drop, Nat.add_0_r. }
  destruct (Hrings (length cs - j)%nat j l0) as [rs Hrs];
    [apply lookup_lt_Some in Hj; lia|done|by apply from_first|].
  exists (drop j cs), rs. rewrite <-(take_drop j cs) in Hnd. apply list.NoDup_app in Hnd as (_ & _ & Hnd).
  split_and!; [done|done| |].
  - rewrite (drop_S cs l0 j Hj). done.
  - by rewrite (drop_S cs l0 j Hj).
Qed.
End dequeue.

(** C37: [dequeue] makes progress: at whatever point the other threads have been
    stopped in their calls, a thread that calls [dequeue] and runs alone returns
    from it, once every ring that the queue still uses has been enqueued to: with
    enough iterations of the outer loop, and 200,002 of the inner one, which gives
    up an empty cell after so many. Without that condition it may run for ever
    (C15). *)
Theorem dequeue_progress `{Primitives, !PrimitivesLaws} RING_POW full fuel inner sched progs q g :
  queue_initial RING_POW full = Ok q → (RING_POW ≤ 63)%nat → Z.of_nat fuel ≤ INT_MAX → Forall (Forall call_ok) progs →
  run_schedule (call_body RING_POW fuel inner) sched (start q progs) = Ok g →
  enqueued_to (shared g) →
  ∃ enough : nat, ∀ outer spins : nat, (enough ≤ outer)%nat → 200002 ≤ Z.of_nat spins →
    ∃ v q', solo (dequeue RING_POW outer spins) (shared g) = Ok (v, q').
Proof.
  intros Hq Hpow Hfuel Hprogs Hrun Hen.
  pose proof (queue_run RING_POW _ _ fuel inner sched _ Hfuel (start_ok _ _ _ _ Hq Hprogs)) as Hok.
  rewrite Hrun in Hok. destruct Hok as (w & ts & HI & _).
  destruct (from_head_rings RING_POW Hpow _ _ _ _ _ _ HI Hen) as (ls & rs & Hrs & Hnd & Hne & Hhead).
  exists (sum_list_with (λ r, S (tickets r)) rs). intros outer spins Houter Hspins.
  assert (wp (solo (dequeue RING_POW outer spins)) (λ _ _, True) (shared g)) as Hwp
    by (eapply rings_alone; [exact Hpow|unfold SPINS; lia|done..]).
  apply wp_run in Hwp as (v & q' & Hsolo & _). by exists v, q'.
Qed.

(** Thread 0 has enqueued and stopped in the middle of its [dequeue]. *)
Lemma stopped_early_enqueued : enqueued_to (shared stopped_early).
Proof.
  assert (∃ l0 r0, qhead (shared stopped_early) = Some l0 ∧
    cells (mem (shared stopped_early)) !! l0 = Some (Some r0) ∧ rnext r0 = None ∧ tail_index (rtail r0) = 1)
    as (l0 & r0 & Hhead & Hr0 & Hnext & Htail) by (eexists _, _; split_and!; by vm_compute).
  assert (∀ l, from_head (shared stopped_early) l → l = l0) as Hfrom.
  { induction 1 as [l|l r n _ -> Hr Hn]; congruence. }
  intros l r ->%Hfrom Hr. assert (r = r0) as -> by congruence. by rewrite Htail.
Qed.

Lemma dequeue_progress_witness :
  ∃ enough : nat, ∀ outer spins : nat, (enough ≤ outer)%nat → 200002 ≤ Z.of_nat spins →
    ∃ v q', solo (dequeue 1 outer spins) (shared stopped_early) = Ok (v, q').
Proof.
  refine (dequeue_progress 1 false 10 10 (replicate 13 0%nat) (Execute 1 <$> seq 0 2) small_queue
    stopped_early _ _ _ _ stopped_early_run stopped_early_enqueued).
  - by vm_compute.
  - lia.
  - unfold INT_MAX; lia.
  - repeat constructor; by vm_compute.
Defined.
