(* ===== verification/LcrqBench.v ===== *)
(** The benchmark of [src/snippets/lcrq.c]: its [main], which starts threads that
    wait for each other at a barrier before they use the queue. Each of its runs
    is a run of threads on the queue alone, so that what [LcrqClaims] shows of
    these holds for the benchmark. *)

From S2P Require Import Prelude CInt Heap Proc Lcrq LcrqInv LcrqClaims.
From stdpp Require Import gmultiset.
Local Open Scope Z_scope.

(** ** State *)

(** The queue, and the threads that have come to the barrier [barr]. *)
Record bench := Bench {
  bq : queue;
  arrived : gset nat;
}.

(** What a thread does one after the other: [Wait], up to the barrier, and the
    calls of the loop. *)
Inductive bench_call := Wait | Do (c : call).

(** [PTHREAD_BARRIER_SERIAL_THREAD], which one of the threads gets. *)
Definition SERIAL : Z := -1.
Definition EXIT_SUCCESS : Z := 0.

Definition on_queue {A} (m : M queue A) : M bench A := λ s,
  match m (bq s) with
  | Ok (a, q) => Ok (a, Bench q (arrived s))
  | Fail f => Fail f
  end.

Fixpoint in_queue {A} (p : proc queue A) : proc bench A :=
  match p with
  | Ret a => Ret a
  | Atomic m k => Atomic (on_queue m) (λ b, in_queue (k b))
  end.

(** ** [sscanf] with the format ["%d"] *)

Definition digit_value (c : byte) : option Z :=
  let n := Z.of_nat (u8 c) - 48 in if bool_decide (0 ≤ n < 10) then Some n else None.

Fixpoint scan_digits (s : list byte) (acc : option Z) : option Z :=
  match s with
  | c :: s' =>
      match digit_value c with
      | Some d => scan_digits s' (Some (10 * default 0 acc + d))
      | None => acc
      end
  | [] => acc
  end.

Definition is_blank (c : byte) : bool := bool_decide (c = x20 ∨ (9 ≤ u8 c ≤ 13)%nat).

Fixpoint sscanf_d (s : list byte) : option Z :=
  match s with
  | c :: s' =>
      if is_blank c then sscanf_d s'
      else match c with
           | x2d => Z.opp <$> scan_digits s' None
           | x2b => scan_digits s' None
           | _ => scan_digits s None
           end
  | [] => None
  end.

Section bench.
(** The number of threads and of rounds come from a header that is not part of
    the repository; [wait_rc] is what [pthread_barrier_wait] returns to each
    thread. *)
Context (RING_POW : nat) `{Primitives} (fuel inner RUNS N_THREADS : nat) (wait_rc : nat → Z).

(** ** A thread *)

(** [pthread_barrier_wait]: the thread arrives, and leaves once all have
    arrived. *)
Definition barrier_arrive (id : nat) : M bench unit := λ s,
  Ok (tt, Bench (bq s) ({[id]} ∪ arrived s)).
Definition barrier_leave (id : nat) : M bench Z := λ s,
  if bool_decide (N_THREADS ≤ size (arrived s))%nat then Ok (wait_rc id, s) else Fail Blocked.

(** [if (rc != 0 && rc != PTHREAD_BARRIER_SERIAL_THREAD)]. *)
Definition test_rc (rc : Z) : proc bench Z :=
  if bool_decide (rc ≠ 0 ∧ rc ≠ SERIAL) then stop (Exited (-1)) else mret 0.

(** [Execute] up to its loop. *)
Definition synchronize (id : nat) : proc bench Z :=
  atomic (on_queue (clear_nrq id));;
  atomic (barrier_arrive id);;
  rc ← atomic (barrier_leave id);
  test_rc rc.

Definition bench_body (id : nat) (c : bench_call) : proc bench Z :=
  match c with
  | Wait => synchronize id
  | Do c => in_queue (call_body RING_POW fuel inner id c)
  end.

Definition EntryPoint (id : nat) : list bench_call := Wait :: (Do <$> Execute RUNS id).

(** ** [main] *)

(** [StartThread] gives back [thread_p], which has no value when
    [pthread_create] fails. *)
Definition StartThread (created : bool) (arg : nat) : outcome (list bench_call) :=
  if created then Ok (EntryPoint arg) else Fail Uninitialised.

Inductive bench_state :=
  | Running (g : config bench bench_call Z)
  | Exits (code full : Z) (g : option (config bench bench_call Z)).

(** The threads have been joined. *)
Definition all_joined (g : config bench bench_call Z) : bool :=
  forallb (λ t, match t with Thread None [] => true | _ => false end) (pool g).

(** The argument that says whether the queue is filled: a text that is not a
    number leaves 0, one that is not an [int] is undefined. *)
Definition read_FULL (argv : list (list byte)) : outcome Z :=
  match argv !! 1%nat with
  | None => Fail (Exited EXIT_SUCCESS)
  | Some arg =>
      let n := default 0 (sscanf_d arg) in
      if bool_decide (INT_MIN ≤ n ≤ INT_MAX) then Ok n else Fail SignedOverflow
  end.

(** [main] with the results of [pthread_barrier_init], [pthread_create] and
    [pthread_barrier_destroy], after the steps of a schedule. [full] is what is
    printed as such. *)
Definition lcrq_main (argv : list (list byte)) (init_ok : bool) (create_ok : nat → bool) (destroy_ok : bool)
    (sched : list nat) : outcome bench_state :=
  full ← read_FULL argv;
  if init_ok then
    q ← queue_initial RING_POW (bool_decide (full ≠ 0));
    ts ← mapM (λ i, StartThread (create_ok i) i) (seq 0 N_THREADS);
    g ← run_waiting bench_body sched (start (Bench q ∅) ts);
    Ok (if all_joined g then Exits (if destroy_ok then 0 else -1) full (Some g) else Running g)
  else Ok (Exits (-1) full None).

(** ** The runs of the threads on the queue *)

(** The events of the queue. *)
Definition queue_event (e : event bench_call Z) : option (event call Z) :=
  match e with
  | Invoked i (Do c) => Some (Invoked i c)
  | Returned i (Do c) v => Some (Returned i c v)
  | _ => None
  end.

Definition queue_history (h : list (event bench_call Z)) : list (event call Z) := omap queue_event h.

Lemma queue_history_app h e :
  queue_history (h ++ [e]) = queue_history h ++ match queue_event e with Some e' => [e'] | None => [] end.
Proof. unfold queue_history. rewrite omap_app. cbn. by destruct (queue_event e). Qed.

(** A thread before the barrier, with the calls [cs] after it, that has arrived
    or not. *)
Inductive early (i : nat) (cs : list call) : bool → thread bench bench_call Z → Prop :=
  | early_new : early i cs false (Thread None (Wait :: (Do <$> cs)))
  | early_start : early i cs false (Thread (Some (Wait, synchronize i)) (Do <$> cs))
  | early_clear : early i cs false
      (Thread (Some (Wait, atomic (barrier_arrive i);; rc ← atomic (barrier_leave i); test_rc rc)) (Do <$> cs))
  | early_arrived : early i cs true
      (Thread (Some (Wait, rc ← atomic (barrier_leave i); test_rc rc)) (Do <$> cs)).

(** A thread once all have arrived, and the thread on the queue alone. *)
Inductive late (i : nat) : thread bench bench_call Z → thread queue call Z → Prop :=
  | late_leave cs :
      late i (Thread (Some (Wait, rc ← atomic (barrier_leave i); test_rc rc)) (Do <$> cs)) (Thread None cs)
  | late_test cs : late i (Thread (Some (Wait, test_rc (wait_rc i))) (Do <$> cs)) (Thread None cs)
  | late_call c p cs :
      late i (Thread (Some (Do c, in_queue p)) (Do <$> cs)) (Thread (Some (c, p)) cs)
  | late_idle cs : late i (Thread None (Do <$> cs)) (Thread None cs).

Context (q0 : queue) (Hnrq : nrq q0 = ∅).
Abbreviation start_queue := (benchmark RUNS N_THREADS q0).

(** A configuration of the benchmark and one of the threads on the queue: the
    latter does not move until all have arrived. *)
Record mirrors (g : config bench bench_call Z) (g' : config queue call Z) : Prop := {
  mirror_queue : bq (shared g) = shared g';
  mirror_history : queue_history (history g) = history g';
  mirror_length : length (pool g) = N_THREADS;
  mirror_length' : length (pool g') = N_THREADS;
  mirror_arrived : arrived (shared g) ⊆ set_seq 0 N_THREADS;
  mirror_threads :
    (size (arrived (shared g)) < N_THREADS)%nat ∧ g' = start_queue ∧
      (∀ i th, pool g !! i = Some th → early i (Execute RUNS i) (bool_decide (i ∈ arrived (shared g))) th) ∨
    (N_THREADS ≤ size (arrived (shared g)))%nat ∧
      (∀ i th th', pool g !! i = Some th → pool g' !! i = Some th' → late i th th');
}.

(** The set of all threads is the only one of its size. *)
Lemma all_arrived (A : gset nat) i :
  A ⊆ set_seq 0 N_THREADS → (N_THREADS ≤ size A)%nat → (i < N_THREADS)%nat → i ∈ A.
Proof.
  intros HA Hsize Hi. assert (A ≡ set_seq 0 N_THREADS) as ->; [|apply elem_of_set_seq; lia].
  apply set_subseteq_size_equiv; [done|]. by rewrite size_set_seq.
Qed.

Lemma start_thread i th' : pool start_queue !! i = Some th' → th' = Thread None (Execute RUNS i).
Proof.
  cbn. rewrite !list_lookup_fmap. destruct (seq 0 N_THREADS !! i) as [j|] eqn:Hj; [|done].
  apply lookup_seq in Hj as [-> _]. by intros [= <-].
Qed.

(** What a step of the benchmark may be. *)
Definition step_mirrored (i : nat) (g' : config queue call Z) (o : outcome (config bench bench_call Z)) : Prop :=
  match o with
  | Ok g1 => ∃ r g1', run_schedule (call_body RING_POW fuel inner) r g' = Ok g1' ∧ mirrors g1 g1'
  | Fail f => f = Blocked ∨ (f = Exited (-1) ∧ wait_rc i ≠ 0 ∧ wait_rc i ≠ SERIAL) ∨
      thread_step (call_body RING_POW fuel inner) i g' = Fail f
  end.

Lemma mirrors_early g i th' s' e :
  mirrors g start_queue → (i < N_THREADS)%nat → (size (arrived (shared g)) < N_THREADS)%nat →
  bq s' = bq (shared g) → arrived s' = arrived (shared g) → queue_history e = [] →
  early i (Execute RUNS i) (bool_decide (i ∈ arrived (shared g))) th' →
  (∀ j th, pool g !! j = Some th → early j (Execute RUNS j) (bool_decide (j ∈ arrived (shared g))) th) →
  mirrors (Config s' (<[i := th']> (pool g)) (history g ++ e)) start_queue.
Proof.
  intros [] Hi Hsize Hq Ha He Hth Hall. constructor; cbn [shared pool history]; try done.
  - by rewrite Hq.
  - unfold queue_history in *. by rewrite omap_app, He, app_nil_r.
  - by rewrite length_insert.
  - by rewrite Ha.
  - left. rewrite Ha. split_and!; [done..|]. intros j th [(<- & -> & _)|[_ ?]]%list_lookup_insert_Some; auto.
Qed.

(** The last thread to arrive lets all of them go on. *)
Lemma mirrors_late g i cs :
  mirrors g start_queue → (i < N_THREADS)%nat → cs = Execute RUNS i →
  (∀ j th, pool g !! j = Some th → early j (Execute RUNS j) (bool_decide (j ∈ arrived (shared g))) th) →
  mirrors (Config (Bench (bq (shared g)) ({[i]} ∪ arrived (shared g)))
    (<[i := Thread (Some (Wait, rc ← atomic (barrier_leave i); test_rc rc)) (Do <$> cs)]> (pool g))
    (history g)) start_queue.
Proof.
  intros [] Hi -> Hall.
  assert ({[i]} ∪ arrived (shared g) ⊆ set_seq 0 N_THREADS) as Hsub.
  { apply union_subseteq. split; [|done]. apply singleton_subseteq_l, elem_of_set_seq. lia. }
  constructor; cbn [shared pool history bq arrived]; try done; [by rewrite length_insert|].
  destruct (decide (N_THREADS ≤ size ({[i]} ∪ arrived (shared g)))%nat) as [Hn|Hn]; [right|left].
  - split; [done|]. intros j th th' [(<- & <- & _)|[Hne Hj]]%list_lookup_insert_Some Hj'.
    { apply start_thread in Hj' as ->. constructor. }
    apply start_thread in Hj' as ->. specialize (Hall j th Hj). rewrite bool_decide_true in Hall.
    + inversion Hall. constructor.
    + apply lookup_lt_Some in Hj. rewrite mirror_length0 in Hj.
      pose proof (all_arrived _ j Hsub Hn Hj) as Hin. set_solver.
  - split_and!; [lia|done|]. intros j th [(<- & <- & _)|[Hne Hj]]%list_lookup_insert_Some.
    + rewrite bool_decide_true by set_solver. constructor.
    + specialize (Hall j th Hj).
      by rewrite (bool_decide_ext (j ∈ {[i]} ∪ arrived (shared g)) (j ∈ arrived (shared g))) by set_solver.
Qed.

Lemma early_step g i th :
  mirrors g start_queue → (size (arrived (shared g)) < N_THREADS)%nat → pool g !! i = Some th →
  (∀ j th, pool g !! j = Some th → early j (Execute RUNS j) (bool_decide (j ∈ arrived (shared g))) th) →
  step_mirrored i start_queue (thread_step bench_body i g).
Proof.
  intros Hg Hsize Hi Hall. pose proof (Hall i th Hi) as Hth.
  assert (i < N_THREADS)%nat as HiN by (rewrite <-(mirror_length _ _ Hg); by eapply lookup_lt_Some).
  unfold thread_step. rewrite Hi. destruct (bool_decide (i ∈ _)) eqn:Hin; inversion Hth; subst th; cbn.
  - unfold barrier_leave. rewrite bool_decide_false by lia. by left.
  - exists [], start_queue. split; [done|]. eapply mirrors_early; try done. rewrite Hin. constructor.
  - exists [], start_queue. split; [done|].
    rewrite <-(app_nil_r (history g)). eapply mirrors_early; try done; [|rewrite Hin; constructor].
    cbn. rewrite (mirror_queue _ _ Hg). change (shared start_queue) with q0.
    rewrite Hnrq, delete_empty, <-Hnrq. by destruct q0.
  - exists [], start_queue. split; [done|]. by apply mirrors_late.
Qed.

Lemma late_step g g' i th th' :
  mirrors g g' → (N_THREADS ≤ size (arrived (shared g)))%nat →
  pool g !! i = Some th → pool g' !! i = Some th' → late i th th' →
  (∀ j th th', pool g !! j = Some th → pool g' !! j = Some th' → late j th th') →
  step_mirrored i g' (thread_step bench_body i g).
Proof.
  intros Hg Hsize Hi Hi' Hth Hall. pose proof Hg as [].
  assert (∀ s1 q1 th1 th1' e e', bq s1 = q1 → arrived s1 = arrived (shared g) → queue_history e = e' →
    late i th1 th1' →
    mirrors (Config s1 (<[i := th1]> (pool g)) (history g ++ e))
      (Config q1 (<[i := th1']> (pool g')) (history g' ++ e'))) as Hnew.
  { intros s1 q1 th1 th1' e e' Hq Ha He Hth1. constructor; cbn [shared pool history]; rewrite ?length_insert; try done.
    - unfold queue_history in *. by rewrite omap_app, He, mirror_history0.
    - by rewrite Ha.
    - right. rewrite Ha. split; [done|].
      intros j x x' [(<- & <- & _)|[? Hj]]%list_lookup_insert_Some [(Hij & <- & _)|[? Hj']]%list_lookup_insert_Some;
        first [done|congruence|by eauto]. }
  assert (∀ s1 th1 e, bq s1 = bq (shared g) → arrived s1 = arrived (shared g) → queue_history e = [] → late i th1 th' →
    mirrors (Config s1 (<[i := th1]> (pool g)) (history g ++ e)) g') as Hstay.
  { intros s1 th1 e Hq Ha He Hth1. specialize (Hnew s1 (shared g') th1 th' e [] ltac:(congruence) Ha He Hth1).
    rewrite app_nil_r, (list_insert_id (pool g')) in Hnew by done. destruct g'. exact Hnew. }
  unfold thread_step at 1. rewrite Hi. destruct Hth as [cs|cs|c p cs|cs].
  - cbn. unfold barrier_leave. rewrite bool_decide_true by done.
    exists [], g'. split; [done|]. rewrite <-(app_nil_r (history g)). apply Hstay; try done. constructor.
  - unfold test_rc. case_bool_decide; cbn; [by right; left|].
    exists [], g'. split; [done|]. apply Hstay; try done. constructor.
  - destruct p as [v|B m k]; cbn.
    + exists [i]. eexists. cbn. unfold thread_step. rewrite Hi'. split; [reflexivity|].
      apply Hnew; try done. constructor.
    + unfold on_queue. rewrite mirror_queue0. destruct (m (shared g')) as [[b q1]|f] eqn:Hm.
      * exists [i]. eexists. cbn. unfold thread_step. rewrite Hi', Hm. split; [reflexivity|].
        rewrite <-(app_nil_r (history g)), <-(app_nil_r (history g')). apply Hnew; try done. constructor.
      * right. right. unfold thread_step. by rewrite Hi', Hm.
  - destruct cs as [|c cs]; cbn.
    + exists [], g'. split; [done|]. exact Hg.
    + exists [i]. eexists. cbn. unfold thread_step. rewrite Hi'. split; [reflexivity|].
      apply Hnew; try done. constructor.
Qed.

(** Every step of the benchmark is one of the threads on the queue, or none. *)
Lemma step_mirrors g g' i : mirrors g g' → step_mirrored i g' (thread_step bench_body i g).
Proof.
  intros Hg. destruct (pool g !! i) as [th|] eqn:Hi.
  2:{ unfold thread_step. rewrite Hi. by exists [], g'. }
  destruct (mirror_threads _ _ Hg) as [(Hsize & -> & Hall)|[Hsize Hall]]; [by eapply early_step|].
  destruct (lookup_lt_is_Some_2 (pool g') i) as [th' Hi'].
  { rewrite (mirror_length' _ _ Hg), <-(mirror_length _ _ Hg). by eapply lookup_lt_Some. }
  eapply late_step; eauto.
Qed.

(** The same for a schedule. *)
Lemma run_mirrors sched : ∀ g g',
  mirrors g g' →
  ∃ r, match run_waiting bench_body sched g with
       | Ok g1 => ∃ g1', run_schedule (call_body RING_POW fuel inner) r g' = Ok g1' ∧ mirrors g1 g1'
       | Fail f => (f = Exited (-1) ∧ ∃ i, wait_rc i ≠ 0 ∧ wait_rc i ≠ SERIAL) ∨
           run_schedule (call_body RING_POW fuel inner) r g' = Fail f
       end.
Proof.
  induction sched as [|i sched IH]; intros g g' Hg; [by exists [], g'|].
  pose proof (step_mirrors g g' i Hg) as Hstep. cbn.
  destruct (thread_step bench_body i g) as [g1|f].
  - destruct Hstep as (r1 & g1' & Hr1 & Hg1). destruct (IH g1 g1' Hg1) as [r2 Hr2].
    exists (r1 ++ r2). by rewrite run_schedule_app, Hr1.
  - destruct (decide (f = Blocked)) as [->|Hf]; [by apply IH|].
    exists [i]. cbn. destruct Hstep as [?|[(-> & Hrc)|Hstep]]; [done| |].
    + left. eauto.
    + rewrite Hstep. destruct f; by try right.
Qed.

(** The start: no thread has come to the barrier. *)
Lemma mirrors_start : mirrors (start (Bench q0 ∅) (EntryPoint <$> seq 0 N_THREADS)) start_queue.
Proof.
  constructor; cbn; try done; rewrite ?length_fmap, ?length_seq; [done..|set_solver|].
  rewrite size_empty. destruct (decide (N_THREADS = 0)%nat) as [Hz|Hz]; [right|left].
  - split; [lia|]. rewrite Hz. by intros i th th'.
  - split_and!; [lia|done|]. intros i th. rewrite !list_lookup_fmap.
    destruct (seq 0 N_THREADS !! i) as [j|] eqn:Hj; [|done]. apply lookup_seq in Hj as [-> _].
    intros [= <-]. constructor.
Qed.

(** Before the last thread has arrived the queue has not been used. *)
Lemma mirrors_unused g g' :
  mirrors g g' → (size (arrived (shared g)) < N_THREADS)%nat →
  queue_history (history g) = [] ∧ bq (shared g) = q0.
Proof.
  intros [] Hsize. destruct mirror_threads0 as [(_ & -> & _)|[? _]]; [|lia]. by split.
Qed.

(** When the threads have returned, those on the queue have. *)
Lemma mirrors_joined g g' :
  mirrors g g' → all_joined g = true → Forall (λ th, th = Thread None []) (pool g').
Proof.
  intros Hg Hj. pose proof Hg as []. unfold all_joined in Hj. rewrite <-Is_true_true, forallb_True, Forall_lookup in Hj.
  apply Forall_lookup. intros i th' Hi'.
  destruct (lookup_lt_is_Some_2 (pool g) i) as [th Hi].
  { rewrite mirror_length0, <-mirror_length'0. by eapply lookup_lt_Some. }
  pose proof (Hj i th Hi) as Hth. destruct mirror_threads0 as [(_ & _ & Hall)|[_ Hall]].
  - exfalso. by destruct (Hall i th Hi).
  - destruct (Hall i th th' Hi Hi') as [| | |[|c cs]]; done.
Qed.
(** How many steps a thread is from the barrier. *)
Inductive steps_left (i : nat) (cs : list call) : nat → thread bench bench_call Z → Prop :=
  | left_new : steps_left i cs 3 (Thread None (Wait :: (Do <$> cs)))
  | left_start : steps_left i cs 2 (Thread (Some (Wait, synchronize i)) (Do <$> cs))
  | left_clear : steps_left i cs 1
      (Thread (Some (Wait, atomic (barrier_arrive i);; rc ← atomic (barrier_leave i); test_rc rc)) (Do <$> cs))
  | left_arrived : steps_left i cs 0
      (Thread (Some (Wait, rc ← atomic (barrier_leave i); test_rc rc)) (Do <$> cs)).

(** No thread is further from it than [left] says. *)
Record approaching (left : nat → nat) (g : config bench bench_call Z) : Prop := {
  near_mirrors : mirrors g start_queue;
  near_closed : (size (arrived (shared g)) < N_THREADS)%nat;
  near_threads i th : pool g !! i = Some th →
    ∃ n, (n ≤ left i)%nat ∧ steps_left i (Execute RUNS i) n th ∧ (n = 0%nat → i ∈ arrived (shared g));
}.

(** What is left after a turn of thread [i]. *)
Definition after_turn (i : nat) (left : nat → nat) (j : nat) : nat :=
  if decide (j = i) then (left j - 1)%nat else left j.

Lemma near_insert left g g1 i n th :
  approaching left g → (n ≤ left i - 1)%nat → steps_left i (Execute RUNS i) n th →
  (n = 0%nat → i ∈ arrived (shared g1)) → arrived (shared g) ⊆ arrived (shared g1) →
  pool g1 = <[i := th]> (pool g) → mirrors g1 start_queue → (size (arrived (shared g1)) < N_THREADS)%nat →
  approaching (after_turn i left) g1.
Proof.
  intros [Hg Hsize Hall] Hn Hth H0 Hsub Hp Hg1 Hsize1. constructor; [done..|]. unfold after_turn.
  intros j x. rewrite Hp. intros [(<- & <- & _)|[Hne Hj]]%list_lookup_insert_Some.
  - exists n. by rewrite decide_True by done.
  - rewrite decide_False by done. destruct (Hall j x Hj) as (m & Hm & Hx & Hin). exists m. split_and!; [done..|]. auto.
Qed.

Lemma near_turn left g i :
  approaching left g →
  match thread_step bench_body i g with
  | Ok g1 => (N_THREADS ≤ size (arrived (shared g1)))%nat ∨ approaching (after_turn i left) g1
  | Fail f => f = Blocked ∧ approaching (after_turn i left) g
  end.
Proof.
  intros Hnear. pose proof Hnear as [Hg Hsize Hall]. pose proof (step_mirrors g start_queue i Hg) as Hstep.
  unfold thread_step in *. destruct (pool g !! i) as [th|] eqn:Hi.
  2:{ right. constructor; [done..|]. intros j th Hj. unfold after_turn. rewrite decide_False by congruence. by apply Hall. }
  destruct (Hall i th Hi) as (n & Hn & Hth & Hin).
  assert (∀ g1 m th1, step_mirrored i start_queue (Ok g1) → pool g1 = <[i := th1]> (pool g) →
    (m ≤ left i - 1)%nat → steps_left i (Execute RUNS i) m th1 → (m = 0%nat → i ∈ arrived (shared g1)) →
    arrived (shared g) ⊆ arrived (shared g1) →
    (N_THREADS ≤ size (arrived (shared g1)))%nat ∨ approaching (after_turn i left) g1) as Hnew.
  { intros g1 m th1 (r & g1' & Hr & Hg1) Hp Hm Hth1 Hin1 Hsub.
    destruct (decide (N_THREADS ≤ size (arrived (shared g1)))%nat) as [?|Hlt]; [by left|right].
    destruct (mirror_threads _ _ Hg1) as [(_ & -> & _)|[? _]]; [|lia].
    eapply near_insert; [done..|lia]. }
  inversion Hth; subst th n; cbn in Hstep |- *.
  - refine (Hnew _ 2%nat _ Hstep eq_refl _ _ _ _); first [lia|constructor|done].
  - refine (Hnew _ 1%nat _ Hstep eq_refl _ _ _ _); first [lia|constructor|done].
  - refine (Hnew _ 0%nat _ Hstep eq_refl _ _ _ _); first [lia|constructor|cbn; set_solver].
  - unfold barrier_leave. rewrite bool_decide_false by lia. split; [done|].
    constructor; [done..|]. unfold after_turn. intros j x Hj. destruct (decide (j = i)) as [->|]; [|by apply Hall].
    exists 0%nat. split_and!; [lia| |by auto]. rewrite Hi in Hj. by injection Hj as <-.
Qed.

(** Somewhere in a schedule that gives each thread three turns all have come. *)
Lemma near_opens sched : ∀ left g,
  approaching left g → (∀ i, (i < N_THREADS)%nat → (left i ≤ length (filter (i =.) sched))%nat) →
  ∃ p g1, p `prefix_of` sched ∧ run_waiting bench_body p g = Ok g1 ∧ (N_THREADS ≤ size (arrived (shared g1)))%nat.
Proof.
  induction sched as [|i sched IH]; intros left g Hnear Hleft.
  - exfalso. pose proof Hnear as [Hg Hsize Hall].
    assert (set_seq 0 N_THREADS ⊆ arrived (shared g)) as Hsub%subseteq_size.
    { intros i [_ Hi]%elem_of_set_seq. destruct (lookup_lt_is_Some_2 (pool g) i) as [th Hth].
      { rewrite (mirror_length _ _ Hg). lia. }
      destruct (Hall i th Hth) as (n & Hn & _ & Hin). apply Hin. specialize (Hleft i Hi). cbn in Hleft. lia. }
    rewrite size_set_seq in Hsub. lia.
  - assert (∀ j, (j < N_THREADS)%nat → (after_turn i left j ≤ length (filter (j =.) sched))%nat) as Hleft'.
    { intros j Hj. specialize (Hleft j Hj). unfold after_turn. rewrite filter_cons in Hleft.
      destruct (decide (j = i)); cbn in Hleft; lia. }
    pose proof (near_turn left g i Hnear) as Hturn. destruct (thread_step bench_body i g) as [g1|f] eqn:Hstep.
    + destruct Hturn as [Hopen|Hnear1].
      * exists [i], g1. split; [apply prefix_cons, prefix_nil|]. cbn. by rewrite Hstep.
      * destruct (IH _ g1 Hnear1 Hleft') as (p & g2 & Hp & Hrun & Hopen). exists (i :: p), g2.
        split; [by apply prefix_cons|]. cbn. by rewrite Hstep.
    + destruct Hturn as [-> Hnear1]. destruct (IH _ g Hnear1 Hleft') as (p & g2 & Hp & Hrun & Hopen).
      exists (i :: p), g2. split; [by apply prefix_cons|]. cbn. by rewrite Hstep.
Qed.

Lemma near_start :
  (0 < N_THREADS)%nat → approaching (λ _, 3%nat) (start (Bench q0 ∅) (EntryPoint <$> seq 0 N_THREADS)).
Proof.
  intros HN. constructor; [apply mirrors_start|cbn; rewrite size_empty; lia|]. intros i th. cbn. rewrite !list_lookup_fmap.
  destruct (seq 0 N_THREADS !! i) as [j|] eqn:Hj; [|done]. apply lookup_seq in Hj as [-> _]. intros [= <-].
  exists 3%nat. split_and!; [lia|constructor|lia].
Qed.
End bench.

(** ** What the threads were asked to enqueue *)

Definition call_asked (c : call) : gmultiset Z := match c with Enqueue v => {[+ v +]} | Dequeue => ∅ end.

(** By the calls that have not begun. *)
Definition to_ask {S} (g : config S call Z) : gmultiset Z := sum_ms (λ th, sum_ms call_asked (pending th)) (pool g).

Lemma step_asked {S} (body : nat → call → proc S Z) i g g' :
  thread_step body i g = Ok g' → asked (history g') ⊎ to_ask g' = asked (history g) ⊎ to_ask g.
Proof.
  unfold thread_step. destruct (pool g !! i) as [th|] eqn:Hi; [|by intros [= <-]].
  unfold to_ask. set (f := λ th : thread S call Z, sum_ms call_asked (pending th)).
  destruct th as [[[c [v|B m k]]|] cs].
  - intros [= <-]. cbn [history pool]. rewrite asked_app.
    pose proof (sum_ms_insert f _ _ _ (Thread None cs) Hi) as E. subst f. cbn in *. multiset_solver.
  - destruct (m (shared g)) as [[b s']|]; [|done]. intros [= <-]. cbn [history pool].
    pose proof (sum_ms_insert f _ _ _ (Thread (Some (c, k b)) cs) Hi) as E. subst f. cbn in *. multiset_solver.
  - destruct cs as [|c cs]; [by intros [= <-]|]. intros [= <-]. cbn [history pool]. rewrite asked_app.
    pose proof (sum_ms_insert f _ _ _ (Thread (Some (c, body i c)) cs) Hi) as E. subst f.
    cbn [pending] in E. rewrite sum_ms_cons in E. destruct c; cbn [call_asked event_asked] in *; multiset_solver.
Qed.

Lemma run_asked {S} (body : nat → call → proc S Z) r : ∀ g g',
  run_schedule body r g = Ok g' → asked (history g') ⊎ to_ask g' = asked (history g) ⊎ to_ask g.
Proof.
  induction r as [|i r IH]; intros g g'; cbn; [by intros [= <-]|].
  intros (g1 & H1%step_asked & H2%IH)%outcome_bind_Ok. congruence.
Qed.

(** Each thread enqueues its number in each round. *)
Definition thread_values (RUNS N_THREADS : nat) : gmultiset Z :=
  sum_ms (λ i, RUNS *: {[+ Z.of_nat i +]}) (seq 0 N_THREADS).

Lemma Execute_asks RUNS id : sum_ms call_asked (Execute RUNS id) = RUNS *: {[+ Z.of_nat id +]}.
Proof.
  unfold Execute. induction RUNS as [|n IH]; [by rewrite gmultiset_scalar_mul_0|].
  change (mjoin (replicate (S n) [Enqueue (Z.of_nat id); Dequeue])) with
    ([Enqueue (Z.of_nat id); Dequeue] ++ mjoin (replicate n [Enqueue (Z.of_nat id); Dequeue])).
  rewrite sum_ms_app, IH, gmultiset_scalar_mul_S_r, !sum_ms_cons, sum_ms_nil. cbn [call_asked]. multiset_solver.
Qed.

Lemma benchmark_asks RUNS N_THREADS q : to_ask (benchmark RUNS N_THREADS q) = thread_values RUNS N_THREADS.
Proof.
  unfold to_ask, benchmark, start, thread_values. cbn [pool]. rewrite !sum_ms_fmap.
  apply sum_ms_ext. intros i _. apply Execute_asks.
Qed.

Lemma Execute_ok RUNS id : Z.of_nat id ≤ INT_MAX → Forall call_ok (Execute RUNS id).
Proof.
  intros Hid. unfold Execute. induction RUNS as [|n IH]; [by apply Forall_nil_2|].
  apply Forall_cons_2; [|by apply Forall_cons_2]. cbn.
  assert (EMPTY = 2 ^ 64 - 1) as -> by done. cint_lia.
Qed.

(** ** The benchmark *)

Section claims.
Context `{Primitives, !PrimitivesLaws} (RING_POW fuel inner RUNS N_THREADS : nat) (wait_rc : nat → Z).
Context (Hfuel : Z.of_nat fuel ≤ INT_MAX) (HN : Z.of_nat N_THREADS ≤ INT_MAX).
Abbreviation bbody := (bench_body RING_POW fuel inner N_THREADS wait_rc).
Abbreviation mirrors_from := (mirrors RUNS N_THREADS wait_rc).

Lemma create_all (create_ok : nat → bool) l :
  mapM (λ i, StartThread RUNS (create_ok i) i) l =
    if forallb create_ok l then Ok (EntryPoint RUNS <$> l) else Fail Uninitialised.
Proof.
  set (f := λ i, StartThread RUNS (create_ok i) i). induction l as [|i l IH]; [done|].
  change (mapM f (i :: l)) with (y ← f i; k ← mapM f l; mret (y :: k)). rewrite IH. cbn [forallb].
  unfold f, StartThread. destruct (create_ok i); [|done]. by destruct (forallb create_ok l).
Qed.

Lemma all_ok : Forall (Forall call_ok) (Execute RUNS <$> seq 0 N_THREADS).
Proof.
  clear Hfuel. apply Forall_fmap, list.Forall_forall. intros i [_ Hi]%elem_of_seq. apply Execute_ok. lia.
Qed.

(** What the theorems on the queue say of a configuration of the benchmark. *)
Lemma mirrors_values full q g r g' :
  queue_initial RING_POW full = Ok q → mirrors_from q g g' →
  run_schedule (call_body RING_POW fuel inner) r (benchmark RUNS N_THREADS q) = Ok g' →
  dequeued (queue_history (history g)) ⊆ filled RING_POW full ⊎ thread_values RUNS N_THREADS ∧
  (all_joined g = true →
    dequeued (queue_history (history g)) ⊎ available (bq (shared g)) =
      filled RING_POW full ⊎ thread_values RUNS N_THREADS).
Proof.
  intros Hq Hg Hr.
  pose proof (queue_run RING_POW _ _ fuel inner r _ Hfuel (start_ok RING_POW full q _ Hq all_ok)) as Hrun.
  fold (benchmark RUNS N_THREADS q) in Hrun. rewrite Hr in Hrun.
  apply queue_ok_values in Hrun as [Hsub Hquiet]. apply run_asked in Hr.
  rewrite benchmark_asks in Hr. change (asked (history (benchmark _ _ _))) with (∅ : gmultiset Z) in Hr.
  rewrite (mirror_history _ _ _ _ _ _ Hg), (mirror_queue _ _ _ _ _ _ Hg). split.
  - etrans; [apply gmultiset_disj_union_subseteq_l|]. etrans; [exact Hsub|]. clear Hquiet. multiset_solver.
  - intros Hj. pose proof (mirrors_joined _ _ _ _ _ _ Hg Hj) as Hall.
    assert (to_ask g' = ∅) as Hnone.
    { apply sum_ms_empty. intros th Hth. rewrite list.Forall_forall in Hall. by rewrite (Hall th Hth). }
    destruct Hquiet as [Hasked ->]; [unfold quiescent; eapply list.Forall_impl; [exact Hall|by intros ? ->]|].
    rewrite Hnone in Hr. multiset_solver.
Qed.

(** ** No thread waits once the barrier is open *)

(** A step of the threads on the queue fails by running out of fuel only. *)
Lemma queue_step_fails full q r g' i f :
  queue_initial RING_POW full = Ok q →
  run_schedule (call_body RING_POW fuel inner) r (benchmark RUNS N_THREADS q) = Ok g' →
  thread_step (call_body RING_POW fuel inner) i g' = Fail f → f = OutOfFuel.
Proof.
  intros Hq Hr Hstep.
  pose proof (queue_run RING_POW _ _ fuel inner (r ++ [i]) _ Hfuel (start_ok RING_POW full q _ Hq all_ok)) as Hrun.
  fold (benchmark RUNS N_THREADS q) in Hrun. rewrite run_schedule_app, Hr in Hrun. cbn in Hrun.
  by rewrite Hstep in Hrun.
Qed.

(** A thread does not wait once all have come. *)
Lemma late_moves full q g r g' i th th' :
  queue_initial RING_POW full = Ok q → mirrors_from q g g' →
  run_schedule (call_body RING_POW fuel inner) r (benchmark RUNS N_THREADS q) = Ok g' →
  (N_THREADS ≤ size (arrived (shared g)))%nat →
  late N_THREADS wait_rc i th th' → pool g !! i = Some th → pool g' !! i = Some th' →
  thread_step bbody i g ≠ Fail Blocked.
Proof.
  intros Hq Hg Hr Hsize Hth Hi Hi' Hstep. unfold thread_step in Hstep. rewrite Hi in Hstep.
  destruct Hth as [cs|cs|c p cs|[|c cs]]; cbn in Hstep.
  - unfold barrier_leave in Hstep. by rewrite bool_decide_true in Hstep.
  - unfold test_rc in Hstep. by case_bool_decide.
  - destruct p as [v|B m k]; cbn in Hstep; [done|]. unfold on_queue in Hstep.
    rewrite (mirror_queue _ _ _ _ _ _ Hg) in Hstep.
    destruct (m (shared g')) as [[b q1]|f] eqn:Hm; [done|]. injection Hstep as ->.
    assert (Blocked = OutOfFuel); [|done]. apply (queue_step_fails full q r g' i Blocked Hq Hr).
    unfold thread_step. by rewrite Hi', Hm.
  - done.
  - done.
Qed.

Lemma open_moves full q g r g' i :
  queue_initial RING_POW full = Ok q → mirrors_from q g g' →
  run_schedule (call_body RING_POW fuel inner) r (benchmark RUNS N_THREADS q) = Ok g' →
  (N_THREADS ≤ size (arrived (shared g)))%nat → thread_step bbody i g ≠ Fail Blocked.
Proof.
  intros Hq Hg Hr Hsize. destruct (pool g !! i) as [th|] eqn:Hi; [|by unfold thread_step; rewrite Hi].
  destruct (lookup_lt_is_Some_2 (pool g') i) as [th' Hi'].
  { rewrite (mirror_length' _ _ _ _ _ _ Hg), <-(mirror_length _ _ _ _ _ _ Hg). by eapply lookup_lt_Some. }
  destruct (mirror_threads _ _ _ _ _ _ Hg) as [(? & _)|[_ Hall]]; [lia|]. eapply late_moves; eauto.
Qed.

(** The number of threads at the barrier is bounded. *)
Lemma arrived_bound q g g' : mirrors_from q g g' → (size (arrived (shared g)) ≤ N_THREADS)%nat.
Proof. intros Hg. rewrite <-(size_set_seq (C := gset nat) 0 N_THREADS). apply subseteq_size, Hg. Qed.

(** [main] when its argument can be read and everything can be created. *)
Lemma lcrq_main_starts argv init_ok create_ok destroy_ok :
  match read_FULL argv with
  | Fail f => ∀ sched, lcrq_main RING_POW fuel inner RUNS N_THREADS wait_rc argv init_ok create_ok destroy_ok sched = Fail f
  | Ok full =>
      (init_ok = false ∧ ∀ sched, lcrq_main RING_POW fuel inner RUNS N_THREADS wait_rc argv init_ok create_ok destroy_ok sched =
        Ok (Exits (-1) full None)) ∨
      ((∃ i, (i < N_THREADS)%nat ∧ create_ok i = false) ∧
        ∀ sched, lcrq_main RING_POW fuel inner RUNS N_THREADS wait_rc argv init_ok create_ok destroy_ok sched = Fail Uninitialised) ∨
      init_ok = true ∧ ∃ q, queue_initial RING_POW (bool_decide (full ≠ 0)) = Ok q ∧ nrq q = ∅ ∧
        ∀ sched, lcrq_main RING_POW fuel inner RUNS N_THREADS wait_rc argv init_ok create_ok destroy_ok sched =
          g ← run_waiting bbody sched (start (Bench q ∅) (EntryPoint RUNS <$> seq 0 N_THREADS));
          Ok (if all_joined g then Exits (if destroy_ok then 0 else -1) full (Some g) else Running g)
  end.
Proof.
  unfold lcrq_main. destruct (read_FULL argv) as [full|f]; [|done].
  destruct init_ok; [right|by left].
  pose proof (initial_queue RING_POW (bool_decide (full ≠ 0))) as Hinit.
  destruct (queue_initial RING_POW _) as [q|] eqn:Hq; [|done].
  destruct Hinit as (_ & _ & _ & _ & _ & Hnrq).
  destruct (forallb create_ok (seq 0 N_THREADS)) eqn:Hall; [right|left].
  - split; [done|]. exists q. split_and!; [done..|]. intros sched. by rewrite bind_Ok, Hq, bind_Ok, create_all, Hall, bind_Ok.
  - split; [|intros sched; by rewrite bind_Ok, Hq, bind_Ok, create_all, Hall].
    apply not_true_iff_false in Hall. rewrite forallb_forall in Hall.
    destruct (decide (Exists (λ i, create_ok i = false) (seq 0 N_THREADS))) as [Hex|Hno].
    + apply list.Exists_exists in Hex as (i & Hi%elem_of_seq & ?). exists i. split; [lia|done].
    + destruct Hall. intros i Hi. apply not_false_iff_true. intros Hn. apply Hno, list.Exists_exists.
      exists i. split; [by apply list_elem_of_In|done].
Qed.

(** The configuration that [main] waits for or ends with. *)
Definition threads_of (st : bench_state) : option (config bench bench_call Z) :=
  match st with Running g => Some g | Exits _ _ g => g end.

(** C22: the benchmark, from its arguments to its end, under every schedule of any
    number of threads. No thread uses the queue before all have come to the
    barrier; what the calls of [dequeue] return are values of the filled ring or
    numbers of threads, none more often than it was there; and when the threads
    have been joined, what was returned and what is left in the rings is, with
    multiplicity, exactly the filled half of the ring and [RUNS] times the number
    of each thread. It goes wrong only without an argument, where it exits with
    success, with one that is no [int], when a thread cannot be created, when a
    wait at the barrier fails, or when a call is still running after [fuel]
    iterations. When the program starts, the barrier opens: in every schedule that
    gives each thread three turns there is a point where nothing has gone wrong
    and all have come to it; and from then on no thread waits. That the calls
    themselves return is not said. *)
Theorem bench_conserves argv init_ok create_ok destroy_ok :
  let run := lcrq_main RING_POW fuel inner RUNS N_THREADS wait_rc argv init_ok create_ok destroy_ok in
  (∀ sched, match run sched with
  | Ok (Exits code full None) => init_ok = false ∧ code = -1 ∧ read_FULL argv = Ok full
  | Ok (Exits code full (Some g)) =>
      init_ok = true ∧ code = (if destroy_ok then 0 else -1) ∧ read_FULL argv = Ok full ∧
      dequeued (queue_history (history g)) ⊎ available (bq (shared g)) =
        filled RING_POW (bool_decide (full ≠ 0)) ⊎ thread_values RUNS N_THREADS
  | Ok (Running g) => ∃ full q, read_FULL argv = Ok full ∧
      queue_initial RING_POW (bool_decide (full ≠ 0)) = Ok q ∧
      dequeued (queue_history (history g)) ⊆
        filled RING_POW (bool_decide (full ≠ 0)) ⊎ thread_values RUNS N_THREADS ∧
      ((size (arrived (shared g)) < N_THREADS)%nat → queue_history (history g) = [] ∧ bq (shared g) = q)
  | Fail f => f = OutOfFuel ∨ read_FULL argv = Fail f ∨
      f = Uninitialised ∧ (∃ i, (i < N_THREADS)%nat ∧ create_ok i = false) ∨
      f = Exited (-1) ∧ ∃ i, wait_rc i ≠ 0 ∧ wait_rc i ≠ SERIAL
  end) ∧
  (∀ sched, (0 < N_THREADS)%nat → (∃ full, read_FULL argv = Ok full) → init_ok = true → (∀ i, (i < N_THREADS)%nat → create_ok i = true) →
    (∀ i, (i < N_THREADS)%nat → (3 ≤ length (filter (i =.) sched))%nat) →
    ∃ p st g, p `prefix_of` sched ∧ run p = Ok st ∧ threads_of st = Some g ∧ size (arrived (shared g)) = N_THREADS) ∧
  (∀ sched st g i, run sched = Ok st → threads_of st = Some g → size (arrived (shared g)) = N_THREADS →
    thread_step bbody i g ≠ Fail Blocked).
Proof.
  pose proof (lcrq_main_starts argv init_ok create_ok destroy_ok) as Hmain. cbv zeta.
  destruct (read_FULL argv) as [full|f].
  2:{ split_and!; [intros sched; rewrite Hmain; auto|by intros sched _ []|intros sched st g i; by rewrite Hmain]. }
  destruct Hmain as [[-> Hmain]|[[Hex Hmain]|(-> & q & Hq & Hnrq & Hmain)]].
  { split_and!; [intros sched; by rewrite Hmain|done|intros sched st g i; rewrite Hmain; by intros [= <-]]. }
  { split_and!; [intros sched; rewrite Hmain; auto| |intros sched st g i; by rewrite Hmain].
    intros sched _ _ _ Hall. destruct Hex as (i & Hi & Hno). by rewrite Hall in Hno. }
  pose proof (mirrors_start RUNS N_THREADS wait_rc q) as Hstart.
  pose proof (λ sched, run_mirrors RING_POW fuel inner RUNS N_THREADS wait_rc q Hnrq sched _ _ Hstart) as Hruns.
  split_and!.
  - intros sched. rewrite Hmain. destruct (Hruns sched) as [r Hr].
    destruct (run_waiting bbody sched _) as [g|f].
    + rewrite bind_Ok. destruct Hr as (g' & Hr & Hg). destruct (mirrors_values _ q g r g' Hq Hg Hr) as [Hsub Hend].
      destruct (all_joined g); [by split_and!; auto|]. exists full, q. split_and!; [done..|].
      by eapply mirrors_unused.
    + destruct Hr as [?|Hr]; [by right; right; right|]. left.
      pose proof (queue_run RING_POW _ _ fuel inner r _ Hfuel (start_ok RING_POW _ q _ Hq all_ok)) as Hrun.
      fold (benchmark RUNS N_THREADS q) in Hrun. by rewrite Hr in Hrun.
  - intros sched Hpos _ _ _ Hturns.
    destruct (near_opens RING_POW fuel inner RUNS N_THREADS wait_rc q Hnrq sched _ _
      (near_start RUNS N_THREADS wait_rc q Hpos) Hturns) as (p & g & Hp & Hrun & Hopen).
    destruct (Hruns p) as [r Hr]. rewrite Hrun in Hr. destruct Hr as (g' & _ & Hg). pose proof (arrived_bound _ _ _ Hg).
    exists p. rewrite Hmain, Hrun, bind_Ok. eexists _, g. split_and!; [done|done|by destruct (all_joined g)|lia].
  - intros sched st g i. rewrite Hmain. destruct (Hruns sched) as [r Hr]. destruct (run_waiting bbody sched _) as [g1|f]; [|done].
    destruct Hr as (g' & Hr & Hg). rewrite bind_Ok. intros [= <-] Hst Hsize.
    assert (g1 = g) as -> by (destruct (all_joined g1); by injection Hst).
    eapply open_moves; [done..|lia].
Qed.
End claims.

(** ** An execution: two threads with one round each on rings of two cells, one
    of which is filled *)

Definition trial_rc (i : nat) : Z := if bool_decide (i = 0)%nat then SERIAL else 0.
Definition trial_argv : list (list byte) := [bytes_of "lcrq"; bytes_of "1"].
Definition trial_sched : list nat := mjoin (replicate 60 [0; 1]%nat).
Definition bench_trial (sched : list nat) : outcome bench_state :=
  lcrq_main 1 20 20 1 2 trial_rc trial_argv true (λ _, true) true sched.

Example bench_trial_ends :
  match bench_trial trial_sched with
  | Ok (Exits 0 1 (Some g)) => bool_decide (dequeued (queue_history (history g)) = {[+ 0; 0 +]}) &&
      bool_decide (available (bq (shared g)) = {[+ 1 +]})
  | _ => false
  end = true.
Proof. by vm_compute. Qed.

(** While thread 1 has not come to the barrier, thread 0 waits. *)
Example bench_trial_waits :
  match bench_trial (replicate 20 0%nat) with
  | Ok (Running g) => bool_decide (arrived (shared g) = {[0%nat]}) && match history g with [Invoked 0 Wait] => true | _ => false end
  | _ => false
  end = true.
Proof. by vm_compute. Qed.

Example bench_no_argument sched :
  lcrq_main 1 20 20 1 2 (λ _, 0) [bytes_of "lcrq"] true (λ _, true) true sched = Fail (Exited 0).
Proof. done. Qed.

Example scan_number : sscanf_d (bytes_of " -12x") = Some (-12) ∧ sscanf_d (bytes_of "x") = None.
Proof. by vm_compute. Qed.

Lemma bench_conserves_witness :
  (∀ sched, match bench_trial sched with
  | Ok (Exits code full None) => true = false ∧ code = -1 ∧ read_FULL trial_argv = Ok full
  | Ok (Exits code full (Some g)) =>
      true = true ∧ code = 0 ∧ read_FULL trial_argv = Ok full ∧
      dequeued (queue_history (history g)) ⊎ available (bq (shared g)) =
        filled 1 (bool_decide (full ≠ 0)) ⊎ thread_values 1 2
  | Ok (Running g) => ∃ full q, read_FULL trial_argv = Ok full ∧
      queue_initial 1 (bool_decide (full ≠ 0)) = Ok q ∧
      dequeued (queue_history (history g)) ⊆ filled 1 (bool_decide (full ≠ 0)) ⊎ thread_values 1 2 ∧
      ((size (arrived (shared g)) < 2)%nat → queue_history (history g) = [] ∧ bq (shared g) = q)
  | Fail f => f = OutOfFuel ∨ read_FULL trial_argv = Fail f ∨
      f = Uninitialised ∧ (∃ i, (i < 2)%nat ∧ true = false) ∨
      f = Exited (-1) ∧ ∃ i, trial_rc i ≠ 0 ∧ trial_rc i ≠ SERIAL
  end) ∧
  (∃ p st g, p `prefix_of` trial_sched ∧ bench_trial p = Ok st ∧ threads_of st = Some g ∧ size (arrived (shared g)) = 2%nat) ∧
  (∀ sched st g i, bench_trial sched = Ok st → threads_of st = Some g → size (arrived (shared g)) = 2%nat →
    thread_step (bench_body 1 20 20 2 trial_rc) i g ≠ Fail Blocked).
Proof.
  destruct (bench_conserves 1 20 20 1 2 trial_rc ltac:(cint_lia) ltac:(cint_lia) trial_argv true (λ _, true) true)
    as (Hends & Hopens & Hmoves).
  split; [exact Hends|]. split; [|exact Hmoves].
  apply (Hopens trial_sched); [lia|by eexists|done|done|].
  intros [|[|i]] Hi; [apply (bool_decide_unpack _); by vm_compute..|lia].
Defined.
