(* ===== verification/ThreadPool.v ===== *)
(** The thread pool of [src/snippets/test_worker.c]: the pool, its mutex, and
    the operations of the main thread and of the workers on it. *)

From S2P Require Import Prelude CInt.
Local Open Scope Z_scope.

(** ** Data *)

Definition MAX_WORKER : nat := 64.
Definition WORKER_ENABLE : nat := 2.

(** [worker_task]: a routine, or NULL, and its argument; [tid] is what
    [pthread_create] gave. The field [id] is never used. *)
Record worker_task := WorkerTask { routine : option nat; arg : Z; tid : Z }.

(** [thread_pool], with the mutex that guards it (true while it is held) and
    the number of times [cond] has been signalled. *)
Record thread_pool := ThreadPool {
  bitmap : Z;
  tasks : list worker_task;
  tear_down : Z;
  pool_mutex : bool;
  signals : nat;
}.

(** ** Operations *)

(** [pthread_mutex_lock(&pool_mutex)]: it waits while another holds it. *)
Definition lock_pool : M thread_pool unit :=
  p ← get;
  if pool_mutex p then fail Blocked
  else put (ThreadPool (bitmap p) (tasks p) (tear_down p) true (signals p)).

Definition unlock_pool : M thread_pool unit :=
  p ← get; put (ThreadPool (bitmap p) (tasks p) (tear_down p) false (signals p)).

(** [pthread_cond_signal(&cond)]. *)
Definition signal : M thread_pool unit :=
  p ← get; put (ThreadPool (bitmap p) (tasks p) (tear_down p) (pool_mutex p) (S (signals p))).

(** [pool->tasks[i].routine = r; pool->tasks[i].arg = a;]. *)
Definition set_task (i : nat) (r : option nat) (a : Z) : M thread_pool unit :=
  p ← get;
  t ← lift (rd (tasks p) (Z.of_nat i));
  ts ← lift (wr (tasks p) (Z.of_nat i) (WorkerTask r a (tid t)));
  put (ThreadPool (bitmap p) ts (tear_down p) (pool_mutex p) (signals p)).

Definition set_bitmap (b : Z) : M thread_pool unit :=
  p ← get; put (ThreadPool b (tasks p) (tear_down p) (pool_mutex p) (signals p)).

(** The loop of [thread_add_task], from worker [i] with [n] left to look at.
    The mutex is released when a worker is found. *)
Fixpoint add_loop (n i : nat) (callback : nat) (a : Z) : M thread_pool unit :=
  match n with
  | O => mret tt
  | S n' =>
      p ← get;
      if bool_decide (Z.land (bitmap p) (Z.shiftl 1 (Z.of_nat i)) ≠ 0) then
        add_loop n' (S i) callback a
      else
        set_task i (Some callback) a;;
        set_bitmap (Z.lor (bitmap p) (Z.shiftl 1 (Z.of_nat i)));;
        p ← get;
        lift (check (bool_decide (Z.land (bitmap p) (Z.shiftl 1 (Z.of_nat i)) ≠ 0)) AssertionFailed);;
        unlock_pool
  end.

Definition thread_add_task (callback : nat) (a : Z) : M thread_pool unit :=
  lock_pool;; add_loop WORKER_ENABLE 0 callback a;; signal.

(** What a worker does when it is woken: it exits, finds a task to run, or
    goes back to wait. *)
Inductive wake := Exits | Runs (r : nat) (a : Z) | NotMine.

Definition worker_wakes (id : nat) : M thread_pool wake :=
  p ← get;
  if bool_decide (tear_down p ≠ 0) then mret Exits
  else
    t ← lift (rd (tasks p) (Z.of_nat id));
    mret (match routine t with Some r => Runs r (arg t) | None => NotMine end).

(** What it does when the routine has returned. *)
Definition worker_finishes (id : nat) : M thread_pool unit :=
  lock_pool;;
  p ← get;
  set_bitmap (Z.land (bitmap p) (Z.lnot (Z.shiftl 1 (Z.of_nat id))));;
  set_task id None 0;;
  unlock_pool.

(** [thread_pool_init], [tids] being what [pthread_create] returns. *)
Definition thread_pool_init (tids : list Z) : thread_pool :=
  ThreadPool 0
    (imap (λ i t, match tids !! i with Some x => WorkerTask None 0 x | None => t end)
       (replicate MAX_WORKER (WorkerTask None 0 0)))
    0 false 0.

(** The first part of [thread_pool_destroy], before the threads are joined. *)
Definition thread_pool_destroy : M thread_pool unit :=
  p ← get; put (ThreadPool (bitmap p) (tasks p) 1 (pool_mutex p) (signals p)).

(** ** The abstract pool *)

(** What each worker has to do. *)
Abbreviation job := (nat * Z)%type.
Abbreviation slots := (list (option job)).

(** The position of the first worker that is free. *)
Fixpoint first_free (js : slots) : option nat :=
  match js with
  | [] => None
  | None :: _ => Some 0%nat
  | Some _ :: js' => S <$> first_free js'
  end.

(** The pool [p], its mutex free, gives the workers the jobs [js]: a bit is set
    exactly for the workers that have one. *)
Record pool_ok (js : slots) (p : thread_pool) : Prop := {
  ok_slots : length js = WORKER_ENABLE;
  ok_tasks : length (tasks p) = MAX_WORKER;
  ok_bits (i : nat) : Z.testbit (bitmap p) (Z.of_nat i) =
    bool_decide (is_Some (mjoin (js !! i)));
  ok_task i j : js !! i = Some j → ∃ t, tasks p !! i = Some t ∧
    match j with Some (r, a) => routine t = Some r ∧ arg t = a | None => routine t = None end;
}.

Lemma land_bit b i : (Z.land b (Z.shiftl 1 (Z.of_nat i)) ≠ 0) ↔ Z.testbit b (Z.of_nat i) = true.
Proof.
  rewrite Z.shiftl_1_l. split.
  - intros Hne. destruct (Z.testbit b (Z.of_nat i)) eqn:E; [done|]. exfalso. apply Hne.
    apply Z.bits_inj'. intros n Hn. rewrite Z.land_spec, Z.bits_0, Z.pow2_bits_eqb by lia.
    destruct (Z.eqb_spec (Z.of_nat i) n) as [<-|]; [by rewrite E|apply andb_false_r].
  - intros Hb Hz. apply (f_equal (λ z, Z.testbit z (Z.of_nat i))) in Hz.
    rewrite Z.land_spec, Z.bits_0, Z.pow2_bits_true, Hb in Hz by lia. done.
Qed.

Lemma set_bit b i j :
  Z.testbit (Z.lor b (Z.shiftl 1 (Z.of_nat i))) (Z.of_nat j) =
  bool_decide (j = i) || Z.testbit b (Z.of_nat j).
Proof.
  rewrite Z.lor_spec, Z.shiftl_1_l, Z.pow2_bits_eqb, orb_comm by lia. f_equal.
  destruct (Z.eqb_spec (Z.of_nat i) (Z.of_nat j)); case_bool_decide; done || lia.
Qed.

Lemma clear_bit b i j :
  Z.testbit (Z.land b (Z.lnot (Z.shiftl 1 (Z.of_nat i)))) (Z.of_nat j) =
  bool_decide (j ≠ i) && Z.testbit b (Z.of_nat j).
Proof.
  rewrite Z.land_spec, Z.lnot_spec, Z.shiftl_1_l, Z.pow2_bits_eqb, andb_comm by lia. f_equal.
  destruct (Z.eqb_spec (Z.of_nat i) (Z.of_nat j)); case_bool_decide; done || lia.
Qed.

(** ** The operations refine the abstract pool *)

Lemma wp_set_task i r a t Q p :
  tasks p !! i = Some t →
  Q tt (ThreadPool (bitmap p) (<[i := WorkerTask r a (tid t)]> (tasks p)) (tear_down p)
    (pool_mutex p) (signals p)) →
  wp (set_task i r a) Q p.
Proof.
  intros Ht HQ. unfold set_task. apply wp_bind, wp_get.
  apply wp_bind, wp_lift. rewrite (rd_nat _ _ t) by done. apply yields_ret.
  apply wp_bind, wp_lift. rewrite wr_nat by by eapply lookup_lt_Some. by apply yields_ret, wp_put.
Qed.

Lemma wp_lock_pool Q p :
  pool_mutex p = false →
  Q tt (ThreadPool (bitmap p) (tasks p) (tear_down p) true (signals p)) → wp lock_pool Q p.
Proof. intros Hm HQ. unfold lock_pool. apply wp_bind, wp_get. rewrite Hm. by apply wp_put. Qed.

Lemma wp_unlock_pool (Q : unit → thread_pool → Prop) p :
  Q tt (ThreadPool (bitmap p) (tasks p) (tear_down p) false (signals p)) → wp unlock_pool Q p.
Proof. intros HQ. by apply wp_bind, wp_get, wp_put. Qed.

Lemma wp_set_bitmap b (Q : unit → thread_pool → Prop) p :
  Q tt (ThreadPool b (tasks p) (tear_down p) (pool_mutex p) (signals p)) → wp (set_bitmap b) Q p.
Proof. intros HQ. by apply wp_bind, wp_get, wp_put. Qed.

Lemma lock_pool_held p : pool_mutex p = true → lock_pool p = Fail Blocked.
Proof. intros Hm. unfold lock_pool, mbind, M_bind, get. by rewrite Hm. Qed.

Lemma pool_ok_same js p p' :
  bitmap p' = bitmap p → tasks p' = tasks p → pool_ok js p → pool_ok js p'.
Proof. intros Hb Ht []. constructor; rewrite ?Hb, ?Ht; done. Qed.

(** One slot changes, with its bit and its task. *)
Lemma pool_ok_update js p p' i j t :
  pool_ok js p → (i < length js)%nat →
  (∀ k : nat, Z.testbit (bitmap p') (Z.of_nat k) =
    if decide (k = i) then bool_decide (is_Some j) else Z.testbit (bitmap p) (Z.of_nat k)) →
  tasks p' = <[i := t]> (tasks p) →
  match j with Some (r, a) => routine t = Some r ∧ arg t = a | None => routine t = None end →
  pool_ok (<[i := j]> js) p'.
Proof.
  intros [] Hi Hb Ht Hj. assert (i < length (tasks p))%nat as Hi'.
  { rewrite ok_tasks0. unfold WORKER_ENABLE, MAX_WORKER in *. lia. }
  constructor; [by rewrite length_insert|by rewrite Ht, length_insert| |].
  - intros k. rewrite Hb. case_decide as Hk.
    + subst k. by rewrite list_lookup_insert_eq.
    + by rewrite list_lookup_insert_ne.
  - intros k j' [(<- & -> & _)|[? Hk]]%list_lookup_insert_Some.
    + exists t. by rewrite Ht, list_lookup_insert_eq.
    + rewrite Ht, list_lookup_insert_ne by done. eauto.
Qed.

Lemma add_loop_refines js r a n i p :
  pool_ok js p → (i + n = WORKER_ENABLE)%nat →
  wp (add_loop n i r a) (λ _ p', signals p' = signals p ∧ tear_down p' = tear_down p ∧
    match first_free (drop i js) with
    | Some k => pool_ok (<[(i + k)%nat := Some (r, a)]> js) p' ∧ pool_mutex p' = false
    | None => p' = p
    end) p.
Proof.
  intros Hok. revert i. induction n as [|n IH]; intros i Hi; cbn [add_loop].
  - rewrite drop_ge by (rewrite (ok_slots _ _ Hok); lia). by apply wp_ret.
  - destruct (lookup_lt_is_Some_2 js i) as [j Hj]; [rewrite (ok_slots _ _ Hok); lia|].
    rewrite (drop_S _ j) by done. apply wp_bind, wp_get.
    pose proof (ok_bits _ _ Hok i) as Hbit. rewrite Hj in Hbit. cbn in Hbit.
    destruct j as [job|]; cbn [first_free].
    + rewrite bool_decide_true by (apply land_bit; by rewrite Hbit).
      eapply wp_mono; [apply IH; lia|]. intros [] p' (Hs & Htd & Hp'). do 2 (split; [done|]).
      destruct (first_free (drop (S i) js)) as [k|]; [|done]. cbn.
      by replace (i + S k)%nat with (S i + k)%nat by lia.
    + rewrite bool_decide_false by (rewrite land_bit, Hbit; done).
      destruct (ok_task _ _ Hok i None Hj) as (t & Ht & _).
      apply wp_bind. eapply wp_set_task; [done|].
      apply wp_bind, wp_set_bitmap, wp_bind, wp_get. cbn [bitmap tasks tear_down pool_mutex signals].
      apply wp_bind, wp_lift, yields_check.
      { apply bool_decide_true, land_bit. rewrite set_bit. by rewrite bool_decide_true. }
      apply wp_unlock_pool. cbn [bitmap tasks tear_down pool_mutex signals].
      do 2 (split; [done|]). rewrite Nat.add_0_r. split; [|done].
      eapply pool_ok_update; [done|by eapply lookup_lt_Some| |done|done].
      intros k. cbn [bitmap]. rewrite set_bit.
      case_decide; [by rewrite !bool_decide_true by eauto|by rewrite bool_decide_false].
Qed.

Lemma thread_add_task_refines js r a p :
  pool_ok js p → pool_mutex p = false →
  wp (thread_add_task r a) (λ _ p', signals p' = S (signals p) ∧ tear_down p' = tear_down p ∧
    match first_free js with
    | Some i => pool_ok (<[i := Some (r, a)]> js) p' ∧ pool_mutex p' = false
    | None => pool_ok js p' ∧ pool_mutex p' = true
    end) p.
Proof.
  intros Hok Hm. unfold thread_add_task. apply wp_bind, wp_lock_pool; [done|].
  apply wp_bind. eapply wp_mono.
  { eapply (add_loop_refines js); [by eapply pool_ok_same; [| |exact Hok]|done]. }
  intros [] p' (Hs & Htd & Hp'). unfold signal. apply wp_bind, wp_get, wp_put.
  split; [cbn; by rewrite Hs|]. split; [done|].
  rewrite drop_0 in Hp'. destruct (first_free js) as [i|].
  - destruct Hp' as [Hp' Hm']. split; [|done]. by eapply pool_ok_same; [| |exact Hp'].
  - subst p'. split; [|done]. by eapply pool_ok_same; [| |exact Hok].
Qed.

Lemma worker_finishes_refines js id p :
  pool_ok js p → pool_mutex p = false → (id < WORKER_ENABLE)%nat →
  wp (worker_finishes id) (λ _ p', pool_ok (<[id := None]> js) p' ∧ pool_mutex p' = false ∧
    tear_down p' = tear_down p) p.
Proof.
  intros Hok Hm Hid. rewrite <-(ok_slots _ _ Hok) in Hid.
  destruct (lookup_lt_is_Some_2 js id Hid) as [j Hj].
  destruct (ok_task _ _ Hok id j Hj) as (t & Ht & _).
  unfold worker_finishes. apply wp_bind, wp_lock_pool; [done|]. apply wp_bind, wp_get, wp_bind.
  apply wp_set_bitmap, wp_bind. eapply wp_set_task; [done|]. apply wp_unlock_pool. split; [|done].
  eapply pool_ok_update; [done|done| |done|done].
  intros k. cbn [bitmap]. rewrite clear_bit.
  case_decide; [by rewrite !bool_decide_false by (auto; by intros [])|by rewrite bool_decide_true].
Qed.

Lemma worker_wakes_refines js id j p :
  pool_ok js p → tear_down p = 0 → js !! id = Some j →
  wp (worker_wakes id) (λ x p', p' = p ∧
    x = match j with Some (r, a) => Runs r a | None => NotMine end) p.
Proof.
  intros Hok Htd Hj. destruct (ok_task _ _ Hok id j Hj) as (t & Ht & Hjt). unfold worker_wakes.
  apply wp_bind, wp_get. rewrite Htd, bool_decide_false by auto.
  apply wp_bind, wp_lift. rewrite (rd_nat _ _ t) by done. apply yields_ret, wp_ret. split; [done|].
  destruct j as [[r a]|]; [by destruct Hjt as [-> ->]|by rewrite Hjt].
Qed.

Lemma thread_pool_init_ok tids :
  pool_ok (replicate WORKER_ENABLE None) (thread_pool_init tids).
Proof.
  constructor; [done|by cbn [tasks thread_pool_init]; rewrite length_imap, length_replicate| |].
  - intros i. cbn [bitmap thread_pool_init]. rewrite Z.bits_0. symmetry. apply bool_decide_false.
    destruct (replicate WORKER_ENABLE None !! i) as [j|] eqn:E; cbn; [|by intros []].
    apply lookup_replicate in E as [-> _]. by intros [].
  - intros i j [-> Hi]%lookup_replicate. cbn [tasks thread_pool_init]. rewrite list_lookup_imap.
    rewrite lookup_replicate_2 by (unfold WORKER_ENABLE, MAX_WORKER in *; lia). cbn.
    eexists. split; [done|]. by destruct (tids !! i).
Qed.

(** ** Sessions *)

(** What happens to the pool: a task is added, a worker is woken, a worker has
    run its task. *)
Inductive pool_op := Add (r : nat) (a : Z) | Wake (id : nat) | Finish (id : nat).

Definition run_op (o : pool_op) : M thread_pool (option wake) :=
  match o with
  | Add r a => thread_add_task r a;; mret None
  | Wake id => x ← worker_wakes id; mret (Some x)
  | Finish id => worker_finishes id;; mret None
  end.

Fixpoint run_ops (os : list pool_op) : M thread_pool (list (option wake)) :=
  match os with
  | [] => mret []
  | o :: os' => x ← run_op o; xs ← run_ops os'; mret (x :: xs)
  end.

(** The same on the abstract pool; [locked] says that the mutex was left held. *)
Fixpoint spec_ops (locked : bool) (js : slots) (os : list pool_op) : outcome (list (option wake)) :=
  match os with
  | [] => Ok []
  | Add r a :: os' =>
      if locked then Fail Blocked
      else match first_free js with
           | Some i => xs ← spec_ops false (<[i := Some (r, a)]> js) os'; Ok (None :: xs)
           | None => xs ← spec_ops true js os'; Ok (None :: xs)
           end
  | Wake id :: os' =>
      xs ← spec_ops locked js os';
      Ok (Some (match mjoin (js !! id) with Some (r, a) => Runs r a | None => NotMine end) :: xs)
  | Finish id :: os' =>
      if locked then Fail Blocked
      else xs ← spec_ops false (<[id := None]> js) os'; Ok (None :: xs)
  end.

Definition op_ok (o : pool_op) : Prop :=
  match o with Add _ _ => True | Wake id | Finish id => (id < WORKER_ENABLE)%nat end.

(** An operation that refines the step to [js'] goes on as the abstract pool
    does; one that blocks stops the session. *)
Lemma run_ops_step os p (m : M thread_pool (option wake)) locked' js' x :
  (∀ p', pool_ok js' p' → pool_mutex p' = locked' → tear_down p' = 0 →
    match run_ops os p' with
    | Ok (xs, _) => spec_ops locked' js' os = Ok xs
    | Fail f => spec_ops locked' js' os = Fail f
    end) →
  wp m (λ y p', y = x ∧ pool_ok js' p' ∧ pool_mutex p' = locked' ∧ tear_down p' = 0) p →
  match (x ← m; xs ← run_ops os; mret (x :: xs)) p with
  | Ok (xs, _) => (xs ← spec_ops locked' js' os; Ok (x :: xs)) = Ok xs
  | Fail f => (xs ← spec_ops locked' js' os; Ok (x :: xs)) = Fail f
  end.
Proof.
  intros IH Hwp. unfold wp in Hwp. unfold mbind at 1, M_bind at 1.
  destruct (m p) as [[y p']|]; [|done]. destruct Hwp as (Hy & Hok' & Hm' & Htd'). cbn in *. subst y.
  specialize (IH p' Hok' Hm' Htd'). unfold mbind at 1, M_bind at 1.
  destruct (run_ops os p') as [[xs p'']|f]; by rewrite IH.
Qed.

Lemma run_ops_blocked os p (m : M thread_pool (option wake)) f :
  m p = Fail f → (x ← m; xs ← run_ops os; mret (x :: xs)) p = Fail f.
Proof. intros Hm. unfold mbind at 1, M_bind at 1. by rewrite Hm. Qed.

Lemma run_op_blocked o p :
  match o with Wake _ => False | _ => True end → pool_mutex p = true → run_op o p = Fail Blocked.
Proof.
  intros Ho Hm. pose proof (lock_pool_held p Hm) as Hl.
  destruct o as [r a| |id]; [|done|]; cbn [run_op]; unfold thread_add_task, worker_finishes.
  - unfold mbind at 1, M_bind at 1. unfold mbind at 1, M_bind at 1. by rewrite Hl.
  - unfold mbind at 1, M_bind at 1. unfold mbind at 1, M_bind at 1. by rewrite Hl.
Qed.

Lemma run_ops_spec locked js os p :
  pool_ok js p → pool_mutex p = locked → tear_down p = 0 → Forall op_ok os →
  match run_ops os p with
  | Ok (xs, _) => spec_ops locked js os = Ok xs
  | Fail f => spec_ops locked js os = Fail f
  end.
Proof.
  revert locked js p. induction os as [|o os IH]; intros locked js p Hok Hm Htd Hos; [done|].
  apply Forall_cons_1 in Hos as [Ho Hos]. cbn [run_ops].
  destruct o as [r a|id|id]; cbn [spec_ops].
  - destruct locked; [by rewrite (run_ops_blocked _ _ _ Blocked) by by apply run_op_blocked|].
    pose proof (thread_add_task_refines js r a p Hok Hm) as Hadd.
    destruct (first_free js) as [i|] eqn:Ei; (apply (run_ops_step os p (run_op (Add r a))); [by intros; apply IH|]);
      cbn [run_op]; apply wp_bind; (eapply wp_mono; [exact Hadd|]); intros [] p' (_ & Htd' & ? & ?);
      apply wp_ret; split_and!; try done; congruence.
  - destruct (lookup_lt_is_Some_2 js id) as [j Hj]; [by rewrite (ok_slots _ _ Hok)|].
    rewrite Hj. apply (run_ops_step os p (run_op (Wake id))); [by intros; apply IH|]. cbn [run_op]. apply wp_bind.
    eapply wp_mono; [by apply (worker_wakes_refines js id j)|]. intros x p' [-> ->].
    apply wp_ret. by destruct j as [[]|].
  - destruct locked; [by rewrite (run_ops_blocked _ _ _ Blocked) by by apply run_op_blocked|].
    apply (run_ops_step os p (run_op (Finish id))); [by intros; apply IH|]. cbn [run_op]. apply wp_bind.
    eapply wp_mono; [by apply (worker_finishes_refines js)|]. intros [] p' (? & ? & Htd').
    apply wp_ret. split_and!; try done; congruence.
Qed.

(** C17: Whatever tasks are added, woken for and finished, from [thread_pool_init] on:
    the pool gives each new task to the first free worker, a worker that is
    woken finds exactly its own task, and finishing frees it. A task that is
    added when both workers are busy is dropped and the mutex of the pool is
    left locked: from then on every worker that finishes, and every task that
    is added, waits for ever. *)
Theorem thread_pool_session tids os :
  Forall op_ok os →
  match run_ops os (thread_pool_init tids) with
  | Ok (xs, _) => spec_ops false (replicate WORKER_ENABLE None) os = Ok xs
  | Fail f => spec_ops false (replicate WORKER_ENABLE None) os = Fail f
  end.
Proof. intros Hos. apply run_ops_spec; [apply thread_pool_init_ok|done..]. Qed.

Lemma thread_pool_session_witness :
  match run_ops [Add 1 5; Add 2 6; Wake 1; Finish 0; Add 3 7; Wake 0; Add 4 8; Wake 1; Finish 1]
          (thread_pool_init [100; 101]) with
  | Ok (xs, _) => False
  | Fail f => spec_ops false [None; None]
      [Add 1 5; Add 2 6; Wake 1; Finish 0; Add 3 7; Wake 0; Add 4 8; Wake 1; Finish 1] = Fail f
  end.
Proof.
  apply (thread_pool_session [100; 101]
    [Add 1 5; Add 2 6; Wake 1; Finish 0; Add 3 7; Wake 0; Add 4 8; Wake 1; Finish 1]).
  repeat constructor.
Defined.

(** The same session without the ninth operation, which blocks. *)
Example pool_trial :
  match run_ops [Add 1 5; Add 2 6; Wake 1; Finish 0; Add 3 7; Wake 0; Add 4 8; Wake 1]
          (thread_pool_init [100; 101]) with
  | Ok (xs, p) => xs = [None; None; Some (Runs 2 6); None; None; Some (Runs 3 7); None;
      Some (Runs 2 6)] ∧ pool_mutex p = true
  | Fail _ => False
  end.
Proof. vm_compute. done. Qed.
