(* ===== verification/PoolThreads.v ===== *)
(** The program of [src/snippets/test_worker.c]: its main thread and its
    workers, which wait on a condition variable, as threads on the pool of
    [ThreadPool], run under every schedule. *)

From S2P Require Import Prelude CInt ThreadPool Proc Locks.
Local Open Scope nat_scope.

(** ** State *)

(** What the threads share: the pool; the holder of [pool_mutex], and how many
    times more it has locked it (the flag in [ThreadPool], which does not say who
    holds the mutex, is not used here); the holder of [mutex]; the threads that
    wait on [cond]; the counter of workers; [g_flag]; the threads that have exited,
    by their [pthread_t]; and, for each call of a routine by a worker, the worker's
    [id], the routine and the argument. *)
Record pool_sys := PoolSys {
  tp : thread_pool;
  holder : option (nat * nat);
  mutex : option nat;
  waiting : gset nat;
  nthread : nat;
  g_flag : Z;
  exited : gset Z;
  calls : list (nat * nat * Z);
}.

(** What the platform makes of calls that the standard leaves undefined:
    [pthread_cond_wait] and [pthread_mutex_unlock] by a thread that does not hold
    the mutex, given who does, with who holds it then; [pthread_mutex_lock] by the
    thread that holds the mutex, with how many times more it holds it then; and the
    destruction of a mutex that is held and of a condition variable on which
    threads wait. [arg_first]: the order, which the language leaves open, in which
    [thread_pool_wrapper] reads the routine that it calls and its argument. *)
Record platform := Platform {
  wait_unowned : option nat → outcome (option nat);
  unlock_unowned : option nat → outcome (option nat);
  lock_again : nat → outcome nat;
  destroy_held : outcome unit;
  destroy_waited : outcome unit;
  arg_first : bool;
}.

Section program.
(** The platform, and which of the threads that wait a signal wakes. *)
Context (pl : platform) (pick : gset nat → gset nat).
(** The [pthread_t] of each worker. *)
Context (tids : list Z).

(** ** Actions *)

Definition in_pool {A} (m : M thread_pool A) : M pool_sys A := λ s,
  match m (tp s) with
  | Ok (a, p) => Ok (a, PoolSys p (holder s) (mutex s) (waiting s) (nthread s) (g_flag s) (exited s) (calls s))
  | Fail f => Fail f
  end.

Definition set_mutex (m : option nat) : M pool_sys unit := λ s,
  Ok (tt, PoolSys (tp s) (holder s) m (waiting s) (nthread s) (g_flag s) (exited s) (calls s)).
Definition set_waiting (ws : gset nat) : M pool_sys unit := λ s,
  Ok (tt, PoolSys (tp s) (holder s) (mutex s) ws (nthread s) (g_flag s) (exited s) (calls s)).
Definition set_flag (v : Z) : M pool_sys unit := λ s,
  Ok (tt, PoolSys (tp s) (holder s) (mutex s) (waiting s) (nthread s) v (exited s) (calls s)).

Definition set_holder (h : option (nat * nat)) : M pool_sys unit := λ s,
  Ok (tt, PoolSys (tp s) h (mutex s) (waiting s) (nthread s) (g_flag s) (exited s) (calls s)).

(** [pthread_mutex_lock(&pool_mutex)] and [pthread_mutex_unlock(&pool_mutex)] by
    thread [i]; nobody unlocks [pool_mutex] without holding it. *)
Definition lock_pool_mutex (i : nat) : M pool_sys unit :=
  s ← get;
  match holder s with
  | None => set_holder (Some (i, 0))
  | Some (j, d) =>
      if bool_decide (j = i) then d' ← lift (lock_again pl d); set_holder (Some (i, d')) else fail Blocked
  end.

Definition unlock_pool_mutex (i : nat) : M pool_sys unit :=
  s ← get;
  match holder s with
  | Some (j, d) =>
      if bool_decide (j = i) then set_holder (match d with O => None | S d' => Some (i, d') end)
      else fail NotOwner
  | None => fail NotOwner
  end.

(** [pthread_mutex_unlock(&mutex)] by thread [i]. *)
Definition unlock_mutex (i : nat) : M pool_sys unit :=
  s ← get;
  m ← lift (if bool_decide (mutex s = Some i) then Ok None else unlock_unowned pl (mutex s));
  set_mutex m.

(** [pthread_cond_wait(&cond, &mutex)] by thread [i]: it gives the mutex back
    and waits, in one step; when it has been woken it takes the mutex again. *)
Definition cond_wait (i : nat) : M pool_sys unit :=
  s ← get;
  m ← lift (if bool_decide (mutex s = Some i) then Ok None else wait_unowned pl (mutex s));
  set_mutex m;; set_waiting ({[i]} ∪ waiting s).

Definition cond_woken (i : nat) : M pool_sys unit :=
  s ← get;
  if bool_decide (i ∈ waiting s) then fail Blocked
  else match mutex s with None => set_mutex (Some i) | Some _ => fail Blocked end.

(** [pthread_cond_signal(&cond)], [pthread_cond_broadcast(&cond)]. *)
Definition cond_signal : M pool_sys unit := s ← get; set_waiting (waiting s ∖ pick (waiting s)).
Definition cond_broadcast : M pool_sys unit := set_waiting ∅.

(** A wait may end without a signal. *)
Definition spurious (i : nat) : M pool_sys unit := s ← get; set_waiting (waiting s ∖ {[i]}).

(** [simple]: it runs until [g_flag] is set. It is the only routine of the
    program. *)
Definition simple : nat := 0.

(** The call of [pool->tasks[id].routine] with [pool->tasks[id].arg], once both
    have been read. *)
Definition call_routine (id r : nat) (a : Z) : M pool_sys unit :=
  lift (check (bool_decide (r = simple)) NullPointer);;
  s ← get;
  if bool_decide (g_flag s = 0%Z) then fail Blocked
  else put (PoolSys (tp s) (holder s) (mutex s) (waiting s) (nthread s) (g_flag s) (exited s)
              (calls s ++ [(id, r, a)])).

(** [__sync_fetch_and_add(&nthread, 1)]. *)
Definition fetch_id : M pool_sys nat :=
  s ← get;
  put (PoolSys (tp s) (holder s) (mutex s) (waiting s) (S (nthread s)) (g_flag s) (exited s) (calls s));;
  mret (nthread s).

(** The accesses to the pool, one by one. *)
Definition get_task (i : nat) : M thread_pool worker_task :=
  p ← get; lift (rd (tasks p) (Z.of_nat i)).
Definition get_routine (i : nat) : M thread_pool (option nat) := t ← get_task i; mret (routine t).
Definition get_arg (i : nat) : M thread_pool Z := t ← get_task i; mret (arg t).
Definition put_task (i : nat) (t : worker_task) : M thread_pool unit :=
  p ← get;
  ts ← lift (wr (tasks p) (Z.of_nat i) t);
  put (ThreadPool (bitmap p) ts (tear_down p) (pool_mutex p) (signals p)).

Definition set_routine (i : nat) (r : option nat) : M thread_pool unit :=
  t ← get_task i; put_task i (WorkerTask r (arg t) (tid t)).
Definition set_arg (i : nat) (a : Z) : M thread_pool unit :=
  t ← get_task i; put_task i (WorkerTask (routine t) a (tid t)).

(** [pool->bitmap & (1 << i)], [pool->bitmap |= (1 << i)] and
    [pool->bitmap &= ~(1 << i)]. *)
Definition test_bit (i : nat) : M thread_pool bool :=
  p ← get; mret (bool_decide (Z.land (bitmap p) (Z.shiftl 1 (Z.of_nat i)) ≠ 0%Z)).
Definition or_bit (i : nat) : M thread_pool unit :=
  p ← get; set_bitmap (Z.lor (bitmap p) (Z.shiftl 1 (Z.of_nat i))).
Definition and_bit (i : nat) : M thread_pool unit :=
  p ← get; set_bitmap (Z.land (bitmap p) (Z.lnot (Z.shiftl 1 (Z.of_nat i)))).

Definition get_tear_down : M thread_pool Z := p ← get; mret (tear_down p).
Definition set_tear_down : M thread_pool unit := thread_pool_destroy.

(** [pthread_join(pool->tasks[i].tid, NULL)]. *)
Definition pool_join (i : nat) : M pool_sys unit :=
  t ← in_pool (get_task i);
  s ← get;
  if bool_decide (tid t ∈ exited s) then mret tt else fail Blocked.

(** [pthread_exit(0)] in the worker that is the [j]th to be created. *)
Definition thread_exit (j : nat) : M pool_sys unit :=
  s ← get;
  put (PoolSys (tp s) (holder s) (mutex s) (waiting s) (nthread s) (g_flag s) ({[default 0%Z (tids !! j)]} ∪ exited s) (calls s)).

(** [pthread_mutex_destroy] of a mutex that is held or not, and
    [pthread_cond_destroy(&cond)]. *)
Definition destroy_mutex (held : pool_sys → bool) : M pool_sys unit :=
  s ← get; lift (if held s then destroy_held pl else Ok tt).
Definition destroy_cond : M pool_sys unit :=
  s ← get; lift (if bool_decide (waiting s = ∅) then Ok tt else destroy_waited pl).

(** ** Programs *)

(** [thread_add_task] in thread [me], from worker [i] on with [n] left to look at. *)
Fixpoint add_program (me n i : nat) (callback : nat) (a : Z) : proc pool_sys unit :=
  match n with
  | O => mret tt
  | S n' =>
      busy ← atomic (in_pool (test_bit i));
      if (busy : bool) then add_program me n' (S i) callback a
      else
        atomic (in_pool (set_routine i (Some callback)));;
        atomic (in_pool (set_arg i a));;
        atomic (in_pool (or_bit i));;
        loaded ← atomic (in_pool (test_bit i));
        atomic (lift (check loaded AssertionFailed));;
        atomic (unlock_pool_mutex me)
  end.

Definition add_task_program (me : nat) (callback : nat) (a : Z) : proc pool_sys unit :=
  atomic (lock_pool_mutex me);;
  add_program me WORKER_ENABLE 0 callback a;;
  atomic cond_signal.

(** The routine that is called and its argument. *)
Definition read_task (id : nat) : proc pool_sys (option nat * Z) :=
  if arg_first pl then
    a ← atomic (in_pool (get_arg id)); r ← atomic (in_pool (get_routine id)); mret (r, a)
  else
    r ← atomic (in_pool (get_routine id)); a ← atomic (in_pool (get_arg id)); mret (r, a).

(** What a worker does with a task that it has seen. *)
Definition task_program (i id : nat) : proc pool_sys unit :=
  t ← read_task id;
  r ← atomic (lift (match t.1 with Some r => Ok r | None => Fail NullPointer end));
  atomic (call_routine id r t.2);;
  atomic (lock_pool_mutex i);;
  atomic (in_pool (and_bit id));;
  atomic (in_pool (set_routine id None));;
  atomic (in_pool (set_arg id 0));;
  atomic (unlock_pool_mutex i).

(** The loop of [thread_pool_wrapper]. *)
Fixpoint wrapper_loop (fuel i j id : nat) : proc pool_sys unit :=
  match fuel with
  | O => stop OutOfFuel
  | S fuel' =>
      atomic (cond_wait i);;
      atomic (cond_woken i);;
      down ← atomic (in_pool get_tear_down);
      if bool_decide (down ≠ 0%Z) then
        atomic (unlock_mutex i);; atomic (thread_exit j)
      else
        r ← atomic (in_pool (get_routine id));
        match r with
        | Some _ => task_program i id;; wrapper_loop fuel' i j id
        | None => wrapper_loop fuel' i j id
        end
  end.

(** [thread_pool_wrapper] in the worker that is the [j]th to be created. *)
Definition wrapper_program (fuel i j : nat) : proc pool_sys unit :=
  id ← atomic fetch_id; wrapper_loop fuel i j id.

Fixpoint joins (n i : nat) : proc pool_sys unit :=
  match n with O => mret tt | S n' => atomic (pool_join i);; joins n' (S i) end.

(** [thread_pool_destroy]; nothing locks [io_mutex], the first to be destroyed. *)
Definition destroy_program : proc pool_sys unit :=
  atomic (in_pool set_tear_down);;
  atomic cond_broadcast;;
  joins WORKER_ENABLE 0;;
  atomic destroy_cond;;
  atomic (destroy_mutex (λ _, false));;
  atomic (destroy_mutex (λ s, bool_decide (is_Some (holder s))));;
  atomic (destroy_mutex (λ s, bool_decide (is_Some (mutex s)))).

Fixpoint add_all (me : nat) (args : list Z) : proc pool_sys unit :=
  match args with
  | [] => mret tt
  | a :: args' => add_task_program me simple a;; add_all me args'
  end.

(** [main], from the end of [thread_pool_init] on, with the arguments of the
    tasks that it adds. *)
Definition session_program (me : nat) (args : list Z) : proc pool_sys unit :=
  atomic (unlock_mutex me);;
  add_all me args;;
  atomic (set_flag 1%Z);;
  destroy_program.

Fixpoint wakes (js : list nat) : proc pool_sys unit :=
  match js with [] => mret tt | i :: js' => atomic (spurious i);; wakes js' end.

(** ** The threads *)

(** The main thread, the workers, and the waits that end without a signal. *)
Inductive pool_thread := MainThread (args : list Z) | Worker (j : nat) | Wakeups (js : list nat).

Definition pool_body (fuel i : nat) (c : pool_thread) : proc pool_sys unit :=
  match c with
  | MainThread args => session_program i args
  | Worker j => wrapper_program fuel i j
  | Wakeups js => wakes js
  end.

Definition pool_start (fuel : nat) (args : list Z) (js : list nat) : config pool_sys pool_thread unit :=
  Config (PoolSys (thread_pool_init tids) None (Some 0) ∅ 0 0%Z ∅ [])
    (imap (λ i c, Thread (Some (c, pool_body fuel i c)) [])
       (MainThread args :: (Worker <$> seq 0 WORKER_ENABLE) ++ [Wakeups js])) [].

(** [pool_run]: the threads under a schedule. *)
Definition pool_run (fuel : nat) (args : list Z) (js sched : list nat) :=
  run_waiting (pool_body fuel) sched (pool_start fuel args js).
End program.

(** [main] adds [simple] twice, with NULL. *)
Definition main_args : list Z := [0%Z; 0%Z].

(** ** The books *)

(** A slot of the pool: nothing to do; a task that has not been run; one that
    has, by a worker that has not cleared it; its routine cleared, but not its
    argument. *)
Inductive place := Free | Loaded | Done | Cleared.

#[export] Instance place_eq_dec : EqDecision place.
Proof. solve_decision. Defined.

Definition is_loaded (st : place) : nat := if decide (st = Loaded) then 1 else 0.

(** Where the main thread is: with [mutex], which [thread_pool_init] has locked;
    without [pool_mutex]; with it, between two slots;
    at a slot that it has found free, that has its routine, whose bit is set. *)
Inductive main_at := Init | Out | Held | Found (k : nat) | Given (k : nat) | Marked (k : nat).

(** Where a worker is: without a task; it has seen one; has run it; holds
    [pool_mutex]; has cleared the bit, the routine, the argument. *)
Inductive work_at := Idle | Saw | Ran | Locked | Unset | Nulled | Freed.

(** The account of a thread: the main thread has [todo] tasks still to load; a
    worker without and with its number; another thread. *)
Inductive acct := Main (todo : nat) (m : main_at) | New | Work (id : nat) (p : work_at) | Other.

Definition a_todo (t : acct) : nat := match t with Main n _ => n | _ => 0 end.
Inductive kind := KMain | KNew | KWork | KOther.
Definition a_kind (t : acct) : kind :=
  match t with Main _ _ => KMain | New => KNew | Work _ _ => KWork | Other => KOther end.
Definition a_new (t : acct) : nat := match a_kind t with KNew => 1 | _ => 0 end.
Definition a_init (t : acct) : bool := match t with Main _ Init => true | _ => false end.
Definition init_of (ts : list acct) : option nat :=
  match ts !! 0 with Some t => if a_init t then Some 0 else None | None => None end.
Definition a_id (t : acct) : option nat := match t with Work k _ => Some k | _ => None end.

(** It holds [pool_mutex]; and it is about a slot whose bit need not say what
    is in it. *)
Definition a_holds (t : acct) : bool :=
  match t with
  | Main _ (Init | Out) | Work _ (Idle | Saw | Ran) | New | Other => false
  | _ => true
  end.
Definition a_at (t : acct) : option nat :=
  match t with Main _ (Given k) | Work k (Unset | Nulled) => Some k | _ => None end.

Definition phase_ok (p : work_at) (st : place) : Prop :=
  match p with
  | Idle => st = Free ∨ st = Loaded
  | Saw => st = Loaded
  | Ran | Locked | Unset => st = Done
  | Nulled => st = Cleared
  | Freed => st = Free
  end.

Definition acct_ok (b : Z) (w : list place) (t : acct) : Prop :=
  match t with
  | Main _ (Found k) => w !! k = Some Free
  | Main _ (Given k) => w !! k = Some Loaded ∨ w !! k = Some Done
  | Main _ (Marked k) => Z.testbit b (Z.of_nat k) = true
  | Work k p => ∃ st, w !! k = Some st ∧ phase_ok p st
  | _ => True
  end.

Section invariant.
Context (pl : platform) (args : list Z).

(** The argument of a task, or NULL. *)
Definition arg_ok (a : Z) : Prop := a = 0%Z ∨ a ∈ args.

Definition slot_ok (st : place) (t : worker_task) : Prop :=
  match st with
  | Free => routine t = None ∧ arg t = 0%Z
  | Loaded | Done => routine t = Some simple ∧ arg_ok (arg t)
  | Cleared => routine t = None
  end.

Definition call_ok (c : nat * nat * Z) : Prop := c.1.2 = simple ∧ arg_ok c.2.

(** A wait without the mutex is as undefined as in the standard. *)
Definition strict : Prop := ∀ m, wait_unowned pl m = Fail NotOwner.

Record pool_inv (h : list (event pool_thread unit)) (s : pool_sys) (w : list place) (ts : list acct) : Prop := {
  pi_tasks : length (tasks (tp s)) = MAX_WORKER;
  pi_slots : length w = MAX_WORKER;
  pi_slot k st : w !! k = Some st → ∃ t, tasks (tp s) !! k = Some t ∧ slot_ok st t;
  pi_bit k st : w !! k = Some st → Z.testbit (bitmap (tp s)) (Z.of_nat k) = false →
    st = Free ∨ ∃ i t, ts !! i = Some t ∧ a_at t = Some k;
  pi_owner : owner a_holds (fst <$> holder s) ts;
  pi_depth i d t : holder s = Some (i, d) → ts !! i = Some t → a_kind t ≠ KMain → d = 0;
  pi_ids i j t u k : ts !! i = Some t → ts !! j = Some u → a_id t = Some k → a_id u = Some k → i = j;
  pi_main : ∃ t, ts !! 0 = Some t ∧ a_kind t = KMain;
  pi_id i t k : ts !! i = Some t → a_id t = Some k → k < nthread s;
  pi_new : nthread s + sum_list_with a_new ts ≤ MAX_WORKER;
  pi_acct i t : ts !! i = Some t → acct_ok (bitmap (tp s)) w t;
  pi_fresh k st : w !! k = Some st → nthread s ≤ k → st = Free ∨ st = Loaded;
  pi_budget : length (calls s) + sum_list_with is_loaded w + sum_list_with a_todo ts ≤ length args;
  pi_calls : Forall call_ok (calls s);
  pi_strict : strict → calls s = [] ∧ exited s = ∅ ∧ mutex s = init_of ts;
}.

Implicit Types (s : pool_sys) (w : list place) (ts : list acct) (t : acct).

(** Only one thread holds [pool_mutex]. *)
Lemma pi_excl h s w ts :
  pool_inv h s w ts → ∀ i j t u,
  ts !! i = Some t → ts !! j = Some u → a_holds t = true → a_holds u = true → i = j.
Proof.
  intros HI i j t u Ht Hu Hi Hj. pose proof (pi_owner _ _ _ _ HI) as Ho.
  assert (fst <$> holder s = Some i) as Hhi by (apply Ho; eauto).
  assert (fst <$> holder s = Some j) as Hhj by (apply Ho; eauto). congruence.
Qed.

(** Only the holder is about a slot. *)
Lemma holds_init t : a_holds t = true → a_init t = false.
Proof. by destruct t as [? []| |? []|]. Qed.

Lemma at_holds t k : a_at t = Some k → a_holds t = true.
Proof. by destruct t as [? []| |? []|]. Qed.

Lemma init_update ts i t t' :
  ts !! i = Some t → a_init t' = a_init t → init_of (<[i := t']> ts) = init_of ts.
Proof.
  intros Ht Hi. unfold init_of. destruct (decide (i = 0)) as [->|Hne].
  - rewrite list_lookup_insert_eq by (by eapply lookup_lt_Some). by rewrite Ht, Hi.
  - by rewrite list_lookup_insert_ne.
Qed.

Lemma main_stays ts i t t' :
  ts !! i = Some t → a_kind t' = a_kind t → (∃ u, ts !! 0 = Some u ∧ a_kind u = KMain) →
  ∃ u, <[i := t']> ts !! 0 = Some u ∧ a_kind u = KMain.
Proof.
  intros Ht Hk (u & Hu & Hm). destruct (decide (i = 0)) as [->|Hi].
  - exists t'. rewrite list_lookup_insert_eq by (by eapply lookup_lt_Some). split; [done|congruence].
  - exists u. by rewrite list_lookup_insert_ne.
Qed.

(** A step of thread [i] that leaves the slots alone, and [pool_mutex] unless
    it is taken or given back. *)
Lemma inv_quiet h s s' w ts i t t' :
  pool_inv h s w ts → ts !! i = Some t →
  bitmap (tp s') = bitmap (tp s) → tasks (tp s') = tasks (tp s) →
  nthread s' = nthread s → calls s' = calls s →
  (strict → exited s' = exited s ∧ (mutex s' = mutex s ∧ a_init t' = a_init t ∨
    i = 0 ∧ mutex s' = None ∧ a_init t' = false)) →
  owner a_holds (fst <$> holder s') (<[i := t']> ts) →
  (∀ j d, holder s' = Some (j, d) → holder s = Some (j, d) ∨ j = i ∧ (d = 0 ∨ a_kind t = KMain)) →
  a_at t = None → a_at t' = None → a_id t' = a_id t → a_kind t' = a_kind t → a_todo t' = a_todo t →
  acct_ok (bitmap (tp s)) w t' → pool_inv h s' w (<[i := t']> ts).
Proof.
  intros HI Ht Hb Hts Hn Hc Hst Hm Hd Hat Hat' Hid Hnew Htodo Hok.
  constructor; rewrite ?Hb, ?Hts, ?Hn, ?Hc; try apply HI; try done.
  - intros k st Hk Hbit. destruct (pi_bit _ _ _ _ HI k st Hk Hbit) as [?|(j & u & Hu & Ha)]; [by left|right].
    exists j, u. split; [|done]. rewrite list_lookup_insert_ne; [done|]. intros <-. congruence.
  - intros j d u Hj Hu Hkind. destruct (update_lookup _ _ _ _ _ _ Ht Hu) as [[-> ->]|[Hji Hu']].
    + rewrite Hnew in Hkind. destruct (Hd i d Hj) as [?|(_ & [->|?])]; [|done..].
      by apply (pi_depth _ _ _ _ HI i d t).
    + destruct (Hd j d Hj) as [?|[? _]]; [by apply (pi_depth _ _ _ _ HI j d u)|done].
  - intros j1 j2 u1 u2 k H1 H2 Hh1 Hh2.
    destruct (update_lookup _ _ _ _ _ _ Ht H1) as [[-> ->]|[Hj1 H1']];
      destruct (update_lookup _ _ _ _ _ _ Ht H2) as [[-> ->]|[Hj2 H2']]; try done; rewrite ?Hid in *;
      by eapply (pi_ids _ _ _ _ HI).
  - apply (main_stays ts i t t' Ht); [done|apply HI].
  - intros j u k Hu. destruct (update_lookup _ _ _ _ _ _ Ht Hu) as [[-> ->]|[Hj Hu']];
      rewrite ?Hid; by eapply (pi_id _ _ _ _ HI).
  - pose proof (update_sum a_new i ts t t' Ht) as Hsum. unfold a_new in Hsum at 2 4. rewrite Hnew in Hsum.
    pose proof (pi_new _ _ _ _ HI). lia.
  - intros j u Hu. destruct (update_lookup _ _ _ _ _ _ Ht Hu) as [[-> ->]|[Hj Hu']]; [done|].
    by apply (pi_acct _ _ _ _ HI j).
  - pose proof (update_sum a_todo i ts t t' Ht). pose proof (pi_budget _ _ _ _ HI). lia.
  - intros Hs. destruct (pi_strict _ _ _ _ HI Hs) as (? & ? & ?). destruct (Hst Hs) as (-> & Hx).
    split_and!; [done..|]. destruct Hx as [[-> Hi]|(-> & -> & Hi)]; [by rewrite (init_update _ _ t)|].
    unfold init_of. rewrite list_lookup_insert_eq by (by eapply lookup_lt_Some). by rewrite Hi.
Qed.

(** A step of thread [i] that changes slot [k]. *)
Lemma inv_slot h s s' w ts i t t' k st st' tk' :
  pool_inv h s w ts → ts !! i = Some t → w !! k = Some st →
  tasks (tp s') = <[k := tk']> (tasks (tp s)) → slot_ok st' tk' →
  (∀ j, j ≠ k → Z.testbit (bitmap (tp s')) (Z.of_nat j) = Z.testbit (bitmap (tp s)) (Z.of_nat j)) →
  (Z.testbit (bitmap (tp s')) (Z.of_nat k) = false →
    st' = Free ∨ a_at t' = Some k ∨
    Z.testbit (bitmap (tp s)) (Z.of_nat k) = false ∧ st ≠ Free ∧ a_at t = None) →
  holder s' = holder s → nthread s' = nthread s →
  (strict → calls s' = [] ∧ exited s' = exited s ∧ mutex s' = mutex s) →
  Forall call_ok (calls s') →
  length (calls s') + is_loaded st' + a_todo t' ≤ length (calls s) + is_loaded st + a_todo t →
  a_holds t' = a_holds t → a_holds t = true ∨ a_kind t = KWork → (a_at t = None ∨ a_at t = Some k) → a_id t' = a_id t → a_kind t' = a_kind t →
  (st' = Free ∨ st' = Loaded ∨ k < nthread s) →
  acct_ok (bitmap (tp s')) (<[k := st']> w) t' →
  (∀ j u, j ≠ i → ts !! j = Some u → acct_ok (bitmap (tp s)) w u →
    acct_ok (bitmap (tp s')) (<[k := st']> w) u) →
  pool_inv h s' (<[k := st']> w) (<[i := t']> ts).
Proof.
  intros HI Ht Hk Htasks Hslot Hbits Hbit Hpm Hn Hst Hcalls Hbud Hh Hwho Hat Hid Hnew Hfresh Hok Hothers.
  pose proof (lookup_lt_Some _ _ _ Hk) as Hlt.
  assert (k < length (tasks (tp s))) as Hlt' by (rewrite (pi_tasks _ _ _ _ HI), <-(pi_slots _ _ _ _ HI); done).
  constructor; rewrite ?Htasks, ?Hn, ?length_insert; try apply HI; try done.
  - intros j st1 Hj. destruct (update_lookup _ _ _ _ _ _ Hk Hj) as [[-> ->]|[Hjk Hj']].
    + exists tk'. by rewrite list_lookup_insert_eq.
    + rewrite list_lookup_insert_ne by done. by apply (pi_slot _ _ _ _ HI).
  - intros j st1 Hj Hb. destruct (update_lookup _ _ _ _ _ _ Hk Hj) as [[-> ->]|[Hjk Hj']].
    + destruct (Hbit Hb) as [?|[Ha|(Hb' & Hfree & Ha)]]; [by left|right|right].
      * exists i, t'. rewrite list_lookup_insert_eq by (by eapply lookup_lt_Some). done.
      * destruct (pi_bit _ _ _ _ HI k st Hk Hb') as [?|(i' & u & Hu & Ha')]; [done|].
        exists i', u. rewrite list_lookup_insert_ne; [done|]. intros <-. congruence.
    + rewrite Hbits in Hb by done. destruct (pi_bit _ _ _ _ HI j st1 Hj' Hb) as [?|(i' & u & Hu & Ha')]; [by left|right].
      exists i', u. rewrite list_lookup_insert_ne; [done|]. intros <-.
      destruct Hat; congruence.
  - rewrite Hpm. eapply owner_keep; [apply HI|exact Ht|done].
  - rewrite Hpm. intros j d u Hj Hu Hkind. destruct (update_lookup _ _ _ _ _ _ Ht Hu) as [[-> ->]|[Hji Hu']].
    + rewrite Hnew in Hkind. by apply (pi_depth _ _ _ _ HI i d t).
    + by apply (pi_depth _ _ _ _ HI j d u).
  - intros j1 j2 u1 u2 k' H1 H2 Hh1 Hh2.
    destruct (update_lookup _ _ _ _ _ _ Ht H1) as [[-> ->]|[Hj1 H1']];
      destruct (update_lookup _ _ _ _ _ _ Ht H2) as [[-> ->]|[Hj2 H2']]; try done; rewrite ?Hid in *;
      by eapply (pi_ids _ _ _ _ HI).
  - apply (main_stays ts i t t' Ht); [done|apply HI].
  - intros j u k' Hu. destruct (update_lookup _ _ _ _ _ _ Ht Hu) as [[-> ->]|[Hj Hu']];
      rewrite ?Hid; by eapply (pi_id _ _ _ _ HI).
  - pose proof (update_sum a_new i ts t t' Ht) as Hsum. unfold a_new in Hsum at 2 4. rewrite Hnew in Hsum.
    pose proof (pi_new _ _ _ _ HI). lia.
  - intros j u Hu. destruct (update_lookup _ _ _ _ _ _ Ht Hu) as [[-> ->]|[Hj Hu']]; [done|].
    apply (Hothers j); [done..|]. by apply (pi_acct _ _ _ _ HI j).
  - intros j st1 Hj Hle. destruct (update_lookup _ _ _ _ _ _ Hk Hj) as [[-> ->]|[Hjk Hj']].
    + destruct Hfresh as [?|[?|?]]; [by left|by right|lia].
    + by apply (pi_fresh _ _ _ _ HI j).
  - pose proof (update_sum a_todo i ts t t' Ht). pose proof (update_sum is_loaded k w st st' Hk).
    pose proof (pi_budget _ _ _ _ HI). lia.
  - intros Hs. destruct (pi_strict _ _ _ _ HI Hs) as (? & ? & ?). destruct (Hst Hs) as (-> & -> & ->).
    split_and!; [done..|]. rewrite (init_update _ _ t); [done..|].
    destruct Hwho as [Hk1|Hk1]; [|by destruct t, t'].
    destruct t as [? []| |? []|], t' as [? []| |? []|]; done.
Qed.
End invariant.

(** ** The programs keep the books *)

(** The conditions on an action that leaves the pool alone. *)
Ltac outside := cbn [tp mutex exited nthread calls bitmap tasks pool_mutex]; split_and!; try done; auto.

(** The fault that the platform makes of an undefined call; the first two come
    before a worker's first wait is over. *)
Definition early_misuse (pl : platform) (f : fault) : Prop :=
  (∃ m, wait_unowned pl m = Fail f) ∨ (∃ d, lock_again pl d = Fail f).
Definition late_misuse (pl : platform) (f : fault) : Prop :=
  (∃ m, unlock_unowned pl m = Fail f) ∨ destroy_held pl = Fail f ∨ destroy_waited pl = Fail f.
Definition misuse (pl : platform) (f : fault) : Prop := early_misuse pl f ∨ late_misuse pl f.

Section safety.
Context (pl : platform) (pick : gset nat → gset nat) (tids args : list Z).

(** How a thread may stop: it waits, is still in its loop, or has made a call
    that is undefined, of which the platform made a fault. *)
Definition allowed (f : fault) : Prop :=
  f = Blocked ∨ f = OutOfFuel ∨ early_misuse pl f ∨ ¬ strict pl ∧ late_misuse pl f.

Definition anyhow (w w' : list place) : Prop := True.
#[local] Instance anyhow_preorder : PreOrder anyhow.
Proof. by split. Qed.

Abbreviation strict := (strict pl).
Abbreviation inv := (pool_inv pl args).
Abbreviation safely := (safe anyhow inv (λ _ _ _ _ f, allowed f)).
Context (i : nat).
Implicit Types (s : pool_sys) (w : list place) (ts : list acct) (t : acct).

Lemma allowed_Blocked : allowed Blocked.
Proof. by left. Qed.

(** An action that leaves the slots alone. *)
Lemma safe_quiet {A B} (m : M pool_sys A) (k : A → proc pool_sys B) w t Q :
  (∀ h s w ts, inv h s w ts → ts !! i = Some t →
    match m s with
    | Fail f => allowed f
    | Ok (a, s') => ∃ t',
        bitmap (tp s') = bitmap (tp s) ∧ tasks (tp s') = tasks (tp s) ∧
        nthread s' = nthread s ∧ calls s' = calls s ∧
        (strict → exited s' = exited s ∧ (mutex s' = mutex s ∧ a_init t' = a_init t ∨
          i = 0 ∧ mutex s' = None ∧ a_init t' = false)) ∧
        owner a_holds (fst <$> holder s') (<[i := t']> ts) ∧
        (∀ j d, holder s' = Some (j, d) → holder s = Some (j, d) ∨ j = i ∧ (d = 0 ∨ a_kind t = KMain)) ∧
        a_at t = None ∧ a_at t' = None ∧ a_id t' = a_id t ∧ a_kind t' = a_kind t ∧ a_todo t' = a_todo t ∧
        acct_ok (bitmap (tp s)) w t' ∧ ∀ w', safely i (k a) w' t' Q
    end) →
  safely i (atomic m ≫= k) w t Q.
Proof.
  intros Hm. apply safe_atomic. intros h s w1 ts _ HI Ht. specialize (Hm h s w1 ts HI Ht).
  destruct (m s) as [[a s']|f]; [|done].
  destruct Hm as (t' & ? & ? & ? & ? & ? & ? & ? & ? & ? & ? & ? & ? & ? & Hk).
  exists w1, t'. split; [done|]. split; [|apply Hk]. by eapply (inv_quiet _ _ h s).
Qed.

(** One that does not touch the pool, in a thread that is outside of it. *)
Lemma safe_outside {A B} (m : M pool_sys A) (k : A → proc pool_sys B) w t Q :
  a_at t = None →
  (∀ h s w ts, inv h s w ts → ts !! i = Some t →
    match m s with
    | Fail f => allowed f
    | Ok (a, s') =>
        bitmap (tp s') = bitmap (tp s) ∧ tasks (tp s') = tasks (tp s) ∧ holder s' = holder s ∧
        nthread s' = nthread s ∧ calls s' = calls s ∧
        (strict → exited s' = exited s ∧ mutex s' = mutex s) ∧
        ∀ w', safely i (k a) w' t Q
    end) →
  safely i (atomic m ≫= k) w t Q.
Proof.
  intros Hat Hm. apply safe_quiet. intros h s w1 ts HI Ht. specialize (Hm h s w1 ts HI Ht).
  destruct (m s) as [[a s']|f]; [|done]. destruct Hm as (? & ? & Hpm & ? & ? & ? & Hk).
  exists t. rewrite Hpm, (list_insert_id ts) by done.
  split_and!; try done; [naive_solver|apply HI|by auto|by apply (pi_acct _ _ _ _ _ _ HI i)].
Qed.

Lemma safe_lift {A B} (o : outcome A) (k : A → proc pool_sys B) w t Q :
  a_at t = None → o ⇓ (λ a, ∀ w', safely i (k a) w' t Q) → safely i (atomic (lift o) ≫= k) w t Q.
Proof.
  intros Hat Ho. apply safe_outside; [done|]. intros h s w1 ts _ _. unfold lift.
  destruct o as [a|]; [|done]. split_and!; try done; auto.
Qed.

Lemma safe_lock_pool {B} (k : unit → proc pool_sys B) w t t' Q :
  a_holds t' = true → a_init t = false → a_holds t = false ∨ a_kind t = KMain →
  a_at t = None → a_at t' = None → a_id t' = a_id t → a_kind t' = a_kind t → a_todo t' = a_todo t →
  (∀ b w, acct_ok b w t → acct_ok b w t') → (∀ w', safely i (k tt) w' t' Q) →
  safely i (atomic (lock_pool_mutex pl i) ≫= k) w t Q.
Proof.
  intros Hh Hinit Hmain Hat Hat' Hid Hnew Htodo Hok Hk. pose proof (holds_init _ Hh). apply safe_quiet. intros h s w1 ts HI Ht.
  pose proof (pi_owner _ _ _ _ _ _ HI) as Ho.
  assert (acct_ok (bitmap (tp s)) w1 t') as Hacc by (apply Hok; by apply (pi_acct _ _ _ _ _ _ HI i)).
  unfold lock_pool_mutex, mbind, M_bind, get, lift. destruct (holder s) as [[j d]|] eqn:Hhold.
  - case_bool_decide as Hj; [subst j|apply allowed_Blocked]. cbn in Ho.
    assert (a_holds t = true) as Ht1 by (destruct (proj1 (Ho i) eq_refl) as (u & Hu & ?); congruence).
    destruct Hmain as [?|Hmain]; [congruence|].
    destruct (lock_again pl d) as [d'|f] eqn:Hagain.
    + exists t'. cbn. split_and!; try done; auto.
      * intros _. split; [done|]. left. split; [done|congruence].
      * eapply owner_keep; [exact Ho|exact Ht|congruence].
      * intros ? ? [= <- <-]. auto.
    + right. right. left. right. by exists d.
  - exists t'. cbn. split_and!; try done; auto.
    + intros _. split; [done|]. left. split; [done|congruence].
    + by eapply owner_acquire.
    + intros ? ? [= <- <-]. auto.
Qed.

(** The mutex is given back, or, when the main thread has locked it more than
    once, it may still be held. *)
Lemma safe_unlock_pool {B} (k : unit → proc pool_sys B) w t Q :
  a_holds t = true → a_at t = None →
  (∀ kept, (kept = true → a_kind t = KMain) → ∃ t', a_holds t' = kept ∧ a_init t' = false ∧ a_at t' = None ∧ a_id t' = a_id t ∧
    a_kind t' = a_kind t ∧ a_todo t' = a_todo t ∧ (∀ b w, acct_ok b w t → acct_ok b w t') ∧
    ∀ w', safely i (k tt) w' t' Q) →
  safely i (atomic (unlock_pool_mutex i) ≫= k) w t Q.
Proof.
  intros Hh Hat Hk. apply safe_quiet. intros h s w1 ts HI Ht. pose proof (pi_owner _ _ _ _ _ _ HI) as Ho.
  assert (fst <$> holder s = Some i) as Hi by (apply Ho; eauto).
  destruct (holder s) as [[j d]|] eqn:Hhold; [|done]. injection Hi as ->.
  unfold unlock_pool_mutex, mbind, M_bind, get. rewrite Hhold, bool_decide_true by done.
  pose proof (pi_depth _ _ _ _ _ _ HI i d t Hhold Ht) as Hd.
  assert (d ≠ 0 → a_kind t = KMain) as Hmain.
  { intros Hne. destruct (a_kind t); [done|exfalso; by apply Hne, Hd..]. }
  destruct (Hk (bool_decide (d ≠ 0))) as (t' & Ht' & ? & ? & ? & ? & ? & Hok & Hk').
  { intros Hkept%bool_decide_eq_true. auto. }
  pose proof (holds_init _ Hh).
  exists t'. destruct d as [|d]; cbn; (split_and!; try done; auto);
    try (apply Hok; by apply (pi_acct _ _ _ _ _ _ HI i));
    try (intros _; split; [done|]; left; split; [done|congruence]).
  - by eapply owner_release.
  - eapply owner_keep; [exact Ho|exact Ht|]. by rewrite Hh, Ht'.
  - intros ? ? [= <- <-]. auto.
Qed.

(** The account of a thread that is not at the slot [k] survives a change of it. *)
Lemma acct_ok_other b b' w k st st' (u : acct) :
  w !! k = Some st → a_holds u = false →
  (∀ p, u = Work k p → phase_ok p st → phase_ok p st') → acct_ok b w u → acct_ok b' (<[k := st']> w) u.
Proof.
  intros Hk Hh Hp. destruct u as [n []| |k' p|]; try done. cbn. intros (st0 & Hst0 & Hp0).
  destruct (decide (k' = k)) as [->|Hne].
  - exists st'. rewrite list_lookup_insert_eq by (by eapply lookup_lt_Some). split; [done|].
    apply (Hp p); [done|]. congruence.
  - exists st0. by rewrite list_lookup_insert_ne.
Qed.

(** An action on the slot [id] by the thread that holds [pool_mutex]. *)
Lemma safe_held {B} (m : M thread_pool unit) (k : unit → proc pool_sys B) w t id Q :
  a_holds t = true → (a_at t = None ∨ a_at t = Some id) → (a_id t = None ∧ id < MAX_WORKER ∨ a_id t = Some id) →
  (∀ p w tk st, tasks p !! id = Some tk → w !! id = Some st → slot_ok args st tk → acct_ok (bitmap p) w t →
    (a_at t = None → Z.testbit (bitmap p) (Z.of_nat id) = false → st = Free) →
    ∃ b' tk' st' t', m p = Ok (tt, ThreadPool b' (<[id := tk']> (tasks p)) (tear_down p) (pool_mutex p) (signals p)) ∧
      slot_ok args st' tk' ∧
      (∀ j, j ≠ id → Z.testbit b' (Z.of_nat j) = Z.testbit (bitmap p) (Z.of_nat j)) ∧
      (Z.testbit b' (Z.of_nat id) = false → st' = Free ∨ a_at t' = Some id) ∧
      is_loaded st' + a_todo t' ≤ is_loaded st + a_todo t ∧
      a_holds t' = true ∧ a_id t' = a_id t ∧ a_kind t' = a_kind t ∧
      (st' = Free ∨ st' = Loaded ∨ st' = st ∨ a_id t = Some id) ∧ acct_ok b' (<[id := st']> w) t' ∧
      (a_id t = None → ∀ ph, phase_ok ph st → a_holds (Work id ph) = false → phase_ok ph st') ∧
      ∀ w', safely i (k tt) w' t' Q) →
  safely i (atomic (in_pool m) ≫= k) w t Q.
Proof.
  intros Hh Hat Hid Hm. apply safe_atomic. intros h s w1 ts _ HI Ht.
  assert (is_Some (w1 !! id)) as [st Hst].
  { destruct Hid as [[_ Hlt]|Hid]; [apply lookup_lt_is_Some; by rewrite (pi_slots _ _ _ _ _ _ HI)|].
    pose proof (pi_acct _ _ _ _ _ _ HI i t Ht) as Hok. destruct t as [| |id' ph|]; try done.
    injection Hid as ->. destruct Hok as (st & ? & _). eauto. }
  destruct (pi_slot _ _ _ _ _ _ HI id st Hst) as (tk & Htk & Hslot).
  destruct (Hm (tp s) w1 tk st Htk Hst Hslot (pi_acct _ _ _ _ _ _ HI i t Ht))
    as (b' & tk' & st' & t' & Hrun & Hslot' & Hbits & Hbit & Hbud & Hh' & Hid' & Hnew & Hst' & Hok & Hph & Hk).
  { intros Hnone Hb. destruct (pi_bit _ _ _ _ _ _ HI id st Hst Hb) as [?|(j & u & Hu & Ha)]; [done|].
    assert (j = i) as -> by (eapply (pi_excl _ _ _ _ _ _ HI j i u t); [done|done|by eapply at_holds|done]).
    congruence. }
  unfold in_pool. rewrite Hrun. exists (<[id := st']> w1), t'. split; [done|]. split; [|apply Hk].
  eapply (inv_slot _ _ h s); cbn; try done; rewrite ?Hh, ?Hh'; try done.
  - intros Hb. destruct (Hbit Hb); auto.
  - intros Hs. by destruct (pi_strict _ _ _ _ _ _ HI Hs).
  - by apply (pi_calls _ _ _ _ _ _ HI).
  - lia.
  - by left.
  - destruct Hst' as [?|[?|[->|Hst']]]; [auto..| |right; right; by apply (pi_id _ _ _ _ _ _ HI i t)]. destruct (decide (id < nthread s)); [auto|].
    destruct (pi_fresh _ _ _ _ _ _ HI id st Hst); [lia|auto..].
  - intros j u Hj Hu. apply (acct_ok_other _ _ _ _ st); [done| |].
    + destruct (a_holds u) eqn:Hhu; [|done]. destruct Hj. by apply (pi_excl _ _ _ _ _ _ HI j i u t).
    + intros ph ->. destruct Hid as [[Hid _]|Hid].
      * intros Hp. apply Hph; [done..|]. destruct (a_holds (Work id ph)) eqn:Hhu; [|done].
        destruct Hj. by apply (pi_excl _ _ _ _ _ _ HI j i (Work id ph) t).
      * destruct Hj. by apply (pi_ids _ _ _ _ _ _ HI j i (Work id ph) t id).
Qed.

(** The accesses to the pool, when the slot exists. *)
Lemma get_task_run (p : thread_pool) id tk : tasks p !! id = Some tk → get_task id p = Ok (tk, p).
Proof. intros Hk. unfold get_task, mbind, M_bind, get, lift. by rewrite (rd_nat _ _ _ Hk). Qed.

Lemma put_task_run (p : thread_pool) id tk tk' :
  tasks p !! id = Some tk →
  put_task id tk' p = Ok (tt, ThreadPool (bitmap p) (<[id := tk']> (tasks p)) (tear_down p) (pool_mutex p) (signals p)).
Proof.
  intros Hk. unfold put_task, mbind, M_bind, get, lift. by rewrite wr_nat by by eapply lookup_lt_Some.
Qed.

Lemma set_routine_run (p : thread_pool) id tk r :
  tasks p !! id = Some tk →
  set_routine id r p = Ok (tt, ThreadPool (bitmap p) (<[id := WorkerTask r (arg tk) (tid tk)]> (tasks p))
    (tear_down p) (pool_mutex p) (signals p)).
Proof.
  intros Hk. unfold set_routine. rewrite (run_bind _ _ _ _ _ (get_task_run p id tk Hk)). by eapply put_task_run.
Qed.

Lemma set_arg_run (p : thread_pool) id tk a :
  tasks p !! id = Some tk →
  set_arg id a p = Ok (tt, ThreadPool (bitmap p) (<[id := WorkerTask (routine tk) a (tid tk)]> (tasks p))
    (tear_down p) (pool_mutex p) (signals p)).
Proof.
  intros Hk. unfold set_arg. rewrite (run_bind _ _ _ _ _ (get_task_run p id tk Hk)). by eapply put_task_run.
Qed.

Lemma test_bit_run (p : thread_pool) id : test_bit id p = Ok (Z.testbit (bitmap p) (Z.of_nat id), p).
Proof.
  unfold test_bit, mbind, M_bind, get. cbv [mret M_ret]. do 2 f_equal.
  destruct (Z.testbit (bitmap p) (Z.of_nat id)) eqn:Hb.
  - by apply bool_decide_true, land_bit.
  - apply bool_decide_false. rewrite land_bit. congruence.
Qed.

(** ** The main thread *)

(** [thread_add_task] when it has [pool_mutex]: the task is loaded, or it is
    dropped with the mutex still held. *)
Definition ready (n : nat) (t : acct) : Prop := t = Main n Out ∨ t = Main n Held.

Lemma safe_add a todo n : ∀ k w,
  arg_ok args a → k + n ≤ MAX_WORKER →
  safely i (add_program i n k simple a) w (Main (S todo) Held) (λ _ t _, ∃ n', todo ≤ n' ∧ ready n' t).
Proof.
  induction n as [|n IH]; intros k w Ha Hk.
  { apply safe_ret. exists (S todo). split; [lia|by right]. }
  cbn [add_program]. apply safe_quiet. intros h s w1 ts HI Ht. unfold in_pool. rewrite test_bit_run.
  assert (k < MAX_WORKER) as Hlt by lia.
  pose proof (pi_owner _ _ _ _ _ _ HI) as Hpm.
  destruct (Z.testbit (bitmap (tp s)) (Z.of_nat k)) eqn:Hbit.
  { exists (Main (S todo) Held). cbn. split_and!; try done; auto; [by rewrite list_insert_id|].
    intros w'. apply IH; [done|lia]. }
  exists (Main (S todo) (Found k)). cbn [a_holds a_at a_id a_new a_todo acct_ok tp holder mutex exited nthread calls].
  split_and!; try done; auto.
  { by eapply owner_keep. }
  { destruct (lookup_lt_is_Some_2 w1 k) as [st Hst]; [by rewrite (pi_slots _ _ _ _ _ _ HI)|].
    destruct (pi_bit _ _ _ _ _ _ HI k st Hst Hbit) as [->|(j & u & Hu & Hau)]; [done|].
    assert (j = i) as -> by (eapply (pi_excl _ _ _ _ _ _ HI j i u); [done|done|by eapply at_holds|done]).
    rewrite Ht in Hu. by injection Hu as <-. }
  clear h s w1 ts HI Ht Hpm Hbit. intros w1.
  apply (safe_held _ _ _ _ k); [done|by left|by left|].
  intros p w2 tk st Htk Hst Hslot Hok _. cbn in Hok. rewrite Hst in Hok. injection Hok as ->. destruct Hslot as [Hr Harg].
  eexists _, _, Loaded, (Main todo (Given k)). split; [by apply set_routine_run|].
  split_and!; try done; auto.
  { split; [done|]. left. by rewrite Harg. }
  { left. rewrite list_lookup_insert_eq; [done|by eapply lookup_lt_Some]. }
  { intros _ ph Hph Hnh. destruct ph; try done. by right. }
  clear p w2 tk Htk Hst Hr Harg. intros w2.
  apply (safe_held _ _ _ _ k); [done|by right|by left|].
  intros p w3 tk st Htk Hst Hslot Hok _. cbn in Hok. rewrite Hst in Hok.
  eexists _, _, st, (Main todo (Given k)). split; [by apply set_arg_run|].
  split_and!; try done; auto.
  { destruct Hok as [[= ->]|[= ->]]; destruct Hslot; done. }
  { cbn. rewrite list_insert_id by done. by rewrite Hst. }
  clear p w3 tk st Htk Hst Hslot Hok. intros w3.
  apply (safe_held _ _ _ _ k); [done|by right|by left|].
  intros p w4 tk st Htk Hst Hslot Hok _.
  eexists _, tk, st, (Main todo (Marked k)). split; [by rewrite list_insert_id|].
  split_and!; try done; auto.
  { intros j Hj. rewrite set_bit, bool_decide_false by done. done. }
  { rewrite set_bit, bool_decide_true by done. done. }
  { cbn. rewrite set_bit, bool_decide_true by done. done. }
  clear p w4 tk st Htk Hst Hslot Hok. intros w4.
  apply safe_outside; [done|]. intros h s w5 ts HI Ht. rewrite test_bit_run.
  pose proof (pi_acct _ _ _ _ _ _ HI i _ Ht) as Hok. cbn in Hok. rewrite Hok. cbn [tp mutex exited nthread calls].
  split_and!; try done; auto. clear h s w5 ts HI Ht Hok. intros w5.
  apply safe_lift; [done|]. apply yields_check; [done|]. intros w7.
  apply safe_last. apply safe_unlock_pool; [done..|]. intros kept _.
  exists (Main todo (if kept then Held else Out)). split_and!; try by destruct kept.
  intros w8. exists todo. split; [done|]. destruct kept; [by right|by left].
Qed.

Lemma safe_add_all args' : ∀ n t w,
  Forall (arg_ok args) args' → length args' ≤ n → ready n t →
  safely i (add_all pl pick i args') w t (λ _ t _, ∃ n, ready n t).
Proof.
  induction args' as [|a args' IH]; intros n t w Hargs Hn Ht.
  { apply safe_ret. eauto. }
  apply Forall_cons_1 in Hargs as [Ha Hargs]. cbn in Hn. destruct n as [|n]; [lia|].
  cbn [add_all]. apply safe_bind. unfold add_task_program.
  apply (safe_lock_pool _ _ _ (Main (S n) Held)); try (by destruct Ht as [-> | ->]); [by destruct Ht as [-> | ->]; auto|].
  intros w1. apply safe_bind. eapply safe_mono; [apply _|apply safe_add; [done|unfold WORKER_ENABLE, MAX_WORKER; lia]|].
  intros w2 t2 [] _ (n' & Hn' & Ht2). apply safe_last.
  apply safe_outside; [by destruct Ht2 as [-> | ->]|]. intros h s w3 ts HI _. outside.
  intros w4. apply safe_ret. apply (IH n'); [done|lia|done].
Qed.

(** How a thread may end: none of them does where the wait is undefined. *)
Definition ends (t : acct) : Prop := t = Other ∨ ¬ strict.

Lemma safe_joins n k w t :
  a_at t = None → k + S n ≤ MAX_WORKER →
  safely i (joins (S n) k) w t (λ _ t' _, t' = t ∧ ¬ strict).
Proof.
  intros Hat. revert k w. induction n as [|n IH]; intros k w Hk; cbn [joins];
    (apply safe_outside; [done|]); intros h s w1 ts HI Ht; unfold pool_join, in_pool;
    (destruct (lookup_lt_is_Some_2 (tasks (tp s)) k) as [tk Htk];
      [rewrite (pi_tasks _ _ _ _ _ _ HI); lia|]);
    unfold mbind, M_bind at 1; rewrite (get_task_run _ _ _ Htk); cbn; unfold M_bind, get;
    (case_bool_decide as Hin; [|apply allowed_Blocked]); outside; intros w2.
  - split; [done|]. intros Hs. destruct (pi_strict _ _ _ _ _ _ HI Hs) as (_ & Hx & _). cbn in Hin. rewrite Hx in Hin.
    by apply elem_of_empty in Hin.
  - apply IH. lia.
Qed.

(** The destruction of a mutex, or of the condition variable. *)
Lemma safe_destroy_mutex {B} held (k : unit → proc pool_sys B) w t Q :
  a_at t = None → ¬ strict → (∀ w', safely i (k tt) w' t Q) → safely i (atomic (destroy_mutex pl held) ≫= k) w t Q.
Proof.
  intros Hat Hns Hk. apply safe_outside; [done|]. intros h s w1 ts _ _. unfold destroy_mutex, mbind, M_bind, get, lift.
  destruct (held s); [|outside]. destruct (destroy_held pl) as [[]|f] eqn:Hd; [outside|].
  right. right. right. split; [done|]. right. by left.
Qed.

Lemma safe_destroy_cond {B} (k : unit → proc pool_sys B) w t Q :
  a_at t = None → ¬ strict → (∀ w', safely i (k tt) w' t Q) → safely i (atomic (destroy_cond pl) ≫= k) w t Q.
Proof.
  intros Hat Hns Hk. apply safe_outside; [done|]. intros h s w1 ts _ _. unfold destroy_cond, mbind, M_bind, get, lift.
  case_bool_decide; [outside|]. destruct (destroy_waited pl) as [[]|f] eqn:Hd; [outside|].
  right. right. right. split; [done|]. right. by right.
Qed.

(** [pthread_mutex_unlock(&mutex)]: the main thread gives back what
    [thread_pool_init] has locked; *)
Lemma safe_first_unlock {B} (k : unit → proc pool_sys B) w n Q :
  i = 0 → (∀ w', safely i (k tt) w' (Main n Out) Q) →
  safely i (atomic (unlock_mutex pl i) ≫= k) w (Main n Init) Q.
Proof.
  intros Hi Hk. apply safe_quiet. intros h s w1 ts HI Ht. unfold unlock_mutex, mbind, M_bind, get, lift.
  assert (strict → mutex s = Some i) as Hown.
  { intros Hs. destruct (pi_strict _ _ _ _ _ _ HI Hs) as (_ & _ & ->). unfold init_of. rewrite Hi in Ht.
    rewrite Ht. cbn. congruence. }
  assert (∀ m, let s' := PoolSys (tp s) (holder s) m (waiting s) (nthread s) (g_flag s) (exited s) (calls s) in
    (strict → m = None) → owner a_holds (fst <$> holder s') (<[i := Main n Out]> ts)) as Hkeep.
  { intros m s' _. eapply owner_keep; [apply HI|exact Ht|done]. }
  case_bool_decide as Hm; [|destruct (unlock_unowned pl (mutex s)) as [m|f] eqn:Hu].
  - exists (Main n Out). cbn. split_and!; try done; auto. by apply (Hkeep None).
  - exists (Main n Out). cbn. split_and!; try done; auto; [|by apply (Hkeep m); intros ?%Hown].
    intros Hs. by destruct Hm; apply Hown.
  - right. right. right. split; [by intros ?%Hown|]. left. by exists (mutex s).
Qed.

(** and a worker what it took when it was woken, which happens nowhere where the
    wait is undefined. *)
Lemma safe_unlock_mutex {B} (k : unit → proc pool_sys B) w t Q :
  a_at t = None → ¬ strict → (∀ w', safely i (k tt) w' t Q) → safely i (atomic (unlock_mutex pl i) ≫= k) w t Q.
Proof.
  intros Hat Hs Hk. apply safe_outside; [done|]. intros h s w1 ts HI _. unfold unlock_mutex, mbind, M_bind, get, lift.
  destruct (if bool_decide _ then _ else _) as [m|f] eqn:Hm; [outside|].
  case_bool_decide; [done|]. right. right. right. split; [done|]. left. by exists (mutex s).
Qed.

Lemma safe_session w :
  i = 0 → safely i (session_program pl pick i args) w (Main (length args) Init) (λ _ t _, ends t).
Proof.
  intros Hi. unfold session_program. apply safe_first_unlock; [done|]. intros w1.
  apply safe_bind. eapply safe_mono; [apply _|apply (safe_add_all args (length args))|].
  - apply list.Forall_forall. intros a Ha. by right.
  - done.
  - by left.
  - intros w2 t [] _ (n & Ht). assert (a_at t = None) as Hat by (by destruct Ht as [-> | ->]).
    unfold destroy_program.
    apply safe_outside; [done|]. intros h s w3 ts HI _. outside. intros w4.
    apply safe_outside; [done|]. intros ????? _. outside. intros ?.
    apply safe_outside; [done|]. intros ????? _. outside. intros ?.
    apply safe_bind. eapply safe_mono; [apply _|apply safe_joins; [done|unfold WORKER_ENABLE, MAX_WORKER; lia]|].
    intros ? t' [] _ [-> Hns]. apply safe_destroy_cond; [done..|]. intros ?. apply safe_destroy_mutex; [done..|]. intros ?.
    apply safe_destroy_mutex; [done..|]. intros ?. apply safe_last, safe_destroy_mutex; [done..|]. intros ?.
    apply safe_ret. by right.
Qed.

(** ** A worker *)

(** It gets a number of its own. *)
Lemma safe_fetch_id {B} (k : nat → proc pool_sys B) w Q :
  (∀ id w', safely i (k id) w' (Work id Idle) Q) → safely i (atomic fetch_id ≫= k) w New Q.
Proof.
  intros Hk. apply safe_atomic. intros h s w1 ts _ HI Ht. exists w1, (Work (nthread s) Idle).
  split; [done|]. split; [|apply Hk].
  pose proof (update_sum a_new i ts New (Work (nthread s) Idle) Ht) as Hsum.
  pose proof (pi_new _ _ _ _ _ _ HI) as Hnew. cbn in Hsum.
  constructor; cbn [tp mutex exited nthread calls]; try apply HI.
  - intros k' st Hst Hb. destruct (pi_bit _ _ _ _ _ _ HI k' st Hst Hb) as [?|(j & u & Hu & Ha)]; [by left|right].
    exists j, u. rewrite list_lookup_insert_ne; [done|]. intros <-. rewrite Ht in Hu. by injection Hu as <-.
  - eapply owner_keep; [apply HI|exact Ht|done].
  - intros j d u Hj Hu Hkind. destruct (update_lookup _ _ _ _ _ _ Ht Hu) as [[-> ->]|[Hji Hu']].
    + by apply (pi_depth _ _ _ _ _ _ HI i d New).
    + by apply (pi_depth _ _ _ _ _ _ HI j d u).
  - intros j1 j2 u1 u2 k' H1 H2 Hi1 Hi2.
    destruct (update_lookup _ _ _ _ _ _ Ht H1) as [[-> ->]|[Hj1 H1']];
      destruct (update_lookup _ _ _ _ _ _ Ht H2) as [[-> ->]|[Hj2 H2']]; try done.
    + injection Hi1 as <-. pose proof (pi_id _ _ _ _ _ _ HI j2 u2 _ H2' Hi2). lia.
    + injection Hi2 as <-. pose proof (pi_id _ _ _ _ _ _ HI j1 u1 _ H1' Hi1). lia.
    + by eapply (pi_ids _ _ _ _ _ _ HI).
  - destruct (pi_main _ _ _ _ _ _ HI) as (u & Hu & Hm). exists u. rewrite list_lookup_insert_ne; [done|].
    intros ->. rewrite Ht in Hu. by injection Hu as <-.
  - intros j u k' Hu Hi'. destruct (update_lookup _ _ _ _ _ _ Ht Hu) as [[-> ->]|[Hj Hu']].
    + injection Hi' as <-. lia.
    + pose proof (pi_id _ _ _ _ _ _ HI j u k' Hu' Hi'). lia.
  - lia.
  - intros j u Hu. destruct (update_lookup _ _ _ _ _ _ Ht Hu) as [[-> ->]|[Hj Hu']].
    + destruct (lookup_lt_is_Some_2 w1 (nthread s)) as [st Hst]; [rewrite (pi_slots _ _ _ _ _ _ HI); lia|].
      exists st. split; [done|]. by apply (pi_fresh _ _ _ _ _ _ HI (nthread s)).
    + by apply (pi_acct _ _ _ _ _ _ HI j).
  - intros k' st Hst Hle. apply (pi_fresh _ _ _ _ _ _ HI k'); [done|lia].
  - pose proof (update_sum a_todo i ts New (Work (nthread s) Idle) Ht) as Hs. cbn in Hs.
    pose proof (pi_budget _ _ _ _ _ _ HI). lia.
  - intros Hs. rewrite (init_update _ _ New) by done. by apply (pi_strict _ _ _ _ _ _ HI).
Qed.

(** The slot of a worker. *)
Lemma worker_slot h s w ts id p :
  inv h s w ts → ts !! i = Some (Work id p) →
  ∃ st tk, w !! id = Some st ∧ phase_ok p st ∧ tasks (tp s) !! id = Some tk ∧ slot_ok args st tk ∧ id < MAX_WORKER.
Proof.
  intros HI Ht. destruct (pi_acct _ _ _ _ _ _ HI i _ Ht) as (st & Hst & Hp).
  destruct (pi_slot _ _ _ _ _ _ HI id st Hst) as (tk & Htk & Hok). exists st, tk.
  split_and!; try done. apply lookup_lt_Some in Hst. by rewrite (pi_slots _ _ _ _ _ _ HI) in Hst.
Qed.

(** The call of the routine that the worker has seen. *)
Lemma safe_call {B} (k : unit → proc pool_sys B) id a w Q :
  arg_ok args a → ¬ strict →
  (∀ w', safely i (k tt) w' (Work id Ran) Q) →
  safely i (atomic (call_routine id simple a) ≫= k) w (Work id Saw) Q.
Proof.
  intros Ha Hns Hk. apply safe_atomic. intros h s w1 ts _ HI Ht.
  destruct (worker_slot _ _ _ _ _ _ HI Ht) as (st & tk & Hst & Hp & Htk & Hok & Hlt). cbn in Hp. subst st.
  unfold call_routine. rewrite (bool_decide_true (simple = simple)) by done.
  unfold check, lift, mbind, M_bind, get. case_bool_decide as Hf; [apply allowed_Blocked|].
  exists (<[id := Done]> w1), (Work id Ran). split; [done|]. split; [|apply Hk].
  eapply (inv_slot _ _ h s _ w1 ts i (Work id Saw) _ id Loaded Done tk); cbn [tp mutex exited nthread calls];
    try done; try (by left); auto.
  - by rewrite list_insert_id.
  - apply Forall_app. split; [apply HI|]. by apply Forall_singleton.
  - rewrite length_app. change (is_loaded Done) with 0. change (is_loaded Loaded) with 1. cbn. lia.
  - right. right. by apply (pi_id _ _ _ _ _ _ HI i (Work id Saw)).
  - exists Done. rewrite list_lookup_insert_eq by (by eapply lookup_lt_Some). done.
  - intros j u Hj Hu Hacc. destruct (a_holds u) eqn:Hhu.
    + destruct u as [n m| |id' p|]; try done; cbn in Hacc |- *.
      * destruct m as [| | |k'|k'|k']; try done; (destruct (decide (k' = id)) as [->|Hne];
          [rewrite list_lookup_insert_eq by (by eapply lookup_lt_Some)|by rewrite list_lookup_insert_ne]).
        -- congruence.
        -- by right.
      * destruct (decide (id' = id)) as [->|Hne]; [|by rewrite list_lookup_insert_ne].
        destruct Hj. by apply (pi_ids _ _ _ _ _ _ HI j i (Work id p) (Work id Saw) id).
    + eapply (acct_ok_other (bitmap (tp s)) _ _ _ Loaded); try done. intros p -> _.
      destruct Hj. by apply (pi_ids _ _ _ _ _ _ HI j i (Work id p) (Work id Saw) id).
Qed.

(** What a worker does with [pool_mutex] once it has run its task. *)
Lemma safe_clear {B} (k : unit → proc pool_sys B) id w Q :
  (∀ w', safely i (k tt) w' (Work id Idle) Q) →
  safely i (atomic (lock_pool_mutex pl i);; atomic (in_pool (and_bit id));; atomic (in_pool (set_routine id None));;
    atomic (in_pool (set_arg id 0));; x ← atomic (unlock_pool_mutex i); k x) w (Work id Ran) Q.
Proof.
  intros Hk. apply (safe_lock_pool _ _ _ (Work id Locked)); try done; [by left|]. intros w1.
  apply safe_held with id; [done|by left|by right|].
  intros p w2 tk st Htk Hst Hslot (st0 & Hst0 & Hp) _. cbn in Hp. rewrite Hst in Hst0. injection Hst0 as <-. subst st.
  eexists _, tk, Done, (Work id Unset). split; [by rewrite list_insert_id|]. split_and!; try done; auto.
  { intros j Hj. by rewrite clear_bit, bool_decide_true. }
  { exists Done. rewrite list_lookup_insert_eq by (by eapply lookup_lt_Some). done. }
  clear p w2 tk Htk Hst Hslot. intros w2. apply safe_held with id; [done|by right|by right|].
  intros p w3 tk st Htk Hst Hslot (st0 & Hst0 & Hp) _. cbn in Hp. rewrite Hst in Hst0. injection Hst0 as <-. subst st.
  eexists _, _, Cleared, (Work id Nulled). split; [by apply set_routine_run|]. split_and!; try done; auto.
  { exists Cleared. rewrite list_lookup_insert_eq by (by eapply lookup_lt_Some). done. }
  clear p w3 tk Htk Hst Hslot. intros w3. apply safe_held with id; [done|by right|by right|].
  intros p w4 tk st Htk Hst Hslot (st0 & Hst0 & Hp) _. cbn in Hp. rewrite Hst in Hst0. injection Hst0 as <-. subst st.
  eexists _, _, Free, (Work id Freed). split; [by apply set_arg_run|]. split_and!; try done; auto.
  { exists Free. rewrite list_lookup_insert_eq by (by eapply lookup_lt_Some). done. }
  clear p w4 tk Htk Hst Hslot. intros w4.
  apply safe_unlock_pool; [done..|]. intros [] Hkept; [by specialize (Hkept eq_refl)|].
  exists (Work id Idle). split_and!; try done. intros b w5 (st & Hst & ->). exists Free. split; [done|by left].
Qed.

(** [pthread_cond_wait], by a worker that has no task in hand. *)
Lemma safe_wait {B} (k : unit → proc pool_sys B) id w Q :
  i ≠ 0 → (¬ strict → ∀ w', safely i (k tt) w' (Work id Idle) Q) →
  safely i (atomic (cond_wait pl i);; x ← atomic (cond_woken i); k x) w (Work id Idle) Q.
Proof.
  intros Hi Hk. apply safe_outside; [done|]. intros h s w1 ts HI Ht.
  unfold cond_wait, mbind, M_bind, get, lift.
  assert (∀ m, (if bool_decide (mutex s = Some i) then Ok None else wait_unowned pl (mutex s)) = Ok m → ¬ strict) as Hns.
  { intros m Hm Hs. case_bool_decide as Hown.
    - destruct (pi_strict _ _ _ _ _ _ HI Hs) as (_ & _ & Hx). unfold init_of in Hx. rewrite Hown in Hx.
      destruct (ts !! 0) as [u|]; [destruct (a_init u)|]; congruence.
    - rewrite Hs in Hm. discriminate Hm. }
  destruct (if bool_decide _ then _ else _) as [m|f] eqn:Hm.
  2:{ case_bool_decide; [done|]. right. right. left. left. by exists (mutex s). }
  specialize (Hns m eq_refl). unfold set_mutex, set_waiting. outside.
  clear h s w1 ts HI Ht m Hm. intros w1. apply safe_outside; [done|]. intros h s w2 ts HI Ht.
  unfold cond_woken, mbind, M_bind, get. case_bool_decide; [apply allowed_Blocked|].
  destruct (mutex s); [apply allowed_Blocked|]. unfold set_mutex. outside.
Qed.

(** A worker reads the routine of its task: it has seen one when there is one,
    and then there is; *)
Lemma safe_get_routine {B} (k : option nat → proc pool_sys B) id p w Q :
  p = Idle ∨ p = Saw →
  (∀ r, (p = Saw → r = Some simple) → (∀ r', r = Some r' → r' = simple) →
    ∀ w', safely i (k r) w' (Work id (if r then Saw else Idle)) Q) →
  safely i (atomic (in_pool (get_routine id)) ≫= k) w (Work id p) Q.
Proof.
  intros Hp Hk. apply safe_quiet. intros h s w1 ts HI Ht.
  destruct (worker_slot _ _ _ _ _ _ HI Ht) as (st & tk & Hst & Hph & Htk & Hok & Hlt).
  unfold in_pool, get_routine. rewrite (run_bind _ _ _ _ _ (get_task_run _ _ _ Htk)). cbv [mret M_ret].
  exists (Work id (if routine tk then Saw else Idle)).
  assert ((p = Saw → routine tk = Some simple) ∧ (is_Some (routine tk) → st = Loaded ∧ routine tk = Some simple))
    as [Hsaw Hsome].
  { destruct Hp as [-> | ->]; cbn in Hph; [destruct Hph as [-> | ->]|subst st]; cbn in Hok;
      destruct Hok as [Hr Ha]; rewrite Hr; split; try done; by intros []. }
  assert (a_holds (Work id p) = false) as Hh by (by destruct Hp as [-> | ->]).
  outside; try (by destruct Hp as [-> | ->]); try (by destruct (routine tk)).
  - eapply owner_keep; [apply HI|exact Ht|]. rewrite Hh. by destruct (routine tk).
  - exists st. split; [done|]. destruct (routine tk) eqn:Hr; [by apply Hsome|].
    destruct Hp as [-> | ->]; [done|]. by specialize (Hsaw eq_refl).
  - apply Hk; [done|]. intros r' Hr. destruct Hsome as [_ Hr']; [by rewrite Hr|congruence].
Qed.

(** and its argument. *)
Lemma safe_get_arg {B} (k : Z → proc pool_sys B) id w Q :
  (∀ a, arg_ok args a → ∀ w', safely i (k a) w' (Work id Saw) Q) →
  safely i (atomic (in_pool (get_arg id)) ≫= k) w (Work id Saw) Q.
Proof.
  intros Hk. apply safe_outside; [done|]. intros h s w1 ts HI Ht.
  destruct (worker_slot _ _ _ _ _ _ HI Ht) as (st & tk & Hst & Hph & Htk & Hok & Hlt).
  cbn in Hph. subst st. destruct Hok as [_ Ha].
  unfold in_pool, get_arg. rewrite (run_bind _ _ _ _ _ (get_task_run _ _ _ Htk)). cbv [mret M_ret].
  outside.
Qed.

Lemma safe_task id w Q :
  ¬ strict → (∀ w', Q w' (Work id Idle) tt) → safely i (task_program pl i id) w (Work id Saw) Q.
Proof.
  intros Hns HQ. unfold task_program, read_task.
  assert (∀ a w', arg_ok args a → safely i (r ← atomic (lift (Ok simple)); atomic (call_routine id r a);;
    atomic (lock_pool_mutex pl i);; atomic (in_pool (and_bit id));; atomic (in_pool (set_routine id None));;
    atomic (in_pool (set_arg id 0));; atomic (unlock_pool_mutex i)) w' (Work id Saw) Q) as Hrest.
  { intros a w' Ha. apply safe_lift; [done|]. cbn [yields]. intros w1. apply safe_call; [done|done|]. intros w2.
    apply safe_clear. intros w3. by apply safe_ret. }
  apply safe_bind. destruct (arg_first pl).
  - apply safe_get_arg. intros a Ha w1. apply safe_get_routine; [by right|]. intros r Hr _ w2.
    rewrite (Hr eq_refl). apply safe_ret. by apply Hrest.
  - apply safe_get_routine; [by right|]. intros r Hr _ w2. rewrite (Hr eq_refl).
    apply safe_get_arg. intros a Ha w1. apply safe_ret. by apply Hrest.
Qed.

Lemma safe_wrapper_loop fuel j id : ∀ w, i ≠ 0 →
  safely i (wrapper_loop pl tids fuel i j id) w (Work id Idle) (λ _ t _, ends t).
Proof.
  induction fuel as [|fuel IH]; intros w Hi; cbn [wrapper_loop].
  { intros h s w1 ts _ _ _. right. by left. }
  apply safe_wait; [done|]. intros Hns w1.
  apply safe_outside; [done|]. intros h s w2 ts _ _. unfold in_pool, get_tear_down, mbind, M_bind, get. outside.
  clear h ts w2. intros w2. case_bool_decide.
  { apply safe_unlock_mutex; [done|done|]. intros w3.
    apply safe_last, safe_outside; [done|]. intros ????? _. unfold thread_exit, mbind, M_bind, get, put. outside.
    intros ?. apply safe_ret. by right. }
  apply safe_get_routine; [by left|]. intros r _ _ w3. destruct r as [r|]; [|by apply IH].
  apply safe_bind, safe_task; [done|]. intros w4. by apply IH.
Qed.
End safety.

(** ** The pool under every schedule *)

Section run.
Context (pl : platform) (pick : gset nat → gset nat) (tids args : list Z).
Context (fuel : nat) (js : list nat).
#[local] Existing Instance anyhow_preorder.
Abbreviation body := (pool_body pl pick tids fuel).
Abbreviation inv := (pool_inv pl args).

Definition pool_well (g : config pool_sys pool_thread unit) : Prop :=
  config_ok anyhow inv (λ _ _ _ _ f, allowed pl f) (ends pl) (λ _ _ t _, ends pl t) (λ _, False) g.

Lemma safe_wakes i ks w :
  safe anyhow inv (λ _ _ _ _ f, allowed pl f) i (wakes ks) w Other (λ _ t _, ends pl t).
Proof.
  revert w. induction ks as [|j ks IH]; intros w; cbn [wakes]; [apply safe_ret; by left|].
  apply safe_outside; [done|]. intros ????? _. unfold spurious, mbind, M_bind, get, set_waiting. outside.
Qed.

Lemma pool_inv_start h :
  inv h (PoolSys (thread_pool_init tids) None (Some 0) ∅ 0 0%Z ∅ []) (replicate MAX_WORKER Free)
    [Main (length args) Init; New; New; Other].
Proof.
  assert (∀ i t, [Main (length args) Init; New; New; Other] !! i = Some t → a_holds t = false ∧ a_id t = None ∧
    acct_ok 0%Z (replicate MAX_WORKER Free) t) as Ht.
  { intros [|[|[|[|i]]]] t Hi; cbn in Hi; by simplify_eq. }
  constructor; cbn [tp mutex exited nthread calls]; try done.
  - intros k st [-> Hk]%lookup_replicate. unfold thread_pool_init. cbn [tasks]. rewrite list_lookup_imap.
    rewrite lookup_replicate_2 by done. cbn. eexists. split; [done|]. by destruct (tids !! k).
  - intros k st [-> _]%lookup_replicate _. by left.
  - intros v. split; [done|]. intros (t & (? & _)%Ht & ?). congruence.
  - intros i j t u k (_ & ? & _)%Ht _ ?. congruence.
  - by exists (Main (length args) Init).
  - intros i t k (_ & ? & _)%Ht ?. congruence.
  - by apply (bool_decide_unpack _).
  - intros i t Hi. by apply (Ht i t Hi).
  - intros k st [-> _]%lookup_replicate _. by left.
  - cbn [length]. assert (sum_list_with is_loaded (replicate MAX_WORKER Free) = 0) as -> by done. cbn. lia.
Qed.

Lemma pool_well_start : pool_well (pool_start pl pick tids fuel args js).
Proof.
  exists (replicate MAX_WORKER Free), [Main (length args) Init; New; New; Other].
  split_and!; [apply pool_inv_start|done|].
  intros [|[|[|[|i]]]] th t Hth Ht; cbn in Hth, Ht; simplify_eq; (split; [done|]);
    exists (replicate MAX_WORKER Free); (split; [done|]).
  - by apply safe_session.
  - apply safe_fetch_id. intros. by apply safe_wrapper_loop.
  - apply safe_fetch_id. intros. by apply safe_wrapper_loop.
  - apply safe_wakes.
Qed.

Lemma pool_run_well sched :
  match pool_run pl pick tids fuel args js sched with
  | Ok g => pool_well g
  | Fail f => f ≠ Blocked ∧ (f = OutOfFuel ∨ early_misuse pl f ∨ ¬ strict pl ∧ late_misuse pl f)
  end.
Proof.
  unfold pool_run.
  pose proof (run_waiting_safe anyhow body inv (λ _ _ _ _ f, allowed pl f) (ends pl)
    (λ _ _ t _, ends pl t) (λ _, False)) as Hrun.
  specialize (Hrun ltac:(done)).
  assert (∀ h s w w0 ts i t c v, inv h s w ts → ts !! i = Some t → anyhow w0 w → ends pl t →
    ∃ t', ends pl t' ∧ inv (h ++ [Returned i c v]) s w (<[i := t']> ts)) as Hret.
  { intros h s w w0 ts i t c v HI Ht _ He. exists t. split; [done|]. rewrite list_insert_id by done. by destruct HI. }
  specialize (Hrun Hret sched _ pool_well_start).
  destruct (run_waiting body sched (pool_start pl pick tids fuel args js)) as [g|f]; [done|].
  destruct Hrun as [Hne (_ & _ & _ & _ & [?|?])]; auto. done.
Qed.
End run.

(** ** The properties *)

(** C18: whatever the schedule, the threads that a signal wakes, the waits that
    end without one and what the platform makes of calls that are undefined:
    nothing goes wrong but these calls, which are a wait for [cond] and an unlock of
    [mutex] by a thread that does not hold it, the lock of [pool_mutex] by the main
    thread when it holds it already, and the destruction of a mutex that is held or
    of [cond] when threads wait on it; the workers make no more calls than there are
    tasks, and each is a call of a task's routine, with its argument or, when the
    worker reads it before the main thread has written it, with NULL. *)
Theorem pool_calls pl pick tids args fuel js sched :
  match pool_run pl pick tids fuel args js sched with
  | Ok g => length (calls (shared g)) ≤ length args ∧
      Forall (λ c, c.1.2 = simple ∧ (c.2 = 0%Z ∨ c.2 ∈ args)) (calls (shared g))
  | Fail f => f = OutOfFuel ∨ misuse pl f
  end.
Proof.
  pose proof (pool_run_well pl pick tids args fuel js sched) as Hrun.
  destruct (pool_run pl pick tids fuel args js sched) as [g|f]; [|unfold misuse; tauto].
  destruct Hrun as (w & ts & HI & _). split; [|apply HI].
  pose proof (pi_budget _ _ _ _ _ _ HI). lia.
Qed.

(** C19: a worker's first wait is without the mutex. Where that is undefined,
    as in the standard, no task is ever run, no worker ever exits and the main
    thread never returns: every schedule comes to the undefined wait, or has not
    let a worker get that far; or the main thread locks [pool_mutex] once more
    than it may. *)
Theorem pool_undefined unlock lock held waited order pick tids args fuel js sched :
  let pl := Platform (λ _, Fail NotOwner) unlock lock held waited order in
  match pool_run pl pick tids fuel args js sched with
  | Ok g => calls (shared g) = [] ∧ exited (shared g) = ∅ ∧
      ∃ t, pool g !! 0 = Some t ∧ is_Some (running t)
  | Fail f => f = NotOwner ∨ f = OutOfFuel ∨ ∃ d, lock d = Fail f
  end.
Proof.
  intros pl. pose proof (pool_run_well pl pick tids args fuel js sched) as Hrun.
  assert (strict pl) as Hs by done.
  destruct (pool_run pl pick tids fuel args js sched) as [g|f] eqn:Hg.
  2:{ destruct Hrun as [_ [?|[[[_ [= ->]]|?]|[? _]]]]; [by auto..|done]. }
  destruct Hrun as (w & ts & HI & Hlen & Hth). destruct (pi_strict _ _ _ _ _ _ HI Hs) as (? & ? & _).
  split_and!; [done..|]. destruct (pi_main _ _ _ _ _ _ HI) as (t & Ht & Hk).
  assert (is_Some (pool g !! 0)) as [th Hi].
  { apply lookup_lt_is_Some. rewrite <-Hlen. by eapply lookup_lt_Some. }
  exists th. split; [done|]. destruct (Hth 0 th t Hi Ht) as [_ Hrun].
  destruct (running th) as [r|]; [by exists r|]. by destruct Hrun as [->|[]].
Qed.

(** ** Executions *)

(** A platform that gives the mutex back all the same, and on which a signal
    wakes the thread that comes first. *)
Definition lenient : platform := Platform (λ _, Ok None) (λ _, Ok None) Ok (Ok tt) (Ok tt) true.
Definition first_waiter (ws : gset nat) : gset nat :=
  match elements ws with [] => ∅ | x :: _ => {[x]} end.
Definition pool_sample (args : list Z) (js sched : list nat) :=
  pool_run lenient first_waiter [100; 101]%Z 10 args js sched.
Abbreviation pool_sample_body := (pool_body lenient first_waiter [100; 101]%Z 10).

(** The routines that have been called, and the threads that have returned. *)
Definition pool_result (args : list Z) (js sched : list nat) : list (nat * nat * Z) * list bool :=
  match pool_sample args js sched with
  | Ok g => (calls (shared g), (λ t, match running t with None => true | Some _ => false end) <$> pool g)
  | Fail _ => ([], [])
  end.

(** A worker has its task, clears it and waits again while the main thread
    broadcasts and joins; or both wait when there is nothing more to come. *)
Definition unlucky : list nat := concat (replicate 30 [1; 2]) ++ concat (replicate 60 [0; 1; 2]) ++ [3].

(** The program as it is, where a wait without the mutex does no harm: it can
    come to a point from which nothing moves, with a task that was never run and
    the main thread in [pthread_join]. *)
Lemma pool_hangs :
  ∃ g, pool_sample main_args [] unlucky = Ok g ∧ length (calls (shared g)) = 1 ∧
    (∃ t, pool g !! 0 = Some t ∧ is_Some (running t)) ∧
    ∀ sched, run_waiting pool_sample_body sched g = Ok g.
Proof.
  destruct (pool_sample main_args [] unlucky) as [g|f] eqn:Hg.
  2:{ exfalso. assert (match pool_sample main_args [] unlucky with Ok _ => true | Fail _ => false end = true) as Ht
        by (by vm_compute). by rewrite Hg in Ht. }
  assert (match pool_sample main_args [] unlucky with
    | Ok g => (length (calls (shared g)) =? 1) && forallb (stuck_at pool_sample_body g) (seq 0 (length (pool g))) &&
        match pool g !! 0 with Some t => bool_decide (is_Some (running t)) | None => false end
    | Fail _ => false end = true) as Ht by (by vm_compute).
  rewrite Hg in Ht. apply andb_true_iff in Ht as [[Hc Hs]%andb_true_iff Hm]. apply Nat.eqb_eq in Hc.
  exists g. split_and!; [done|done| |].
  - destruct (pool g !! 0) as [t|]; [|done]. exists t. split; [done|]. by apply bool_decide_eq_true in Hm.
  - intros sched. by apply stuck_stays.
Qed.

(** It can also come to its end, with both tasks run. *)
Example pool_ends :
  pool_result main_args [] ([1; 1; 2; 2] ++ replicate 21 0 ++ replicate 13 1 ++ replicate 13 2 ++
    concat (replicate 30 [0; 1; 2]) ++ [3]) = ([(0, simple, 0%Z); (1, simple, 0%Z)], [true; true; true; true]).
Proof. by vm_compute. Qed.

(** The task with the argument 5 is run with NULL, by a worker that wakes by
    itself after the routine has been written. *)
Example pool_early_argument :
  (pool_result [5%Z] [1] ([1; 1; 2; 2; 0; 0; 0; 0; 3] ++ replicate 8 1 ++ replicate 20 0 ++
    concat (replicate 20 [0; 1; 2]))).1 = [(0, simple, 0%Z)].
Proof. by vm_compute. Qed.

(** The platform that makes nothing of these calls. *)
Definition standard : platform :=
  Platform (λ _, Fail NotOwner) (λ _, Fail NotOwner) (λ _, Fail NotOwner) (Fail NotOwner) (Fail NotOwner) false.

(** A worker's second action is the wait without the mutex. *)
Example pool_first_wait :
  match pool_run standard first_waiter [100; 101]%Z 10 main_args [] [1; 1] with
  | Fail f => f
  | Ok _ => Blocked
  end = NotOwner.
Proof. by vm_compute. Qed.

(** The third task is dropped with [pool_mutex] still held, and the fourth comes to
    the lock of it by its holder. *)
Example pool_fourth_task :
  match pool_run standard first_waiter [100; 101]%Z 10 [0; 0; 0; 0]%Z [] (replicate 60 0) with
  | Fail f => f
  | Ok _ => Blocked
  end = NotOwner.
Proof. by vm_compute. Qed.

Example pool_third_task :
  match pool_run standard first_waiter [100; 101]%Z 10 [0; 0; 0]%Z [] (replicate 60 0) with
  | Fail _ => false
  | Ok g => bool_decide (holder (shared g) = Some (0, 0))
  end = true.
Proof. by vm_compute. Qed.
