(* ===== verification/PipeTest.v ===== *)
(** The pipe experiment of [src/snippets/test_pipe.c]: a dispatcher writes the
    descriptors of the regular files into a pipe as [int]s and then two bytes
    that are zero; two threads read from the pipe without a lock. A step
    relation over the bytes in the pipe. *)

From S2P Require Import Prelude CInt.
From stdpp Require Import list_numbers.
Local Open Scope Z_scope.

(** ** Data *)

(** The bytes of an [int] in memory, and the [int] of four bytes. *)
Definition int_bytes (x : Z) : list Z := Z_to_little_endian 4 8 x.
Definition bytes_int (bs : list Z) : Z := little_endian_to_Z 8 bs.

(** A thread in [readpipe]: it is in its loop, with the bytes of [buf], which
    are [None] until they are written; or it has left. *)
Inductive reader := Loops (buf : list (option Z)) | Left.

#[export] Instance reader_eq_dec : EqDecision reader.
Proof. solve_decision. Defined.

(** The dispatcher: the entries of the directory that are left, a regular file
    that opens giving its descriptor and one that does not giving [None]; the
    bytes of the end mark that are left; and whether it still writes, has closed
    the pipe, or has exited without closing it. The bytes in the pipe, the
    threads, and what they have printed. *)
Inductive writer := Writes | Closed | Gone.

Record pipe_state := PipeState {
  entries : list (option Z);
  marks : nat;
  disp : writer;
  fd0 : list Z;
  readers : list reader;
  printed : list (nat * Z);
}.

(** [memcpy] of what [read] returns over the first bytes of [buf]. *)
Definition overwrite (bs : list Z) (buf : list (option Z)) : list (option Z) :=
  (Some <$> bs) ++ drop (length bs) buf.

(** [buf == 0]; with a byte that has never been written either answer is
    possible. *)
Definition buf_zero (buf : list (option Z)) (b : bool) : Prop :=
  match mapM id buf with
  | Some bs => b = bool_decide (bytes_int bs = 0)
  | None => True
  end.

(** What a thread does after [read] has given it [bs], which is not empty. *)
Inductive after_read (i : nat) (buf : list (option Z)) (bs : list Z) :
    reader → list (nat * Z) → Prop :=
  | read_int : length bs = 4%nat →
      after_read i buf bs (Loops (overwrite bs buf)) [(i, bytes_int bs)]
  | read_mark : length bs = 1%nat → buf_zero (overwrite bs buf) true →
      after_read i buf bs Left []
  | read_other : length bs ≠ 4%nat →
      (length bs = 1%nat → buf_zero (overwrite bs buf) false) →
      after_read i buf bs (Loops (overwrite bs buf)) [].

(** ** Steps *)

Section steps.
(** The number of bytes the pipe has room for. *)
Context (room : nat).

Inductive pipe_step : pipe_state → pipe_state → Prop :=
  (** [write(fd0[1], &fd, sizeof(int))]: at once, since it is short. *)
  | pipe_write s fd es :
      entries s = Some fd :: es → (length (fd0 s) + 4 ≤ room)%nat →
      pipe_step s (PipeState es (marks s) (disp s) (fd0 s ++ int_bytes fd) (readers s) (printed s))
  (** [open] fails: the thread exits, and leaves the pipe open. *)
  | pipe_open_fails s es :
      entries s = None :: es →
      pipe_step s (PipeState [] 0 Gone (fd0 s) (readers s) (printed s))
  (** [write(fd0[1], "\0", 1)]. *)
  | pipe_mark s n :
      entries s = [] → marks s = S n → (length (fd0 s) + 1 ≤ room)%nat →
      pipe_step s (PipeState [] n (disp s) (fd0 s ++ [0]) (readers s) (printed s))
  (** [close(fd0[1])]. *)
  | pipe_close s :
      entries s = [] → marks s = 0%nat → disp s = Writes →
      pipe_step s (PipeState [] 0 Closed (fd0 s) (readers s) (printed s))
  (** [read] takes up to four bytes. *)
  | pipe_read s i buf r out :
      readers s !! i = Some (Loops buf) → fd0 s ≠ [] →
      after_read i buf (take 4 (fd0 s)) r out →
      pipe_step s (PipeState (entries s) (marks s) (disp s) (drop 4 (fd0 s))
        (<[i := r]> (readers s)) (printed s ++ out))
  (** [read] returns 0. *)
  | pipe_eof s i buf :
      readers s !! i = Some (Loops buf) → fd0 s = [] → disp s = Closed →
      pipe_step s (PipeState (entries s) (marks s) Closed [] (<[i := Left]> (readers s)) (printed s)).

Inductive pipe_steps : nat → pipe_state → pipe_state → Prop :=
  | pipe_steps_refl s : pipe_steps 0 s s
  | pipe_steps_l n s1 s2 s3 : pipe_step s1 s2 → pipe_steps n s2 s3 → pipe_steps (S n) s1 s3.
End steps.

(** [main]: [n] threads that read, [buf] of each not initialised. *)
Definition pipe_initial (es : list (option Z)) (n : nat) : pipe_state :=
  PipeState es 2 Writes [] (replicate n (Loops (replicate 4 None))) [].

(** Every thread has returned. *)
Definition pipe_final (s : pipe_state) : Prop :=
  entries s = [] ∧ marks s = 0%nat ∧ disp s = Closed ∧ Forall (λ r, r = Left) (readers s).

(** ** The bytes in the pipe *)

Lemma int_bytes_length x : length (int_bytes x) = 4%nat.
Proof. pose proof (length_Z_to_little_endian 4 8 x). unfold int_bytes. lia. Qed.

Lemma bytes_int_bytes x : 0 ≤ x < 2 ^ 31 → bytes_int (int_bytes x) = x.
Proof.
  intros Hx. unfold bytes_int, int_bytes. rewrite little_endian_to_Z_to_little_endian by lia.
  apply Z.mod_small. lia.
Qed.

(** The pipe holds the descriptors [fds] and then [z] bytes of the end mark. *)
Definition pipe_bytes (fds : list Z) (z : nat) : list Z := mjoin (int_bytes <$> fds) ++ replicate z 0.

Lemma pipe_bytes_cons fd fds z : pipe_bytes (fd :: fds) z = int_bytes fd ++ pipe_bytes fds z.
Proof. unfold pipe_bytes. by rewrite (assoc_L (++)). Qed.

Lemma pipe_bytes_int fd fds z :
  take 4 (pipe_bytes (fd :: fds) z) = int_bytes fd ∧ drop 4 (pipe_bytes (fd :: fds) z) = pipe_bytes fds z.
Proof.
  rewrite pipe_bytes_cons. split.
  - apply take_app_length'. by rewrite int_bytes_length.
  - apply drop_app_length'. by rewrite int_bytes_length.
Qed.

Lemma pipe_bytes_length fds z : length (pipe_bytes fds z) = (4 * length fds + z)%nat.
Proof.
  induction fds as [|fd fds IH]; [apply length_replicate|].
  rewrite pipe_bytes_cons, length_app, int_bytes_length, IH. cbn [length]. lia.
Qed.

Lemma pipe_bytes_snoc fds fd : pipe_bytes fds 0 ++ int_bytes fd = pipe_bytes (fds ++ [fd]) 0.
Proof.
  unfold pipe_bytes. cbn [replicate]. rewrite !app_nil_r, fmap_app, join_app. cbn. by rewrite app_nil_r.
Qed.

Lemma pipe_bytes_mark fds z : pipe_bytes fds z ++ [0] = pipe_bytes fds (S z).
Proof. unfold pipe_bytes. by rewrite replicate_S_end, (assoc_L (++)). Qed.

(** ** Invariant *)

(** The descriptors [fds] have been printed in their order, or are in the pipe,
    or are still to be written; the end mark comes after all of them, and a
    thread leaves only then. *)
Record pipe_inv (fds : list Z) (s : pipe_state) : Prop := {
  pi_flow : ∃ mid z todo, fd0 s = pipe_bytes mid z ∧ entries s = Some <$> todo ∧
    fds = (printed s).*2 ++ mid ++ todo ∧ (z + marks s ≤ 2)%nat ∧
    (todo ≠ [] → z = 0%nat ∧ marks s = 2%nat) ∧ (Left ∈ readers s → mid = [] ∧ todo = []);
  pi_closed : disp s = Closed → entries s = [] ∧ marks s = 0%nat;
  pi_here : disp s ≠ Gone;
}.

Lemma pipe_inv_step fds room s s' :
  Forall (λ x, 0 ≤ x < 2 ^ 31) fds → pipe_inv fds s → pipe_step room s s' → pipe_inv fds s'.
Proof.
  intros Hfds [(mid & z & todo & Hb & He & Hf & Hz & Hm & Hl) Hc Hg] Hs.
  destruct Hs as [s fd es Hes Hroom|s es Hes|s n Hes Hn Hroom|s Hes Hn Hd|s i buf r out Hi Hne Hr
                 |s i buf Hi Hb0 Hd]; cbn in *.
  - destruct todo as [|x todo]; [by rewrite Hes in He|]. rewrite He in Hes.
    injection Hes as -> <-. destruct Hm as [-> Hm]; [done|]. constructor; cbn; [| |done].
    + exists (mid ++ [fd]), 0%nat, todo. split_and!; [by rewrite Hb, pipe_bytes_snoc|done| |lia|done|].
      * by rewrite Hf, <-(assoc_L (++) mid).
      * by intros [_ ?]%Hl.
    + intros Hd. destruct (Hc Hd) as [He' _]. by rewrite He in He'.
  - by destruct todo; rewrite Hes in He.
  - destruct todo; [|by rewrite Hes in He]. constructor; cbn; [| |done].
    + exists mid, (S z), []. split_and!; [by rewrite Hb, pipe_bytes_mark|done|done|lia|done|done].
    + intros Hd. destruct (Hc Hd). lia.
  - destruct todo; [|by rewrite Hes in He]. constructor; cbn; [|done|done].
    exists mid, z, []. split_and!; try done. lia.
  - destruct mid as [|fd mid].
    + assert (length (take 4 (fd0 s)) ≤ 2)%nat as Hle.
      { rewrite length_take, Hb, pipe_bytes_length. cbn [length]. lia. }
      assert (out = [] ∧ drop 4 (fd0 s) = [] ∧ fd0 s = replicate z 0 ∧ todo = []) as (-> & Hdr & Hz0 & ->).
      { rewrite Hb. split_and!; [inversion Hr; [exfalso; lia|done..]| |done|].
        - apply drop_ge. rewrite pipe_bytes_length. cbn [length]. lia.
        - destruct todo as [|x todo]; [done|]. destruct Hm as [-> _]; [done|]. by rewrite Hb in Hne. }
      constructor; cbn; [|done|done]. exists [], 0%nat, []. rewrite Hdr, (app_nil_r (printed s)).
      split_and!; try done. lia.
    + destruct (pipe_bytes_int fd mid z) as [Htk Hdr]. rewrite Hb in *. rewrite Htk in Hr. rewrite Hdr.
      pose proof (int_bytes_length fd) as Hlen.
      assert (r = Loops (overwrite (int_bytes fd) buf) ∧ out = [(i, bytes_int (int_bytes fd))])
        as [-> ->] by (inversion Hr; [done|exfalso; lia..]).
      assert (bytes_int (int_bytes fd) = fd) as ->.
      { apply bytes_int_bytes. rewrite Hf in Hfds. apply Forall_app in Hfds as [_ Hfds].
        by apply Forall_inv in Hfds. }
      constructor; cbn; [|done|done]. exists mid, z, todo. split_and!; [done|done| |done|done|].
      * by rewrite Hf, fmap_app, <-(assoc_L (++)).
      * intros [j Hj]%list_elem_of_lookup. apply list_lookup_insert_Some in Hj as [(_ & ? & _)|[_ Hj]];
          [done|]. destruct Hl as [? _]; [by eapply list_elem_of_lookup_2|done].
  - destruct (Hc Hd) as [He0 Hm0]. rewrite He in He0. destruct todo; [|done].
    destruct mid as [|fd mid].
    2: { exfalso. rewrite Hb0 in Hb. apply (f_equal length) in Hb. rewrite pipe_bytes_length in Hb.
         cbn in Hb. lia. }
    constructor; cbn; [|done|done]. exists [], 0%nat, []. split_and!; try done. lia.
Qed.

Lemma pipe_inv_initial fds n : pipe_inv fds (pipe_initial (Some <$> fds) n).
Proof.
  constructor; [|done|done]. exists [], 0%nat, fds. split_and!; try done.
  intros [j [? _]%lookup_replicate]%list_elem_of_lookup. done.
Qed.

Lemma pipe_inv_steps fds room k s s' :
  Forall (λ x, 0 ≤ x < 2 ^ 31) fds → pipe_inv fds s → pipe_steps room k s s' → pipe_inv fds s'.
Proof. intros Hfds Hi Hs. induction Hs; [done|]. eauto using pipe_inv_step. Qed.

(** ** Termination and progress *)

Definition reader_work (r : reader) : nat := match r with Loops _ => 1 | Left => 0 end.

(** What every step makes smaller. *)
Definition pipe_measure (s : pipe_state) : nat :=
  5 * length (entries s) + 2 * marks s + length (fd0 s) + sum_list_with reader_work (readers s) +
  match disp s with Writes => 1 | _ => 0 end.

Lemma sum_list_insert {A} (f : A → nat) l i x y :
  l !! i = Some x → (sum_list_with f (<[i := y]> l) + f x = sum_list_with f l + f y)%nat.
Proof.
  revert i. induction l as [|z l IH]; intros [|i] Hi; simplify_eq/=; [lia|].
  specialize (IH i Hi). lia.
Qed.

Lemma pipe_step_measure room s s' : pipe_step room s s' → (pipe_measure s' < pipe_measure s)%nat.
Proof.
  unfold pipe_measure. intros Hs.
  destruct Hs as [s fd es Hes Hroom|s es Hes|s n Hes Hn Hroom|s Hes Hn Hd|s i buf r out Hi Hne Hr
                 |s i buf Hi Hb0 Hd]; cbn [entries marks fd0 readers disp].
  - rewrite length_app, int_bytes_length, Hes. cbn [length]. lia.
  - rewrite Hes. cbn [length]. destruct (disp s); lia.
  - rewrite length_app, Hn. cbn [length]. lia.
  - rewrite Hes, Hn, Hd. lia.
  - pose proof (sum_list_insert reader_work _ _ _ r Hi) as E. cbn [reader_work] in E.
    assert (reader_work r ≤ 1)%nat by (destruct r; cbn; lia).
    rewrite length_drop. destruct (fd0 s) as [|b bs]; [done|]. cbn [length]. lia.
  - pose proof (sum_list_insert reader_work _ _ _ Left Hi) as E. cbn [reader_work] in E.
    rewrite Hb0, Hd. cbn [length]. lia.
Qed.

Lemma pipe_steps_measure room k s s' :
  pipe_steps room k s s' → (k + pipe_measure s' ≤ pipe_measure s)%nat.
Proof. induction 1 as [|n s1 s2 s3 H%pipe_step_measure]; lia. Qed.

Lemma pipe_steps_readers room k s s' :
  pipe_steps room k s s' → length (readers s') = length (readers s).
Proof.
  induction 1 as [|n s1 s2 s3 H]; [done|]. etrans; [done|].
  destruct H; cbn; by rewrite ?length_insert.
Qed.

Lemma after_read_total i buf bs : ∃ r out, after_read i buf bs r out.
Proof.
  destruct (decide (length bs = 4%nat)); [by eexists _, _; apply read_int|].
  destruct (decide (length bs = 1%nat)).
  2: { eexists _, _. by apply read_other. }
  destruct (mapM id (overwrite bs buf)) as [zs|] eqn:E.
  - destruct (bool_decide (bytes_int zs = 0)) eqn:Ez.
    + eexists _, _. apply read_mark; [done|]. unfold buf_zero. by rewrite E.
    + eexists _, _. apply read_other; [done|]. intros _. unfold buf_zero. by rewrite E.
  - eexists _, _. apply read_mark; [done|]. unfold buf_zero. by rewrite E.
Qed.

(** A thread that has not left can read when there is something to read. *)
Lemma pipe_can_read room s i r :
  readers s !! i = Some r → r ≠ Left → fd0 s ≠ [] → ∃ s', pipe_step room s s'.
Proof.
  intros Hi Hr Hne. destruct r as [buf|]; [|done].
  destruct (after_read_total i buf (take 4 (fd0 s))) as (r & out & Hafter).
  eexists. by eapply pipe_read.
Qed.

Lemma pipe_progress fds room s :
  pipe_inv fds s → (4 ≤ room)%nat → (0 < length (readers s))%nat →
  (pipe_final s ∧ (printed s).*2 = fds) ∨ ∃ s', pipe_step room s s'.
Proof.
  intros [(mid & z & todo & Hb & He & Hf & Hz & Hm & Hl) Hc Hg] Hroom Hn.
  destruct (lookup_lt_is_Some_2 (readers s) 0 Hn) as [r0 Hr0].
  assert ((mid ≠ [] ∨ todo ≠ []) → fd0 s ≠ [] → ∃ s', pipe_step room s s') as Hread.
  { intros Hsome Hne. eapply (pipe_can_read _ _ 0); [done| |done]. intros ->.
    destruct Hl as [-> ->]; [by eapply list_elem_of_lookup_2|]. by destruct Hsome. }
  destruct todo as [|x todo].
  - destruct (marks s) as [|m] eqn:Em.
    + destruct (disp s) eqn:Ed; [by right; eexists; apply pipe_close| |done].
      destruct (decide (Forall (λ r, r = Left) (readers s))) as [Hall|Hnot].
      * left. rewrite Forall_lookup in Hall.
        destruct Hl as [-> _]; [rewrite <-(Hall 0%nat r0 Hr0); by eapply list_elem_of_lookup_2|].
        split; [|by rewrite Hf, !app_nil_r]. split_and!; [done|done|done|by apply Forall_lookup].
      * right. apply (not_Forall_Exists _), Exists_exists in Hnot as (r & [i Hi]%list_elem_of_lookup & Hr).
        destruct (decide (fd0 s = [])) as [E|]; [|by eapply pipe_can_read].
        destruct r as [buf|]; [|by destruct Hr]. eexists. eapply (pipe_eof _ _ i buf); done.
    + right. destruct (decide (length (fd0 s) + 1 ≤ room)%nat); [by eexists; eapply pipe_mark|].
      apply Hread; [left; intros ->|by intros E; rewrite E in *; cbn in *; lia].
      rewrite Hb, pipe_bytes_length in *. cbn in *. lia.
  - right. destruct (decide (length (fd0 s) + 4 ≤ room)%nat).
    + eexists. by eapply pipe_write.
    + apply Hread; [by right|]. intros E. rewrite E in *. cbn in *. lia.
Qed.

(** C16: The two threads (or any number) share the descriptors without a lock: when
    every regular file opens, each descriptor that was written is read whole,
    once, in the order in which it was written; whatever the interleaving, no
    run is longer than a bound known in advance, and it can only stop when all
    the threads have left and every descriptor has been printed. *)
Theorem pipe_protocol fds room n k s :
  Forall (λ x, 0 ≤ x < 2 ^ 31) fds → (4 ≤ room)%nat → (0 < n)%nat →
  pipe_steps room k (pipe_initial (Some <$> fds) n) s →
  (k ≤ 5 * length fds + n + 5)%nat ∧ (printed s).*2 `prefix_of` fds ∧
  ((pipe_final s ∧ (printed s).*2 = fds) ∨ ∃ s', pipe_step room s s').
Proof.
  intros Hfds Hroom Hn Hs.
  pose proof (pipe_inv_steps _ _ _ _ _ Hfds (pipe_inv_initial fds n) Hs) as Hi. split_and!.
  - apply pipe_steps_measure in Hs.
    assert (pipe_measure (pipe_initial (Some <$> fds) n) = 5 * length fds + n + 5)%nat as E; [|lia].
    unfold pipe_measure, pipe_initial. cbn [entries marks fd0 readers disp length].
    rewrite length_fmap.
    assert (∀ b, sum_list_with reader_work (replicate n (Loops b)) = n) as ->; [|lia].
    intros b. clear. induction n as [|n IH]; [done|]. cbn. by rewrite IH.
  - destruct Hi as [(mid & z & todo & _ & _ & -> & _)]. by eexists.
  - eapply pipe_progress; [done|done|]. rewrite (pipe_steps_readers _ _ _ _ Hs). cbn.
    by rewrite length_replicate.
Qed.

(** Two files and two threads: one descriptor is read by the second thread,
    and the other one is still in the pipe. *)
Lemma pipe_protocol_witness :
  ∃ s, pipe_steps 8 3 (pipe_initial (Some <$> [5; 300]) 2) s ∧ (printed s).*2 = [5] ∧
    (3 ≤ 5 * 2 + 2 + 5)%nat ∧ ∃ s', pipe_step 8 s s'.
Proof.
  assert (∃ s, pipe_steps 8 3 (pipe_initial (Some <$> [5; 300]) 2) s ∧ (printed s).*2 = [5] ∧
    fd0 s ≠ []) as (s & Hs & Hp & Hne).
  { eexists. split_and!.
    - eapply pipe_steps_l; [eapply (pipe_write _ _ 5); [done|vm_compute; lia]|].
      eapply pipe_steps_l; [eapply (pipe_write _ _ 300); [done|vm_compute; lia]|].
      eapply pipe_steps_l; [|apply pipe_steps_refl].
      eapply (pipe_read _ _ 1); [done|done|by apply read_int].
    - done.
    - done. }
  destruct (pipe_protocol [5; 300] 8 2 3 s) as (Hk & _ & Hend);
    [by apply (bool_decide_unpack _)|lia|lia|done|].
  exists s. split_and!; [done|done|exact Hk|].
  destruct Hend as [[_ E]|]; [by rewrite Hp in E|done].
Defined.

(** When a file does not open, the dispatcher exits and the pipe stays open:
    the threads are never told to leave. *)
Lemma pipe_open_failure es room n k s :
  None ∈ es → pipe_steps room k (pipe_initial es n) s → ¬ pipe_final s.
Proof.
  intros Hnone Hs.
  assert (∀ s1 s2 k, (None ∈ entries s1 ∧ disp s1 = Writes ∨ disp s1 = Gone) →
    pipe_steps room k s1 s2 → None ∈ entries s2 ∧ disp s2 = Writes ∨ disp s2 = Gone) as Hinv.
  { clear. intros s1 s2 k H0 Hs. induction Hs as [|n s1 s2 s3 H _ IH]; [done|]. apply IH. clear IH.
    destruct H as [s fd es Hes _|s es Hes|s m Hes _ _|s Hes _ Hd|s i buf r out _ _ _|s i buf _ _ Hd];
      cbn; try (by right); destruct H0 as [[Hin Hw]|Hg]; rewrite ?Hes in *; try set_solver; eauto;
      congruence. }
  destruct (Hinv (pipe_initial es n) s k (or_introl (conj Hnone eq_refl)) Hs) as [[_ Hw]|Hg]; intros (_ & _ & Hd & _);
    congruence.
Qed.
