(* ===== verification/ReadDir.v ===== *)
(** The other dispatcher ([dispatcher_thread] of [src/thread.c] when
    [ENABLE_FTS] is not defined): it reads one directory with [readdir] and
    returns at the first regular file that does not open. *)

From S2P Require Import Prelude CInt Heap Trie TrieSpec WordSet Magic File Dispatcher.
Local Open Scope nat_scope.

(** ** Operations *)

(** [snprintf(fullpath, sizeof(fullpath), "%s/%s", ".", entry->d_name)]. *)
Definition fullpath (d_name : list byte) : list byte := take 511 (bytes_of "./" ++ d_name).

Section readdir.
Context {S P F : Type} `{!WordSet S P F}.
(** What [lstat] says of a path: whether it is a regular file. *)
Context (e : fs) (lstat_reg : list byte → bool).

(** One entry; true when the function returns from within the loop. *)
Definition read_entry (d_name : list byte) : M (dstate S P) bool :=
  if lstat_reg (fullpath d_name) then
    r ← on_proc (open_file e (fullpath d_name));
    match r with
    | None => mret true
    | Some n =>
        b ← on_det (magic_scan (fs_stack e (fullpath d_name))
                      (read16 (fs_content e (fullpath d_name))));
        if (b : bool) then on_proc (close n);; mret false
        else
          on_proc (dup_name d_name);;
          write_pipe (FileInfo n d_name None 0);;
          mret false
    end
  else mret false.

(** [while ((entry = readdir(d)) != NULL)]. *)
Fixpoint readdir_loop (names : list (list byte)) : M (dstate S P) bool :=
  match names with
  | [] => mret false
  | d_name :: names' =>
      stop ← read_entry d_name;
      if (stop : bool) then mret true else readdir_loop names'
  end.

(** [dispatcher_thread]; [dir] holds the names that [readdir] returns, or is
    [None] when [opendir] fails. *)
Definition dispatcher_readdir (dir : option (list (list byte))) : M (dstate S P) unit :=
  on_det magic_init;;
  match dir with
  | None => on_proc (print (bytes_of "opendir failed" ++ [x0a]))
  | Some names =>
      stop ← readdir_loop names;
      if (stop : bool) then mret tt
      else close_pipe;; on_det magic_fini
  end.

(** ** Reference definitions *)

(** The entry is not a regular file that does not open. *)
Definition opens (d_name : list byte) : bool :=
  negb (lstat_reg (fullpath d_name)) || fs_open e (fullpath d_name).

(** A record is sent for the entry, once it has opened. *)
Definition forwarded (d_name : list byte) : Prop :=
  lstat_reg (fullpath d_name) = true ∧ sent e (fullpath d_name).

#[export] Instance forwarded_dec d_name : Decision (forwarded d_name).
Proof. unfold forwarded. apply _. Defined.

(** The entries before the first one that makes the function return. *)
Fixpoint reached (names : list (list byte)) : list (list byte) :=
  match names with
  | [] => []
  | d_name :: names' => if opens d_name then d_name :: reached names' else []
  end.
End readdir.

(** ** What the loop does *)

Section spec.
Context {S P F : Type} `{WordSetLaws S P F}.
Context (e : fs) (He : fs_law e) (f : F) (lstat_reg : list byte → bool).

(** A new record extends what has been sent. *)
Lemma sends_one (s : dstate S P) n d_name :
  n ∉ open_fds (d_proc s) →
  sends s [d_name] (DState
    (Proc ({[n]} ∪ open_fds (d_proc s)) (mappings (d_proc s)) (d_name :: live_names (d_proc s))
       (stdout (d_proc s)))
    (d_det s) (d_pipe s ++ [FileInfo n d_name None 0%Z]) (d_open s)).
Proof.
  intros Hn. split; try done. exists [FileInfo n d_name None 0%Z]. split_and!; try done.
  - rewrite fmap_cons, fmap_nil, list_to_set_cons, list_to_set_nil. cbn [fd d_proc open_fds].
    by rewrite (right_id_L ∅ (∪)), (comm_L (∪)).
  - apply list.NoDup_singleton.
  - by apply Forall_singleton.
Qed.

Lemma wp_read_entry d_name s :
  magic_ready f magic_words (d_det s) →
  wp (read_entry e lstat_reg d_name) (λ b s', b = negb (opens e lstat_reg d_name) ∧
    sends s (filter (forwarded e lstat_reg) [d_name]) s') s.
Proof.
  intros Hready. destruct He as [Hpick Hstack].
  unfold read_entry, opens. rewrite list.filter_cons, list.filter_nil.
  destruct (lstat_reg (fullpath d_name)) eqn:Hreg.
  2:{ apply wp_ret. rewrite decide_False by (intros [? _]; congruence). split; [done|apply sends_refl]. }
  apply wp_bind, wp_on_proc. unfold wp at 1, open_file.
  destruct (fs_open e (fullpath d_name)) eqn:Hopen; cbn [yields fst snd].
  2:{ rewrite decide_False by (intros [_ [? _]]; congruence). apply wp_ret. destruct s.
      split; [done|apply sends_refl]. }
  set (n := fs_pick e (open_fds (d_proc s))).
  assert (n ∉ open_fds (d_proc s)) as Hn by apply Hpick.
  apply wp_bind, wp_on_det. cbn [d_det]. eapply wp_mono.
  { apply (wp_magic_scan f magic_words); [done|done|]. unfold read16. rewrite length_take. lia. }
  intros b d [-> Hb]. rewrite binary_words in Hb. fold (header e (fullpath d_name)) in Hb. destruct b.
  - rewrite decide_False by (intros (_ & _ & Hx); by apply Hx, Hb).
    apply wp_bind, wp_on_proc, wp_close, wp_ret.
    cbn [d_proc open_fds mappings live_names stdout d_det d_pipe d_open].
    assert (({[n]} ∪ open_fds (d_proc s)) ∖ {[n]} = open_fds (d_proc s)) as -> by (clear -Hn; set_solver).
    destruct s as [[] ? ? ?]. split; [done|apply sends_refl].
  - rewrite decide_True by (split; [done|split; [done|]]; intros Hx; by apply Hb in Hx).
    exact (conj eq_refl (sends_one s n d_name Hn)).
Qed.

Lemma wp_readdir_loop names s :
  magic_ready f magic_words (d_det s) →
  wp (readdir_loop e lstat_reg names) (λ b s',
    b = negb (forallb (opens e lstat_reg) names) ∧
    sends s (filter (forwarded e lstat_reg) (reached e lstat_reg names)) s') s.
Proof.
  revert s. induction names as [|d_name names IH]; intros s Hready.
  { apply wp_ret. split; [done|apply sends_refl]. }
  cbn [readdir_loop reached forallb].
  apply wp_bind. eapply wp_mono; [by apply wp_read_entry|]. intros b s1 [-> Hs1].
  destruct (opens e lstat_reg d_name) eqn:Ho; cbn [negb andb].
  - eapply wp_mono; [apply IH; by rewrite (sends_det _ _ _ Hs1)|].
    intros b s2 [-> Hs2]. split; [done|].
    change (d_name :: reached e lstat_reg names) with ([d_name] ++ reached e lstat_reg names).
    rewrite list.filter_app. by eapply sends_trans.
  - apply wp_ret. split; [done|]. rewrite list.filter_cons, decide_False in Hs1; [done|].
    intros [Hr [Hx _]]. unfold opens in Ho. by rewrite Hr, Hx in Ho.
Qed.
End spec.

(** ** The property *)

(** C20: The dispatcher without [fts] sends a record, under the name of the entry, for
    each regular file of the directory that does not look binary
    and comes before the first one that does not open. If all of them open it
    closes the pipe and gives the detector's memory back; if one does not, it
    returns with the pipe open, so that the workers wait for ever, and with the
    detector's memory still allocated. *)
Theorem readdir_sends {S P F} `{WordSetLaws S P F} (e : fs) (f : F) lstat_reg names (s : dstate S P) :
  fs_law e → tr (d_det s) = None → ws_frame f (mem (d_det s)) →
  magic_room ≤ ws_room (mem (d_det s)) → d_pipe s = [] → d_open s = true →
  wp (dispatcher_readdir e lstat_reg (Some names)) (λ _ s',
    filename <$> d_pipe s' = filter (forwarded e lstat_reg) (reached e lstat_reg names) ∧
    NoDup (fd <$> d_pipe s') ∧
    open_fds (d_proc s') = open_fds (d_proc s) ∪ list_to_set (fd <$> d_pipe s') ∧
    (d_open s' = false ↔ ∀ n, n ∈ names → lstat_reg (fullpath n) = true → fs_open e (fullpath n) = true) ∧
    (if d_open s' then magic_ready f magic_words (d_det s') else ws_frame f (mem (d_det s')))) s.
Proof.
  intros He Htr Hf Hroom Hpipe Hopen. unfold dispatcher_readdir.
  apply wp_bind, wp_on_det. eapply wp_mono; [by apply wp_magic_init|].
  intros [] d Hready. apply wp_bind.
  eapply wp_mono; [by apply (wp_readdir_loop e He f)|].
  intros b s1 [-> [D O R N (fis & Q & E & X & U & A)]]. cbn [d_det d_pipe d_proc d_open] in *.
  rewrite Hpipe in Q. cbn [app] in Q. subst fis. rewrite Hopen in O.
  assert (forallb (opens e lstat_reg) names = true ↔
    ∀ n, n ∈ names → lstat_reg (fullpath n) = true → fs_open e (fullpath n) = true) as Hall.
  { rewrite forallb_forall. setoid_rewrite <-list_elem_of_In. unfold opens.
    setoid_rewrite orb_true_iff. setoid_rewrite negb_true_iff.
    split; intros HA n Hn; specialize (HA n Hn); destruct (lstat_reg (fullpath n)); naive_solver. }
  destruct (forallb (opens e lstat_reg) names); cbn [negb].
  - apply wp_bind. unfold wp at 1, close_pipe. cbn [yields fst snd].
    apply wp_on_det. cbn [d_det]. eapply wp_mono; [eapply wp_magic_fini; by rewrite D|].
    intros [] d' [Hframe _]. cbn [d_det d_open d_pipe d_proc]. split_and!; try done. tauto.
  - apply wp_ret. rewrite O. split_and!; try done; [|by rewrite D].
    split; [done|]. intros ?%Hall. done.
Qed.

(** The directory of [sample_tree], and another where [secret] does not open. *)
Definition sample_names : list (list byte) :=
  [bytes_of "."; bytes_of "a.c"; bytes_of "b.png"; bytes_of "secret"; bytes_of "z.c"].
Definition sample_reg (path : list byte) : bool := negb (bool_decide (path = bytes_of "./.")).
Definition locked_fs : fs :=
  Fs (λ path, negb (bool_decide (path = bytes_of "./secret")))
     (fs_pick sample_fs) (fs_content sample_fs) (fs_stack sample_fs).

Lemma readdir_sends_witness :
  wp (dispatcher_readdir locked_fs sample_reg (Some sample_names)) (λ _ s',
    filename <$> d_pipe s' = [bytes_of "a.c"] ∧ d_open s' = true) sample_dstate.
Proof.
  eapply wp_mono; [refine (readdir_sends locked_fs (∅ : gmap loc trie_cell) sample_reg sample_names
    sample_dstate _ eq_refl fresh_detector_frame fresh_detector_room eq_refl eq_refl)|].
  - split; [intros X; apply is_fresh|done].
  - intros [] s' (Hp & _ & _ & Ho & _). split; [rewrite Hp; by vm_compute|].
    destruct (d_open s'); [done|]. exfalso.
    assert (bytes_of "secret" ∈ sample_names) as Hin by (apply (bool_decide_unpack _); by vm_compute).
    pose proof (proj1 Ho eq_refl _ Hin eq_refl) as Hx. vm_compute in Hx. discriminate Hx.
Defined.
