(* ===== verification/Trie16.v ===== *)
(** The earlier prefix tree of [src/snippets/trie.c]: words of hexadecimal
    digits given as [int]s, nodes with 16 children. It implements a set of
    words; every block of the tree is described by the word that leads to it. *)

From S2P Require Import Prelude CInt Heap.
Local Open Scope Z_scope.

(** ** Data *)

Definition MAX_CHILDREN : nat := 16.

(** [struct trie]; [isleaf] is only ever 0 or 1. *)
Record trie_node := TrieNode { isleaf : bool; children : list ptr }.

(** A block that [malloc] returned holds [None] until [memset] clears it. *)
Abbreviation trie_cell := (option trie_node).
Abbreviation theap := (heap trie_cell).

Definition zero_node : trie_node := TrieNode false (replicate MAX_CHILDREN None).

Definition load_node (p : ptr) : M theap trie_node :=
  c ← load p;
  match c with Some n => mret n | None => fail Uninitialised end.

Definition store_node (p : ptr) (n : trie_node) : M theap unit := store p (Some n).

(** ** Operations *)

(** [trie_init(&root)]: the new value of [*root], which is also returned. *)
Definition trie_init (root : ptr) : M theap ptr :=
  match root with
  | None => p ← malloc None; store_node p zero_node;; mret p
  | Some _ => mret root
  end.

(** [node->children[idx]]: the index is not tested. *)
Definition child (node : ptr) (idx : Z) : M theap ptr :=
  n ← load_node node;
  lift (rd (children n) idx).

(** [node->children[idx] = c]. *)
Definition set_child (node : ptr) (idx : Z) (c : ptr) : M theap unit :=
  n ← load_node node;
  cs ← lift (wr (children n) idx c);
  store_node node (TrieNode (isleaf n) cs).

(** The loop of [trie_insert], from [node] and position [i]; [size - i]
    iterations are left. *)
Fixpoint insert_loop (n : nat) (node : ptr) (hex : list Z) (i : Z) : M theap ptr :=
  match n with
  | O => mret node
  | S n' =>
      idx ← lift (rd hex i);
      c ← child node idx;
      (match c with
       | None => c' ← trie_init c; set_child node idx c'
       | Some _ => mret tt
       end);;
      node' ← child node idx;
      insert_loop n' node' hex (i + 1)
  end.

(** [assert(hex != NULL)] cannot fail for an array. *)
Definition trie_insert (root : ptr) (hex : list Z) (size : Z) : M theap ptr :=
  lift (check (bool_decide (0 < size)) AssertionFailed);;
  node ← insert_loop (Z.to_nat size) root hex 0;
  n ← load_node node;
  store_node node (TrieNode true (children n));;
  n ← load_node node;
  mret (if isleaf n then node else None).

(** The loop of [trie_lookup]: [None] when it returns NULL from within. *)
Fixpoint lookup_loop (n : nat) (node : ptr) (hex : list Z) (i : Z) : M theap (option ptr) :=
  match n with
  | O => mret (Some node)
  | S n' =>
      idx ← lift (rd hex i);
      c ← child node idx;
      match c with
      | None => mret None
      | Some _ => node' ← child node idx; lookup_loop n' node' hex (i + 1)
      end
  end.

Definition trie_lookup (root : ptr) (hex : list Z) (size : Z) : M theap ptr :=
  lift (check (bool_decide (is_Some root) && bool_decide (0 < size)) AssertionFailed);;
  r ← lookup_loop (Z.to_nat size) root hex 0;
  match r with
  | None => mret None
  | Some node => n ← load_node node; mret (if isleaf n then node else None)
  end.

(** The loop over the children in [trie_destroy], with [n] of them left. *)
Fixpoint destroy_children (rec : ptr → M theap unit) (root : ptr) (n : nat) (i : Z)
    : M theap unit :=
  match n with
  | O => mret tt
  | S n' =>
      c ← child root i;
      (match c with
       | Some _ => c' ← child root i; rec c'
       | None => mret tt
       end);;
      destroy_children rec root n' (i + 1)
  end.

(** [fuel] bounds the depth of the recursion. *)
Fixpoint trie_destroy (fuel : nat) (root : ptr) : M theap unit :=
  match fuel with
  | O => fail OutOfFuel
  | S fuel' => destroy_children (trie_destroy fuel') root MAX_CHILDREN 0;; free root
  end.

(** ** The tree in the heap *)

(** [P] gives the word that leads to each block of the tree; [K] is the set of
    words it holds and [F] the heap beside it. *)
Record tree (F : gmap loc trie_cell) (P : gmap loc (list Z)) (K : gset (list Z)) (root : loc)
    (h : theap) : Prop := {
  tree_heap : heap_ok h;
  tree_root : P !! root = Some [];
  tree_inj l1 l2 w : P !! l1 = Some w → P !! l2 = Some w → l1 = l2;
  tree_node l w : P !! l = Some w → ∃ n, cells h !! l = Some (Some n) ∧
    length (children n) = MAX_CHILDREN ∧ (isleaf n = true ↔ w ∈ K) ∧
    ∀ i l', children n !! i = Some (Some l') ↔ P !! l' = Some (w ++ [Z.of_nat i]);
  tree_frame l : F !! l = match P !! l with Some _ => None | None => cells h !! l end;
  tree_parent l w d : P !! l = Some (w ++ [d]) → 0 ≤ d < 16 ∧ ∃ l', P !! l' = Some w;
  tree_word w : w ∈ K → ∃ l, P !! l = Some w;
}.

(** A digit indexes the children. *)
Abbreviation digit d := (0 ≤ d < 16).

Lemma snoc_inj (w1 w2 : list Z) d1 d2 : w1 ++ [d1] = w2 ++ [d2] → w1 = w2 ∧ d1 = d2.
Proof. intros H. by apply app_inj_2 in H as [-> [= ->]]. Qed.

Lemma wp_load_node l n Q h : cells h !! l = Some (Some n) → Q n h → wp (load_node (Some l)) Q h.
Proof. intros Hl HQ. apply wp_bind. by eapply wp_load. Qed.

Section tree.
Context (F : gmap loc trie_cell) (K : gset (list Z)) (root : loc).
Implicit Types (P : gmap loc (list Z)) (h : theap).

Lemma tree_child P h l w n d :
  tree F P K root h → P !! l = Some w → cells h !! l = Some (Some n) → digit d →
  ∃ c, children n !! Z.to_nat d = Some c ∧ ∀ l', c = Some l' ↔ P !! l' = Some (w ++ [d]).
Proof.
  intros HT Hl Hn Hd. destruct (tree_node _ _ _ _ _ HT l w Hl) as (n' & Hn' & Hlen & _ & Hch).
  rewrite Hn in Hn'. injection Hn' as <-.
  destruct (lookup_lt_is_Some_2 (children n) (Z.to_nat d)) as [c Hc];
    [rewrite Hlen; unfold MAX_CHILDREN; lia|].
  exists c. split; [done|]. intros l'. specialize (Hch (Z.to_nat d) l').
  rewrite Z2Nat.id, Hc in Hch by lia. rewrite <-Hch. naive_solver.
Qed.

Lemma wp_child P h l w d Q :
  tree F P K root h → P !! l = Some w → digit d →
  (∀ c, (∀ l', c = Some l' ↔ P !! l' = Some (w ++ [d])) → Q c h) → wp (child (Some l) d) Q h.
Proof.
  intros HT Hl Hd HQ. destruct (tree_node _ _ _ _ _ HT l w Hl) as (n & Hn & _).
  destruct (tree_child P h l w n d HT Hl Hn Hd) as (c & Hc & Hpath).
  apply wp_bind. eapply wp_load_node; [done|]. apply wp_lift.
  rewrite (rd_Some _ _ c) by (done || lia). by apply HQ.
Qed.

(** The nodes when a new block [p] has been linked to [l]. *)
Lemma link_node P h l w d p n h' :
  tree F P K root h → P !! l = Some w → cells h !! l = Some (Some n) → digit d →
  (∀ l', P !! l' ≠ Some (w ++ [d])) → P !! p = None → l ≠ p →
  cells h' = <[l := Some (TrieNode (isleaf n) (<[Z.to_nat d := Some p]> (children n)))]>
    (<[p := Some zero_node]> (cells h)) →
  ∀ x u, <[p := w ++ [d]]> P !! x = Some u → ∃ m, cells h' !! x = Some (Some m) ∧
    length (children m) = MAX_CHILDREN ∧ (isleaf m = true ↔ u ∈ K) ∧
    ∀ i l', children m !! i = Some (Some l') ↔ <[p := w ++ [d]]> P !! l' = Some (u ++ [Z.of_nat i]).
Proof.
  intros HT Hl Hn Hd Hnew HPp Hne Hc x u Hx.
  destruct (tree_node _ _ _ _ _ HT l w Hl) as (n' & Hn' & Hlen & Hleaf & Hch).
  rewrite Hn in Hn'. injection Hn' as <-.
  apply lookup_insert_Some in Hx as [[<- <-]|[Hxp Hx]].
  { exists zero_node. rewrite Hc, lookup_insert_ne, lookup_insert_eq by done.
    split_and!; [done|done| |].
    - split; [done|]. intros Hin. by destruct (tree_word _ _ _ _ _ HT _ Hin) as [x ?%Hnew].
    - intros i l'. split; [intros [? _]%lookup_replicate; done|].
      intros [[_ E]|[_ H']]%lookup_insert_Some.
      + apply (f_equal length) in E. rewrite !length_app in E. cbn in E. lia.
      + by destruct (tree_parent _ _ _ _ _ HT _ _ _ H') as [_ [x ?%Hnew]]. }
  destruct (decide (x = l)) as [->|Hxl].
  - assert (u = w) as -> by congruence. eexists. rewrite Hc, lookup_insert_eq.
    split; [done|]. cbn [children isleaf]. rewrite length_insert. split_and!; [done|done|].
    intros i l'. destruct (decide (i = Z.to_nat d)) as [->|Hi].
    + rewrite list_lookup_insert_eq, Z2Nat.id by (rewrite ?Hlen; unfold MAX_CHILDREN; lia). split.
      * intros [= <-]. apply lookup_insert_eq.
      * intros [[-> _]|[_ H']]%lookup_insert_Some; [done|by apply Hnew in H'].
    + rewrite list_lookup_insert_ne, Hch, lookup_insert_Some by done. split; [|naive_solver lia].
      intros H'. right. split; [|done]. intros ->. congruence.
  - destruct (tree_node _ _ _ _ _ HT x u Hx) as (m & Hm & Hlm & Hlf & Hcm). exists m.
    rewrite Hc, !lookup_insert_ne by congruence. split_and!; [done..|].
    intros i l'. rewrite Hcm, lookup_insert_Some. split.
    + intros H'. right. split; [|done]. intros ->. congruence.
    + intros [[_ [-> _]%snoc_inj]|[_ ?]]; [|done]. by destruct Hxl; eapply (tree_inj _ _ _ _ _ HT).
Qed.

Lemma tree_link P h l w d p n h' :
  tree F P K root h → P !! l = Some w → cells h !! l = Some (Some n) → digit d →
  (∀ l', P !! l' ≠ Some (w ++ [d])) → P !! p = None → l ≠ p → F !! p = None → heap_ok h' →
  cells h' = <[l := Some (TrieNode (isleaf n) (<[Z.to_nat d := Some p]> (children n)))]>
    (<[p := Some zero_node]> (cells h)) →
  tree F (<[p := w ++ [d]]> P) K root h'.
Proof.
  intros HT Hl Hn Hd Hnew HPp Hne HFp Hok Hc. constructor.
  - done.
  - destruct (decide (root = p)) as [->|]; [by rewrite (tree_root _ _ _ _ _ HT) in HPp|].
    rewrite lookup_insert_ne by done. by apply (tree_root _ _ _ _ _ HT).
  - intros l1 l2 u H1 H2. apply lookup_insert_Some in H1, H2.
    destruct H1 as [[<- <-]|[_ H1]], H2 as [[<- ?]|[_ H2]]; simplify_eq; try done.
    + by destruct (Hnew l2).
    + by destruct (Hnew l1).
    + by eapply (tree_inj _ _ _ _ _ HT).
  - by eapply link_node.
  - intros x. rewrite Hc. destruct (decide (x = p)) as [->|Hxp]; [by rewrite lookup_insert_eq|].
    rewrite lookup_insert_ne, (tree_frame _ _ _ _ _ HT) by done.
    destruct (P !! x) eqn:E; [done|]. by rewrite !lookup_insert_ne by congruence.
  - intros x u e [[_ [-> ->]%snoc_inj]|[_ Hx]]%lookup_insert_Some.
    + split; [done|]. exists l. by rewrite lookup_insert_ne.
    + destruct (tree_parent _ _ _ _ _ HT _ _ _ Hx) as [He [x' Hx']]. split; [done|]. exists x'.
      rewrite lookup_insert_ne; congruence.
  - intros u Hu. destruct (tree_word _ _ _ _ _ HT u Hu) as [x Hx]. exists x.
    rewrite lookup_insert_ne; congruence.
Qed.

(** A block that is not allocated is neither in the tree nor in the frame. *)
Lemma tree_fresh P h p : tree F P K root h → cells h !! p = None → P !! p = None ∧ F !! p = None.
Proof.
  intros HT Hp. assert (P !! p = None) as HPp.
  { destruct (P !! p) as [u|] eqn:E; [|done].
    destruct (tree_node _ _ _ _ _ HT p u E) as (m & Hm & _). congruence. }
  split; [done|]. by rewrite (tree_frame _ _ _ _ _ HT), HPp.
Qed.

(** A child that is not there yet is allocated and linked. *)
Lemma wp_link16 P h l w d k :
  tree F P K root h → P !! l = Some w → digit d → (∀ l', P !! l' ≠ Some (w ++ [d])) →
  avail h = S k →
  wp (c' ← trie_init None; set_child (Some l) d c')
    (λ _ h', ∃ p, tree F (<[p := w ++ [d]]> P) K root h' ∧ P !! p = None ∧ avail h' = k) h.
Proof.
  intros HT Hl Hd Hnew Hav. pose proof (tree_heap _ _ _ _ _ HT) as Hok.
  destruct (tree_node _ _ _ _ _ HT l w Hl) as (n & Hn & Hlen & _).
  apply wp_bind. cbn [trie_init]. apply wp_bind. eapply wp_malloc; [done..|].
  intros p h1 Hp Hc1 Ha1 Hok1. apply wp_bind.
  eapply wp_store; [done|by rewrite Hc1, lookup_insert_eq|]. intros h2 Hc2 Ha2 Hok2. apply wp_ret.
  rewrite Hc1, insert_insert_eq in Hc2.
  assert (l ≠ p) as Hne by (intros ->; congruence).
  assert (cells h2 !! l = Some (Some n)) as Hl2 by (by rewrite Hc2, lookup_insert_ne).
  apply wp_bind. eapply wp_load_node; [done|]. apply wp_bind, wp_lift.
  assert (Z.to_nat d < length (children n))%nat as Hlt by (rewrite Hlen; unfold MAX_CHILDREN; lia).
  rewrite <-(Z2Nat.id d) at 1 by lia. rewrite wr_nat by done. cbn [yields].
  eapply wp_store; [done|by rewrite Hl2|]. intros h3 Hc3 Ha3 Hok3. rewrite Hc2 in Hc3.
  destruct (tree_fresh P h p HT Hp). exists p. split; [by eapply tree_link|]. split; congruence.
Qed.

(** ** The operations *)

(** [hex] holds the word [w] after [pre]. *)
Lemma rd_word (pre w post : list Z) d : rd (pre ++ (d :: w) ++ post) (Z.of_nat (length pre)) = Ok d.
Proof. apply rd_nat. by rewrite lookup_app_r, Nat.sub_diag by lia. Qed.

Lemma snoc_position (pre : list Z) d : Z.of_nat (length pre) + 1 = Z.of_nat (length (pre ++ [d])).
Proof. rewrite length_app. cbn. lia. Qed.

(** The paths of the tree grow by the word that is followed, and by as many
    blocks as memory has lost. *)
Lemma wp_insert_loop post w : ∀ P h l pre,
  tree F P K root h → P !! l = Some pre → Forall (λ d, digit d) w → (length w ≤ avail h)%nat →
  wp (insert_loop (length w) (Some l) (pre ++ w ++ post) (Z.of_nat (length pre)))
    (λ r h', ∃ P' l', r = Some l' ∧ tree F P' K root h' ∧ P' !! l' = Some (pre ++ w) ∧
      (avail h ≤ avail h' + length w)%nat ∧
      (∀ x u, P' !! x = Some u → P !! x = Some u ∨ u `prefix_of` pre ++ w)) h.
Proof.
  induction w as [|d w IH]; intros P h l pre HT Hl Hw Hav.
  { apply wp_ret. exists P, l. rewrite app_nil_r. split_and!; eauto with lia. }
  apply Forall_cons_iff in Hw as [Hd Hw]. cbn [length] in Hav. cbn [length insert_loop].
  apply wp_bind, wp_lift. rewrite rd_word. apply wp_bind. eapply wp_child; [done..|]. intros c Hc.
  apply wp_bind. eapply (wp_mono _ (λ _ h1, ∃ P1 l1, tree F P1 K root h1 ∧ P1 !! l = Some pre ∧
    P1 !! l1 = Some (pre ++ [d]) ∧ (length w ≤ avail h1)%nat ∧ (avail h ≤ S (avail h1))%nat ∧
    (∀ x u, P1 !! x = Some u → P !! x = Some u ∨ u = pre ++ [d]))).
  { destruct c as [l1|].
    - apply wp_ret. exists P, l1. split_and!; [done|done|by apply Hc|lia|lia|by auto].
    - destruct (avail h) as [|k] eqn:Ek; [lia|].
      eapply wp_mono; [apply (wp_link16 P h l pre d k); [done..|by intros l' ?%Hc|done]|].
      intros _ h1 (p & HT1 & Hp & Ha). exists (<[p := pre ++ [d]]> P), p.
      split_and!; [done| |apply lookup_insert_eq|lia|lia|].
      + rewrite lookup_insert_ne; congruence.
      + intros x u [[_ <-]|[_ ?]]%lookup_insert_Some; auto. }
  intros _ h1 (P1 & l1 & HT1 & Hl0 & Hl1 & Hav1 & Hle & Hold). apply wp_bind.
  eapply wp_child; [exact HT1|exact Hl0|done|]. intros c1 Hc1.
  assert (c1 = Some l1) as -> by (by apply Hc1).
  specialize (IH P1 h1 l1 (pre ++ [d]) HT1 Hl1 Hw Hav1).
  rewrite <-snoc_position, <-(assoc_L (++)) in IH. eapply wp_mono; [exact IH|].
  intros r h2 (P2 & l2 & -> & HT2 & Hl2 & Hle2 & Hold2). exists P2, l2.
  rewrite <-(assoc_L (++)) in Hl2, Hold2. split_and!; [done|done|done|lia|].
  intros x u [[?| ->]%Hold|?]%Hold2; [by left| |by right].
  right. exists w. by rewrite <-(assoc_L (++)).
Qed.

(** Every prefix of a path is the path of a block. *)
Lemma tree_prefix P h l w v : tree F P K root h → P !! l = Some (w ++ v) → ∃ l', P !! l' = Some w.
Proof.
  intros HT. revert l. induction v as [|d v IH] using rev_ind; intros l Hl.
  { rewrite app_nil_r in Hl. by exists l. }
  rewrite (assoc_L (++)) in Hl. destruct (tree_parent _ _ _ _ _ HT _ _ _ Hl) as [_ [l' Hl']]. eauto.
Qed.

Lemma wp_lookup_loop post w : ∀ P h l pre,
  tree F P K root h → P !! l = Some pre → Forall (λ d, digit d) w →
  wp (lookup_loop (length w) (Some l) (pre ++ w ++ post) (Z.of_nat (length pre)))
    (λ r h', h' = h ∧ match r with
      | Some p => ∃ l', p = Some l' ∧ P !! l' = Some (pre ++ w)
      | None => ∀ l', P !! l' ≠ Some (pre ++ w)
      end) h.
Proof.
  induction w as [|d w IH]; intros P h l pre HT Hl Hw.
  { apply wp_ret. rewrite app_nil_r. split; [done|]. by exists l. }
  apply Forall_cons_iff in Hw as [Hd Hw]. cbn [length lookup_loop].
  apply wp_bind, wp_lift. rewrite rd_word. apply wp_bind. eapply wp_child; [done..|]. intros c Hc.
  destruct c as [l1|].
  - apply wp_bind. eapply wp_child; [done..|]. intros c1 Hc1.
    assert (P !! l1 = Some (pre ++ [d])) as Hl1 by by apply Hc.
    assert (c1 = Some l1) as -> by by apply Hc1.
    specialize (IH P h l1 (pre ++ [d]) HT Hl1 Hw).
    rewrite <-snoc_position, <-(assoc_L (++)) in IH. eapply wp_mono; [exact IH|].
    intros r h' [-> Hr]. by rewrite <-(assoc_L (++)) in Hr.
  - apply wp_ret. split; [done|]. intros l' Hl'.
    change (pre ++ d :: w) with (pre ++ [d] ++ w) in Hl'. rewrite (assoc_L (++)) in Hl'.
    destruct (tree_prefix _ _ _ _ _ HT Hl') as [x Hx]. by apply Hc in Hx.
Qed.

Lemma wp_trie_lookup16 P h w post :
  tree F P K root h → w ≠ [] → Forall (λ d, digit d) w →
  wp (trie_lookup (Some root) (w ++ post) (Z.of_nat (length w)))
    (λ r h', h' = h ∧ (is_Some r ↔ w ∈ K)) h.
Proof.
  intros HT Hne Hw. unfold trie_lookup. apply wp_bind, wp_lift.
  assert (0 < length w)%nat by (destruct w; [done|cbn; lia]).
  rewrite (bool_decide_true (is_Some (Some root))), (bool_decide_true (0 < _)) by (done || lia).
  cbn [check andb yields]. apply wp_bind. rewrite Nat2Z.id. change 0 with (Z.of_nat (length (@nil Z))).
  eapply wp_mono; [apply (wp_lookup_loop post w P h root []); [done|by apply (tree_root _ _ _ _ _ HT)|done]|].
  intros r h' [-> Hr]. cbn [app] in Hr. destruct r as [p|].
  - destruct Hr as (l' & -> & Hl'). destruct (tree_node _ _ _ _ _ HT _ _ Hl') as (n & Hn & _ & Hleaf & _).
    apply wp_bind. eapply wp_load_node; [done|]. apply wp_ret. split; [done|].
    rewrite <-Hleaf. destruct (isleaf n); split; try done; by intros [].
  - apply wp_ret. split; [done|]. split; [by intros []|].
    intros [l Hl]%(tree_word _ _ _ _ _ HT). by destruct (Hr l).
Qed.
End tree.

(** Setting [isleaf] adds the word of the block to the set. *)
Lemma tree_mark F P K root h l w n h' :
  tree F P K root h → P !! l = Some w → cells h !! l = Some (Some n) → heap_ok h' →
  cells h' = <[l := Some (TrieNode true (children n))]> (cells h) →
  tree F P ({[w]} ∪ K) root h'.
Proof.
  intros HT Hl Hn Hok Hc.
  constructor; [done|by apply (tree_root _ _ _ _ _ HT)|by apply (tree_inj _ _ _ _ _ HT)| |
                |by apply (tree_parent _ _ _ _ _ HT)|].
  - intros x u Hx. destruct (tree_node _ _ _ _ _ HT x u Hx) as (m & Hm & Hlm & Hlf & Hcm).
    rewrite Hc. destruct (decide (x = l)) as [->|Hxl].
    + rewrite lookup_insert_eq. eexists. split; [done|]. cbn [children isleaf].
      assert (n = m) as -> by congruence. split_and!; [done| |done].
      assert (u = w) as -> by congruence. set_solver.
    + rewrite lookup_insert_ne by done. exists m. split_and!; [done..| |done].
      rewrite Hlf, elem_of_union, elem_of_singleton. split; [by right|]. intros [->|?]; [|done].
      by destruct Hxl; eapply (tree_inj _ _ _ _ _ HT).
  - intros x. rewrite Hc, (tree_frame _ _ _ _ _ HT). destruct (P !! x) eqn:E; [done|].
    rewrite lookup_insert_ne; congruence.
  - intros u [->%elem_of_singleton|Hu]%elem_of_union; [by exists l|by apply (tree_word _ _ _ _ _ HT)].
Qed.

Lemma wp_trie_insert16 F K root P h w post :
  tree F P K root h → w ≠ [] → Forall (λ d, digit d) w → (length w ≤ avail h)%nat →
  wp (trie_insert (Some root) (w ++ post) (Z.of_nat (length w)))
    (λ r h', is_Some r ∧ (avail h ≤ avail h' + length w)%nat ∧ ∃ P', tree F P' ({[w]} ∪ K) root h' ∧
      ∀ x u, P' !! x = Some u → P !! x = Some u ∨ u `prefix_of` w) h.
Proof.
  intros HT Hne Hw Hav. unfold trie_insert. apply wp_bind, wp_lift.
  assert (0 < length w)%nat by (destruct w; [done|cbn; lia]).
  rewrite bool_decide_true by lia. cbn [check yields].
  apply wp_bind. rewrite Nat2Z.id. change 0 with (Z.of_nat (length (@nil Z))).
  eapply wp_mono; [apply (wp_insert_loop F K root post w P h root []);
    [done|by apply (tree_root _ _ _ _ _ HT)|done|done]|].
  intros r h1 (P' & l & -> & HT' & Hl & Hav' & Hold). cbn [app] in Hl, Hold.
  destruct (tree_node _ _ _ _ _ HT' _ _ Hl) as (n & Hn & _).
  apply wp_bind. eapply wp_load_node; [done|]. apply wp_bind.
  eapply wp_store; [by apply (tree_heap _ _ _ _ _ HT')|by rewrite Hn|]. intros h2 Hc2 Ha2 Hok2.
  apply wp_bind. eapply wp_load_node; [by rewrite Hc2, lookup_insert_eq|]. apply wp_ret.
  split_and!; [by eexists|lia|]. exists P'. split; [by eapply tree_mark|done].
Qed.

(** ** Destruction *)

(** The blocks in [X] are gone and the others are as they were. *)
Record removed (X : loc → Prop) (h h' : theap) : Prop := {
  removed_heap : heap_ok h';
  removed_dead x : cells h !! x = None → cells h' !! x = None;
  removed_in x : X x → cells h' !! x = None;
  removed_out x : ¬ X x → cells h' !! x = cells h !! x;
}.

Lemma removed_trans X Y Z h1 h2 h3 :
  removed X h1 h2 → removed Y h2 h3 → (∀ x, Z x ↔ X x ∨ Y x) → removed Z h1 h3.
Proof.
  intros [K1 D1 I1 O1] [K2 D2 I2 O2] HZ. constructor; [done|by auto| |].
  - intros x [?|?]%HZ; auto.
  - intros x Hx. rewrite O2, O1; [done|..]; intros ?; apply Hx, HZ; auto.
Qed.

Section destroy.
Context (F : gmap loc trie_cell) (P : gmap loc (list Z)) (K : gset (list Z)) (root : loc) (h0 : theap).
Hypothesis HT : tree F P K root h0.

(** The block is reached by a word that extends [w]. *)
Definition under (w : list Z) (x : loc) : Prop := ∃ u, P !! x = Some (w ++ u).

(** The blocks below [w] are those of the children, and the block itself. *)
Lemma under_children w l x :
  P !! l = Some w →
  under w x ↔ (∃ j, (0 ≤ j < MAX_CHILDREN)%nat ∧ under (w ++ [Z.of_nat j]) x) ∨ x = l.
Proof using HT.
  intros Hl. split.
  - intros [[|d u] Hx]; [right|left].
    + rewrite app_nil_r in Hx. by eapply (tree_inj _ _ _ _ _ HT).
    + change (w ++ d :: u) with (w ++ [d] ++ u) in Hx. rewrite (assoc_L (++)) in Hx.
      destruct (tree_prefix _ _ _ _ _ _ _ _ HT Hx) as [c Hc].
      destruct (tree_parent _ _ _ _ _ HT _ _ _ Hc) as [Hd _].
      exists (Z.to_nat d). split; [unfold MAX_CHILDREN; lia|]. exists u. by rewrite Z2Nat.id by lia.
  - intros [(j & _ & u & Hx)| ->]; [|by exists []; rewrite app_nil_r].
    exists (Z.of_nat j :: u). by rewrite Hx, <-(assoc_L (++)).
Qed.

(** The blocks below a child are not the parent, nor below another child. *)
Lemma under_self w l d : P !! l = Some w → ¬ under (w ++ [d]) l.
Proof.
  intros Hl [u Hu]. rewrite Hl in Hu. injection Hu as Hu. apply (f_equal length) in Hu.
  rewrite !length_app in Hu. cbn in Hu. lia.
Qed.

Lemma under_disjoint w d1 d2 x : under (w ++ [d1]) x → under (w ++ [d2]) x → d1 = d2.
Proof.
  intros [u1 H1] [u2 H2]. rewrite H1 in H2. injection H2 as H2.
  rewrite <-!(assoc_L (++)) in H2. by apply app_inv_head in H2 as [= -> _].
Qed.

Lemma wp_child_at (l : loc) n (i : nat) c Q (h : theap) :
  cells h !! l = Some (Some n) → children n !! i = Some c → Q c h →
  wp (child (Some l) (Z.of_nat i)) Q h.
Proof.
  intros Hn Hc HQ. apply wp_bind. eapply wp_load_node; [done|]. apply wp_lift. by rewrite (rd_nat _ _ _ Hc).
Qed.

Section children.
Context (rec : ptr → M theap unit) (l : loc) (w : list Z).
Hypothesis Hl : P !! l = Some w.
Hypothesis Hrec : ∀ (i : nat) c h, P !! c = Some (w ++ [Z.of_nat i]) → heap_ok h →
  (∀ x, under (w ++ [Z.of_nat i]) x → cells h !! x = cells h0 !! x) →
  wp (rec (Some c)) (λ _ h', removed (under (w ++ [Z.of_nat i])) h h') h.

Lemma wp_destroy_children16 n : ∀ (i : nat) h,
  (i + n = MAX_CHILDREN)%nat → heap_ok h → cells h !! l = cells h0 !! l →
  (∀ j x, (i ≤ j)%nat → under (w ++ [Z.of_nat j]) x → cells h !! x = cells h0 !! x) →
  wp (destroy_children rec (Some l) n (Z.of_nat i)) (λ _ h',
    removed (λ x, ∃ j, (i ≤ j < MAX_CHILDREN)%nat ∧ under (w ++ [Z.of_nat j]) x) h h') h.
Proof using HT Hl Hrec.
  destruct (tree_node _ _ _ _ _ HT l w Hl) as (nd & Hnd & Hlen & _ & Hch).
  induction n as [|n IH]; intros i h Hi Hok Hl0 Hsame.
  { apply wp_ret. constructor; [done|done| |done]. intros x (j & Hj & _). lia. }
  cbn [destroy_children]. rewrite Hnd in Hl0.
  destruct (lookup_lt_is_Some_2 (children nd) i) as [c Hc]; [lia|].
  apply wp_bind. eapply wp_child_at; [done..|]. apply wp_bind.
  eapply (wp_mono _ (λ _ h1, removed (under (w ++ [Z.of_nat i])) h h1)).
  - destruct c as [c|].
    + apply wp_bind. eapply wp_child_at; [done..|]. apply Hrec; [by apply Hch|done|].
      intros x Hx. by eapply Hsame.
    + apply wp_ret. constructor; [done|done| |done]. intros x [u Hx].
      destruct (tree_prefix _ _ _ _ _ _ _ _ HT Hx) as [c Hc']. apply Hch in Hc'. congruence.
  - intros _ h1 Hr. replace (Z.of_nat i + 1) with (Z.of_nat (S i)) by lia.
    eapply wp_mono; [apply IH; [lia|by apply (removed_heap _ _ _ Hr)| |]|].
    + rewrite (removed_out _ _ _ Hr), Hl0, Hnd by by apply under_self. done.
    + intros j x Hj Hx. rewrite (removed_out _ _ _ Hr); [by eapply (Hsame j); [lia|]|].
      intros Hx'. pose proof (under_disjoint _ _ _ _ Hx Hx'). lia.
    + intros [] h2 Hr2. eapply removed_trans; [exact Hr|exact Hr2|]. intros x. split.
      * intros (j & Hj & Hx). destruct (decide (i = j)) as [<-|]; [by left|right].
        exists j. split; [lia|done].
      * intros [Hx|(j & Hj & Hx)]; [exists i|exists j]; (split; [lia|done]).
Qed.
End children.

Lemma wp_trie_destroy16 fuel : ∀ l w h,
  P !! l = Some w → heap_ok h → (∀ x, under w x → cells h !! x = cells h0 !! x) →
  (∀ x u, P !! x = Some (w ++ u) → (length u < fuel)%nat) →
  wp (trie_destroy fuel (Some l)) (λ _ h', removed (under w) h h') h.
Proof using HT.
  induction fuel as [|fuel IH]; intros l w h Hl Hok Hsame Hdepth.
  { specialize (Hdepth l []). rewrite app_nil_r in Hdepth. apply Hdepth in Hl. lia. }
  cbn [trie_destroy]. apply wp_bind. eapply wp_mono.
  { apply (wp_destroy_children16 (trie_destroy fuel) l w Hl) with (i := 0%nat); [|done|done| |].
    - intros i c h1 Hc Hok1 Hsame1. apply IH; [done..|]. intros x u Hx.
      rewrite <-(assoc_L (++)) in Hx. apply Hdepth in Hx. cbn in Hx. lia.
    - apply Hsame. exists []. by rewrite app_nil_r.
    - intros j x _ [u Hx]. apply Hsame. exists (Z.of_nat j :: u). by rewrite Hx, <-(assoc_L (++)). }
  intros [] h1 Hr. destruct (tree_node _ _ _ _ _ HT l w Hl) as (nd & Hnd & _).
  assert (cells h1 !! l = Some (Some nd)) as Hl1.
  { rewrite (removed_out _ _ _ Hr); [rewrite Hsame; [done|exists []; by rewrite app_nil_r]|].
    intros (j & _ & Hj). by apply under_self in Hj. }
  eapply wp_free; [by apply (removed_heap _ _ _ Hr)|by rewrite Hl1|]. intros h2 Hc2 Ha2 Hok2.
  apply (removed_trans _ (λ x, x = l) _ _ h1 _ Hr).
  - constructor; [done|intros x; rewrite Hc2, lookup_delete_None; by auto| |].
    + intros x ->. by rewrite Hc2, lookup_delete_eq.
    + intros x Hx. by rewrite Hc2, lookup_delete_ne.
  - intros x. rewrite (under_children w l x Hl). naive_solver.
Qed.
End destroy.

(** ** Sessions *)

Inductive trie_op := Insert (w : list Z) | Lookup (w : list Z).

Definition op_word (o : trie_op) : list Z := match o with Insert w | Lookup w => w end.

(** A call and whether its result is not NULL. *)
Definition run_op (root : ptr) (o : trie_op) : M theap bool :=
  r ← match o with
      | Insert w => trie_insert root w (Z.of_nat (length w))
      | Lookup w => trie_lookup root w (Z.of_nat (length w))
      end;
  mret (bool_decide (is_Some r)).

Fixpoint run_ops (root : ptr) (os : list trie_op) : M theap (list bool) :=
  match os with
  | [] => mret []
  | o :: os' => b ← run_op root o; bs ← run_ops root os'; mret (b :: bs)
  end.

(** From creation to destruction. *)
Definition trie_session (fuel : nat) (os : list trie_op) : M theap (list bool) :=
  root ← trie_init None;
  bs ← run_ops root os;
  trie_destroy fuel root;;
  mret bs.

(** The same on a set of words; [trie_insert] does not say whether the word was
    there. *)
Fixpoint set_ops (K : gset (list Z)) (os : list trie_op) : list bool :=
  match os with
  | [] => []
  | Insert w :: os' => true :: set_ops ({[w]} ∪ K) os'
  | Lookup w :: os' => bool_decide (w ∈ K) :: set_ops K os'
  end.

Definition op_cost (o : trie_op) : nat := match o with Insert w => length w | Lookup _ => 0 end.

Definition op_ok (fuel : nat) (o : trie_op) : Prop :=
  op_word o ≠ [] ∧ Forall (λ d, digit d) (op_word o) ∧ (length (op_word o) < fuel)%nat.

Lemma wp_trie_init h :
  heap_ok h → (0 < avail h)%nat →
  wp (trie_init None) (λ r h', ∃ p, r = Some p ∧ tree (cells h) {[p := []]} ∅ p h' ∧
    avail h = S (avail h')) h.
Proof.
  intros Hok Hav. destruct (avail h) as [|k] eqn:Ek; [lia|]. cbn [trie_init].
  apply wp_bind. eapply wp_malloc; [done..|]. intros p h1 Hp Hc1 Ha1 Hok1. apply wp_bind.
  eapply wp_store; [done|by rewrite Hc1, lookup_insert_eq|]. intros h2 Hc2 Ha2 Hok2. apply wp_ret.
  rewrite Hc1, insert_insert_eq in Hc2. exists p. split; [done|]. split; [|by rewrite Ha2, Ha1].
  constructor; [done|apply lookup_singleton_eq|..].
  - intros l1 l2 w [<- _]%lookup_singleton_Some [<- _]%lookup_singleton_Some. done.
  - intros l w [<- <-]%lookup_singleton_Some. exists zero_node. rewrite Hc2, lookup_insert_eq.
    split_and!; [done|done|by split|]. intros i l'. split.
    + by intros [? _]%lookup_replicate.
    + by intros [_ ?]%lookup_singleton_Some.
  - intros l. rewrite Hc2. destruct (decide (l = p)) as [->|].
    + by rewrite lookup_singleton_eq.
    + by rewrite lookup_singleton_ne, lookup_insert_ne by done.
  - intros l w d [_ E]%lookup_singleton_Some. by destruct w.
  - set_solver.
Qed.

Lemma run_ops_set F root fuel os : ∀ P K h,
  tree F P K root h → Forall (op_ok fuel) os → (sum_list_with op_cost os ≤ avail h)%nat →
  (∀ x u, P !! x = Some u → (length u < fuel)%nat) →
  wp (run_ops (Some root) os) (λ bs h', bs = set_ops K os ∧ ∃ P' K', tree F P' K' root h' ∧
    ∀ x u, P' !! x = Some u → (length u < fuel)%nat) h.
Proof.
  induction os as [|o os IH]; intros P K h HT Hos Hav Hdepth; [by apply wp_ret; eauto|].
  apply Forall_cons_iff in Hos as [(Hne & Hw & Hlen) Hos]. cbn [sum_list_with] in Hav.
  cbn [run_ops]. apply wp_bind. unfold run_op. apply wp_bind.
  destruct o as [w|w]; cbn [op_word op_cost] in *; rewrite <-(app_nil_r w) at 1.
  - eapply wp_mono; [apply (wp_trie_insert16 F K root P); [done..|lia]|].
    intros r h1 (Hr & Hav1 & P1 & HT1 & Hold). apply wp_ret, wp_bind.
    eapply wp_mono; [apply (IH P1 _ h1 HT1 Hos); [lia|]|].
    + intros x u [?|Hp]%Hold; [by eapply Hdepth|]. apply prefix_length in Hp. lia.
    + intros bs h2 [-> HT2]. apply wp_ret. split; [|done]. cbn [set_ops].
      by rewrite bool_decide_true.
  - eapply wp_mono; [by apply (wp_trie_lookup16 F K root P)|]. intros r h1 [-> Hr].
    apply wp_ret, wp_bind. eapply wp_mono; [apply (IH P K h HT Hos); [lia|done]|].
    intros bs h2 [-> HT2]. apply wp_ret. split; [|done]. cbn [set_ops].
    f_equal. by apply bool_decide_ext.
Qed.

(** C21: The earlier prefix tree, from [trie_init] to [trie_destroy], answers any
    sequence of insertions and lookups of non-empty words of digits as a set
    of words does, never leaves its memory, and gives all of it back. A
    recursion deeper than the longest word is enough for [trie_destroy]. *)
Theorem trie16_session h os fuel :
  heap_ok h → (0 < fuel)%nat → Forall (op_ok fuel) os → (sum_list_with op_cost os < avail h)%nat →
  wp (trie_session fuel os) (λ bs h', bs = set_ops ∅ os ∧ cells h' = cells h) h.
Proof.
  intros Hok Hfuel Hos Hav. unfold trie_session. apply wp_bind.
  eapply wp_mono; [apply wp_trie_init; [done|lia]|]. intros r h1 (p & -> & HT1 & Ha1).
  apply wp_bind. eapply wp_mono; [apply (run_ops_set _ _ fuel os _ _ h1 HT1 Hos); [lia|]|].
  { intros x u [_ <-]%lookup_singleton_Some. cbn. lia. }
  intros bs h2 (-> & P & K & HT2 & Hdepth). apply wp_bind.
  eapply wp_mono; [eapply (wp_trie_destroy16 _ P K p h2 HT2 fuel p [] h2);
    [by apply (tree_root _ _ _ _ _ HT2)|by apply (tree_heap _ _ _ _ _ HT2)|done|by apply Hdepth]|].
  intros [] h3 Hr. apply wp_ret. split; [done|]. apply map_eq. intros x.
  rewrite (tree_frame _ _ _ _ _ HT2). destruct (P !! x) as [u|] eqn:E.
  - apply (removed_in _ _ _ Hr). by exists u.
  - apply (removed_out _ _ _ Hr). intros [u Hu]. cbn in Hu. congruence.
Qed.

(** The words of the example at the end of the file. *)
Definition trie_trial : list trie_op :=
  [Insert [8; 15; 3]; Insert [7; 13; 15]; Insert [0; 0; 15];
   Lookup [8; 15; 3]; Lookup [7; 13; 15]; Lookup [0; 0; 15]; Lookup [13; 4; 0]].

Lemma trie16_session_witness :
  wp (trie_session 4 trie_trial) (λ bs h',
    bs = [true; true; true; true; true; true; false] ∧ cells h' = ∅) (Heap ∅ 1%positive 10).
Proof.
  eapply wp_mono; [apply (trie16_session (Heap ∅ 1%positive 10) trie_trial 4)|].
  - intros l [v Hv]. discriminate Hv.
  - lia.
  - repeat apply Forall_cons_2; try apply Forall_nil_2;
      (split; [done|split; [apply (bool_decide_unpack _); by vm_compute|cbn; lia]]).
  - vm_compute. lia.
  - intros bs h' [-> Hc]. split; [by vm_compute|exact Hc].
Defined.

(** A digit that is not one reads outside the node. *)
Lemma child_out_of_bounds F P K root h l w d :
  tree F P K root h → P !! l = Some w → ¬ digit d → child (Some l) d h = Fail OutOfBounds.
Proof.
  intros HT Hl Hd. destruct (tree_node _ _ _ _ _ HT l w Hl) as (n & Hn & Hlen & _).
  unfold child, load_node, load, mbind, M_bind, lift, mret, M_ret. rewrite Hn. unfold rd.
  case_bool_decide; [|done]. rewrite lookup_ge_None_2; [done|].
  rewrite Hlen. unfold MAX_CHILDREN. lia.
Qed.
