(* ===== verification/CheckBuffer.v ===== *)
(** [sf_check_buffer] of [src/main.c]: it polls the pipes of [result] and prints
    what comes out of the first one, through a buffer of its own. *)

From S2P Require Import Prelude CInt Block Buffer.
Local Open Scope Z_scope.

(** ** Data *)

(** What one call of [poll] gives: its result, the events of [fdset[0]], and
    what [read] would deliver: bytes, or [None] for -1. *)
Record poll_result := Poll {
  ret : Z;
  POLLIN : bool;
  POLLERR : bool;
  POLLHUP : bool;
  POLLNVAL : bool;
  delivered : option (list byte);
}.

(** The standard output: what has been printed, and whether the stream has been
    given an array whose block has ended. *)
Record stream := Stream { text : list (list byte); dangling : bool }.

(** [char result[256]] cleared by [memset], and after [read]. *)
Definition result_array (bs : option (list byte)) : list byte :=
  match bs with
  | Some bs => take 256 bs ++ replicate (256 - length bs) x00
  | None => replicate 256 x00
  end.

(** The text of a block used as a string. *)
Definition string_in (b : list byte) : outcome (list byte) := c_string (Some <$> b).

(** [setvbuf(stdout, buf, _IOFBF, sizeof(buf))]: the stream writes out what it
    holds, through the array it has. *)
Definition setvbuf : M stream unit :=
  s ← get; if dangling s then fail UseAfterFree else mret tt.

(** [printf("[%zu]%s\n", strlen(result), result)]. *)
Definition print_result (b : list byte) : M stream unit :=
  str ← lift (string_in b);
  s ← get;
  put (Stream (text s ++ [bytes_of "[" ++ decimal (Z.of_nat (length str)) ++ bytes_of "]" ++ str ++ [x0a]])
         (dangling s)).

(** The end of the block that declares [buf]. *)
Definition leave_block : M stream unit := s ← get; put (Stream (text s) true).

(** ** Operations *)

(** One iteration: [Some r] when the function returns [r]. *)
Definition check_once (p : poll_result) : M stream (option Z) :=
  if bool_decide (0 < ret p) then
    stop ← (if POLLIN p then
              let n := match delivered p with
                       | Some bs => Z.of_nat (Nat.min (length bs) 256)
                       | None => -1
                       end in
              if bool_decide (n = 0) then mret true
              else
                setvbuf;;
                print_result (result_array (delivered p));;
                leave_block;;
                mret false
            else mret false);
    if (stop : bool) then mret (Some 0)
    else mret (if POLLHUP p then Some (-1) else None)
  else if bool_decide (ret p = 0) then mret None
  else mret (Some (-1)).

(** [while (1)], over what the calls of [poll] give. *)
Fixpoint sf_check_buffer (polls : list poll_result) : M stream Z :=
  match polls with
  | [] => fail OutOfFuel
  | p :: polls' =>
      r ← check_once p;
      match r with
      | Some z => mret z
      | None => sf_check_buffer polls'
      end
  end.

(** ** What the loop does *)

(** An iteration that prints nothing and goes on. *)
Definition idle (p : poll_result) : Prop :=
  ret p = 0 ∨ 0 < ret p ∧ POLLIN p = false ∧ POLLHUP p = false.

(** An iteration that finds the bytes [bs] of a worker, which does not hang up. *)
Definition arrives (p : poll_result) (bs : list byte) : Prop :=
  0 < ret p ∧ POLLIN p = true ∧ POLLHUP p = false ∧ delivered p = Some bs ∧
  (0 < length bs < 256)%nat ∧ x00 ∉ bs.

Definition line_of (bs : list byte) : list byte :=
  bytes_of "[" ++ decimal (Z.of_nat (length bs)) ++ bytes_of "]" ++ bs ++ [x0a].

Lemma check_idle p s : idle p → check_once p s = Ok (None, s).
Proof.
  unfold check_once. intros [->|(Hr & Hi & Hh)]; [done|].
  rewrite bool_decide_true by done. by rewrite Hi, Hh.
Qed.

Lemma check_idles ps polls s :
  Forall idle ps → sf_check_buffer (ps ++ polls) s = sf_check_buffer polls s.
Proof.
  induction 1 as [|p ps Hp _ IH]; [done|]. cbn [app sf_check_buffer].
  unfold mbind at 1, M_bind at 1. by rewrite check_idle.
Qed.

Lemma string_in_zeros bs n : x00 ∉ bs → (0 < n)%nat → string_in (bs ++ replicate n x00) = Ok bs.
Proof.
  intros Hbs Hn. destruct n as [|n]; [lia|]. unfold string_in. rewrite fmap_app.
  by apply c_string_spec.
Qed.

(** The branch for [POLLIN], with [n > 0] or an error of [read]. *)
Lemma run_print b str s :
  string_in b = Ok str →
  (setvbuf;; print_result b;; leave_block;; mret false : M stream bool) s =
  if dangling s then Fail UseAfterFree
  else Ok (false, Stream (text s ++ [bytes_of "[" ++ decimal (Z.of_nat (length str)) ++ bytes_of "]" ++ str ++ [x0a]]) true).
Proof.
  intros Hb.
  assert (setvbuf s = if dangling s then Fail UseAfterFree else Ok (tt, s)) as Hv.
  { unfold setvbuf. rewrite (run_bind get _ s s s) by done. by destruct (dangling s). }
  destruct (dangling s) eqn:Ed; [by apply run_bind_fail|].
  rewrite (run_bind setvbuf _ s tt s) by done.
  assert (print_result b s = Ok (tt, Stream (text s ++ [bytes_of "[" ++
    decimal (Z.of_nat (length str)) ++ bytes_of "]" ++ str ++ [x0a]]) (dangling s))) as Hp.
  { unfold print_result. rewrite (run_bind (lift (string_in b)) _ s str s); [done|].
    unfold lift. by rewrite Hb. }
  by rewrite (run_bind _ _ _ _ _ Hp).
Qed.

Lemma check_arrives p bs s :
  arrives p bs →
  check_once p s = if dangling s then Fail UseAfterFree
                   else Ok (None, Stream (text s ++ [line_of bs]) true).
Proof.
  intros (Hr & Hi & Hh & Hd & Hlen & H0). unfold check_once.
  rewrite bool_decide_true by done. rewrite Hi, Hd. cbv zeta. rewrite bool_decide_false by lia.
  assert (string_in (result_array (Some bs)) = Ok bs) as Hs.
  { unfold result_array. rewrite take_ge by lia. apply string_in_zeros; [done|lia]. }
  pose proof (run_print _ _ s Hs) as Hp. destruct (dangling s).
  - by apply run_bind_fail.
  - erewrite run_bind; [|exact Hp]. by rewrite Hh.
Qed.

(** The other end has been closed: there is nothing to read. *)
Definition hangs_up (p : poll_result) : Prop := 0 < ret p ∧ POLLIN p = true ∧ delivered p = Some [].

(** The first text that arrives is printed with its length, and when nothing more
    comes the function returns 0. But the stream keeps the array it was given
    when the block that declares it has ended: the next text that arrives is
    printed through memory that no longer exists. A text that fills the array
    has no terminator, and is read past its end. *)
Lemma check_buffer_results ps p bs qs rest :
  Forall idle ps → arrives p bs → Forall idle qs →
  (∀ e, hangs_up e →
    sf_check_buffer (ps ++ p :: qs ++ e :: rest) (Stream [] false) = Ok (0, Stream [line_of bs] true)) ∧
  (∀ p' bs', arrives p' bs' →
    sf_check_buffer (ps ++ p :: qs ++ p' :: rest) (Stream [] false) = Fail UseAfterFree) ∧
  (∀ p' bs', 0 < ret p' → POLLIN p' = true → delivered p' = Some bs' → length bs' = 256%nat →
    x00 ∉ bs' → sf_check_buffer (ps ++ p' :: rest) (Stream [] false) = Fail OutOfBounds).
Proof.
  intros Hps Hp Hqs.
  assert (∀ tl, sf_check_buffer (ps ++ p :: qs ++ tl) (Stream [] false) =
    sf_check_buffer tl (Stream [line_of bs] true)) as Hfirst.
  { intros tl. rewrite check_idles by done. cbn [sf_check_buffer]. unfold mbind at 1, M_bind at 1.
    rewrite (check_arrives p bs) by done. cbn [dangling text app]. by apply check_idles. }
  split_and!.
  - intros e (Hr & Hi & Hd). rewrite Hfirst. cbn [sf_check_buffer]. unfold check_once.
    rewrite bool_decide_true by done. by rewrite Hi, Hd.
  - intros p' bs' Hp'. rewrite Hfirst. cbn [sf_check_buffer]. unfold mbind at 1, M_bind at 1.
    by rewrite (check_arrives p' bs').
  - intros p' bs' Hr Hi Hd Hlen H0. rewrite check_idles by done. cbn [sf_check_buffer].
    apply run_bind_fail. unfold check_once. rewrite bool_decide_true by done. rewrite Hi, Hd.
    cbv zeta. rewrite Hlen, bool_decide_false by done. apply run_bind_fail.
    rewrite (run_bind setvbuf _ _ tt (Stream [] false)) by done.
    apply run_bind_fail, run_bind_fail. unfold result_array, lift, string_in.
    rewrite Hlen, take_ge by lia. cbn [Nat.sub replicate]. rewrite app_nil_r.
    by rewrite c_string_none.
Qed.

Lemma check_buffer_results_witness :
  let more := Poll 1 true false false false (Some (bytes_of "a.c")) in
  let timeout := Poll 0 false false false false None in
  sf_check_buffer [timeout; more; timeout; Poll 1 true false true false (Some [])] (Stream [] false)
    = Ok (0, Stream [bytes_of "[3]a.c" ++ [x0a]] true) ∧
  sf_check_buffer [timeout; more; timeout; more] (Stream [] false) = Fail UseAfterFree.
Proof.
  intros more timeout.
  destruct (check_buffer_results [timeout] more (bytes_of "a.c") [timeout] []) as (H0 & H1 & _).
  - apply Forall_cons_2; [by left|apply Forall_nil_2].
  - split_and!; [done..|cbn; lia|cbn; lia|apply (bool_decide_unpack _); by vm_compute].
  - apply Forall_cons_2; [by left|apply Forall_nil_2].
  - split.
    + exact (H0 (Poll 1 true false true false (Some [])) (conj eq_refl (conj eq_refl eq_refl))).
    + apply (H1 more (bytes_of "a.c")).
      split_and!; [done..|cbn; lia|cbn; lia|apply (bool_decide_unpack _); by vm_compute].
Defined.
