(* ===== verification/MagicGen.v ===== *)
(** The generator of the magic table ([utils/gen_magic_header.pl]): it reads the
    definitions of [src/magic_defs] and the template [src/magic.c.tmpl] and
    writes [src/magic.c], whose table the detector uses. *)

From S2P Require Import Prelude CInt Match Buffer Magic.
From Stdlib Require Import Sorted.
Local Open Scope nat_scope.

(** ** Reading the definitions *)

(** [\s]. *)
Definition is_space (c : byte) : bool :=
  bool_decide (c ∈ [x20; x09; x0a; x0b; x0c; x0d]).

(** The longest prefix of characters that satisfy [p], and the rest. *)
Fixpoint span {A} (p : A → bool) (l : list A) : list A * list A :=
  match l with
  | [] => ([], [])
  | x :: l' => if p x then let r := span p l' in (x :: fst r, snd r) else ([], l)
  end.

Definition non_empty {A} (l : list A) : bool := match l with [] => false | _ => true end.

(** [/^((?:[^\/])\S+)\s+(\S+)\n$/] on a line: [$1] and [$2]. Each of the three
    runs is as long as it can be, since what follows it is of the other kind. *)
Definition match_line (line : list byte) : option (list byte * list byte) :=
  match line with
  | [] => None
  | c :: line' =>
      let w := span (negb ∘ is_space) line' in
      let s := span is_space (snd w) in
      let n := span (negb ∘ is_space) (snd s) in
      if negb (bool_decide (c = x2f)) && non_empty (fst w) && non_empty (fst s) && non_empty (fst n) &&
         bool_decide (snd n = [newline])
      then Some (c :: fst w, fst n) else None
  end.

(** [while (<MAGIC_DEFS>)]: a line that does not match leaves [$1] and [$2] as
    they were; before the first match they are undefined, which is printed, and
    used as a key, as the empty string. *)
Fixpoint resolve (lines : list (list byte)) (last : list byte * list byte)
    (magic_map : gmap (list byte) (list byte)) : gmap (list byte) (list byte) :=
  match lines with
  | [] => magic_map
  | line :: lines' =>
      let m := default last (match_line line) in
      resolve lines' m (<[fst m := snd m]> magic_map)
  end.

Definition read_defs (lines : list (list byte)) : gmap (list byte) (list byte) := resolve lines ([], []) ∅.

(** ** [sort keys %magic_map] *)

Definition byte_lt (a b : byte) : bool := u8 a <? u8 b.

Fixpoint bytes_le (a b : list byte) : bool :=
  match a, b with
  | [], _ => true
  | _ :: _, [] => false
  | x :: a', y :: b' => byte_lt x y || (bool_decide (x = y) && bytes_le a' b')
  end.

Fixpoint insert_key (k : list byte) (ks : list (list byte)) : list (list byte) :=
  match ks with
  | [] => [k]
  | k' :: ks' => if bytes_le k k' then k :: ks else k' :: insert_key k ks'
  end.

Definition sort_keys (ks : list (list byte)) : list (list byte) := foldr insert_key [] ks.

Definition sorted_keys (m : gmap (list byte) (list byte)) : list (list byte) :=
  sort_keys (map_to_list m).*1.

(** ** The rows *)

(** [$key =~ m/.{2}/g]; a key has no newline. *)
Fixpoint pairs (key : list byte) : list (list byte) :=
  match key with
  | a :: b :: key' => [a; b] :: pairs key'
  | _ => []
  end.

(** [@output]: the bytes, as many zeros as are missing from eight, the length. *)
Definition row_items (key : list byte) : list (list byte) :=
  let output := (λ p, bytes_of "0x" ++ p) <$> pairs key in
  output ++ replicate (8 - length output) (bytes_of "0x00") ++ [decimal (Z.of_nat (length output))].

(** [join]. *)
Fixpoint join (sep : list byte) (l : list (list byte)) : list byte :=
  match l with
  | [] => []
  | [x] => x
  | x :: l' => x ++ sep ++ join sep l'
  end.

Definition row_text (key : list byte) : list byte :=
  newline :: bytes_of "    {" ++ join (bytes_of ", ") (row_items key) ++ bytes_of "}".

(** [printf("%*s", w, " ")]: a negative width pads on the other side. *)
Definition blanks (w : Z) : list byte := replicate (Z.to_nat (Z.max 1 (Z.abs w))) x20.

(** [printf MAGIC_SRC "#define M_%s%*s0x%s\n"]. *)
Definition define_text (name key : list byte) : list byte :=
  bytes_of "#define M_" ++ name ++ blanks (16 - Z.of_nat (length name) + 1) ++ bytes_of "0x" ++ key ++ [newline].

(** ** The output *)

(** The template up to and with its first blank line, [/^\s+$/], and the rest. *)
Fixpoint template_head (tmpl : list (list byte)) : list (list byte) * list (list byte) :=
  match tmpl with
  | [] => ([], [])
  | line :: tmpl' =>
      if non_empty line && forallb is_space line then ([line], tmpl')
      else let r := template_head tmpl' in (line :: fst r, snd r)
  end.

(** The head of the declaration of the table, and what is written after it. *)
Definition TABLE_HEAD : list byte := bytes_of "static uint8_t magic_index[][MENTRY_LEN + 1] = ".
Definition table_text (keys : list (list byte)) : list byte :=
  bytes_of "{" ++ join (bytes_of ",") (row_text <$> keys) ++ newline :: bytes_of "};".

(** What the script writes into [magic.c]. *)
Definition gen_magic (defs tmpl : list (list byte)) : list byte :=
  let magic_map := read_defs defs in
  let keys := sorted_keys magic_map in
  let t := template_head tmpl in
  concat (fst t) ++
  concat ((λ key, define_text (default [] (magic_map !! key)) key) <$> keys) ++
  newline :: TABLE_HEAD ++ table_text keys ++ [newline; newline] ++
  concat (snd t).

(** ** How a compiler reads the rows *)

Definition hex_digit (c : byte) : option Z :=
  let n := Z.of_nat (u8 c) in
  if bool_decide (48 ≤ n ≤ 57)%Z then Some (n - 48)%Z
  else if bool_decide (65 ≤ n ≤ 70)%Z then Some (n - 55)%Z
  else if bool_decide (97 ≤ n ≤ 102)%Z then Some (n - 87)%Z
  else None.

Definition byte_of (z : Z) : byte := default x00 (Byte.of_N (Z.to_N (z mod 256))).

(** An initialiser: two hexadecimal digits after [0x], or one decimal digit. *)
Definition read_item (item : list byte) : option byte :=
  match item with
  | [x30; x78; a; b] => x ← hex_digit a; y ← hex_digit b; Some (byte_of (16 * x + y))
  | [d] => x ← hex_digit d; if bool_decide (x < 10)%Z then Some (byte_of x) else None
  | _ => None
  end.

(** A row of [uint8_t magic_index[][MENTRY_LEN + 1]]: the elements without an
    initialiser are zero, and there must not be too many. *)
Definition read_row (items : list (list byte)) : option (list byte) :=
  bs ← mapM read_item items;
  if bool_decide (length bs ≤ MENTRY_LEN + 1)
  then Some (bs ++ replicate (MENTRY_LEN + 1 - length bs) x00) else None.

(** The tokens of an initialiser: white space ends a word. *)
Inductive token := Open | Close | Comma | Semi | Word (w : list byte).

Definition punctuation (c : byte) : option token :=
  if bool_decide (c = x7b) then Some Open else if bool_decide (c = x7d) then Some Close
  else if bool_decide (c = x2c) then Some Comma else if bool_decide (c = x3b) then Some Semi else None.

Definition flush (w : list byte) (ts : list token) : list token :=
  match w with [] => ts | _ => Word w :: ts end.

(** [w] is the part of a word that has been read. *)
Fixpoint lex (w text : list byte) : list token :=
  match text with
  | [] => flush w []
  | c :: text' =>
      if is_space c then flush w (lex [] text')
      else match punctuation c with
           | Some t => flush w (t :: lex [] text')
           | None => lex (w ++ [c]) text'
           end
  end.

(** The elements of a row, after its brace; the rows, after that of the table. *)
Fixpoint parse_items (ts : list token) : option (list (list byte) * list token) :=
  match ts with
  | Word w :: Close :: ts' => Some ([w], ts')
  | Word w :: Comma :: ts' => r ← parse_items ts'; Some (w :: fst r, snd r)
  | _ => None
  end.

Fixpoint parse_rows (fuel : nat) (ts : list token) : option (list (list (list byte)) * list token) :=
  match fuel, ts with
  | S fuel', Open :: ts' =>
      r ← parse_items ts';
      match snd r with
      | Close :: ts'' => Some ([fst r], ts'')
      | Comma :: ts'' => rs ← parse_rows fuel' ts''; Some (fst r :: fst rs, snd rs)
      | _ => None
      end
  | _, _ => None
  end.

(** The table that a text begins with, up to its semicolon. *)
Definition read_table (text : list byte) : option (list (list byte)) :=
  match lex [] text with
  | Open :: ts =>
      r ← parse_rows (length text) ts;
      match snd r with Semi :: _ => mapM read_row (fst r) | _ => None end
  | _ => None
  end.

(** The word that a key stands for, and its value as a number. *)
Fixpoint decode (key : list byte) : list byte :=
  match key with
  | a :: b :: key' =>
      byte_of (16 * default 0%Z (hex_digit a) + default 0%Z (hex_digit b)) :: decode key'
  | _ => []
  end.

Definition hex_value (key : list byte) : Z :=
  fold_left (λ acc c, acc * 16 + default 0 (hex_digit c))%Z key 0%Z.

(** A line [#define M_NAME 0x...]: the name, without [M_], and the number. *)
Definition read_define (line : list byte) : option (list byte * Z) :=
  let head := bytes_of "#define M_" in
  if bool_decide (take (length head) line = head) then
    let n := span (negb ∘ is_space) (drop (length head) line) in
    match snd (span is_space (snd n)) with
    | x30 :: x78 :: digits =>
        let d := span (λ c, bool_decide (is_Some (hex_digit c))) digits in
        if bool_decide (snd d = [newline]) then Some (fst n, hex_value (fst d)) else None
    | _ => None
    end
  else None.

(** ** The files *)

Abbreviation QUOTE := x22.

(** [src/magic_defs]. *)
Definition magic_defs : list (list byte) := (λ l, l ++ [newline]) <$> [
    bytes_of "D0CF11E0         MS_OFFICE";
    bytes_of "664C6143         FLAC";
    bytes_of "4344303031       ISO9660";
    bytes_of "424D             BMP";
    bytes_of "494433           MP3_V2";
    bytes_of "FFFB             MP3_V01";
    bytes_of "38425053         PSD";
    bytes_of "4F676753         OGG";
    bytes_of "25504446         PDF";
    bytes_of "/* FFFE0000         UTF32_BOM_LE */";
    bytes_of "/* FFFE             UTF16_BOM_LE */";
    bytes_of "CFFAEDFE         MACH64_O_BE";
    bytes_of "CEFAEDFE         MACH32_O_BE";
    bytes_of "FEEDFACF         MACH64_O_LE";
    bytes_of "FEEDFACE         MACH32_O_LE";
    bytes_of "/* EFBBBF           UTF8_BOM */";
    bytes_of "CAFEBABE         MACH_O_FAT_CLASS";
    bytes_of "89504E470D0A1A0A PNG";
    bytes_of "7F454C46         ELF";
    bytes_of "526172211A070100 RAR50";
    bytes_of "526172211A0700   RAR15";
    bytes_of "504B0304         ZIP";
    bytes_of "504B0506         ZIP_EMPTY";
    bytes_of "504B0708         ZIP_SPANNED";
    bytes_of "4D5A             EXE";
    bytes_of "49492A00         TIF";
    bytes_of "4D4D002A         TIFF";
    bytes_of "474946383761     GIF0";
    bytes_of "474946383961     GIF1";
    bytes_of "1FA0             TAR_ZIP_LZH";
    bytes_of "1F9D             TAR_ZIP_LZW";
    bytes_of "00000100         ICO";
    bytes_of "0000001466747970 3GPP_FTYP";
    bytes_of "0000002066747970 3GPP2_FTYP";
    bytes_of "0000001866747970 MP4_FTYP";
    bytes_of "0178             VAX_COFF_EX";
    bytes_of "213C617263683E0A ARCH_BIN"].

(** [src/magic.c.tmpl]. *)
Definition magic_tmpl : list (list byte) := (λ l, l ++ [newline]) <$> [
    bytes_of "#include " ++ [QUOTE] ++ bytes_of "config.h" ++ [QUOTE];
    bytes_of "#include " ++ [QUOTE] ++ bytes_of "debug.h" ++ [QUOTE];
    bytes_of "#include " ++ [QUOTE] ++ bytes_of "magic.h" ++ [QUOTE];
    bytes_of "#include " ++ [QUOTE] ++ bytes_of "util.h" ++ [QUOTE];
    [];
    bytes_of "#include <stdio.h>";
    bytes_of "#include <unistd.h>";
    [];
    bytes_of "static struct trie *tr;";
    [];
    bytes_of "void magic_init()";
    bytes_of "{";
    bytes_of "    int i;";
    [];
    bytes_of "    trie_init(&tr);";
    bytes_of "    for (i = 0; i < sizeof(magic_index) / (MENTRY_LEN + 1) / sizeof(uint8_t); ++i) {";
    bytes_of "        trie_insert(tr, &magic_index[i][0], magic_index[i][8]);";
    bytes_of "    }";
    bytes_of "}";
    [];
    bytes_of "void magic_fini()";
    bytes_of "{";
    bytes_of "    trie_destroy(tr);";
    bytes_of "}";
    [];
    bytes_of "/* bool magic_scan(uint8_t *buf, int len) */";
    bytes_of "bool magic_scan(int fd)";
    bytes_of "{";
    bytes_of "    uint8_t magic_buf[16];";
    bytes_of "    read(fd, magic_buf, sizeof(magic_buf));";
    [];
    bytes_of "    return trie_scan(tr, magic_buf, 16)?true:false;";
    bytes_of "}"].

(** [src/magic.c], which is in the repository. *)
Definition magic_c : list (list byte) := (λ l, l ++ [newline]) <$> [
    bytes_of "#include " ++ [QUOTE] ++ bytes_of "config.h" ++ [QUOTE];
    bytes_of "#include " ++ [QUOTE] ++ bytes_of "debug.h" ++ [QUOTE];
    bytes_of "#include " ++ [QUOTE] ++ bytes_of "magic.h" ++ [QUOTE];
    bytes_of "#include " ++ [QUOTE] ++ bytes_of "util.h" ++ [QUOTE];
    [];
    bytes_of "#define M_3GPP_FTYP        0x0000001466747970";
    bytes_of "#define M_MP4_FTYP         0x0000001866747970";
    bytes_of "#define M_3GPP2_FTYP       0x0000002066747970";
    bytes_of "#define M_ICO              0x00000100";
    bytes_of "#define M_VAX_COFF_EX      0x0178";
    bytes_of "#define M_TAR_ZIP_LZW      0x1F9D";
    bytes_of "#define M_TAR_ZIP_LZH      0x1FA0";
    bytes_of "#define M_ARCH_BIN         0x213C617263683E0A";
    bytes_of "#define M_PDF              0x25504446";
    bytes_of "#define M_PSD              0x38425053";
    bytes_of "#define M_BMP              0x424D";
    bytes_of "#define M_ISO9660          0x4344303031";
    bytes_of "#define M_GIF0             0x474946383761";
    bytes_of "#define M_GIF1             0x474946383961";
    bytes_of "#define M_MP3_V2           0x494433";
    bytes_of "#define M_TIF              0x49492A00";
    bytes_of "#define M_TIFF             0x4D4D002A";
    bytes_of "#define M_EXE              0x4D5A";
    bytes_of "#define M_OGG              0x4F676753";
    bytes_of "#define M_ZIP              0x504B0304";
    bytes_of "#define M_ZIP_EMPTY        0x504B0506";
    bytes_of "#define M_ZIP_SPANNED      0x504B0708";
    bytes_of "#define M_RAR15            0x526172211A0700";
    bytes_of "#define M_RAR50            0x526172211A070100";
    bytes_of "#define M_FLAC             0x664C6143";
    bytes_of "#define M_ELF              0x7F454C46";
    bytes_of "#define M_PNG              0x89504E470D0A1A0A";
    bytes_of "#define M_MACH_O_FAT_CLASS 0xCAFEBABE";
    bytes_of "#define M_MACH32_O_BE      0xCEFAEDFE";
    bytes_of "#define M_MACH64_O_BE      0xCFFAEDFE";
    bytes_of "#define M_MS_OFFICE        0xD0CF11E0";
    bytes_of "#define M_MACH32_O_LE      0xFEEDFACE";
    bytes_of "#define M_MACH64_O_LE      0xFEEDFACF";
    bytes_of "#define M_MP3_V01          0xFFFB";
    [];
    bytes_of "static uint8_t magic_index[][MENTRY_LEN + 1] = {";
    bytes_of "    {0x00, 0x00, 0x00, 0x14, 0x66, 0x74, 0x79, 0x70, 8},";
    bytes_of "    {0x00, 0x00, 0x00, 0x18, 0x66, 0x74, 0x79, 0x70, 8},";
    bytes_of "    {0x00, 0x00, 0x00, 0x20, 0x66, 0x74, 0x79, 0x70, 8},";
    bytes_of "    {0x00, 0x00, 0x01, 0x00, 0x00, 0x00, 0x00, 0x00, 4},";
    bytes_of "    {0x01, 0x78, 0x00, 0x00, 0x00, 0x00, 0x00, 0x00, 2},";
    bytes_of "    {0x1F, 0x9D, 0x00, 0x00, 0x00, 0x00, 0x00, 0x00, 2},";
    bytes_of "    {0x1F, 0xA0, 0x00, 0x00, 0x00, 0x00, 0x00, 0x00, 2},";
    bytes_of "    {0x21, 0x3C, 0x61, 0x72, 0x63, 0x68, 0x3E, 0x0A, 8},";
    bytes_of "    {0x25, 0x50, 0x44, 0x46, 0x00, 0x00, 0x00, 0x00, 4},";
    bytes_of "    {0x38, 0x42, 0x50, 0x53, 0x00, 0x00, 0x00, 0x00, 4},";
    bytes_of "    {0x42, 0x4D, 0x00, 0x00, 0x00, 0x00, 0x00, 0x00, 2},";
    bytes_of "    {0x43, 0x44, 0x30, 0x30, 0x31, 0x00, 0x00, 0x00, 5},";
    bytes_of "    {0x47, 0x49, 0x46, 0x38, 0x37, 0x61, 0x00, 0x00, 6},";
    bytes_of "    {0x47, 0x49, 0x46, 0x38, 0x39, 0x61, 0x00, 0x00, 6},";
    bytes_of "    {0x49, 0x44, 0x33, 0x00, 0x00, 0x00, 0x00, 0x00, 3},";
    bytes_of "    {0x49, 0x49, 0x2A, 0x00, 0x00, 0x00, 0x00, 0x00, 4},";
    bytes_of "    {0x4D, 0x4D, 0x00, 0x2A, 0x00, 0x00, 0x00, 0x00, 4},";
    bytes_of "    {0x4D, 0x5A, 0x00, 0x00, 0x00, 0x00, 0x00, 0x00, 2},";
    bytes_of "    {0x4F, 0x67, 0x67, 0x53, 0x00, 0x00, 0x00, 0x00, 4},";
    bytes_of "    {0x50, 0x4B, 0x03, 0x04, 0x00, 0x00, 0x00, 0x00, 4},";
    bytes_of "    {0x50, 0x4B, 0x05, 0x06, 0x00, 0x00, 0x00, 0x00, 4},";
    bytes_of "    {0x50, 0x4B, 0x07, 0x08, 0x00, 0x00, 0x00, 0x00, 4},";
    bytes_of "    {0x52, 0x61, 0x72, 0x21, 0x1A, 0x07, 0x00, 0x00, 7},";
    bytes_of "    {0x52, 0x61, 0x72, 0x21, 0x1A, 0x07, 0x01, 0x00, 8},";
    bytes_of "    {0x66, 0x4C, 0x61, 0x43, 0x00, 0x00, 0x00, 0x00, 4},";
    bytes_of "    {0x7F, 0x45, 0x4C, 0x46, 0x00, 0x00, 0x00, 0x00, 4},";
    bytes_of "    {0x89, 0x50, 0x4E, 0x47, 0x0D, 0x0A, 0x1A, 0x0A, 8},";
    bytes_of "    {0xCA, 0xFE, 0xBA, 0xBE, 0x00, 0x00, 0x00, 0x00, 4},";
    bytes_of "    {0xCE, 0xFA, 0xED, 0xFE, 0x00, 0x00, 0x00, 0x00, 4},";
    bytes_of "    {0xCF, 0xFA, 0xED, 0xFE, 0x00, 0x00, 0x00, 0x00, 4},";
    bytes_of "    {0xD0, 0xCF, 0x11, 0xE0, 0x00, 0x00, 0x00, 0x00, 4},";
    bytes_of "    {0xFE, 0xED, 0xFA, 0xCE, 0x00, 0x00, 0x00, 0x00, 4},";
    bytes_of "    {0xFE, 0xED, 0xFA, 0xCF, 0x00, 0x00, 0x00, 0x00, 4},";
    bytes_of "    {0xFF, 0xFB, 0x00, 0x00, 0x00, 0x00, 0x00, 0x00, 2}";
    bytes_of "};";
    [];
    bytes_of "#include <stdio.h>";
    bytes_of "#include <unistd.h>";
    [];
    bytes_of "static struct trie *tr;";
    [];
    bytes_of "void magic_init()";
    bytes_of "{";
    bytes_of "    int i;";
    [];
    bytes_of "    trie_init(&tr);";
    bytes_of "    for (i = 0; i < sizeof(magic_index) / (MENTRY_LEN + 1) / sizeof(uint8_t); ++i) {";
    bytes_of "        trie_insert(tr, &magic_index[i][0], magic_index[i][8]);";
    bytes_of "    }";
    bytes_of "}";
    [];
    bytes_of "void magic_fini()";
    bytes_of "{";
    bytes_of "    trie_destroy(tr);";
    bytes_of "}";
    [];
    bytes_of "/* bool magic_scan(uint8_t *buf, int len) */";
    bytes_of "bool magic_scan(int fd)";
    bytes_of "{";
    bytes_of "    uint8_t magic_buf[16];";
    bytes_of "    read(fd, magic_buf, sizeof(magic_buf));";
    [];
    bytes_of "    return trie_scan(tr, magic_buf, 16)?true:false;";
    bytes_of "}"].

(** The script writes the file that is in the repository. *)
Lemma magic_c_generated : gen_magic magic_defs magic_tmpl = concat magic_c.
Proof. by vm_compute. Qed.

(** A comment before the first definition gives a row for an empty key. *)
Example comment_first :
  sorted_keys (read_defs (((λ l, l ++ [newline]) <$> [bytes_of "/* magic */"; bytes_of "424D BMP"]))) =
    [[]; bytes_of "424D"].
Proof. by vm_compute. Qed.

(** ** Sorting *)

Definition key_le (a b : list byte) : Prop := bytes_le a b = true.

Lemma bytes_le_total a b : bytes_le a b = false → bytes_le b a = true.
Proof.
  revert b. induction a as [|x a IH]; intros [|y b]; cbn; try done. unfold byte_lt.
  intros [Hle Hb]%orb_false_elim. apply Nat.ltb_ge in Hle. apply orb_true_intro.
  destruct (decide (x = y)) as [->|Hne].
  - right. rewrite bool_decide_true in Hb |- * by done. by apply IH.
  - left. apply Nat.ltb_lt. assert (u8 x ≠ u8 y) by (intros ?%u8_inj; congruence). lia.
Qed.

Lemma insert_key_perm k ks : insert_key k ks ≡ₚ k :: ks.
Proof.
  induction ks as [|k' ks IH]; [done|]. cbn. case_match; [done|]. rewrite IH. apply Permutation_swap.
Qed.

Lemma sort_keys_perm ks : sort_keys ks ≡ₚ ks.
Proof. induction ks as [|k ks IH]; [done|]. cbn. by rewrite insert_key_perm, IH. Qed.

Lemma insert_key_sorted k ks : Sorted key_le ks → Sorted key_le (insert_key k ks).
Proof.
  induction 1 as [|k' ks Hks IH Hhd]; cbn; [by repeat constructor|].
  destruct (bytes_le k k') eqn:Hk; [by repeat constructor|]. constructor; [done|].
  apply bytes_le_total in Hk. destruct Hhd as [|k2 ks2 Hk2]; cbn; [by constructor|].
  case_match; by constructor.
Qed.

Lemma sort_keys_sorted ks : Sorted key_le (sort_keys ks).
Proof. induction ks as [|k ks IH]; cbn; [constructor|by apply insert_key_sorted]. Qed.

Lemma elem_of_sorted_keys m k : k ∈ sorted_keys m ↔ k ∈ dom m.
Proof.
  unfold sorted_keys. rewrite sort_keys_perm, elem_of_dom, list_elem_of_fmap. split.
  - intros ([k' v] & -> & Hv%elem_of_map_to_list). by exists v.
  - intros [v Hv]. exists (k, v). split; [done|]. by apply elem_of_map_to_list.
Qed.

Lemma sorted_keys_nodup m : NoDup (sorted_keys m).
Proof. unfold sorted_keys. rewrite sort_keys_perm. apply NoDup_fst_map_to_list. Qed.

(** ** The definitions that are read *)

Definition definitions (lines : list (list byte)) : list (list byte * list byte) := omap match_line lines.

Lemma resolve_dom lines : ∀ last m,
  fst last ∈ dom m → dom (resolve lines last m) = list_to_set (definitions lines).*1 ∪ dom m.
Proof.
  induction lines as [|line lines IH]; intros last m Hlast; cbn.
  { by rewrite (left_id_L ∅ (∪)). }
  rewrite IH by (rewrite dom_insert_L; set_solver). rewrite dom_insert_L.
  unfold definitions. cbn. destruct (match_line line) as [d|]; cbn; set_solver.
Qed.

(** When the first line is a definition, the keys are those of the definitions. *)
Lemma read_defs_dom line lines :
  is_Some (match_line line) → dom (read_defs (line :: lines)) = list_to_set (definitions (line :: lines)).*1.
Proof.
  intros [d Hd]. unfold read_defs. cbn [resolve]. rewrite resolve_dom by (rewrite Hd, dom_insert_L; set_solver).
  unfold definitions. cbn. rewrite Hd, dom_insert_L. cbn. set_solver.
Qed.

(** ** The rows that are written *)

(** A key that stands for a word: two hexadecimal digits for each of one to
    eight bytes. *)
Definition key_ok (key : list byte) : bool :=
  forallb (λ c, bool_decide (is_Some (hex_digit c))) key && Nat.even (length key) &&
  bool_decide (2 ≤ length key ≤ 16).

Lemma hex_digit_bound c x : hex_digit c = Some x → (0 ≤ x < 16)%Z.
Proof.
  unfold hex_digit. repeat (case_bool_decide; [intros [= <-]; lia|]). done.
Qed.

Lemma byte_of_u8 z : (0 ≤ z < 256)%Z → Z.of_nat (u8 (byte_of z)) = z.
Proof.
  intros Hz. unfold byte_of, u8. rewrite Z.mod_small by done.
  destruct (Byte.of_N (Z.to_N z)) as [b|] eqn:Hb; cbn.
  - apply Byte.to_of_N in Hb. rewrite Hb. lia.
  - apply Byte.of_N_None_iff in Hb. lia.
Qed.

(** Induction on a key, two digits at a time. *)
Lemma key_ind (Q : list byte → Prop) :
  Q [] → (∀ a b x y key, hex_digit a = Some x → hex_digit b = Some y → Q key → Q (a :: b :: key)) →
  ∀ key, forallb (λ c, bool_decide (is_Some (hex_digit c))) key = true → Nat.even (length key) = true → Q key.
Proof.
  intros H0 HS. fix IH 1. intros [|a [|b key]]; [done|done|]. cbn. intros H2 He.
  apply andb_prop in H2 as [Ha H2]. apply andb_prop in H2 as [Hb H2].
  apply bool_decide_eq_true in Ha as [x Hx], Hb as [y Hy]. eapply HS; [done..|]. by apply IH.
Qed.

Section key.
Context (key : list byte) (Hhex : forallb (λ c, bool_decide (is_Some (hex_digit c))) key = true).
Context (Heven : Nat.even (length key) = true).

Lemma decode_length : length key = 2 * length (decode key) ∧ length (pairs key) = length (decode key).
Proof. pattern key. apply key_ind; [done| |done..]. intros a b x y k _ _ [H1 H2]. cbn. lia. Qed.

Lemma read_pairs : mapM read_item ((λ p, bytes_of "0x" ++ p) <$> pairs key) = Some (decode key).
Proof.
  pattern key. apply key_ind; [done| |done..]. intros a b x y k Hx Hy IH. cbn. rewrite Hx, Hy. cbn.
  cbn in IH. by rewrite IH.
Qed.

(** The number that the macro stands for is the word, read as a number. *)
Lemma hex_value_decode : hex_value key = big_endian (decode key).
Proof.
  unfold hex_value, big_endian.
  enough (∀ acc, fold_left (λ acc c, acc * 16 + default 0 (hex_digit c))%Z key acc =
    fold_left (λ acc b, acc * 256 + Z.of_nat (u8 b))%Z (decode key) acc) as Hacc by apply Hacc.
  pattern key. apply key_ind; [done| |done..]. intros a b x y k Hx Hy IH acc. cbn [fold_left decode].
  rewrite IH, Hx, Hy. f_equal. cbn [default]. apply hex_digit_bound in Hx, Hy.
  rewrite byte_of_u8 by (cbn; lia). cbn. lia.
Qed.
End key.

(** The row of a key. *)
Definition row_of (key : list byte) : list byte :=
  let w := decode key in w ++ replicate (8 - length w) x00 ++ [byte_of (Z.of_nat (length w)); x00].

Lemma row_of_length key : length (decode key) ≤ 8 → length (row_of key) = MENTRY_LEN + 1.
Proof. intros Hn. unfold row_of, MENTRY_LEN. rewrite !length_app, length_replicate. cbn. lia. Qed.

Lemma read_length n : 1 ≤ n ≤ 8 → read_item (decimal (Z.of_nat n)) = Some (byte_of (Z.of_nat n)).
Proof. intros Hn. do 9 (destruct n as [|n]; [try lia; by vm_compute|]). lia. Qed.

Lemma key_ok_decode key :
  key_ok key = true →
  forallb (λ c, bool_decide (is_Some (hex_digit c))) key = true ∧ Nat.even (length key) = true ∧
  1 ≤ length (decode key) ≤ 8.
Proof.
  unfold key_ok. intros [[Hhex He]%andb_prop Hlen]%andb_prop. apply bool_decide_eq_true in Hlen.
  destruct (decode_length key Hhex He) as [Hd _]. split_and!; [done..|lia|lia].
Qed.

(** A compiler reads the row that is written. *)
Lemma read_row_items key : key_ok key = true → read_row (row_items key) = Some (row_of key).
Proof.
  intros (Hhex & He & Hn)%key_ok_decode. destruct (decode_length key Hhex He) as [_ Hp].
  assert (mapM read_item (row_items key) =
    Some (decode key ++ replicate (8 - length (decode key)) x00 ++ [byte_of (Z.of_nat (length (decode key)))])) as Hm.
  { apply mapM_Some. unfold row_items. rewrite length_fmap, Hp. apply Forall2_app.
    { by apply mapM_Some, read_pairs. }
    apply Forall2_app; [by apply Forall2_replicate|]. repeat constructor. by apply read_length. }
  unfold read_row. rewrite Hm. cbn [mbind option_bind].
  assert (length (decode key ++ replicate (8 - length (decode key)) x00 ++
    [byte_of (Z.of_nat (length (decode key)))]) = MENTRY_LEN) as Hl.
  { rewrite !length_app, length_replicate. unfold MENTRY_LEN. cbn. lia. }
  rewrite Hl, bool_decide_true by lia. unfold row_of. rewrite <-!(assoc_L (++)). done.
Qed.

(** The row is well formed and its word is the key's. *)
Lemma row_of_ok key : key_ok key = true → row_ok (row_of key) = true ∧ magic_word (row_of key) = decode key.
Proof.
  intros (_ & _ & Hn)%key_ok_decode.
  assert (row_of key !! 8 = Some (byte_of (Z.of_nat (length (decode key))))) as H8.
  { unfold row_of. rewrite lookup_app_r, lookup_app_r by (rewrite ?length_replicate; lia).
    rewrite length_replicate. by replace (8 - length (decode key) - (8 - length (decode key))) with 0 by lia. }
  assert (u8 (byte_of (Z.of_nat (length (decode key)))) = length (decode key)) as Hu.
  { apply Nat2Z.inj. rewrite byte_of_u8 by lia. done. }
  split.
  - unfold row_ok. rewrite H8. cbv beta iota. rewrite Hu, row_of_length, !bool_decide_true by lia. cbn.
    unfold row_of. rewrite take_app_ge, take_app_le, take_ge by (rewrite ?length_replicate; lia).
    rewrite drop_app_length. apply forallb_forall. intros c Hc. apply list_elem_of_In, elem_of_replicate in Hc as [-> _].
    by apply bool_decide_eq_true.
  - unfold magic_word. rewrite H8. unfold default, from_option, id. rewrite Hu. apply take_app_length.
Qed.

(** ** Reading what is written *)

(** A character of a word. *)
Definition plain (c : byte) : bool := negb (is_space c) && bool_decide (punctuation c = None).

Lemma lex_plain a t : ∀ w, forallb plain a = true → lex w (a ++ t) = lex (w ++ a) t.
Proof.
  induction a as [|c a IH]; intros w Ha; cbn [app]; [by rewrite app_nil_r|].
  cbn in Ha. apply andb_prop in Ha as [Hc Ha]. apply andb_prop in Hc as [Hs Hp].
  apply negb_true_iff in Hs. apply bool_decide_eq_true in Hp. cbn [lex]. rewrite Hs, Hp, IH by done.
  by rewrite <-(assoc_L (++)).
Qed.

Lemma lex_item a (sep : list byte) t tok ts :
  forallb plain a = true → a ≠ [] → (∀ w, lex w (sep ++ t) = flush w (tok :: ts)) →
  lex [] (a ++ sep ++ t) = Word a :: tok :: ts.
Proof. intros Ha Hne Hsep. rewrite lex_plain, Hsep by done. by destruct a. Qed.

(** The elements of a row. *)
Lemma lex_items items t :
  Forall (λ a, forallb plain a = true ∧ a ≠ []) items → items ≠ [] →
  parse_items (lex [] (join (bytes_of ", ") items ++ bytes_of "}" ++ t)) = Some (items, lex [] t).
Proof.
  induction 1 as [|a items [Ha Hne] Hitems IH]; intros Hnil; [done|]. destruct items as [|b items].
  - cbn [join]. rewrite (lex_item a (bytes_of "}") t Close (lex [] t)) by done. done.
  - change (join (bytes_of ", ") (a :: b :: items)) with (a ++ bytes_of ", " ++ join (bytes_of ", ") (b :: items)).
    rewrite <-!(assoc_L (++)).
    rewrite (lex_item a (bytes_of ", ") _ Comma (lex [] (join (bytes_of ", ") (b :: items) ++ bytes_of "}" ++ t))) by done.
    cbn [parse_items]. by rewrite IH.
Qed.

(** The rows. *)
Lemma lex_rows keys t : ∀ fuel,
  Forall (λ k, Forall (λ a, forallb plain a = true ∧ a ≠ []) (row_items k)) keys → keys ≠ [] →
  length keys ≤ fuel →
  parse_rows fuel (lex [] (join (bytes_of ",") (row_text <$> keys) ++ newline :: bytes_of "}" ++ t)) =
    Some (row_items <$> keys, lex [] t).
Proof.
  induction keys as [|k keys IH]; intros fuel Hkeys Hnil Hfuel; [done|]. apply Forall_cons_1 in Hkeys as [Hk Hkeys].
  destruct fuel as [|fuel]; [cbn in Hfuel; lia|].
  assert (∀ u, lex [] (row_text k ++ u) = Open :: lex [] (join (bytes_of ", ") (row_items k) ++ bytes_of "}" ++ u)) as Hrow.
  { intros u. unfold row_text. cbn [app]. by rewrite <-!(assoc_L (++)). }
  assert (row_items k ≠ []) as Hne.
  { unfold row_items. intros Hr%(f_equal length). rewrite !length_app in Hr. cbn in Hr. lia. }
  destruct keys as [|k' keys].
  - cbn [fmap list_fmap join]. rewrite Hrow. cbn [parse_rows]. rewrite lex_items by done. done.
  - change (join (bytes_of ",") (row_text <$> k :: k' :: keys)) with
      (row_text k ++ bytes_of "," ++ join (bytes_of ",") (row_text <$> k' :: keys)).
    rewrite <-!(assoc_L (++)), Hrow. cbn [parse_rows]. rewrite lex_items by done. cbn [mbind option_bind snd fst].
    change (lex [] (bytes_of "," ++ ?u)) with (Comma :: lex [] u). cbv beta iota.
    rewrite IH; [done|done|done|cbn in Hfuel |- *; lia].
Qed.

Lemma forallb_app_2 {A} (p : A → bool) a b : forallb p a = true → forallb p b = true → forallb p (a ++ b) = true.
Proof. intros. rewrite forallb_app. by apply andb_true_iff. Qed.

Lemma hex_digit_plain c : is_Some (hex_digit c) → plain c = true.
Proof. destruct c; first [done | intros [z Hz]; vm_compute in Hz; discriminate Hz]. Qed.

(** The items of a row are words. *)
Lemma row_items_plain key :
  key_ok key = true → Forall (λ a, forallb plain a = true ∧ a ≠ []) (row_items key).
Proof.
  intros (Hhex & He & Hn)%key_ok_decode. unfold row_items. apply Forall_app. split; [|apply Forall_app; split].
  - apply Forall_fmap. pattern key. apply key_ind; [constructor| |done..].
    intros a b x y k Hx Hy IH. cbn. constructor; [|done]. split; [|done]. cbn.
    by rewrite (hex_digit_plain a), (hex_digit_plain b) by (by eexists).
  - by apply Forall_replicate.
  - apply Forall_singleton. rewrite length_fmap. destruct (decode_length key Hhex He) as [_ ->].
    destruct (length (decode key)) as [|n]; [lia|]. do 8 (destruct n as [|n]; [by split|]). lia.
Qed.

Lemma join_length (sep : list byte) l : Forall (λ x, x ≠ []) l → length l ≤ length (join sep l).
Proof.
  induction 1 as [|x l Hx Hl IH]; [done|]. destruct x as [|c x]; [done|]. destruct l as [|y l]; [cbn; lia|].
  change (join sep ((c :: x) :: y :: l)) with ((c :: x) ++ sep ++ join sep (y :: l)).
  rewrite !length_app. cbn [length] in *. lia.
Qed.

(** The table is read back. *)
Lemma read_table_text keys t :
  Forall (λ k, key_ok k = true) keys → keys ≠ [] →
  read_table (table_text keys ++ t) = Some (row_of <$> keys).
Proof.
  intros Hks Hne. unfold read_table, table_text.
  change (bytes_of "};") with (bytes_of "}" ++ bytes_of ";"). rewrite <-!(assoc_L (++)).
  change (lex [] (bytes_of "{" ++ ?u)) with (Open :: lex [] u). cbv beta iota. cbn [app].
  set (ts := lex [] _).
  assert (∀ fuel, length keys ≤ fuel → parse_rows fuel ts = Some (row_items <$> keys, Semi :: lex [] t)) as Hrun.
  { intros fuel Hfuel. unfold ts. rewrite <-(assoc_L (++)).
    apply (lex_rows keys (bytes_of ";" ++ t) fuel); [|done|done].
    eapply list.Forall_impl; [exact Hks|]. intros k. apply row_items_plain. }
  rewrite Hrun.
  - cbn [mbind option_bind snd fst]. apply mapM_Some, Forall2_fmap_l, Forall2_fmap_r, Forall_Forall2_diag.
    eapply list.Forall_impl; [exact Hks|]. intros k Hk. by apply read_row_items.
  - pose proof (join_length (bytes_of ",") (row_text <$> keys)) as Hlen. rewrite length_fmap in Hlen.
    rewrite !length_app. specialize (Hlen ltac:(by apply Forall_fmap, Forall_true)). lia.
Qed.

(** ** The definitions of the macros *)

Lemma span_app {A} (p : A → bool) a c b :
  forallb p a = true → p c = false → span p (a ++ c :: b) = (a, c :: b).
Proof.
  intros Ha Hc. induction a as [|x a IH]; cbn in *; [by rewrite Hc|].
  apply andb_prop in Ha as [-> Ha]. by rewrite IH.
Qed.

Lemma span_forallb {A} (p : A → bool) l : forallb p (span p l).1 = true.
Proof. induction l as [|x l IH]; cbn; [done|]. destruct (p x) eqn:Hx; cbn; [by rewrite Hx|done]. Qed.

(** A name is a word. *)
Lemma match_line_name line k n : match_line line = Some (k, n) → forallb (negb ∘ is_space) n = true.
Proof.
  unfold match_line. destruct line as [|c line]; [done|]. case_match; [|done]. intros [= _ <-]. apply span_forallb.
Qed.

(** What the map says of a key has been defined. *)
Lemma definitions_cons line lines :
  definitions (line :: lines) =
    match match_line line with Some d => d :: definitions lines | None => definitions lines end.
Proof. done. Qed.

Lemma insert_pair (d : list byte * list byte) (m : gmap (list byte) (list byte)) k n :
  <[d.1 := d.2]> m !! k = Some n → (k, n) = d ∨ m !! k = Some n.
Proof. intros [[<- <-]|[_ ?]]%lookup_insert_Some; [by left; destruct d|by right]. Qed.

Lemma resolve_lookup lines : ∀ last m k n,
  resolve lines last m !! k = Some n → (k, n) ∈ definitions lines ∨ (k, n) = last ∨ m !! k = Some n.
Proof.
  induction lines as [|line lines IH]; intros last m k n; cbn [resolve]; [by auto|].
  rewrite definitions_cons.
  intros [?|[?|?%insert_pair]]%IH; destruct (match_line line) as [d|]; cbn in *; rewrite ?elem_of_cons; naive_solver.
Qed.

Lemma read_defs_lookup line lines k n :
  is_Some (match_line line) → read_defs (line :: lines) !! k = Some n → (k, n) ∈ definitions (line :: lines).
Proof.
  intros [d Hd]. unfold read_defs. cbn [resolve].
  rewrite definitions_cons, Hd, elem_of_cons. cbn [default from_option id].
  intros [?|[->|[->|Hk]%insert_pair]]%resolve_lookup; [by right|by left..|done].
Qed.

Lemma replicate_space m : forallb is_space (x20 :: replicate m x20) = true.
Proof. cbn. by induction m. Qed.

(** The line of a macro is read back. *)
Lemma read_define_text n key :
  forallb (negb ∘ is_space) n = true → key_ok key = true →
  read_define (define_text n key) = Some (n, hex_value key).
Proof.
  intros Hn (Hhex & _ & _)%key_ok_decode. unfold read_define, define_text, blanks.
  set (w := (16 - _ + 1)%Z). rewrite take_app_length, drop_app_length, bool_decide_true by done.
  replace (Z.to_nat (Z.max 1 (Z.abs w))) with (S (Z.to_nat (Z.max 1 (Z.abs w)) - 1)) by lia.
  set (m := Z.to_nat _ - 1).
  change (replicate (S m) x20 ++ bytes_of "0x" ++ key ++ [newline]) with
    (x20 :: replicate m x20 ++ x30 :: (x78 :: key ++ [newline])).
  rewrite span_app by done. cbn [fst snd]. rewrite app_comm_cons, span_app; [|apply replicate_space|done].
  cbn [fst snd]. rewrite span_app by done. by rewrite bool_decide_true.
Qed.

(** ** The property *)

Lemma template_head_concat tmpl : concat tmpl = concat (fst (template_head tmpl)) ++ concat (snd (template_head tmpl)).
Proof.
  induction tmpl as [|line tmpl IH]; cbn [template_head]; [done|]. destruct (_ && _); cbn; [by rewrite app_nil_r|].
  by rewrite IH, (assoc_L (++)).
Qed.

(** The lines of the macros and the text of the table of a file. *)
Definition source_text (head defines : list (list byte)) (table : list byte) (rest : list (list byte)) : list byte :=
  concat head ++ concat defines ++ newline :: TABLE_HEAD ++ table ++ newline :: newline :: concat rest.

Lemma gen_magic_source defs tmpl :
  let m := read_defs defs in
  gen_magic defs tmpl = source_text (fst (template_head tmpl))
    ((λ k, define_text (default [] (m !! k)) k) <$> sorted_keys m) (table_text (sorted_keys m)) (snd (template_head tmpl)).
Proof. done. Qed.

(** The file of the repository. *)
Lemma repository_source :
  ∃ head defines table tail,
    gen_magic magic_defs magic_tmpl = concat magic_c ∧ concat magic_c = source_text head defines table tail ∧
    read_table table = Some magic_index.
Proof.
  set (m := read_defs magic_defs). exists (fst (template_head magic_tmpl)),
    ((λ k, define_text (default [] (m !! k)) k) <$> sorted_keys m), (table_text (sorted_keys m)), (snd (template_head magic_tmpl)).
  split_and!; [apply magic_c_generated|rewrite <-magic_c_generated; apply gen_magic_source|by vm_compute].
Qed.

Section keys.
Context (line : list byte) (lines : list (list byte)) (Hline : is_Some (match_line line)).
Context (Hok : Forall (λ d, key_ok (fst d) = true) (definitions (line :: lines))).
Let magic_map := read_defs (line :: lines).
Let keys := sorted_keys magic_map.

Lemma elem_of_keys k : k ∈ keys ↔ ∃ d, d ∈ definitions (line :: lines) ∧ fst d = k.
Proof.
  unfold keys. rewrite elem_of_sorted_keys. unfold magic_map.
  rewrite read_defs_dom, elem_of_list_to_set, list_elem_of_fmap by done. naive_solver.
Qed.

Lemma keys_ok : Forall (λ k, key_ok k = true) keys.
Proof.
  apply list.Forall_forall. intros k (d & Hd & <-)%elem_of_keys. rewrite list.Forall_forall in Hok. by apply Hok.
Qed.

Lemma keys_cons : keys ≠ [].
Proof.
  destruct Hline as [d Hd]. assert (fst d ∈ keys) as Hin; [|intros Hnil; rewrite Hnil in Hin; by apply elem_of_nil in Hin].
  apply elem_of_keys. exists d. split; [|done]. rewrite definitions_cons, Hd. apply list_elem_of_here.
Qed.

(** The line of a macro has the name and the number of a definition. *)
Lemma key_define k :
  k ∈ keys → ∃ name, (k, name) ∈ definitions (line :: lines) ∧ magic_map !! k = Some name ∧
    read_define (define_text name k) = Some (name, big_endian (magic_word (row_of k))).
Proof.
  intros Hk. pose proof keys_ok as Hks. rewrite list.Forall_forall in Hks. pose proof (Hks k Hk) as Hkey.
  apply elem_of_sorted_keys, elem_of_dom in Hk as [name Hname]. exists name.
  pose proof (read_defs_lookup _ _ _ _ Hline Hname) as Hd. split_and!; [done..|].
  rewrite read_define_text; [|..|done].
  - destruct (row_of_ok k Hkey) as [_ ->]. destruct (key_ok_decode k Hkey) as (Hhex & He & _).
    by rewrite hex_value_decode.
  - unfold definitions in Hd. apply list_elem_of_omap in Hd as (l & _ & Hl). by eapply match_line_name.
Qed.
End keys.

(** C38: when the first line of [magic_defs] is a definition and every key has
    two hexadecimal digits for each of one to eight bytes, the script writes the
    template with the macros and the table between its two parts. Read back
    character by character, as a compiler does, the table has one row for each
    key, in increasing order of the keys and each once; the rows are as the
    detector needs them; their words are those of the definitions; and the line
    of each row's macro has the name of a definition with that word, and as its
    number the word. From the [magic_defs] and the template of the repository it
    writes the repository's [magic.c], whose table is [magic_index]. *)
Theorem generated_rows line lines tmpl :
  is_Some (match_line line) →
  Forall (λ d, key_ok (fst d) = true) (definitions (line :: lines)) →
  (∃ keys head defines table tail rows,
    gen_magic (line :: lines) tmpl = source_text head defines table tail ∧ concat tmpl = concat head ++ concat tail ∧
    (∀ text, read_table (table ++ text) = Some rows) ∧ Forall (λ row, row_ok row = true) rows ∧
    (∀ k, k ∈ keys ↔ ∃ d, d ∈ definitions (line :: lines) ∧ fst d = k) ∧ NoDup keys ∧ Sorted key_le keys ∧
    magic_word <$> rows = decode <$> keys ∧
    Forall2 (λ key text, ∃ name, (key, name) ∈ definitions (line :: lines) ∧
      read_define text = Some (name, big_endian (decode key))) keys defines) ∧
  (∃ head defines table tail,
    gen_magic magic_defs magic_tmpl = concat magic_c ∧ concat magic_c = source_text head defines table tail ∧
    read_table table = Some magic_index).
Proof.
  intros Hline Hok. split; [|apply repository_source].
  set (magic_map := read_defs (line :: lines)). set (keys := sorted_keys magic_map).
  pose proof (keys_ok line lines Hline Hok) as Hks. rewrite list.Forall_forall in Hks.
  exists keys, (fst (template_head tmpl)), ((λ k, define_text (default [] (magic_map !! k)) k) <$> keys),
    (table_text keys), (snd (template_head tmpl)), (row_of <$> keys). split_and!.
  - done.
  - apply template_head_concat.
  - intros text. apply read_table_text; [by apply keys_ok|by apply keys_cons].
  - apply Forall_fmap, list.Forall_forall. intros k Hk. by apply row_of_ok, Hks.
  - apply elem_of_keys, Hline.
  - apply sorted_keys_nodup.
  - apply sort_keys_sorted.
  - rewrite <-list_fmap_compose. apply list_fmap_ext. intros i k Hk%list_elem_of_lookup_2. by apply row_of_ok, Hks.
  - apply Forall2_fmap_r, Forall_Forall2_diag, list.Forall_forall. intros k Hk.
    destruct (key_define line lines Hline Hok k Hk) as (name & Hd & Hname & Hr). exists name. split; [done|].
    unfold magic_map. rewrite Hname. cbn [default from_option id].
    rewrite Hr. by destruct (row_of_ok k (Hks k Hk)) as [_ ->].
Qed.

(** Two definitions with a comment between them, and a template of three lines. *)
Lemma generated_rows_witness :
  let defs := (λ l, l ++ [newline]) <$> [bytes_of "7F454C46         ELF"; bytes_of "/* two bytes */"; bytes_of "424D BMP"] in
  let tmpl := (λ l, l ++ [newline]) <$> [bytes_of "#include <stdio.h>"; []; bytes_of "static struct trie *tr;"] in
  (∃ keys head defines table tail rows,
    gen_magic defs tmpl = source_text head defines table tail ∧ concat tmpl = concat head ++ concat tail ∧
    (∀ text, read_table (table ++ text) = Some rows) ∧ Forall (λ row, row_ok row = true) rows ∧
    (∀ k, k ∈ keys ↔ ∃ d, d ∈ definitions defs ∧ fst d = k) ∧ NoDup keys ∧ Sorted key_le keys ∧
    magic_word <$> rows = decode <$> keys ∧
    Forall2 (λ key text, ∃ name, (key, name) ∈ definitions defs ∧
      read_define text = Some (name, big_endian (decode key))) keys defines) ∧
  (∃ head defines table tail,
    gen_magic magic_defs magic_tmpl = concat magic_c ∧ concat magic_c = source_text head defines table tail ∧
    read_table table = Some magic_index).
Proof.
  intros defs tmpl. refine (generated_rows (bytes_of "7F454C46         ELF" ++ [newline]) (tail defs) tmpl _ _).
  - by eexists.
  - apply (bool_decide_unpack _). by vm_compute.
Defined.
