(* ===== verification/FileExp.v ===== *)
(** Two experiments with files: [snippets/filemagic.c], which prints the first
    four bytes of a file as a number, and [snippets/file-mt.c], which starts a
    thread for each argument. *)

From S2P Require Import Prelude CInt Heap WordSet Match Magic MagicGen File Dispatcher.
Local Open Scope Z_scope.

(** ** [snippets/filemagic.c] *)

(** [buf] after [read(fd, buf, 4)]: the rest of its 16 bytes is not
    initialised. *)
Definition read4 (content : list byte) : list (option byte) :=
  (Some <$> take 4 content) ++ replicate (16 - length (take 4 content)) None.

(** [*(unsigned int * )buf] on a little-endian machine. *)
Definition load_uint (buf : list (option byte)) : outcome Z :=
  match buf with
  | Some a :: Some b :: Some c :: Some d :: _ =>
      Ok (Z.of_nat (u8 a) + 256 * (Z.of_nat (u8 b) + 256 * (Z.of_nat (u8 c) + 256 * Z.of_nat (u8 d))))
  | _ :: _ :: _ :: _ :: _ => Fail Uninitialised
  | _ => Fail OutOfBounds
  end.

(** [%x]: eight digits are enough for an [unsigned int]. *)
Definition hex_char (d : Z) : byte := byte_of (if bool_decide (d < 10) then 48 + d else 87 + d).

Fixpoint hex_digits (fuel : nat) (n : Z) : list byte :=
  match fuel with
  | O => []
  | S fuel' =>
      if bool_decide (n < 16) then [hex_char n] else hex_digits fuel' (n / 16) ++ [hex_char (n mod 16)]
  end.

Definition printf_x (n : Z) : list byte := hex_digits 8 n.

(** [main]; [die] stands for [exit(1)], as [perror] prints to another stream. *)
Definition filemagic (e : fs) (argv : list (list byte)) : M proc unit :=
  match argv with
  | [_; path] =>
      r ← open_file e path;
      match r with
      | None => die
      | Some fd =>
          v ← lift (load_uint (read4 (fs_content e path)));
          print (printf_x v ++ [newline]);;
          close fd
      end
  | _ => print (bytes_of "wrong number of arguments");; die
  end.

Lemma hex_char_digit d : 0 ≤ d < 16 → hex_digit (hex_char d) = Some d.
Proof.
  intros Hd. assert (d ∈ seqZ 0 16) as Hin by (apply elem_of_seqZ; lia). clear Hd. revert d Hin.
  apply list.Forall_forall. apply (bool_decide_unpack _). by vm_compute.
Qed.

(** What is printed denotes the number. *)
Lemma hex_digits_value fuel n : 0 ≤ n < 16 ^ Z.of_nat fuel → hex_value (hex_digits fuel n) = n.
Proof.
  revert n. induction fuel as [|fuel IH]; intros n Hn; [cbn in *; lia|]. cbn [hex_digits].
  rewrite Nat2Z.inj_succ, Z.pow_succ_r in Hn by lia. pose proof (Z.mod_pos_bound n 16 ltac:(lia)).
  unfold hex_value in *. case_bool_decide.
  - cbn [fold_left]. rewrite hex_char_digit by lia. cbn [default from_option]. unfold id. lia.
  - rewrite fold_left_app, IH.
    + cbn [fold_left]. rewrite hex_char_digit by lia. unfold default, from_option, id.
      pose proof (Z.div_mod n 16 ltac:(lia)). lia.
    + split; [apply Z.div_pos; lia|apply Z.div_lt_upper_bound; lia].
Qed.

(** With a file of at least four bytes the number of its first four, least
    significant first, is printed and the descriptor closed. *)
Lemma wp_filemagic e name path a b c d rest p :
  fs_law e → fs_open e path = true → fs_content e path = a :: b :: c :: d :: rest →
  wp (filemagic e [name; path]) (λ _ p', ∃ text,
    p' = Proc (open_fds p) (mappings p) (live_names p) (stdout p ++ [text ++ [newline]]) ∧
    hex_value text = Z.of_nat (u8 a) + 256 * (Z.of_nat (u8 b) + 256 * (Z.of_nat (u8 c) + 256 * Z.of_nat (u8 d)))) p.
Proof.
  intros [Hpick _] Hopen Hc. unfold filemagic. apply wp_bind. unfold wp at 1, open_file. rewrite Hopen. cbn [yields fst snd].
  set (n := fs_pick e (open_fds p)). assert (n ∉ open_fds p) as Hn by apply Hpick.
  rewrite Hc. cbn [read4 take load_uint fmap list_fmap app]. apply wp_bind, wp_lift. cbn [yields].
  apply wp_bind, wp_print, wp_close. cbn [open_fds mappings live_names stdout].
  eexists. split; [f_equal; clear -Hn; set_solver|]. apply hex_digits_value.
  pose proof (u8_bound a). pose proof (u8_bound b). pose proof (u8_bound c). pose proof (u8_bound d).
  change (16 ^ Z.of_nat 8) with 4294967296. lia.
Qed.

(** A shorter file: bytes of the stack that were never written are printed. *)
Lemma filemagic_short e name path p :
  fs_open e path = true → (length (fs_content e path) < 4)%nat →
  filemagic e [name; path] p = Fail Uninitialised.
Proof.
  intros Hopen Hc. unfold filemagic, open_file, mbind, M_bind. rewrite Hopen. unfold lift, read4.
  destruct (fs_content e path) as [|? [|? [|? [|]]]]; try done. cbn in Hc. lia.
Qed.

(** ** [snippets/file-mt.c] *)

(** The array [tid] has two elements. *)
Definition tid_size : Z := 2.

(** [thread_routine]. *)
Definition thread_routine (targ : list byte) : M proc unit := print (targ ++ [newline]).

(** The loop of [main]: each thread is joined before the next is created. *)
Fixpoint create_threads (i : Z) (filelist : list (list byte)) : M proc unit :=
  match filelist with
  | [] => mret tt
  | file :: filelist' =>
      lift (check (bool_decide (i < tid_size)) OutOfBounds);;
      thread_routine file;;
      create_threads (i + 1) filelist'
  end.

Definition file_mt (argv : list (list byte)) : M proc unit :=
  if bool_decide (length argv < 2)%nat then
    print (bytes_of "wrong number of input" ++ [newline]);; fail (Exited 0)
  else if bool_decide (16 < length argv)%nat then
    print (bytes_of "Too many files to be processed" ++ [newline]);; fail (Exited 0)
  else create_threads 0 (tail argv).

(** The loop prints the names in their order as long as [tid] has elements. *)
Lemma create_threads_run fs : ∀ i p,
  0 ≤ i →
  create_threads i fs p =
    if bool_decide (i + Z.of_nat (length fs) ≤ Z.max i tid_size)
    then Ok (tt, Proc (open_fds p) (mappings p) (live_names p) (stdout p ++ ((λ f, f ++ [newline]) <$> fs)))
    else Fail OutOfBounds.
Proof.
  induction fs as [|f fs IH]; intros i p Hi; cbn [create_threads].
  { rewrite bool_decide_true by (cbn [length]; lia). cbn. rewrite app_nil_r. by destruct p. }
  unfold tid_size in *. unfold mbind, M_bind, lift, check. case_bool_decide; cbn [length].
  - unfold thread_routine, print. rewrite IH by lia.
    rewrite (bool_decide_ext _ (i + Z.of_nat (S (length fs)) ≤ i `max` 2)) by lia.
    case_bool_decide; [|done]. cbn. by rewrite <-(assoc_L (++)).
  - by rewrite bool_decide_false by lia.
Qed.

(** One or two arguments are printed; with three to fifteen, which [main]
    accepts, the third thread's identifier is stored behind [tid]. *)
Lemma file_mt_run name fs p :
  (1 ≤ length fs ≤ 15)%nat →
  file_mt (name :: fs) p =
    if bool_decide (length fs ≤ 2)%nat
    then Ok (tt, Proc (open_fds p) (mappings p) (live_names p) (stdout p ++ ((λ f, f ++ [newline]) <$> fs)))
    else Fail OutOfBounds.
Proof.
  intros Hfs. unfold file_mt. rewrite !bool_decide_false by (cbn [length]; lia). cbn [tail].
  rewrite create_threads_run by lia. unfold tid_size.
  by rewrite (bool_decide_ext _ (length fs ≤ 2)%nat) by lia.
Qed.
