(* ===== verification/Expectations.v ===== *)
(** What the tests of the repository expect ([test/test_match.cpp],
    [test/test_trie.cpp], [test/test_rope.cpp]): the expectations hold of the
    model, those with random data for all data. *)

From S2P Require Import Prelude CInt Match Heap Trie TrieSpec LinkedList Rope.
Local Open Scope nat_scope.

(** ** [test/test_trie.cpp] *)

(** [array[cnt-1] += 2]. *)
Definition add_two (b : byte) : byte := default x00 (Byte.of_N ((Byte.to_N b + 2) mod 256)).

Lemma add_two_other b : add_two b ≠ b.
Proof. destruct b; discriminate. Qed.

(** The session on a set of words decides what is expected of the tree. *)
Lemma session_expects h ops answers :
  heap_ok h → Forall (λ op, op_word op ≠ []) ops → sum_list_with insert_cost ops < avail h →
  set_run ∅ ops = answers →
  wp (trie_session ops) (λ bs h', bs = answers ∧ cells h' = cells h) h.
Proof. intros ??? <-. by apply wp_trie_session. Qed.

(** [InsertOneElement], for every array. *)
Lemma insert_one_element h w b :
  heap_ok h → 2 * (length w + 1) < avail h →
  let array := w ++ [b] in
  wp (trie_session [Insert array; Insert array; Lookup array; Lookup (w ++ [add_two b])])
    (λ bs h', bs = [true; false; true; false] ∧ cells h' = cells h) h.
Proof.
  intros Hh Hav array. apply session_expects; [done| |unfold array; cbn [sum_list_with insert_cost]; rewrite !length_app; cbn [length]; lia|].
  - repeat constructor; cbn; by destruct w.
  - cbn [set_run set_answer TrieSpec.set_next]. rewrite bool_decide_true by set_solver.
    rewrite bool_decide_false, bool_decide_true by set_solver. rewrite bool_decide_false; [done|].
    rewrite !elem_of_union, !elem_of_singleton. intros [Heq|[Heq|?]]; [| |set_solver];
      apply app_inv_head in Heq; injection Heq as Heq; by apply (add_two_other b).
Qed.

(** The answers to lookups of words that have been inserted. *)
Lemma set_run_lookups K ws ks :
  (∀ w, w ∈ ks → w ∈ K ∨ w ∈ ws) →
  drop (length ws) (set_run K ((Insert <$> ws) ++ (Lookup <$> ks))) = replicate (length ks) true.
Proof.
  revert K. induction ws as [|w ws IH]; intros K Hks.
  - cbn [length drop fmap list_fmap app]. induction ks as [|k ks IHks]; [done|]. cbn.
    rewrite bool_decide_true by (destruct (Hks k ltac:(by left)) as [|?%elem_of_nil]; done).
    f_equal. apply IHks. intros w Hw. apply Hks. by right.
  - cbn. apply IH. intros k Hk. destruct (Hks k Hk) as [?|[->|?]%elem_of_cons]; [left|left|by right]; set_solver.
Qed.

(** [SearchInMany], for all entries: each is found. *)
Lemma search_in_many h entries :
  heap_ok h → Forall (λ w, w ≠ []) entries → sum_list_with length entries < avail h →
  wp (trie_session ((Insert <$> entries) ++ (Lookup <$> entries)))
    (λ bs h', drop (length entries) bs = replicate (length entries) true ∧ cells h' = cells h) h.
Proof.
  intros Hh Hne Hav. eapply wp_mono; [apply wp_trie_session; [done|..]|].
  - apply Forall_app. split; by apply Forall_fmap.
  - rewrite sum_list_with_app. assert (∀ l, sum_list_with insert_cost (Insert <$> l) = sum_list_with length l) as ->
      by (induction l; cbn in *; congruence).
    assert (∀ l, sum_list_with insert_cost (Lookup <$> l) = 0) as -> by (induction l; done). lia.
  - intros bs h' [-> ?]. split; [|done]. apply set_run_lookups. auto.
Qed.

(** [SearchMagic]: the words of its table; each is new, and four lookups. *)
Definition test_magic : list (list byte) := [
    [x00; x00; x00; x14; x66; x74; x79; x70];
    [x00; x00; x00; x18; x66; x74; x79; x70];
    [x00; x00; x00; x20; x66; x74; x79; x70];
    [x00; x00; x01; x00];
    [x1f; x9d];
    [x1f; xa0];
    [x25; x50; x44; x46];
    [x38; x42; x50; x53];
    [x42; x4d];
    [x43; x44; x30; x30; x31];
    [x47; x49; x46; x38; x37; x61];
    [x47; x49; x46; x38; x39; x61];
    [x49; x44; x33];
    [x49; x49; x2a; x00];
    [x4d; x4d; x00; x2a];
    [x4d; x5a];
    [x4f; x67; x67; x53];
    [x50; x4b; x03; x04];
    [x50; x4b; x05; x06];
    [x50; x4b; x07; x08];
    [x52; x61; x72; x21; x1a; x07; x00];
    [x52; x61; x72; x21; x1a; x07; x01; x00];
    [x66; x4c; x61; x43];
    [x7f; x45; x4c; x46];
    [x89; x50; x4e; x47; x0d; x0a; x1a; x0a];
    [xca; xfe; xba; xbe];
    [xce; xfa; xed; xfe];
    [xcf; xfa; xed; xfe];
    [xd0; xcf; x11; xe0];
    [xef; xbb; xbf];
    [xfe; xed; xfa; xce];
    [xfe; xed; xfa; xcf];
    [xff; xfb];
    [xff; xfe];
    [xff; xfe; x00; x00]].

Example search_magic :
  set_run ∅ ((Insert <$> test_magic) ++
    [Lookup [x52; x61; x72; x21; x1a; x07; x01; x00]; Lookup [x52; x61; x72; x21; x1a; x07; x01; x10];
     Lookup [x52; x60; x72; x21; x1a; x07; x01; x00]; Lookup [x52; x61; x72; x21; x1a; x07; x01]]) =
  replicate (length test_magic) true ++ [true; false; false; false].
Proof. by vm_compute. Qed.

(** [ScanTest]. *)
Example scan_test :
  (bs ← trie_session
     [Insert [x52; x61; x72; x21; x1a; x07; x01; x00]; Scan [x52; x61; x72; x21; x1a; x07; x01];
      Scan [x52; x61; x72; x21; x1a; x07]; Scan [x52; x61; x72; x22; x1a; x07; x01; x00];
      Scan [x52; x61; x72; x21; x1a; x07; x01; x00; x11]]; mret bs) (Heap ∅ 1%positive 20) ⇓ λ r,
    r.1 = [true; false; false; false; true].
Proof. by vm_compute. Qed.

(** ** [test/test_match.cpp] *)

(** The file, which is also the text that the test searches. *)
Definition test_match_cpp : list byte := concat ((λ l, l ++ [newline]) <$> [
    bytes_of "#include " ++ [x22] ++ bytes_of "gtest/gtest.h" ++ [x22];
    [];
    bytes_of "extern " ++ [x22] ++ bytes_of "C" ++ [x22] ++ bytes_of " {";
    bytes_of "#include " ++ [x22] ++ bytes_of "config.h" ++ [x22];
    bytes_of "#include " ++ [x22] ++ bytes_of "match.h" ++ [x22];
    bytes_of "#include <string.h>";
    bytes_of "#include <unistd.h>";
    bytes_of "#include <fcntl.h>";
    bytes_of "#include <sys/mman.h>";
    bytes_of "#include <sys/stat.h>";
    bytes_of "}";
    [];
    bytes_of "#define die(msg)                                \";
    bytes_of "    {                                           \";
    bytes_of "        perror(msg);                            \";
    bytes_of "        exit(1);                                \";
    bytes_of "    }";
    [];
    bytes_of "using namespace std;";
    [];
    bytes_of "class MatchTest : public ::testing::Test";
    bytes_of "{";
    bytes_of "protected:";
    bytes_of "    int fd;";
    bytes_of "    char *p;";
    bytes_of "    struct stat st;";
    [];
    bytes_of "    virtual void SetUp()";
    bytes_of "    {";
    bytes_of "        if ((fd = open(" ++ [x22] ++ bytes_of "test/test_match.cpp" ++ [x22] ++ bytes_of ", O_RDONLY)) < 0)";
    bytes_of "            die(" ++ [x22] ++ bytes_of "open" ++ [x22] ++ bytes_of ");";
    [];
    bytes_of "        if(fstat(fd, &st) < 0)";
    bytes_of "            die(" ++ [x22] ++ bytes_of "fstat" ++ [x22] ++ bytes_of ");";
    [];
    bytes_of "        if ((p = (char *)mmap(0, st.st_size, PROT_READ, MAP_SHARED, fd, 0)) == MAP_FAILED)";
    bytes_of "            die(" ++ [x22] ++ bytes_of "mmap" ++ [x22] ++ bytes_of ");";
    bytes_of "    }";
    [];
    bytes_of "    virtual void TearDown()";
    bytes_of "    {";
    bytes_of "        munmap(p, st.st_size);";
    bytes_of "        close(fd);";
    bytes_of "    }";
    bytes_of "};";
    [];
    bytes_of "TEST_F(MatchTest, KMPCheck)";
    bytes_of "{";
    bytes_of "    const char *pattern = " ++ [x22] ++ bytes_of "stat" ++ [x22] ++ bytes_of ";";
    [];
    bytes_of "    uint32_t linum;";
    bytes_of "    uint32_t pos;";
    bytes_of "    int pstart = 0;";
    [];
    bytes_of "    kmp_prepare(pattern, 4);";
    bytes_of "    EXPECT_EQ(kmp_match(p + pstart, strlen(p), &linum, &pos), true);";
    bytes_of "    EXPECT_EQ(strncmp(pattern, p + pos + pstart, 4), 0);";
    [];
    bytes_of "    pstart = pos + 4;";
    bytes_of "    EXPECT_EQ(kmp_match(p + pstart, strlen(p), &linum, &pos), true);";
    bytes_of "    EXPECT_EQ(strncmp(pattern, p + pos + pstart, 4), 0);";
    bytes_of "    kmp_finish();";
    bytes_of "}"]).

(** [KMPCheck]: [stat] is found twice. The test does not initialise [linum],
    which [kmp_match] reads; here it starts with 1. *)
Example kmp_check :
  let text := test_match_cpp in
  let found pos := bool_decide (take 4 (drop (Z.to_nat pos) text) = bytes_of "stat") in
  (st ← kmp_prepare true (bytes_of "stat") 4 kmp_initial;
   r1 ← kmp_match st text (Z.of_nat (length text)) 1;
   let pstart := (matchpos r1 + 4)%Z in
   r2 ← kmp_match st (drop (Z.to_nat pstart) text) (Z.of_nat (length text)) (linum r1);
   Ok (matched r1, found (matchpos r1), matched r2, found (matchpos r2 + pstart)%Z)) =
  Ok (true, true, true, true).
Proof. by vm_compute. Qed.

(** ** [test/test_rope.cpp] *)

Definition helloworld : list byte := bytes_of "helloworld" ++ [x00].
Definition three_writes : M rmem unit :=
  buf_init (Some 1%positive);;
  buf_writes (Some 1%positive) [(helloworld, 10%Z); (helloworld, 10%Z); (helloworld, 10%Z)].

(** [AddTest], [BaseTest] and [DumpTest]. *)
Example add_test :
  (three_writes;; b ← on_links (list_empty (Some 1%positive)); buf_destroy 3 (Some 1%positive);; mret b)
    empty_rmem ⇓ λ r, r.1 = false.
Proof. by vm_compute. Qed.

Example base_test :
  (buf_init (Some 1%positive);; b ← on_links (list_empty (Some 1%positive));
   buf_destroy 0 (Some 1%positive);; mret b) empty_rmem ⇓ λ r, r.1 = true.
Proof. by vm_compute. Qed.

Example dump_test :
  (three_writes;; out ← buf_dump 3 (Some 1%positive); buf_destroy 3 (Some 1%positive);; mret out)
    empty_rmem ⇓ λ r, r.1 = replicate 3 (bytes_of "helloworld" ++ [newline]).
Proof. by vm_compute. Qed.
